(* ===== verification/_CoqProject ===== *)
-Q . S2P
Prelude.v
Interfaces.v
Bytes.v
DiskManager.v
LRUKReplacer.v
BufferPool.v
BufferPoolSpec.v
PageGuard.v
Value.v
Tuple.v
TablePage.v
TableHeap.v
Restart.v
HeapCursor.v
HeapChange.v
LockManager.v
BPlusTreePage.v
NodeLayout.v
BPlusTree.v
TreeInvariant.v
TreeRemove.v
BPlusTreeSpec.v
RemoveSpec.v
TreeMapSpec.v
IteratorSpec.v
Expression.v
Catalog.v
CatalogSpec.v
Plan.v
Executor.v
QuerySemantics.v
AggregationSpec.v
ExecutorSpec.v
Optimizer.v
RowSource.v
ChangeSpec.v
Protocol.v
ResultText.v
Binder.v
SqlSemantics.v
BinderSpec.v
Server.v
ServerSpec.v
