(* ===== verification/Prelude.v ===== *)
(** * OneBase: a verified model of a small relational database

    OneBase ([src/src], C++17) is a disk-based SQL database: a client sends text, the
    server parses, binds, optimizes and executes it over pages that a buffer pool keeps
    in memory.  This library models the program from the bytes of the database file to
    the bytes on the socket and proves the parts correct, each against the promise it
    makes to the next.

    ** The parts, from the bottom up

    - [DiskManager] ([storage/disk/disk_manager.cpp]): a file of pages behind a
      [std::fstream] with its error bits, opened, closed and opened again.
    - [LRUKReplacer] ([buffer/lru_k_replacer.cpp]): which frame to evict.
    - [BufferPool], [BufferPoolSpec] ([buffer/buffer_pool_manager.cpp], [page.h]): frames
      over any disk; they refine the abstract memory of [Interfaces.pstate] (page
      contents, pins, pages that must not be lost).
    - [PageGuard] ([buffer/page_guard.cpp], [common/rwlatch.h]): guards that pin, latch
      and report changes, with moves and destruction.
    - [Value], [Tuple] ([type/*.cpp], [catalog/column.h], [schema.h], [tuple.cpp]).
    - [TablePage], [TableHeap], [HeapCursor], [HeapChange]
      ([storage/page/table_page.cpp], [storage/table/table_heap.cpp]): slotted pages and
      chains of them, their iterator, and changes under an iterator.
    - [Restart] (destructors, [onebase_server/onebase_instance.cpp]): the end of a program
      and the start of the next one on the same file.
    - [LockManager] ([concurrency/*.cpp]): two-phase locking as a step relation over
      atomic sections, for any number of transactions.
    - [BPlusTreePage], [NodeLayout], [BPlusTree] ([storage/page/b_plus_tree_*.cpp],
      [storage/index/*.cpp]): the nodes, their bytes, and the tree with its iterator.
      [TreeInvariant], [TreeRemove]: the shape of a tree and what keeps it;
      [BPlusTreeSpec], [RemoveSpec], [TreeMapSpec], [IteratorSpec]: insertions, removals,
      sequences of operations as a finite map, and the loop over all entries.
    - [Expression], [Catalog], [CatalogSpec], [Plan], [Executor] ([execution/**],
      [catalog/*]): what statements are made of and how they run.
    - [QuerySemantics], [AggregationSpec], [ExecutorSpec]: relational algebra on lists of
      rows, with the aggregation of SQL, and the proof that the executors compute it.
    - [Optimizer] ([optimizer/optimizer.cpp]).
    - [RowSource], [ChangeSpec]: what DELETE, UPDATE and INSERT ask of the scan below
      them, that both scans keep it, and how the statements change tables.
    - [Binder], [SqlSemantics], [BinderSpec] ([binder/binder.cpp]): parse trees to plans,
      and the meaning of SELECT, DELETE and UPDATE statements by names.
    - [Protocol], [ResultText], [Server], [ServerSpec] ([include/onebase/server],
      [onebase_server], [onebase_client], [tools/onebase_shell.cpp]): messages, results as
      text, the loops of server, client and shell.
    - [Prelude], [Interfaces], [Bytes]: outcomes, the state monad and its rules of total
      correctness, integers of a fixed width; the promises between storage components;
      memory as bytes.

    A definition has the name of the function it models.  An object with state is a
    record; a method is a function [M S A] from the state to an outcome and the state
    after it, which is kept when an exception leaves the method.  A pointer is what it
    leads to, or the index of the frame, page or object where it matters which one it
    is.

    ** How the parts meet

    A component is proved against classes, not against its neighbours: [Disk] and
    [DiskSpec] between disk manager and buffer pool; [PageStore] and [PageStoreSpec]
    between buffer pool and everything that keeps data in pages; [PageLatches] for the
    guards; [NodeLayout] between the tree and the bytes of its nodes; [row_source] between
    a scan and the statement that changes the table under it; [Socket] and [SocketSpec]
    under the protocol.  The instances discharge them:
    [DiskManager_disk], [pool_store], [pool_latches], [byte_layout].  A theorem about a
    table heap or a query therefore holds over the real pool, with all its evictions,
    and over any other store that keeps the promise.

    ** What is shown

    - Storage: the pool refines a memory of pages and never fails by itself; contents
      survive evictions; a flush reaches the disk and makes every page survive a
      restart, and without one rows are lost; the replacer evicts by LRU-K over the
      complete access log; guards balance.
    - Tables: the slotted page is a list of tuples, a heap holds what was inserted, a
      scan returns it once and in order.
    - Index: insertions and lookups in the B+ tree answer as a finite map does, over
      splits up to the root, and so do removals in a tree of two levels, with loans and
      merges of leaves and the collapse of the root; an iteration gives the entries in
      the order of the keys (and leaves each leaf pinned); the moves of cells between
      nodes lose nothing.
    - Queries: expressions are type safe; plans that read compute relational algebra,
      terminate, and change no page; aggregations are those of SQL where the executor
      agrees with it ([aggregates_ok]: it keeps one counter, sum, minimum and maximum
      for all aggregates of a plan, joins printed values to a key, and gives 0 for NULL);
      on tables without indexes DELETE, UPDATE and INSERT change exactly the rows they
      should, while the scan that the optimizer chose for them is on its way (they do
      not maintain indexes, see [delete_leaves_indexes_stale]); the optimizer preserves
      the meaning of plans; a new index is complete.
    - Statements: a SELECT statement of the forms of [select_ok] is bound to a plan with
      its meaning; the server answers the statements of a client one after the other, a
      SELECT with the text of the rows that SQL says the tables have at that time, a
      DELETE or an UPDATE on a table without indexes with their number.  The parse tree
      has all clauses; those that the binder ignores (DISTINCT, HAVING, OFFSET, the kind of a join,
      USING, the kind of an operator; [clauses_ignored]) are outside these theorems, and
      so are ambiguous names.
    - Locks: granted locks never conflict; a transaction that has released a lock gets
      no other until it ends.
    - Errors and bounds: where the code fails, overflows a page or loses an update, the
      theorem says when and how ([UpdateTuple_overruns], [default_sizes_overrun] (a tree
      of the default sizes overruns its first leaf), [read_past_end_disables_disk],
      [waiting_upgrade_breaks_exclusion], [column_after_varchar_misread],
      [delete_leaves_indexes_stale], [clauses_ignored], and others).

    ** Rounds and fuel

    Loops that are not structural take a number of rounds and end in the outcome
    [OutOfFuel] when it is used up, which is never a result; [wp] is total correctness.
    A loop along a chain of heap pages needs one round more than the chain has pages, a
    descent in the tree one more than its height, a loop over rows one more than there
    are rows.  The theorems say that some number of rounds is enough and every larger
    one too.

    ** Parameters

    Code that is not part of the repository is an argument of the definitions that use
    it: [SqlParser] (libpg_query) and [FloatParser] ([std::stof]) of the binder,
    [FloatFormat] (fmt), [SortAlgorithm] ([std::sort], a sorted permutation for a strict
    weak order), [IterOrder] and [NameOrder] (the order of an [unordered_map]), and the
    system calls of [Socket].

    ** Not modelled

    Overflow of three counters: [pin_count_] of a page (an [int]; the model counts in Z),
    the length of a tuple (a [uint32_t]; the length of a list), and the sizes of the
    replacer (a [size_t]; nat).  Other integers have their width.

    Threads: each method of the pool and of the lock manager runs under its latch and is
    one atomic step, or two around a wait; the interleavings of these steps are modelled,
    the memory model below them is not.  The command lines, signal handlers and the
    set-up of sockets are I/O, and so is opening the file: the constructor of the disk
    manager starts from its bytes.  The logger and the stub of the tree printer print.
    Destructors of plain data do nothing.

    ** What is left

    Removals from a tree of more than two levels (its merges of internal pages do not
    update the parents of the children that move), and sessions of the server with
    INSERT, whose rows go to the pages that have the free bytes for them. *)
From stdpp Require Export base tactics numbers option list gmap sets strings.
From Stdlib Require Export Lia.

(** Facts that close the small goals along the code. *)
Create HintDb onebase.

(** ** Outcomes of C++ code

    A call returns a value, throws an exception, or has undefined behaviour
    (signed overflow, an access outside an object, a dangling iterator).  A loop
    that the model runs with a bounded number of rounds may also run out of
    them, which is an outcome of its own, so that no theorem about a result can
    hold because a loop was cut short. *)

Inductive ExceptionType : Set :=
  | INVALID_EXCEPTION | OUT_OF_RANGE | BUFFER_FULL | IO_ERROR | EXECUTION
  | TRANSACTION | LOCK | CATALOG | TYPE_MISMATCH | NOT_IMPLEMENTED.

Inductive exn : Set :=
  | LogicError (msg : string)
  | RuntimeError (msg : string)
  | OneBaseException (msg : string) (ty : ExceptionType).

Inductive outcome (A : Type) : Type :=
  | Ret (a : A)
  | Throw (e : exn)
  | Undef
  | OutOfFuel.
Arguments Ret {A} a.
Arguments Throw {A} e.
Arguments Undef {A}.
Arguments OutOfFuel {A}.

#[export] Instance ExceptionType_eq_dec : EqDecision ExceptionType.
Proof. solve_decision. Defined.
#[export] Instance exn_eq_dec : EqDecision exn.
Proof. solve_decision. Defined.
#[export] Instance outcome_eq_dec {A} `{EqDecision A} : EqDecision (outcome A).
Proof. solve_decision. Defined.

#[export] Instance outcome_ret : MRet outcome := fun A a => Ret a.
#[export] Instance outcome_bind : MBind outcome := fun A B k m =>
  match m with
  | Ret a => k a
  | Throw e => Throw e
  | Undef => Undef
  | OutOfFuel => OutOfFuel
  end.

(** A dereference that the program makes without a check: no value there is
    undefined behaviour. *)
Definition deref {A} (o : option A) : outcome A :=
  match o with Some a => Ret a | None => Undef end.

(** [ONEBASE_ASSERT(expr, message)] and [UNREACHABLE(message)]. *)
Definition ONEBASE_ASSERT (b : bool) (msg : string) : outcome unit :=
  if b then Ret tt else Throw (LogicError msg).
Definition UNREACHABLE {A} (msg : string) : outcome A := Throw (LogicError msg).

(** ** State and exceptions

    A method of an object with state [S]: the state after the call is kept when
    the call throws, as the members of a C++ object are. *)
Definition M (S A : Type) : Type := S → outcome A * S.

#[export] Instance M_ret {S} : MRet (M S) := fun A a s => (Ret a, s).
#[export] Instance M_bind {S} : MBind (M S) := fun A B k m s =>
  match m s with
  | (Ret a, s') => k a s'
  | (Throw e, s') => (Throw e, s')
  | (Undef, s') => (Undef, s')
  | (OutOfFuel, s') => (OutOfFuel, s')
  end.

Section monad_ops.
Context {S T A : Type}.
Definition gets (f : S → A) : M S A := fun s => (Ret (f s), s).
Definition modify (f : S → S) : M S unit := fun s => (Ret tt, f s).
Definition lift (o : outcome A) : M S A := fun s => (o, s).
(** A call on a component of the state. *)
Definition zoom (get : S → T) (set : T → S → S) (m : M T A) : M S A :=
  fun s => let '(o, t) := m (get s) in (o, set t s).
End monad_ops.

(** Total correctness: [m] returns normally from [s] with a result and a state
    that satisfy [Q]. *)
Definition wp {S A} (m : M S A) (s : S) (Q : A → S → Prop) : Prop :=
  match m s with (Ret a, s') => Q a s' | _ => False end.

Section wp_rules.
Context {S : Type}.
Implicit Types s : S.

Lemma wp_ret {A} (a : A) s (Q : A → S → Prop) : Q a s → wp (mret a : M S A) s Q.
Proof. done. Qed.

Lemma wp_bind {A B} (m : M S A) (k : A → M S B) s (Q : B → S → Prop) :
  wp m s (fun a s' => wp (k a) s' Q) → wp (mbind k m) s Q.
Proof. unfold wp, mbind, M_bind. by destruct (m s) as [[]]. Qed.

Lemma wp_gets {A} (f : S → A) s (Q : A → S → Prop) : Q (f s) s → wp (gets f) s Q.
Proof. done. Qed.

Lemma wp_modify (f : S → S) s (Q : unit → S → Prop) : Q tt (f s) → wp (modify f) s Q.
Proof. done. Qed.

Lemma wp_lift {A} (a : A) s (Q : A → S → Prop) : Q a s → wp (lift (Ret a)) s Q.
Proof. done. Qed.

Lemma wp_zoom {T A} (get : S → T) set (m : M T A) s (Q : A → S → Prop) :
  wp m (get s) (fun a t => Q a (set t s)) → wp (zoom get set m) s Q.
Proof. unfold wp, zoom. by destruct (m (get s)) as [[]]. Qed.

Lemma wp_mono {A} (m : M S A) s (Q Q' : A → S → Prop) :
  wp m s Q → (∀ a s', Q a s' → Q' a s') → wp m s Q'.
Proof. unfold wp. destruct (m s) as [[]]; naive_solver. Qed.

Lemma wp_and {A} (m : M S A) s (P Q : A → S → Prop) : wp m s P → wp m s Q → wp m s (fun x s' => P x s' ∧ Q x s').
Proof. unfold wp. by destruct (m s) as [[] s']. Qed.

Lemma wp_elim {A} (m : M S A) s (Q : A → S → Prop) :
  wp m s Q → ∃ a s', m s = (Ret a, s') ∧ Q a s'.
Proof. unfold wp. destruct (m s) as [[]]; naive_solver. Qed.

Lemma bind_Ret {A B} (m : M S A) (k : A → M S B) s a s' :
  m s = (Ret a, s') → mbind k m s = k a s'.
Proof. unfold mbind, M_bind. by intros ->. Qed.

Lemma bind_Undef {A B} (m : M S A) (k : A → M S B) s s' :
  m s = (Undef, s') → mbind k m s = (Undef, s').
Proof. unfold mbind, M_bind. by intros ->. Qed.

Lemma bind_fails {A B} (m : M S A) (k : A → M S B) s :
  (m s).1 = Undef → (mbind k m s).1 = Undef.
Proof. unfold mbind, M_bind. destruct (m s) as [[]]; naive_solver. Qed.

Lemma wp_bind_fails {A B} (m : M S A) (k : A → M S B) s (Q : A → S → Prop) :
  wp m s Q → (∀ a s', Q a s' → (k a s').1 = Undef) → (mbind k m s).1 = Undef.
Proof. intros (a & s' & Hm & HQ)%wp_elim Hk. rewrite (bind_Ret _ _ _ _ _ Hm). by apply Hk. Qed.

Lemma bind_lift_Ret {A B} (a : A) (k : A → M S B) s : mbind k (lift (Ret a)) s = k a s.
Proof. done. Qed.

Lemma bind_gets {A B} (f : S → A) (k : A → M S B) s : mbind k (gets f) s = k (f s) s.
Proof. done. Qed.

Lemma bind_bind {A B C} (m : M S A) (k : A → M S B) (l : B → M S C) s :
  mbind l (mbind k m) s = mbind (fun a => mbind l (k a)) m s.
Proof. unfold mbind, M_bind. by destruct (m s) as [[]]. Qed.

Lemma bind_ext {A B} (m : M S A) (k k' : A → M S B) s :
  (∀ a s', k a s' = k' a s') → mbind k m s = mbind k' m s.
Proof. intros Hk. unfold mbind, M_bind. destruct (m s) as [[]]; done || apply Hk. Qed.

(** A result that is known from a total-correctness triple. *)
Lemma wp_bind_Ret {A B} (m : M S A) (k : A → M S B) s (Q : A → S → Prop) :
  wp m s Q → ∃ a s', Q a s' ∧ mbind k m s = k a s'.
Proof. intros (a & s' & Hm & HQ)%wp_elim. exists a, s'. split; [done|]. by apply bind_Ret. Qed.

Lemma wp_intro {A} (m : M S A) s a s' (Q : A → S → Prop) :
  m s = (Ret a, s') → Q a s' → wp m s Q.
Proof. unfold wp. by intros ->. Qed.
End wp_rules.

(** One step of a total-correctness proof along the code. *)
Ltac wp_step :=
  lazymatch goal with
  | |- wp (mbind _ _) _ _ => apply wp_bind
  | |- wp (mret _) _ _ => apply wp_ret
  | |- wp (gets _) _ _ => apply wp_gets
  | |- wp (modify _) _ _ => apply wp_modify
  | |- wp (lift (Ret _)) _ _ => apply wp_lift
  | |- wp (zoom _ _ _) _ _ => apply wp_zoom
  end; cbn beta.
Ltac wp_steps := repeat (wp_step; cbn beta iota).

(** Computes a method one level down: the state is passed through its steps. *)
Ltac m_unfold :=
  unfold wp, mbind, M_bind, mret, M_ret, gets, modify, lift, zoom; cbn beta iota.
Tactic Notation "m_unfold" "in" hyp(H) :=
  unfold wp, mbind, M_bind, mret, M_ret, gets, modify, lift, zoom in H; cbn beta iota in H.

(** ** Results that are known to be returned *)
Lemma outcome_bind_Ret {A B} (o : outcome A) (k : A → outcome B) b :
  mbind k o = Ret b → ∃ a, o = Ret a ∧ k a = Ret b.
Proof. destruct o as [a| | |]; [|done..]. intros Hb. by exists a. Qed.

(** Takes a successful computation apart. *)
Ltac outcome_inv :=
  repeat match goal with
  | Hb : mbind _ ?o = Ret _ |- _ =>
    let a := fresh "r" in let Ha := fresh "Hr" in
    apply outcome_bind_Ret in Hb as (a & Ha & Hb); cbn beta iota zeta in Hb
  | Hb : mret _ = Ret _ |- _ => unfold mret, outcome_ret in Hb
  | Hb : Ret _ = Ret _ |- _ => injection Hb as Hb; try subst
  | Hb : (if ?b then _ else _) = Ret _ |- _ => destruct b eqn:?
  end.

(** ** Integers of a fixed width *)
Declare Scope onebase_scope.
Delimit Scope onebase_scope with onebase.

Definition wrapu (w z : Z) : Z := z `mod` 2 ^ w.
Definition wraps (w z : Z) : Z := (z + 2 ^ (w - 1)) `mod` 2 ^ w - 2 ^ (w - 1).
Definition INT32_MIN : Z := -2147483648.
Definition INT32_MAX : Z := 2147483647.
Definition UINT32_MAX : Z := 4294967295.
Definition in_int32 (z : Z) : bool := bool_decide (INT32_MIN ≤ z ≤ INT32_MAX)%Z.

(** Signed 32-bit arithmetic: overflow is undefined behaviour. *)
Definition int32_op (z : Z) : outcome Z := if in_int32 z then Ret z else Undef.

Notation "'u16' z" := (wrapu 16 z) (at level 10) : onebase_scope.
Notation "'u32' z" := (wrapu 32 z) (at level 10) : onebase_scope.

Lemma wrapu_small w z : (0 ≤ z < 2 ^ w)%Z → wrapu w z = z.
Proof. apply Z.mod_small. Qed.

Lemma wrapu_range w z : (0 ≤ w)%Z → (0 ≤ wrapu w z < 2 ^ w)%Z.
Proof. intros. apply Z.mod_pos_bound, Z.pow_pos_nonneg; lia. Qed.

Lemma wraps_small z : in_int32 z = true → wraps 32 z = z.
Proof.
  unfold in_int32, wraps, INT32_MIN, INT32_MAX. intros ?%bool_decide_eq_true.
  change (2 ^ (32 - 1))%Z with 2147483648%Z. change (2 ^ 32)%Z with 4294967296%Z.
  rewrite Z.mod_small; lia.
Qed.

Lemma in_int32_iff z : in_int32 z = true ↔ (INT32_MIN ≤ z ≤ INT32_MAX)%Z.
Proof. apply bool_decide_eq_true. Qed.

Lemma int32_op_ok z : in_int32 z = true → int32_op z = Ret z.
Proof. unfold int32_op. by intros ->. Qed.

#[export] Hint Resolve wrapu_small wraps_small int32_op_ok : onebase.

(** ** Iteration over hash maps

    The order in which [std::unordered_map] is walked is not specified: code that
    walks over one takes an order as a parameter, which lists every entry once. *)
Class IterOrder := {
  iter_order {A} : gmap Z A → list (Z * A);
  iter_order_perm {A} (m : gmap Z A) : iter_order m ≡ₚ map_to_list m;
}.
#[export] Instance default_order : IterOrder | 100 := {
  iter_order A := map_to_list;
  iter_order_perm A m := reflexivity _;
}.
