(* ===== verification/Interfaces.v ===== *)
(** * Interfaces between the storage components

    What the disk manager promises to the buffer pool.  Clients are proved
    against these classes; the components discharge them. *)
From S2P Require Import Prelude.

#[local] Open Scope Z_scope.

(** Constants of [src/include/onebase/common/types.h] and [config.h]. *)
Definition INVALID_PAGE_ID : Z := -1.
Definition ONEBASE_PAGE_SIZE : Z := 4096.

(** A disk with state [K] that stores pages of type [D]. *)
Class Disk (K D : Type) := {
  disk_read : Z → M K D;
  disk_write : Z → D → M K unit;
  disk_allocate : M K Z;
  disk_deallocate : Z → M K unit;
  zero_page : D;
}.

(** The contract: [stored k id] is the page the disk gives back for [id]. *)
Class DiskSpec (K D : Type) `{Disk K D} := {
  disk_ok : K → Prop;
  page_ok : D → Prop;
  stored : K → Z → option D;
  next_id : K → Z;
  zero_page_ok : page_ok zero_page;
  stored_ok k id d : stored k id = Some d → page_ok d;
  disk_read_stored k id d :
    disk_ok k → stored k id = Some d → wp (disk_read id) k (fun d' k' => d' = d ∧ k' = k);
  disk_write_stored k id d :
    disk_ok k → 0 ≤ id < INT32_MAX → page_ok d →
    wp (disk_write id d) k (fun _ k' =>
      disk_ok k' ∧ next_id k' = next_id k ∧ stored k' id = Some d ∧
      ∀ j d', j ≠ id → stored k j = Some d' → stored k' j = Some d');
  disk_allocate_fresh k :
    disk_ok k → 0 ≤ next_id k < INT32_MAX →
    wp disk_allocate k (fun id k' =>
      id = next_id k ∧ disk_ok k' ∧ next_id k' = next_id k + 1 ∧ ∀ j, stored k' j = stored k j);
  disk_deallocate_noop k id :
    disk_ok k →
    wp (disk_deallocate id) k (fun _ k' =>
      disk_ok k' ∧ next_id k' = next_id k ∧ ∀ j, stored k' j = stored k j);
}.

(** ** Page stores

    What the buffer pool promises to the table heap and to the index: a memory of
    pages of which at most [ps_cap] different ones can be pinned at a time.  The
    specification state has the content of every live page, the pinned pages with
    their frame and pin count, and the pages whose changes the store does not know
    of yet, because the client has not unpinned them as dirty. *)
Record pstate (D : Type) := mkPState {
  ps_cap : nat;
  ps_next : Z;
  ps_pages : gmap Z D;
  ps_pinned : gmap Z (Z * Z);
  ps_unsaved : gset Z;
}.
Arguments mkPState {D}.
Arguments ps_cap {D}.
Arguments ps_next {D}.
Arguments ps_pages {D}.
Arguments ps_pinned {D}.
Arguments ps_unsaved {D}.

Section pstate_steps.
Context {D : Type}.
Implicit Types a : pstate D.

(** A new page [id], pinned in frame [f]. *)
Definition spec_new (d : D) (f : Z) a : pstate D :=
  mkPState (ps_cap a) (ps_next a + 1) (<[ps_next a := d]> (ps_pages a))
    (<[ps_next a := (f, 1)]> (ps_pinned a)) ({[ps_next a]} ∪ ps_unsaved a).

(** Page [id] is pinned [c] times, in frame [f]. *)
Definition spec_pin (id f c : Z) a : pstate D :=
  mkPState (ps_cap a) (ps_next a) (ps_pages a) (<[id := (f, c)]> (ps_pinned a)) (ps_unsaved a).

Definition spec_unpin (id f c : Z) (dirty : bool) a : pstate D :=
  mkPState (ps_cap a) (ps_next a) (ps_pages a)
    (if bool_decide (c = 1) then delete id (ps_pinned a) else <[id := (f, c - 1)]> (ps_pinned a))
    (if dirty then ps_unsaved a ∖ {[id]} else ps_unsaved a).

Definition spec_delete (id : Z) a : pstate D :=
  mkPState (ps_cap a) (ps_next a) (delete id (ps_pages a)) (ps_pinned a) (ps_unsaved a).

Definition spec_write (id : Z) (d : D) a : pstate D :=
  mkPState (ps_cap a) (ps_next a) (<[id := d]> (ps_pages a)) (ps_pinned a) ({[id]} ∪ ps_unsaved a).
End pstate_steps.

Class PageStore (S D : Type) := {
  ps_new_page : M S (option (Z * Z));
  ps_fetch_page : Z → M S (option Z);
  ps_unpin_page : Z → bool → M S bool;
  ps_delete_page : Z → M S bool;
  ps_get_data : Z → M S D;
  ps_set_data : Z → D → M S unit;
  ps_zero : D;
}.

Class PageStoreSpec (S D : Type) `{PageStore S D} := {
  ps_ok : D → Prop;
  ps_rep : S → pstate D → Prop;
  ps_zero_ok : ps_ok ps_zero;
  ps_rep_pages s a id d : ps_rep s a → ps_pages a !! id = Some d → 0 ≤ id < ps_next a ∧ ps_ok d;
  ps_rep_pinned s a id f c : ps_rep s a → ps_pinned a !! id = Some (f, c) → 0 < c ∧ is_Some (ps_pages a !! id);
  ps_rep_unsaved s a id : ps_rep s a → id ∈ ps_unsaved a → is_Some (ps_pinned a !! id);
  ps_new_spec s a : ps_rep s a → ps_next a < INT32_MAX → (size (ps_pinned a) < ps_cap a)%nat →
    wp ps_new_page s (fun o s' => ∃ f, o = Some (ps_next a, f) ∧ ps_rep s' (spec_new ps_zero f a));
  ps_new_full s a : ps_rep s a → size (ps_pinned a) = ps_cap a → ps_new_page s = (Ret None, s);
  ps_fetch_pinned s a id f c : ps_rep s a → ps_pinned a !! id = Some (f, c) →
    wp (ps_fetch_page id) s (fun o s' => o = Some f ∧ ps_rep s' (spec_pin id f (c + 1) a));
  ps_fetch_spec s a id d : ps_rep s a → ps_pages a !! id = Some d → ps_pinned a !! id = None →
    (size (ps_pinned a) < ps_cap a)%nat →
    wp (ps_fetch_page id) s (fun o s' => ∃ f, o = Some f ∧ ps_rep s' (spec_pin id f 1 a));
  ps_fetch_full s a id : ps_rep s a → ps_pinned a !! id = None → size (ps_pinned a) = ps_cap a →
    ps_fetch_page id s = (Ret None, s);
  ps_unpin_spec s a id f c dirty : ps_rep s a → ps_pinned a !! id = Some (f, c) →
    dirty = true ∨ 1 < c ∨ id ∉ ps_unsaved a →
    wp (ps_unpin_page id dirty) s (fun b s' => b = true ∧ ps_rep s' (spec_unpin id f c dirty a));
  ps_unpin_unpinned s a id dirty : ps_rep s a → ps_pinned a !! id = None →
    ps_unpin_page id dirty s = (Ret false, s);
  ps_delete_spec s a id : ps_rep s a → ps_pinned a !! id = None →
    wp (ps_delete_page id) s (fun b s' => b = true ∧ ps_rep s' (spec_delete id a));
  ps_delete_pinned s a id : ps_rep s a → is_Some (ps_pinned a !! id) →
    ps_delete_page id s = (Ret false, s);
  ps_get_spec s a id f c d : ps_rep s a → ps_pinned a !! id = Some (f, c) → ps_pages a !! id = Some d →
    ps_get_data f s = (Ret d, s);
  ps_set_spec s a id f c d : ps_rep s a → ps_pinned a !! id = Some (f, c) → ps_ok d →
    wp (ps_set_data f d) s (fun _ s' => ps_rep s' (spec_write id d a));
}.
