(* ===== verification/Bytes.v ===== *)
(** * Memory as bytes

    The casts [*reinterpret_cast<T *>(data_ + offset)] and the calls to [memcpy]
    of the storage layer, on a block of memory given as the list of its bytes.
    The machine is little endian.  An access that is not inside the block is
    undefined behaviour. *)
From coqutil Require Import Byte Word.LittleEndianList.
From S2P Require Import Prelude.

#[local] Open Scope Z_scope.
#[local] Coercion Z.of_nat : nat >-> Z.

(** [n] bytes at [off]. *)
Definition mem_read (off n : Z) (d : list byte) : outcome (list byte) :=
  if bool_decide (0 ≤ off ∧ 0 ≤ n ∧ off + n ≤ length d)
  then Ret (take (Z.to_nat n) (drop (Z.to_nat off) d)) else Undef.

(** [memcpy(d + off, bs, |bs|)]. *)
Definition mem_write (off : Z) (bs d : list byte) : outcome (list byte) :=
  if bool_decide (0 ≤ off ∧ off + length bs ≤ length d)
  then Ret (take (Z.to_nat off) d ++ bs ++ drop (Z.to_nat off + length bs) d) else Undef.

(** [memset(d, 0, n)]. *)
Definition zeros (n : nat) : list byte := replicate n Byte.x00.

(** Unsigned and signed integers of [n] bytes. *)
Definition load_u (n : nat) (off : Z) (d : list byte) : outcome Z :=
  bs ← mem_read off n d; mret (le_combine bs).
Definition store (n : nat) (off v : Z) (d : list byte) : outcome (list byte) :=
  mem_write off (le_split n v) d.
Definition load_s (n : nat) (off : Z) (d : list byte) : outcome Z :=
  v ← load_u n off d; mret (wraps (8 * n) v).

(** ** Reading back what was written *)

Lemma length_le_split n v : length (le_split n v) = n.
Proof. apply length_le_split. Qed.

Lemma length_zeros n : length (zeros n) = n.
Proof. apply length_replicate. Qed.

Lemma mem_write_Ret off bs d d' :
  mem_write off bs d = Ret d' ↔
  0 ≤ off ∧ off + length bs ≤ length d ∧
  d' = take (Z.to_nat off) d ++ bs ++ drop (Z.to_nat off + length bs) d.
Proof.
  unfold mem_write. case_bool_decide as H; split; [intros [= <-]; tauto|by intros (?&?&->)|done|].
  intros (?&?&?); destruct H; lia.
Qed.

Lemma mem_read_Ret off n d bs :
  mem_read off n d = Ret bs ↔
  0 ≤ off ∧ 0 ≤ n ∧ off + n ≤ length d ∧ bs = take (Z.to_nat n) (drop (Z.to_nat off) d).
Proof.
  unfold mem_read. case_bool_decide as H; split; [intros [= <-]; tauto|by intros (?&?&?&->)|done|].
  intros (?&?&?&?); destruct H; lia.
Qed.

Lemma mem_write_ok off bs d :
  0 ≤ off → off + length bs ≤ length d → ∃ d', mem_write off bs d = Ret d' ∧ length d' = length d.
Proof.
  intros. eexists. split; [by apply mem_write_Ret|].
  rewrite !length_app, length_take, length_drop. lia.
Qed.

Lemma mem_write_length off bs d d' : mem_write off bs d = Ret d' → length d' = length d.
Proof.
  intros (?&?&->)%mem_write_Ret. rewrite !length_app, length_take, length_drop. lia.
Qed.

Lemma mem_read_length off n d bs : mem_read off n d = Ret bs → Z.of_nat (length bs) = n.
Proof. intros (?&?&?&->)%mem_read_Ret. rewrite length_take, length_drop. lia. Qed.

(** The block read is the block written. *)
Lemma mem_read_write_same off bs d d' :
  mem_write off bs d = Ret d' → mem_read off (length bs) d' = Ret bs.
Proof.
  intros H. pose proof (mem_write_length _ _ _ _ H). apply mem_write_Ret in H as (?&?&->).
  apply mem_read_Ret. split_and!; try lia.
  rewrite Nat2Z.id, drop_app_length' by (rewrite length_take; lia).
  by rewrite take_app_length.
Qed.

(** A read is not affected by a write elsewhere. *)
Lemma mem_read_write_other off bs d d' o n :
  mem_write off bs d = Ret d' → o + n ≤ off ∨ off + length bs ≤ o →
  mem_read o n d' = mem_read o n d.
Proof.
  intros H Hdisj. pose proof (mem_write_length _ _ _ _ H) as Hlen.
  unfold mem_read. rewrite Hlen. case_bool_decide as Hb; [|done].
  apply mem_write_Ret in H as (?&?&->). f_equal. apply list_eq. intros i.
  destruct (decide (i < Z.to_nat n)%nat); [|rewrite !lookup_take_ge by lia; done].
  rewrite !lookup_take_lt, !lookup_drop by lia. destruct Hdisj.
  - rewrite lookup_app_l by (rewrite length_take; lia). by rewrite lookup_take_lt by lia.
  - rewrite lookup_app_r by (rewrite length_take; lia). rewrite length_take.
    rewrite lookup_app_r by lia. rewrite lookup_drop. f_equal. lia.
Qed.

Lemma store_ok n off v d :
  0 ≤ off → off + Z.of_nat n ≤ length d → ∃ d', store n off v d = Ret d' ∧ length d' = length d.
Proof. intros. apply mem_write_ok; rewrite ?length_le_split; lia. Qed.

Lemma store_length n off v d d' : store n off v d = Ret d' → length d' = length d.
Proof. apply mem_write_length. Qed.

Lemma mem_read_ok off n d :
  0 ≤ off → 0 ≤ n → off + n ≤ length d → ∃ bs, mem_read off n d = Ret bs ∧ Z.of_nat (length bs) = n.
Proof.
  intros. eexists. split; [by apply mem_read_Ret|]. rewrite length_take, length_drop. lia.
Qed.

Lemma load_u_ok n off d :
  0 ≤ off → off + Z.of_nat n ≤ length d →
  ∃ v, load_u n off d = Ret v ∧ 0 ≤ v < 2 ^ (8 * Z.of_nat n).
Proof.
  intros. destruct (mem_read_ok off n d) as (bs & Hbs & Hlen); [lia..|].
  exists (le_combine bs). unfold load_u. rewrite Hbs. split; [done|].
  pose proof (le_combine_bound bs) as Hb. by rewrite <-Hlen.
Qed.

Lemma load_u_store_same n off v d d' :
  store n off v d = Ret d' → load_u n off d' = Ret (v `mod` 2 ^ (8 * Z.of_nat n)).
Proof.
  intros H. apply mem_read_write_same in H. rewrite length_le_split in H.
  unfold load_u. rewrite H. cbn. rewrite le_combine_split. do 3 f_equal. lia.
Qed.

Lemma load_u_write_other n off bs d d' o :
  mem_write off bs d = Ret d' → o + Z.of_nat n ≤ off ∨ off + length bs ≤ o →
  load_u n o d' = load_u n o d.
Proof. intros. unfold load_u. by erewrite mem_read_write_other. Qed.

Lemma load_u_store_other n m off v d d' o :
  store m off v d = Ret d' → o + Z.of_nat n ≤ off ∨ off + Z.of_nat m ≤ o →
  load_u n o d' = load_u n o d.
Proof. intros. eapply load_u_write_other; [done|]. rewrite length_le_split. lia. Qed.

Lemma mem_read_store_other m off v d d' o n :
  store m off v d = Ret d' → o + n ≤ off ∨ off + Z.of_nat m ≤ o →
  mem_read o n d' = mem_read o n d.
Proof. intros. eapply mem_read_write_other; [done|]. rewrite length_le_split. lia. Qed.

Lemma wraps_mod w z : 0 < w → wraps w (z `mod` 2 ^ w) = wraps w z.
Proof.
  intros. unfold wraps. f_equal. rewrite Zplus_mod_idemp_l. done.
Qed.

Lemma load_s_store_same off v d d' :
  store 4 off v d = Ret d' → in_int32 v = true → load_s 4 off d' = Ret v.
Proof.
  intros H ?. unfold load_s. rewrite (load_u_store_same _ _ _ _ _ H). cbn [mbind outcome_bind].
  change (8 * Z.of_nat 4) with 32. rewrite wraps_mod by lia. by rewrite wraps_small.
Qed.

Lemma load_s_write_other off bs d d' o :
  mem_write off bs d = Ret d' → o + 4 ≤ off ∨ off + length bs ≤ o →
  load_s 4 o d' = load_s 4 o d.
Proof. intros. unfold load_s. by erewrite load_u_write_other. Qed.

#[global] Opaque le_split le_combine.
