(* ===== verification/DiskManager.v ===== *)
(** * The disk manager

    Models [src/storage/disk/disk_manager.cpp].  The database file is a
    [std::fstream]: the bytes of the file, whether it is open, and the two error
    bits of the stream, with the behaviour the C++ standard gives to [seekg],
    [seekp], [read], [write] and [close].  [eofbit] alone is not kept: [seekg] clears it, and the short read
    that sets it sets [failbit] too. *)
From coqutil Require Import Byte.
From S2P Require Import Prelude Bytes Interfaces.

#[local] Open Scope Z_scope.
#[local] Coercion Z.of_nat : nat >-> Z.

(** ** The stream *)
Record fstream := mkFstream {
  file : list byte;
  is_open : bool;
  failbit : bool;
  badbit : bool;
}.

Definition is_good (s : fstream) : bool := negb (failbit s) && negb (badbit s).
Definition set_fail (s : fstream) : fstream := mkFstream (file s) (is_open s) true (badbit s).
Definition set_bad (s : fstream) : fstream := mkFstream (file s) (is_open s) (failbit s) true.

(** [close()] writes out what is buffered and leaves the error bits alone. *)
Definition close (s : fstream) : fstream := mkFstream (file s) false (failbit s) (badbit s).

(** [seekg(off)] and [seekp(off)] on a good stream fail for a negative offset or when
    no file is open, and may go past the end of the file; on a stream that is not good they do nothing
    (for [seekg] the sentry sets [failbit] again). *)
Definition seek (off : Z) (s : fstream) : fstream :=
  if is_good s then (if negb (is_open s) || bool_decide (off < 0) then set_fail s else s)
  else set_fail s.

(** [read(p, n)] at [off], with [gcount()]: the sentry of a stream that is not
    good fails, a short read sets [failbit], and there is nothing to read when no file
    is open. *)
Definition read (off n : Z) (s : fstream) : list byte * fstream :=
  if is_good s then
    let bs := if is_open s then take (Z.to_nat n) (drop (Z.to_nat off) (file s)) else [] in
    if bool_decide (length bs < n) then (bs, set_fail s) else (bs, s)
  else ([], set_fail s).

(** [write(p, n)] at [off]: the file is extended with zeros up to [off]; without an open
    file [badbit] is set. *)
Definition write (off : Z) (bs : list byte) (s : fstream) : fstream :=
  if is_good s then
    if is_open s then
      let o := Z.to_nat off in
      let padded := file s ++ zeros (o - length (file s)) in
      mkFstream (take o padded ++ bs ++ drop (o + length bs) padded) true (failbit s) (badbit s)
    else set_bad s
  else s.

(** ** The manager *)
Record DiskManager := mkDiskManager {
  db_io_ : fstream;
  next_page_id_ : Z;
  num_pages_ : Z;
}.

Definition set_db_io (f : fstream → fstream) (m : DiskManager) : DiskManager :=
  mkDiskManager (f (db_io_ m)) (next_page_id_ m) (num_pages_ m).

(** The constructor on the bytes of an existing (or newly created) file. *)
Definition DiskManager_new (bytes : list byte) : DiskManager :=
  let n := Z.of_nat (length bytes) / ONEBASE_PAGE_SIZE in
  mkDiskManager (mkFstream bytes true false false) (wraps 32 n) n.

(** [ReadPage] fills the 4096 bytes of [page_data]; the result is that content. *)
Definition ReadPage (page_id : Z) : M DiskManager (list byte) :=
  let offset := page_id * ONEBASE_PAGE_SIZE in
  modify (set_db_io (seek offset));;
  bad ← gets (fun m => badbit (db_io_ m));
  if bad : bool then lift (Throw (RuntimeError "I/O error while seeking to read page"))
  else
    bs ← zoom db_io_ (fun s => set_db_io (fun _ => s))
           (fun s => let '(bs, s') := read offset ONEBASE_PAGE_SIZE s in (Ret bs, s'));
    mret (bs ++ zeros (Z.to_nat ONEBASE_PAGE_SIZE - length bs)).

Definition WritePage (page_id : Z) (page_data : list byte) : M DiskManager unit :=
  let offset := page_id * ONEBASE_PAGE_SIZE in
  modify (set_db_io (seek offset));;
  modify (set_db_io (write offset page_data));;
  bad ← gets (fun m => badbit (db_io_ m));
  if bad : bool then lift (Throw (RuntimeError "I/O error while writing page"))
  else
    grow ← gets (fun m => bool_decide (num_pages_ m ≤ wrapu 64 page_id));
    if grow : bool then
      n ← lift (int32_op (page_id + 1));
      modify (fun m => mkDiskManager (db_io_ m) (next_page_id_ m) (wrapu 64 n))
    else mret tt.

Definition AllocatePage : M DiskManager Z :=
  id ← gets next_page_id_;
  next ← lift (int32_op (id + 1));
  modify (fun m => mkDiskManager (db_io_ m) next (num_pages_ m));;
  mret id.

Definition DeallocatePage (page_id : Z) : M DiskManager unit := mret tt.

(** [ShutDown], which is also all that the destructor does. *)
Definition ShutDown : M DiskManager unit :=
  opened ← gets (fun m => is_open (db_io_ m));
  if opened : bool then modify (set_db_io close) else mret tt.
Definition DiskManager_destroy : M DiskManager unit := ShutDown.

(** ** The pages of the file *)

(** The file is open and neither error bit is set. *)
Definition usable (s : fstream) : bool := is_open s && is_good s.

(** The content of page [id], when the file holds all of it and the stream can
    still be read. *)
Definition page_at (m : DiskManager) (id : Z) : option (list byte) :=
  if bool_decide (usable (db_io_ m) = true ∧ 0 ≤ id ∧ (id + 1) * ONEBASE_PAGE_SIZE ≤ length (file (db_io_ m)))
  then Some (take (Z.to_nat ONEBASE_PAGE_SIZE)
               (drop (Z.to_nat (id * ONEBASE_PAGE_SIZE)) (file (db_io_ m))))
  else None.

Lemma page_at_Some m id d :
  page_at m id = Some d ↔
  usable (db_io_ m) = true ∧ 0 ≤ id ∧ (id + 1) * ONEBASE_PAGE_SIZE ≤ length (file (db_io_ m)) ∧
  d = take (Z.to_nat ONEBASE_PAGE_SIZE) (drop (Z.to_nat (id * ONEBASE_PAGE_SIZE)) (file (db_io_ m))).
Proof.
  unfold page_at. case_bool_decide as H; split; [intros [= <-]; tauto|by intros (?&?&?&->)|done|tauto].
Qed.

Lemma page_at_length m id d : page_at m id = Some d → Z.of_nat (length d) = ONEBASE_PAGE_SIZE.
Proof.
  intros (?&?&?&->)%page_at_Some. rewrite length_take, length_drop. unfold ONEBASE_PAGE_SIZE in *. lia.
Qed.

(** ** Reading and writing pages *)

Section pages.
Implicit Types (m : DiskManager) (d : list byte).

Lemma usable_true s : usable s = true → s = mkFstream (file s) true false false.
Proof. destruct s as [? [] [] []]; done. Qed.

Lemma usable_not_bad s : usable s = true → badbit s = false.
Proof. by intros ->%usable_true. Qed.

Lemma seek_good off s : usable s = true → 0 ≤ off → seek off s = s.
Proof. intros Hg%usable_true ?. rewrite Hg. unfold seek. cbn. case_bool_decide; [lia|done]. Qed.

(** A page the file holds is read back, and reading changes nothing. *)
Lemma ReadPage_stored m id d :
  page_at m id = Some d → ReadPage id m = (Ret d, m).
Proof.
  intros (Hg&?&?&Hd)%page_at_Some. apply usable_true in Hg.
  destruct m as [s nx np]. cbn [db_io_] in *. destruct s as [f o fb bb]. injection Hg as -> -> ->.
  cbn [file] in *. unfold ReadPage, mbind, M_bind, modify, gets, zoom, set_db_io, lift, mret, M_ret.
  cbn [db_io_ next_page_id_ num_pages_]. rewrite seek_good by (done || unfold ONEBASE_PAGE_SIZE; lia).
  unfold read. cbn [db_io_ is_good is_open failbit badbit negb andb file]. rewrite <-Hd.
  assert (length d = Z.to_nat ONEBASE_PAGE_SIZE) as Hlen
    by (rewrite Hd, length_take, length_drop; unfold ONEBASE_PAGE_SIZE in *; lia).
  rewrite bool_decide_false by lia. by rewrite Hlen, Nat.sub_diag, app_nil_r.
Qed.

Lemma write_file off bs s :
  usable s = true → 0 ≤ off →
  usable (write off bs s) = true ∧
  (length (file s) ≤ length (file (write off bs s)))%nat ∧
  (off + length bs ≤ length (file (write off bs s))) ∧
  take (length bs) (drop (Z.to_nat off) (file (write off bs s))) = bs ∧
  ∀ i, (i < length (file s))%nat → (i < Z.to_nat off ∨ Z.to_nat off + length bs ≤ i)%nat →
    file (write off bs s) !! i = file s !! i.
Proof.
  intros Hg%usable_true ?. rewrite Hg. destruct s as [f op fb bb]. unfold write. cbn [is_good is_open failbit badbit negb andb file].
  set (o := Z.to_nat off). set (padded := f ++ zeros (o - length f)).
  assert (length padded = Nat.max o (length f)) as Hp
    by (unfold padded; rewrite length_app, length_zeros; lia).
  assert (length (take o padded) = o) as Ho by (rewrite length_take; lia).
  split_and!; [done|..].
  - rewrite !length_app, length_drop. lia.
  - rewrite !length_app, length_drop. lia.
  - rewrite drop_app_length' by done. by rewrite take_app_length.
  - intros i Hi [|].
    + rewrite lookup_app_l, lookup_take_lt by lia. unfold padded. by rewrite lookup_app_l.
    + rewrite lookup_app_r, Ho, lookup_app_r, lookup_drop by lia.
      unfold padded. rewrite lookup_app_l by lia. f_equal. lia.
Qed.
End pages.

(** [WritePage] stores the page and keeps every other page of the file. *)
Lemma WritePage_stored m id d :
  usable (db_io_ m) = true → 0 ≤ id < INT32_MAX → Z.of_nat (length d) = ONEBASE_PAGE_SIZE →
  wp (WritePage id d) m (fun _ m' =>
    usable (db_io_ m') = true ∧ next_page_id_ m' = next_page_id_ m ∧ page_at m' id = Some d ∧
    ∀ j d', j ≠ id → page_at m j = Some d' → page_at m' j = Some d').
Proof.
  intros Hg Hid Hlen. destruct m as [s nx np]. cbn [db_io_ next_page_id_] in *.
  assert (0 ≤ id * ONEBASE_PAGE_SIZE) as Hoff by (unfold ONEBASE_PAGE_SIZE; lia).
  pose proof (write_file (id * ONEBASE_PAGE_SIZE) d s Hg Hoff) as (Hg' & Hmono & Hend & Hsame & Hother).
  set (s' := write (id * ONEBASE_PAGE_SIZE) d s) in *.
  assert (∀ n, page_at (mkDiskManager s' nx n) id = Some d) as Hpage.
  { intros n. apply page_at_Some. cbn [db_io_]. split_and!; [done|lia| |].
    - unfold ONEBASE_PAGE_SIZE in *. lia.
    - rewrite <-Hsame at 1. f_equal. lia. }
  assert (∀ n j d', j ≠ id → page_at (mkDiskManager s nx np) j = Some d' →
    page_at (mkDiskManager s' nx n) j = Some d') as Hothers.
  { intros n j d' Hj (_&?&?&->)%page_at_Some. cbn [db_io_] in *. apply page_at_Some.
    cbn [db_io_]. split_and!; [done|lia|unfold ONEBASE_PAGE_SIZE in *; lia|].
    apply list_eq. intros i. unfold ONEBASE_PAGE_SIZE in *.
    destruct (decide (i < Z.to_nat 4096)%nat); [|rewrite !lookup_take_ge by lia; done].
    rewrite !lookup_take_lt, !lookup_drop by lia. symmetry. apply Hother; lia. }
  unfold WritePage, wp, mbind, M_bind, modify, gets, set_db_io, lift, mret, M_ret.
  cbn [db_io_ next_page_id_ num_pages_]. rewrite seek_good by done. fold s'.
  rewrite (usable_not_bad s') by done. case_bool_decide; [|by eauto].
  unfold int32_op. rewrite (proj2 (in_int32_iff _)) by (unfold INT32_MIN, INT32_MAX in *; lia).
  cbn. eauto.
Qed.

(** The disk can be used, and its file has no more pages than there are page ids. *)
Definition disk_ready (m : DiskManager) : bool :=
  usable (db_io_ m) && bool_decide (length (file (db_io_ m)) ≤ INT32_MAX * ONEBASE_PAGE_SIZE).

Lemma disk_ready_usable m : disk_ready m = true → usable (db_io_ m) = true.
Proof. by intros [? _]%andb_true_iff. Qed.

Lemma write_length off bs s :
  usable s = true → 0 ≤ off → Z.of_nat (length (file (write off bs s))) = Z.max (length (file s)) (off + length bs).
Proof.
  intros Hg%usable_true ?. rewrite Hg. unfold write. cbn [is_good is_open failbit badbit negb andb file].
  rewrite !length_app, length_take, length_drop, !length_app, length_zeros. lia.
Qed.

Lemma WritePage_ready m id d :
  disk_ready m = true → 0 ≤ id < INT32_MAX → Z.of_nat (length d) = ONEBASE_PAGE_SIZE →
  wp (WritePage id d) m (fun _ m' => length (file (db_io_ m')) ≤ INT32_MAX * ONEBASE_PAGE_SIZE).
Proof.
  intros [Hg Hl%bool_decide_eq_true]%andb_true_iff Hid Hlen. destruct m as [s nx np]. cbn [db_io_] in *.
  assert (0 ≤ id * ONEBASE_PAGE_SIZE) as Hoff by (unfold ONEBASE_PAGE_SIZE; lia).
  pose proof (write_length (id * ONEBASE_PAGE_SIZE) d s Hg Hoff) as Hsize.
  destruct (write_file (id * ONEBASE_PAGE_SIZE) d s Hg Hoff) as (Hg' & _).
  unfold WritePage, wp, mbind, M_bind, modify, gets, set_db_io, lift, mret, M_ret.
  cbn [db_io_ next_page_id_ num_pages_]. rewrite seek_good by done. rewrite usable_not_bad by done.
  assert (length (file (write (id * ONEBASE_PAGE_SIZE) d s)) ≤ INT32_MAX * ONEBASE_PAGE_SIZE)
    by (unfold ONEBASE_PAGE_SIZE in *; lia).
  case_bool_decide; [|done]. unfold int32_op.
  by rewrite (proj2 (in_int32_iff _)) by (unfold INT32_MIN, INT32_MAX in *; lia).
Qed.

Lemma AllocatePage_fresh m :
  0 ≤ next_page_id_ m < INT32_MAX →
  AllocatePage m = (Ret (next_page_id_ m), mkDiskManager (db_io_ m) (next_page_id_ m + 1) (num_pages_ m)).
Proof.
  intros. unfold AllocatePage, mbind, M_bind, gets, lift, int32_op, modify, mret, M_ret.
  rewrite (proj2 (in_int32_iff _)) by (unfold INT32_MIN, INT32_MAX in *; lia). done.
Qed.

(** The disk manager is a disk in the sense of its clients. *)
#[export] Instance DiskManager_disk : Disk DiskManager (list byte) := {
  disk_read := ReadPage;
  disk_write := WritePage;
  disk_allocate := AllocatePage;
  disk_deallocate := DeallocatePage;
  zero_page := zeros (Z.to_nat ONEBASE_PAGE_SIZE);
}.

#[export] Program Instance DiskManager_spec : DiskSpec DiskManager (list byte) := {
  disk_ok m := disk_ready m = true;
  page_ok d := Z.of_nat (length d) = ONEBASE_PAGE_SIZE;
  stored := page_at;
  next_id := next_page_id_;
}.
Next Obligation. by vm_compute. Qed.
Next Obligation. intros. by eapply page_at_length. Qed.
Next Obligation. intros. eapply wp_intro; [by apply ReadPage_stored|done]. Qed.
Next Obligation.
  intros k id d Hok Hid Hd. pose proof (disk_ready_usable _ Hok) as Hg.
  eapply wp_mono; [apply wp_and; [by apply WritePage_ready|by apply WritePage_stored]|].
  intros _ k' (Hl & Hg' & ? & ? & ?). split_and!; [|done..].
  unfold disk_ready. by rewrite Hg', bool_decide_true.
Qed.
Next Obligation. intros. eapply wp_intro; [by apply AllocatePage_fresh|done]. Qed.
Next Obligation. done. Qed.

(** ** Properties *)

(** C23: a page that is written is the page that is read back, for every page id
    of the file's range, and the other pages of the file keep their content. *)
Theorem write_read_roundtrip m id d :
  usable (db_io_ m) = true → 0 ≤ id < INT32_MAX → Z.of_nat (length d) = ONEBASE_PAGE_SIZE →
  wp (WritePage id d;; ReadPage id) m (fun bs m' =>
    bs = d ∧ ∀ j d', j ≠ id → page_at m j = Some d' → ReadPage j m' = (Ret d', m')).
Proof.
  intros. apply wp_bind. eapply wp_mono; [by apply WritePage_stored|].
  intros _ m' (_ & _ & Hid & Hother). eapply wp_intro; [by apply ReadPage_stored|].
  split; [done|]. intros. apply ReadPage_stored. auto.
Qed.

Example write_read_roundtrip_witness :
  wp (WritePage 1 (zeros 4096);; ReadPage 1) (DiskManager_new (zeros 4096)) (fun bs m' =>
    bs = zeros 4096 ∧ ∀ j d', j ≠ 1 → page_at (DiskManager_new (zeros 4096)) j = Some d' →
      ReadPage j m' = (Ret d', m')).
Proof.
  apply (write_read_roundtrip (DiskManager_new (zeros 4096)) 1 (zeros 4096));
    [reflexivity|unfold INT32_MAX; lia|reflexivity].
Defined.

(** A stream whose [failbit] is set neither reads nor writes. *)
Lemma failed_WritePage m id d :
  failbit (db_io_ m) = true → badbit (db_io_ m) = false → 0 ≤ id < INT32_MAX →
  ∃ m', WritePage id d m = (Ret tt, m') ∧ db_io_ m' = db_io_ m.
Proof.
  destruct m as [[f op fb bb] nx np]; cbn [db_io_ failbit badbit]. intros -> -> Hid.
  unfold WritePage, mbind, M_bind, modify, gets, set_db_io, lift, mret, M_ret. cbn -[Z.mul wrapu].
  case_bool_decide; [|eauto]. unfold int32_op.
  rewrite (proj2 (in_int32_iff _)) by (unfold INT32_MIN, INT32_MAX in *; lia). cbn. eauto.
Qed.

Lemma failed_ReadPage m id :
  failbit (db_io_ m) = true → badbit (db_io_ m) = false →
  ReadPage id m = (Ret (zeros (Z.to_nat ONEBASE_PAGE_SIZE)), m).
Proof. destruct m as [[f op fb bb] nx np]; cbn [db_io_ failbit badbit]. by intros -> ->. Qed.

(** The reads that set [failbit]: of a page that the file does not hold completely, or
    of a file that is not open. *)
Definition unreadable m id : Prop :=
  id < 0 ∨ length (file (db_io_ m)) < (id + 1) * ONEBASE_PAGE_SIZE ∨ is_open (db_io_ m) = false.

Lemma ReadPage_short m id :
  is_good (db_io_ m) = true → unreadable m id → ∃ bs, ReadPage id m = (Ret bs, set_db_io set_fail m).
Proof.
  destruct m as [[f op [] []] nx np]; try done. unfold unreadable. cbn [db_io_ file is_open]. intros _ Hshort.
  unfold ReadPage, mbind, M_bind, modify, gets, zoom, set_db_io, lift, mret, M_ret.
  cbn [db_io_ next_page_id_ num_pages_ file]. unfold seek. cbn [is_good is_open failbit badbit negb andb].
  destruct op; cbn [negb orb]; [|cbn [badbit set_fail]; eexists; reflexivity].
  case_bool_decide as Hneg; cbn [badbit set_fail]; [eexists; reflexivity|].
  unfold read. cbn [is_good is_open failbit badbit negb andb file].
  unfold ONEBASE_PAGE_SIZE in *. destruct Hshort as [|[|]]; [lia| |done].
  rewrite bool_decide_true; [eexists; reflexivity|]. cbn [db_io_ file is_open]. rewrite length_take, length_drop. lia.
Qed.

(** C25: the error bits of the stream are never cleared, so one read of a page
    that the file does not hold completely (or of a negative page id), or one read
    after [ShutDown], disables the disk: the read itself returns normally, and from
    then on [WritePage] returns normally without writing and [ReadPage] returns
    zeros. *)
Theorem read_past_end_disables_disk m id j d :
  is_good (db_io_ m) = true → unreadable m id → 0 ≤ j < INT32_MAX →
  ∃ m', (ReadPage id;; WritePage j d;; ReadPage j) m = (Ret (zeros (Z.to_nat ONEBASE_PAGE_SIZE)), m') ∧
    file (db_io_ m') = file (db_io_ m).
Proof.
  intros Hg Hshort Hj. destruct (ReadPage_short m id Hg Hshort) as (bs & Hread).
  assert (badbit (db_io_ m) = false) as Hb by (by destruct m as [[f op [] []] nx np]).
  destruct (failed_WritePage (set_db_io set_fail m) j d) as (m' & Hwrite & Hm'); [done|done|done|].
  exists m'. unfold mbind, M_bind. rewrite Hread, Hwrite. split.
  - by apply failed_ReadPage; rewrite Hm'.
  - by rewrite Hm'.
Qed.

Example read_past_end_disables_disk_witness :
  ∃ m', (ReadPage 0;; WritePage 0 (replicate 4096 Byte.xff);; ReadPage 0) (DiskManager_new []) =
    (Ret (zeros 4096), m') ∧ file (db_io_ m') = [].
Proof.
  apply (read_past_end_disables_disk (DiskManager_new []) 0 0 (replicate 4096 Byte.xff));
    [reflexivity|right; left; cbn; unfold ONEBASE_PAGE_SIZE; lia|unfold INT32_MAX; lia].
Defined.

(** ** Closing and reopening the file *)
Lemma ShutDown_closes m :
  ShutDown m = (Ret tt, mkDiskManager (close (db_io_ m)) (next_page_id_ m) (num_pages_ m)).
Proof. by destruct m as [[f [] fb bb] nx np]. Qed.

(** The constructor finds every page that the file holds completely, and hands out
    the page ids behind them. *)
Lemma DiskManager_new_pages m id d :
  page_at m id = Some d →
  0 ≤ id < length (file (db_io_ m)) / ONEBASE_PAGE_SIZE ∧
  page_at (DiskManager_new (file (db_io_ m))) id = Some d.
Proof.
  intros (_ & ? & ? & ->)%page_at_Some. split; [|by apply page_at_Some].
  split; [done|]. apply Z.le_succ_l, Z.div_le_lower_bound; unfold ONEBASE_PAGE_SIZE in *; lia.
Qed.

Lemma DiskManager_new_next m :
  disk_ready m = true →
  next_page_id_ (DiskManager_new (file (db_io_ m))) = length (file (db_io_ m)) / ONEBASE_PAGE_SIZE ∧
  0 ≤ length (file (db_io_ m)) / ONEBASE_PAGE_SIZE ≤ INT32_MAX ∧
  disk_ready (DiskManager_new (file (db_io_ m))) = true.
Proof.
  intros [_ Hl%bool_decide_eq_true]%andb_true_iff.
  assert (0 ≤ length (file (db_io_ m)) / ONEBASE_PAGE_SIZE ≤ INT32_MAX)
    by (split; [apply Z.div_pos|apply Z.div_le_upper_bound]; unfold INT32_MAX, ONEBASE_PAGE_SIZE in *; lia).
  split_and!; [|lia|lia|].
  - unfold DiskManager_new. cbn [next_page_id_]. apply wraps_small, in_int32_iff. unfold INT32_MIN, INT32_MAX in *. lia.
  - unfold disk_ready. by rewrite bool_decide_true.
Qed.
