(* ===== verification/LRUKReplacer.v ===== *)
(** * The LRU-K replacer

    Models [src/buffer/lru_k_replacer.cpp].  [entries_] is an unordered map: the
    order in which [Evict] walks over it is not fixed by the program, so the walk
    takes an order as a parameter, constrained only to list every entry once.
    The counters of type [size_t] are natural numbers: [current_timestamp_]
    grows by one per recorded access. *)
From S2P Require Import Prelude.

(** ** State *)
Record FrameEntry := mkFrameEntry {
  history_ : list nat;
  is_evictable_ : bool;
}.

Record LRUKReplacer := mkLRUKReplacer {
  max_frames_ : nat;
  k_ : nat;
  curr_size_ : nat;
  current_timestamp_ : nat;
  entries_ : gmap Z FrameEntry;
}.

Definition LRUKReplacer_new (num_frames k : nat) : LRUKReplacer :=
  mkLRUKReplacer num_frames k 0 0 ∅.

Definition set_entries (f : gmap Z FrameEntry → gmap Z FrameEntry) (r : LRUKReplacer) : LRUKReplacer :=
  mkLRUKReplacer (max_frames_ r) (k_ r) (curr_size_ r) (current_timestamp_ r) (f (entries_ r)).
Definition set_curr_size (f : nat → nat) (r : LRUKReplacer) : LRUKReplacer :=
  mkLRUKReplacer (max_frames_ r) (k_ r) (f (curr_size_ r)) (current_timestamp_ r) (entries_ r).
Definition tick (r : LRUKReplacer) : LRUKReplacer :=
  mkLRUKReplacer (max_frames_ r) (k_ r) (curr_size_ r) (S (current_timestamp_ r)) (entries_ r).

#[export] Instance FrameEntry_eq_dec : EqDecision FrameEntry.
Proof. solve_decision. Defined.

(** The local variables of [Evict]'s loop. *)
Record scan := mkScan {
  victim_frame : Z;
  max_k_distance : nat;
  earliest_first_access : nat;
  found_inf_frame : bool;
}.

(** One round of the loop of [Evict].  [history_.front()] of an empty list is
    undefined. *)
Definition scan_step (k now : nat) (s : scan) (fe : Z * FrameEntry) : outcome scan :=
  let '(fid, entry) := fe in
  if negb (is_evictable_ entry) then mret s
  else
    let access_count := length (history_ entry) in
    if access_count <? k then
      if negb (found_inf_frame s) then
        front ← deref (head (history_ entry));
        mret (mkScan fid (max_k_distance s) front true)
      else
        front ← deref (head (history_ entry));
        if front <? earliest_first_access s
        then mret (mkScan fid (max_k_distance s) front true) else mret s
    else
      if negb (found_inf_frame s) then
        front ← deref (head (history_ entry));
        let k_distance := now - front in
        if max_k_distance s <? k_distance
        then mret (mkScan fid k_distance (earliest_first_access s) false) else mret s
      else mret s.

Fixpoint scan_loop (k now : nat) (s : scan) (l : list (Z * FrameEntry)) : outcome scan :=
  match l with
  | [] => mret s
  | fe :: l' => s' ← scan_step k now s fe; scan_loop k now s' l'
  end.

Section operations.
Context {O : IterOrder}.

(** [Evict]: [None] when the code returns false. *)
Definition Evict : M LRUKReplacer (option Z) :=
  size ← gets curr_size_;
  if size =? 0 then mret None
  else
    r ← gets (fun r => r);
    s ← lift (scan_loop (k_ r) (current_timestamp_ r)
                (mkScan (-1) 0 (current_timestamp_ r) false) (iter_order (entries_ r)));
    if bool_decide (victim_frame s = (-1)%Z) then mret None
    else
      modify (set_entries (delete (victim_frame s)));;
      modify (set_curr_size pred);;
      mret (Some (victim_frame s)).
End operations.

(** [history_.push_back(now)], and [pop_front()] when more than [k] are kept. *)
Definition push_history (k now : nat) (history : list nat) : list nat :=
  let history := history ++ [now] in
  if k <? length history then tail history else history.

Definition RecordAccess (frame_id : Z) : M LRUKReplacer unit :=
  r ← gets (fun r => r);
  let entry := default (mkFrameEntry [] false) (entries_ r !! frame_id) in
  let history := push_history (k_ r) (current_timestamp_ r) (history_ entry) in
  modify (set_entries <[frame_id := mkFrameEntry history (is_evictable_ entry)]>);;
  modify tick.

Definition SetEvictable (frame_id : Z) (set_evictable : bool) : M LRUKReplacer unit :=
  r ← gets (fun r => r);
  match entries_ r !! frame_id with
  | None => mret tt
  | Some entry =>
    modify (set_curr_size (fun n =>
      if is_evictable_ entry && negb set_evictable then pred n
      else if negb (is_evictable_ entry) && set_evictable then S n else n));;
    modify (set_entries <[frame_id := mkFrameEntry (history_ entry) set_evictable]>)
  end.

Definition Remove (frame_id : Z) : M LRUKReplacer unit :=
  r ← gets (fun r => r);
  match entries_ r !! frame_id with
  | None => mret tt
  | Some entry =>
    if negb (is_evictable_ entry)
    then lift (Throw (OneBaseException "Cannot remove non-evictable frame" INVALID_EXCEPTION))
    else
      modify (set_curr_size pred);;
      modify (set_entries (delete frame_id))
  end.

Definition Size (r : LRUKReplacer) : nat := curr_size_ r.

(** ** Invariant *)

Definition is_inf (k : nat) (e : FrameEntry) : bool := length (history_ e) <? k.
Definition first_access (e : FrameEntry) : nat := default 0 (head (history_ e)).
Definition evictable (m : gmap Z FrameEntry) (f : Z) : Prop :=
  ∃ e, m !! f = Some e ∧ is_evictable_ e = true.
Definition evictable_frames (m : gmap Z FrameEntry) : gmap Z FrameEntry :=
  filter (fun fe => is_evictable_ fe.2 = true) m.

Record entry_ok (k now : nat) (f : Z) (e : FrameEntry) : Prop := {
  entry_frame : (0 ≤ f)%Z;
  entry_nonempty : history_ e ≠ [];
  entry_length : length (history_ e) ≤ k;
  entry_past : Forall (fun t => t < now) (history_ e);
}.

Record lru_inv (r : LRUKReplacer) : Prop := {
  inv_k : 0 < k_ r;
  inv_size : curr_size_ r = size (evictable_frames (entries_ r));
  inv_entry f e : entries_ r !! f = Some e → entry_ok (k_ r) (current_timestamp_ r) f e;
  (** One time stamp is one access of one frame. *)
  inv_disjoint f g e e' t : entries_ r !! f = Some e → entries_ r !! g = Some e' →
    t ∈ history_ e → t ∈ history_ e' → f = g;
}.

Lemma first_access_head e : history_ e ≠ [] → head (history_ e) = Some (first_access e).
Proof. unfold first_access. by destruct (history_ e). Qed.

Lemma first_access_elem e : history_ e ≠ [] → first_access e ∈ history_ e.
Proof. unfold first_access. destruct (history_ e); [done|]. intros _. by left. Qed.

(** [e] has to go before [e']: frames with fewer than [k] accesses first, and in
    each class the one with the earliest access that is still recorded, which is
    the largest backward k-distance. *)
Definition precedes (k : nat) (e e' : FrameEntry) : Prop :=
  if is_inf k e then (is_inf k e' = true → first_access e < first_access e')
  else is_inf k e' = false ∧ first_access e < first_access e'.

Definition victim (k : nat) (m : gmap Z FrameEntry) (f : Z) : Prop :=
  ∃ e, m !! f = Some e ∧ is_evictable_ e = true ∧
    ∀ g e', m !! g = Some e' → is_evictable_ e' = true → g ≠ f → precedes k e e'.

Lemma victim_unique k m f g : victim k m f → victim k m g → f = g.
Proof.
  intros (e & He & Hev & Hmin) (e' & He' & Hev' & Hmin'). destruct (decide (f = g)) as [|Hne]; [done|].
  pose proof (Hmin _ _ He' Hev' (not_eq_sym Hne)) as H1.
  pose proof (Hmin' _ _ He Hev Hne) as H2. unfold precedes in *.
  destruct (is_inf k e), (is_inf k e'); naive_solver lia.
Qed.

(** ** The loop of [Evict] *)

(** The loop variables record entry [e] as the best so far. *)
Definition records (k now : nat) (s : scan) (e : FrameEntry) : Prop :=
  found_inf_frame s = is_inf k e ∧
  (if is_inf k e then earliest_first_access s = first_access e
   else max_k_distance s = now - first_access e).

(** The loop variables after the entries [l]: the entry that precedes the others. *)
Definition scanned (k now : nat) (l : list (Z * FrameEntry)) (s : scan) : Prop :=
  (Forall (fun fe => is_evictable_ fe.2 = false) l ∧ s = mkScan (-1) 0 now false) ∨
  ∃ e, (victim_frame s, e) ∈ l ∧ is_evictable_ e = true ∧ records k now s e ∧
    ∀ fe, fe ∈ l → is_evictable_ fe.2 = true → fe ≠ (victim_frame s, e) → precedes k e fe.2.

Lemma precedes_trans k e1 e2 e3 : precedes k e1 e2 → precedes k e2 e3 → precedes k e1 e3.
Proof. unfold precedes. destruct (is_inf k e1), (is_inf k e2), (is_inf k e3); naive_solver lia. Qed.

Section loop.
Context (k now : nat).
Implicit Types (s : scan) (l : list (Z * FrameEntry)) (e : FrameEntry).

Definition list_ok l : Prop :=
  (∀ f e, (f, e) ∈ l → entry_ok k now f e) ∧ NoDup l.*1 ∧
  ∀ f g e e' t, (f, e) ∈ l → (g, e') ∈ l → t ∈ history_ e → t ∈ history_ e' → f = g.

Lemma first_access_past f e : entry_ok k now f e → first_access e < now.
Proof. intros [_ He _ Hall]. rewrite Forall_forall in Hall. by apply Hall, first_access_elem. Qed.

Lemma scanned_new l s s' f e :
  scanned k now l s → is_evictable_ e = true →
  (∀ eb, (victim_frame s, eb) ∈ l → records k now s eb → precedes k e eb) →
  victim_frame s' = f → records k now s' e →
  scanned k now (l ++ [(f, e)]) s'.
Proof.
  intros Hs Hev Hprec <- Hrec. right. exists e. split_and!; [set_solver|done..|].
  intros fe [Hg|?]%elem_of_app Hev' Hne; [|set_solver].
  destruct Hs as [[Hnone _]|(eb & Hb & Hevb & Hrb & Hminb)].
  { rewrite Forall_forall in Hnone. specialize (Hnone _ Hg). simpl in Hnone. congruence. }
  destruct (decide (fe = (victim_frame s, eb))) as [->|]; [by apply Hprec|].
  eapply precedes_trans; [by apply Hprec|by apply Hminb].
Qed.

Lemma scanned_keep l s f e :
  scanned k now l s → is_evictable_ e = true →
  (∃ eb, (victim_frame s, eb) ∈ l ∧ is_evictable_ eb = true) →
  (∀ eb, (victim_frame s, eb) ∈ l → records k now s eb → precedes k eb e) →
  scanned k now (l ++ [(f, e)]) s.
Proof.
  intros [[Hnone ->]|(eb & Hb & Hevb & Hrb & Hminb)] Hev Hsome Hkeep.
  { destruct Hsome as (eb & Hb & Hevb). rewrite Forall_forall in Hnone.
    specialize (Hnone _ Hb). simpl in Hnone. congruence. }
  right. exists eb. split_and!; [set_solver|done..|].
  intros fe [Hg|Hg]%elem_of_app Hev' Hne; [by apply Hminb|].
  apply list_elem_of_singleton in Hg as ->. by apply Hkeep.
Qed.

Lemma scanned_skip l s f e :
  scanned k now l s → is_evictable_ e = false → scanned k now (l ++ [(f, e)]) s.
Proof.
  intros [[Hnone ->]|(eb & Hb & Hevb & Hrb & Hminb)] Hev.
  - left. split; [|done]. apply Forall_app. split; [done|]. by constructor.
  - right. exists eb. split_and!; [set_solver|done..|].
    intros fe [Hg|Hg]%elem_of_app Hev' Hne; [by apply Hminb|].
    apply list_elem_of_singleton in Hg as ->. simpl in *. congruence.
Qed.

Lemma scan_step_scanned l s f e :
  list_ok (l ++ [(f, e)]) → scanned k now l s →
  ∃ s', scan_step k now s (f, e) = Ret s' ∧ scanned k now (l ++ [(f, e)]) s'.
Proof.
  intros (Hok & Hnodup & Hdisj) Hs.
  assert (entry_ok k now f e) as He by (apply Hok; set_solver).
  pose proof (first_access_past _ _ He) as Hpast.
  unfold scan_step. destruct (is_evictable_ e) eqn:Hev; [|eexists; split; [done|by apply scanned_skip]].
  cbn [negb]. rewrite (first_access_head e) by apply He. change (length (history_ e) <? k) with (is_inf k e).
  (* the best entry so far has another first access *)
  assert (∀ eb, (victim_frame s, eb) ∈ l →
    first_access eb ≠ first_access e ∧ first_access eb < now) as Hbest.
  { intros eb Hb. assert (entry_ok k now (victim_frame s) eb) as Hbok by (apply Hok; set_solver).
    split; [|by eapply first_access_past]. intros Heq.
    assert (victim_frame s = f) as Hf.
    { eapply (Hdisj _ _ eb e (first_access e)); [set_solver|set_solver| |apply first_access_elem, He].
      rewrite <-Heq. apply first_access_elem, Hbok. }
    rewrite fmap_app in Hnodup. apply NoDup_app in Hnodup as (_ & Hnin & _).
    apply (Hnin f); [|set_solver]. rewrite <-Hf. apply list_elem_of_fmap. by exists (victim_frame s, eb). }
  assert (s = mkScan (-1) 0 now false ∨ ∃ eb, (victim_frame s, eb) ∈ l ∧ is_evictable_ eb = true) as Hinit.
  { destruct Hs as [[_ ->]|(eb & Hb & Hevb & _)]; eauto. }
  destruct (is_inf k e) eqn:Hinf; destruct (found_inf_frame s) eqn:Hfound; cbn [negb deref mbind outcome_bind].
  - destruct (Nat.ltb_spec (first_access e) (earliest_first_access s)) as [Hlt|Hge];
      (eexists; split; [done|]).
    + eapply scanned_new; [done|done| |done|by unfold records; rewrite Hinf].
      intros eb Hb [Hrf Hrv]. unfold precedes. rewrite Hinf. destruct (is_inf k eb); congruence || lia.
    + apply scanned_keep; [done|done| |].
      { destruct Hinit as [->|]; [done|done]. }
      intros eb Hb [Hrf Hrv]. destruct (Hbest _ Hb). unfold precedes.
      rewrite <-Hrf, Hfound in *. lia.
  - eexists; split; [done|]. eapply scanned_new; [done|done| |done|by unfold records; rewrite Hinf].
    intros eb Hb [Hrf Hrv]. unfold precedes. rewrite Hinf. congruence.
  - eexists; split; [done|]. apply scanned_keep; [done|done| |].
    { destruct Hinit as [->|]; done. }
    intros eb Hb [Hrf Hrv]. unfold precedes. rewrite <-Hrf, Hfound. congruence.
  - destruct (Nat.ltb_spec (max_k_distance s) (now - first_access e)) as [Hlt|Hge];
      (eexists; split; [done|]).
    + eapply scanned_new; [done|done| |done|by unfold records; rewrite Hinf].
      intros eb Hb [Hrf Hrv]. unfold precedes. rewrite Hinf. rewrite <-Hrf, Hfound in *. split; [done|lia].
    + apply scanned_keep; [done|done| |].
      { destruct Hinit as [->|]; [cbn in *; lia|done]. }
      intros eb Hb [Hrf Hrv]. destruct (Hbest _ Hb). unfold precedes.
      rewrite <-Hrf, Hfound in *. split; [done|lia].
Qed.

Lemma scan_loop_scanned l2 : ∀ l1 s,
  list_ok (l1 ++ l2) → scanned k now l1 s →
  ∃ s', scan_loop k now s l2 = Ret s' ∧ scanned k now (l1 ++ l2) s'.
Proof.
  induction l2 as [|[f e] l2 IH]; intros l1 s Hok Hs.
  { exists s. by rewrite app_nil_r. }
  destruct (scan_step_scanned l1 s f e) as (s1 & Hstep & Hs1); [|done|].
  { destruct Hok as (H1 & H2 & H3). split_and!.
    - intros. apply H1. set_solver.
    - rewrite fmap_app in H2 |- *. rewrite fmap_cons in H2.
      apply (sublist_NoDup _ _ H2). apply sublist_app; [done|]. cbn. apply sublist_skip, sublist_nil_l.
    - intros f1 g1 e1 e1' t. intros. eapply (H3 f1 g1 e1 e1' t); set_solver. }
  destruct (IH (l1 ++ [(f, e)]) s1) as (s2 & Hloop & Hs2); [by rewrite <-app_assoc|done|].
  exists s2. cbn [scan_loop]. rewrite Hstep. cbn [mbind outcome_bind].
  by rewrite <-app_assoc in Hs2.
Qed.
End loop.

(** ** Every operation keeps the invariant *)

Lemma LRUKReplacer_new_inv n k : 0 < k → lru_inv (LRUKReplacer_new n k).
Proof.
  intros Hk. split; cbn; [done| |intros ??; by rewrite lookup_empty|intros ?????; by rewrite lookup_empty].
  unfold evictable_frames. by rewrite map_filter_empty, map_size_empty.
Qed.

Lemma evictable_frames_None m f : ¬ evictable m f ↔ evictable_frames m !! f = None.
Proof.
  unfold evictable, evictable_frames. rewrite map_lookup_filter_None. split.
  - intros H. destruct (m !! f) as [e|] eqn:He; [right|by left]. intros ? [= <-] ?. naive_solver.
  - intros [H|H] (e & He & Hev); [congruence|by apply (H e)].
Qed.

Lemma evictable_frames_insert m f e :
  evictable_frames (<[f:=e]> m) =
  (if is_evictable_ e then <[f:=e]> (evictable_frames m) else delete f (evictable_frames m)).
Proof.
  unfold evictable_frames. rewrite map_filter_insert. cbn. destruct (is_evictable_ e); [done|].
  rewrite decide_False by done. by rewrite map_filter_delete.
Qed.

Lemma evictable_frames_delete m f : evictable_frames (delete f m) = delete f (evictable_frames m).
Proof. apply map_filter_delete. Qed.

Lemma evictable_size_insert m f e e' :
  m !! f = Some e →
  size (evictable_frames (<[f:=e']> m)) =
  (if is_evictable_ e && negb (is_evictable_ e') then pred (size (evictable_frames m))
   else if negb (is_evictable_ e) && is_evictable_ e' then S (size (evictable_frames m))
   else size (evictable_frames m)).
Proof.
  intros He. rewrite evictable_frames_insert.
  destruct (is_evictable_ e) eqn:Hev.
  - assert (evictable_frames m !! f = Some e) as Hf by by apply map_lookup_filter_Some.
    destruct (is_evictable_ e'); cbn.
    + by rewrite map_size_insert_Some by eauto.
    + rewrite map_size_delete, Hf. done.
  - assert (evictable_frames m !! f = None) as Hf.
    { apply map_lookup_filter_None. right. intros ? [= <-]%(eq_trans (eq_sym He)). cbn. congruence. }
    destruct (is_evictable_ e'); cbn; [by rewrite map_size_insert_None|by rewrite delete_id].
Qed.

Lemma evictable_size_delete m f e :
  m !! f = Some e → is_evictable_ e = true →
  size (evictable_frames (delete f m)) = pred (size (evictable_frames m)).
Proof.
  intros He Hev. rewrite evictable_frames_delete, map_size_delete.
  assert (evictable_frames m !! f = Some e) as -> by by apply map_lookup_filter_Some. done.
Qed.

Lemma lru_inv_delete r f e :
  lru_inv r → entries_ r !! f = Some e → is_evictable_ e = true →
  lru_inv (set_curr_size pred (set_entries (delete f) r)).
Proof.
  intros [Hk Hsize Hentry Hdisj] He Hev. split; cbn; [done| | |].
  - rewrite Hsize. symmetry. by eapply evictable_size_delete.
  - intros g e' [_ Hg]%lookup_delete_Some. by apply Hentry.
  - intros f1 f2 e1 e2 t [_ H1]%lookup_delete_Some [_ H2]%lookup_delete_Some. by eapply Hdisj.
Qed.

Lemma push_history_spec k now h :
  0 < k → length h ≤ k →
  push_history k now h ≠ [] ∧ length (push_history k now h) ≤ k ∧
  ∀ t, t ∈ push_history k now h → t ∈ h ∨ t = now.
Proof.
  intros Hk Hlen. unfold push_history.
  destruct (Nat.ltb_spec k (length (h ++ [now]))) as [Hl|Hl]; rewrite length_app in Hl; cbn in Hl.
  - destruct h as [|t0 ts]; cbn in *; [lia|].
    split_and!; [by destruct ts|rewrite length_app; cbn; lia|set_solver].
  - split_and!; [by destruct h|rewrite length_app; cbn; lia|set_solver].
Qed.

Lemma RecordAccess_inv r f : lru_inv r → (0 ≤ f)%Z → wp (RecordAccess f) r (fun _ r' => lru_inv r').
Proof.
  intros [Hk Hsize Hentry Hdisj] Hf. unfold RecordAccess. m_unfold.
  set (e := default (mkFrameEntry [] false) (entries_ r !! f)).
  assert (length (history_ e) ≤ k_ r ∧ Forall (fun t => t < current_timestamp_ r) (history_ e)) as [Hlen Hpast].
  { unfold e. destruct (entries_ r !! f) eqn:E; cbn; [|split; [lia|done]]. by destruct (Hentry _ _ E). }
  set (h := push_history (k_ r) (current_timestamp_ r) (history_ e)).
  assert (h ≠ [] ∧ length h ≤ k_ r ∧ ∀ t, t ∈ h → t ∈ history_ e ∨ t = current_timestamp_ r) as (Hne & Hh & Hsub).
  { by apply push_history_spec. }
  assert (∀ t, t ∈ h → t < S (current_timestamp_ r)) as Hh'.
  { intros t [Ht| ->]%Hsub; [|lia]. rewrite Forall_forall in Hpast. specialize (Hpast _ Ht). lia. }
  assert (∀ g e' t, g ≠ f → entries_ r !! g = Some e' → t ∈ h → t ∈ history_ e' → False) as Hother.
  { intros g e' t Hg He' [Ht| ->]%Hsub Ht'.
    - unfold e in Ht. destruct (entries_ r !! f) eqn:E; cbn in Ht; [|set_solver]. by eapply Hg, Hdisj.
    - destruct (Hentry _ _ He') as [_ _ _ Hp]. rewrite Forall_forall in Hp. specialize (Hp _ Ht'). lia. }
  split; cbn; [done| | |].
  - rewrite Hsize. unfold e. destruct (entries_ r !! f) as [e0|] eqn:E; cbn.
    + erewrite evictable_size_insert by done. cbn. by destruct (is_evictable_ e0).
    + rewrite evictable_frames_insert. cbn. rewrite delete_id; [done|].
      apply map_lookup_filter_None. by left.
  - intros g e' [[<- <-]|[Hg He']]%lookup_insert_Some.
    + split; cbn; [done|done|done|]. by apply Forall_forall.
    + destruct (Hentry _ _ He') as [? ? ? Hp]. split; [done..|]. eapply Forall_impl; [done|]. cbn. lia.
  - intros f1 f2 e1 e2 t [[<- <-]|[H1 He1]]%lookup_insert_Some [[<- <-]|[H2 He2]]%lookup_insert_Some;
      cbn; intros Ht1 Ht2; try done.
    + by destruct (Hother _ _ t (not_eq_sym H2) He2).
    + by destruct (Hother _ _ t (not_eq_sym H1) He1).
    + by eapply Hdisj.
Qed.

Lemma SetEvictable_inv r f b : lru_inv r → wp (SetEvictable f b) r (fun _ r' => lru_inv r').
Proof.
  intros Hinv. unfold SetEvictable. m_unfold.
  destruct (entries_ r !! f) as [e|] eqn:E; cbn; [|done].
  destruct Hinv as [Hk Hsize Hentry Hdisj]. split; cbn; [done| | |].
  - erewrite Hsize, evictable_size_insert by done. done.
  - intros g e' [[<- <-]|[Hg He']]%lookup_insert_Some; [|by apply Hentry].
    destruct (Hentry _ _ E). by split.
  - intros f1 f2 e1 e2 t [[<- <-]|[H1 He1]]%lookup_insert_Some [[<- <-]|[H2 He2]]%lookup_insert_Some; cbn;
      intros Ht1 Ht2; [done|eapply (Hdisj _ _ _ _ t); eassumption..].
Qed.

Section evict.
Context {O : IterOrder}.

Lemma iter_order_list_ok r : lru_inv r → list_ok (k_ r) (current_timestamp_ r) (iter_order (entries_ r)).
Proof.
  intros [Hk Hsize Hentry Hdisj].
  assert (∀ f e, (f, e) ∈ iter_order (entries_ r) → entries_ r !! f = Some e) as Hin.
  { intros f e. rewrite iter_order_perm. apply elem_of_map_to_list. }
  split_and!; [by eauto| |by eauto].
  rewrite iter_order_perm. apply NoDup_fst_map_to_list.
Qed.

(** The whole of [Evict]. *)
Lemma Evict_wp r :
  lru_inv r → wp Evict r (fun o r' =>
    match o with
    | None => r' = r ∧ ∀ f, ¬ evictable (entries_ r) f
    | Some f => victim (k_ r) (entries_ r) f ∧ r' = set_curr_size pred (set_entries (delete f) r)
    end).
Proof.
  intros Hinv. unfold Evict. m_unfold. destruct (Nat.eqb_spec (curr_size_ r) 0) as [H0|H0]; cbn.
  { split; [done|]. intros f. apply evictable_frames_None.
    rewrite (inv_size _ Hinv) in H0. apply map_size_empty_inv in H0. by rewrite H0. }
  destruct (scan_loop_scanned (k_ r) (current_timestamp_ r) (iter_order (entries_ r)) []
    (mkScan (-1) 0 (current_timestamp_ r) false)) as (s & Hloop & Hs);
    [by apply iter_order_list_ok|by left|]. cbn in Hs.
  rewrite Hloop. destruct Hs as [[Hnone ->]|(e & Hin & Hev & _ & Hmin)].
  - (* no evictable frame: excluded by the counter *)
    exfalso. apply H0. rewrite (inv_size _ Hinv). apply map_size_empty_iff, map_eq. intros f.
    rewrite lookup_empty. apply evictable_frames_None. intros (e & He & Hev).
    rewrite Forall_forall in Hnone. specialize (Hnone (f, e)). cbn in Hnone.
    rewrite Hnone in Hev; [done|]. rewrite iter_order_perm. by apply elem_of_map_to_list.
  - rewrite iter_order_perm in Hin. apply elem_of_map_to_list in Hin as He.
    rewrite bool_decide_false by (intros Heq; destruct (inv_entry _ Hinv _ _ He); lia).
    cbn. split; [|done]. exists e. split_and!; [done|done|].
    intros g e' Hg Hev' Hne. apply (Hmin (g, e')); [|done|congruence].
    rewrite iter_order_perm. by apply elem_of_map_to_list.
Qed.

Lemma Evict_inv r : lru_inv r → wp Evict r (fun _ r' => lru_inv r').
Proof.
  intros Hinv. eapply wp_mono; [by apply Evict_wp|]. intros [f|] r'; [|by intros [-> _]].
  intros [(e & He & Hev & _) ->]. by eapply lru_inv_delete.
Qed.
End evict.

Lemma Remove_inv r f e :
  lru_inv r → entries_ r !! f = Some e → is_evictable_ e = true →
  wp (Remove f) r (fun _ r' => lru_inv r' ∧ r' = set_curr_size pred (set_entries (delete f) r)).
Proof.
  intros Hinv He Hev. unfold Remove. m_unfold. rewrite He, Hev. cbn. split; [|done].
  by apply (lru_inv_delete r f e).
Qed.

(** What a client sees of an access and of a change of the evictable bit. *)
Lemma RecordAccess_wp r f :
  lru_inv r → (0 ≤ f)%Z →
  wp (RecordAccess f) r (fun _ r' => lru_inv r' ∧ ∃ h,
    entries_ r' = <[f := mkFrameEntry h (from_option is_evictable_ false (entries_ r !! f))]> (entries_ r)).
Proof.
  intros Hinv Hf. pose proof (RecordAccess_inv r f Hinv Hf) as H. unfold RecordAccess in *.
  m_unfold in H. m_unfold. split; [done|].
  destruct (entries_ r !! f); eexists; reflexivity.
Qed.

Lemma SetEvictable_wp r f b e :
  lru_inv r → entries_ r !! f = Some e →
  wp (SetEvictable f b) r (fun _ r' => lru_inv r' ∧
    entries_ r' = <[f := mkFrameEntry (history_ e) b]> (entries_ r)).
Proof.
  intros Hinv He. pose proof (SetEvictable_inv r f b Hinv) as H. unfold SetEvictable in *.
  m_unfold in H. m_unfold. rewrite He in *. done.
Qed.

(** [RecordAccess] followed by [SetEvictable(_, false)]. *)
Lemma touch_wp r f (Q : unit → LRUKReplacer → Prop) :
  lru_inv r → (0 ≤ f)%Z →
  (∀ r' h, lru_inv r' → entries_ r' = <[f := mkFrameEntry h false]> (entries_ r) → Q tt r') →
  wp (RecordAccess f) r (fun _ r1 => wp (SetEvictable f false) r1 Q).
Proof.
  intros Hinv Hf HQ. eapply wp_mono; [by apply RecordAccess_wp|].
  intros _ r1 (Hinv1 & h & He1). eapply wp_mono.
  { eapply SetEvictable_wp; [done|]. rewrite He1. apply lookup_insert_eq. }
  intros [] r2 (Hinv2 & He2). apply (HQ _ h); [done|]. by rewrite He2, He1, insert_insert_eq.
Qed.

(** ** The policy over the full access log

    The replacer keeps at most [k] time stamps per frame.  The policy speaks of
    the whole history of a frame since it entered the replacer, which the log of
    accesses and removals records (newest event first). *)
Inductive event := Accessed (f : Z) | Forgotten (f : Z).

Fixpoint accesses (log : list event) : nat :=
  match log with
  | [] => 0
  | Accessed _ :: log' => S (accesses log')
  | Forgotten _ :: log' => accesses log'
  end.

Fixpoint access_times (log : list event) (f : Z) : list nat :=
  match log with
  | [] => []
  | Accessed g :: log' =>
    if decide (g = f) then access_times log' f ++ [accesses log'] else access_times log' f
  | Forgotten g :: log' => if decide (g = f) then [] else access_times log' f
  end.

(** The time since the [k]-th most recent access; [None] stands for +infinity. *)
Definition backward_distance (k : nat) (log : list event) (f : Z) : option nat :=
  let ts := access_times log f in
  if length ts <? k then None else Some (accesses log - nth (length ts - k) ts 0).

Definition first_of (log : list event) (f : Z) : nat := default 0 (head (access_times log f)).

Definition policy_victim (k : nat) (log : list event) (ev : Z → Prop) (f : Z) : Prop :=
  ev f ∧ ∀ g, ev g → g ≠ f →
    match backward_distance k log f, backward_distance k log g with
    | None, None => first_of log f < first_of log g
    | None, Some _ => True
    | Some _, None => False
    | Some d, Some d' => d' < d
    end.

Definition lastn {A} (k : nat) (l : list A) : list A := drop (length l - k) l.

#[global] Arguments lastn : simpl never.
#[global] Arguments push_history : simpl never.

Lemma push_history_lastn k now ts :
  push_history k now (lastn k ts) = lastn k (ts ++ [now]).
Proof.
  unfold push_history, lastn. rewrite (length_app ts). cbn [length].
  destruct (Nat.ltb_spec k (length (drop (length ts - k) ts ++ [now]))) as [Hl|Hl];
    rewrite length_app, length_drop in Hl; cbn in Hl.
  - replace (length ts + 1 - k) with (S (length ts - k)) by lia.
    rewrite <-(drop_app_le ts [now]) by lia.
    generalize (ts ++ [now]). generalize (length ts - k). clear.
    induction n as [|n IH]; intros [|x l]; [done..|]. cbn. apply IH.
  - by replace (length ts - k) with 0 by lia; replace (length ts + 1 - k) with 0 by lia.
Qed.

Section log.
Context {O : IterOrder}.

(** The states the operations reach, with the log of what they did. *)
Inductive reaches (k : nat) : list event → LRUKReplacer → Prop :=
  | reaches_new n : 0 < k → reaches k [] (LRUKReplacer_new n k)
  | reaches_access log r r' f : reaches k log r → (0 ≤ f)%Z →
      RecordAccess f r = (Ret tt, r') → reaches k (Accessed f :: log) r'
  | reaches_set log r r' f b : reaches k log r → SetEvictable f b r = (Ret tt, r') → reaches k log r'
  | reaches_evict log r r' f : reaches k log r → Evict r = (Ret (Some f), r') → reaches k (Forgotten f :: log) r'
  | reaches_remove log r r' f : reaches k log r → Remove f r = (Ret tt, r') → reaches k (Forgotten f :: log) r'.

Definition history_of (r : LRUKReplacer) (f : Z) : list nat :=
  from_option history_ [] (entries_ r !! f).

Definition represents (k : nat) (log : list event) (r : LRUKReplacer) : Prop :=
  lru_inv r ∧ k_ r = k ∧ current_timestamp_ r = accesses log ∧
  ∀ f, history_of r f = lastn k (access_times log f).

Lemma lastn_nil {A} k : lastn k (@nil A) = [].
Proof. done. Qed.

Lemma represents_delete k log r r' f :
  represents k log r → lru_inv r' → k_ r' = k_ r → current_timestamp_ r' = current_timestamp_ r →
  entries_ r' = delete f (entries_ r) → represents k (Forgotten f :: log) r'.
Proof.
  intros (Hinv & Hk & Hnow & Hhist) Hinv' Hk' Hnow' He'.
  split_and!; [done|congruence|cbn; congruence|]. intros g. unfold history_of. rewrite He'. cbn.
  case_decide as Hg; [subst g; by rewrite lookup_delete_eq|rewrite lookup_delete_ne by done; apply Hhist].
Qed.

Lemma reaches_represents k log r : reaches k log r → represents k log r.
Proof.
  induction 1 as [n Hk|log r r' f _ IH Hf Hop|log r r' f b _ IH Hop|log r r' f _ IH Hop|log r r' f _ IH Hop];
    [split_and!; [by apply LRUKReplacer_new_inv|done|done|done]|..];
    pose proof IH as (Hinv & Hk & Hnow & Hhist).
  - pose proof (RecordAccess_inv r f Hinv Hf) as Hinv'. unfold wp in Hinv'. rewrite Hop in Hinv'.
    injection Hop as <-. split_and!; [done|done|cbn; by rewrite Hnow|]. intros g. unfold history_of. cbn.
    case_decide as Hg; [subst g; rewrite lookup_insert_eq|rewrite lookup_insert_ne by done; apply Hhist].
    cbn. rewrite <-push_history_lastn, Hk, Hnow, <-Hhist. unfold history_of.
    by destruct (entries_ r !! f).
  - pose proof (SetEvictable_inv r f b Hinv) as Hinv'. unfold wp in Hinv'. rewrite Hop in Hinv'.
    unfold SetEvictable in Hop. m_unfold in Hop.
    destruct (entries_ r !! f) as [e|] eqn:E; injection Hop as <-; [|done].
    split_and!; [done|done|done|]. intros g. rewrite <-Hhist. unfold history_of. cbn.
    destruct (decide (f = g)) as [->|Hg]; [by rewrite lookup_insert_eq, E|by rewrite lookup_insert_ne].
  - pose proof (Evict_wp r Hinv) as Hev. pose proof (Evict_inv r Hinv) as Hinv'. unfold wp in *.
    rewrite Hop in *. destruct Hev as [_ ->]. by eapply represents_delete.
  - unfold Remove in Hop. m_unfold in Hop. destruct (entries_ r !! f) as [e|] eqn:E.
    + destruct (is_evictable_ e) eqn:Hev; cbn in Hop; [|done]. injection Hop as <-.
      eapply represents_delete; [done|by apply (lru_inv_delete r f e)|done|done|done].
    + injection Hop as <-. eapply represents_delete; [done|done|done|done|by rewrite delete_id].
Qed.

Lemma head_lastn k ts :
  0 < k → default 0 (head (lastn k ts)) = if length ts <? k then default 0 (head ts) else nth (length ts - k) ts 0.
Proof.
  intros Hk. unfold lastn. destruct (Nat.ltb_spec (length ts) k).
  - by replace (length ts - k) with 0 by lia.
  - generalize (length ts - k). clear. induction ts as [|t ts IH]; intros [|n]; cbn; [done..|]. apply IH.
Qed.

Lemma represents_entry k log r f e :
  represents k log r → entries_ r !! f = Some e →
  is_inf k e = (length (access_times log f) <? k) ∧
  first_access e = (if is_inf k e then first_of log f
                    else nth (length (access_times log f) - k) (access_times log f) 0) ∧
  first_access e < accesses log.
Proof.
  intros (Hinv & Hk & Hnow & Hhist) He. specialize (Hhist f). unfold history_of in Hhist.
  rewrite He in Hhist. cbn in Hhist.
  assert (is_inf k e = (length (access_times log f) <? k)) as Hinf.
  { unfold is_inf. rewrite Hhist. unfold lastn. rewrite length_drop.
    destruct (Nat.ltb_spec (length (access_times log f)) k).
    - apply Nat.ltb_lt. lia.
    - apply Nat.ltb_ge. lia. }
  split_and!; [done| |].
  - rewrite Hinf. unfold first_access, first_of. rewrite Hhist. apply head_lastn.
    rewrite <-Hk. apply Hinv.
  - rewrite <-Hnow. eapply (first_access_past (k_ r)). by apply (inv_entry _ Hinv).
Qed.

Lemma victim_policy k log r f :
  represents k log r → victim k (entries_ r) f → policy_victim k log (evictable (entries_ r)) f.
Proof.
  intros Hrep (e & He & Hev & Hmin). split; [by exists e|]. intros g (e' & He' & Hev') Hne.
  pose proof (Hmin _ _ He' Hev' Hne) as Hprec.
  destruct (represents_entry _ _ _ _ _ Hrep He) as (Hi & Hf & Hlt).
  destruct (represents_entry _ _ _ _ _ Hrep He') as (Hi' & Hf' & Hlt').
  unfold precedes in Hprec. unfold backward_distance.
  rewrite <-Hi, <-Hi'. destruct (is_inf k e), (is_inf k e'); try done; [naive_solver lia|naive_solver|].
  destruct Hprec as [_ ?]. lia.
Qed.
End log.

(** ** Properties *)

(** C15: whatever was done to the replacer before, [Evict] removes the frame that
    the LRU-K policy names, computed over the complete access log: an evictable
    frame with fewer than [k] accesses goes first (the one accessed first), and
    otherwise the evictable frame with the largest backward k-distance; it
    reports failure exactly when no frame is evictable. *)
Theorem Evict_lru_k {O : IterOrder} k log r :
  reaches k log r →
  wp Evict r (fun o r' =>
    match o with
    | Some f => policy_victim k log (evictable (entries_ r)) f ∧ entries_ r' = delete f (entries_ r) ∧
                S (Size r') = Size r
    | None => r' = r ∧ ∀ f, ¬ evictable (entries_ r) f
    end).
Proof.
  intros Hrep%reaches_represents. pose proof Hrep as (Hinv & Hk & _).
  eapply wp_mono; [by apply Evict_wp|]. intros [f|] r'; [|done]. intros [Hv ->]. subst k.
  split_and!; [by apply victim_policy|done|]. destruct Hv as (e & He & Hev & _).
  unfold Size. cbn. rewrite (inv_size _ Hinv). apply Nat.succ_pred. intros Hz%map_size_empty_inv.
  assert (evictable_frames (entries_ r) !! f = Some e) as Hf by by apply map_lookup_filter_Some.
  by rewrite Hz in Hf.
Qed.

(** C24: the result of [Evict] does not depend on the order in which the hash map
    is walked. *)
Theorem Evict_order_independent (O1 O2 : IterOrder) r :
  lru_inv r → @Evict O1 r = @Evict O2 r.
Proof.
  intros Hinv. destruct (wp_elim _ _ _ (@Evict_wp O1 r Hinv)) as ([f|] & r1 & -> & H1);
    destruct (wp_elim _ _ _ (@Evict_wp O2 r Hinv)) as ([g|] & r2 & -> & H2).
  - destruct H1 as [Hv1 ->], H2 as [Hv2 ->]. by rewrite (victim_unique _ _ _ _ Hv1 Hv2).
  - destruct H1 as [(e & He & Hev & _) _], H2 as [_ Hnone]. destruct (Hnone f). by exists e.
  - destruct H2 as [(e & He & Hev & _) _], H1 as [_ Hnone]. destruct (Hnone g). by exists e.
  - destruct H1 as [-> _], H2 as [-> _]. done.
Qed.

(** Frame 0 was accessed twice, then frame 1 once: with [k = 2], frame 1 goes. *)
Definition demo_log : list event := [Accessed 1; Accessed 0; Accessed 0].
Definition demo_replacer : LRUKReplacer :=
  mkLRUKReplacer 4 2 2 3
    {[ 0%Z := mkFrameEntry [0; 1] true; 1%Z := mkFrameEntry [2] true ]}.

Lemma demo_reaches : reaches 2 demo_log demo_replacer.
Proof.
  pose proof (reaches_new 2 4 ltac:(lia)) as H.
  do 2 (eapply (reaches_access _ _ _ _ 0%Z) in H; [|done|vm_compute; reflexivity]).
  eapply (reaches_access _ _ _ _ 1%Z) in H; [|done|vm_compute; reflexivity].
  eapply (reaches_set _ _ _ _ 0%Z true) in H; [|vm_compute; reflexivity].
  eapply (reaches_set _ _ _ _ 1%Z true) in H; [|vm_compute; reflexivity].
  exact H.
Qed.

Example Evict_lru_k_witness :
  wp Evict demo_replacer (fun o r' =>
    match o with
    | Some f => policy_victim 2 demo_log (evictable (entries_ demo_replacer)) f ∧
                entries_ r' = delete f (entries_ demo_replacer) ∧ S (Size r') = Size demo_replacer
    | None => r' = demo_replacer ∧ ∀ f, ¬ evictable (entries_ demo_replacer) f
    end) ∧ (Evict demo_replacer).1 = Ret (Some 1%Z).
Proof. split; [exact (Evict_lru_k 2 demo_log demo_replacer demo_reaches)|by vm_compute]. Defined.

(** Another order of the same map: the reverse one. *)
#[refine] Definition reverse_order : IterOrder := {|
  iter_order A m := reverse (map_to_list m);
|}.
Proof. intros A m. by rewrite reverse_Permutation. Defined.

Example Evict_order_independent_witness :
  @Evict default_order demo_replacer = @Evict reverse_order demo_replacer.
Proof.
  apply Evict_order_independent. destruct (reaches_represents _ _ _ demo_reaches) as [Hinv _]. exact Hinv.
Defined.
