(* ===== verification/BufferPool.v ===== *)
(** * The buffer pool manager

    Models [src/buffer/buffer_pool_manager.cpp] and the class [Page] of
    [page.h], over any disk.  A [Page *] is the index of its frame.  Every method
    holds [latch_] for its whole body, so a method is one atomic step. *)
From S2P Require Import Prelude Interfaces LRUKReplacer.

#[local] Open Scope Z_scope.
#[local] Coercion Z.of_nat : nat >-> Z.

(** The reader-writer latch of a page: the number of readers and the writer. *)
Record rwlatch := mkLatch { readers : nat; writer : bool }.

(** A frame; [pin_count_] is an [int] in the source and unbounded here. *)
Record Page (D : Type) := mkPage {
  data_ : D;
  page_id_ : Z;
  pin_count_ : Z;
  is_dirty_ : bool;
  rwlatch_ : rwlatch;
}.
Arguments mkPage {D}.
Arguments data_ {D}.
Arguments page_id_ {D}.
Arguments pin_count_ {D}.
Arguments is_dirty_ {D}.
Arguments rwlatch_ {D}.

Record BufferPoolManager (K D : Type) := mkBufferPool {
  pool_size_ : nat;
  disk_manager_ : K;
  replacer_ : LRUKReplacer;
  pages_ : list (Page D);
  page_table_ : gmap Z Z;
  free_list_ : list Z;
}.
Arguments mkBufferPool {K D}.
Arguments pool_size_ {K D}.
Arguments disk_manager_ {K D}.
Arguments replacer_ {K D}.
Arguments pages_ {K D}.
Arguments page_table_ {K D}.
Arguments free_list_ {K D}.

Section operations.
Context {K D : Type} `{Disk K D} `{IterOrder}.
Abbreviation bpm := (BufferPoolManager K D).

(** ** Members *)
Definition set_disk (k : K) (s : bpm) : bpm :=
  mkBufferPool (pool_size_ s) k (replacer_ s) (pages_ s) (page_table_ s) (free_list_ s).
Definition set_replacer (r : LRUKReplacer) (s : bpm) : bpm :=
  mkBufferPool (pool_size_ s) (disk_manager_ s) r (pages_ s) (page_table_ s) (free_list_ s).
Definition set_pages (ps : list (Page D)) (s : bpm) : bpm :=
  mkBufferPool (pool_size_ s) (disk_manager_ s) (replacer_ s) ps (page_table_ s) (free_list_ s).
Definition set_page_table (f : gmap Z Z → gmap Z Z) (s : bpm) : bpm :=
  mkBufferPool (pool_size_ s) (disk_manager_ s) (replacer_ s) (pages_ s) (f (page_table_ s)) (free_list_ s).
Definition set_free_list (l : list Z) (s : bpm) : bpm :=
  mkBufferPool (pool_size_ s) (disk_manager_ s) (replacer_ s) (pages_ s) (page_table_ s) l.

Definition on_disk {A} (m : M K A) : M bpm A := zoom disk_manager_ set_disk m.
Definition on_replacer {A} (m : M LRUKReplacer A) : M bpm A := zoom replacer_ set_replacer m.

(** [pages_[frame_id]] *)
Definition frame (s : bpm) (frame_id : Z) : option (Page D) :=
  if bool_decide (0 ≤ frame_id) then pages_ s !! Z.to_nat frame_id else None.
Definition get_page (frame_id : Z) : M bpm (Page D) :=
  fun s => (deref (frame s frame_id), s).
Definition put_page (frame_id : Z) (p : Page D) : M bpm unit :=
  modify (fun s => set_pages (<[Z.to_nat frame_id := p]> (pages_ s)) s).

Definition set_dirty (b : bool) (p : Page D) : Page D :=
  mkPage (data_ p) (page_id_ p) (pin_count_ p) b (rwlatch_ p).
Definition set_pin_count (c : Z) (p : Page D) : Page D :=
  mkPage (data_ p) (page_id_ p) c (is_dirty_ p) (rwlatch_ p).

Definition new_page : Page D := mkPage zero_page INVALID_PAGE_ID 0 false (mkLatch 0 false).

Definition BufferPoolManager_new (pool_size : nat) (disk : K) (replacer_k : nat) : bpm :=
  mkBufferPool pool_size disk (LRUKReplacer_new pool_size replacer_k)
    (replicate pool_size new_page) ∅ (Z.of_nat <$> seq 0 pool_size).

(** The destructor deletes the frames, whether their pages are dirty or not; the disk
    manager, which the pool does not own, is left. *)
Definition BufferPoolManager_destroy (s : bpm) : K := disk_manager_ s.

(** ** Methods *)

(** A frame from the free list or else from the replacer. *)
Definition take_frame : M bpm (option Z) :=
  free ← gets free_list_;
  match free with
  | frame_id :: free' => modify (set_free_list free');; mret (Some frame_id)
  | [] => on_replacer Evict
  end.

(** The page that occupied the frame is written back when dirty and leaves the
    page table. *)
Definition clear_victim (frame_id : Z) : M bpm unit :=
  victim_page ← get_page frame_id;
  (if is_dirty_ victim_page then
     on_disk (disk_write (page_id_ victim_page) (data_ victim_page));;
     put_page frame_id (set_dirty false victim_page)
   else mret tt);;
  if bool_decide (page_id_ victim_page ≠ INVALID_PAGE_ID)
  then modify (set_page_table (delete (page_id_ victim_page))) else mret tt.

(** [None] is [nullptr]; otherwise the page id and the frame. *)
Definition NewPage : M bpm (option (Z * Z)) :=
  victim ← take_frame;
  match victim with
  | None => mret None
  | Some frame_id =>
    clear_victim frame_id;;
    page_id ← on_disk disk_allocate;
    victim_page ← get_page frame_id;
    put_page frame_id (mkPage zero_page page_id 1 false (rwlatch_ victim_page));;
    modify (set_page_table <[page_id := frame_id]>);;
    on_replacer (RecordAccess frame_id);;
    on_replacer (SetEvictable frame_id false);;
    mret (Some (page_id, frame_id))
  end.

(** [pin_count_++] counts in Z: the overflow of the [int], which needs 2^31 pins of one
    page at a time, is left out. *)
Definition FetchPage (page_id : Z) : M bpm (option Z) :=
  table ← gets page_table_;
  match table !! page_id with
  | Some frame_id =>
    page ← get_page frame_id;
    put_page frame_id (set_pin_count (pin_count_ page + 1) page);;
    on_replacer (RecordAccess frame_id);;
    on_replacer (SetEvictable frame_id false);;
    mret (Some frame_id)
  | None =>
    victim ← take_frame;
    match victim with
    | None => mret None
    | Some frame_id =>
      clear_victim frame_id;;
      data ← on_disk (disk_read page_id);
      victim_page ← get_page frame_id;
      put_page frame_id (mkPage data page_id 1 false (rwlatch_ victim_page));;
      modify (set_page_table <[page_id := frame_id]>);;
      on_replacer (RecordAccess frame_id);;
      on_replacer (SetEvictable frame_id false);;
      mret (Some frame_id)
    end
  end.

Definition UnpinPage (page_id : Z) (is_dirty : bool) : M bpm bool :=
  table ← gets page_table_;
  match table !! page_id with
  | None => mret false
  | Some frame_id =>
    page ← get_page frame_id;
    if bool_decide (pin_count_ page ≤ 0) then mret false
    else
      let page := if is_dirty then set_dirty true page else page in
      let page := set_pin_count (pin_count_ page - 1) page in
      put_page frame_id page;;
      (if bool_decide (pin_count_ page = 0)
       then on_replacer (SetEvictable frame_id true) else mret tt);;
      mret true
  end.

Definition DeletePage (page_id : Z) : M bpm bool :=
  table ← gets page_table_;
  match table !! page_id with
  | None => mret true
  | Some frame_id =>
    page ← get_page frame_id;
    if bool_decide (0 < pin_count_ page) then mret false
    else
      modify (set_page_table (delete page_id));;
      on_replacer (Remove frame_id);;
      put_page frame_id (mkPage zero_page INVALID_PAGE_ID 0 false (rwlatch_ page));;
      modify (fun s => set_free_list (free_list_ s ++ [frame_id]) s);;
      on_disk (disk_deallocate page_id);;
      mret true
  end.

Definition FlushPage (page_id : Z) : M bpm bool :=
  table ← gets page_table_;
  match table !! page_id with
  | None => mret false
  | Some frame_id =>
    page ← get_page frame_id;
    on_disk (disk_write page_id (data_ page));;
    put_page frame_id (set_dirty false page);;
    mret true
  end.

Fixpoint flush_loop (table : list (Z * Z)) : M bpm unit :=
  match table with
  | [] => mret tt
  | (page_id, frame_id) :: table' =>
    page ← get_page frame_id;
    on_disk (disk_write page_id (data_ page));;
    put_page frame_id (set_dirty false page);;
    flush_loop table'
  end.

Definition FlushAllPages : M bpm unit :=
  table ← gets page_table_;
  flush_loop (iter_order table).

(** [page->GetData()] read and written through the pointer. *)
Definition GetData (frame_id : Z) : M bpm D :=
  page ← get_page frame_id; mret (data_ page).
Definition WriteData (frame_id : Z) (d : D) : M bpm unit :=
  page ← get_page frame_id;
  put_page frame_id (mkPage d (page_id_ page) (pin_count_ page) (is_dirty_ page) (rwlatch_ page)).
End operations.
