(* ===== verification/BufferPoolSpec.v ===== *)
(** * The buffer pool refines a memory of pages

    The invariant of the buffer pool, its relation to the specification state of
    [Interfaces], and the proof that every method of [BufferPool] implements its
    step there. *)
From coqutil Require Import Byte.
From S2P Require Import Prelude Interfaces DiskManager LRUKReplacer BufferPool.

#[local] Open Scope Z_scope.
#[local] Coercion Z.of_nat : nat >-> Z.

Section spec.
Context {K D : Type} `{DiskSpec K D} `{IterOrder}.
Abbreviation bpm := (BufferPoolManager K D).
Implicit Types (s : bpm) (a : pstate D) (p : Page D) (r : LRUKReplacer).

(** ** Frames *)
Definition free_frame s (f : Z) p : Prop :=
  f ∈ free_list_ s ∧ page_id_ p = INVALID_PAGE_ID ∧ pin_count_ p = 0 ∧ is_dirty_ p = false ∧
  entries_ (replacer_ s) !! f = None.

(** A frame is evictable exactly when its page is not pinned. *)
Definition used_frame s (f : Z) p : Prop :=
  (f ∉ free_list_ s) ∧ page_table_ s !! page_id_ p = Some f ∧
  0 ≤ page_id_ p < next_id (disk_manager_ s) ∧ 0 ≤ pin_count_ p ∧
  (∃ e, entries_ (replacer_ s) !! f = Some e ∧ is_evictable_ e = bool_decide (pin_count_ p = 0)).

(** In the middle of [NewPage] and [FetchPage] one frame [x] is in transit: it
    is in no list and holds no page of the table. *)
Definition transit_frame s (x : Z) : Prop :=
  (x ∉ free_list_ s) ∧ entries_ (replacer_ s) !! x = None ∧ is_Some (frame s x) ∧
  (∀ id, page_table_ s !! id ≠ Some x).

Record pool_inv (x : option Z) s : Prop := {
  pool_len : length (pages_ s) = pool_size_ s;
  pool_lru : lru_inv (replacer_ s);
  pool_disk : disk_ok (disk_manager_ s);
  pool_next : 0 ≤ next_id (disk_manager_ s) ≤ INT32_MAX;
  pool_free_nodup : NoDup (free_list_ s);
  pool_free f : f ∈ free_list_ s → is_Some (frame s f);
  pool_table id f : page_table_ s !! id = Some f →
    ∃ p, frame s f = Some p ∧ page_id_ p = id ∧ 0 ≤ id < next_id (disk_manager_ s);
  pool_entries f : is_Some (entries_ (replacer_ s) !! f) → is_Some (frame s f);
  pool_data f p : frame s f = Some p → page_ok (data_ p);
  pool_frame f p : frame s f = Some p → x ≠ Some f → free_frame s f p ∨ used_frame s f p;
  pool_transit f : x = Some f → transit_frame s f;
}.

(** ** The specification state *)
Record pool_rep (x : option Z) s a : Prop := {
  rep_inv : pool_inv x s;
  rep_cap : ps_cap a = pool_size_ s;
  rep_next : ps_next a = next_id (disk_manager_ s);
  rep_pinned id f c : ps_pinned a !! id = Some (f, c) ↔
    page_table_ s !! id = Some f ∧ 0 < c ∧ ∃ p, frame s f = Some p ∧ pin_count_ p = c;
  rep_resident id f p : page_table_ s !! id = Some f → frame s f = Some p →
    ps_pages a !! id = Some (data_ p) ∧
    (id ∉ ps_unsaved a → is_dirty_ p = true ∨ stored (disk_manager_ s) id = Some (data_ p));
  rep_stored id d : page_table_ s !! id = None → ps_pages a !! id = Some d →
    stored (disk_manager_ s) id = Some d;
  rep_unsaved id : id ∈ ps_unsaved a → is_Some (ps_pinned a !! id);
  rep_bound id d : ps_pages a !! id = Some d → 0 ≤ id < ps_next a;
}.

(** ** Frames of the page array *)
Lemma frame_lt s f p : frame s f = Some p → 0 ≤ f < length (pages_ s).
Proof.
  unfold frame. case_bool_decide; [|done]. intros Hl%lookup_lt_Some. lia.
Qed.

Lemma frame_put s s' f g p :
  pages_ s' = <[Z.to_nat f := p]> (pages_ s) → is_Some (frame s f) →
  frame s' g = if decide (g = f) then Some p else frame s g.
Proof.
  intros Hp [q Hq]. pose proof (frame_lt _ _ _ Hq). unfold frame in *. rewrite Hp.
  repeat case_bool_decide; case_decide; try done; subst; try lia.
  - apply list_lookup_insert_eq. lia.
  - rewrite list_lookup_insert_ne by lia. done.
Qed.

Lemma frame_get s f : frame s f = if bool_decide (0 ≤ f) then pages_ s !! Z.to_nat f else None.
Proof. done. Qed.

Lemma get_page_wp s f p (Q : Page D → bpm → Prop) :
  frame s f = Some p → Q p s → wp (get_page f) s Q.
Proof. intros Hf HQ. unfold wp, get_page. by rewrite Hf. Qed.

Lemma table_used x s id f :
  pool_inv x s → page_table_ s !! id = Some f →
  ∃ p, frame s f = Some p ∧ page_id_ p = id ∧ used_frame s f p.
Proof.
  intros Hinv Ht. destruct (pool_table _ _ Hinv _ _ Ht) as (p & Hp & Hid & Hpos).
  exists p. split_and!; [done|done|].
  assert (x ≠ Some f) as Hx.
  { intros ->. destruct (pool_transit _ _ Hinv f eq_refl) as (_ & _ & _ & Hno). by eapply Hno. }
  destruct (pool_frame _ _ Hinv _ _ Hp Hx) as [(_ & Hinvalid & _)|]; [|done].
  exfalso. rewrite Hinvalid in Hid. unfold INVALID_PAGE_ID in Hid. lia.
Qed.

Lemma table_inj x s id1 id2 f :
  pool_inv x s → page_table_ s !! id1 = Some f → page_table_ s !! id2 = Some f → id1 = id2.
Proof.
  intros Hinv (p & Hp & <- & _)%(pool_table _ _ Hinv) (p' & Hp' & <- & _)%(pool_table _ _ Hinv). congruence.
Qed.

(** ** Installing or changing the page of one frame

    Every method ends in a state where frame [f] holds page [id] with the new
    header [p'] and everything else is as before. *)
Lemma rep_set x s s' a a' id f p' :
  pool_rep x s a → is_Some (frame s f) →
  x = None ∧ page_table_ s !! id = Some f ∨ x = Some f ∧ page_table_ s !! id = None →
  page_id_ p' = id → 0 ≤ id < next_id (disk_manager_ s') → page_ok (data_ p') → 0 ≤ pin_count_ p' →
  pool_size_ s' = pool_size_ s → pages_ s' = <[Z.to_nat f := p']> (pages_ s) →
  page_table_ s' = <[id := f]> (page_table_ s) → free_list_ s' = free_list_ s →
  lru_inv (replacer_ s') → (∃ h, entries_ (replacer_ s') =
    <[f := mkFrameEntry h (bool_decide (pin_count_ p' = 0))]> (entries_ (replacer_ s))) →
  disk_ok (disk_manager_ s') → next_id (disk_manager_ s) ≤ next_id (disk_manager_ s') ≤ INT32_MAX →
  (∀ j d, j ≠ id → stored (disk_manager_ s) j = Some d → stored (disk_manager_ s') j = Some d) →
  ps_cap a' = ps_cap a → ps_next a' = next_id (disk_manager_ s') →
  ps_pages a' = <[id := data_ p']> (ps_pages a) →
  ps_pinned a' = (if bool_decide (pin_count_ p' = 0) then delete id (ps_pinned a)
                  else <[id := (f, pin_count_ p')]> (ps_pinned a)) →
  (∀ j, j ≠ id → j ∈ ps_unsaved a' ↔ j ∈ ps_unsaved a) → (id ∈ ps_unsaved a' → 0 < pin_count_ p') →
  (id ∉ ps_unsaved a' → is_dirty_ p' = true ∨ stored (disk_manager_ s') id = Some (data_ p')) →
  pool_rep None s' a'.
Proof.
  intros [Hinv Hcap Hnext Hpin Hres Hsto Huns Hbound] Hf Hx Hid Hidr Hok Hpos
    Esize Epages Etable Efree Hlru (h & Eentries) Hdisk Hnx Hstored Ecap Enext Econtent Epinned Hun1 Hun2 Hun3.
  assert (f ∉ free_list_ s) as Hnfree.
  { destruct Hx as [[-> Ht]|[-> _]].
    - by destruct (table_used _ _ _ _ Hinv Ht) as (? & _ & _ & ? & _).
    - by destruct (pool_transit _ _ Hinv f eq_refl). }
  assert (∀ g, frame s' g = if decide (g = f) then Some p' else frame s g) as Hframe
    by (intros; by apply frame_put).
  assert (∀ j g, page_table_ s !! j = Some g → j ≠ id → g ≠ f) as Hother.
  { intros j g Hj Hne ->. destruct Hx as [[-> Ht]|[-> _]]; [by eapply Hne, table_inj|].
    destruct (pool_transit _ _ Hinv f eq_refl) as (_ & _ & _ & Hno). by eapply Hno. }
  split.
  - split.
    + rewrite Epages, Esize, length_insert. apply Hinv.
    + done.
    + done.
    + pose proof (pool_next _ _ Hinv). lia.
    + rewrite Efree. apply Hinv.
    + intros g. rewrite Efree, Hframe. intros Hg%(pool_free _ _ Hinv). destruct (decide (g = f)); [by eexists|done].
    + intros j g. rewrite Etable, Hframe. intros [[<- <-]|[Hne Hj]]%lookup_insert_Some.
      * rewrite decide_True by done. exists p'. split_and!; [done|done|lia|lia].
      * rewrite decide_False by eauto. destruct (pool_table _ _ Hinv _ _ Hj) as (q & ? & ? & ?).
        exists q. split_and!; [done|done|lia|lia].
    + intros g. rewrite Eentries, Hframe. destruct (decide (g = f)); [by eexists|]. rewrite lookup_insert_ne by done. apply Hinv.
    + intros g q. rewrite Hframe. destruct (decide (g = f)); [by intros [= <-]|]. apply Hinv.
    + intros g q Hg _. rewrite Hframe in Hg. destruct (decide (g = f)) as [Hgf|Hgf].
      * injection Hg as <-. subst g. right. split_and!; [by rewrite Efree| |lia|lia|done|].
        { rewrite Etable, Hid. apply lookup_insert_eq. }
        { rewrite Eentries. eexists. by rewrite lookup_insert_eq. }
      * assert (x ≠ Some g) as Hxg by (destruct Hx as [[-> _]|[-> _]]; congruence).
        destruct (pool_frame _ _ Hinv _ _ Hg Hxg) as [(?&?&?&?&?)|(?&Ht&?&?&e&?&?)]; [left|right].
        { split_and!; [by rewrite Efree|done..|]. rewrite Eentries. by rewrite lookup_insert_ne. }
        { split_and!; [by rewrite Efree| |lia|lia|done|].
          - rewrite Etable. destruct (decide (page_id_ q = id)) as [Heq|]; [|by rewrite lookup_insert_ne].
            exfalso. rewrite Heq in Ht. destruct Hx as [[_ Ht']|[_ Ht']]; congruence.
          - exists e. rewrite Eentries. by rewrite lookup_insert_ne. }
    + done.
  - congruence.
  - done.
  - intros j g c. rewrite Etable, Epinned. split.
    + destruct (decide (j = id)) as [->|Hne].
      * case_bool_decide; [by rewrite lookup_delete_eq|]. rewrite lookup_insert_eq. intros [= <- <-].
        rewrite lookup_insert_eq. split_and!; [done|lia|]. exists p'. by rewrite Hframe, decide_True.
      * intros Hj. assert (ps_pinned a !! j = Some (g, c)) as Hj'.
        { case_bool_decide; [by rewrite lookup_delete_ne in Hj|by rewrite lookup_insert_ne in Hj]. }
        apply Hpin in Hj' as (Ht & ? & q & Hq & ?). rewrite lookup_insert_ne by done.
        split_and!; [done|lia|]. exists q. rewrite Hframe, decide_False; eauto.
    + intros ([[<- <-]|[Hne Hj]]%lookup_insert_Some & Hc & q & Hq & Hqc); rewrite Hframe in Hq.
      * rewrite decide_True in Hq by done. injection Hq as <-. subst c.
        rewrite bool_decide_false by lia. apply lookup_insert_eq.
      * rewrite decide_False in Hq by eauto.
        assert (ps_pinned a !! j = Some (g, c)) by (apply Hpin; eauto).
        case_bool_decide; [by rewrite lookup_delete_ne|by rewrite lookup_insert_ne].
  - intros j g q. rewrite Etable, Hframe, Econtent. intros [[<- <-]|[Hne Hj]]%lookup_insert_Some.
    + rewrite decide_True by done. intros [= <-]. rewrite lookup_insert_eq. done.
    + rewrite decide_False by eauto. rewrite lookup_insert_ne by done. intros Hq.
      destruct (Hres _ _ _ Hj Hq) as [? Hclean]. split; [done|]. rewrite Hun1 by done.
      intros [|]%Hclean; eauto.
  - intros j d. rewrite Etable, Econtent. intros [Hj Hne]%lookup_insert_None.
    rewrite lookup_insert_ne by done. eauto.
  - intros j Hj. rewrite Epinned. destruct (decide (j = id)) as [->|Hne].
    + apply Hun2 in Hj. rewrite bool_decide_false by lia. rewrite lookup_insert_eq. by eexists.
    + apply Hun1, Huns in Hj; [|done].
      case_bool_decide; [by rewrite lookup_delete_ne|by rewrite lookup_insert_ne].
  - intros j d. rewrite Econtent, Enext. intros [[<- <-]|[Hne Hj]]%lookup_insert_Some; [done|].
    apply Hbound in Hj. lia.
Qed.

(** ** Counting the pinned frames *)
Definition pinned_frames a : list Z := (fun x => x.2.1) <$> map_to_list (ps_pinned a).

Lemma pinned_frames_nodup s a : pool_rep None s a → NoDup (pinned_frames a).
Proof.
  intros Hrep. apply NoDup_fmap_2_strong; [|apply NoDup_map_to_list].
  intros [i [f c]] [j [g c']] Hi%elem_of_map_to_list Hj%elem_of_map_to_list; cbn. intros <-.
  apply (rep_pinned _ _ _ Hrep) in Hi as Hi', Hj as Hj'.
  assert (i = j) as -> by (eapply table_inj; [apply Hrep|apply Hi'|apply Hj']). congruence.
Qed.

Lemma elem_of_pinned_frames s a f :
  pool_rep None s a → f ∈ pinned_frames a ↔ ∃ p, frame s f = Some p ∧ 0 < pin_count_ p.
Proof.
  intros Hrep. unfold pinned_frames. rewrite list_elem_of_fmap. split.
  - intros ([id [g c]] & -> & Hin%elem_of_map_to_list). cbn.
    apply (rep_pinned _ _ _ Hrep) in Hin as (_ & ? & p & ? & <-). eauto.
  - intros (p & Hp & Hpos).
    destruct (pool_frame _ _ (rep_inv _ _ _ Hrep) _ _ Hp) as [(_&_&?&_)|(_&Ht&_)]; [done|lia|].
    exists (page_id_ p, (f, pin_count_ p)). split; [done|]. apply elem_of_map_to_list.
    apply (rep_pinned _ _ _ Hrep). eauto.
Qed.

Lemma length_pinned_frames a : length (pinned_frames a) = size (ps_pinned a).
Proof. unfold pinned_frames. by rewrite length_fmap, length_map_to_list. Qed.

Definition frames s : list Z := Z.of_nat <$> seq 0 (pool_size_ s).

Lemma elem_of_frames x s f : pool_inv x s → f ∈ frames s ↔ is_Some (frame s f).
Proof.
  intros Hinv. unfold frames, frame. rewrite list_elem_of_fmap, <-(pool_len _ _ Hinv). split.
  - intros (i & -> & [_ Hi]%elem_of_seq). rewrite bool_decide_true, Nat2Z.id by lia.
    apply lookup_lt_is_Some. lia.
  - case_bool_decide; [|by intros [??]]. intros Hi%lookup_lt_is_Some. exists (Z.to_nat f).
    rewrite elem_of_seq. lia.
Qed.

Lemma unpinned_frame_size s a f p :
  pool_rep None s a → frame s f = Some p → ¬ 0 < pin_count_ p → (size (ps_pinned a) < ps_cap a)%nat.
Proof.
  intros Hrep Hf Hp. rewrite <-length_pinned_frames, (rep_cap _ _ _ Hrep).
  assert (f :: pinned_frames a ⊆+ frames s) as Hsub.
  { apply NoDup_submseteq.
    - apply NoDup_cons. split; [|by eapply pinned_frames_nodup].
      rewrite elem_of_pinned_frames by done. naive_solver.
    - intros g. rewrite (elem_of_frames None) by apply Hrep.
      intros [->|(q & Hq & _)%(elem_of_pinned_frames s a g Hrep)]%elem_of_cons; by eexists. }
  apply submseteq_length in Hsub. cbn in Hsub. unfold frames in Hsub. rewrite length_fmap, length_seq in Hsub. lia.
Qed.

Lemma all_pinned_size s a :
  pool_rep None s a → (∀ f p, frame s f = Some p → 0 < pin_count_ p) → size (ps_pinned a) = ps_cap a.
Proof.
  intros Hrep Hall. rewrite <-length_pinned_frames, (rep_cap _ _ _ Hrep).
  transitivity (length (frames s)); [|unfold frames; by rewrite length_fmap, length_seq].
  apply Permutation_length, NoDup_Permutation; [by eapply pinned_frames_nodup| |].
  { apply NoDup_fmap; [apply _|]. apply NoDup_seq. }
  intros f. rewrite (elem_of_frames None) by apply Hrep. rewrite elem_of_pinned_frames by done.
  split; [intros (p & Hp & _); by eexists|intros [p Hp]; eauto].
Qed.

(** ** Taking a frame *)

(** The page table leads to a frame exactly by the id of the page there. *)
Lemma table_frame x s id g f p :
  pool_inv x s → x ≠ Some f → page_table_ s !! id = Some g → frame s f = Some p → page_id_ p = id ↔ g = f.
Proof.
  intros Hinv Hx Ht Hp. destruct (pool_table _ _ Hinv _ _ Ht) as (q & Hq & Hid & Hpos). split.
  - intros <-. destruct (pool_frame _ _ Hinv _ _ Hp Hx) as [(_&Hbad&_)|(_&Ht'&_)]; [|congruence].
    unfold INVALID_PAGE_ID in *. lia.
  - intros ->. congruence.
Qed.

(** [s'] is [s] with the unpinned page [p] of frame [f] taken out of every
    structure and the header [q] left in the frame. *)
Record vacated s s' (f : Z) p (q : Page D) : Prop := {
  vac_frame : frame s f = Some p;
  vac_pin : pin_count_ p = 0;
  vac_size : pool_size_ s' = pool_size_ s;
  vac_pages : pages_ s' = <[Z.to_nat f := q]> (pages_ s);
  vac_ok : page_ok (data_ q);
  vac_lru : lru_inv (replacer_ s');
  vac_entries : entries_ (replacer_ s') = delete f (entries_ (replacer_ s));
  vac_nodup : NoDup (free_list_ s');
  vac_free g : g ∈ free_list_ s' ↔ g ∈ free_list_ s ∧ g ≠ f;
  vac_table : page_table_ s' = delete (page_id_ p) (page_table_ s);
  vac_disk : disk_ok (disk_manager_ s');
  vac_next : next_id (disk_manager_ s') = next_id (disk_manager_ s);
  vac_stored j d : is_dirty_ p = false ∨ j ≠ page_id_ p →
    stored (disk_manager_ s) j = Some d → stored (disk_manager_ s') j = Some d;
}.

Section vacate.
Context s s' a f p q (Hrep : pool_rep None s a) (Hv : vacated s s' f p q).

Lemma vacated_frame g : frame s' g = if decide (g = f) then Some q else frame s g.
Proof using Hv. apply frame_put; [apply Hv|]. rewrite (vac_frame _ _ _ _ _ Hv). by eexists. Qed.

Lemma vacated_table j g : page_table_ s' !! j = Some g ↔ page_table_ s !! j = Some g ∧ g ≠ f.
Proof using Hv Hrep.
  rewrite (vac_table _ _ _ _ _ Hv), lookup_delete_Some.
  assert (page_table_ s !! j = Some g → page_id_ p = j ↔ g = f); [|naive_solver].
  intros Hj. by eapply table_frame; [apply Hrep| |done|apply Hv].
Qed.

Lemma vacated_inv : pool_inv (Some f) s'.
Proof using Hv Hrep.
  pose proof (rep_inv _ _ _ Hrep) as Hinv. pose proof vacated_frame as Hframe. pose proof vacated_table as Htable.
  destruct Hv as [Hf Hpin Esize Epages Hok Hlru Eentries Hnodup Hfree _ Hdisk Hnext _]. split.
  - by rewrite Epages, Esize, length_insert, (pool_len _ _ Hinv).
  - done.
  - done.
  - rewrite Hnext. apply Hinv.
  - done.
  - intros g [Hg _]%Hfree. rewrite Hframe. destruct (decide (g = f)); [by eexists|by apply (pool_free _ _ Hinv)].
  - intros j g [Hj Hne]%Htable. rewrite Hframe, decide_False by done. rewrite Hnext. by apply Hinv.
  - intros g. rewrite Eentries, Hframe. destruct (decide (g = f)); [by eexists|].
    rewrite lookup_delete_ne by done. apply Hinv.
  - intros g r'. rewrite Hframe. destruct (decide (g = f)); [by intros [= <-]|by eapply (pool_data _ _ Hinv)].
  - intros g r'. rewrite Hframe. destruct (decide (g = f)) as [->|Hne]; [done|]. intros Hg _.
    destruct (pool_frame _ _ Hinv _ _ Hg) as [(?&?&?&?&?)|(Hnf&Ht&?&?&e&?&?)]; [done|left|right].
    + split_and!; [by apply Hfree|done..|]. rewrite Eentries. by rewrite lookup_delete_ne.
    + split_and!; [intros [? _]%Hfree; done|by apply Htable|lia|lia|done|].
      exists e. rewrite Eentries. by rewrite lookup_delete_ne.
  - intros g [= <-]. split_and!; [by intros [_ ?]%Hfree|by rewrite Eentries, lookup_delete_eq| |].
    + rewrite Hframe, decide_True by done. by eexists.
    + by intros id [_ ?]%Htable.
Qed.

(** [a'] may have forgotten the content of the page. *)
Lemma rep_transit (a' : pstate D) :
  (a' = a ∧ ∀ d, page_table_ s !! page_id_ p = Some f → d = data_ p → is_dirty_ p = true →
     stored (disk_manager_ s') (page_id_ p) = Some d) ∨ a' = spec_delete (page_id_ p) a →
  pool_rep (Some f) s' a'.
Proof using Hv Hrep.
  intros Ha. pose proof Hrep as [Hinv Hcap Hnx Hpinned Hres Hsto Huns Hbound].
  pose proof (vac_frame _ _ _ _ _ Hv) as Hf.
  assert (ps_cap a' = ps_cap a ∧ ps_next a' = ps_next a ∧ ps_pinned a' = ps_pinned a ∧ ps_unsaved a' = ps_unsaved a)
    as (Ecap & Enext & Epinned & Eunsaved) by (by destruct Ha as [[-> _]| ->]).
  assert (∀ j, j ≠ page_id_ p → ps_pages a' !! j = ps_pages a !! j) as Eother.
  { intros j Hj. destruct Ha as [[-> _]| ->]; [done|]. cbn. by rewrite lookup_delete_ne. }
  assert (∀ j d, ps_pages a' !! j = Some d → ps_pages a !! j = Some d) as Esub.
  { intros j d. destruct Ha as [[-> _]| ->]; [done|]. cbn. by intros [_ ?]%lookup_delete_Some. }
  split; [apply vacated_inv|by rewrite (vac_size _ _ _ _ _ Hv), Ecap|by rewrite (vac_next _ _ _ _ _ Hv), Enext|..].
  - intros j g c. rewrite vacated_table, Epinned, Hpinned. pose proof (vac_pin _ _ _ _ _ Hv). split.
    + intros (Hj & Hc & r' & Hr & Hrc). destruct (decide (g = f)) as [->|Hne].
      { exfalso. assert (r' = p) as -> by congruence. lia. }
      split_and!; [done|done|done|]. exists r'. by rewrite vacated_frame, decide_False.
    + intros ([Hj Hne] & Hc & r' & Hr & Hrc). rewrite vacated_frame, decide_False in Hr by done. eauto.
  - intros j g r' [Hj Hne]%vacated_table. rewrite vacated_frame, decide_False by done. intros Hr.
    assert (j ≠ page_id_ p) as Hjp by (intros ->; apply Hne; by eapply (table_frame None s _ g f p)).
    destruct (Hres _ _ _ Hj Hr) as [? Hclean]. rewrite Eother, Eunsaved by done. split; [done|].
    intros [|Hs]%Hclean; [by left|right]. apply Hv; [by right|done].
  - intros j d Hnone Hd. destruct (page_table_ s !! j) as [g|] eqn:Hj.
    + assert (g = f) as ->.
      { destruct (decide (g = f)); [done|]. assert (page_table_ s' !! j = Some g) by (by apply vacated_table). congruence. }
      assert (page_id_ p = j) as <- by (by eapply (table_frame None s j f f p)).
      destruct Ha as [[-> Hdirty]| ->]; [|cbn in Hd; by rewrite lookup_delete_eq in Hd].
      destruct (Hres _ _ _ Hj Hf) as [Hd' Hclean]. assert (d = data_ p) as -> by congruence.
      destruct (is_dirty_ p) eqn:Hdp; [by eapply Hdirty|]. apply Hv; [by left|]. destruct Hclean; [|done..].
      intros [[g c] (Hj' & ? & r' & ? & ?)%Hpinned]%Huns.
      assert (g = f) as -> by congruence. assert (r' = p) as -> by congruence. pose proof (vac_pin _ _ _ _ _ Hv). lia.
    + apply Hv; [|by apply Hsto, Esub]. destruct (is_dirty_ p) eqn:Hdp; [right|by left]. intros ->.
      destruct (pool_frame _ _ Hinv _ _ Hf) as [(_&_&_&?&_)|(_&Ht&_)]; [done|congruence|congruence].
  - rewrite Eunsaved, Epinned. done.
  - intros j d Hd%Esub. rewrite Enext. by eapply Hbound.
Qed.
End vacate.

(** ** The methods *)

(** [take_frame] and [clear_victim]: a frame is obtained whenever one is not
    pinned, and no content is lost on the way. *)
Lemma take_frame_wp s a :
  pool_rep None s a →
  wp take_frame s (fun o s1 =>
    match o with
    | None => s1 = s ∧ size (ps_pinned a) = ps_cap a
    | Some f => (size (ps_pinned a) < ps_cap a)%nat ∧
                wp (clear_victim f) s1 (fun _ s' => pool_rep (Some f) s' a ∧ pool_size_ s' = pool_size_ s)
    end).
Proof.
  intros Hrep. pose proof (rep_inv _ _ _ Hrep) as Hinv. unfold take_frame. wp_steps.
  destruct (free_list_ s) as [|f free'] eqn:Hfree.
  - (* from the replacer *)
    unfold on_replacer. wp_step. eapply wp_mono; [apply Evict_wp, Hinv|].
    intros [f|] r'; cbn beta iota.
    + intros [(e & He & Hev & _) ->].
      destruct (pool_entries _ _ Hinv f) as [p Hp]; [by eexists|].
      destruct (pool_frame _ _ Hinv _ _ Hp) as [(_&_&_&_&Hno)|(_&Ht&Hid&_&e'&He'&Hpin)]; [done|congruence|].
      assert (e' = e) as -> by congruence. rewrite Hev in Hpin. symmetry in Hpin. apply bool_decide_eq_true in Hpin.
      split; [apply (unpinned_frame_size s a f p); [done|done|lia]|].
      set (r' := set_curr_size pred (set_entries (delete f) (replacer_ s))).
      assert (lru_inv r') as Hlru by (apply (lru_inv_delete _ _ e); [apply Hinv|done|done]).
      unfold clear_victim. wp_steps. eapply get_page_wp; [exact Hp|].
      destruct (is_dirty_ p) eqn:Hdirty; cbn beta iota.
      * unfold on_disk, put_page. wp_steps.
        eapply wp_mono; [apply disk_write_stored; [apply Hinv| |by eapply pool_data]|].
        { pose proof (pool_next _ _ Hinv). cbn. lia. }
        intros _ k (Hdisk & Hnext & Hsame & Hother). wp_steps.
        rewrite bool_decide_true by (unfold INVALID_PAGE_ID; lia). wp_step. split; [|done].
        eapply (rep_transit s _ a f p (set_dirty false p)); [done| |by left; split; [|intros ? _ -> _]].
        split; cbn; try done.
        { by eapply pool_data. }
        { rewrite Hfree. apply NoDup_nil_2. }
        { intros g. rewrite Hfree. set_solver. }
        { intros j d [?|Hne]; [congruence|]. by apply Hother. }
      * wp_step. rewrite bool_decide_true by (unfold INVALID_PAGE_ID; lia). wp_step. split; [|done].
        eapply (rep_transit s _ a f p p); [done| |by left; split; [|congruence]].
        split; cbn; try done.
        { pose proof (frame_lt _ _ _ Hp). unfold frame in Hp. case_bool_decide; [|done].
          symmetry. by apply list_insert_id. }
        { by eapply pool_data. }
        { rewrite Hfree. apply NoDup_nil_2. }
        { intros g. rewrite Hfree. set_solver. }
        { apply Hinv. }
    + intros [-> Hnone]. split; [by destruct s|]. apply (all_pinned_size s a); [done|].
      intros f p Hp.
      destruct (pool_frame _ _ Hinv _ _ Hp) as [(Hin&_)|(_&_&_&Hpos&e&He&Hev)]; [done|rewrite Hfree in Hin; set_solver|].
      destruct (decide (pin_count_ p = 0)) as [Hz|]; [|lia].
      destruct (Hnone f). exists e. by rewrite bool_decide_true in Hev.
  - (* from the free list *)
    wp_steps.
    assert (f ∈ free_list_ s) as Hin by (rewrite Hfree; by left).
    destruct (pool_free _ _ Hinv f Hin) as [p Hp].
    destruct (pool_frame _ _ Hinv _ _ Hp) as [(_&Hinvalid&Hpin&Hclean&Hno)|(Hnin&_)]; [done| |done].
    split; [apply (unpinned_frame_size s a f p); [done|done|lia]|].
    unfold clear_victim. wp_steps. eapply get_page_wp; [exact Hp|].
    rewrite Hclean. wp_steps. rewrite bool_decide_false by (rewrite Hinvalid; tauto). wp_step. split; [|done].
    pose proof (pool_free_nodup _ _ Hinv) as Hnodup. rewrite Hfree in Hnodup. apply NoDup_cons in Hnodup as [Hnf Hnodup].
    eapply (rep_transit s _ a f p p); [done| |by left; split; [|congruence]].
    split; cbn; try done.
    { pose proof (frame_lt _ _ _ Hp). unfold frame in Hp. case_bool_decide; [|done].
      symmetry. by apply list_insert_id. }
    { by eapply pool_data. }
    { apply Hinv. }
    { by rewrite delete_id. }
    { intros g. rewrite Hfree, elem_of_cons. naive_solver. }
    { rewrite Hinvalid. rewrite delete_id; [done|]. apply eq_None_not_Some. intros [g Hg].
      destruct (pool_table _ _ Hinv _ _ Hg) as (? & _ & _ & ?). unfold INVALID_PAGE_ID in *. lia. }
    { apply Hinv. }
Qed.

Lemma touch_pool_wp {A} s f (m : M bpm A) (Q : A → bpm → Prop) :
  lru_inv (replacer_ s) → 0 ≤ f →
  (∀ r' h, lru_inv r' → entries_ r' = <[f := mkFrameEntry h false]> (entries_ (replacer_ s)) →
     wp m (set_replacer r' s) Q) →
  wp (on_replacer (RecordAccess f);; on_replacer (SetEvictable f false);; m) s Q.
Proof.
  intros Hinv Hf HQ. unfold on_replacer. do 2 wp_step.
  eapply wp_mono; [|intros ? r1 Hr1; do 2 wp_step; exact Hr1]. cbn beta.
  apply touch_wp; [done..|]. intros r' h ? ?. by eapply HQ.
Qed.

(** The end of [NewPage] and [FetchPage]: the frame in transit gets its page. *)
Lemma install_wp {A} s k a a' f id d u (res : A) :
  pool_rep (Some f) s a → page_table_ s !! id = None → 0 ≤ id < next_id k → page_ok d →
  disk_ok k → next_id (disk_manager_ s) ≤ next_id k ≤ INT32_MAX →
  (∀ j, stored k j = stored (disk_manager_ s) j) →
  (∀ j, j ≠ id → j ∈ u ↔ j ∈ ps_unsaved a) → id ∈ u ∨ stored k id = Some d →
  a' = mkPState (ps_cap a) (next_id k) (<[id := d]> (ps_pages a)) (<[id := (f, 1)]> (ps_pinned a)) u →
  wp (victim_page ← get_page f;
      put_page f (mkPage d id 1 false (rwlatch_ victim_page));;
      modify (set_page_table <[id := f]>);;
      on_replacer (RecordAccess f);;
      on_replacer (SetEvictable f false);;
          mret res) (set_disk k s) (fun v s' => v = res ∧ pool_rep None s' a').
Proof.
  intros Hrep Hnone Hid Hok Hdisk Hnext Hstored Hu1 Hu2 ->. pose proof (rep_inv _ _ _ Hrep) as Hinv.
  destruct (pool_transit _ _ Hinv f eq_refl) as (Hnf & Hne & [p Hp] & Hnt).
  wp_step. eapply get_page_wp; [exact Hp|]. unfold put_page. do 4 wp_step.
  apply touch_pool_wp; [apply Hinv|by pose proof (frame_lt _ _ _ Hp); lia|].
  intros r' h Hlru Hentries. wp_steps. split; [done|].
  eapply (rep_set (Some f) s _ a _ id f (mkPage d id 1 false (rwlatch_ p))); cbn; try done; try (by eexists).
  - by right.
  - intros j d' _. by rewrite Hstored.
  - intros ?. right. by destruct Hu2.
Qed.

Lemma rep_none_unresident s a id :
  pool_rep None s a → ps_pinned a !! id = None → ∀ f p,
  page_table_ s !! id = Some f → frame s f = Some p → pin_count_ p = 0.
Proof.
  intros Hrep Hn f p Ht Hp. destruct (table_used _ _ _ _ (rep_inv _ _ _ Hrep) Ht) as (q & Hq & _ & _ & _ & _ & ? & _).
  assert (q = p) as -> by congruence. destruct (decide (pin_count_ p = 0)); [done|]. exfalso.
  assert (ps_pinned a !! id = Some (f, pin_count_ p)); [|congruence].
  apply (rep_pinned _ _ _ Hrep). split_and!; [done|lia|eauto].
Qed.

(** What [clear_victim] keeps: the page table only shrinks. *)
Lemma clear_victim_table f s id :
  page_table_ s !! id = None → ∀ v s', clear_victim f s = (Ret v, s') → page_table_ s' !! id = None.
Proof.
  intros Hn v s'. unfold clear_victim, get_page, put_page, on_disk. m_unfold.
  destruct (frame s f) as [p|]; [|done]. cbn. destruct (is_dirty_ p); cbn.
  - destruct (disk_write _ _ _) as [[] k]; try done. cbn.
    case_bool_decide; intros [= _ <-]; cbn; [|done]. rewrite lookup_delete_None. by right.
  - case_bool_decide; intros [= _ <-]; cbn; [|done]. rewrite lookup_delete_None. by right.
Qed.

Lemma take_frame_table s o s' : take_frame s = (Ret o, s') → page_table_ s' = page_table_ s.
Proof.
  unfold take_frame, on_replacer. m_unfold. destruct (free_list_ s) as [|f l]; [|by intros [= _ <-]].
  destruct (Evict _) as [[] r]; by intros [= _ <-].
Qed.

(** A free frame for a page that is not in the table. *)
Lemma vacate_wp s a id :
  pool_rep None s a → (size (ps_pinned a) < ps_cap a)%nat → page_table_ s !! id = None →
  wp take_frame s (fun o s1 => ∃ f, o = Some f ∧
    wp (clear_victim f) s1 (fun _ s' => pool_rep (Some f) s' a ∧ page_table_ s' !! id = None)).
Proof.
  intros Hrep Hlt Hn. destruct (wp_elim _ _ _ (take_frame_wp _ _ Hrep)) as ([f|] & s1 & Ht & Hres).
  - destruct Hres as [_ (v & s' & Hc & Hrep' & _)%wp_elim].
    eapply wp_intro; [done|]. exists f. split; [done|]. eapply wp_intro; [done|]. split; [done|].
    eapply clear_victim_table; [|done]. by rewrite (take_frame_table _ _ _ Ht).
  - lia.
Qed.

Lemma take_frame_full s a :
  pool_rep None s a → size (ps_pinned a) = ps_cap a → take_frame s = (Ret None, s).
Proof.
  intros Hrep Hfull. destruct (wp_elim _ _ _ (take_frame_wp _ _ Hrep)) as ([f|] & s1 & Ht & Hres); [lia|].
  destruct Hres as [-> _]. done.
Qed.

Lemma NewPage_wp s a :
  pool_rep None s a → ps_next a < INT32_MAX → (size (ps_pinned a) < ps_cap a)%nat →
  wp NewPage s (fun o s' => ∃ f, o = Some (ps_next a, f) ∧ pool_rep None s' (spec_new zero_page f a)).
Proof.
  intros Hrep Hnext Hlt. pose proof (rep_next _ _ _ Hrep) as Hn. pose proof (pool_next _ _ (rep_inv _ _ _ Hrep)) as Hpos.
  unfold NewPage. wp_step. eapply wp_mono; [apply (vacate_wp s a (ps_next a)); [done|done|]|].
  { destruct (page_table_ s !! ps_next a) as [f|] eqn:Ht; [|done].
    destruct (pool_table _ _ (rep_inv _ _ _ Hrep) _ _ Ht) as (? & _ & _ & ?). lia. }
  intros o s1 (f & -> & Hclear). cbn beta iota. wp_step. eapply wp_mono; [exact Hclear|].
  intros _ s2 [Hrep2 Hnone]. unfold on_disk at 1. do 2 wp_step.
  pose proof (rep_next _ _ _ Hrep2) as Hn2. rewrite Hn2 in *. 
  eapply wp_mono; [apply disk_allocate_fresh; [apply Hrep2|lia]|].
  intros id k (-> & Hdisk & Hk & Hsto). eapply wp_mono.
  - eapply (install_wp s2 k a _ f _ zero_page ({[next_id (disk_manager_ s2)]} ∪ ps_unsaved a)); try done; try lia.
    + apply zero_page_ok.
    + set_solver.
    + left. set_solver.
  - intros v s' [-> Hrep']. exists f. split; [done|]. unfold spec_new. by rewrite Hn2, <-Hk.
Qed.

Lemma NewPage_full s a : pool_rep None s a → size (ps_pinned a) = ps_cap a → NewPage s = (Ret None, s).
Proof. intros Hrep Hfull. unfold NewPage, mbind, M_bind. by rewrite (take_frame_full _ _ Hrep Hfull). Qed.

Lemma FetchPage_hit s a id f p :
  pool_rep None s a → page_table_ s !! id = Some f → frame s f = Some p →
  wp (FetchPage id) s (fun o s' => o = Some f ∧ pool_rep None s' (spec_pin id f (pin_count_ p + 1) a)).
Proof.
  intros Hrep Ht Hp. pose proof (rep_inv _ _ _ Hrep) as Hinv.
  destruct (table_used _ _ _ _ Hinv Ht) as (q & Hq & Hid & _ & _ & ? & Hpos & _).
  assert (q = p) as -> by congruence. destruct (rep_resident _ _ _ Hrep _ _ _ Ht Hp) as [Hd Hclean].
  unfold FetchPage. do 2 wp_step. rewrite Ht. wp_step. eapply get_page_wp; [exact Hp|]. unfold put_page. do 2 wp_step.
  apply touch_pool_wp; [apply Hinv|by pose proof (frame_lt _ _ _ Hp); lia|].
  intros r' h Hlru Hentries. wp_step. split; [done|].
  eapply (rep_set None s _ a _ id f (set_pin_count (pin_count_ p + 1) p)); cbn; try done; try lia; try (by eexists).
  - by left.
  - by eapply (pool_data _ _ Hinv).
  - by rewrite insert_id.
  - rewrite bool_decide_false by lia. eauto.
  - apply Hinv.
  - split; [done|]. apply Hinv.
  - apply Hrep.
  - by rewrite insert_id.
  - by rewrite bool_decide_false by lia.
Qed.

Lemma FetchPage_wp s a id d :
  pool_rep None s a → ps_pages a !! id = Some d → ps_pinned a !! id = None →
  (size (ps_pinned a) < ps_cap a)%nat →
  wp (FetchPage id) s (fun o s' => ∃ f, o = Some f ∧ pool_rep None s' (spec_pin id f 1 a)).
Proof.
  intros Hrep Hd Hunp Hlt. pose proof (rep_inv _ _ _ Hrep) as Hinv.
  destruct (page_table_ s !! id) as [f|] eqn:Ht.
  { destruct (table_used _ _ _ _ Hinv Ht) as (p & Hp & _).
    eapply wp_mono; [by eapply FetchPage_hit|]. intros o s' [-> Hrep'].
    rewrite (rep_none_unresident _ _ _ Hrep Hunp _ _ Ht Hp) in Hrep'. eauto. }
  unfold FetchPage. do 2 wp_step. rewrite Ht. wp_step.
  eapply wp_mono; [by apply (vacate_wp s a id)|].
  intros o s1 (f & -> & Hclear). cbn beta iota. wp_step. eapply wp_mono; [exact Hclear|].
  intros _ s2 [Hrep2 Hnone]. unfold on_disk at 1. do 2 wp_step.
  pose proof (rep_stored _ _ _ Hrep2 _ _ Hnone Hd) as Hsto.
  pose proof (pool_next _ _ (rep_inv _ _ _ Hrep2)). pose proof (rep_next _ _ _ Hrep2) as Hn2.
  pose proof (rep_bound _ _ _ Hrep2 _ _ Hd).
  eapply wp_mono; [apply disk_read_stored; [apply Hrep2|exact Hsto]|].
  intros v k [-> ->]. eapply wp_mono.
  - eapply (install_wp s2 (disk_manager_ s2) a _ f id d (ps_unsaved a)); try done; try lia.
    + by eapply stored_ok.
    + apply Hrep2.
    + by right.
  - intros v s' [-> Hrep']. exists f. split; [done|]. unfold spec_pin.
    by rewrite insert_id, <-Hn2 in Hrep' by done.
Qed.

Lemma FetchPage_full s a id :
  pool_rep None s a → ps_pinned a !! id = None → size (ps_pinned a) = ps_cap a → FetchPage id s = (Ret None, s).
Proof.
  intros Hrep Hunp Hfull. unfold FetchPage, mbind, M_bind, gets.
  destruct (page_table_ s !! id) as [f|] eqn:Ht; [|by rewrite (take_frame_full _ _ Hrep Hfull)].
  destruct (table_used _ _ _ _ (rep_inv _ _ _ Hrep) Ht) as (p & Hp & _).
  pose proof (rep_none_unresident _ _ _ Hrep Hunp _ _ Ht Hp) as Hz.
  pose proof (unpinned_frame_size _ _ _ _ Hrep Hp). lia.
Qed.

Lemma rep_pinned_page s a id f c :
  pool_rep None s a → ps_pinned a !! id = Some (f, c) →
  page_table_ s !! id = Some f ∧ 0 < c ∧ ∃ p, frame s f = Some p ∧ pin_count_ p = c ∧ page_id_ p = id ∧
    ∃ e, entries_ (replacer_ s) !! f = Some e ∧ is_evictable_ e = false.
Proof.
  intros Hrep (Ht & Hc & p & Hp & <-)%(rep_pinned _ _ _ Hrep). split_and!; [done|done|].
  exists p. destruct (table_used _ _ _ _ (rep_inv _ _ _ Hrep) Ht) as (q & Hq & Hid & _ & _ & _ & _ & e & He & Hev).
  assert (q = p) as -> by congruence. split_and!; [done..|]. exists e. split; [done|].
  by rewrite bool_decide_false in Hev by lia.
Qed.

Lemma FetchPage_pinned s a id f c :
  pool_rep None s a → ps_pinned a !! id = Some (f, c) →
  wp (FetchPage id) s (fun o s' => o = Some f ∧ pool_rep None s' (spec_pin id f (c + 1) a)).
Proof. intros Hrep (Ht & Hc & p & Hp & <-)%(rep_pinned _ _ _ Hrep). by apply FetchPage_hit. Qed.

Lemma rep_pinned_data s a id f c :
  pool_rep None s a → ps_pinned a !! id = Some (f, c) → 0 < c ∧ is_Some (ps_pages a !! id).
Proof.
  intros Hrep Hpin. destruct (rep_pinned_page _ _ _ _ _ Hrep Hpin) as (Ht & Hc & p & Hp & _).
  split; [done|]. destruct (rep_resident _ _ _ Hrep _ _ _ Ht Hp) as [Hd' _]. by eexists.
Qed.

Lemma UnpinPage_wp s a id f c dirty :
  pool_rep None s a → ps_pinned a !! id = Some (f, c) → dirty = true ∨ 1 < c ∨ id ∉ ps_unsaved a →
  wp (UnpinPage id dirty) s (fun b s' => b = true ∧ pool_rep None s' (spec_unpin id f c dirty a)).
Proof.
  intros Hrep Hpin Hsafe. pose proof (rep_inv _ _ _ Hrep) as Hinv.
  destruct (rep_pinned_page _ _ _ _ _ Hrep Hpin) as (Ht & Hc & p & Hp & <- & Hid & e & He & Hev).
  destruct (rep_resident _ _ _ Hrep _ _ _ Ht Hp) as [Hd Hclean].
  destruct (pool_table _ _ Hinv _ _ Ht) as (_ & _ & _ & Hrange).
  unfold UnpinPage. do 2 wp_step. rewrite Ht. wp_step. eapply get_page_wp; [exact Hp|].
  rewrite bool_decide_false by lia. cbn zeta. unfold put_page. do 3 wp_step.
  set (p' := set_pin_count (pin_count_ (if dirty then set_dirty true p else p) - 1) (if dirty then set_dirty true p else p)).
  assert (pin_count_ p' = pin_count_ p - 1 ∧ page_id_ p' = id ∧ data_ p' = data_ p ∧
          is_dirty_ p' = dirty || is_dirty_ p) as (Epin & Eid & Edata & Edirty) by (by destruct dirty).
  clearbody p'. eapply (wp_mono _ _ (fun _ s' => pool_rep None s' (spec_unpin id f (pin_count_ p) dirty a))); [|intros ???; by wp_step].
  assert (∀ r', lru_inv r' → (∃ h, entries_ r' = <[f:=mkFrameEntry h (bool_decide (pin_count_ p' = 0))]> (entries_ (replacer_ s))) →
    pool_rep None (set_replacer r' (set_pages (<[Z.to_nat f:=p']> (pages_ s)) s)) (spec_unpin id f (pin_count_ p) dirty a)) as Hset.
  { intros r' Hlru Hent. eapply (rep_set None s _ a _ id f p'); cbn; try done; try lia.
    - by left.
    - rewrite Edata. by eapply (pool_data _ _ Hinv).
    - by rewrite insert_id.
    - apply Hinv.
    - split; [done|]. apply Hinv.
    - apply Hrep.
    - rewrite insert_id; congruence.
    - rewrite Epin. repeat case_bool_decide; (done || lia).
    - intros j Hj. destruct dirty; set_solver.
    - destruct dirty; [set_solver|]. intros Hu. destruct Hsafe as [|[]]; done || lia.
    - destruct dirty; [by left|]. rewrite Edirty, Edata. intros Hu. by apply Hclean. }
  case_bool_decide as Hz.
  - unfold on_replacer. wp_step. eapply wp_mono; [eapply SetEvictable_wp; [apply Hinv|exact He]|].
    intros _ r' [Hlru Hent]. apply Hset; [done|]. by eexists.
  - wp_step. specialize (Hset (replacer_ s)). apply Hset; [apply Hinv|].
    exists (history_ e). rewrite insert_id; [done|]. rewrite He. destruct e; cbn in *. congruence.
Qed.

Lemma UnpinPage_unpinned s a id dirty :
  pool_rep None s a → ps_pinned a !! id = None → UnpinPage id dirty s = (Ret false, s).
Proof.
  intros Hrep Hunp. unfold UnpinPage, mbind, M_bind, gets.
  destruct (page_table_ s !! id) as [f|] eqn:Ht; [|done].
  destruct (table_used _ _ _ _ (rep_inv _ _ _ Hrep) Ht) as (p & Hp & _).
  unfold get_page. rewrite Hp. cbn.
  by rewrite (rep_none_unresident _ _ _ Hrep Hunp _ _ Ht Hp).
Qed.

Lemma rep_pinned_none s a f p :
  pool_rep None s a → page_table_ s !! page_id_ p = Some f → frame s f = Some p →
  ps_pinned a !! page_id_ p = if bool_decide (pin_count_ p = 0) then None else Some (f, pin_count_ p).
Proof.
  intros Hrep Ht Hp. destruct (table_used _ _ _ _ (rep_inv _ _ _ Hrep) Ht) as (q & Hq & _ & _ & _ & _ & Hpos & _).
  assert (q = p) as -> by congruence. case_bool_decide.
  - apply eq_None_not_Some. intros [[g c] (? & ? & r & ? & ?)%(rep_pinned _ _ _ Hrep)].
    assert (g = f) as -> by congruence. assert (r = p) as -> by congruence. lia.
  - apply (rep_pinned _ _ _ Hrep). split_and!; [done|lia|eauto].
Qed.

Lemma rep_disk x s k a :
  pool_rep x s a → disk_ok k → next_id k = next_id (disk_manager_ s) →
  (∀ j, stored k j = stored (disk_manager_ s) j) → pool_rep x (set_disk k s) a.
Proof.
  intros [Hinv Hcap Hnext Hpin Hres Hsto Huns Hbound] Hok Hn Hk.
  split; cbn; try done; [|congruence|setoid_rewrite Hk; done..].
  destruct Hinv. split; cbn; rewrite ?Hn; try done.
  intros f p Hf Hx. destruct (pool_frame0 f p Hf Hx) as [|Hu]; [by left|right].
  unfold used_frame in *. cbn. by rewrite Hn.
Qed.

Lemma rep_free s a f q :
  pool_rep (Some f) s a → frame s f = Some q →
  page_id_ q = INVALID_PAGE_ID → pin_count_ q = 0 → is_dirty_ q = false →
  pool_rep None (set_free_list (free_list_ s ++ [f]) s) a.
Proof.
  intros [Hinv Hcap Hnext Hpin Hres Hsto Huns Hbound] Hf Hid Hp Hd.
  destruct (pool_transit _ _ Hinv f eq_refl) as (Hnf & Hent & Hsome & Htab).
  split; try done. destruct Hinv as [Hl Hr Hdk Hn Hnd Hfr Ht He Hda Hfm Htr]. split; cbn; try done.
  - apply NoDup_app. split_and!; [done|set_solver|apply NoDup_singleton].
  - intros g [?|Hg]%elem_of_app; [by apply Hfr|]. apply list_elem_of_singleton in Hg as ->. done.
  - intros g r Hg _. destruct (decide (g = f)) as [->|Hne].
    + left. assert (r = q) as -> by (unfold frame in *; cbn in *; congruence).
      split_and!; try done. cbn. set_solver.
    + destruct (Hfm g r Hg) as [(?&?)|(?&?)]; [congruence|left|right].
      * split; [cbn; set_solver|done].
      * split; [cbn; set_solver|done].
Qed.

Lemma DeletePage_wp s a id :
  pool_rep None s a → ps_pinned a !! id = None →
  wp (DeletePage id) s (fun b s' => b = true ∧ pool_rep None s' (spec_delete id a)).
Proof.
  intros Hrep Hunp. pose proof (rep_inv _ _ _ Hrep) as Hinv. unfold DeletePage. do 2 wp_step.
  destruct (page_table_ s !! id) as [f|] eqn:Ht.
  - destruct (table_used _ _ _ _ Hinv Ht) as (p & Hp & Hid & _ & _ & _ & _ & e & He & Hev).
    pose proof (rep_none_unresident _ _ _ Hrep Hunp _ _ Ht Hp) as Hz. rewrite bool_decide_true in Hev by done.
    wp_step. eapply get_page_wp; [exact Hp|]. rewrite bool_decide_false by lia. unfold on_replacer. do 4 wp_step.
    eapply wp_mono; [eapply Remove_inv; [apply Hinv|exact He|exact Hev]|].
    intros _ r' [Hlru ->]. unfold put_page, on_disk. do 6 wp_step.
    set (q := mkPage zero_page INVALID_PAGE_ID 0 false (rwlatch_ p)).
    assert (vacated s (set_pages (<[Z.to_nat f:=q]> (pages_ s))
      (set_replacer (set_curr_size pred (set_entries (delete f) (replacer_ s))) (set_page_table (delete id) s))) f p q) as Hv.
    { pose proof (table_used _ _ _ _ Hinv Ht) as (p2 & Hp2 & _ & Hnf & _).
      split; cbn; try done; [by apply zero_page_ok|apply Hinv|set_solver|by rewrite Hid|apply Hinv]. }
    eapply rep_transit in Hv as Hrep'; [|done|right; by rewrite Hid].
    eapply rep_free in Hrep' as Hfree; [|by erewrite vacated_frame, decide_True|done..].
    eapply wp_mono; [apply disk_deallocate_noop, Hinv|]. intros _ k (Hk & Hn & Hs). wp_step. split; [done|].
    by apply (rep_disk _ _ k) in Hfree.
  - wp_step. split; [done|]. destruct Hrep as [_ Hcap Hnext Hpin Hres Hsto Huns Hbound].
    split; cbn; try done.
    + intros j g p Hj Hg. rewrite lookup_delete_ne by congruence. eauto.
    + intros j d Hj [_ Hd]%lookup_delete_Some. eauto.
    + intros j d [_ Hd]%lookup_delete_Some. eauto.
Qed.

Lemma DeletePage_pinned s a id :
  pool_rep None s a → is_Some (ps_pinned a !! id) → DeletePage id s = (Ret false, s).
Proof.
  intros Hrep [[f c] Hpin]. destruct (rep_pinned_page _ _ _ _ _ Hrep Hpin) as (Ht & Hc & p & Hp & <- & _).
  unfold DeletePage, mbind, M_bind, gets, get_page. rewrite Ht, Hp. cbn. by rewrite bool_decide_true.
Qed.

Lemma GetData_spec s a id f c d :
  pool_rep None s a → ps_pinned a !! id = Some (f, c) → ps_pages a !! id = Some d → GetData f s = (Ret d, s).
Proof.
  intros Hrep Hpin Hd. destruct (rep_pinned_page _ _ _ _ _ Hrep Hpin) as (Ht & Hc & p & Hp & <- & _).
  unfold GetData, mbind, M_bind, get_page. rewrite Hp. cbn.
  destruct (rep_resident _ _ _ Hrep _ _ _ Ht Hp) as [Hd' _]. unfold mret, M_ret. congruence.
Qed.

Lemma entries_same s f p e :
  entries_ (replacer_ s) !! f = Some e → is_evictable_ e = bool_decide (pin_count_ p = 0) →
  entries_ (replacer_ s) = <[f := mkFrameEntry (history_ e) (bool_decide (pin_count_ p = 0))]> (entries_ (replacer_ s)).
Proof. intros He <-. rewrite insert_id; [done|]. rewrite He. by destruct e. Qed.

Lemma WriteData_wp s a id f c d :
  pool_rep None s a → ps_pinned a !! id = Some (f, c) → page_ok d →
  wp (WriteData f d) s (fun _ s' => pool_rep None s' (spec_write id d a)).
Proof.
  intros Hrep Hpin Hd. pose proof (rep_inv _ _ _ Hrep) as Hinv.
  destruct (rep_pinned_page _ _ _ _ _ Hrep Hpin) as (Ht & Hc & p & Hp & <- & Hid & e & He & Hev).
  destruct (table_used _ _ _ _ Hinv Ht) as (p2 & Hp2 & Hid2 & _ & _ & Hrange & _).
  assert (p2 = p) as -> by congruence.
  unfold WriteData. wp_step. eapply get_page_wp; [exact Hp|]. unfold put_page. wp_step.
  set (p' := mkPage _ _ _ _ _).
  eapply (rep_set None s _ a _ id f p'); cbn; try done; try lia; try (by eexists).
  - by left.
  - by rewrite insert_id.
  - apply Hinv.
  - exists (history_ e). apply (entries_same s f p); [done|]. by rewrite bool_decide_false by lia.
  - apply Hinv.
  - split; [done|]. apply Hinv.
  - apply Hrep.
  - rewrite bool_decide_false by lia. by rewrite insert_id.
  - set_solver.
  - intros Hu. set_solver.
Qed.

Lemma flush_step s a id f p k :
  pool_rep None s a → page_table_ s !! id = Some f → frame s f = Some p →
  disk_ok k → next_id k = next_id (disk_manager_ s) → stored k id = Some (data_ p) →
  (∀ j d, j ≠ id → stored (disk_manager_ s) j = Some d → stored k j = Some d) →
  pool_rep None (set_pages (<[Z.to_nat f := set_dirty false p]> (pages_ s)) (set_disk k s)) a.
Proof.
  intros Hrep Ht Hp Hk Hn Hsid Hsto. pose proof (rep_inv _ _ _ Hrep) as Hinv.
  destruct (table_used _ _ _ _ Hinv Ht) as (p2 & Hp2 & Hid & Hnf & Ht' & Hrange & Hpos & e & He & Hev).
  assert (p2 = p) as -> by congruence. destruct (rep_resident _ _ _ Hrep _ _ _ Ht Hp) as [Hd Hclean]. subst id.
  pose proof (rep_pinned_none _ _ _ _ Hrep Ht Hp) as Hpn.
  eapply (rep_set None s _ a _ (page_id_ p) f (set_dirty false p)); cbn; try done; try lia; try (by eexists).
  - by left.
  - by eapply (pool_data _ _ Hinv).
  - by rewrite insert_id.
  - apply Hinv.
  - exists (history_ e). by apply entries_same.
  - rewrite Hn. split; [done|]. apply Hinv.
  - rewrite Hn. apply Hrep.
  - by rewrite insert_id.
  - case_bool_decide; [by rewrite delete_id|by rewrite insert_id].
  - intros [[g c] (Hg & Hc & r & Hr & Hrc)%(rep_pinned _ _ _ Hrep)]%(rep_unsaved _ _ _ Hrep).
    assert (g = f) as -> by congruence. assert (r = p) as -> by congruence. lia.
  - intros _. by right.
Qed.

(** The two lines shared by [FlushPage] and [FlushAllPages]. *)
Lemma flush_frame_wp {A} s a id f (m : M bpm A) (Q : A → bpm → Prop) :
  pool_rep None s a → page_table_ s !! id = Some f →
  (∀ s' d, pool_rep None s' a → page_table_ s' = page_table_ s →
     ps_pages a !! id = Some d → stored (disk_manager_ s') id = Some d →
     (∀ j d', j ≠ id → stored (disk_manager_ s) j = Some d' → stored (disk_manager_ s') j = Some d') → wp m s' Q) →
  wp (page ← get_page f; on_disk (disk_write id (data_ page));; put_page f (set_dirty false page);; m) s Q.
Proof.
  intros Hrep Ht HQ. pose proof (rep_inv _ _ _ Hrep) as Hinv.
  destruct (pool_table _ _ Hinv _ _ Ht) as (p & Hp & Hid & Hrange).
  destruct (rep_resident _ _ _ Hrep _ _ _ Ht Hp) as [Hd _].
  wp_step. eapply get_page_wp; [exact Hp|]. unfold on_disk, put_page. do 2 wp_step.
  eapply wp_mono.
  { apply disk_write_stored; [apply Hinv| |by eapply pool_data]. pose proof (pool_next _ _ Hinv). lia. }
  intros _ k (Hk & Hn & Hsid & Hother). do 2 wp_step. apply (HQ _ (data_ p)); [by apply (flush_step s a id f p k)|done..].
Qed.

Lemma FlushPage_wp s a id f :
  pool_rep None s a → page_table_ s !! id = Some f →
  wp (FlushPage id) s (fun b s' => b = true ∧ pool_rep None s' a ∧
    ∃ d, ps_pages a !! id = Some d ∧ stored (disk_manager_ s') id = Some d).
Proof.
  intros Hrep Ht. unfold FlushPage. do 2 wp_step. rewrite Ht.
  eapply flush_frame_wp; [done..|]. intros s' d Hrep' _ Hd Hs _. wp_step. eauto.
Qed.

Lemma flush_loop_wp l : ∀ s a (Q : unit → bpm → Prop),
  pool_rep None s a → (∀ id f, (id, f) ∈ l → page_table_ s !! id = Some f) → NoDup l.*1 →
  (∀ s', pool_rep None s' a → page_table_ s' = page_table_ s →
     (∀ id d, id ∈ l.*1 → ps_pages a !! id = Some d → stored (disk_manager_ s') id = Some d) →
     (∀ j d, j ∉ l.*1 → stored (disk_manager_ s) j = Some d → stored (disk_manager_ s') j = Some d) →
     Q tt s') →
  wp (flush_loop l) s Q.
Proof.
  induction l as [|[id f] l IH]; intros s a Q Hrep Hl Hnd HQ; cbn [flush_loop].
  { wp_step. apply HQ; [done|done|set_solver|done]. }
  cbn in Hnd. apply NoDup_cons in Hnd as [Hid Hnd].
  apply (flush_frame_wp s a); [done|apply Hl; by left|]. intros s1 d1 Hrep1 Ht1 Hd1 Hs1 Hother1.
  apply (IH s1 a); [done| |done|].
  { intros j g Hj. rewrite Ht1. apply Hl. by right. }
  intros s' Hrep' Ht' Hin' Hout'. apply HQ; [done|congruence| |].
  - intros j d. cbn. intros [->|Hj]%elem_of_cons Hd; [|by apply Hin'].
    apply Hout'; [done|]. congruence.
  - intros j d. cbn. rewrite not_elem_of_cons. intros [??] Hd. eauto.
Qed.

Lemma FlushAllPages_wp s a :
  pool_rep None s a →
  wp FlushAllPages s (fun _ s' => pool_rep None s' a ∧ page_table_ s' = page_table_ s ∧
    ∀ id d, ps_pages a !! id = Some d → stored (disk_manager_ s') id = Some d).
Proof.
  intros Hrep. unfold FlushAllPages. do 2 wp_step.
  assert (∀ id f, (id, f) ∈ iter_order (page_table_ s) ↔ page_table_ s !! id = Some f) as Hl.
  { intros id f. rewrite (iter_order_perm (page_table_ s)). apply elem_of_map_to_list. }
  apply (flush_loop_wp _ s a); [done|by intros id f ?%Hl| |].
  { rewrite (iter_order_perm (page_table_ s)). apply NoDup_fst_map_to_list. }
  intros s' Hrep' Ht Hin Hout. split_and!; [done|done|]. intros id d Hd.
  destruct (page_table_ s !! id) as [f|] eqn:Hf.
  - apply Hin; [|done]. apply list_elem_of_fmap. exists (id, f). split; [done|]. by apply Hl.
  - apply Hout; [|by eapply rep_stored]. intros ([j g] & -> & Hj%Hl)%list_elem_of_fmap. cbn in Hf. congruence.
Qed.

(** ** The initial state *)
Lemma BufferPoolManager_new_stored n k lru_k (pages : gmap Z D) :
  disk_ok k → 0 ≤ next_id k ≤ INT32_MAX → (0 < lru_k)%nat →
  (∀ id d, pages !! id = Some d → 0 ≤ id < next_id k ∧ stored k id = Some d) →
  pool_rep None (BufferPoolManager_new n k lru_k) (mkPState n (next_id k) pages ∅ ∅).
Proof.
  intros Hk Hn Hlru Hpages.
  assert (∀ f, f ∈ Z.of_nat <$> seq 0 n ↔ frame (BufferPoolManager_new n k lru_k) f = Some (new_page (D:=D))) as Hf.
  { intros f. unfold frame. cbn. rewrite list_elem_of_fmap. split.
    - intros (i & -> & Hi%elem_of_seq). rewrite bool_decide_true, Nat2Z.id by lia. apply lookup_replicate. split; [done|lia].
    - case_bool_decide; [|done]. intros [_ Hi]%lookup_replicate. exists (Z.to_nat f). rewrite elem_of_seq. lia. }
  assert (∀ f p, frame (BufferPoolManager_new n k lru_k) f = Some p → p = new_page) as Hp.
  { intros f p. unfold frame. case_bool_decide; [|done]. by intros [-> _]%lookup_replicate. }
  split; [|done|done|..].
  - split; try done.
    + cbn. by rewrite length_replicate.
    + apply NoDup_fmap; [apply _|]. apply NoDup_seq.
    + intros f ->%Hf. by eexists.
    + by intros f [e He].
    + intros f p ->%Hp. apply zero_page_ok.
    + intros f p Hfp _. left. rewrite (Hp _ _ Hfp) in Hfp |- *. split_and!; try done. by apply Hf.
  - cbn. intros id f c. split; [by intros ?|by intros (? & _)].
  - by intros id f p ?.
  - intros id d _ Hd. by apply Hpages.
  - cbn. set_solver.
  - intros id d Hd. by eapply Hpages.
Qed.

Lemma BufferPoolManager_new_rep n k lru_k :
  disk_ok k → 0 ≤ next_id k ≤ INT32_MAX → (0 < lru_k)%nat →
  pool_rep None (BufferPoolManager_new n k lru_k) (mkPState n (next_id k) ∅ ∅ ∅).
Proof. intros. by apply BufferPoolManager_new_stored. Qed.
End spec.

(** ** The pool as a page store *)
#[export] Instance pool_store {K D} `{Disk K D} `{IterOrder} : PageStore (BufferPoolManager K D) D := {
  ps_new_page := NewPage;
  ps_fetch_page := FetchPage;
  ps_unpin_page := UnpinPage;
  ps_delete_page := DeletePage;
  ps_get_data := GetData;
  ps_set_data := WriteData;
  ps_zero := zero_page;
}.

#[export, refine] Instance pool_store_spec {K D} `{DiskSpec K D} `{IterOrder} : PageStoreSpec (BufferPoolManager K D) D := {
  ps_ok := page_ok;
  ps_rep := pool_rep None;
}.
Proof.
  - apply zero_page_ok.
  - intros s a id d Hrep Hd. split; [by eapply rep_bound|].
    destruct (page_table_ s !! id) as [f|] eqn:Ht.
    + destruct (pool_table _ _ (rep_inv _ _ _ Hrep) _ _ Ht) as (p & Hp & _).
      destruct (rep_resident _ _ _ Hrep _ _ _ Ht Hp) as [Hd' _].
      assert (d = data_ p) as -> by congruence. by eapply (pool_data _ _ (rep_inv _ _ _ Hrep)).
    + by eapply stored_ok, rep_stored.
  - apply rep_pinned_data.
  - intros s a id Hrep. by apply (rep_unsaved _ _ _ Hrep).
  - apply NewPage_wp.
  - apply NewPage_full.
  - apply FetchPage_pinned.
  - apply FetchPage_wp.
  - apply FetchPage_full.
  - apply UnpinPage_wp.
  - apply UnpinPage_unpinned.
  - apply DeletePage_wp.
  - apply DeletePage_pinned.
  - apply GetData_spec.
  - apply WriteData_wp.
Defined.

(** ** Sequences of calls

    The public interface as one step: what a client may call in specification
    state [a], and what it gets. *)
Inductive call (D : Type) :=
  | CNewPage
  | CFetchPage (id : Z)
  | CUnpinPage (id : Z) (dirty : bool)
  | CDeletePage (id : Z)
  | CFlushPage (id : Z)
  | CFlushAllPages
  | CGetData (f : Z)
  | CWriteData (f : Z) (d : D).
Arguments CNewPage {D}.
Arguments CFetchPage {D}.
Arguments CUnpinPage {D}.
Arguments CDeletePage {D}.
Arguments CFlushPage {D}.
Arguments CFlushAllPages {D}.
Arguments CGetData {D}.
Arguments CWriteData {D}.

Inductive result (D : Type) :=
  | RUnit
  | RBool (b : bool)
  | RPage (p : option (Z * Z))
  | RData (d : D).
Arguments RUnit {D}.
Arguments RBool {D}.
Arguments RPage {D}.
Arguments RData {D}.

Section calls.
Context {K D : Type} `{DiskSpec K D} `{IterOrder}.
Abbreviation bpm := (BufferPoolManager K D).
Implicit Types (s : bpm) (a : pstate D).

Definition run_call (c : call D) : M bpm (result D) :=
  match c with
  | CNewPage => o ← NewPage; mret (RPage o)
  | CFetchPage id => o ← FetchPage id; mret (RPage ((fun f => (id, f)) <$> o))
  | CUnpinPage id dirty => b ← UnpinPage id dirty; mret (RBool b)
  | CDeletePage id => b ← DeletePage id; mret (RBool b)
  | CFlushPage id => b ← FlushPage id; mret (RBool b)
  | CFlushAllPages => FlushAllPages;; mret RUnit
  | CGetData f => d ← GetData f; mret (RData d)
  | CWriteData f d => WriteData f d;; mret RUnit
  end.

(** What the client has to respect: a page is fetched only when it is live, the
    data is used only through pinned frames, and a page that was changed is
    reported dirty by the unpin that ends its last pin. *)
Inductive spec_call a : call D → result D → pstate D → Prop :=
  | SNewPage f : ps_next a < INT32_MAX → (size (ps_pinned a) < ps_cap a)%nat →
      spec_call a CNewPage (RPage (Some (ps_next a, f))) (spec_new zero_page f a)
  | SNewPage_full : size (ps_pinned a) = ps_cap a → spec_call a CNewPage (RPage None) a
  | SFetchPage_pinned id f c : ps_pinned a !! id = Some (f, c) →
      spec_call a (CFetchPage id) (RPage (Some (id, f))) (spec_pin id f (c + 1) a)
  | SFetchPage id f : ps_pinned a !! id = None → (size (ps_pinned a) < ps_cap a)%nat →
      spec_call a (CFetchPage id) (RPage (Some (id, f))) (spec_pin id f 1 a)
  | SFetchPage_full id : ps_pinned a !! id = None → size (ps_pinned a) = ps_cap a →
      spec_call a (CFetchPage id) (RPage None) a
  | SUnpinPage id f c dirty : ps_pinned a !! id = Some (f, c) →
      spec_call a (CUnpinPage id dirty) (RBool true) (spec_unpin id f c dirty a)
  | SUnpinPage_unpinned id dirty : ps_pinned a !! id = None →
      spec_call a (CUnpinPage id dirty) (RBool false) a
  | SDeletePage id : ps_pinned a !! id = None →
      spec_call a (CDeletePage id) (RBool true) (spec_delete id a)
  | SDeletePage_pinned id : is_Some (ps_pinned a !! id) →
      spec_call a (CDeletePage id) (RBool false) a
  | SFlushPage id b : (is_Some (ps_pinned a !! id) → b = true) → spec_call a (CFlushPage id) (RBool b) a
  | SFlushAllPages : spec_call a CFlushAllPages RUnit a
  | SGetData id f c d : ps_pinned a !! id = Some (f, c) → ps_pages a !! id = Some d →
      spec_call a (CGetData f) (RData d) a
  | SWriteData id f c d : ps_pinned a !! id = Some (f, c) →
      spec_call a (CWriteData f d) RUnit (spec_write id d a).

Definition allowed a (c : call D) : Prop :=
  match c with
  | CNewPage => ps_next a < INT32_MAX
  | CFetchPage id => is_Some (ps_pages a !! id)
  | CUnpinPage id dirty => ∀ f c, ps_pinned a !! id = Some (f, c) → dirty = true ∨ 1 < c ∨ id ∉ ps_unsaved a
  | CGetData f => ∃ id c, ps_pinned a !! id = Some (f, c)
  | CWriteData f d => page_ok d ∧ ∃ id c, ps_pinned a !! id = Some (f, c)
  | _ => True
  end.

Lemma pinned_bound s a : pool_rep None s a → (size (ps_pinned a) ≤ ps_cap a)%nat.
Proof.
  intros Hrep. destruct (wp_elim _ _ _ (take_frame_wp _ _ Hrep)) as ([f|] & s1 & _ & Hres); [lia|].
  destruct Hres; lia.
Qed.

Lemma room_or_full s a :
  pool_rep None s a → (size (ps_pinned a) < ps_cap a)%nat ∨ size (ps_pinned a) = ps_cap a.
Proof. intros Hrep. pose proof (pinned_bound _ _ Hrep). lia. Qed.

Lemma call_intro {A} (m : M bpm A) (k : A → result D) s (P : A → bpm → Prop) (Q : result D → bpm → Prop) :
  wp m s P → (∀ x s', P x s' → Q (k x) s') → ∃ r s', (x ← m; mret (k x)) s = (Ret r, s') ∧ Q r s'.
Proof. intros Hm HQ. apply wp_elim. wp_step. eapply wp_mono; [exact Hm|]. intros x s' HP. wp_step. by apply HQ. Qed.

Lemma ret_wp {A} (m : M bpm A) s r : m s = (Ret r, s) → wp m s (fun x s' => x = r ∧ s' = s).
Proof. intros Hm. by eapply wp_intro. Qed.

(** C1: the buffer pool refines a memory of pages.  From related states every
    call that the client may make returns normally, with a result and a next
    state that the specification allows, whatever frame is chosen or evicted
    and in whatever order hash maps are walked. *)
Theorem pool_simulates s a c :
  pool_rep None s a → allowed a c →
  ∃ r s', run_call c s = (Ret r, s') ∧ ∃ a', spec_call a c r a' ∧ pool_rep None s' a'.
Proof.
  intros Hrep Hc. pose proof (room_or_full _ _ Hrep) as Hroom.
  destruct c as [|id|id dirty|id|id| |f|f d]; cbn [run_call].
  - destruct Hroom; eapply call_intro; [by apply NewPage_wp| |by apply ret_wp, (NewPage_full s a)|].
    + intros o s' (f & -> & Hrep'). eexists. split; [by constructor|done].
    + intros o s' [-> ->]. eexists. split; [by constructor|done].
  - destruct Hc as [d Hd]. destruct (ps_pinned a !! id) as [[f n]|] eqn:Hpin; [|destruct Hroom].
    + eapply call_intro; [by apply FetchPage_pinned|]. intros o s' [-> Hrep']. eexists. split; [by econstructor|done].
    + eapply call_intro; [by apply (FetchPage_wp s a id d)|].
      intros o s' (f & -> & Hrep'). eexists. split; [by constructor|done].
    + eapply call_intro; [by apply ret_wp, (FetchPage_full s a)|]. intros o s' [-> ->]. eexists. split; [by constructor|done].
  - destruct (ps_pinned a !! id) as [[f n]|] eqn:Hpin; eapply call_intro;
      [by eapply UnpinPage_wp, Hc| |by apply ret_wp, (UnpinPage_unpinned s a)|].
    + intros b s' [-> Hrep']. eexists. split; [by econstructor|done].
    + intros b s' [-> ->]. eexists. split; [by constructor|done].
  - destruct (ps_pinned a !! id) as [[f n]|] eqn:Hpin; eapply call_intro;
      [by eapply ret_wp, (DeletePage_pinned s a)| |by apply (DeletePage_wp s a)|].
    + intros b s' [-> ->]. eexists. split; [by constructor|done].
    + intros b s' [-> Hrep']. eexists. split; [by constructor|done].
  - destruct (page_table_ s !! id) as [f|] eqn:Ht; eapply call_intro;
      [by eapply FlushPage_wp| |apply ret_wp; by unfold FlushPage, mbind, M_bind, gets; rewrite Ht|].
    + intros b s' (-> & Hrep' & _). eexists. split; [by constructor|done].
    + intros b s' [-> ->]. eexists. split; [|done]. constructor.
      intros [[f c] (Ht' & _)%(rep_pinned _ _ _ Hrep)]. congruence.
  - eapply call_intro; [by apply FlushAllPages_wp|]. intros b s' (Hrep' & _). eexists. split; [by constructor|done].
  - destruct Hc as (id & n & Hpin). destruct (rep_pinned_data s a id f n Hrep Hpin) as [_ [d Hd]].
    eapply call_intro; [by eapply ret_wp, (GetData_spec s a)|]. intros b s' [-> ->]. eexists. split; [by econstructor|done].
  - destruct Hc as (Hd & id & n & Hpin).
    eapply call_intro; [by eapply WriteData_wp|]. intros [] s' Hrep'. eexists. split; [by econstructor|done].
Qed.

(** C22: [NewPage] returns [nullptr] exactly when every frame is pinned, and in
    that case it has changed nothing. *)
Theorem NewPage_null_iff_all_pinned s a :
  pool_rep None s a → ps_next a < INT32_MAX →
  ((∃ s', NewPage s = (Ret None, s')) ↔ ∀ f p, frame s f = Some p → 0 < pin_count_ p) ∧
  (∀ s', NewPage s = (Ret None, s') → s' = s).
Proof.
  intros Hrep Hnext. assert (∀ s', NewPage s = (Ret None, s') → size (ps_pinned a) = ps_cap a) as Hfull.
  { intros s' Hs. destruct (room_or_full _ _ Hrep) as [Hroom|]; [|done].
    destruct (wp_elim _ _ _ (NewPage_wp _ _ Hrep Hnext Hroom)) as (o & s'' & Hs' & f & -> & _). congruence. }
  split; [split|].
  - intros [s' Hs%Hfull] f p Hp. destruct (decide (0 < pin_count_ p)) as [|Hz]; [done|].
    pose proof (unpinned_frame_size _ _ _ _ Hrep Hp Hz). lia.
  - intros Hall. exists s. by apply (NewPage_full s a), (all_pinned_size s).
  - intros s' Hs. rewrite (NewPage_full s a) in Hs by eauto. congruence.
Qed.

(** After [FlushAllPages] the disk gives back the content of every live
    page, pinned or not, resident or evicted before, and the pool still holds
    all of them. *)
Theorem FlushAllPages_durable s a :
  pool_rep None s a →
  wp FlushAllPages s (fun _ s' => pool_rep None s' a ∧
    ∀ id d, ps_pages a !! id = Some d → wp (disk_read id) (disk_manager_ s') (fun d' _ => d' = d)).
Proof.
  intros Hrep. eapply wp_mono; [by apply FlushAllPages_wp|]. intros _ s' (Hrep' & _ & Hsto).
  split; [done|]. intros id d Hd%Hsto.
  eapply wp_mono; [by apply disk_read_stored; [apply Hrep'|]|]. by intros d' k' [-> _].
Qed.

(** A run of calls, next to the specification states they go through, in which
    page [id] is neither written nor deleted. *)
Definition spares (id : Z) a (c : call D) : Prop :=
  match c with
  | CDeletePage j => j ≠ id
  | CWriteData f _ => ∀ n, ps_pinned a !! id ≠ Some (f, n)
  | _ => True
  end.

Inductive run (id : Z) : bpm → pstate D → list (call D) → bpm → pstate D → Prop :=
  | run_done s a : run id s a [] s a
  | run_step s a c cs r s1 a1 s2 a2 :
      allowed a c → spares id a c → run_call c s = (Ret r, s1) → spec_call a c r a1 → pool_rep None s1 a1 →
      run id s1 a1 cs s2 a2 → run id s a (c :: cs) s2 a2.

Lemma spec_call_spares id a c r a' d :
  spec_call a c r a' → spares id a c → ps_pages a !! id = Some d → id < ps_next a →
  ps_pages a' !! id = Some d ∧ id < ps_next a'.
Proof.
  destruct 1; cbn; intros Hs Hd Hlt; try done.
  - rewrite lookup_insert_ne by lia. split; [done|lia].
  - by rewrite lookup_delete_ne.
  - rewrite lookup_insert_ne; [done|]. intros <-. naive_solver.
Qed.

(** C9: no content is lost.  Whatever the calls made in between bring into the
    pool or push out of it, a live page that they neither write nor delete is
    fetched with the content it had, as soon as a frame can be had for it. *)
Theorem content_survives id d s a cs s' a' :
  run id s a cs s' a' → pool_rep None s a → ps_pages a !! id = Some d →
  (size (ps_pinned a') < ps_cap a')%nat →
  wp (o ← FetchPage id; match o with Some f => GetData f | None => lift Undef end) s' (fun d' _ => d' = d).
Proof.
  intros Hrun Hrep Hd. pose proof (rep_bound _ _ _ Hrep _ _ Hd) as [_ Hlt]. revert Hrep Hd Hlt.
  induction Hrun as [s a|s a c cs r s1 a1 s2 a2 _ Hsp _ Hc Hrep1 _ IH]; intros Hrep Hd Hlt.
  - intros Hroom. wp_step. destruct (ps_pinned a !! id) as [[f n]|] eqn:Hpin.
    + eapply wp_mono; [by eapply FetchPage_pinned|]. intros o s' [-> Hrep'].
      eapply wp_intro; [eapply (GetData_spec _ _ id); [done|apply lookup_insert_eq|done]|done].
    + eapply wp_mono; [by apply (FetchPage_wp s a id d)|]. intros o s' (f & -> & Hrep').
      eapply wp_intro; [eapply (GetData_spec _ _ id); [done|apply lookup_insert_eq|done]|done].
  - destruct (spec_call_spares _ _ _ _ _ _ Hc Hsp Hd Hlt). by apply IH.
Qed.
End calls.

(** ** A pool over an empty database file *)
Definition small_pool : BufferPoolManager DiskManager (list byte) :=
  BufferPoolManager_new 1 (DiskManager_new []) 2.
Definition small_spec : pstate (list byte) := mkPState 1 0 ∅ ∅ ∅.

Lemma small_rep : pool_rep None small_pool small_spec.
Proof.
  unfold small_pool, small_spec. change 0 with (next_id (DiskManager_new [])).
  apply BufferPoolManager_new_rep; [done|by vm_compute|lia].
Qed.

Example pool_simulates_witness :
  ∃ r s', run_call (CNewPage (D:=list byte)) small_pool = (Ret r, s') ∧
    ∃ a', spec_call small_spec CNewPage r a' ∧ pool_rep None s' a'.
Proof. apply pool_simulates; [exact small_rep|by vm_compute]. Defined.

Example NewPage_null_iff_all_pinned_witness :
  ((∃ s', NewPage small_pool = (Ret None, s')) ↔ ∀ f p, frame small_pool f = Some p → 0 < pin_count_ p) ∧
  (∀ s', NewPage small_pool = (Ret None, s') → s' = small_pool).
Proof. apply (NewPage_null_iff_all_pinned _ small_spec); [exact small_rep|by vm_compute]. Defined.

(** The page is created, reported dirty, evicted by the next page, and read back. *)
Example content_survives_witness :
  wp (NewPage;; UnpinPage 0 true) small_pool (fun _ s =>
    wp (run_call CNewPage) s (fun _ s1 =>
      wp (run_call (CUnpinPage 1 true)) s1 (fun _ s2 =>
        wp (o ← FetchPage 0; match o with Some f => GetData f | None => lift Undef end) s2
          (fun d _ => d = zero_page)))).
Proof.
  wp_step. eapply wp_mono; [apply NewPage_wp; [exact small_rep|by vm_compute|vm_compute; lia]|].
  intros o s0 (f & -> & Hrep0). eapply wp_mono.
  { eapply UnpinPage_wp; [exact Hrep0|apply lookup_insert_eq|by left]. }
  intros b s [-> Hrep].
  destruct (wp_elim _ _ _ (NewPage_wp _ _ Hrep ltac:(by vm_compute) ltac:(vm_compute; lia)))
    as (o & s1 & Hnew & g & -> & Hrep1).
  assert (run_call CNewPage s = (Ret (RPage (Some (1, g))), s1)) as Hc1
    by (unfold run_call, mbind, M_bind; by rewrite Hnew).
  eapply wp_intro; [exact Hc1|].
  destruct (wp_elim _ _ _ (UnpinPage_wp _ _ 1 g 1 true Hrep1 eq_refl (or_introl eq_refl)))
    as (b & s2 & Hun & -> & Hrep2).
  assert (run_call (CUnpinPage 1 true) s1 = (Ret (RBool true), s2)) as Hc2
    by (unfold run_call, mbind, M_bind; by rewrite Hun).
  eapply wp_intro; [exact Hc2|].
  eapply (content_survives 0 zero_page s _ [CNewPage; CUnpinPage 1 true] s2); [|exact Hrep|done|].
  - eapply run_step; [| |exact Hc1| |exact Hrep1|]; [by vm_compute|done|
      apply SNewPage; [by vm_compute|vm_compute; lia]|].
    eapply run_step; [| |exact Hc2| |exact Hrep2|apply run_done]; [intros ???; by left|done|].
    by eapply SUnpinPage.
  - vm_compute. lia.
Defined.

(** With the page still dirty in the pool, the flush brings it to the disk. *)
Example FlushAllPages_durable_witness :
  ∃ s a, pool_rep None s a ∧ ps_pages a !! 0 = Some zero_page ∧
    wp FlushAllPages s (fun _ s' => pool_rep None s' a ∧
      ∀ id d, ps_pages a !! id = Some d → wp (disk_read id) (disk_manager_ s') (fun d' _ => d' = d)).
Proof.
  destruct (wp_elim _ _ _ (NewPage_wp _ _ small_rep ltac:(by vm_compute) ltac:(vm_compute; lia)))
    as (o & s & _ & f & _ & Hrep).
  exists s, (spec_new zero_page f small_spec). split; [exact Hrep|]. split; [done|]. apply FlushAllPages_durable. exact Hrep.
Defined.
