(* ===== verification/PageGuard.v ===== *)
(** * Page guards

    Models [src/buffer/page_guard.cpp] and the latch of a page
    ([src/include/onebase/common/rwlatch.h], [page.h]).  A guard is an object at an
    address, because a move changes two of them and an assignment compares them.  A
    call that would wait for a latch returns [false] and changes nothing: the thread
    calls again.  The guards are proved over every page store with latches. *)
From coqutil Require Import Byte.
From S2P Require Import Prelude Interfaces DiskManager LRUKReplacer BufferPool BufferPoolSpec.

#[local] Open Scope Z_scope.
#[local] Coercion Z.of_nat : nat >-> Z.

(** ** Latches of pages *)

(** [page_->GetPageId()], [RLatch()], [WLatch()], [RUnlatch()] and [WUnlatch()] of
    the page in a frame. *)
Class PageLatches (S : Type) := {
  ps_page_id : Z → M S Z;
  ps_rlatch : Z → M S bool;
  ps_wlatch : Z → M S bool;
  ps_runlatch : Z → M S unit;
  ps_wunlatch : Z → M S unit;
}.

#[export] Instance rwlatch_eq_dec : EqDecision rwlatch.
Proof. solve_decision. Defined.

Section latches.
Context {K D : Type}.
Abbreviation bpm := (BufferPoolManager K D).

Definition set_latch (l : rwlatch) (p : Page D) : Page D := mkPage (data_ p) (page_id_ p) (pin_count_ p) (is_dirty_ p) l.

Definition Page_GetPageId (f : Z) : M bpm Z := page ← get_page f; mret (page_id_ page).

(** [mutex_.lock_shared()] *)
Definition RLatch (f : Z) : M bpm bool :=
  page ← get_page f;
  let l := rwlatch_ page in
  if writer l then mret false else put_page f (set_latch (mkLatch (S (readers l)) false) page);; mret true.

(** [mutex_.lock()] *)
Definition WLatch (f : Z) : M bpm bool :=
  page ← get_page f;
  let l := rwlatch_ page in
  if writer l || bool_decide (readers l ≠ 0%nat) then mret false else put_page f (set_latch (mkLatch 0 true) page);; mret true.

(** To unlock what is not locked is undefined behaviour. *)
Definition RUnlatch (f : Z) : M bpm unit :=
  page ← get_page f;
  match readers (rwlatch_ page) with
  | O => lift Undef
  | S n => put_page f (set_latch (mkLatch n (writer (rwlatch_ page))) page)
  end.
Definition WUnlatch (f : Z) : M bpm unit :=
  page ← get_page f;
  if writer (rwlatch_ page) then put_page f (set_latch (mkLatch (readers (rwlatch_ page)) false) page) else lift Undef.
End latches.

#[export] Instance pool_latches {K D} : PageLatches (BufferPoolManager K D) := {
  ps_page_id := Page_GetPageId;
  ps_rlatch := RLatch;
  ps_wlatch := WLatch;
  ps_runlatch := RUnlatch;
  ps_wunlatch := WUnlatch;
}.

(** ** Guards *)
Inductive guard_class := BasicPageGuard | ReadPageGuard | WritePageGuard.
#[export] Instance guard_class_eq_dec : EqDecision guard_class.
Proof. solve_decision. Defined.

(** [bpm_] is null or points to the pool; [page_] is null or points to a frame.
    Only a basic guard has the member [is_dirty_]. *)
Record PageGuard := mkGuard {
  class_ : guard_class;
  bpm_ : bool;
  page_ : option Z;
  is_dirty_ : bool;
}.

Record world (S : Type) := mkWorld { pool : S; guards : gmap Z PageGuard }.
Arguments mkWorld {S}.
Arguments pool {S}.
Arguments guards {S}.

Section operations.
Context {S D : Type} `{PageStore S D} `{PageLatches S}.
Abbreviation W := (world S).

Definition on_pool {A} (m : M S A) : M W A := zoom pool (fun s w => mkWorld s (guards w)) m.
Definition guard_at (this : Z) : M W PageGuard := fun w => (deref (guards w !! this), w).
Definition set_guard (this : Z) (g : PageGuard) : M W unit := modify (fun w => mkWorld (pool w) (<[this := g]> (guards w))).
(** [page_->] *)
Definition page_of (g : PageGuard) : M W Z := lift (deref (page_ g)).

(** *** Construction *)
Definition Basic_new (this : Z) (page : option Z) : M W unit := set_guard this (mkGuard BasicPageGuard true page false).

Definition Read_new (this : Z) (page : option Z) : M W bool :=
  match page with
  | None => set_guard this (mkGuard ReadPageGuard true None false);; mret true
  | Some f => ok ← on_pool (ps_rlatch f); if ok : bool then set_guard this (mkGuard ReadPageGuard true page false);; mret true else mret false
  end.

Definition Write_new (this : Z) (page : option Z) : M W bool :=
  match page with
  | None => set_guard this (mkGuard WritePageGuard true None false);; mret true
  | Some f => ok ← on_pool (ps_wlatch f); if ok : bool then set_guard this (mkGuard WritePageGuard true page false);; mret true else mret false
  end.

(** *** Use *)
Definition GetPageId (this : Z) : M W Z :=
  g ← guard_at this;
  match page_ g with Some f => on_pool (ps_page_id f) | None => mret INVALID_PAGE_ID end.
Definition GetData (this : Z) : M W D := g ← guard_at this; f ← page_of g; on_pool (ps_get_data f).
(** The pointer is the frame; a basic guard notes that the page may change. *)
Definition Basic_GetDataMut (this : Z) : M W Z :=
  g ← guard_at this; set_guard this (mkGuard (class_ g) (bpm_ g) (page_ g) true);; page_of g.
Definition Write_GetDataMut (this : Z) : M W Z := g ← guard_at this; page_of g.
Definition IsDirty (this : Z) : M W bool := g ← guard_at this; mret (is_dirty_ g).

(** *** Release *)

(** [bpm_->UnpinPage(page_->GetPageId(), is_dirty); bpm_ = nullptr; page_ = nullptr] *)
Definition unpin_and_clear (this f : Z) (is_dirty : bool) : M W unit :=
  g ← guard_at this;
  if bpm_ g then
    id ← on_pool (ps_page_id f);
    on_pool (ps_unpin_page id is_dirty);;
    set_guard this (mkGuard (class_ g) false None false)
  else lift Undef.

Definition Basic_Drop (this : Z) : M W unit :=
  g ← guard_at this;
  match page_ g with None => mret tt | Some f => unpin_and_clear this f (is_dirty_ g) end.
Definition Read_Drop (this : Z) : M W unit :=
  g ← guard_at this;
  match page_ g with None => mret tt | Some f => on_pool (ps_runlatch f);; unpin_and_clear this f false end.
Definition Write_Drop (this : Z) : M W unit :=
  g ← guard_at this;
  match page_ g with None => mret tt | Some f => on_pool (ps_wunlatch f);; unpin_and_clear this f true end.

Definition Drop (this : Z) : M W unit :=
  g ← guard_at this;
  match class_ g with BasicPageGuard => Basic_Drop this | ReadPageGuard => Read_Drop this | WritePageGuard => Write_Drop this end.

(** *** Moves *)

(** The members are copied, and the source forgets the page. *)
Definition move_members (this that : Z) : M W unit :=
  t ← guard_at that;
  set_guard this t;;
  t ← guard_at that;
  set_guard that (mkGuard (class_ t) false None (is_dirty_ t)).

Definition move_construct (this that : Z) : M W unit := move_members this that.
Definition move_assign (this that : Z) : M W unit :=
  if bool_decide (this ≠ that) then Drop this;; move_members this that else mret tt.

(** The destructor, and the end of the object. *)
Definition destroy (this : Z) : M W unit :=
  Drop this;; modify (fun w => mkWorld (pool w) (delete this (guards w))).
End operations.

(** ** What the latches of a page store promise *)
Class PageLatchesSpec (S D : Type) `{PageStoreSpec S D} `{PageLatches S} := {
  latch_of : S → Z → rwlatch;
  fetch_latch s id f : latch_of (ps_fetch_page id s).2 f = latch_of s f;
  unpin_latch s id dirty f : latch_of (ps_unpin_page id dirty s).2 f = latch_of s f;
  write_latch s g d f : latch_of (ps_set_data g d s).2 f = latch_of s f;
  page_id_spec s a id f c : ps_rep s a → ps_pinned a !! id = Some (f, c) → ps_page_id f s = (Ret id, s);
  rlatch_waits s a id f c : ps_rep s a → ps_pinned a !! id = Some (f, c) → writer (latch_of s f) = true → ps_rlatch f s = (Ret false, s);
  rlatch_spec s a id f c : ps_rep s a → ps_pinned a !! id = Some (f, c) → writer (latch_of s f) = false →
    wp (ps_rlatch f) s (fun ok s' => ok = true ∧ ps_rep s' a ∧
      ∀ g, latch_of s' g = if decide (g = f) then mkLatch (Datatypes.S (readers (latch_of s f))) false else latch_of s g);
  wlatch_waits s a id f c : ps_rep s a → ps_pinned a !! id = Some (f, c) → writer (latch_of s f) = true ∨ readers (latch_of s f) ≠ 0%nat →
    ps_wlatch f s = (Ret false, s);
  wlatch_spec s a id f c : ps_rep s a → ps_pinned a !! id = Some (f, c) → latch_of s f = mkLatch 0 false →
    wp (ps_wlatch f) s (fun ok s' => ok = true ∧ ps_rep s' a ∧ ∀ g, latch_of s' g = if decide (g = f) then mkLatch 0 true else latch_of s g);
  runlatch_spec s a id f c n : ps_rep s a → ps_pinned a !! id = Some (f, c) → readers (latch_of s f) = Datatypes.S n →
    wp (ps_runlatch f) s (fun _ s' => ps_rep s' a ∧ ∀ g, latch_of s' g = if decide (g = f) then mkLatch n (writer (latch_of s f)) else latch_of s g);
  wunlatch_spec s a id f c : ps_rep s a → ps_pinned a !! id = Some (f, c) → writer (latch_of s f) = true →
    wp (ps_wunlatch f) s (fun _ s' => ps_rep s' a ∧ ∀ g, latch_of s' g = if decide (g = f) then mkLatch (readers (latch_of s f)) false else latch_of s g);
}.

(** ** The latches of the buffer pool *)
Section pool_latches.
Context {K D : Type} `{DiskSpec K D} `{IterOrder}.
Abbreviation bpm := (BufferPoolManager K D).
Implicit Types (s : bpm) (a : pstate D) (p : Page D).

Definition pool_latch s (f : Z) : rwlatch := match frame s f with Some p => rwlatch_ p | None => mkLatch 0 false end.

(** The latches in the order of the frames. *)
Definition latch_list s : list rwlatch := rwlatch_ <$> pages_ s.

Lemma pool_latch_list s s' f : latch_list s' = latch_list s → pool_latch s' f = pool_latch s f.
Proof.
  intros Hl. unfold pool_latch, frame. case_bool_decide; [|done].
  apply (f_equal (fun l => l !! Z.to_nat f)) in Hl. unfold latch_list in Hl. rewrite !list_lookup_fmap in Hl.
  destruct (pages_ s' !! Z.to_nat f), (pages_ s !! Z.to_nat f); cbn in Hl; congruence.
Qed.

Lemma put_keeps_latches s f p p' :
  frame s f = Some p → rwlatch_ p' = rwlatch_ p → rwlatch_ <$> <[Z.to_nat f := p']> (pages_ s) = latch_list s.
Proof.
  intros Hf Hl. unfold frame in Hf. case_bool_decide; [|done]. unfold latch_list. rewrite list_fmap_insert, Hl, list_insert_id; [done|].
  by rewrite list_lookup_fmap, Hf.
Qed.

(** Code that leaves the latches alone. *)
Definition keeps {A} (m : M bpm A) : Prop := ∀ s, latch_list (m s).2 = latch_list s.

Lemma keeps_ret {A} (x : A) : keeps (mret x).
Proof. done. Qed.
Lemma keeps_gets {A} (x : bpm → A) : keeps (gets x).
Proof. done. Qed.
Lemma keeps_modify (g : bpm → bpm) : (∀ s, pages_ (g s) = pages_ s) → keeps (modify g).
Proof. intros Hg s. unfold latch_list. cbn. by rewrite Hg. Qed.
Lemma keeps_replacer {A} (m : M LRUKReplacer A) : keeps (on_replacer m).
Proof. intros s. unfold on_replacer, zoom. by destruct (m (replacer_ s)). Qed.
Lemma keeps_disk {A} (m : M K A) : keeps (on_disk m).
Proof. intros s. unfold on_disk, zoom. by destruct (m (disk_manager_ s)). Qed.
Lemma keeps_bind {A B} (m : M bpm A) (k : A → M bpm B) : keeps m → (∀ x, keeps (k x)) → keeps (m ≫= k).
Proof.
  intros Hm Hk s. specialize (Hm s). unfold mbind, M_bind. destruct (m s) as [[x| | |] s']; cbn [snd] in *; try done. by rewrite Hk.
Qed.

(** A page that is read and put back with its latch. *)
Lemma keeps_get {A} f (k : Page D → M bpm A) :
  (∀ s p, frame s f = Some p → latch_list (k p s).2 = latch_list s) → keeps (get_page f ≫= k).
Proof. intros Hk s. unfold mbind, M_bind, get_page. destruct (frame s f) as [p|] eqn:Hf; cbn; [by apply Hk|done]. Qed.

Lemma put_latches {A} s f p p' (m : M bpm A) :
  frame s f = Some p → rwlatch_ p' = rwlatch_ p → keeps m → latch_list ((put_page f p';; m) s).2 = latch_list s.
Proof. intros Hf Hl Hm. unfold mbind, M_bind, put_page. cbn. rewrite Hm. by apply (put_keeps_latches s f p). Qed.

Lemma take_frame_latches : keeps take_frame.
Proof.
  apply keeps_bind; [apply keeps_gets|]. intros [|f free]; [apply keeps_replacer|].
  apply keeps_bind; [by apply keeps_modify|]. intros _. apply keeps_ret.
Qed.

Lemma clear_victim_latches f : keeps (clear_victim f).
Proof.
  apply keeps_get. intros s p Hf.
  assert (∀ s', latch_list s' = latch_list s → latch_list (((if bool_decide (page_id_ p ≠ INVALID_PAGE_ID)
    then modify (set_page_table (delete (page_id_ p))) else mret ()) : M bpm unit) s').2 = latch_list s) as Hlast.
  { intros s' <-. by case_bool_decide. }
  unfold on_disk, put_page. m_unfold. destruct (BufferPool.is_dirty_ p); cbn.
  - destruct (disk_write _ _ (disk_manager_ s)) as [[[]| | |] k]; try done. apply Hlast. by apply (put_keeps_latches s f p).
  - by apply Hlast.
Qed.
Hint Resolve keeps_ret keeps_gets keeps_modify keeps_replacer keeps_disk keeps_bind take_frame_latches clear_victim_latches : core.

Lemma FetchPage_latches id : keeps (FetchPage id).
Proof.
  apply keeps_bind; [done|]. intros table. destruct (table !! id) as [f|].
  - apply keeps_get. intros s p Hf. by apply (put_latches s f p); auto 10.
  - apply keeps_bind; [done|]. intros [f|]; [|done]. apply keeps_bind; [done|]. intros _. apply keeps_bind; [done|]. intros d.
    apply keeps_get. intros s p Hf. by apply (put_latches s f p); auto 20.
Qed.

Lemma UnpinPage_latches id dirty : keeps (UnpinPage id dirty).
Proof.
  apply keeps_bind; [done|]. intros table. destruct (table !! id) as [f|]; [|done]. apply keeps_get. intros s p Hf.
  case_bool_decide; [done|]. apply (put_latches s f p); [done|by destruct dirty|]. apply keeps_bind; [by case_bool_decide|done].
Qed.

Lemma WriteData_latches f d : keeps (WriteData f d).
Proof.
  apply keeps_get. intros s p Hf. unfold put_page, modify. cbn. by apply (put_keeps_latches s f p).
Qed.

(** The representation does not depend on the latches. *)
Lemma set_latch_rep s a id f c p l :
  pool_rep None s a → ps_pinned a !! id = Some (f, c) → frame s f = Some p →
  pool_rep None (set_pages (<[Z.to_nat f := set_latch l p]> (pages_ s)) s) a.
Proof.
  intros Hrep Hpin Hp. pose proof (rep_inv _ _ _ Hrep) as Hinv.
  destruct (rep_pinned_page _ _ _ _ _ Hrep Hpin) as (Ht & Hc & p2 & Hp2 & Hc2 & Hid & e & He & Hev).
  assert (p2 = p) as -> by congruence. subst c.
  destruct (table_used _ _ _ _ Hinv Ht) as (p2 & Hp2' & Hid2 & _ & _ & Hrange & _). assert (p2 = p) as -> by congruence.
  destruct (rep_resident _ _ _ Hrep _ _ _ Ht Hp) as [Hdata Hclean].
  eapply (rep_set None s _ a _ id f (set_latch l p)); cbn; try done; try lia.
  - by left.
  - by eapply pool_data.
  - by rewrite insert_id.
  - apply Hinv.
  - exists (history_ e). apply (entries_same s f p); [done|]. by rewrite bool_decide_false by lia.
  - apply Hinv.
  - split; [done|]. apply Hinv.
  - apply Hrep.
  - by rewrite insert_id.
  - rewrite bool_decide_false by lia. by rewrite insert_id.
Qed.

(** The frame of a pinned page, and what a change of its latch does. *)
Lemma pinned_frame s a id f c : pool_rep None s a → ps_pinned a !! id = Some (f, c) →
  ∃ p, frame s f = Some p ∧ page_id_ p = id ∧ pool_latch s f = rwlatch_ p.
Proof.
  intros Hrep Hpin. destruct (rep_pinned_page _ _ _ _ _ Hrep Hpin) as (_ & _ & p & Hp & _ & Hid & _). exists p. split_and!; [done..|].
  unfold pool_latch. by rewrite Hp.
Qed.

Lemma pool_latch_put s f p l g :
  frame s f = Some p → pool_latch (set_pages (<[Z.to_nat f := set_latch l p]> (pages_ s)) s) g = if decide (g = f) then l else pool_latch s g.
Proof.
  intros Hf. unfold pool_latch at 1. rewrite (frame_put s _ f g (set_latch l p)) by done. by destruct (decide (g = f)).
Qed.
End pool_latches.

#[export, refine] Instance pool_latches_spec {K D} `{DiskSpec K D} `{IterOrder} : PageLatchesSpec (BufferPoolManager K D) D := {
  latch_of := pool_latch;
}.
Proof.
  - intros s id f. apply pool_latch_list, FetchPage_latches.
  - intros s id dirty f. apply pool_latch_list, UnpinPage_latches.
  - intros s g d f. apply pool_latch_list, WriteData_latches.
  - intros s a id f c Hrep (p & Hp & <- & _)%(pinned_frame s a id f c Hrep). unfold ps_page_id, pool_latches, Page_GetPageId, get_page, mbind, M_bind. by rewrite Hp.
  - intros s a id f c Hrep (p & Hp & _ & El)%(pinned_frame s a id f c Hrep) Hl. rewrite El in Hl.
    cbn. unfold RLatch, get_page, mbind, M_bind. rewrite Hp. cbn. by rewrite Hl.
  - intros s a id f c Hrep Hpin Hl. destruct (pinned_frame s a id f c Hrep Hpin) as (p & Hp & _ & El).
    rewrite El in Hl |- *. cbn [ps_rlatch pool_latches]. unfold RLatch. wp_step. eapply get_page_wp; [exact Hp|]. cbv zeta. rewrite Hl. unfold put_page. wp_steps.
    split_and!; [done|by eapply set_latch_rep|]. intros g. by apply pool_latch_put.
  - intros s a id f c Hrep (p & Hp & _ & El)%(pinned_frame s a id f c Hrep) Hl. rewrite El in Hl.
    cbn. unfold WLatch, get_page, mbind, M_bind. rewrite Hp. cbn. destruct Hl as [->|Hl]; [done|]. rewrite bool_decide_true, orb_true_r by done. done.
  - intros s a id f c Hrep Hpin Hl. destruct (pinned_frame s a id f c Hrep Hpin) as (p & Hp & _ & El).
    rewrite El in Hl. cbn [ps_wlatch pool_latches]. unfold WLatch. wp_step. eapply get_page_wp; [exact Hp|]. cbv zeta. rewrite Hl. cbn. unfold put_page. wp_steps.
    split_and!; [done|by eapply set_latch_rep|]. intros g. by apply pool_latch_put.
  - intros s a id f c n Hrep Hpin Hl. destruct (pinned_frame s a id f c Hrep Hpin) as (p & Hp & _ & El).
    rewrite El in Hl |- *. cbn [ps_runlatch pool_latches]. unfold RUnlatch. wp_step. eapply get_page_wp; [exact Hp|]. rewrite Hl. unfold put_page. wp_steps.
    split; [by eapply set_latch_rep|]. intros g. by apply pool_latch_put.
  - intros s a id f c Hrep Hpin Hl. destruct (pinned_frame s a id f c Hrep Hpin) as (p & Hp & _ & El).
    rewrite El in Hl |- *. cbn [ps_wunlatch pool_latches]. unfold WUnlatch. wp_step. eapply get_page_wp; [exact Hp|]. rewrite Hl. unfold put_page. wp_steps.
    split; [by eapply set_latch_rep|]. intros g. by apply pool_latch_put.
Defined.

(** ** Clients of guards *)

(** What a guard does to its page. *)
Definition holds (f : Z) (g : PageGuard) : bool := bool_decide (page_ g = Some f).
Definition reads (f : Z) (g : PageGuard) : bool := holds f g && bool_decide (class_ g = ReadPageGuard).
Definition writes (f : Z) (g : PageGuard) : bool := holds f g && bool_decide (class_ g = WritePageGuard).
Definition dirties (g : PageGuard) : bool :=
  match class_ g with BasicPageGuard => is_dirty_ g | ReadPageGuard => false | WritePageGuard => true end.

Definition count (P : PageGuard → bool) (gs : gmap Z PageGuard) : nat := size (filter (fun x => P x.2 = true) gs).

Section counting.
Implicit Types (P : PageGuard → bool) (gs : gmap Z PageGuard).

Lemma count_insert P gs k g : gs !! k = None → count P (<[k := g]> gs) = ((if P g then 1 else 0) + count P gs)%nat.
Proof.
  intros Hk. unfold count. rewrite map_filter_insert. cbn [snd]. case_decide as Hg.
  - rewrite map_size_insert_None, Hg; [done|]. apply map_lookup_filter_None. by left.
  - rewrite delete_id by done. by destruct (P g).
Qed.

Lemma count_delete P gs k g : gs !! k = Some g → count P gs = ((if P g then 1 else 0) + count P (delete k gs))%nat.
Proof. intros Hk. rewrite <-(insert_delete_id gs k g) at 1 by done. by rewrite count_insert by apply lookup_delete_eq. Qed.

Lemma count_update P gs k g g' : gs !! k = Some g →
  (count P (<[k := g']> gs) + (if P g then 1 else 0))%nat = (count P gs + (if P g' then 1 else 0))%nat.
Proof.
  intros Hk. rewrite <-insert_delete_eq. rewrite count_insert by apply lookup_delete_eq. rewrite (count_delete P gs k g) by done. lia.
Qed.

Lemma count_pos P gs k g : gs !! k = Some g → P g = true → (0 < count P gs)%nat.
Proof. intros Hk Hg. rewrite (count_delete P gs k g), Hg by done. lia. Qed.

Lemma count_two P gs k g k' g' : gs !! k = Some g → gs !! k' = Some g' → k ≠ k' → P g = true → P g' = true → (1 < count P gs)%nat.
Proof.
  intros Hk Hk' Hne Hg Hg'. rewrite (count_delete P gs k g), Hg by done.
  pose proof (count_pos P (delete k gs) k' g') as Hpos. rewrite lookup_delete_ne in Hpos by done. specialize (Hpos Hk' Hg'). lia.
Qed.

Lemma count_zero P gs k g : count P gs = 0%nat → gs !! k = Some g → P g = false.
Proof. intros Hc Hk. destruct (P g) eqn:Hg; [|done]. pose proof (count_pos P gs k g Hk Hg). lia. Qed.

Lemma count_none P gs : (∀ k g, gs !! k = Some g → P g = false) → count P gs = 0%nat.
Proof.
  intros Hg. unfold count. apply map_size_empty_iff. apply map_eq. intros k. rewrite lookup_empty. apply map_lookup_filter_None.
  destruct (gs !! k) as [g|] eqn:Hk; [right|by left]. intros g' [= <-]. cbn. by rewrite (Hg _ _ Hk).
Qed.

(** The read and write holds are holds. *)
Lemma reads_holds f g : reads f g = true → holds f g = true.
Proof. unfold reads. by intros [? _]%andb_true_iff. Qed.
Lemma writes_holds f g : writes f g = true → holds f g = true.
Proof. unfold writes. by intros [? _]%andb_true_iff. Qed.
Lemma reads_class f g : reads f g = true → class_ g = ReadPageGuard.
Proof. unfold reads. by intros [_ ?%bool_decide_eq_true]%andb_true_iff. Qed.
Lemma writes_class f g : writes f g = true → class_ g = WritePageGuard.
Proof. unfold writes. by intros [_ ?%bool_decide_eq_true]%andb_true_iff. Qed.
Lemma holds_iff f g : holds f g = true ↔ page_ g = Some f.
Proof. apply bool_decide_eq_true. Qed.
Lemma no_page f g : page_ g = None → holds f g = false ∧ reads f g = false ∧ writes f g = false.
Proof. intros Hg. unfold reads, writes, holds. by rewrite Hg. Qed.
End counting.

Section client.
Context {S D : Type} `{PageLatchesSpec S D}.
Implicit Types (s : S) (a : pstate D) (gs : gmap Z PageGuard).

(** The frames of the pages that were fetched and are in no guard yet. *)
Abbreviation pins := (list (Z * Z)).
Definition raw_count (f : Z) (raw : pins) : nat := length (filter (fun x => x.2 = f) raw).

Record balanced s gs (raw : pins) a : Prop := {
  bal_rep : ps_rep s a;
  bal_room : (size (ps_pinned a) ≤ ps_cap a)%nat;
  bal_raw (id f : Z) : (id, f) ∈ raw → ∃ c, ps_pinned a !! id = Some (f, c);
  bal_held k g f : gs !! k = Some g → page_ g = Some f → bpm_ g = true ∧ ∃ id c, ps_pinned a !! id = Some (f, c);
  bal_pins (id f c : Z) : ps_pinned a !! id = Some (f, c) → c = (raw_count f raw + count (holds f) gs)%nat;
  bal_readers f : readers (latch_of s f) = count (reads f) gs;
  bal_writer f : (if writer (latch_of s f) then 1 else 0)%nat = count (writes f) gs;
  bal_excl f : writer (latch_of s f) = true → readers (latch_of s f) = 0%nat;
  bal_saved id : id ∈ ps_unsaved a → ∃ k g f c, gs !! k = Some g ∧ page_ g = Some f ∧ ps_pinned a !! id = Some (f, c) ∧ dirties g = true;
}.

Lemma frame_id s a id id' f c c' : ps_rep s a → ps_pinned a !! id = Some (f, c) → ps_pinned a !! id' = Some (f, c') → id = id'.
Proof. intros Hrep Hp Hp'. pose proof (page_id_spec _ _ _ _ _ Hrep Hp) as E. rewrite (page_id_spec _ _ _ _ _ Hrep Hp') in E. congruence. Qed.

Lemma raw_count_pos id f raw : (id, f) ∈ raw → (0 < raw_count f raw)%nat.
Proof.
  intros Hin. unfold raw_count. assert ((id, f) ∈ filter (fun x : Z * Z => x.2 = f) raw) as Hf by by apply list_elem_of_filter.
  destruct (filter _ raw); [by apply elem_of_nil in Hf|cbn; lia].
Qed.

(** A guard gives its page back. *)
Lemma balanced_release s s' gs raw a this g g' f id c :
  balanced s gs raw a → gs !! this = Some g → page_ g = Some f → ps_pinned a !! id = Some (f, c) → page_ g' = None →
  ps_rep s' (spec_unpin id f c (dirties g) a) →
  (∀ h, latch_of s' h = mkLatch (readers (latch_of s h) - (if reads h g then 1 else 0)) (writer (latch_of s h) && negb (writes h g))) →
  balanced s' (<[this := g']> gs) raw (spec_unpin id f c (dirties g) a).
Proof.
  intros Hb Hg Hf Hpin Hg' Hrep Hlatch.
  assert (∀ h, holds h g' = false ∧ reads h g' = false ∧ writes h g' = false) as Hno by (intros h; by apply no_page).
  assert (holds f g = true) as Hhold by by apply holds_iff.
  pose proof (bal_pins _ _ _ _ Hb _ _ _ Hpin) as Hc.
  assert (∀ id' f' c', ps_pinned a !! id' = Some (f', c') → (id' = id → 1 < c) →
    ∃ c'', ps_pinned (spec_unpin id f c (dirties g) a) !! id' = Some (f', c'')) as Hstill.
  { intros id' f' c' Hpin' Hmore. cbn. destruct (decide (id' = id)) as [->|Hne].
    - rewrite bool_decide_false by (specialize (Hmore eq_refl); lia). rewrite lookup_insert_eq. rewrite Hpin in Hpin'. injection Hpin' as <- _. by eexists.
    - case_bool_decide; [rewrite lookup_delete_ne by done|rewrite lookup_insert_ne by done]; by eexists. }
  assert (∀ k h f', gs !! k = Some h → k ≠ this → page_ h = Some f' → ∀ id' c', ps_pinned a !! id' = Some (f', c') → id' = id → 1 < c) as Hother.
  { intros k h f' Hk Hne Hf' id' c' Hpin' ->. rewrite Hpin in Hpin'. injection Hpin' as <- _. rewrite Hc.
    pose proof (count_two (holds f) gs k h this g Hk Hg Hne (proj2 (holds_iff _ _) Hf') Hhold). lia. }
  split.
  - exact Hrep.
  - cbn. pose proof (bal_room _ _ _ _ Hb). case_bool_decide; [|by rewrite map_size_insert_Some by by eexists].
    rewrite map_size_delete_Some by (by eexists). lia.
  - intros id' f' Hin. destruct (bal_raw _ _ _ _ Hb _ _ Hin) as [c' Hc']. eapply Hstill; [exact Hc'|]. intros ->.
    rewrite Hpin in Hc'. injection Hc' as <- <-. pose proof (raw_count_pos _ _ _ Hin). pose proof (count_pos (holds f) gs this g Hg Hhold). lia.
  - intros k h f' Hk Hf'. destruct (decide (k = this)) as [->|Hne]; [rewrite lookup_insert_eq in Hk; congruence|].
    rewrite lookup_insert_ne in Hk by done. destruct (bal_held _ _ _ _ Hb _ _ _ Hk Hf') as (Hbpm & id' & c' & Hpin'). split; [done|].
    exists id'. eapply Hstill; [exact Hpin'|]. by eapply Hother.
  - intros id' f' c' Hpin'. cbn in Hpin'. pose proof (count_update (holds f') gs this g g' Hg) as Hcount. rewrite (proj1 (Hno f')) in Hcount.
    destruct (decide (id' = id)) as [->|Hne].
    + case_bool_decide; [by rewrite lookup_delete_eq in Hpin'|]. rewrite lookup_insert_eq in Hpin'. injection Hpin' as <- <-.
      rewrite Hhold in Hcount. lia.
    + assert (ps_pinned a !! id' = Some (f', c')) as Hold.
      { case_bool_decide; [by rewrite lookup_delete_ne in Hpin'|by rewrite lookup_insert_ne in Hpin']. }
      assert (holds f' g = false) as Hn.
      { destruct (holds f' g) eqn:E; [|done]. apply holds_iff in E. assert (f' = f) as -> by congruence.
        destruct Hne. by apply (frame_id s a id' id f c' c); [apply Hb|..]. }
      rewrite Hn in Hcount. rewrite (bal_pins _ _ _ _ Hb _ _ _ Hold). lia.
  - intros h. rewrite Hlatch. cbn [readers]. pose proof (count_update (reads h) gs this g g' Hg) as Hcount.
    rewrite (proj1 (proj2 (Hno h))) in Hcount. rewrite (bal_readers _ _ _ _ Hb). lia.
  - intros h. rewrite Hlatch. cbn [writer]. pose proof (count_update (writes h) gs this g g' Hg) as Hcount.
    rewrite (proj2 (proj2 (Hno h))) in Hcount. pose proof (bal_writer _ _ _ _ Hb h) as Hw.
    destruct (writer (latch_of s h)), (writes h g) eqn:E; cbn; try lia.
  - intros h. rewrite Hlatch. cbn [readers writer]. intros [Hw _]%andb_true_iff. rewrite (bal_excl _ _ _ _ Hb _ Hw). done.
  - intros id' Hin. assert (id' ∈ ps_unsaved a ∧ (dirties g = true → id' ≠ id)) as [Hin' Hdirty].
    { cbn in Hin. destruct (dirties g); set_solver. }
    destruct (bal_saved _ _ _ _ Hb _ Hin') as (k & h & f' & c' & Hk & Hf' & Hpin' & Hdh).
    assert (k ≠ this) as Hne.
    { intros ->. rewrite Hg in Hk. injection Hk as <-. rewrite Hf in Hf'. injection Hf' as <-.
      apply (Hdirty Hdh). by apply (frame_id s a id' id f c' c); [apply Hb|..]. }
    destruct (Hstill id' f' c' Hpin') as [c'' Hc'']; [by eapply Hother|].
    exists k, h, f', c''. rewrite lookup_insert_ne by done. done.
Qed.

(** Unpinning loses nothing: a page with changes has another guard that knows. *)
Lemma release_allowed s gs raw a this g f id c :
  balanced s gs raw a → gs !! this = Some g → page_ g = Some f → ps_pinned a !! id = Some (f, c) →
  dirties g = true ∨ 1 < c ∨ id ∉ ps_unsaved a.
Proof.
  intros Hb Hg Hf Hpin. destruct (dirties g) eqn:Hd; [by left|right]. destruct (decide (id ∈ ps_unsaved a)) as [Hin|]; [left|by right].
  destruct (bal_saved _ _ _ _ Hb _ Hin) as (k & h & f' & c' & Hk & Hf' & Hpin' & Hdh). rewrite Hpin in Hpin'. injection Hpin' as <- <-.
  rewrite (bal_pins _ _ _ _ Hb _ _ _ Hpin).
  assert (k ≠ this) as Hne by (intros ->; congruence).
  pose proof (count_two (holds f) gs k h this g Hk Hg Hne (proj2 (holds_iff _ _) Hf') (proj2 (holds_iff _ _) Hf)). lia.
Qed.

Lemma wp_on_pool {A} (m : M S A) s gs (Q : A → world S → Prop) :
  wp m s (fun x s' => Q x (mkWorld s' gs)) → wp (on_pool m) (mkWorld s gs) Q.
Proof. intros Hm. by apply wp_zoom. Qed.

Lemma wp_guard_at this s gs g (Q : PageGuard → world S → Prop) :
  gs !! this = Some g → Q g (mkWorld s gs) → wp (guard_at this) (mkWorld s gs) Q.
Proof. intros Hg HQ. unfold wp, guard_at. cbn. by rewrite Hg. Qed.

(** The common end of the three [Drop]s. *)
Lemma unpin_and_clear_wp s s1 gs raw a this g f id c :
  balanced s gs raw a → gs !! this = Some g → page_ g = Some f → ps_pinned a !! id = Some (f, c) →
  ps_rep s1 a → (∀ h, latch_of s1 h = mkLatch (readers (latch_of s h) - (if reads h g then 1 else 0)) (writer (latch_of s h) && negb (writes h g))) →
  wp (unpin_and_clear this f (dirties g)) (mkWorld s1 gs) (fun _ w' =>
    guards w' = <[this := mkGuard (class_ g) false None false]> gs ∧ balanced (pool w') (guards w') raw (spec_unpin id f c (dirties g) a)).
Proof.
  intros Hb Hg Hf Hpin Hrep Hlatch. destruct (bal_held _ _ _ _ Hb _ _ _ Hg Hf) as [Hbpm _].
  unfold unpin_and_clear. wp_step. apply (wp_guard_at _ _ _ g); [done|]. rewrite Hbpm.
  wp_step. apply wp_on_pool. unfold wp at 1. rewrite (page_id_spec s1 a id f c) by done.
  wp_step. apply wp_on_pool. pose proof (ps_unpin_spec _ _ _ _ _ _ Hrep Hpin (release_allowed _ _ _ _ _ _ _ _ _ Hb Hg Hf Hpin)) as Hunpin.
  pose proof (unpin_latch s1 id (dirties g)) as Hkeep. unfold wp in Hunpin |- *. destruct (ps_unpin_page id (dirties g) s1) as [[b| | |] s2]; try done.
  destruct Hunpin as [_ Hrep2]. cbn. split; [done|]. cbn in Hkeep.
  eapply (balanced_release s); try done. intros h. by rewrite Hkeep.
Qed.

(** Dropping a guard empties it, and keeps the balance. *)
Definition drop_post gs (raw : pins) a this (_ : unit) (w' : world S) : Prop :=
  ∃ g g' a', gs !! this = Some g ∧ guards w' = <[this := g']> gs ∧ page_ g' = None ∧ class_ g' = class_ g ∧
    balanced (pool w') (guards w') raw a' ∧ ps_pages a' = ps_pages a.

Lemma Drop_wp s gs raw a this g :
  balanced s gs raw a → gs !! this = Some g → wp (Drop this) (mkWorld s gs) (drop_post gs raw a this).
Proof.
  intros Hb Hg. unfold Drop. wp_step. apply (wp_guard_at _ _ _ g); [done|].
  destruct (page_ g) as [f|] eqn:Hf.
  2: { assert (drop_post gs raw a this tt (mkWorld s gs)) as Hpost by (exists g, g, a; cbn; by rewrite insert_id).
       destruct (class_ g); unfold Basic_Drop, Read_Drop, Write_Drop; wp_step; (apply (wp_guard_at _ _ _ g); [done|]); rewrite Hf; by wp_step. }
  destruct (bal_held _ _ _ _ Hb _ _ _ Hg Hf) as (_ & id & c & Hpin). pose proof (bal_rep _ _ _ _ Hb) as Hrep.
  assert (∀ w', guards w' = <[this := mkGuard (class_ g) false None false]> gs ∧ balanced (pool w') (guards w') raw (spec_unpin id f c (dirties g) a) →
    drop_post gs raw a this tt w') as Hpost.
  { intros w' [Hw Hb']. exists g, (mkGuard (class_ g) false None false), (spec_unpin id f c (dirties g) a). done. }
  assert (∀ h, holds h g = bool_decide (h = f)) as Hholds.
  { intros h. unfold holds. rewrite Hf. apply bool_decide_ext. naive_solver. }
  destruct (class_ g) eqn:Hclass; unfold Basic_Drop, Read_Drop, Write_Drop; wp_step; (apply (wp_guard_at _ _ _ g); [done|]); rewrite Hf.
  - assert (is_dirty_ g = dirties g) as -> by (unfold dirties; by rewrite Hclass).
    eapply wp_mono; [apply (unpin_and_clear_wp s s gs raw a this g f id c)|intros [] w' Hw; rewrite Hclass in Hw; by apply Hpost]; try done.
    intros h. unfold reads, writes. rewrite Hclass. rewrite !(bool_decide_false (_ = _ :> guard_class)) by done. rewrite !andb_false_r. cbn.
    rewrite Nat.sub_0_r, andb_true_r. by destruct (latch_of s h).
  - assert (0 < count (reads f) gs)%nat as Hpos by (apply (count_pos _ gs this g); [done|unfold reads; by rewrite Hholds, Hclass, !bool_decide_true]).
    rewrite <-(bal_readers _ _ _ _ Hb) in Hpos. destruct (readers (latch_of s f)) as [|n] eqn:Hn; [lia|].
    wp_step. apply wp_on_pool. eapply wp_mono; [by eapply runlatch_spec|]. intros [] s1 [Hrep1 Hl1].
    replace false with (dirties g) at 1 by (unfold dirties; by rewrite Hclass).
    eapply wp_mono; [apply (unpin_and_clear_wp s s1 gs raw a this g f id c)|intros [] w' Hw; rewrite Hclass in Hw; by apply Hpost]; try done.
    intros h. rewrite Hl1. unfold reads, writes. rewrite Hholds, Hclass. rewrite (bool_decide_true (_ = ReadPageGuard)) by done.
    rewrite (bool_decide_false (_ = WritePageGuard)) by done. rewrite andb_true_r, andb_false_r. cbn. rewrite andb_true_r.
    destruct (decide (h = f)) as [->|Hne].
    + rewrite bool_decide_true, Hn by done. f_equal. lia.
    + rewrite bool_decide_false by done. rewrite Nat.sub_0_r. by destruct (latch_of s h).
  - assert (0 < count (writes f) gs)%nat as Hpos by (apply (count_pos _ gs this g); [done|unfold writes; by rewrite Hholds, Hclass, !bool_decide_true]).
    rewrite <-(bal_writer _ _ _ _ Hb) in Hpos. destruct (writer (latch_of s f)) eqn:Hw1; [|lia].
    wp_step. apply wp_on_pool. eapply wp_mono; [by eapply wunlatch_spec|]. intros [] s1 [Hrep1 Hl1].
    replace true with (dirties g) at 1 by (unfold dirties; by rewrite Hclass).
    eapply wp_mono; [apply (unpin_and_clear_wp s s1 gs raw a this g f id c)|intros [] w' Hw; rewrite Hclass in Hw; by apply Hpost]; try done.
    intros h. rewrite Hl1. unfold reads, writes. rewrite Hholds, Hclass. rewrite (bool_decide_false (_ = ReadPageGuard)) by done.
    rewrite (bool_decide_true (_ = WritePageGuard)) by done. rewrite andb_true_r, andb_false_r, Nat.sub_0_r.
    destruct (decide (h = f)) as [->|Hne].
    + rewrite bool_decide_true by done. by rewrite andb_false_r.
    + rewrite bool_decide_false by done. cbn. rewrite andb_true_r. by destruct (latch_of s h).
Qed.

(** A page is fetched. *)
Lemma balanced_fetch s s' gs raw a (id f c : Z) :
  balanced s gs raw a → (ps_pinned a !! id = Some (f, c - 1) ∨ c = 1 ∧ ps_pinned a !! id = None ∧ (size (ps_pinned a) < ps_cap a)%nat) →
  ps_rep s' (spec_pin id f c a) → (∀ h, latch_of s' h = latch_of s h) → balanced s' gs ((id, f) :: raw) (spec_pin id f c a).
Proof.
  intros Hb Hold Hrep Hlatch.
  assert (∀ id' f' c', ps_pinned a !! id' = Some (f', c') → ∃ c'', ps_pinned (spec_pin id f c a) !! id' = Some (f', c'')) as Hstill.
  { intros id' f' c' Hpin. cbn. destruct (decide (id' = id)) as [->|Hne]; [|rewrite lookup_insert_ne by done; by eexists].
    rewrite lookup_insert_eq. destruct Hold as [Hold|(_ & Hold & _)]; [|congruence]. rewrite Hold in Hpin. injection Hpin as <- _. by eexists. }
  assert (∀ id' c', ps_pinned (spec_pin id f c a) !! id' = Some (f, c') → id' = id) as Huniq.
  { intros id' c' Hpin. eapply (frame_id s'); [exact Hrep|exact Hpin|]. cbn. apply lookup_insert_eq. }
  split; try by setoid_rewrite Hlatch; apply Hb.
  - exact Hrep.
  - cbn. destruct Hold as [Hold|(_ & Hold & Hroom)].
    + rewrite map_size_insert_Some by by eexists. apply Hb.
    + rewrite map_size_insert_None by done. lia.
  - intros id' f' [[= -> ->]|Hin]%elem_of_cons; [cbn; rewrite lookup_insert_eq; by eexists|].
    destruct (bal_raw _ _ _ _ Hb _ _ Hin) as [c' Hc']. by eapply Hstill.
  - intros k g f' Hk Hf'. destruct (bal_held _ _ _ _ Hb _ _ _ Hk Hf') as (Hbpm & id' & c' & Hpin). split; [done|].
    exists id'. by eapply Hstill.
  - intros id' f' c' Hpin. unfold raw_count. rewrite filter_cons. cbn [snd]. cbn in Hpin.
    destruct (decide (id' = id)) as [->|Hne].
    + rewrite lookup_insert_eq in Hpin. injection Hpin as <- <-. rewrite decide_True by done. cbn [length]. fold (raw_count f raw).
      destruct Hold as [Hold|(-> & Hold & _)].
      * pose proof (bal_pins _ _ _ _ Hb _ _ _ Hold). lia.
      * assert (raw_count f raw = 0%nat) as ->.
        { destruct (raw_count f raw) eqn:Hr; [done|]. exfalso. unfold raw_count in Hr.
          destruct (filter (fun x : Z * Z => x.2 = f) raw) as [|[id' f'] l] eqn:El; [done|].
          assert ((id', f') ∈ filter (fun x : Z * Z => x.2 = f) raw) as [Hf' Hin]%list_elem_of_filter by (rewrite El; by constructor).
          cbn in Hf'. subst f'. destruct (bal_raw _ _ _ _ Hb _ _ Hin) as [c' Hc']. destruct (Hstill _ _ _ Hc') as [c'' Hc''].
          apply Huniq in Hc'' as ->. congruence. }
        rewrite count_none; [done|]. intros k g Hk. destruct (holds f g) eqn:Hh; [|done]. apply holds_iff in Hh.
        destruct (bal_held _ _ _ _ Hb _ _ _ Hk Hh) as (_ & id' & c' & Hc'). destruct (Hstill _ _ _ Hc') as [c'' Hc'']. apply Huniq in Hc'' as ->. congruence.
    + rewrite lookup_insert_ne in Hpin by done. rewrite decide_False; [by apply (bal_pins _ _ _ _ Hb) in Hpin|].
      intros <-. apply Hne, (Huniq _ c'). cbn. by rewrite lookup_insert_ne by done.
  - intros id' Hin. destruct (bal_saved _ _ _ _ Hb _ Hin) as (k & g & f' & c' & Hk & Hf' & Hpin & Hd).
    destruct (Hstill _ _ _ Hpin) as [c'' Hc'']. by exists k, g, f', c''.
Qed.

Lemma raw_count_delete i id f h raw : raw !! i = Some (id, f) → raw_count h raw = ((if decide (f = h) then 1 else 0) + raw_count h (delete i raw))%nat.
Proof.
  intros Hi. unfold raw_count. rewrite (delete_Permutation raw i (id, f) Hi) at 1. rewrite filter_cons. cbn [snd]. by case_decide.
Qed.

(** A guard is built around a page that was fetched. *)
Lemma balanced_construct s s' gs raw a this g i id f :
  balanced s gs raw a → raw !! i = Some (id, f) → gs !! this = None → page_ g = Some f → bpm_ g = true → ps_rep s' a →
  (∀ h, latch_of s' h = mkLatch (readers (latch_of s h) + (if reads h g then 1 else 0)) (writer (latch_of s h) || writes h g)) →
  (writes f g = true → latch_of s f = mkLatch 0 false) → (reads f g = true → writer (latch_of s f) = false) →
  balanced s' (<[this := g]> gs) (delete i raw) a.
Proof.
  intros Hb Hi Hnew Hf Hbpm Hrep Hlatch Hwrites Hreads.
  assert (∀ h, holds h g = true → h = f) as Honly by (intros h Hh%holds_iff; congruence).
  split.
  - exact Hrep.
  - apply Hb.
  - intros id' f' Hin. apply (bal_raw _ _ _ _ Hb). rewrite (delete_Permutation raw i (id, f) Hi). by constructor.
  - intros k h f' [[<- <-]|[_ Hk]]%lookup_insert_Some Hf'; [|by apply (bal_held _ _ _ _ Hb k)].
    split; [done|]. assert (f' = f) as -> by congruence. destruct (bal_raw _ _ _ _ Hb id f) as [c Hc]; [by eapply list_elem_of_lookup_2|]. by exists id, c.
  - intros id' f' c Hpin. rewrite (bal_pins _ _ _ _ Hb _ _ _ Hpin), (raw_count_delete i id f f' raw Hi), count_insert by done.
    unfold holds at 2. rewrite Hf. destruct (decide (f = f')) as [->|Hne]; [rewrite bool_decide_true by done|rewrite bool_decide_false by congruence]; lia.
  - intros h. rewrite Hlatch, count_insert by done. cbn [readers]. rewrite (bal_readers _ _ _ _ Hb). lia.
  - intros h. rewrite Hlatch, count_insert by done. cbn [writer]. rewrite <-(bal_writer _ _ _ _ Hb).
    destruct (writes h g) eqn:E; [|by rewrite orb_false_r]. assert (h = f) as -> by by apply Honly, writes_holds. by rewrite Hwrites.
  - intros h. rewrite Hlatch. cbn [readers writer]. destruct (writes h g) eqn:Ew.
    + intros _. assert (h = f) as -> by by apply Honly, writes_holds. rewrite Hwrites by done. cbn.
      unfold writes, reads in *. apply andb_true_iff in Ew as [_ Ew%bool_decide_eq_true]. rewrite Ew. rewrite bool_decide_false by done. by rewrite andb_false_r.
    + rewrite orb_false_r. intros Hw. destruct (reads h g) eqn:Er.
      * assert (h = f) as -> by by apply Honly, reads_holds. rewrite Hreads in Hw; done.
      * by rewrite (bal_excl _ _ _ _ Hb _ Hw).
  - intros id' Hin. destruct (bal_saved _ _ _ _ Hb _ Hin) as (k & h & f' & c' & Hk & Hrest).
    exists k, h, f', c'. rewrite lookup_insert_ne by congruence. done.
Qed.

(** A page is written through a guard that notes it. *)
Lemma balanced_write s s' gs raw a this g g' f id c d :
  balanced s gs raw a → gs !! this = Some g → page_ g = Some f → ps_pinned a !! id = Some (f, c) →
  page_ g' = page_ g → class_ g' = class_ g → bpm_ g' = bpm_ g → dirties g' = true →
  ps_rep s' (spec_write id d a) → (∀ h, latch_of s' h = latch_of s h) → balanced s' (<[this := g']> gs) raw (spec_write id d a).
Proof.
  intros Hb Hg Hf Hpin Epage Eclass Ebpm Hd Hrep Hlatch.
  assert (∀ P, P g' = P g → count P (<[this := g']> gs) = count P gs) as Hcount.
  { intros P HP. pose proof (count_update P gs this g g' Hg) as Hc. rewrite HP in Hc. lia. }
  split.
  - exact Hrep.
  - apply Hb.
  - apply Hb.
  - intros k h f' [[<- <-]|[_ Hk]]%lookup_insert_Some Hf'; [|by apply (bal_held _ _ _ _ Hb k)].
    rewrite Ebpm. apply (bal_held _ _ _ _ Hb this); congruence.
  - intros id' f' c' Hpin'. rewrite Hcount by (unfold holds; by rewrite Epage). by apply (bal_pins _ _ _ _ Hb) in Hpin'.
  - intros h. rewrite Hlatch, Hcount by (unfold reads, holds; by rewrite Epage, Eclass). apply Hb.
  - intros h. rewrite Hlatch, Hcount by (unfold writes, holds; by rewrite Epage, Eclass). apply Hb.
  - intros h. rewrite Hlatch. apply Hb.
  - intros id' Hin. cbn in Hin. destruct (decide (id' = id)) as [->|Hne].
    { exists this, g', f, c. rewrite lookup_insert_eq, Epage. done. }
    destruct (bal_saved _ _ _ _ Hb id') as (k & h & f' & c' & Hk & Hf' & Hpin' & Hdh); [set_solver|].
    destruct (decide (k = this)) as [->|Hnk].
    + exists this, g', f', c'. rewrite lookup_insert_eq, Epage. split_and!; [done|congruence|done|done].
    + exists k, h, f', c'. by rewrite lookup_insert_ne by done.
Qed.

(** The page moves to a guard that has none, or to a new one. *)
Lemma balanced_move s gs raw a this that g dirty :
  balanced s gs raw a → this ≠ that → gs !! that = Some g → (∀ g0, gs !! this = Some g0 → page_ g0 = None) →
  balanced s (<[that := mkGuard (class_ g) false None dirty]> (<[this := g]> gs)) raw a.
Proof.
  intros Hb Hne Hg Hthis.
  assert (∀ P : PageGuard → bool, (∀ h, page_ h = None → P h = false) → count P (<[that := mkGuard (class_ g) false None dirty]> (<[this := g]> gs)) = count P gs) as Hcount.
  { intros P HP. pose proof (count_update P (<[this := g]> gs) that g (mkGuard (class_ g) false None dirty)) as Hc.
    rewrite lookup_insert_ne in Hc by done. specialize (Hc Hg). rewrite (HP (mkGuard _ _ _ _)) in Hc by done.
    destruct (gs !! this) as [g0|] eqn:Hg0.
    - pose proof (count_update P gs this g0 g Hg0) as Hc0. rewrite (HP g0) in Hc0 by by apply Hthis. lia.
    - rewrite (count_insert P gs this g Hg0) in Hc. lia. }
  split; try apply Hb.
  - intros k h f [[<- <-]|[_ [[<- <-]|[_ Hk]]%lookup_insert_Some]]%lookup_insert_Some Hf; [done|by apply (bal_held _ _ _ _ Hb that)|by apply (bal_held _ _ _ _ Hb k)].
  - intros id f c Hpin. rewrite Hcount; [by apply (bal_pins _ _ _ _ Hb) in Hpin|]. intros h Hh. by apply no_page.
  - intros f. rewrite Hcount; [apply Hb|]. intros h Hh. by apply no_page.
  - intros f. rewrite Hcount; [apply Hb|]. intros h Hh. by apply no_page.
  - intros id Hin. destruct (bal_saved _ _ _ _ Hb _ Hin) as (k & h & f & c & Hk & Hf & Hrest). destruct (decide (k = that)) as [->|Hnk].
    + rewrite Hg in Hk. injection Hk as <-. exists this, g, f, c. by rewrite lookup_insert_ne, lookup_insert_eq by done.
    + exists k, h, f, c. assert (k ≠ this) by (intros ->; by rewrite (Hthis h) in Hf). by rewrite !lookup_insert_ne by done.
Qed.

(** A guard without a page ends. *)
Lemma balanced_delete s gs raw a this g : balanced s gs raw a → gs !! this = Some g → page_ g = None → balanced s (delete this gs) raw a.
Proof.
  intros Hb Hg Hnone.
  assert (∀ P : PageGuard → bool, (∀ h, page_ h = None → P h = false) → count P (delete this gs) = count P gs) as Hcount.
  { intros P HP. by rewrite (count_delete P gs this g), HP by done. }
  split; try apply Hb.
  - intros k h f [_ Hk]%lookup_delete_Some Hf. by apply (bal_held _ _ _ _ Hb k).
  - intros id f c Hpin. rewrite Hcount; [by apply (bal_pins _ _ _ _ Hb) in Hpin|]. intros h Hh. by apply no_page.
  - intros f. rewrite Hcount; [apply Hb|]. intros h Hh. by apply no_page.
  - intros f. rewrite Hcount; [apply Hb|]. intros h Hh. by apply no_page.
  - intros id Hin. destruct (bal_saved _ _ _ _ Hb _ Hin) as (k & h & f & c & Hk & Hf & Hrest).
    exists k, h, f, c. rewrite lookup_delete_ne; [done|]. intros ->. congruence.
Qed.

(** *** Programs *)

(** What a program does with guards.  A page that was fetched is put into one guard,
    a name is used for one object at a time, and objects are assigned to objects of
    their class; the compiler refuses the rest, and here it does nothing. *)
Inductive op :=
  | Fetch (id : Z)
  | Construct (class : guard_class) (this : Z) (i : nat)
  | Change (this : Z) (d : D)
  | MoveTo (this that : Z)
  | Assign (this that : Z)
  | Release (this : Z)
  | Destroy (this : Z).

Record machine := mkMachine { objects : world S; raw_pages : pins }.
Definition on_objects {A} (m : M (world S) A) : M machine A := zoom objects (fun w m => mkMachine w (raw_pages m)) m.
Definition set_raw (f : pins → pins) : M machine unit := modify (fun m => mkMachine (objects m) (f (raw_pages m))).

Definition construct (class : guard_class) (this f : Z) : M (world S) bool :=
  match class with
  | BasicPageGuard => Basic_new this (Some f);; mret true
  | ReadPageGuard => Read_new this (Some f)
  | WritePageGuard => Write_new this (Some f)
  end.
Definition GetDataMut (class : guard_class) (this : Z) : M (world S) (option Z) :=
  match class with
  | BasicPageGuard => f ← Basic_GetDataMut this; mret (Some f)
  | ReadPageGuard => mret None
  | WritePageGuard => f ← Write_GetDataMut this; mret (Some f)
  end.

(** [false]: refused, no room in the pool, or the thread waits for a latch. *)
Definition run_op (o : op) : M machine bool :=
  m ← gets id;
  let gs := guards (objects m) in
  match o with
  | Fetch page_id =>
    page ← on_objects (on_pool (ps_fetch_page page_id));
    match page with Some f => set_raw (cons (page_id, f));; mret true | None => mret false end
  | Construct class this i =>
    match gs !! this, raw_pages m !! i with
    | None, Some (_, f) =>
      ok ← on_objects (construct class this f);
      if ok : bool then set_raw (delete i);; mret true else mret false
    | _, _ => mret false
    end
  | Change this d =>
    match gs !! this with
    | Some (mkGuard class _ (Some _) _) =>
      pointer ← on_objects (GetDataMut class this);
      match pointer with Some f => on_objects (on_pool (ps_set_data f d));; mret true | None => mret false end
    | _ => mret false
    end
  | MoveTo this that =>
    match gs !! this, gs !! that with None, Some _ => on_objects (move_construct this that);; mret true | _, _ => mret false end
  | Assign this that =>
    match gs !! this, gs !! that with
    | Some g, Some h => if bool_decide (class_ g = class_ h) then on_objects (move_assign this that);; mret true else mret false
    | _, _ => mret false
    end
  | Release this => match gs !! this with Some _ => on_objects (Drop this);; mret true | None => mret false end
  | Destroy this => match gs !! this with Some _ => on_objects (destroy this);; mret true | None => mret false end
  end.

Fixpoint run_ops (ops : list op) : M machine unit :=
  match ops with
  | [] => mret tt
  | o :: ops' => run_op o;; run_ops ops'
  end.

(** The pages that are fetched exist, and what is written is a page. *)
Definition op_ok a (o : op) : Prop :=
  match o with Fetch id => is_Some (ps_pages a !! id) | Change _ d => ps_ok d | _ => True end.

(** The invariant of the machine, over pages that never go away. *)
Definition machine_ok (known : gset Z) (m : machine) : Prop :=
  ∃ a, balanced (pool (objects m)) (guards (objects m)) (raw_pages m) a ∧ dom (ps_pages a) = known.

Lemma machine_intro known s gs raw a : balanced s gs raw a → dom (ps_pages a) = known → machine_ok known (mkMachine (mkWorld s gs) raw).
Proof. intros. by exists a. Qed.

Lemma Fetch_ok known m page_id : machine_ok known m → page_id ∈ known → wp (run_op (Fetch page_id)) m (fun _ m' => machine_ok known m').
Proof.
  destruct m as [[s gs] raw]. intros (a & Hb & <-) Hid. apply elem_of_dom in Hid as [d Hd]. cbn in Hb. unfold run_op.
  pose proof (bal_rep _ _ _ _ Hb) as Hrep. pose proof (fetch_latch s page_id) as Hkeep.
  wp_step. wp_step. cbn [id objects guards]. wp_step. unfold on_objects. wp_step. apply wp_on_pool.
  destruct (ps_pinned a !! page_id) as [[f c]|] eqn:Hpin.
  - pose proof (ps_fetch_pinned _ _ _ _ _ Hrep Hpin) as Hf. unfold wp in Hf |- *. destruct (ps_fetch_page page_id s) as [[o| | |] s']; try done.
    destruct Hf as [-> Hrep']. cbn in Hkeep |- *. eapply machine_intro; [eapply (balanced_fetch s)|]; [done|left; by replace (c + 1 - 1) with c by lia|done|done|done].
  - destruct (decide (size (ps_pinned a) < ps_cap a)%nat) as [Hroom|Hfull].
    + pose proof (ps_fetch_spec _ _ _ _ Hrep Hd Hpin Hroom) as Hf. unfold wp in Hf |- *. destruct (ps_fetch_page page_id s) as [[o| | |] s']; try done.
      destruct Hf as (f & -> & Hrep'). cbn in Hkeep |- *. eapply machine_intro; [eapply (balanced_fetch s)|]; [done|by right|done|done|done].
    + pose proof (bal_room _ _ _ _ Hb). assert (size (ps_pinned a) = ps_cap a) as Hsize by lia.
      eapply wp_intro; [by apply (ps_fetch_full s a page_id)|]. cbn. by eapply machine_intro.
Qed.

Lemma construct_wp s gs raw a class this i page_id f :
  balanced s gs raw a → gs !! this = None → raw !! i = Some (page_id, f) →
  wp (construct class this f) (mkWorld s gs) (fun ok w' =>
    if ok : bool then balanced (pool w') (guards w') (delete i raw) a else w' = mkWorld s gs).
Proof.
  intros Hb Hnew Hi. destruct (bal_raw _ _ _ _ Hb page_id f) as [c Hpin]; [by eapply list_elem_of_lookup_2|].
  pose proof (bal_rep _ _ _ _ Hb) as Hrep. set (g := mkGuard class true (Some f) false).
  assert (∀ h, holds h g = bool_decide (h = f)) as Hholds by (intros h; unfold holds; apply bool_decide_ext; naive_solver).
  destruct class; cbn [construct]; unfold Read_new, Write_new, Basic_new, set_guard.
  - wp_steps. cbn. apply (balanced_construct s s gs raw a this g i page_id f); try done; try (by intros ?%reads_class); try (by intros ?%writes_class).
    intros h. unfold reads, writes. rewrite !(bool_decide_false (_ = _ :> guard_class)) by done. rewrite !andb_false_r, orb_false_r, Nat.add_0_r.
    by destruct (latch_of s h).
  - wp_step. apply wp_on_pool. destruct (writer (latch_of s f)) eqn:Hw.
    + eapply wp_intro; [by eapply rlatch_waits|]. done.
    + eapply wp_mono; [by eapply rlatch_spec|]. intros ok s' (-> & Hrep' & Hl). wp_steps. cbn.
      apply (balanced_construct s s' gs raw a this g i page_id f); try done; try (by intros ?%reads_class); try (by intros ?%writes_class).
      intros h. rewrite Hl. unfold reads, writes. rewrite Hholds, (bool_decide_true (_ = ReadPageGuard)), (bool_decide_false (_ = WritePageGuard)) by done.
      rewrite andb_true_r, andb_false_r, orb_false_r. destruct (decide (h = f)) as [->|Hne].
      * rewrite bool_decide_true, Hw by done. f_equal. lia.
      * rewrite bool_decide_false, Nat.add_0_r by done. by destruct (latch_of s h).
  - wp_step. apply wp_on_pool. destruct (decide (latch_of s f = mkLatch 0 false)) as [Hfree|Hbusy].
    + eapply wp_mono; [by eapply wlatch_spec|]. intros ok s' (-> & Hrep' & Hl). wp_steps. cbn.
      apply (balanced_construct s s' gs raw a this g i page_id f); try done; try (by intros ?%reads_class); try (by intros ?%writes_class).
      intros h. rewrite Hl. unfold reads, writes. rewrite Hholds, (bool_decide_false (_ = ReadPageGuard)), (bool_decide_true (_ = WritePageGuard)) by done.
      rewrite andb_true_r, andb_false_r, Nat.add_0_r. destruct (decide (h = f)) as [->|Hne].
      * rewrite bool_decide_true, Hfree by done. done.
      * rewrite bool_decide_false, orb_false_r by done. by destruct (latch_of s h).
    + eapply wp_intro; [eapply wlatch_waits; [done|done|]|done]. destruct (latch_of s f) as [[|n] [|]]; cbn; auto.
Qed.

Lemma Construct_ok known m class this i : machine_ok known m → wp (run_op (Construct class this i)) m (fun _ m' => machine_ok known m').
Proof.
  destruct m as [[s gs] raw]. intros (a & Hb & Hk). cbn in Hb. unfold run_op. wp_step. wp_step. cbn [id objects guards raw_pages].
  destruct (gs !! this) as [g|] eqn:Hnew; [wp_step; by eapply machine_intro|].
  destruct (raw !! i) as [[page_id f]|] eqn:Hi; [|wp_step; by eapply machine_intro].
  wp_step. unfold on_objects. wp_step. eapply wp_mono; [by eapply construct_wp|]. intros [|] [s' gs'] Hw; cbn in Hw |- *.
  - by eapply machine_intro.
  - injection Hw as -> ->. by eapply machine_intro.
Qed.

Lemma Change_ok known m this d : machine_ok known m → ps_ok d → wp (run_op (Change this d)) m (fun _ m' => machine_ok known m').
Proof.
  destruct m as [[s gs] raw]. intros (a & Hb & Hk) Hd. cbn in Hb. unfold run_op. wp_step. wp_step. cbn [id objects guards].
  destruct (gs !! this) as [[class bpm [f|] dirty]|] eqn:Hg; try (wp_step; by eapply machine_intro).
  destruct (bal_held _ _ _ _ Hb _ _ _ Hg eq_refl) as (_ & page_id & c & Hpin).
  assert (∀ g', page_ g' = Some f → class_ g' = class → bpm_ g' = bpm → dirties g' = true → gs !! this = Some g' ∨ True →
    wp (ps_set_data f d) s (fun _ s' => machine_ok known (mkMachine (mkWorld s' (<[this := g']> gs)) raw))) as Hstore.
  { intros g' Ep Ec Ebpm Hdirty _. pose proof (ps_set_spec _ _ _ _ _ d (bal_rep _ _ _ _ Hb) Hpin Hd) as Hset. pose proof (write_latch s f d) as Hkeep.
    unfold wp in Hset |- *. destruct (ps_set_data f d s) as [[[]| | |] s']; try done. cbn in Hkeep.
    eapply machine_intro; [by eapply (balanced_write s)|]. rewrite <-Hk. cbn. rewrite dom_insert_L.
    destruct (ps_rep_pinned _ _ _ _ _ (bal_rep _ _ _ _ Hb) Hpin) as [_ Hin%elem_of_dom]. set_solver. }
  wp_step. unfold on_objects. wp_step. destruct class; cbn [GetDataMut].
  - unfold Basic_GetDataMut, page_of, set_guard. wp_step. wp_step. eapply wp_guard_at; [done|]. wp_steps. cbn [page_ deref]. wp_steps. cbn.
    apply wp_on_pool. apply (Hstore (mkGuard BasicPageGuard bpm (Some f) true)); auto.
  - wp_steps. by eapply machine_intro.
  - unfold Write_GetDataMut, page_of. wp_step. wp_step. eapply wp_guard_at; [done|]. cbn [page_ deref]. wp_steps. cbn.
    apply wp_on_pool. eapply wp_mono; [apply (Hstore (mkGuard WritePageGuard bpm (Some f) dirty)); auto|]. intros [] s' Hok. by rewrite insert_id in Hok.
Qed.

Lemma move_members_wp s gs raw a this that g :
  balanced s gs raw a → this ≠ that → gs !! that = Some g → (∀ g0, gs !! this = Some g0 → page_ g0 = None) →
  wp (move_members this that) (mkWorld s gs) (fun _ w' => balanced (pool w') (guards w') raw a).
Proof.
  intros Hb Hne Hg Hthis. unfold move_members, set_guard. wp_step. eapply wp_guard_at; [exact Hg|]. wp_step. wp_step. cbn [pool guards].
  wp_step. eapply wp_guard_at; [by rewrite lookup_insert_ne|]. wp_step. cbn. by apply balanced_move.
Qed.

(** Ends a step on the objects. *)
Lemma on_objects_ok known (m : M (world S) unit) s gs raw :
  wp m (mkWorld s gs) (fun _ w' => ∃ a', balanced (pool w') (guards w') raw a' ∧ dom (ps_pages a') = known) →
  wp (on_objects m;; mret true) (mkMachine (mkWorld s gs) raw) (fun _ m' => machine_ok known m').
Proof.
  intros Hm. wp_step. unfold on_objects. wp_step. eapply wp_mono; [exact Hm|]. intros [] w' (a' & Hb & Hk). wp_step. by exists a'.
Qed.

Lemma run_op_ok known m o a0 :
  machine_ok known m → known = dom (ps_pages a0) → op_ok a0 o → wp (run_op o) m (fun _ m' => machine_ok known m').
Proof.
  intros Hm -> Ho. destruct o as [page_id|class this i|this d|this that|this that|this|this].
  - apply Fetch_ok; [done|by apply elem_of_dom].
  - by apply Construct_ok.
  - by apply Change_ok.
  - destruct m as [[s gs] raw]. destruct Hm as (a & Hb & Hk). cbn in Hb. unfold run_op. wp_step. wp_step. cbn [id objects guards].
    destruct (gs !! this) eqn:Hthis; [wp_step; by eapply machine_intro|]. destruct (gs !! that) as [g|] eqn:Hthat; [|wp_step; by eapply machine_intro].
    apply on_objects_ok. eapply wp_mono; [eapply move_members_wp; [done|congruence|done|congruence]|]. intros [] w' Hw. by exists a.
  - destruct m as [[s gs] raw]. destruct Hm as (a & Hb & Hk). cbn in Hb. unfold run_op. wp_step. wp_step. cbn [id objects guards].
    destruct (gs !! this) as [g|] eqn:Hthis; [|wp_step; by eapply machine_intro]. destruct (gs !! that) as [h|] eqn:Hthat; [|wp_step; by eapply machine_intro].
    case_bool_decide as Hclass; [|wp_step; by eapply machine_intro]. apply on_objects_ok. unfold move_assign. case_bool_decide as Hne; [|wp_step; by exists a].
    wp_step. eapply wp_mono; [by eapply Drop_wp|]. intros [] [s' gs'] (g0 & g' & a' & _ & Hgs & Hnone & _ & Hb' & Hpages). cbn in Hgs, Hb'. subst gs'.
    eapply wp_mono; [eapply move_members_wp; [exact Hb'|done|by rewrite lookup_insert_ne|intros g1; rewrite lookup_insert_eq; congruence]|].
    intros [] w' Hw. exists a'. split; [done|congruence].
  - destruct m as [[s gs] raw]. destruct Hm as (a & Hb & Hk). cbn in Hb. unfold run_op. wp_step. wp_step. cbn [id objects guards].
    destruct (gs !! this) as [g|] eqn:Hthis; [|wp_step; by eapply machine_intro]. apply on_objects_ok.
    eapply wp_mono; [by eapply Drop_wp|]. intros [] w' (g0 & g' & a' & _ & _ & _ & _ & Hb' & Hpages). exists a'. split; [done|congruence].
  - destruct m as [[s gs] raw]. destruct Hm as (a & Hb & Hk). cbn in Hb. unfold run_op. wp_step. wp_step. cbn [id objects guards].
    destruct (gs !! this) as [g|] eqn:Hthis; [|wp_step; by eapply machine_intro]. apply on_objects_ok. unfold destroy. wp_step.
    eapply wp_mono; [by eapply Drop_wp|]. intros [] w' (g0 & g' & a' & _ & Hgs & Hnone & _ & Hb' & Hpages). wp_step. cbn.
    exists a'. split; [|congruence]. rewrite Hgs in Hb' |- *. eapply balanced_delete; [exact Hb'|by rewrite lookup_insert_eq|done].
Qed.

Lemma run_ops_ok known a0 ops : ∀ m, machine_ok known m → known = dom (ps_pages a0) → Forall (op_ok a0) ops → wp (run_ops ops) m (fun _ m' => machine_ok known m').
Proof.
  induction ops as [|o ops IH]; intros m Hm Hk Hops; cbn [run_ops]; [by wp_step|]. apply Forall_cons in Hops as [Ho Hops].
  wp_step. eapply wp_mono; [by eapply run_op_ok|]. intros b m' Hm'. by apply IH.
Qed.

(** C19: guards hold what they must and give back what they hold.  Whatever a program
    does with guards, from a pool without pinned pages and without taken latches: no
    operation fails; every page is pinned once for each fetch that is not in a guard
    yet and each guard that holds it; a page that a write guard holds is held by no
    other write guard and no read guard; a page with changes that the pool does not
    know of is held by a guard that will report them.  When all guards are empty and
    no fetched page is left, nothing is pinned, no latch is taken and no change is
    unknown. *)
Theorem guards_balance s a ops :
  ps_rep s a → ps_pinned a = ∅ → (∀ f, latch_of s f = mkLatch 0 false) → Forall (op_ok a) ops →
  wp (run_ops ops) (mkMachine (mkWorld s ∅) []) (fun _ m' => ∃ a',
    let gs := guards (objects m') in
    ps_rep (pool (objects m')) a' ∧
    (∀ id f c, ps_pinned a' !! id = Some (f, c) → c = (raw_count f (raw_pages m') + count (holds f) gs)%nat :> Z) ∧
    (∀ k k' g g' f, gs !! k = Some g → gs !! k' = Some g' → k ≠ k' → writes f g = true → reads f g' = false ∧ writes f g' = false) ∧
    (∀ id, id ∈ ps_unsaved a' → ∃ k g f c, gs !! k = Some g ∧ page_ g = Some f ∧ ps_pinned a' !! id = Some (f, c) ∧ dirties g = true) ∧
    (raw_pages m' = [] → (∀ k g, gs !! k = Some g → page_ g = None) →
      ps_pinned a' = ∅ ∧ ps_unsaved a' = ∅ ∧ ∀ f, latch_of (pool (objects m')) f = mkLatch 0 false)).
Proof.
  intros Hrep Hpinned Hlatch Hops. eapply wp_mono; [apply (run_ops_ok (dom (ps_pages a)) a); [|done|done]|].
  - apply (machine_intro _ s ∅ [] a); [|done].
    split; try done.
    + rewrite Hpinned, map_size_empty. lia.
    + intros id f Hin. by apply elem_of_nil in Hin.
    + intros id f c Hpin. by rewrite Hpinned, lookup_empty in Hpin.
    + intros f. by rewrite Hlatch.
    + intros f. by rewrite Hlatch.
    + intros f. by rewrite Hlatch.
    + intros id [[f c] Hpin]%(ps_rep_unsaved s a id Hrep). by rewrite Hpinned, lookup_empty in Hpin.
  - intros [] [[s' gs] raw] (a' & Hb & _). exists a'. cbn in Hb |- *. split_and!.
    + apply Hb.
    + apply Hb.
    + intros k k' g g' f Hk Hk' Hne Hw. pose proof (bal_writer _ _ _ _ Hb f) as Hcw. pose proof (count_pos (writes f) gs k g Hk Hw) as Hpos.
      destruct (writer (latch_of s' f)) eqn:Hwr; [|lia]. pose proof (bal_readers _ _ _ _ Hb f) as Hcr. rewrite (bal_excl _ _ _ _ Hb f Hwr) in Hcr. split.
      * by apply (count_zero _ gs k').
      * destruct (writes f g') eqn:Hw'; [|done]. pose proof (count_two (writes f) gs k g k' g' Hk Hk' Hne Hw Hw'). lia.
    + apply Hb.
    + intros -> Hempty.
      assert (∀ P : PageGuard → bool, (∀ h, page_ h = None → P h = false) → count P gs = 0%nat) as Hzero.
      { intros P HP. apply count_none. intros k g Hk. by eapply HP, Hempty. }
      assert (ps_pinned a' = ∅) as Hnone.
      { apply map_empty. intros id. destruct (ps_pinned a' !! id) as [[f c]|] eqn:Hpin; [|done].
        pose proof (bal_pins _ _ _ _ Hb _ _ _ Hpin) as Hc. rewrite (Hzero (holds f)) in Hc by (intros; by apply no_page). cbn in Hc.
        destruct (ps_rep_pinned _ _ _ _ _ (bal_rep _ _ _ _ Hb) Hpin). lia. }
      split; [done|]. split.
      * apply set_eq. intros id. split; [|set_solver]. intros [[f c] Hpin]%(ps_rep_unsaved s' a' id (bal_rep _ _ _ _ Hb)). by rewrite Hnone, lookup_empty in Hpin.
      * intros f. pose proof (bal_readers _ _ _ _ Hb f) as Hcr. pose proof (bal_writer _ _ _ _ Hb f) as Hcw.
        rewrite Hzero in Hcr by (intros; by apply no_page). rewrite Hzero in Hcw by (intros; by apply no_page).
        destruct (latch_of s' f) as [n [|]]; cbn in *; [done|]. by rewrite Hcr.
Qed.
End client.

(** ** One page, written through a guard that moves *)
Lemma wp_both {S A} (m : M S A) s (P Q : A → S → Prop) : wp m s P → wp m s Q → wp m s (fun x s' => P x s' ∧ Q x s').
Proof. unfold wp. destruct (m s) as [[x| | |] s']; tauto. Qed.

Lemma free_latches {K D} (s : BufferPoolManager K D) : Forall (.= mkLatch 0 false) (latch_list s) → ∀ f, pool_latch s f = mkLatch 0 false.
Proof.
  intros Hall f. unfold pool_latch. destruct (frame s f) as [p|] eqn:Hp; [|done]. unfold frame in Hp. case_bool_decide; [|done].
  rewrite Forall_forall in Hall. apply Hall. apply list_elem_of_fmap_2. by eapply list_elem_of_lookup_2.
Qed.

Definition one_page : BufferPoolManager DiskManager (list byte) := ((NewPage;; UnpinPage 0 true) small_pool).2.

Lemma one_page_rep : ∃ a, pool_rep None one_page a ∧ ps_pinned a = ∅ ∧ is_Some (ps_pages a !! 0).
Proof.
  assert (wp (NewPage;; UnpinPage 0 true) small_pool (fun _ s => ∃ a, pool_rep None s a ∧ ps_pinned a = ∅ ∧ is_Some (ps_pages a !! 0))) as Hwp.
  { wp_step. eapply wp_mono; [apply NewPage_wp; [exact small_rep|by vm_compute|vm_compute; lia]|]. intros o s0 (f & -> & Hrep0).
    eapply wp_mono; [eapply UnpinPage_wp; [exact Hrep0|apply lookup_insert_eq|by left]|]. intros b s [-> Hrep].
    eexists. split; [exact Hrep|]. by split. }
  destruct (wp_elim _ _ _ Hwp) as (b & s & Hrun & Hs). unfold one_page. by rewrite Hrun.
Qed.

Definition demo_program : list (op (D := list byte)) :=
  [Fetch 0; Construct WritePageGuard 1 0; Change 1 (replicate 4096 Byte.x01); MoveTo 2 1; Destroy 1; Fetch 0; Construct ReadPageGuard 3 0;
   Destroy 2; Construct ReadPageGuard 3 0; Destroy 3].

Example guards_balance_witness :
  wp (run_ops demo_program) (mkMachine (mkWorld one_page ∅) []) (fun _ m' =>
    guards (objects m') = ∅ ∧ ∃ a', pool_rep None (pool (objects m')) a' ∧ ps_pinned a' = ∅ ∧ ps_unsaved a' = ∅).
Proof.
  destruct one_page_rep as (a & Hrep & Hpinned & Hpage).
  assert (wp (run_ops demo_program) (mkMachine (mkWorld one_page ∅) []) (fun _ m' => bool_decide (guards (objects m') = ∅ ∧ raw_pages m' = []) = true)) as Hend
    by (vm_compute; reflexivity).
  eapply wp_mono; [apply wp_both; [exact Hend|eapply guards_balance; [exact Hrep|done| |]]|].
  - apply free_latches. assert (latch_list one_page = [mkLatch 0 false]) as -> by (vm_compute; reflexivity). by repeat constructor.
  - unfold demo_program. repeat (apply Forall_cons; split; [by cbn|]). by apply Forall_nil.
  - clear Hend. intros [] m' [[Hgs Hraw]%bool_decide_eq_true (a' & Hrep' & _ & _ & _ & Hempty)]. split; [done|].
    destruct (Hempty Hraw) as (? & ? & _); [|by exists a']. intros k g Hk. by rewrite Hgs, lookup_empty in Hk.
Defined.
