(* ===== verification/Value.v ===== *)
(** * Types and values

    Models [src/type/value.cpp] and [type.cpp].  The union of a [Value] is its
    32-bit pattern: an [int32_t] is read from it by sign extension, a [float] by
    decoding the IEEE 754 binary32 format into [SpecFloat], a [bool] from its low
    byte.  Where the code would leave the upper bytes of the union undetermined
    (the [bool] constructor) they are zero; no method reads them.  Printing of
    floats is a call to the fmt library, a parameter. *)
From stdpp Require Import pretty.
From Stdlib Require Import Floats.SpecFloat.
From coqutil Require Import Byte Word.LittleEndianList.
From S2P Require Import Prelude Bytes.

#[local] Open Scope Z_scope.
#[local] Coercion Z.of_nat : nat >-> Z.

(** ** Types *)
Inductive TypeId : Set := INVALID | BOOLEAN | INTEGER | FLOAT | VARCHAR.

#[export] Instance TypeId_eq_dec : EqDecision TypeId.
Proof. solve_decision. Defined.

(** [Type::GetTypeSize]; a [TypeId] outside the enumeration does not arise. *)
Definition GetTypeSize (type : TypeId) : outcome Z :=
  match type with
  | BOOLEAN => Ret 1
  | INTEGER => Ret 4
  | FLOAT => Ret 4
  | VARCHAR => Ret 0
  | INVALID => UNREACHABLE "Unknown type"
  end.

Definition TypeIdToString (type : TypeId) : string :=
  match type with
  | INVALID => "INVALID"
  | BOOLEAN => "BOOLEAN"
  | INTEGER => "INTEGER"
  | FLOAT => "FLOAT"
  | VARCHAR => "VARCHAR"
  end.

Definition IsCoercableTo (from to : TypeId) : bool :=
  if decide (from = to) then true
  else if decide (from = INTEGER ∧ to = FLOAT) then true
  else false.

(** ** Floats *)
Definition float_prec : Z := 24.
Definition float_emax : Z := 128.

Definition float_of_bits (b : Z) : spec_float :=
  let s := Z.testbit b 31 in
  let e := Z.land (Z.shiftr b 23) 255 in
  let m := Z.land b 8388607 in
  if bool_decide (e = 255) then (if bool_decide (m = 0) then S754_infinity s else S754_nan)
  else if bool_decide (e = 0) then
    match m with Zpos p => S754_finite s p (-149) | _ => S754_zero s end
  else match m + 8388608 with Zpos p => S754_finite s p (e - 150) | _ => S754_nan end.

(** A NaN is given the default quiet pattern: the standard leaves it open. *)
Definition bits_of_float (f : spec_float) : Z :=
  let sign (s : bool) := if s then 2147483648 else 0 in
  match f with
  | S754_zero s => sign s
  | S754_infinity s => sign s + 2139095040
  | S754_nan => 2143289344
  | S754_finite s m e =>
    if bool_decide (Zpos m < 8388608) then sign s + Zpos m
    else sign s + (e + 150) * 8388608 + (Zpos m - 8388608)
  end.

Definition float_lt (x y : spec_float) : bool := SFltb x y.
Definition float_le (x y : spec_float) : bool := SFleb x y.
Definition float_eq (x y : spec_float) : bool := SFeqb x y.
Definition float_gt (x y : spec_float) : bool :=
  match SFcompare x y with Some Gt => true | _ => false end.
Definition float_ge (x y : spec_float) : bool :=
  match SFcompare x y with Some Gt | Some Eq => true | _ => false end.

(** ** Values *)
Record Value := mkValue {
  type_id_ : TypeId;
  union_ : Z;
  varchar_ : string;
  is_null_ : bool;
}.

#[export] Instance Value_eq_dec : EqDecision Value.
Proof. solve_decision. Defined.

Definition integer_ (v : Value) : Z := wraps 32 (union_ v).
Definition float_ (v : Value) : spec_float := float_of_bits (union_ v).
Definition boolean_ (v : Value) : bool := negb (bool_decide (wrapu 8 (union_ v) = 0)).

(** The constructors, one per overload. *)
Definition Value_default : Value := mkValue INVALID 0 "" true.
Definition Value_null (type : TypeId) : Value := mkValue type 0 "" true.
Definition Value_int (type : TypeId) (i : Z) : Value := mkValue type (wrapu 32 i) "" false.
Definition Value_float (type : TypeId) (f : spec_float) : Value := mkValue type (bits_of_float f) "" false.
Definition Value_bool (type : TypeId) (b : bool) : Value := mkValue type (Z.b2z b) "" false.
Definition Value_string (type : TypeId) (s : string) : Value := mkValue type 0 s false.

Definition IsNull (v : Value) : bool := is_null_ v.

Definition GetAsInteger (v : Value) : outcome Z :=
  ONEBASE_ASSERT (bool_decide (type_id_ v = INTEGER)) "Value is not an integer";; mret (integer_ v).
Definition GetAsFloat (v : Value) : outcome spec_float :=
  ONEBASE_ASSERT (bool_decide (type_id_ v = FLOAT)) "Value is not a float";; mret (float_ v).
Definition GetAsBoolean (v : Value) : outcome bool :=
  ONEBASE_ASSERT (bool_decide (type_id_ v = BOOLEAN)) "Value is not a boolean";; mret (boolean_ v).
Definition GetAsString (v : Value) : outcome string :=
  ONEBASE_ASSERT (bool_decide (type_id_ v = VARCHAR)) "Value is not a varchar";; mret (varchar_ v).

(** ** Comparison

    The members compared do not depend on [is_null_]: a NULL of a type compares
    as its zero. *)
Definition same_type (v o : Value) (msg : string) : outcome unit :=
  ONEBASE_ASSERT (bool_decide (type_id_ v = type_id_ o)) msg.
(** [std::string] compares its characters as unsigned bytes. *)
Definition string_ltb (x y : string) : bool :=
  match String.compare x y with Lt => true | _ => false end.
Definition string_leb (x y : string) : bool :=
  match String.compare x y with Gt => false | _ => true end.

Definition CompareLessThan (v o : Value) : outcome Value :=
  same_type v o "Type mismatch in comparison";;
  match type_id_ v with
  | INTEGER => mret (Value_bool BOOLEAN (integer_ v <? integer_ o))
  | FLOAT => mret (Value_bool BOOLEAN (float_lt (float_ v) (float_ o)))
  | VARCHAR => mret (Value_bool BOOLEAN (string_ltb (varchar_ v) (varchar_ o)))
  | _ => UNREACHABLE "Unsupported type for comparison"
  end.

Definition CompareGreaterThan (v o : Value) : outcome Value :=
  same_type v o "Type mismatch in comparison";;
  match type_id_ v with
  | INTEGER => mret (Value_bool BOOLEAN (integer_ o <? integer_ v))
  | FLOAT => mret (Value_bool BOOLEAN (float_gt (float_ v) (float_ o)))
  | VARCHAR => mret (Value_bool BOOLEAN (string_ltb (varchar_ o) (varchar_ v)))
  | _ => UNREACHABLE "Unsupported type for comparison"
  end.

Definition CompareLessThanOrEqual (v o : Value) : outcome Value :=
  same_type v o "Type mismatch in comparison";;
  match type_id_ v with
  | INTEGER => mret (Value_bool BOOLEAN (integer_ v <=? integer_ o))
  | FLOAT => mret (Value_bool BOOLEAN (float_le (float_ v) (float_ o)))
  | VARCHAR => mret (Value_bool BOOLEAN (string_leb (varchar_ v) (varchar_ o)))
  | _ => UNREACHABLE "Unsupported type for comparison"
  end.

Definition CompareGreaterThanOrEqual (v o : Value) : outcome Value :=
  same_type v o "Type mismatch in comparison";;
  match type_id_ v with
  | INTEGER => mret (Value_bool BOOLEAN (integer_ o <=? integer_ v))
  | FLOAT => mret (Value_bool BOOLEAN (float_ge (float_ v) (float_ o)))
  | VARCHAR => mret (Value_bool BOOLEAN (string_leb (varchar_ o) (varchar_ v)))
  | _ => UNREACHABLE "Unsupported type for comparison"
  end.

Definition CompareEquals (v o : Value) : outcome Value :=
  same_type v o "Type mismatch in comparison";;
  match type_id_ v with
  | INTEGER => mret (Value_bool BOOLEAN (integer_ v =? integer_ o))
  | FLOAT => mret (Value_bool BOOLEAN (float_eq (float_ v) (float_ o)))
  | BOOLEAN => mret (Value_bool BOOLEAN (Bool.eqb (boolean_ v) (boolean_ o)))
  | VARCHAR => mret (Value_bool BOOLEAN (String.eqb (varchar_ v) (varchar_ o)))
  | INVALID => UNREACHABLE "Unsupported type for comparison"
  end.

Definition CompareNotEquals (v o : Value) : outcome Value :=
  same_type v o "Type mismatch in comparison";;
  match type_id_ v with
  | INTEGER => mret (Value_bool BOOLEAN (negb (integer_ v =? integer_ o)))
  | FLOAT => mret (Value_bool BOOLEAN (negb (float_eq (float_ v) (float_ o))))
  | BOOLEAN => mret (Value_bool BOOLEAN (negb (Bool.eqb (boolean_ v) (boolean_ o))))
  | VARCHAR => mret (Value_bool BOOLEAN (negb (String.eqb (varchar_ v) (varchar_ o))))
  | INVALID => UNREACHABLE "Unsupported type for comparison"
  end.

(** ** Arithmetic

    Integer overflow, and [INT32_MIN / -1], are undefined behaviour. *)
Definition Add (v o : Value) : outcome Value :=
  same_type v o "Type mismatch in arithmetic";;
  match type_id_ v with
  | INTEGER => i ← int32_op (integer_ v + integer_ o); mret (Value_int INTEGER i)
  | FLOAT => mret (Value_float FLOAT (SFadd float_prec float_emax (float_ v) (float_ o)))
  | _ => UNREACHABLE "Unsupported type for addition"
  end.

Definition Subtract (v o : Value) : outcome Value :=
  same_type v o "Type mismatch in arithmetic";;
  match type_id_ v with
  | INTEGER => i ← int32_op (integer_ v - integer_ o); mret (Value_int INTEGER i)
  | FLOAT => mret (Value_float FLOAT (SFsub float_prec float_emax (float_ v) (float_ o)))
  | _ => UNREACHABLE "Unsupported type for subtraction"
  end.

Definition Multiply (v o : Value) : outcome Value :=
  same_type v o "Type mismatch in arithmetic";;
  match type_id_ v with
  | INTEGER => i ← int32_op (integer_ v * integer_ o); mret (Value_int INTEGER i)
  | FLOAT => mret (Value_float FLOAT (SFmul float_prec float_emax (float_ v) (float_ o)))
  | _ => UNREACHABLE "Unsupported type for multiplication"
  end.

Definition Divide (v o : Value) : outcome Value :=
  same_type v o "Type mismatch in arithmetic";;
  match type_id_ v with
  | INTEGER =>
    ONEBASE_ASSERT (negb (integer_ o =? 0)) "Division by zero";;
    i ← int32_op (Z.quot (integer_ v) (integer_ o)); mret (Value_int INTEGER i)
  | FLOAT =>
    ONEBASE_ASSERT (negb (float_eq (float_ o) (S754_zero false))) "Division by zero";;
    mret (Value_float FLOAT (SFdiv float_prec float_emax (float_ v) (float_ o)))
  | _ => UNREACHABLE "Unsupported type for division"
  end.

Definition Modulo (v o : Value) : outcome Value :=
  same_type v o "Type mismatch in arithmetic";;
  match type_id_ v with
  | INTEGER =>
    ONEBASE_ASSERT (negb (integer_ o =? 0)) "Modulo by zero";;
    int32_op (Z.quot (integer_ v) (integer_ o));;
    mret (Value_int INTEGER (Z.rem (integer_ v) (integer_ o)))
  | _ => UNREACHABLE "Unsupported type for modulo"
  end.

(** ** Logic *)
Definition And (v o : Value) : outcome Value :=
  ONEBASE_ASSERT (bool_decide (type_id_ v = BOOLEAN) && bool_decide (type_id_ o = BOOLEAN)) "AND requires boolean";;
  mret (Value_bool BOOLEAN (boolean_ v && boolean_ o)).
Definition Or (v o : Value) : outcome Value :=
  ONEBASE_ASSERT (bool_decide (type_id_ v = BOOLEAN) && bool_decide (type_id_ o = BOOLEAN)) "OR requires boolean";;
  mret (Value_bool BOOLEAN (boolean_ v || boolean_ o)).
Definition Not (v : Value) : outcome Value :=
  ONEBASE_ASSERT (bool_decide (type_id_ v = BOOLEAN)) "NOT requires boolean";;
  mret (Value_bool BOOLEAN (negb (boolean_ v))).

(** ** Serialization *)

(** [varchar_.size()] and [varchar_.data()]. *)
Definition string_bytes (s : string) : list byte := String.list_byte_of_string s.

(** The bytes that [SerializeTo] stores. *)
Definition SerializeTo (v : Value) : outcome (list byte) :=
  match type_id_ v with
  | BOOLEAN => mret (le_split 1 (Z.b2z (boolean_ v)))
  | INTEGER => mret (le_split 4 (union_ v))
  | FLOAT => mret (le_split 4 (union_ v))
  | VARCHAR =>
    let len := wrapu 32 (length (string_bytes (varchar_ v))) in
    mret (le_split 4 len ++ take (Z.to_nat len) (string_bytes (varchar_ v)))
  | INVALID => UNREACHABLE "Unsupported type for serialization"
  end.

(** Reads at [storage = d + off].  A [bool] whose byte is neither 0 nor 1 has no
    value. *)
Definition DeserializeFrom (d : list byte) (off : Z) (type : TypeId) : outcome Value :=
  match type with
  | BOOLEAN =>
    b ← load_u 1 off d;
    if bool_decide (b = 0) then mret (Value_bool type false)
    else if bool_decide (b = 1) then mret (Value_bool type true) else Undef
  | INTEGER => i ← load_s 4 off d; mret (Value_int type i)
  | FLOAT => b ← load_u 4 off d; mret (mkValue type b "" false)
  | VARCHAR =>
    len ← load_u 4 off d;
    bs ← mem_read (off + 4) len d;
    mret (Value_string type (String.string_of_list_byte bs))
  | INVALID => UNREACHABLE "Unsupported type for deserialization"
  end.

Definition GetSerializedSize (v : Value) : outcome Z :=
  match type_id_ v with
  | BOOLEAN => mret 1
  | INTEGER => mret 4
  | FLOAT => mret 4
  | VARCHAR => mret (wrapu 32 (4 + wrapu 32 (length (string_bytes (varchar_ v)))))
  | INVALID => UNREACHABLE "Unsupported type for GetSerializedSize"
  end.

(** ** Printing *)

(** [fmt::format("{:.2f}", f)]. *)
Class FloatFormat := format_float : spec_float → string.

Definition ToString `{FloatFormat} (v : Value) : string :=
  if is_null_ v then "NULL"
  else match type_id_ v with
  | BOOLEAN => if boolean_ v then "true" else "false"
  | INTEGER => pretty (integer_ v)
  | FLOAT => format_float (float_ v)
  | VARCHAR => varchar_ v
  | INVALID => "<INVALID>"
  end.

(** ** Well-formed values *)
Definition value_in_range (v : Value) : Prop := 0 ≤ union_ v < 2 ^ 32.

(** What the constructors build. *)
Definition value_ok (v : Value) : Prop :=
  match type_id_ v with
  | BOOLEAN => (union_ v = 0 ∨ union_ v = 1) ∧ varchar_ v = ""
  | INTEGER | FLOAT => value_in_range v ∧ varchar_ v = ""
  | VARCHAR => union_ v = 0 ∧ length (string_bytes (varchar_ v)) + 4 < 2 ^ 32
  | INVALID => False
  end.

(** The value without its NULL flag, which is not serialized. *)
Definition not_null (v : Value) : Value := mkValue (type_id_ v) (union_ v) (varchar_ v) false.

Lemma integer_Value_int t i : in_int32 i = true → integer_ (Value_int t i) = i.
Proof.
  intros Hi. unfold integer_, Value_int, wrapu. cbn [union_]. rewrite wraps_mod by lia. by apply wraps_small.
Qed.

Lemma boolean_Value_bool t b : boolean_ (Value_bool t b) = b.
Proof. by destruct b. Qed.

Lemma wrapu_wraps z : 0 ≤ z < 2 ^ 32 → wrapu 32 (wraps 32 z) = z.
Proof.
  intros Hz. unfold wrapu, wraps. rewrite Zminus_mod_idemp_l.
  replace (z + 2 ^ (32 - 1) - 2 ^ (32 - 1)) with z by lia. by apply Z.mod_small.
Qed.

Lemma in_int32_wraps z : in_int32 (wraps 32 z) = true.
Proof.
  apply in_int32_iff. unfold wraps, INT32_MIN, INT32_MAX.
  change (2 ^ (32 - 1)) with 2147483648. change (2 ^ 32) with 4294967296.
  pose proof (Z.mod_pos_bound (z + 2147483648) 4294967296). lia.
Qed.

Lemma integer_in_range v : in_int32 (integer_ v) = true.
Proof. apply in_int32_wraps. Qed.

(** ** Round trip *)
Lemma load_u_written n off v d d' bs :
  mem_write off (le_split n v ++ bs) d = Ret d' → load_u n off d' = Ret (v `mod` 2 ^ (8 * n)).
Proof.
  intros Hw. apply mem_read_write_same in Hw as Hr. unfold load_u.
  assert (mem_read off n d' = Ret (le_split n v)) as ->.
  { apply mem_read_Ret in Hr as (H1 & _ & H3 & H4). rewrite length_app, length_le_split in H3, H4.
    apply mem_read_Ret. split_and!; [lia..|].
    assert (take n (le_split n v ++ bs) = take n (take (Z.to_nat (n + length bs)%nat) (drop (Z.to_nat off) d'))) as Ht
      by (rewrite <-H4; done).
    rewrite take_app_length', take_take in Ht by (symmetry; apply length_le_split).
    rewrite Ht, Nat2Z.id. f_equal. lia. }
  cbn. rewrite le_combine_split. do 3 f_equal. lia.
Qed.

Lemma mem_read_written_tail n off v d d' bs :
  mem_write off (le_split n v ++ bs) d = Ret d' → mem_read (off + n) (length bs) d' = Ret bs.
Proof.
  intros (Ho & Hl & ->)%mem_write_Ret. rewrite length_app, length_le_split in Hl |- *.
  apply mem_read_Ret. rewrite !length_app, length_take, length_drop, length_le_split. split_and!; [lia..|].
  rewrite <-!app_assoc, Nat2Z.id, app_assoc.
  rewrite drop_app_length' by (rewrite length_app, length_take, length_le_split; lia).
  by rewrite take_app_length.
Qed.

(** What [SerializeTo] stores has the size that [GetSerializedSize] announces, and
    [DeserializeFrom] reads the same value back from any place in memory where it
    was stored; a NULL comes back as the zero of its type. *)
Lemma serialized_value v :
  value_ok v →
  ∃ bs, SerializeTo v = Ret bs ∧ GetSerializedSize v = Ret (Z.of_nat (length bs)) ∧
    ∀ d off d', mem_write off bs d = Ret d' → DeserializeFrom d' off (type_id_ v) = Ret (not_null v).
Proof.
  destruct v as [[] u s n]; unfold not_null, value_ok; cbn [type_id_ union_ varchar_ is_null_]; intros Hv;
    unfold SerializeTo, GetSerializedSize, DeserializeFrom; cbn [type_id_ union_ varchar_]; [done|..].
  - destruct Hv as [Hu ->]. eexists. split; [done|]. rewrite length_le_split. split; [done|]. intros d off d' Hw.
    rewrite (load_u_store_same _ _ _ _ _ Hw). by destruct Hu as [-> | ->].
  - destruct Hv as [Hu ->]. eexists. split; [done|]. rewrite length_le_split. split; [done|]. intros d off d' Hw.
    unfold load_s. rewrite (load_u_store_same _ _ _ _ _ Hw). cbn [mbind outcome_bind]. unfold mret, outcome_ret, Value_int.
    rewrite wraps_mod by lia. change (8 * Z.of_nat 4) with 32. cbn [mbind outcome_bind]. by rewrite wrapu_wraps.
  - destruct Hv as [Hu ->]. eexists. split; [done|]. rewrite length_le_split. split; [done|]. intros d off d' Hw.
    rewrite (load_u_store_same _ _ _ _ _ Hw). cbn [mbind outcome_bind]. by rewrite Z.mod_small.
  - destruct Hv as [-> Hl]. rewrite (wrapu_small 32 (length (string_bytes s))) by lia.
    rewrite Nat2Z.id, take_ge by done. eexists. split; [done|].
    rewrite length_app, length_le_split. split; [f_equal; rewrite wrapu_small; lia|]. intros d off d' Hw.
    rewrite (load_u_written _ _ _ _ _ _ Hw), Z.mod_small by (change (8 * Z.of_nat 4) with 32; lia). cbn [mbind outcome_bind].
    apply mem_read_written_tail in Hw. change (Z.of_nat 4) with 4 in Hw. rewrite Hw. cbn [mbind outcome_bind].
    by rewrite String.string_of_list_byte_of_string.
Qed.

(** ** Comparison *)

(** The order of two values of one type; NaN has none. *)
Definition value_order (v o : Value) : option comparison :=
  if bool_decide (type_id_ v = type_id_ o) then
    match type_id_ v with
    | INTEGER => Some (integer_ v ?= integer_ o)
    | FLOAT => SFcompare (float_ v) (float_ o)
    | VARCHAR => Some (String.compare (varchar_ v) (varchar_ o))
    | _ => None
    end
  else None.

Lemma string_eqb_compare x y :
  String.eqb x y = match String.compare x y with Eq => true | _ => false end.
Proof.
  destruct (String.eqb_spec x y) as [->|Hne].
  - pose proof (String.compare_antisym y y). by destruct (String.compare y y).
  - destruct (String.compare x y) eqn:Hc; [|done..]. by apply String.compare_eq_iff in Hc.
Qed.

(** C32: the six comparison operators on two integers, floats that are not NaN, or
    strings, agree with one three-way order. *)
Theorem comparison_coherent v o c :
  value_order v o = Some c →
  let ans (b : bool) := Ret (Value_bool BOOLEAN b) in
  CompareLessThan v o = ans (bool_decide (c = Lt)) ∧ CompareEquals v o = ans (bool_decide (c = Eq)) ∧
  CompareGreaterThan v o = ans (bool_decide (c = Gt)) ∧ CompareLessThanOrEqual v o = ans (bool_decide (c ≠ Gt)) ∧
  CompareGreaterThanOrEqual v o = ans (bool_decide (c ≠ Lt)) ∧ CompareNotEquals v o = ans (bool_decide (c ≠ Eq)).
Proof.
  unfold value_order. case_bool_decide as Ht; [|done].
  unfold CompareLessThan, CompareEquals, CompareGreaterThan, CompareLessThanOrEqual, CompareGreaterThanOrEqual,
    CompareNotEquals, same_type. rewrite bool_decide_true by done. cbn -[string_ltb string_leb String.eqb Z.ltb Z.leb Z.eqb].
  destruct (type_id_ v); try done; intros Hc.
  - injection Hc as <-. destruct (Z.compare_spec (integer_ v) (integer_ o));
      repeat match goal with |- context [(?x <? ?y)%Z] => destruct (Z.ltb_spec x y)
        | |- context [(?x <=? ?y)%Z] => destruct (Z.leb_spec x y)
        | |- context [(?x =? ?y)%Z] => destruct (Z.eqb_spec x y) end; try lia; done.
  - unfold float_lt, float_eq, float_gt, float_le, float_ge, SFltb, SFleb, SFeqb. rewrite Hc. by destruct c.
  - injection Hc as Hc. pose proof (String.compare_antisym (varchar_ o) (varchar_ v)) as Ha.
    pose proof (string_eqb_compare (varchar_ v) (varchar_ o)) as He. unfold string_ltb, string_leb.
    rewrite He, Ha, Hc. by destruct c.
Qed.

Example comparison_coherent_witness :
  CompareLessThan (Value_string VARCHAR "ab") (Value_string VARCHAR "b") = Ret (Value_bool BOOLEAN true).
Proof.
  apply (comparison_coherent (Value_string VARCHAR "ab") (Value_string VARCHAR "b") Lt). reflexivity.
Defined.

(** ** Integer division *)

(** On integers [Divide] and [Modulo] throw for a zero divisor, have
    undefined behaviour for [INT32_MIN / -1], and otherwise give the quotient and
    the remainder of truncating division. *)
Theorem integer_division v o :
  type_id_ v = INTEGER → type_id_ o = INTEGER →
  let a := integer_ v in let b := integer_ o in
  (b = 0 ∧ Divide v o = Throw (LogicError "Division by zero") ∧ Modulo v o = Throw (LogicError "Modulo by zero")) ∨
  (a = INT32_MIN ∧ b = -1 ∧ Divide v o = Undef ∧ Modulo v o = Undef) ∨
  ∃ q r, Divide v o = Ret q ∧ Modulo v o = Ret r ∧ a = b * integer_ q + integer_ r ∧
    Z.abs (integer_ r) < Z.abs b ∧ 0 ≤ integer_ r * a.
Proof.
  intros Hv Ho a b. unfold Divide, Modulo, same_type. rewrite Hv, Ho. cbn [mbind outcome_bind].
  rewrite bool_decide_true by done. cbn [ONEBASE_ASSERT mbind outcome_bind]. fold a b.
  pose proof (integer_in_range v) as Ha%in_int32_iff. pose proof (integer_in_range o) as Hb%in_int32_iff. fold a in Ha. fold b in Hb.
  destruct (Z.eqb_spec b 0) as [Hz|Hz]; cbn [negb ONEBASE_ASSERT mbind outcome_bind]; [by left|]. right.
  unfold int32_op. destruct (in_int32 (Z.quot a b)) eqn:Hq; cbn [mbind outcome_bind].
  - right. do 2 eexists. split; [done|]. split; [done|].
    assert (Z.abs (Z.rem a b) < Z.abs b) as Hr by (by apply Z.rem_bound_abs).
    rewrite !integer_Value_int; [|apply in_int32_iff; unfold INT32_MIN, INT32_MAX in *; lia|done].
    split_and!; [by apply Z.quot_rem'|done|by apply Z.rem_sign_mul].
  - left. assert (¬ (INT32_MIN ≤ Z.quot a b ≤ INT32_MAX)) as Hn by (rewrite <-in_int32_iff, Hq; done).
    assert (Z.abs (Z.quot a b) ≤ Z.abs a) as Habs.
    { rewrite <-Z.quot_abs by done. apply Z.quot_le_upper_bound; lia || nia. }
    assert (Z.quot a b = 2147483648) as Hquot by (unfold INT32_MIN, INT32_MAX in *; lia).
    assert (a = INT32_MIN) as Ea by (unfold INT32_MIN, INT32_MAX in *; lia). rewrite Ea in *.
    split; [done|]. split; [|done]. pose proof (Z.quot_rem' INT32_MIN b) as Hqr. rewrite Hquot in Hqr.
    pose proof (Z.rem_bound_abs INT32_MIN b Hz). unfold INT32_MIN in *. lia.
Qed.

Example integer_division_witness :
  (integer_ (Value_int INTEGER (-1)) = 0 ∧ Divide (Value_int INTEGER INT32_MIN) (Value_int INTEGER (-1)) = Throw (LogicError "Division by zero") ∧
     Modulo (Value_int INTEGER INT32_MIN) (Value_int INTEGER (-1)) = Throw (LogicError "Modulo by zero")) ∨
  (integer_ (Value_int INTEGER INT32_MIN) = INT32_MIN ∧ integer_ (Value_int INTEGER (-1)) = -1 ∧
     Divide (Value_int INTEGER INT32_MIN) (Value_int INTEGER (-1)) = Undef ∧
     Modulo (Value_int INTEGER INT32_MIN) (Value_int INTEGER (-1)) = Undef) ∨
  ∃ q r, Divide (Value_int INTEGER INT32_MIN) (Value_int INTEGER (-1)) = Ret q ∧
    Modulo (Value_int INTEGER INT32_MIN) (Value_int INTEGER (-1)) = Ret r ∧
    integer_ (Value_int INTEGER INT32_MIN) = integer_ (Value_int INTEGER (-1)) * integer_ q + integer_ r ∧
    Z.abs (integer_ r) < Z.abs (integer_ (Value_int INTEGER (-1))) ∧
    0 ≤ integer_ r * integer_ (Value_int INTEGER INT32_MIN).
Proof. exact (integer_division (Value_int INTEGER INT32_MIN) (Value_int INTEGER (-1)) eq_refl eq_refl). Defined.
