(* ===== verification/Tuple.v ===== *)
(** * Columns, schemas and tuples

    Models [src/include/onebase/catalog/column.h] and [schema.h], [common/rid.h]
    and [src/storage/table/tuple.cpp].  A tuple holds its bytes, and its values
    when it was made from values; a tuple that comes from a page has bytes only,
    and its values are read with the offsets of the schema. *)
From coqutil Require Import Byte Word.LittleEndianList.
From S2P Require Import Prelude Bytes Value.

#[local] Open Scope Z_scope.
#[local] Coercion Z.of_nat : nat >-> Z.

(** ** Record identifiers *)
Record RID := mkRID { page_id_of : Z; slot_num_of : Z }.

#[export] Instance RID_eq_dec : EqDecision RID.
Proof. solve_decision. Defined.

Definition RID_default : RID := mkRID (-1) 0.

(** ** Columns *)
Record Column := mkColumn {
  name_ : string;
  type_ : TypeId;
  length_ : Z;
  fixed_length_ : Z;
  variable_length_ : Z;
  offset_ : Z;
}.

Definition GetFixedLengthFor (type : TypeId) : Z :=
  match type with BOOLEAN => 1 | INTEGER => 4 | FLOAT => 8 | _ => 0 end.

Definition Column_new (name : string) (type : TypeId) (length : Z) : Column :=
  match type with
  | VARCHAR =>
    let length := if bool_decide (length = 0) then 256 else length in
    mkColumn name type length 4 length 0
  | _ => mkColumn name type length (GetFixedLengthFor type) 0 0
  end.

Definition SetOffset (offset : Z) (c : Column) : Column :=
  mkColumn (name_ c) (type_ c) (length_ c) (fixed_length_ c) (variable_length_ c) offset.

Definition IsInlined (c : Column) : bool := negb (bool_decide (type_ c = VARCHAR)).

Definition Column_TypeIdToString (type : TypeId) : string :=
  match type with
  | BOOLEAN => "BOOLEAN" | INTEGER => "INTEGER" | FLOAT => "FLOAT" | VARCHAR => "VARCHAR" | INVALID => "INVALID"
  end.
Definition Column_ToString (c : Column) : string :=
  (name_ c ++ ":" ++ Column_TypeIdToString (type_ c))%string.

(** ** Schemas *)
Record Schema := mkSchema { columns_ : list Column; tuple_length_ : Z }.

(** The loop of the constructor: each column gets the offset reached so far. *)
Fixpoint place_columns (offset : Z) (columns : list Column) : list Column * Z :=
  match columns with
  | [] => ([], offset)
  | col :: columns' =>
    let next := wrapu 32 (offset + if IsInlined col then fixed_length_ col else 4) in
    let '(placed, total) := place_columns next columns' in
    (SetOffset offset col :: placed, total)
  end.

Definition Schema_new (columns : list Column) : Schema :=
  let '(placed, total) := place_columns 0 columns in mkSchema placed total.

(** [columns_[idx]] is not checked. *)
Definition GetColumn (s : Schema) (idx : nat) : outcome Column := deref (columns_ s !! idx).
Definition GetColumnCount (s : Schema) : Z := wrapu 32 (length (columns_ s)).

(** [UINT32_MAX] when there is no such column. *)
Fixpoint find_column (i : Z) (columns : list Column) (name : string) : Z :=
  match columns with
  | [] => UINT32_MAX
  | c :: columns' => if String.eqb (name_ c) name then i else find_column (i + 1) columns' name
  end.
Definition GetColumnIdx (s : Schema) (name : string) : Z := find_column 0 (columns_ s) name.

Fixpoint join (sep : string) (l : list string) : string :=
  match l with
  | [] => ""
  | [x] => x
  | x :: l' => (x ++ sep ++ join sep l')%string
  end.
Definition Schema_ToString (s : Schema) : string :=
  ("(" ++ join ", " (map Column_ToString (columns_ s)) ++ ")")%string.

(** ** Tuples *)
Record Tuple := mkTuple { rid_ : RID; data_ : list byte; values_ : list Value }.

Definition Tuple_default : Tuple := mkTuple RID_default [] [].

(** [data_.resize(n)] from a smaller size. *)
Definition grow (d : list byte) (n : Z) : list byte := d ++ zeros (Z.to_nat n).

Fixpoint append_values (data : list byte) (values : list Value) : outcome (list byte) :=
  match values with
  | [] => mret data
  | val :: values' =>
    val_size ← GetSerializedSize val;
    bs ← SerializeTo val;
    data' ← mem_write (length data) bs (grow data val_size);
    append_values data' values'
  end.

Definition Tuple_new (values : list Value) : outcome Tuple :=
  data ← append_values [] values; mret (mkTuple RID_default data values).

Definition SetRID (rid : RID) (t : Tuple) : Tuple := mkTuple rid (data_ t) (values_ t).
Definition GetLength (t : Tuple) : Z := wrapu 32 (length (data_ t)).

(** [GetValue(idx)] *)
Definition GetValue (t : Tuple) (column_idx : nat) : Value :=
  match values_ t !! column_idx with Some v => v | None => Value_default end.

(** [GetValue(schema, idx)] *)
Definition GetValue_schema (t : Tuple) (schema : Schema) (column_idx : nat) : outcome Value :=
  match values_ t !! column_idx with
  | Some v => mret v
  | None =>
    column ← GetColumn schema column_idx;
    DeserializeFrom (data_ t) (offset_ column) (type_ column)
  end.

Definition Tuple_ToString `{FloatFormat} (t : Tuple) : string :=
  ("(" ++ join ", " (map ToString (values_ t)) ++ ")")%string.

(** [SerializeTo(dest)] stores [data_] at [off] of a block. *)
Definition Tuple_SerializeTo (t : Tuple) (off : Z) (d : list byte) : outcome (list byte) :=
  mem_write off (data_ t) d.
Definition Tuple_DeserializeFrom (t : Tuple) (bs : list byte) : Tuple :=
  mkTuple (rid_ t) bs (values_ t).

(** ** The layout of a tuple *)

Fixpoint layout (values : list Value) : outcome (list byte) :=
  match values with
  | [] => mret []
  | v :: values' => bs ← SerializeTo v; rest ← layout values'; mret (bs ++ rest)
  end.

Lemma mem_write_end data bs n :
  n = Z.of_nat (length bs) → mem_write (length data) bs (grow data n) = Ret (data ++ bs).
Proof.
  intros ->. unfold grow. apply mem_write_Ret. rewrite length_app, length_zeros. split_and!; [lia..|].
  rewrite !Nat2Z.id, take_app_length, drop_ge, app_nil_r; [done|]. rewrite length_app, length_zeros. lia.
Qed.

Lemma append_values_layout values : ∀ data,
  Forall value_ok values →
  ∃ bs, layout values = Ret bs ∧ append_values data values = Ret (data ++ bs).
Proof.
  induction values as [|v values IH]; intros data Hok.
  { exists []. split; [done|]. cbn. by rewrite app_nil_r. }
  apply Forall_cons in Hok as [Hv Hok].
  destruct (serialized_value v Hv) as (bs & Hbs & Hsize & _).
  destruct (IH (data ++ bs) Hok) as (rest & Hrest & Happ).
  exists (bs ++ rest). cbn. rewrite Hbs, Hsize, Hrest. cbn. split; [done|].
  rewrite mem_write_end by done. cbn. by rewrite Happ, <-app_assoc.
Qed.

(** A tuple with a value is not empty. *)
Lemma serialized_nonempty v bs : SerializeTo v = Ret bs → bs ≠ [].
Proof. unfold SerializeTo. by destruct (type_id_ v); intros [= <-]. Qed.

Lemma append_values_grows values : ∀ data d, append_values data values = Ret d → (length data + length values ≤ length d)%nat.
Proof.
  induction values as [|v values IH]; cbn [append_values]; intros data d Hd; [injection Hd as <-; cbn; lia|].
  apply outcome_bind_Ret in Hd as (n & _ & Hd). apply outcome_bind_Ret in Hd as (bs & Hbs%serialized_nonempty & Hd).
  apply outcome_bind_Ret in Hd as (data' & Hw & Hd). apply IH in Hd. pose proof (mem_write_length _ _ _ _ Hw) as Hlen.
  apply mem_write_Ret in Hw as (_ & Hw & _). destruct bs; [done|]. cbn [length] in *. lia.
Qed.

Lemma Tuple_new_nonempty values t : Tuple_new values = Ret t → values ≠ [] → data_ t ≠ [].
Proof.
  unfold Tuple_new. intros Ht Hv. apply outcome_bind_Ret in Ht as (d & Hd%append_values_grows & [= <-]). cbn. intros ->. destruct values; [done|cbn in Hd; lia].
Qed.

(** The columns whose place in the schema has the size of their values. *)
Definition packed (type : TypeId) : Prop := type = BOOLEAN ∨ type = INTEGER.

Lemma packed_size v bs :
  packed (type_id_ v) → SerializeTo v = Ret bs → GetFixedLengthFor (type_id_ v) = length bs.
Proof.
  unfold SerializeTo. by intros [-> | ->] [= <-]; rewrite length_le_split.
Qed.

Lemma reload_columns cols : ∀ values bs pre post,
  map type_ cols = map type_id_ values → Forall value_ok values →
  Forall (fun c => packed (type_ c) → fixed_length_ c = GetFixedLengthFor (type_ c)) cols →
  Forall packed (removelast (map type_ cols)) →
  layout values = Ret bs → length pre + length bs < 2 ^ 32 →
  ∀ i v, values !! i = Some v → ∃ c, (place_columns (length pre) cols).1 !! i = Some c ∧
    DeserializeFrom (pre ++ bs ++ post) (offset_ c) (type_ c) = Ret (not_null v).
Proof.
  induction cols as [|c cols IH]; intros values bs pre post Hty Hok Hfix Hpk Hbs Hlen i v Hi.
  { by destruct values. }
  destruct values as [|v0 values']; [done|]. injection Hty as Hc Hty.
  apply Forall_cons in Hok as [Hv0 Hok]. apply Forall_cons in Hfix as [Hfix0 Hfix].
  destruct (serialized_value v0 Hv0) as (bs0 & Hbs0 & _ & Hback).
  cbn in Hbs. rewrite Hbs0 in Hbs. cbn in Hbs. destruct (layout values') as [rest| | |] eqn:Hrest; try done.
  injection Hbs as <-. cbn [place_columns].
  destruct (place_columns _ cols) as [placed total] eqn:Hplace. rewrite length_app in Hlen.
  destruct i as [|i]; cbn [fst lookup list_lookup] in *.
  - injection Hi as <-. exists (SetOffset (length pre) c). split; [done|]. cbn. rewrite Hc.
    apply (Hback (pre ++ (bs0 ++ rest) ++ post)). apply mem_write_Ret.
    rewrite !length_app. split_and!; [lia|lia|]. rewrite Nat2Z.id, take_app_length, <-!app_assoc.
    do 2 f_equal. rewrite app_assoc, drop_app_length'; [done|]. by rewrite length_app.
  - destruct cols as [|c1 cols]; [by destruct values'|].
    cbn in Hpk. apply Forall_cons in Hpk as [Hpk0 Hpk].
    assert (wrapu 32 (length pre + (if IsInlined c then fixed_length_ c else 4)) = length (pre ++ bs0)) as Hnext.
    { unfold IsInlined. rewrite bool_decide_false by (destruct Hpk0 as [-> | ->]; done). cbn [negb].
      rewrite Hfix0, length_app, Hc by done. rewrite (packed_size v0 bs0) by (rewrite <-?Hc; done). rewrite wrapu_small; lia. }
    rewrite Hnext in Hplace.
    destruct (IH values' rest (pre ++ bs0) post Hty Hok Hfix Hpk Hrest ltac:(rewrite length_app; lia) i v Hi) as (c' & Hc' & Hd).
    rewrite Hplace in Hc'. exists c'. split; [done|]. by rewrite <-!app_assoc in Hd |- *.
Qed.

(** The column of a name, a type and a length. *)
Definition column_of (c : string * TypeId * Z) : Column := Column_new c.1.1 c.1.2 c.2.

Lemma column_of_spec cols :
  map type_ (map column_of cols) = map (fun c => c.1.2) cols ∧
  Forall (fun c => packed (type_ c) → fixed_length_ c = GetFixedLengthFor (type_ c)) (map column_of cols).
Proof.
  split; [induction cols as [|[[n []] l] cols IH]; cbn; congruence|].
  induction cols as [|[[n type] l] cols IH]; constructor; [|done].
  destruct type; cbn; try done. by intros [|].
Qed.

(** C31: a tuple made of values, stored as bytes and read back with the schema of
    its columns, has its values again (a NULL as the zero of its type), as long as
    every column but the last one is BOOLEAN or INTEGER. *)
Theorem tuple_reload (cols : list (string * TypeId * Z)) values :
  map (fun c => c.1.2) cols = map type_id_ values → Forall value_ok values →
  Forall packed (removelast (map type_id_ values)) →
  ∃ t, Tuple_new values = Ret t ∧
    (length (data_ t) < 2 ^ 32 →
     ∀ i v, values !! i = Some v →
       GetValue_schema (Tuple_DeserializeFrom Tuple_default (data_ t)) (Schema_new (map column_of cols)) i =
         Ret (not_null v)).
Proof.
  intros Hty Hok Hpk. destruct (append_values_layout values [] Hok) as (bs & Hbs & Happ).
  exists (mkTuple RID_default bs values). unfold Tuple_new. rewrite Happ. split; [done|]. cbn [data_]. intros Hlen i v Hi.
  destruct (column_of_spec cols) as [Ht Hf].
  destruct (reload_columns (map column_of cols) values bs [] []) with (i := i) (v := v) as (c & Hc & Hd);
    [congruence|done|done|congruence|done|cbn; lia|done|].
  unfold GetValue_schema, Tuple_DeserializeFrom, Schema_new, GetColumn.
  change (Z.of_nat (length (@nil byte))) with 0 in Hc.
  destruct (place_columns 0 _) as [placed total]. cbn in Hc |- *. rewrite Hc. cbn. by rewrite app_nil_r in Hd.
Qed.

Example tuple_reload_witness :
  ∃ t, Tuple_new [Value_int INTEGER 7; Value_null BOOLEAN; Value_string VARCHAR "ab"] = Ret t ∧
    (length (data_ t) < 2 ^ 32 →
     ∀ i v, [Value_int INTEGER 7; Value_null BOOLEAN; Value_string VARCHAR "ab"] !! i = Some v →
       GetValue_schema (Tuple_DeserializeFrom Tuple_default (data_ t))
         (Schema_new (map column_of [("a", INTEGER, 0); ("b", BOOLEAN, 0); ("c", VARCHAR, 10)])) i = Ret (not_null v)).
Proof.
  apply tuple_reload; [reflexivity| |].
  - constructor; [by vm_compute|]. constructor; [by split; [left|]|]. constructor; [by vm_compute|constructor].
  - constructor; [by right|]. constructor; [by left|constructor].
Defined.

(** C36: the schema reserves four bytes for a VARCHAR that is serialized in place,
    so the column after it is read from the middle of the string: the INTEGER
    that comes back is made of the first four characters, whatever was stored. *)
Theorem column_after_varchar_misread a b n s i :
  4 ≤ length (string_bytes s) < 2 ^ 32 - 4 → in_int32 i = true →
  ∃ t, Tuple_new [Value_string VARCHAR s; Value_int INTEGER i] = Ret t ∧
    GetValue_schema (Tuple_DeserializeFrom Tuple_default (data_ t))
      (Schema_new [Column_new a VARCHAR n; Column_new b INTEGER 0]) 1 =
    Ret (Value_int INTEGER (wraps 32 (le_combine (take 4 (string_bytes s))))).
Proof.
  intros Hs Hi.
  assert (Forall value_ok [Value_string VARCHAR s; Value_int INTEGER i]) as Hok.
  { constructor; [split; [done|]; cbn -[string_bytes]; lia|]. constructor; [|constructor].
    split; [|done]. apply (wrapu_range 32 i). lia. }
  destruct (append_values_layout _ [] Hok) as (bs & Hbs & Happ).
  exists (mkTuple RID_default bs [Value_string VARCHAR s; Value_int INTEGER i]).
  unfold Tuple_new. rewrite Happ. split; [done|].
  cbn -[string_bytes] in Hbs. rewrite wrapu_small, Nat2Z.id, take_ge in Hbs by lia. injection Hbs as <-.
  unfold GetValue_schema, GetColumn, Schema_new. cbn -[load_s]. unfold load_s, load_u.
  assert (mem_read 4 4 ((le_split 4 (length (string_bytes s)) ++ string_bytes s) ++ le_split 4 (wrapu 32 i) ++ []) =
    Ret (take 4 (string_bytes s))) as Hread.
  { apply mem_read_Ret. rewrite !length_app, !length_le_split. split_and!; [lia..|].
    rewrite <-!app_assoc, drop_app_length' by (by rewrite length_le_split). by rewrite take_app_le by lia. }
  match goal with |- context [mem_read ?o _ _] => change o with 4 end. change (Z.of_nat 4) with 4. by rewrite Hread.
Qed.

Example column_after_varchar_misread_witness :
  ∃ t, Tuple_new [Value_string VARCHAR "abcd"; Value_int INTEGER 7] = Ret t ∧
    GetValue_schema (Tuple_DeserializeFrom Tuple_default (data_ t))
      (Schema_new [Column_new "name" VARCHAR 10; Column_new "age" INTEGER 0]) 1 =
    Ret (Value_int INTEGER (wraps 32 (le_combine (take 4 (string_bytes "abcd"))))).
Proof. apply column_after_varchar_misread; [by vm_compute|reflexivity]. Defined.
