(* ===== verification/TablePage.v ===== *)
(** * Slotted table pages

    Models [src/storage/page/table_page.cpp] on the bytes of the page: a header
    (next page id, number of tuples, free space pointer), a slot array that grows
    up, and the tuples, which grow down from the end of the page.  The abstract
    page is the list of the tuples in its slots, an empty one for a slot that was
    deleted. *)
From coqutil Require Import Byte Word.LittleEndianList.
From S2P Require Import Prelude Interfaces Bytes.

#[local] Open Scope Z_scope.
#[local] Coercion Z.of_nat : nat >-> Z.

(** ** Access to the bytes of the page *)
Definition get_u (n : nat) (off : Z) : M (list byte) Z := fun d => (load_u n off d, d).
Definition get_s32 (off : Z) : M (list byte) Z := fun d => (load_s 4 off d, d).
Definition writing (w : list byte → outcome (list byte)) : M (list byte) unit := fun d =>
  match w d with
  | Ret d' => (Ret tt, d')
  | Throw e => (Throw e, d)
  | Undef => (Undef, d)
  | OutOfFuel => (OutOfFuel, d)
  end.
Definition put_u (n : nat) (off v : Z) : M (list byte) unit := writing (store n off v).
Definition memcpy_to (off : Z) (bs : list byte) : M (list byte) unit := writing (mem_write off bs).
Definition memcpy_from (off n : Z) : M (list byte) (list byte) := fun d => (mem_read off n d, d).

(** ** Operations *)
Definition SIZE_TABLE_PAGE_HEADER : Z := 16.
Definition SIZE_TUPLE_SLOT : Z := 4.

Definition GetNextPageId : M (list byte) Z := get_s32 0.
Definition SetNextPageId (next_page_id : Z) : M (list byte) unit := put_u 4 0 next_page_id.
Definition GetNumTuples : M (list byte) Z := get_u 4 4.
Definition SetNumTuples (num_tuples : Z) : M (list byte) unit := put_u 4 4 num_tuples.
Definition GetFreeSpacePointer : M (list byte) Z := get_u 4 8.
Definition SetFreeSpacePointer (fsp : Z) : M (list byte) unit := put_u 4 8 fsp.

Definition Init (page_id : Z) : M (list byte) unit :=
  memcpy_to 0 (zeros (Z.to_nat ONEBASE_PAGE_SIZE));;
  put_u 4 0 page_id;;
  put_u 4 4 0;;
  SetFreeSpacePointer ONEBASE_PAGE_SIZE.

(** The slot number is a [uint16_t]. *)
Definition GetTupleOffsetAtSlot (slot_num : Z) : M (list byte) Z :=
  get_u 2 (SIZE_TABLE_PAGE_HEADER + wrapu 16 slot_num * SIZE_TUPLE_SLOT).
Definition GetTupleLengthAtSlot (slot_num : Z) : M (list byte) Z :=
  get_u 2 (SIZE_TABLE_PAGE_HEADER + wrapu 16 slot_num * SIZE_TUPLE_SLOT + 2).
Definition SetTupleOffsetAtSlot (slot_num offset : Z) : M (list byte) unit :=
  put_u 2 (SIZE_TABLE_PAGE_HEADER + wrapu 16 slot_num * SIZE_TUPLE_SLOT) (wrapu 16 offset).
Definition SetTupleLengthAtSlot (slot_num length : Z) : M (list byte) unit :=
  put_u 2 (SIZE_TABLE_PAGE_HEADER + wrapu 16 slot_num * SIZE_TUPLE_SLOT + 2) (wrapu 16 length).

Definition GetFreeSpaceRemaining : M (list byte) Z :=
  num ← GetNumTuples;
  fsp ← GetFreeSpacePointer;
  mret (wrapu 32 (fsp - (SIZE_TABLE_PAGE_HEADER + num * SIZE_TUPLE_SLOT))).

Definition InsertTuple (tuple_data : list byte) : M (list byte) (option Z) :=
  let tuple_size := Z.of_nat (length tuple_data) in
  remaining ← GetFreeSpaceRemaining;
  if bool_decide (remaining < tuple_size + SIZE_TUPLE_SLOT) then mret None
  else
    num_tuples ← GetNumTuples;
    fsp ← GetFreeSpacePointer;
    let new_fsp := wrapu 32 (fsp - tuple_size) in
    SetFreeSpacePointer new_fsp;;
    memcpy_to new_fsp tuple_data;;
    SetTupleOffsetAtSlot num_tuples new_fsp;;
    SetTupleLengthAtSlot num_tuples tuple_size;;
    SetNumTuples (num_tuples + 1);;
    mret (Some (wrapu 16 num_tuples)).

(** The [*out_size] bytes copied to [dest]. *)
Definition GetTuple (slot_num : Z) : M (list byte) (list byte) :=
  offset ← GetTupleOffsetAtSlot slot_num;
  len ← GetTupleLengthAtSlot slot_num;
  memcpy_from offset len.

Definition GetTupleSize (slot_num : Z) : M (list byte) Z := GetTupleLengthAtSlot slot_num.

Definition DeleteTuple (slot_num : Z) : M (list byte) unit :=
  SetTupleLengthAtSlot slot_num 0;;
  SetTupleOffsetAtSlot slot_num 0.

Definition UpdateTuple (slot_num : Z) (new_data : list byte) : M (list byte) bool :=
  let new_size := Z.of_nat (length new_data) in
  old_size ← GetTupleLengthAtSlot slot_num;
  remaining ← GetFreeSpaceRemaining;
  if bool_decide (old_size < new_size) && bool_decide (remaining < wrapu 32 (new_size - old_size)) then mret false
  else
    DeleteTuple slot_num;;
    fsp ← GetFreeSpacePointer;
    let new_fsp := wrapu 32 (fsp - new_size) in
    SetFreeSpacePointer new_fsp;;
    memcpy_to new_fsp new_data;;
    SetTupleOffsetAtSlot slot_num new_fsp;;
    SetTupleLengthAtSlot slot_num new_size;;
    mret true.

(** ** The abstract page *)

(** Slot [i] of [d] holds the bytes [bs]; no tuple lies below [fsp]. *)
Definition slot_holds (d : list byte) (fsp : Z) (i : nat) (bs : list byte) : Prop :=
  ∃ off, load_u 2 (16 + i * 4) d = Ret off ∧ load_u 2 (16 + i * 4 + 2) d = Ret (Z.of_nat (length bs)) ∧
    0 ≤ off ∧ off + length bs ≤ ONEBASE_PAGE_SIZE ∧ mem_read off (length bs) d = Ret bs ∧
    (bs = [] ∨ fsp ≤ off).

(** The page [d] has successor [next], free space up to [fsp], and [slots]. *)
Record page_rep (d : list byte) (next fsp : Z) (slots : list (list byte)) : Prop := {
  page_length : Z.of_nat (length d) = ONEBASE_PAGE_SIZE;
  page_next : load_s 4 0 d = Ret next;
  page_num : load_u 4 4 d = Ret (Z.of_nat (length slots));
  page_fsp : load_u 4 8 d = Ret fsp;
  page_room : 16 + length slots * 4 ≤ fsp ≤ ONEBASE_PAGE_SIZE;
  page_slots i bs : slots !! i = Some bs → slot_holds d fsp i bs;
}.

(** The bytes that are free between the slot array and the tuples. *)
Definition free_space (fsp : Z) (slots : list (list byte)) : Z := fsp - (16 + length slots * 4).

(** ** Rules for the accesses *)
Section rules.
Implicit Types (d : list byte).

Lemma wp_get_u n off v d (Q : Z → list byte → Prop) :
  load_u n off d = Ret v → Q v d → wp (get_u n off) d Q.
Proof. unfold wp, get_u. by intros ->. Qed.

Lemma wp_get_s32 off v d (Q : Z → list byte → Prop) :
  load_s 4 off d = Ret v → Q v d → wp (get_s32 off) d Q.
Proof. unfold wp, get_s32. by intros ->. Qed.

Lemma wp_put_u n off v d (Q : unit → list byte → Prop) :
  0 ≤ off → off + Z.of_nat n ≤ length d →
  (∀ d', store n off v d = Ret d' → length d' = length d → Q tt d') → wp (put_u n off v) d Q.
Proof.
  intros H1 H2 HQ. destruct (store_ok n off v d H1 H2) as (d' & Hd & Hlen).
  unfold wp, put_u, writing. rewrite Hd. by apply HQ.
Qed.

Lemma wp_memcpy_to off bs d (Q : unit → list byte → Prop) :
  0 ≤ off → off + length bs ≤ length d →
  (∀ d', mem_write off bs d = Ret d' → length d' = length d → Q tt d') → wp (memcpy_to off bs) d Q.
Proof.
  intros H1 H2 HQ. destruct (mem_write_ok off bs d H1 H2) as (d' & Hd & Hlen).
  unfold wp, memcpy_to, writing. rewrite Hd. by apply HQ.
Qed.

Lemma wp_memcpy_from off n bs d (Q : list byte → list byte → Prop) :
  mem_read off n d = Ret bs → Q bs d → wp (memcpy_from off n) d Q.
Proof. unfold wp, memcpy_from. by intros ->. Qed.
End rules.

(** Moves a read back over the writes that came before it. *)
Ltac read_back :=
  repeat match goal with
  | H : store ?n ?o ?v ?d = Ret ?d' |- context [load_u ?n ?o ?d'] =>
    rewrite (load_u_store_same n o v d d' H)
  | H : store ?n ?o ?v ?d = Ret ?d' |- context [load_u ?m ?p ?d'] =>
    rewrite (load_u_store_other m n o v d d' p H) by lia
  | H : mem_write ?o ?bs ?d = Ret ?d' |- context [load_u ?m ?p ?d'] =>
    rewrite (load_u_write_other m o bs d d' p H) by lia
  | H : store ?n ?o ?v ?d = Ret ?d' |- context [load_s 4 ?p ?d'] =>
    rewrite (load_s_write_other o (le_split n v) d d' p H) by (rewrite ?length_le_split; lia)
  | H : mem_write ?o ?bs ?d = Ret ?d' |- context [load_s 4 ?p ?d'] =>
    rewrite (load_s_write_other o bs d d' p H) by lia
  | H : store ?n ?o ?v ?d = Ret ?d' |- context [mem_read ?p ?m ?d'] =>
    rewrite (mem_read_store_other n o v d d' p m H) by lia
  | H : mem_write ?o ?bs ?d = Ret ?d' |- context [mem_read ?o (Z.of_nat (length ?bs)) ?d'] =>
    rewrite (mem_read_write_same o bs d d' H)
  | H : mem_write ?o ?bs ?d = Ret ?d' |- context [mem_read ?p ?m ?d'] =>
    rewrite (mem_read_write_other o bs d d' p m H) by lia
  end.

Lemma field_u32 z : 0 ≤ z < 4294967296 → z `mod` 2 ^ (8 * Z.of_nat 4) = z.
Proof. apply Z.mod_small. Qed.
Lemma field_u16 z : 0 ≤ z < 65536 → wrapu 16 z `mod` 2 ^ (8 * Z.of_nat 2) = z.
Proof. intros. rewrite wrapu_small by lia. by apply Z.mod_small. Qed.

Lemma slot_number i : 0 ≤ i < 1024 → wrapu 16 i = i.
Proof. intros. apply wrapu_small. lia. Qed.

Lemma page_slot_count d next fsp slots : page_rep d next fsp slots → length slots < 1024.
Proof. intros Hrep. pose proof (page_room _ _ _ _ Hrep). unfold ONEBASE_PAGE_SIZE in *. lia. Qed.

Lemma slot_holds_frame d d' fsp fsp' i bs :
  slot_holds d fsp i bs → fsp' ≤ fsp →
  (∀ o, o = 16 + i * 4 ∨ o = 16 + i * 4 + 2 → load_u 2 o d' = load_u 2 o d) →
  (fsp ≤ ONEBASE_PAGE_SIZE → ∀ o n, fsp ≤ o → mem_read o n d' = mem_read o n d) →
  length d' = length d → fsp ≤ ONEBASE_PAGE_SIZE → slot_holds d' fsp' i bs.
Proof.
  intros (off & Ho & Hl & H0 & Hb & Hr & Hf) Hle Hu Hm Hlen Hfsp. exists off.
  rewrite !Hu by tauto. split_and!; try done.
  - destruct Hf as [-> | Hf]; [|by rewrite Hm].
    apply mem_read_Ret in Hr as (?&?&?&_). apply mem_read_Ret. cbn in *. split_and!; [lia..|done].
  - destruct Hf; [by left|right; lia].
Qed.

Lemma GetFreeSpaceRemaining_wp d next fsp slots :
  page_rep d next fsp slots → wp GetFreeSpaceRemaining d (fun n d' => n = free_space fsp slots ∧ d' = d).
Proof.
  intros [Hlen Hnext Hnum Hfsp Hroom _]. unfold GetFreeSpaceRemaining, GetNumTuples, GetFreeSpacePointer, free_space.
  wp_step. eapply wp_get_u; [done|]. wp_step. eapply wp_get_u; [done|]. wp_step. split; [|done].
  unfold SIZE_TABLE_PAGE_HEADER, SIZE_TUPLE_SLOT. apply wrapu_small. unfold ONEBASE_PAGE_SIZE in *. lia.
Qed.

(** ** The operations on the abstract page *)
Lemma Init_wp d next :
  Z.of_nat (length d) = ONEBASE_PAGE_SIZE → in_int32 next = true →
  wp (Init next) d (fun _ d' => page_rep d' next ONEBASE_PAGE_SIZE []).
Proof.
  intros Hlen Hn. unfold Init, SetFreeSpacePointer. unfold ONEBASE_PAGE_SIZE in *.
  wp_step. apply wp_memcpy_to; rewrite ?length_zeros; [lia..|]. intros d1 H1 L1.
  wp_step. apply wp_put_u; [lia..|]. intros d2 H2 L2. wp_step. apply wp_put_u; [lia..|]. intros d3 H3 L3.
  apply wp_put_u; [lia..|]. intros d4 H4 L4. split; unfold ONEBASE_PAGE_SIZE; try lia; try by read_back.
  erewrite load_s_write_other by (done || (rewrite length_le_split; lia)).
  erewrite load_s_write_other by (done || (rewrite length_le_split; lia)). by apply (load_s_store_same _ _ _ _ H2).
Qed.

Lemma InsertTuple_wp d next fsp slots bs :
  page_rep d next fsp slots →
  wp (InsertTuple bs) d (fun o d' =>
    if bool_decide (length bs + 4 ≤ free_space fsp slots)
    then o = Some (Z.of_nat (length slots)) ∧ page_rep d' next (fsp - length bs) (slots ++ [bs])
    else o = None ∧ d' = d).
Proof.
  intros Hrep. pose proof (page_slot_count _ _ _ _ Hrep) as Hcount.
  unfold InsertTuple. wp_step. eapply wp_mono; [by eapply GetFreeSpaceRemaining_wp|]. intros n ? [-> ->].
  unfold SIZE_TUPLE_SLOT. destruct (decide (length bs + 4 ≤ free_space fsp slots)) as [Hfit|Hfit].
  2: { rewrite bool_decide_true, bool_decide_false by lia. by wp_step. }
  rewrite bool_decide_false, bool_decide_true by lia. unfold free_space in Hfit.
  pose proof Hrep as [Hlen Hnext Hnum Hfsp Hroom Hslots]. unfold ONEBASE_PAGE_SIZE in *.
  unfold GetNumTuples, GetFreeSpacePointer, SetFreeSpacePointer, SetTupleOffsetAtSlot, SetTupleLengthAtSlot, SetNumTuples,
    SIZE_TABLE_PAGE_HEADER, SIZE_TUPLE_SLOT.
  wp_step. eapply wp_get_u; [done|]. wp_step. eapply wp_get_u; [done|]. cbn beta zeta.
  rewrite (wrapu_small 32), !slot_number by lia. remember (fsp - length bs) as new eqn:Hnew.
  wp_step. apply wp_put_u; [lia..|]. intros d1 H1 L1. wp_step. apply wp_memcpy_to; [lia..|]. intros d2 H2 L2.
  wp_step. apply wp_put_u; [lia..|]. intros d3 H3 L3. wp_step. apply wp_put_u; [lia..|]. intros d4 H4 L4.
  wp_step. apply wp_put_u; [lia..|]. intros d5 H5 L5. wp_step. split; [done|].
  assert (length (slots ++ [bs]) = S (length slots)) as Hs by (rewrite length_app; cbn; lia).
  split; unfold ONEBASE_PAGE_SIZE; [lia| | | | |].
  - by read_back.
  - read_back. rewrite Hs, field_u32 by lia. f_equal. lia.
  - read_back. by rewrite field_u32 by lia.
  - rewrite Hs. lia.
  - intros i b [Hi|[Hi Hb]]%lookup_app_Some.
    + pose proof (lookup_lt_Some _ _ _ Hi). eapply slot_holds_frame; [by apply Hslots|lia| | |lia|unfold ONEBASE_PAGE_SIZE; lia].
      * intros o Ho. read_back. done.
      * intros _ o m Ho. read_back. done.
    + apply list_lookup_singleton_Some in Hb as [Hi0 <-]. assert (i = length slots) as -> by lia.
      exists new. unfold ONEBASE_PAGE_SIZE. split_and!; try lia.
      * read_back. by rewrite field_u16 by lia.
      * read_back. by rewrite field_u16 by lia.
      * by read_back.
Qed.

Lemma DeleteTuple_wp d next fsp slots (i : nat) :
  page_rep d next fsp slots → (i < length slots)%nat →
  wp (DeleteTuple i) d (fun _ d' => page_rep d' next fsp (<[i := []]> slots)).
Proof.
  intros Hrep Hi. pose proof (page_slot_count _ _ _ _ Hrep) as Hcount.
  pose proof Hrep as [Hlen Hnext Hnum Hfsp Hroom Hslots]. unfold ONEBASE_PAGE_SIZE in *.
  unfold DeleteTuple, SetTupleLengthAtSlot, SetTupleOffsetAtSlot, SIZE_TABLE_PAGE_HEADER, SIZE_TUPLE_SLOT.
  rewrite !slot_number by lia.
  wp_step. apply wp_put_u; [lia..|]. intros d1 H1 L1. apply wp_put_u; [lia..|]. intros d2 H2 L2.
  split; unfold ONEBASE_PAGE_SIZE; rewrite ?length_insert; try lia; try by read_back.
  intros j b [(<- & <- & _)|(Hne & Hj)]%list_lookup_insert_Some.
  - exists 0. unfold ONEBASE_PAGE_SIZE. split_and!; try (cbn; lia); [by read_back|by read_back| |by left].
    apply mem_read_Ret. cbn. split_and!; lia || done.
  - eapply slot_holds_frame; [by apply Hslots|lia| | |lia|unfold ONEBASE_PAGE_SIZE; lia].
    + intros o Ho. read_back. done.
    + intros _ o m Ho. read_back. done.
Qed.

Lemma GetTupleLength_wp d next fsp slots (i : nat) bs (Q : Z → list byte → Prop) :
  page_rep d next fsp slots → slots !! i = Some bs → Q (length bs) d → wp (GetTupleLengthAtSlot i) d Q.
Proof.
  intros Hrep Hi HQ. pose proof (page_slot_count _ _ _ _ Hrep). pose proof (lookup_lt_Some _ _ _ Hi).
  destruct (page_slots _ _ _ _ Hrep _ _ Hi) as (off & _ & Hl & _).
  unfold GetTupleLengthAtSlot, SIZE_TABLE_PAGE_HEADER, SIZE_TUPLE_SLOT. rewrite slot_number by lia. by eapply wp_get_u.
Qed.

Lemma GetTuple_wp d next fsp slots (i : nat) bs :
  page_rep d next fsp slots → slots !! i = Some bs → wp (GetTuple i) d (fun t d' => t = bs ∧ d' = d).
Proof.
  intros Hrep Hi. pose proof (page_slot_count _ _ _ _ Hrep). pose proof (lookup_lt_Some _ _ _ Hi).
  destruct (page_slots _ _ _ _ Hrep _ _ Hi) as (off & Ho & _ & _ & _ & Hr & _).
  unfold GetTuple. wp_step. unfold GetTupleOffsetAtSlot, SIZE_TABLE_PAGE_HEADER, SIZE_TUPLE_SLOT.
  rewrite slot_number by lia. eapply wp_get_u; [done|]. wp_step. eapply GetTupleLength_wp; [done..|].
  by eapply wp_memcpy_from.
Qed.

Lemma SetNextPageId_wp d next fsp slots n :
  page_rep d next fsp slots → in_int32 n = true → wp (SetNextPageId n) d (fun _ d' => page_rep d' n fsp slots).
Proof.
  intros [Hlen Hnext Hnum Hfsp Hroom Hslots] Hn. unfold SetNextPageId. unfold ONEBASE_PAGE_SIZE in *.
  apply wp_put_u; [lia..|]. intros d' Hs Hl. split; unfold ONEBASE_PAGE_SIZE; try lia; try by read_back.
  - by apply (load_s_store_same _ _ _ _ Hs).
  - intros i b Hi. eapply slot_holds_frame; [by apply Hslots|lia| | |lia|unfold ONEBASE_PAGE_SIZE; lia].
    + intros o Ho. read_back. done.
    + intros _ o m Ho. read_back. done.
Qed.

(** [UpdateTuple] after its check. *)
Lemma update_body_wp d next fsp slots (i : nat) bs :
  page_rep d next fsp slots → (i < length slots)%nat → length bs ≤ free_space fsp slots →
  wp (SetFreeSpacePointer (fsp - length bs);;
      memcpy_to (fsp - length bs) bs;;
      SetTupleOffsetAtSlot i (fsp - length bs);;
      SetTupleLengthAtSlot i (length bs);;
      mret true) d (fun b d' => b = true ∧ page_rep d' next (fsp - length bs) (<[i := bs]> slots)).
Proof.
  intros Hrep Hi Hfit. pose proof (page_slot_count _ _ _ _ Hrep) as Hcount. unfold free_space in Hfit.
  pose proof Hrep as [Hlen Hnext Hnum Hfsp Hroom Hslots]. unfold ONEBASE_PAGE_SIZE in *.
  unfold SetFreeSpacePointer, SetTupleOffsetAtSlot, SetTupleLengthAtSlot, SIZE_TABLE_PAGE_HEADER, SIZE_TUPLE_SLOT.
  rewrite !slot_number by lia. remember (fsp - length bs) as new eqn:Hnew.
  wp_step. apply wp_put_u; [lia..|]. intros d1 H1 L1. wp_step. apply wp_memcpy_to; [lia..|]. intros d2 H2 L2.
  wp_step. apply wp_put_u; [lia..|]. intros d3 H3 L3. wp_step. apply wp_put_u; [lia..|]. intros d4 H4 L4.
  wp_step. split; [done|]. split; unfold ONEBASE_PAGE_SIZE; rewrite ?length_insert; try lia; try by read_back.
  - read_back. by rewrite field_u32 by lia.
  - intros j b [(<- & <- & _)|(Hne & Hj)]%list_lookup_insert_Some.
    + exists new. unfold ONEBASE_PAGE_SIZE. split_and!; try lia.
      * read_back. by rewrite field_u16 by lia.
      * read_back. by rewrite field_u16 by lia.
      * by read_back.
    + pose proof (lookup_lt_Some _ _ _ Hj). eapply slot_holds_frame; [by apply Hslots|lia| | |lia|unfold ONEBASE_PAGE_SIZE; lia].
      * intros o Ho. read_back. done.
      * intros _ o m Ho. read_back. done.
Qed.

(** [UpdateTuple] up to its check: the update is refused exactly when the tuple
    grows by more than the free space. *)
Definition refused (fsp : Z) (slots : list (list byte)) (old bs : list byte) : bool :=
  bool_decide (length old < length bs) && bool_decide (free_space fsp slots < length bs - length old).

Lemma update_check d next fsp slots (i : nat) old bs (Q : bool → list byte → Prop) :
  page_rep d next fsp slots → slots !! i = Some old → length bs < 2 ^ 32 →
  (if refused fsp slots old bs then Q false d
   else ∀ d', page_rep d' next fsp (<[i := []]> slots) →
     wp (SetFreeSpacePointer (wrapu 32 (fsp - length bs));;
         memcpy_to (wrapu 32 (fsp - length bs)) bs;;
         SetTupleOffsetAtSlot i (wrapu 32 (fsp - length bs));;
         SetTupleLengthAtSlot i (length bs);;
         mret true) d' Q) →
  wp (UpdateTuple i bs) d Q.
Proof.
  intros Hrep Hi Hbs HQ. pose proof (lookup_lt_Some _ _ _ Hi) as Hlt. unfold UpdateTuple.
  wp_step. eapply GetTupleLength_wp; [done..|]. wp_step.
  eapply wp_mono; [by eapply GetFreeSpaceRemaining_wp|]. intros n ? [-> ->]. unfold refused in HQ.
  case_bool_decide as Hgrow; cbn [andb] in *; [rewrite wrapu_small by lia; case_bool_decide|]; try by wp_step.
  all: wp_step; eapply wp_mono; [by eapply DeleteTuple_wp|]; cbn beta; intros _ d' Hrep'; wp_step.
  all: unfold GetFreeSpacePointer; eapply wp_get_u; [apply Hrep'|]; by apply HQ.
Qed.

Lemma UpdateTuple_fits_wp d next fsp slots (i : nat) old bs :
  page_rep d next fsp slots → slots !! i = Some old → length bs ≤ free_space fsp slots →
  wp (UpdateTuple i bs) d (fun b d' => b = true ∧ page_rep d' next (fsp - length bs) (<[i := bs]> slots)).
Proof.
  intros Hrep Hi Hfit. pose proof (lookup_lt_Some _ _ _ Hi).
  pose proof (page_room _ _ _ _ Hrep). unfold free_space, ONEBASE_PAGE_SIZE in *.
  eapply update_check; [done..|lia|]. unfold refused.
  rewrite (bool_decide_false (free_space _ _ < _)), andb_false_r by (unfold free_space; lia).
  intros d' Hrep'. rewrite wrapu_small by lia.
  eapply wp_mono; [apply (update_body_wp _ next fsp (<[i := []]> slots)); [done|rewrite length_insert; lia|]|].
  - unfold free_space. rewrite length_insert. lia.
  - intros b d''. by rewrite list_insert_insert_eq.
Qed.

Lemma update_undef d next fsp slots (i : nat) old bs :
  page_rep d next fsp slots → slots !! i = Some old → length bs < 2 ^ 32 →
  refused fsp slots old bs = false → fsp < length bs → (UpdateTuple i bs d).1 = Undef.
Proof.
  intros Hrep Hi Hbs Href Hover. pose proof (lookup_lt_Some _ _ _ Hi) as Hlt. unfold UpdateTuple.
  destruct (wp_elim (GetTupleLengthAtSlot i) d (fun n d' => n = Z.of_nat (length old) ∧ d' = d)) as (n & d1 & H1 & -> & ->);
    [by eapply GetTupleLength_wp|]. rewrite (bind_Ret _ _ _ _ _ H1).
  destruct (wp_elim _ _ _ (GetFreeSpaceRemaining_wp _ _ _ _ Hrep)) as (n & d1 & H2 & -> & ->). rewrite (bind_Ret _ _ _ _ _ H2).
  assert (bool_decide (length old < length bs) &&
          bool_decide (free_space fsp slots < wrapu 32 (length bs - length old)) = false) as ->.
  { unfold refused in Href. case_bool_decide; cbn in *; [|done]. by rewrite wrapu_small by lia. }
  destruct (wp_elim _ _ _ (DeleteTuple_wp _ _ _ _ i Hrep Hlt)) as ([] & d0 & H3 & Hrep0). rewrite (bind_Ret _ _ _ _ _ H3).
  pose proof Hrep0 as [Hlen _ _ Hfsp Hroom _]. unfold ONEBASE_PAGE_SIZE in *.
  rewrite (bind_Ret GetFreeSpacePointer _ d0 fsp d0) by (unfold GetFreeSpacePointer, get_u; by rewrite Hfsp).
  assert (wrapu 32 (fsp - length bs) = fsp - length bs + 2 ^ 32) as ->.
  { unfold wrapu. symmetry. apply (Z.mod_unique_pos _ _ (-1)); lia. }
  destruct (wp_elim (SetFreeSpacePointer (fsp - length bs + 2 ^ 32)) d0 (fun _ d' => length d' = length d0)) as ([] & d1 & H4 & L1).
  { apply wp_put_u; [lia..|]. by intros. }
  rewrite (bind_Ret _ _ _ _ _ H4). erewrite bind_Undef; [done|]. unfold memcpy_to, writing, mem_write.
  rewrite bool_decide_false by lia. done.
Qed.

(** ** Properties *)

(** C27: the slotted page implements the list of its tuples.  An insert appends
    the tuple when it fits next to its slot and is refused otherwise, changing
    nothing; a delete empties its slot; an update replaces its tuple if the new
    one fits into the free space; and [GetTuple] returns what the list says. *)
Theorem page_operations d next fsp slots :
  page_rep d next fsp slots →
  (∀ bs, wp (InsertTuple bs) d (fun o d' =>
     if bool_decide (length bs + 4 ≤ free_space fsp slots)
     then o = Some (Z.of_nat (length slots)) ∧ page_rep d' next (fsp - length bs) (slots ++ [bs])
     else o = None ∧ d' = d)) ∧
  (∀ i : nat, (i < length slots)%nat →
     wp (DeleteTuple i) d (fun _ d' => page_rep d' next fsp (<[i := []]> slots))) ∧
  (∀ (i : nat) old bs, slots !! i = Some old → length bs ≤ free_space fsp slots →
     wp (UpdateTuple i bs) d (fun b d' => b = true ∧ page_rep d' next (fsp - length bs) (<[i := bs]> slots))) ∧
  (∀ (i : nat) bs, slots !! i = Some bs → wp (GetTuple i) d (fun t d' => t = bs ∧ d' = d)).
Proof.
  intros Hrep. split_and!; intros; [by apply InsertTuple_wp|by apply DeleteTuple_wp|by eapply UpdateTuple_fits_wp|by eapply GetTuple_wp].
Qed.

(** C33: the check of [UpdateTuple] compares only the growth of the tuple with the
    free space, while the new tuple is stored whole below the old ones.  An update
    that passes the check with a tuple larger than the free space therefore either
    runs out of the page, or reports success and leaves a page whose free space
    pointer lies inside the slot array, which holds no list of tuples at all. *)
Theorem UpdateTuple_overruns d next fsp slots (i : nat) old bs :
  page_rep d next fsp slots → slots !! i = Some old → length bs < 2 ^ 32 →
  refused fsp slots old bs = false → free_space fsp slots < length bs →
  (fsp < length bs → (UpdateTuple i bs d).1 = Undef) ∧
  (12 ≤ fsp - length bs →
   wp (UpdateTuple i bs) d (fun b d' => b = true ∧ ∀ next' fsp' slots', ¬ page_rep d' next' fsp' slots')).
Proof.
  intros Hrep Hi Hbs Href Hover. pose proof (lookup_lt_Some _ _ _ Hi) as Hlt.
  pose proof (page_slot_count _ _ _ _ Hrep) as Hcount. split; intros Hfsp.
  - by eapply update_undef.
  - eapply update_check; [done..|]. rewrite Href. intros d0 Hrep0. unfold free_space in Hover.
    destruct Hrep0 as [Hlen _ Hnum _ Hroom _]. rewrite length_insert in Hnum, Hroom. unfold ONEBASE_PAGE_SIZE in *.
    rewrite wrapu_small by lia. remember (fsp - length bs) as new eqn:Hnew.
    unfold SetFreeSpacePointer, SetTupleOffsetAtSlot, SetTupleLengthAtSlot, SIZE_TABLE_PAGE_HEADER, SIZE_TUPLE_SLOT.
    rewrite !slot_number by lia.
    wp_step. apply wp_put_u; [lia..|]. intros d1 H1 L1. wp_step. apply wp_memcpy_to; [lia..|]. intros d2 H2 L2.
    wp_step. apply wp_put_u; [lia..|]. intros d3 H3 L3. wp_step. apply wp_put_u; [lia..|]. intros d4 H4 L4.
    wp_step. split; [done|]. intros next' fsp' slots' [_ _ Hnum' Hfsp' Hroom' _]. revert Hnum' Hfsp'. read_back.
    rewrite Hnum, field_u32 by lia. intros [= Hn] [= Hf]. lia.
Qed.

(** A page with two tuples, and one of its updates. *)
Definition two_tuples : list byte :=
  ((Init INVALID_PAGE_ID;; InsertTuple (replicate 2036 Byte.x61);; InsertTuple (replicate 2036 Byte.x62))
     (zeros 4096)).2.

Lemma two_tuples_rep :
  page_rep two_tuples (-1) 24 [replicate 2036 Byte.x61; replicate 2036 Byte.x62].
Proof.
  destruct (wp_elim _ _ _ (Init_wp (zeros 4096) (-1) eq_refl eq_refl)) as ([] & d1 & H1 & R1).
  destruct (wp_elim _ _ _ (InsertTuple_wp _ _ _ _ (replicate 2036 Byte.x61) R1)) as (o & d2 & H2 & R2).
  rewrite bool_decide_true in R2 by (by vm_compute). destruct R2 as [_ R2].
  destruct (wp_elim _ _ _ (InsertTuple_wp _ _ _ _ (replicate 2036 Byte.x62) R2)) as (o' & d3 & H3 & R3).
  rewrite bool_decide_true in R3 by (by vm_compute). destruct R3 as [_ R3].
  assert (two_tuples = d3) as ->; [|exact R3]. unfold two_tuples.
  rewrite (bind_Ret _ _ _ _ _ H1), (bind_Ret _ _ _ _ _ H2), H3. done.
Qed.

Example page_operations_witness :
  wp (GetTuple 0) two_tuples (fun t d' => t = replicate 2036 Byte.x61 ∧ d' = two_tuples).
Proof. apply (page_operations _ _ _ _ two_tuples_rep) with (i := 0%nat). reflexivity. Defined.

(** Replacing the second tuple by a much shorter one is accepted, and destroys the
    slot array. *)
Example UpdateTuple_overruns_witness :
  wp (UpdateTuple 1 (replicate 10 Byte.x63)) two_tuples (fun b d' =>
    b = true ∧ ∀ next' fsp' slots', ¬ page_rep d' next' fsp' slots').
Proof.
  eapply (UpdateTuple_overruns _ _ _ _ 1 (replicate 2036 Byte.x62) (replicate 10 Byte.x63) two_tuples_rep);
    [reflexivity|reflexivity|by vm_compute|by vm_compute|by vm_compute].
Defined.
