(* ===== verification/TableHeap.v ===== *)
(** * Table heaps

    Models [src/storage/table/table_heap.cpp] over any page store.  A heap is a
    chain of slotted pages linked by their next page ids.  The loops along the
    chain take a number of rounds; one more than the chain has pages is enough. *)
From coqutil Require Import Byte.
From S2P Require Import Prelude Interfaces Bytes DiskManager BufferPool BufferPoolSpec Value Tuple TablePage.

#[local] Open Scope Z_scope.
#[local] Coercion Z.of_nat : nat >-> Z.

#[export] Instance byte_eq_dec : EqDecision byte.
Proof. solve_decision. Defined.

Section operations.
Context {St : Type} `{PageStore St (list byte)}.

(** A const method, and a method, of the table page in frame [f]. *)
Definition read_page {A} (f : Z) (m : M (list byte) A) : M St A :=
  d ← ps_get_data f; lift (m d).1.
(** A method that left the bytes as they were has not written. *)
Definition write_page {A} (f : Z) (m : M (list byte) A) : M St A :=
  d ← ps_get_data f;
  (if decide ((m d).2 = d) then mret tt else ps_set_data f (m d).2);;
  lift (m d).1.

(** The constructor: the id of the first page. *)
Definition TableHeap_new : M St Z :=
  page ← ps_new_page;
  match page with
  | None => lift (Throw (RuntimeError "Cannot allocate page for table heap"))
  | Some (page_id, f) =>
    write_page f (Init INVALID_PAGE_ID);;
    ps_unpin_page page_id true;;
    mret page_id
  end.

Fixpoint insert_loop (fuel : nat) (page_id : Z) (tuple : list byte) : M St (option RID) :=
  match fuel with
  | O => lift OutOfFuel
  | S fuel' =>
    if bool_decide (page_id = INVALID_PAGE_ID) then mret None
    else
      page ← ps_fetch_page page_id;
      match page with
      | None => mret None
      | Some f =>
        slot ← write_page f (TablePage.InsertTuple tuple);
        match slot with
        | Some slot_num => ps_unpin_page page_id true;; mret (Some (mkRID page_id slot_num))
        | None =>
          next_page_id ← read_page f GetNextPageId;
          if bool_decide (next_page_id = INVALID_PAGE_ID) then
            new_page ← ps_new_page;
            match new_page with
            | None => ps_unpin_page page_id false;; mret None
            | Some (new_page_id, g) =>
              write_page g (Init INVALID_PAGE_ID);;
              write_page f (SetNextPageId new_page_id);;
              ps_unpin_page page_id true;;
              new_slot ← write_page g (TablePage.InsertTuple tuple);
              ps_unpin_page new_page_id true;;
              mret ((fun slot_num => mkRID new_page_id slot_num) <$> new_slot)
            end
          else
            ps_unpin_page page_id false;;
            insert_loop fuel' next_page_id tuple
        end
      end
  end.

(** The length of a tuple is that of its bytes, a [uint32_t] in the source: the two
    differ from 4 GB on. *)
Definition InsertTuple (fuel : nat) (first_page_id : Z) (tuple : Tuple) : M St (option RID) :=
  insert_loop fuel first_page_id (data_ tuple).

Definition GetTuple (rid : RID) : M St Tuple :=
  page ← ps_fetch_page (page_id_of rid);
  match page with
  | None => lift (Throw (RuntimeError "Cannot fetch page for GetTuple"))
  | Some f =>
    bs ← read_page f (TablePage.GetTuple (slot_num_of rid));
    ps_unpin_page (page_id_of rid) false;;
    mret (SetRID rid (Tuple_DeserializeFrom Tuple_default bs))
  end.

Definition UpdateTuple (rid : RID) (new_tuple : Tuple) : M St bool :=
  page ← ps_fetch_page (page_id_of rid);
  match page with
  | None => mret false
  | Some f =>
    success ← write_page f (TablePage.UpdateTuple (slot_num_of rid) (data_ new_tuple));
    ps_unpin_page (page_id_of rid) success;;
    mret success
  end.

Definition DeleteTuple (rid : RID) : M St unit :=
  page ← ps_fetch_page (page_id_of rid);
  match page with
  | None => mret tt
  | Some f =>
    write_page f (TablePage.DeleteTuple (slot_num_of rid));;
    ps_unpin_page (page_id_of rid) true;;
    mret tt
  end.

(** ** The iterator *)

(** The search on one page for a slot that is not deleted, from [slot] on; [left]
    slots are left. *)
Fixpoint find_slot (left : nat) (f slot : Z) : M St (option Z) :=
  match left with
  | O => mret None
  | S left' =>
    size ← read_page f (GetTupleSize slot);
    if bool_decide (0 < size) then mret (Some slot) else find_slot left' f (slot + 1)
  end.

(** The loop of [Begin] and of [operator++]: the first live slot from [slot] of
    page [page_id] on. *)
Fixpoint seek_loop (fuel : nat) (page_id slot : Z) : M St RID :=
  match fuel with
  | O => lift OutOfFuel
  | S fuel' =>
    if bool_decide (page_id = INVALID_PAGE_ID) then mret (mkRID INVALID_PAGE_ID 0)
    else
      page ← ps_fetch_page page_id;
      match page with
      | None => mret (mkRID INVALID_PAGE_ID 0)
      | Some f =>
        num_tuples ← read_page f GetNumTuples;
        found ← find_slot (Z.to_nat (num_tuples - slot)) f slot;
        match found with
        | Some slot' => ps_unpin_page page_id false;; mret (mkRID page_id slot')
        | None =>
          next_page_id ← read_page f GetNextPageId;
          ps_unpin_page page_id false;;
          seek_loop fuel' next_page_id 0
        end
      end
  end.

Definition Begin (fuel : nat) (first_page_id : Z) : M St RID := seek_loop fuel first_page_id 0.
Definition End_rid : RID := mkRID INVALID_PAGE_ID 0.
Definition increment (fuel : nat) (rid : RID) : M St RID :=
  seek_loop fuel (page_id_of rid) (wrapu 16 (slot_num_of rid + 1)).

(** [for (auto it = heap.Begin(); it != heap.End(); ++it) out.push_back( *it )]:
    how the executors walk over a heap. *)
Fixpoint scan_loop (rounds fuel : nat) (it : RID) : M St (list Tuple) :=
  match rounds with
  | O => lift OutOfFuel
  | S rounds' =>
    if decide (it = End_rid) then mret []
    else
      t ← GetTuple it;
      it' ← increment fuel it;
      rest ← scan_loop rounds' fuel it';
      mret (t :: rest)
  end.
Definition scan_heap (rounds fuel : nat) (first_page_id : Z) : M St (list Tuple) :=
  it ← Begin fuel first_page_id; scan_loop rounds fuel it.
End operations.

(** ** Chains of pages

    [heap_at m id h]: the chain that starts at page [id] has the pages and slots
    [h]. *)
Inductive heap_at (m : gmap Z (list byte)) : Z → list (Z * list (list byte)) → Prop :=
  | heap_end : heap_at m INVALID_PAGE_ID []
  | heap_page id d next fsp slots rest :
      m !! id = Some d → page_rep d next fsp slots → id ∉ rest.*1 → heap_at m next rest →
      heap_at m id ((id, slots) :: rest).

(** The tuples that are not deleted, from slot [i] of the first page on. *)
Definition live_slots (id : Z) (i : nat) (slots : list (list byte)) : list (RID * list byte) :=
  filter (fun x => x.2 ≠ []) (imap (fun j bs => (mkRID id (i + j)%nat, bs)) slots).
Definition live_pages (h : list (Z * list (list byte))) : list (RID * list byte) :=
  h ≫= (fun x => live_slots x.1 0 x.2).
Definition live_from (h : list (Z * list (list byte))) (i : nat) : list (RID * list byte) :=
  match h with
  | [] => []
  | (id, slots) :: rest => live_slots id i (drop i slots) ++ live_pages rest
  end.

(** The tuple that the heap returns for the bytes of a slot. *)
Definition stored_tuple (x : RID * list byte) : Tuple := mkTuple x.1 x.2 [].

(** The iterator [it] of the heap [h] stands at the head of the rest [l] of the live
    tuples. *)
Definition cursor (h : list (Z * list (list byte))) (l : list (RID * list byte)) (it : RID) : Prop :=
  match l with
  | [] => it = End_rid
  | (rid, bs) :: l' => it = rid ∧ bs ≠ [] ∧
    ∃ pre id slots rest (j : nat), h = pre ++ (id, slots) :: rest ∧ rid = mkRID id j ∧ slots !! j = Some bs ∧
      l' = live_from ((id, slots) :: rest) (S j)
  end.

Lemma heap_at_tail m pre id slots rest : ∀ first,
  heap_at m first (pre ++ (id, slots) :: rest) → heap_at m id ((id, slots) :: rest).
Proof. induction pre as [|[id0 slots0] pre IH]; cbn; intros first Hh; [by inversion Hh; subst|]. inversion Hh; subst. by eapply IH. Qed.

Lemma heap_at_frame m m' h : ∀ id,
  heap_at m id h → (∀ j, j ∈ h.*1 → m' !! j = m !! j) → heap_at m' id h.
Proof.
  induction h as [|[id0 slots] h IH]; intros id Hh Heq; inversion Hh; subst; [constructor|].
  cbn in Heq. econstructor; [rewrite Heq by set_solver; done|done|done|].
  apply IH; [done|]. intros j Hj. apply Heq. set_solver.
Qed.

Section rules.
Context {St : Type} `{PageStoreSpec St (list byte)}.
Context (Hbytes : ∀ d, ps_ok d ↔ Z.of_nat (length d) = ONEBASE_PAGE_SIZE).
Implicit Types (s : St) (a b : pstate (list byte)).

Lemma read_page_wp {A} s b id f c d x (m : M (list byte) A) (Q : A → St → Prop) :
  ps_rep s b → ps_pinned b !! id = Some (f, c) → ps_pages b !! id = Some d →
  wp m d (fun y d' => y = x ∧ d' = d) → Q x s → wp (read_page f m) s Q.
Proof.
  intros Hrep Hpin Hd (y & d' & Hm & -> & ->)%wp_elim HQ. unfold read_page, wp.
  rewrite (bind_Ret _ _ _ _ _ (ps_get_spec s b id f c d Hrep Hpin Hd)). unfold lift. by rewrite Hm.
Qed.

Lemma write_page_wp {A} s b id f c d (m : M (list byte) A) (P : A → list byte → Prop) (Q : A → St → Prop) :
  ps_rep s b → ps_pinned b !! id = Some (f, c) → ps_pages b !! id = Some d →
  wp m d (fun x d' => P x d' ∧ Z.of_nat (length d') = ONEBASE_PAGE_SIZE) →
  (∀ s' x d', P x d' → ps_rep s' (if decide (d' = d) then b else spec_write id d' b) → Q x s') →
  wp (write_page f m) s Q.
Proof using Hbytes.
  intros Hrep Hpin Hd (x & d' & Hm & HP & Hok)%wp_elim HQ. unfold write_page, wp.
  rewrite (bind_Ret _ _ _ _ _ (ps_get_spec s b id f c d Hrep Hpin Hd)), Hm. cbn [fst snd].
  destruct (decide (d' = d)) as [Heq|Hne] eqn:Hdec.
  - apply (HQ s x d'); [done|]. by rewrite Hdec.
  - apply Hbytes in Hok.
    destruct (wp_elim _ _ _ (ps_set_spec s b id f c d' Hrep Hpin Hok)) as ([] & s' & Hs & Hrep').
    rewrite (bind_Ret _ _ _ _ _ Hs). apply (HQ s' x d'); [done|]. by rewrite Hdec.
Qed.

(** One page of the heap is used: it is live and nobody has it pinned. *)
Definition idle b (id : Z) : Prop := ps_pinned b !! id = None.
Definition room (n : nat) b : Prop := (size (ps_pinned b) + n ≤ ps_cap b)%nat.

Lemma fetch_wp s a id d (Q : option Z → St → Prop) :
  ps_rep s a → ps_pages a !! id = Some d → idle a id → room 1 a →
  (∀ f s', ps_rep s' (spec_pin id f 1 a) → Q (Some f) s') → wp (ps_fetch_page id) s Q.
Proof.
  intros Hrep Hd Hidle Hroom HQ. unfold room in Hroom.
  eapply wp_mono; [apply (ps_fetch_spec s a id d); [done..|lia]|]. intros o s' (f & -> & Hr). by apply HQ.
Qed.

Lemma unpin_read a id f : idle a id → spec_unpin id f 1 false (spec_pin id f 1 a) = a.
Proof.
  intros Hidle. destruct a as [cap nx pages pinned unsaved]. unfold spec_unpin, spec_pin, idle in *. cbn in *.
  f_equal. rewrite delete_insert_eq. by apply delete_id.
Qed.

Lemma idle_saved s a id : ps_rep s a → idle a id → id ∉ ps_unsaved a.
Proof. intros Hrep Hidle Hu. destruct (ps_rep_unsaved s a id Hrep Hu) as [x Hx]. unfold idle in Hidle. congruence. Qed.

Lemma unpin_read_wp s s0 a id f (Q : bool → St → Prop) :
  ps_rep s (spec_pin id f 1 a) → ps_rep s0 a → idle a id →
  (∀ s', ps_rep s' a → Q true s') → wp (ps_unpin_page id false) s Q.
Proof.
  intros Hrep Hrep0 Hidle HQ. eapply wp_mono.
  { eapply (ps_unpin_spec s _ id f 1 false Hrep); [apply lookup_insert_eq|]. right; right. exact (idle_saved s0 a id Hrep0 Hidle). }
  intros b s' [-> Hr]. apply HQ. by rewrite unpin_read in Hr.
Qed.

(** ** Reading along the chain *)
Lemma heap_at_bound s a id h :
  ps_rep s a → heap_at (ps_pages a) id h → h ≠ [] → 0 ≤ id < ps_next a.
Proof. intros Hrep [|id' d next fsp slots rest Hd _ _ _] ?; [done|]. by eapply ps_rep_pages. Qed.

Definition chain_idle a (h : list (Z * list (list byte))) : Prop := Forall (fun x => idle a x.1) h.

Lemma find_slot_wp s b id f c d next fsp slots : ∀ left i,
  ps_rep s b → ps_pinned b !! id = Some (f, c) → ps_pages b !! id = Some d → page_rep d next fsp slots →
  (i + left = length slots)%nat →
  wp (find_slot left f i) s (fun o s' => s' = s ∧
    match o with
    | None => live_slots id i (drop i slots) = []
    | Some z => ∃ (j : nat) bs, z = Z.of_nat j ∧ slots !! j = Some bs ∧ bs ≠ [] ∧
        live_slots id i (drop i slots) = (mkRID id j, bs) :: live_slots id (S j) (drop (S j) slots)
    end).
Proof.
  induction left as [|left IH]; intros i Hrep Hpin Hd Hpage Hlen; cbn [find_slot].
  { wp_step. split; [done|]. by rewrite drop_ge by lia. }
  destruct (lookup_lt_is_Some_2 slots i) as [bs Hbs]; [lia|].
  assert (live_slots id i (drop i slots) =
    (if decide (bs = []) then [] else [(mkRID id i, bs)]) ++ live_slots id (S i) (drop (S i) slots)) as Hstep.
  { rewrite (drop_S _ _ _ Hbs). unfold live_slots. cbn [imap]. rewrite filter_cons. cbn [snd].
    rewrite Nat.add_0_r. unfold compose.
    assert (imap (fun j bs0 => (mkRID id (i + S j)%nat, bs0)) (drop (S i) slots) =
            imap (fun j bs0 => (mkRID id (S i + j)%nat, bs0)) (drop (S i) slots)) as ->.
    { apply imap_ext. intros j x _. do 3 f_equal. lia. }
    destruct (decide (bs = [])), (decide (bs ≠ [])); done. }
  wp_step. eapply read_page_wp; [done..| |].
  { unfold GetTupleSize. eapply (GetTupleLength_wp d next fsp slots i bs); [done..|]. by split. }
  case_bool_decide as Hpos.
  - wp_step. split; [done|]. exists i, bs. rewrite Hstep.
    assert (bs ≠ []) by (intros ->; cbn in Hpos; lia). rewrite decide_False by done. done.
  - destruct bs as [|x bs]; [|cbn in Hpos; lia]. rewrite decide_True in Hstep by done. cbn in Hstep.
    replace (i + 1) with (Z.of_nat (S i)) by lia. eapply wp_mono; [apply IH; [done..|lia]|].
    intros o s' [-> Ho]. split; [done|]. rewrite Hstep. done.
Qed.

(** Where the loop of the iterator stops: at the first live tuple. *)
Lemma cursor_next_page id slots rest i it :
  live_slots id i (drop i slots) = [] → cursor rest (live_from rest 0) it → cursor ((id, slots) :: rest) (live_from ((id, slots) :: rest) i) it.
Proof.
  cbn [live_from]. intros ->. cbn [app].
  assert (live_from rest 0 = live_pages rest) as -> by (destruct rest as [|[id' slots'] rest]; done).
  unfold cursor. destruct (live_pages rest) as [|[rid bs] l]; [done|]. intros (-> & Hne & pre & id' & slots' & rest' & j & -> & ?&?&?).
  split_and!; [done|done|]. by exists ((id, slots) :: pre), id', slots', rest', j.
Qed.

Lemma seek_wp h : ∀ fuel s a id (i : nat),
  ps_rep s a → heap_at (ps_pages a) id h → chain_idle a h → room 1 a → (length h < fuel)%nat →
  (∀ id slots rest, h = (id, slots) :: rest → i ≤ length slots)%nat →
  wp (seek_loop fuel id i) s (fun it s' => ps_rep s' a ∧ cursor h (live_from h i) it).
Proof.
  induction h as [|[id0 slots] rest IH]; intros [|fuel] s a id i Hrep Hheap Hidle Hroom Hfuel Hi; try (cbn in Hfuel; lia).
  { inversion Hheap; subst. cbn [seek_loop]. rewrite bool_decide_true by done. wp_step. done. }
  inversion Hheap as [|? d next fsp ? ? Hd Hpage Hnotin Hrest]; subst.
  apply Forall_cons in Hidle as [Hid0 Hidle]. cbn [fst] in Hid0.
  cbn [seek_loop]. destruct (ps_rep_pages s a id0 d Hrep Hd) as [Hpos _].
  rewrite bool_decide_false by (unfold INVALID_PAGE_ID; lia). specialize (Hi _ _ _ eq_refl).
  wp_step. apply (fetch_wp s a id0 d); [done..|]. intros f s1 Hrep1. cbn beta iota.
  assert (ps_pinned (spec_pin id0 f 1 a) !! id0 = Some (f, 1)) as Hpin by apply lookup_insert_eq.
  wp_step. eapply read_page_wp; [exact Hrep1|exact Hpin|exact Hd| |].
  { unfold GetNumTuples. eapply wp_get_u; [apply Hpage|]. by split. }
  wp_step. replace (Z.to_nat (length slots - i)) with (length slots - i)%nat by lia.
  eapply wp_mono; [apply (find_slot_wp s1 (spec_pin id0 f 1 a) id0 f 1 d next fsp slots); [done..|lia]|].
  intros o s2 [-> Ho]. destruct o as [z|]; wp_step.
  - destruct Ho as (j & bs & -> & Hj & Hne & Hlive).
    apply (unpin_read_wp s1 s a id0 f); [done..|]. intros s3 Hrep3. wp_step. split; [done|].
    cbn [live_from]. rewrite Hlive. cbn [app]. split_and!; [done|done|]. by exists [], id0, slots, rest, j.
  - eapply read_page_wp; [exact Hrep1|exact Hpin|exact Hd| |].
    { unfold GetNextPageId. eapply wp_get_s32; [apply Hpage|]. by split. }
    wp_step. apply (unpin_read_wp s1 s a id0 f); [done..|]. intros s3 Hrep3.
    eapply wp_mono; [apply (IH fuel s3 a next 0%nat); [done..|cbn in Hfuel; lia|intros; lia]|].
    intros it s4 [Hrep4 Hstop]. split; [done|]. by apply cursor_next_page.
Qed.

Lemma GetTuple_heap_wp s a id slots rest (j : nat) bs :
  ps_rep s a → heap_at (ps_pages a) id ((id, slots) :: rest) → idle a id → room 1 a → slots !! j = Some bs →
  wp (GetTuple (mkRID id j)) s (fun t s' => t = stored_tuple (mkRID id j, bs) ∧ ps_rep s' a).
Proof.
  intros Hrep Hheap Hidle Hroom Hj. inversion Hheap as [|? d next fsp ? ? Hd Hpage Hnotin Hrest]; subst.
  unfold GetTuple. cbn [page_id_of slot_num_of]. wp_step. apply (fetch_wp s a id d); [done..|]. intros f s1 Hrep1. cbn beta iota.
  assert (ps_pinned (spec_pin id f 1 a) !! id = Some (f, 1)) as Hpin by apply lookup_insert_eq.
  wp_step. eapply read_page_wp; [exact Hrep1|exact Hpin|exact Hd|by eapply GetTuple_wp|].
  wp_step. apply (unpin_read_wp s1 s a id f); [done..|]. intros s2 Hrep2. by wp_step.
Qed.

Lemma scan_wp fuel : ∀ rounds h s a id (i : nat),
  ps_rep s a → heap_at (ps_pages a) id h → chain_idle a h → room 1 a → (length h < fuel)%nat →
  (∀ id slots rest, h = (id, slots) :: rest → i ≤ length slots)%nat → (length (live_from h i) < rounds)%nat →
  wp (it ← seek_loop fuel id i; scan_loop rounds fuel it) s
    (fun ts s' => ps_rep s' a ∧ ts = map stored_tuple (live_from h i)).
Proof.
  induction rounds as [|rounds IH]; intros h s a id i Hrep Hheap Hidle Hroom Hfuel Hi Hrounds; [lia|].
  wp_step. eapply wp_mono; [by apply (seek_wp h)|]. intros it s1 [Hrep1 Hstop].
  cbn [scan_loop]. destruct (live_from h i) as [|[rid bs] l]; cbn [cursor] in Hstop.
  { subst it. rewrite decide_True by done. by wp_step. }
  destruct Hstop as (-> & Hne & pre & id' & slots & rest & j & Hh & -> & Hj & ->). subst h. pose proof Hheap as Hheap'. apply heap_at_tail in Hheap'.
  inversion Hheap' as [|? d next fsp ? ? Hd Hpage Hnotin Hrest]; subst.
  destruct (ps_rep_pages s1 a id' d Hrep1 Hd) as [Hpos _]. pose proof (lookup_lt_Some _ _ _ Hj) as Hlt.
  pose proof (page_slot_count _ _ _ _ Hpage) as Hcount.
  unfold chain_idle in Hidle. apply Forall_app in Hidle as [_ Hidle'].
  rewrite length_app in Hfuel.
  rewrite decide_False by (unfold End_rid, INVALID_PAGE_ID; intros [= ? ?]; lia).
  wp_step. eapply wp_mono; [eapply (GetTuple_heap_wp s1 a id' slots rest j bs); [done|done|by apply Forall_cons in Hidle' as [? _]|done|done]|]. intros t s2 [-> Hrep2].
  eapply (wp_mono _ _ (fun ts s' => ps_rep s' a ∧
    ts = stored_tuple (mkRID id' j, bs) :: map stored_tuple (live_from ((id', slots) :: rest) (S j)))); [|by intros ts s' [? ->]].
  unfold increment. cbn [page_id_of slot_num_of]. rewrite wrapu_small by lia. replace (j + 1) with (Z.of_nat (S j)) by lia.
  specialize (IH ((id', slots) :: rest) s2 a id' (S j) Hrep2 Hheap').
  destruct (wp_elim _ _ _ (IH Hidle' Hroom ltac:(cbn in *; lia) ltac:(intros ??? [= <- <- <-]; lia) ltac:(by apply Nat.succ_lt_mono)))
    as (ts & s3 & Hrun & Hrep3 & ->).
  unfold mbind, M_bind in Hrun.
  wp_step. destruct (seek_loop fuel id' (S j) s2) as [[it'| | |] s2'] eqn:Hseek; try done.
  eapply wp_intro; [done|]. wp_step. eapply wp_intro; [exact Hrun|]. by wp_step.
Qed.

(** ** Inserting *)
Lemma write_dirty_wp {A} s b id f c d (m : M (list byte) A) (P : A → list byte → Prop) (Q : A → St → Prop) :
  ps_rep s b → ps_pinned b !! id = Some (f, c) → ps_pages b !! id = Some d →
  wp m d (fun x d' => P x d' ∧ Z.of_nat (length d') = ONEBASE_PAGE_SIZE) →
  (∀ x d', P x d' → d' ≠ d ∨ id ∈ ps_unsaved b) →
  (∀ s' x d', P x d' → ps_rep s' (spec_write id d' b) → Q x s') →
  wp (write_page f m) s Q.
Proof using Hbytes.
  intros Hrep Hpin Hd Hm Hdirty HQ. eapply write_page_wp; [done..|]. intros s' x d' HP Hrep'.
  apply (HQ s' x d'); [done|]. destruct (decide (d' = d)) as [->|]; [|done].
  destruct (Hdirty _ _ HP) as [|Hu]; [done|]. destruct b as [cap nx pages pinned unsaved]. unfold spec_write. cbn in *.
  rewrite insert_id by done. by replace ({[id]} ∪ unsaved) with unsaved by set_solver.
Qed.

(** The store after the content of page [id] was replaced. *)
Definition put_content (id : Z) (d : list byte) a : pstate (list byte) :=
  mkPState (ps_cap a) (ps_next a) (<[id := d]> (ps_pages a)) (ps_pinned a) (ps_unsaved a).
Definition extended (id new : Z) (d2 d3 : list byte) a : pstate (list byte) :=
  mkPState (ps_cap a) (ps_next a + 1) (<[new := d3]> (<[id := d2]> (ps_pages a))) (ps_pinned a) (ps_unsaved a).

Lemma unpin_written a id f d :
  idle a id → id ∉ ps_unsaved a → spec_unpin id f 1 true (spec_write id d (spec_pin id f 1 a)) = put_content id d a.
Proof.
  intros Hidle Hu. destruct a as [cap nx pages pinned unsaved]. unfold spec_unpin, spec_pin, spec_write, put_content, idle in *. cbn in *.
  rewrite delete_insert_eq, delete_id by done. f_equal. set_solver.
Qed.

Lemma unpin_extended a id new f g d0 d1 d2 d3 :
  new = ps_next a → idle a id → idle a new → id ≠ new → id ∉ ps_unsaved a → new ∉ ps_unsaved a →
  spec_unpin new g 1 true (spec_write new d3 (spec_unpin id f 1 true (spec_write id d2
    (spec_write new d1 (spec_new d0 g (spec_pin id f 1 a)))))) = extended id new d2 d3 a.
Proof.
  intros -> Hid Hnew Hne Hu1 Hu2. destruct a as [cap nx pages pinned unsaved].
  unfold spec_unpin, spec_pin, spec_write, spec_new, extended, idle in *. cbn in *. f_equal.
  - apply map_eq. intros j. destruct (decide (j = nx)) as [->|]; [by simplify_map_eq|].
    destruct (decide (j = id)) as [->|]; by simplify_map_eq.
  - apply map_eq. intros j. destruct (decide (j = nx)) as [->|]; [by simplify_map_eq|].
    destruct (decide (j = id)) as [->|]; by simplify_map_eq.
  - set_solver.
Qed.

Lemma heap_ids_bound s a h : ∀ id,
  ps_rep s a → heap_at (ps_pages a) id h → ∀ j, j ∈ h.*1 → 0 ≤ j < ps_next a.
Proof.
  induction h as [|[id0 slots] h IH]; intros id Hrep Hh j Hj; cbn in Hj; [set_solver|].
  inversion Hh; subst. apply elem_of_cons in Hj as [->|Hj]; [by eapply ps_rep_pages|by eapply IH].
Qed.

(** The heap [h'] has one more tuple, in the slot [rid]. *)
Definition inserted (new : Z) (h : list (Z * list (list byte))) (bs : list byte) (rid : RID)
    (h' : list (Z * list (list byte))) : Prop :=
  (∃ pre id slots post, h = pre ++ (id, slots) :: post ∧ h' = pre ++ (id, slots ++ [bs]) :: post ∧
     rid = mkRID id (length slots)) ∨
  (h' = h ++ [(new, [bs])] ∧ rid = mkRID new 0).

Definition same_pins a a' : Prop :=
  ps_cap a' = ps_cap a ∧ ps_pinned a' = ps_pinned a ∧ ps_unsaved a' = ps_unsaved a.

(** What [insert_loop] promises about the chain it was started on. *)
Definition insert_post a id (h : list (Z * list (list byte))) bs (o : option RID) (s' : St) : Prop :=
  ∃ rid h' a', o = Some rid ∧ ps_rep s' a' ∧ heap_at (ps_pages a') id h' ∧ inserted (ps_next a) h bs rid h' ∧
    same_pins a a' ∧ ps_next a ≤ ps_next a' ≤ ps_next a + 1 ∧ h'.*1 ⊆ h.*1 ++ [ps_next a] ∧
    ∀ j, j ∉ h.*1 → j ≠ ps_next a → ps_pages a' !! j = ps_pages a !! j.

Lemma insert_post_next a id0 slots d next fsp rest bs o s' :
  ps_pages a !! id0 = Some d → page_rep d next fsp slots → id0 ∉ rest.*1 → id0 ≠ ps_next a → rest ≠ [] →
  insert_post a next rest bs o s' → insert_post a id0 ((id0, slots) :: rest) bs o s'.
Proof.
  intros Hd Hpage Hnot Hne Hrest (rid & h' & a' & -> & Hrep & Hheap & Hins & Hpins & Hnx & Hids & Hother).
  exists rid, ((id0, slots) :: h'), a'. split_and!; try done; try lia; cbn.
  - eapply heap_page; [by rewrite Hother|done|set_solver|done].
  - destruct Hins as [(pre & id & sl & post & -> & -> & ->)|[-> ->]]; [left|by right].
    by exists ((id0, slots) :: pre), id, sl, post.
  - set_solver.
  - intros j Hj. apply Hother. set_solver.
Qed.

Lemma page_num_differs d d' next fsp slots next' fsp' slots' :
  page_rep d next fsp slots → page_rep d' next' fsp' slots' → length slots ≠ length slots' ∨ next ≠ next' → d' ≠ d.
Proof.
  intros H1 H2 Hne ->. pose proof (page_num _ _ _ _ H1). pose proof (page_num _ _ _ _ H2).
  pose proof (page_next _ _ _ _ H1). pose proof (page_next _ _ _ _ H2). destruct Hne; [|congruence]. assert (length slots = length slots'); [|done].
  apply Nat2Z.inj. congruence.
Qed.

(** The new page at the end of the chain. *)
Lemma extend_wp s a id f d fsp slots bs :
  ps_rep s (spec_pin id f 1 a) → (∃ s0, ps_rep s0 a) → ps_pages a !! id = Some d → idle a id →
  page_rep d INVALID_PAGE_ID fsp slots → room 2 a → ps_next a < INT32_MAX → length bs ≤ 4076 →
  wp (new_page ← ps_new_page;
      match new_page with
      | None => ps_unpin_page id false;; mret None
      | Some (new_page_id, g) =>
        write_page g (Init INVALID_PAGE_ID);;
        write_page f (SetNextPageId new_page_id);;
        ps_unpin_page id true;;
        new_slot ← write_page g (TablePage.InsertTuple bs);
        ps_unpin_page new_page_id true;;
        mret ((fun slot_num => mkRID new_page_id slot_num) <$> new_slot)
      end) s (fun o s' => o = Some (mkRID (ps_next a) 0) ∧ ∃ d2 d3 fsp3,
        page_rep d2 (ps_next a) fsp slots ∧ page_rep d3 INVALID_PAGE_ID fsp3 [bs] ∧
        ps_rep s' (extended id (ps_next a) d2 d3 a)).
Proof using Hbytes.
  intros Hrep [s0 Hrep0] Hd Hidle Hpage Hroom Hnext Hbs. unfold room in Hroom.
  destruct (ps_rep_pages s0 a id d Hrep0 Hd) as [Hpos _].
  set (new := ps_next a). assert (idle a new) as Hnew.
  { apply eq_None_not_Some. intros [[g c] Hp]. destruct (ps_rep_pinned s0 a new g c Hrep0 Hp) as [_ [d' Hd']].
    destruct (ps_rep_pages s0 a new d' Hrep0 Hd'). subst new. lia. }
  assert (size (ps_pinned (spec_pin id f 1 a)) = S (size (ps_pinned a))) as Hsize by (by apply map_size_insert_None).
  wp_step. eapply wp_mono; [apply (ps_new_spec s _ Hrep); [done|rewrite Hsize; cbn; lia]|]. cbn [spec_pin ps_next]. fold new.
  intros o s1 (g & -> & Hrep1). cbn beta iota. assert (id ≠ new) by (subst new; lia).
  pose proof (proj1 (Hbytes _) ps_zero_ok) as Hzero.
  wp_step. eapply (write_dirty_wp s1 _ new g 1 ps_zero _ (fun _ d1 => page_rep d1 INVALID_PAGE_ID ONEBASE_PAGE_SIZE [])).
  { exact Hrep1. } { apply lookup_insert_eq. } { apply lookup_insert_eq. }
  { eapply wp_mono; [by apply Init_wp|]. intros [] d1 Hd1. split; [done|apply Hd1]. }
  { right. cbn. set_solver. }
  intros s2 [] d1 Hd1 Hrep2. wp_step. eapply (write_dirty_wp s2 _ id f 1 d _ (fun _ d2 => page_rep d2 new fsp slots)).
  { exact Hrep2. } { cbn. fold new. by rewrite lookup_insert_ne, lookup_insert_eq. }
  { cbn. fold new. by rewrite !lookup_insert_ne. }
  { eapply wp_mono; [apply (SetNextPageId_wp d _ _ _ new Hpage)|].
    { apply in_int32_iff. unfold INT32_MIN, INT32_MAX in *. subst new. lia. } intros [] d2 Hd2. split; [done|apply Hd2]. }
  { intros [] d2 Hd2. left. eapply page_num_differs; [exact Hpage|exact Hd2|right]. unfold INVALID_PAGE_ID. lia. }
  intros s3 [] d2 Hd2 Hrep3. wp_step. eapply wp_mono.
  { eapply (ps_unpin_spec s3 _ id f 1 true Hrep3); [|by left]. cbn. fold new. by rewrite lookup_insert_ne, lookup_insert_eq. }
  intros b s4 [-> Hrep4]. wp_step.
  eapply (write_dirty_wp s4 _ new g 1 d1 _ (fun o d3 => o = Some 0 ∧ page_rep d3 INVALID_PAGE_ID (ONEBASE_PAGE_SIZE - length bs) [bs])).
  { exact Hrep4. } { cbn. fold new. rewrite bool_decide_true, lookup_delete_ne, lookup_insert_eq; done. }
  { cbn. fold new. rewrite lookup_insert_ne, lookup_insert_eq; done. }
  { eapply wp_mono; [apply (InsertTuple_wp d1 _ _ _ bs Hd1)|]. intros o d3.
    rewrite bool_decide_true by (unfold free_space, ONEBASE_PAGE_SIZE; cbn; lia). intros [-> Hd3]. split; [done|apply Hd3]. }
  { right. cbn. fold new. set_solver. }
  intros s5 o d3 [-> Hd3] Hrep5. wp_step. eapply wp_mono.
  { eapply (ps_unpin_spec s5 _ new g 1 true Hrep5); [|by left]. cbn. fold new. rewrite bool_decide_true, lookup_delete_ne, lookup_insert_eq; done. }
  intros b s6 [-> Hrep6]. wp_step. split; [done|]. exists d2, d3, (ONEBASE_PAGE_SIZE - length bs). split_and!; [done|done|].
  rewrite unpin_extended in Hrep6; try done; by eapply idle_saved.
Qed.

Lemma insert_loop_wp bs h : ∀ fuel s a id,
  ps_rep s a → heap_at (ps_pages a) id h → h ≠ [] → chain_idle a h → room 2 a → (length h ≤ fuel)%nat →
  ps_next a < INT32_MAX → length bs ≤ 4076 →
  wp (insert_loop fuel id bs) s (insert_post a id h bs).
Proof using Hbytes.
  induction h as [|[id0 slots] rest IH]; intros [|fuel] s a id Hrep Hheap Hne Hidle Hroom Hfuel Hnext Hbs;
    try done; try (cbn in Hfuel; lia).
  inversion Hheap as [|? d next fsp ? ? Hd Hpage Hnotin Hrest]; subst.
  apply Forall_cons in Hidle as [Hid0 Hidle]. cbn [fst] in Hid0.
  destruct (ps_rep_pages s a id0 d Hrep Hd) as [Hpos _].
  cbn [insert_loop]. rewrite bool_decide_false by (unfold INVALID_PAGE_ID; lia).
  assert (room 1 a) as Hroom1 by (unfold room in *; lia).
  wp_step. apply (fetch_wp s a id0 d); [done..|]. intros f s1 Hrep1. cbn beta iota.
  assert (ps_pinned (spec_pin id0 f 1 a) !! id0 = Some (f, 1)) as Hpin by apply lookup_insert_eq.
  wp_step. pose proof (InsertTuple_wp d next fsp slots bs Hpage) as Hins.
  case_bool_decide as Hfit.
  - eapply (write_dirty_wp s1 _ id0 f 1 d _ (fun o d' => o = Some (Z.of_nat (length slots)) ∧
      page_rep d' next (fsp - length bs) (slots ++ [bs]))); [exact Hrep1|exact Hpin|exact Hd| | |].
    { eapply wp_mono; [exact Hins|]. intros o d' [-> Hd']. split; [done|apply Hd']. }
    { intros o d' [_ Hd']. left. eapply page_num_differs; [exact Hpage|exact Hd'|left]. rewrite length_app. cbn. lia. }
    intros s2 o d' [-> Hd'] Hrep2. wp_step. eapply wp_mono.
    { eapply (ps_unpin_spec s2 _ id0 f 1 true Hrep2); [exact Hpin|by left]. }
    intros b s3 [-> Hrep3]. wp_step. rewrite unpin_written in Hrep3 by (done || by eapply idle_saved).
    exists (mkRID id0 (length slots)), ((id0, slots ++ [bs]) :: rest), (put_content id0 d' a). split_and!; try done; try (cbn; lia); cbn.
    + eapply heap_page; [apply lookup_insert_eq|done|done|].
      eapply heap_at_frame; [done|]. intros j Hj. apply lookup_insert_ne. by intros <-.
    + left. by exists [], id0, slots, rest.
    + set_solver.
    + intros j Hj _. apply lookup_insert_ne. set_solver.
  - eapply write_page_wp; [exact Hrep1|exact Hpin|exact Hd| |].
    { eapply wp_mono; [exact Hins|]. intros o d' Hp. split; [exact Hp|]. destruct Hp as [_ ->]. apply Hpage. }
    intros s2 o d' [-> ->] Hrep2. rewrite decide_True in Hrep2 by done.
    wp_step. eapply read_page_wp; [exact Hrep2|exact Hpin|exact Hd| |].
    { unfold GetNextPageId. eapply wp_get_s32; [apply Hpage|]. by split. }
    case_bool_decide as Hend.
    + subst next. assert (rest = []) as ->.
      { inversion Hrest as [|? d' ? ? ? ? Hd']; subst; [done|]. destruct (ps_rep_pages s a _ d' Hrep Hd'). unfold INVALID_PAGE_ID in *. lia. }
      eapply wp_mono; [apply (extend_wp s2 a id0 f d fsp slots bs); by eauto|].
      intros o s3 (-> & d2 & d3 & fsp3 & Hd2 & Hd3 & Hrep3).
      exists (mkRID (ps_next a) 0), [(id0, slots); (ps_next a, [bs])], (extended id0 (ps_next a) d2 d3 a).
      split_and!; try done; try (cbn; lia); cbn.
      * assert (id0 ≠ ps_next a) by lia.
        eapply heap_page; [rewrite lookup_insert_ne, lookup_insert_eq; done|exact Hd2|set_solver|].
        eapply heap_page; [apply lookup_insert_eq|exact Hd3|set_solver|constructor].
      * by right.
      * intros j Hj1 Hj2. rewrite !lookup_insert_ne; [done|set_solver|done].
    + wp_step. apply (unpin_read_wp s2 s a id0 f); [done..|]. intros s3 Hrep3.
      assert (rest ≠ []) as Hrne by (inversion Hrest; subst; done).
      eapply wp_mono; [apply (IH fuel s3 a next); try done; cbn in Hfuel; lia|].
      intros o s4. eapply insert_post_next; [done..|lia|done].
Qed.

Lemma live_slots_snoc id slots bs :
  bs ≠ [] → live_slots id 0 (slots ++ [bs]) = live_slots id 0 slots ++ [(mkRID id (length slots), bs)].
Proof.
  intros Hbs. unfold live_slots. rewrite imap_app, filter_app. f_equal. cbn.
  rewrite Nat.add_0_r. by destruct (decide (bs ≠ [])).
Qed.

Lemma live_from_pages h : live_from h 0 = live_pages h.
Proof. by destruct h as [|[id slots] h]. Qed.

Lemma live_inserted new h bs rid h' :
  inserted new h bs rid h' → bs ≠ [] → live_from h' 0 ≡ₚ (rid, bs) :: live_from h 0.
Proof.
  intros Hins Hbs. rewrite !live_from_pages. unfold live_pages.
  destruct Hins as [(pre & id & slots & post & -> & -> & ->)|[-> ->]]; rewrite !bind_app.
  - rewrite !bind_cons. cbn [fst snd]. rewrite live_slots_snoc by done. solve_Permutation.
  - rewrite bind_cons. cbn [fst snd]. pose proof (live_slots_snoc new [] bs Hbs) as Hl. cbn [app] in Hl. rewrite Hl. cbn.
    solve_Permutation.
Qed.

Lemma inserted_length new h bs rid h' : inserted new h bs rid h' → (length h' ≤ S (length h))%nat ∧ h' ≠ [].
Proof.
  intros [(pre & id & slots & post & -> & -> & ->)|[-> ->]]; rewrite !length_app; cbn; split; try lia.
  - by destruct pre.
  - by destruct h.
Qed.

Lemma TableHeap_new_wp s a :
  ps_rep s a → room 1 a → ps_next a < INT32_MAX →
  wp TableHeap_new s (fun id s' => id = ps_next a ∧ ∃ a', ps_rep s' a' ∧ heap_at (ps_pages a') id [(id, [])] ∧
    same_pins a a' ∧ ps_next a' = ps_next a + 1 ∧ ∀ j, j ≠ id → ps_pages a' !! j = ps_pages a !! j).
Proof using Hbytes.
  intros Hrep Hroom Hnext. unfold TableHeap_new. unfold room in Hroom.
  assert (idle a (ps_next a)) as Hnew.
  { apply eq_None_not_Some. intros [[g c] Hp]. destruct (ps_rep_pinned s a _ g c Hrep Hp) as [_ [d' Hd']].
    destruct (ps_rep_pages s a _ d' Hrep Hd'). lia. }
  wp_step. eapply wp_mono; [apply (ps_new_spec s _ Hrep); [done|lia]|]. intros o s1 (g & -> & Hrep1). cbn beta iota.
  pose proof (proj1 (Hbytes _) ps_zero_ok) as Hzero.
  wp_step. eapply (write_dirty_wp s1 _ (ps_next a) g 1 ps_zero _ (fun _ d1 => page_rep d1 INVALID_PAGE_ID ONEBASE_PAGE_SIZE [])).
  { exact Hrep1. } { apply lookup_insert_eq. } { apply lookup_insert_eq. }
  { eapply wp_mono; [by apply Init_wp|]. intros [] d1 Hd1. split; [done|apply Hd1]. }
  { right. cbn. set_solver. }
  intros s2 [] d1 Hd1 Hrep2. wp_step. eapply wp_mono.
  { eapply (ps_unpin_spec s2 _ (ps_next a) g 1 true Hrep2); [apply lookup_insert_eq|by left]. }
  intros b s3 [-> Hrep3]. wp_step. split; [done|]. eexists. split; [exact Hrep3|]. cbn.
  pose proof (idle_saved s a _ Hrep Hnew). unfold same_pins; cbn; split_and!; [|done| |  |done|].
  - eapply heap_page; [apply lookup_insert_eq|exact Hd1|set_solver|constructor].
  - rewrite delete_insert_eq. by apply delete_id.
  - set_solver.
  - intros j Hj. by rewrite !lookup_insert_ne by done.
Qed.

(** ** Properties *)

(** C26: iterating over a heap with [Begin], [operator++] and [GetTuple] returns
    every tuple that was not deleted, once, in the order of the chain, whatever
    pages are evicted on the way, and leaves the store as it was. *)
Theorem heap_scan_complete s a first h rounds fuel :
  ps_rep s a → heap_at (ps_pages a) first h → chain_idle a h → room 1 a →
  (length h < fuel)%nat → (length (live_pages h) < rounds)%nat →
  wp (scan_heap rounds fuel first) s (fun ts s' => ps_rep s' a ∧ ts = map stored_tuple (live_pages h)).
Proof using Hbytes.
  intros Hrep Hheap Hidle Hroom Hfuel Hrounds. rewrite <-live_from_pages in *.
  apply (scan_wp fuel rounds h s a first 0); try done. intros. lia.
Qed.

Fixpoint insert_all (fuel : nat) (first : Z) (ts : list Tuple) : M St (list (option RID)) :=
  match ts with
  | [] => mret []
  | t :: ts' => o ← InsertTuple fuel first t; os ← insert_all fuel first ts'; mret (o :: os)
  end.

Lemma insert_all_wp fuel first : ∀ ts s a h,
  ps_rep s a → heap_at (ps_pages a) first h → h ≠ [] → ps_pinned a = ∅ → (2 ≤ ps_cap a)%nat →
  (length h + length ts ≤ fuel)%nat → ps_next a + length ts < INT32_MAX →
  Forall (fun t => data_ t ≠ [] ∧ length (data_ t) ≤ 4076) ts →
  wp (insert_all fuel first ts) s (fun os s' => ∃ rids a' h', os = map Some rids ∧ ps_rep s' a' ∧
    heap_at (ps_pages a') first h' ∧ ps_pinned a' = ∅ ∧ ps_cap a' = ps_cap a ∧ (length h' ≤ length h + length ts)%nat ∧
    live_pages h' ≡ₚ zip rids (map data_ ts) ++ live_pages h ∧ length rids = length ts ∧ ps_next a' ≤ ps_next a + length ts).
Proof using Hbytes.
  induction ts as [|t ts IH]; intros s a h Hrep Hheap Hne Hpin Hcap Hfuel Hnext Hts; cbn [insert_all].
  { wp_step. exists [], a, h. split_and!; try done; cbn; lia. }
  apply Forall_cons in Hts as [[Ht1 Ht2] Hts].
  assert (chain_idle a h) as Hidle by (apply Forall_forall; intros x _; unfold idle; rewrite Hpin; apply lookup_empty).
  cbn in Hfuel, Hnext.
  wp_step. unfold InsertTuple. eapply wp_mono; [apply (insert_loop_wp (data_ t) h fuel s a first); try done;
    [unfold room; rewrite Hpin, map_size_empty; lia|lia|lia]|].
  intros o s1 (rid & h1 & a1 & -> & Hrep1 & Hheap1 & Hins & (Hc & Hp & _) & Hnx & _ & _).
  destruct (inserted_length _ _ _ _ _ Hins) as [Hlen1 Hne1].
  wp_step. eapply wp_mono; [apply (IH s1 a1 h1); try done; try lia; congruence|].
  intros os s2 (rids & a2 & h2 & -> & Hrep2 & Hheap2 & Hpin2 & Hcap2 & Hlen2 & Hlive2 & Hrids & Hnext2). wp_step.
  exists (rid :: rids), a2, h2. split_and!; try done; try (cbn; lia).
  cbn [map zip]. rewrite Hlive2, <-!(live_from_pages h1), <-(live_from_pages h), (live_inserted _ _ _ _ _ Hins Ht1).
  cbn. solve_Permutation.
Qed.

(** C11: a new heap that tuples of at most 4076 bytes were inserted into holds
    exactly those: every insert succeeds with a record identifier, and a scan
    returns each tuple once, under its identifier, however many pages the chain
    has grown to, as long as two frames of the pool can be used. *)
Theorem heap_holds_inserted s a ts fuel rounds :
  ps_rep s a → ps_pinned a = ∅ → (2 ≤ ps_cap a)%nat → ps_next a + 1 + length ts < INT32_MAX →
  Forall (fun t => data_ t ≠ [] ∧ length (data_ t) ≤ 4076) ts →
  (S (length ts) < fuel)%nat → (length ts < rounds)%nat →
  wp (first ← TableHeap_new; os ← insert_all fuel first ts; out ← scan_heap rounds fuel first; mret (os, out)) s
    (fun '(os, out) _ => ∃ rids, os = map Some rids ∧ length rids = length ts ∧
       out ≡ₚ map stored_tuple (zip rids (map data_ ts))).
Proof using Hbytes.
  intros Hrep Hpin Hcap Hnext Hts Hfuel Hrounds. wp_step.
  eapply wp_mono; [apply (TableHeap_new_wp s a Hrep); [unfold room; rewrite Hpin, map_size_empty; lia|lia]|].
  intros first s1 (-> & a1 & Hrep1 & Hheap1 & (Hc1 & Hp1 & _) & Hn1 & _). wp_step.
  eapply wp_mono; [eapply (insert_all_wp fuel _ ts s1 a1); [done|exact Hheap1|done|congruence|lia|cbn; lia|lia|done]|].
  intros os s2 (rids & a2 & h2 & -> & Hrep2 & Hheap2 & Hp2 & Hc2 & Hlen2 & Hlive & Hrids & _). cbn in Hlen2.
  assert (live_pages h2 ≡ₚ zip rids (map data_ ts)) as Hlive' by (rewrite Hlive; cbn; by rewrite app_nil_r).
  wp_step. eapply wp_mono.
  { rewrite <-live_from_pages in Hlive'.
    apply (scan_wp fuel rounds h2 s2 a2 (ps_next a) 0); try done; [|unfold room; rewrite Hp2, map_size_empty; lia|lia|intros; lia|].
    - apply Forall_forall. intros x _. unfold idle. rewrite Hp2. apply lookup_empty.
    - rewrite Hlive', length_zip, length_map. lia. }
  intros out s3 [_ ->]. wp_step. exists rids. split_and!; [done|done|]. rewrite live_from_pages. by rewrite Hlive'.
Qed.
End rules.

(** ** A heap in a pool of two frames over an empty file *)
Definition heap_pool : BufferPoolManager DiskManager (list byte) :=
  BufferPoolManager_new 2 (DiskManager_new []) 2.
Definition heap_spec : pstate (list byte) := mkPState 2 0 ∅ ∅ ∅.

Lemma heap_pool_rep : ps_rep heap_pool heap_spec.
Proof.
  change (pool_rep None heap_pool heap_spec). unfold heap_pool, heap_spec. change 0 with (next_id (DiskManager_new [])).
  apply BufferPoolManager_new_rep; [done|by vm_compute|lia].
Qed.

Lemma disk_pages d : ps_ok (S := BufferPoolManager DiskManager (list byte)) d ↔ Z.of_nat (length d) = ONEBASE_PAGE_SIZE.
Proof. done. Qed.

Definition demo_tuples : list Tuple :=
  [mkTuple RID_default (replicate 3000 Byte.x61) []; mkTuple RID_default (replicate 3000 Byte.x62) []].

Example heap_holds_inserted_witness :
  wp (first ← TableHeap_new; os ← insert_all 4 first demo_tuples; out ← scan_heap 3 4 first; mret (os, out)) heap_pool
    (fun '(os, out) _ => ∃ rids, os = map Some rids ∧ length rids = length demo_tuples ∧
       out ≡ₚ map stored_tuple (zip rids (map data_ demo_tuples))).
Proof.
  apply (heap_holds_inserted disk_pages _ _ _ _ _ heap_pool_rep); [done|done|by vm_compute| |cbn; lia|cbn; lia].
  constructor; [split; [done|by vm_compute]|]. constructor; [split; [done|by vm_compute]|constructor].
Defined.

Example heap_scan_complete_witness :
  wp TableHeap_new heap_pool (fun first s =>
    wp (scan_heap 1 2 first) s (fun ts _ => ts = [])).
Proof.
  eapply wp_mono; [apply (TableHeap_new_wp disk_pages _ _ heap_pool_rep); [by apply Nat.leb_le; vm_compute|by vm_compute]|].
  intros first s (-> & a & Hrep & Hheap & (Hc & Hp & Hu) & _).
  eapply wp_mono; [eapply (heap_scan_complete disk_pages s a 0 [(0, [])] 1 2 Hrep Hheap)|].
  - constructor; [|constructor]. unfold idle. rewrite Hp. done.
  - unfold room. rewrite Hp, Hc. by apply Nat.leb_le; vm_compute.
  - cbn. lia.
  - cbn. lia.
  - by intros ts s' [_ ->].
Defined.
