(* ===== verification/Restart.v ===== *)
(** * Closing and reopening the database

    The end of a program that uses a database, and the start of the next one on the
    same file: the destructor of the buffer pool ([src/buffer/buffer_pool_manager.cpp]),
    then that of the disk manager ([src/storage/disk/disk_manager.cpp]), as the members
    of [OneBaseInstance] are destroyed, and the constructors over the bytes that are
    left in the file. *)
From coqutil Require Import Byte.
From S2P Require Import Prelude Interfaces Bytes DiskManager LRUKReplacer BufferPool BufferPoolSpec Tuple TablePage TableHeap.

#[local] Open Scope Z_scope.
#[local] Coercion Z.of_nat : nat >-> Z.

Section restart.
Context `{IterOrder}.
Abbreviation pool := (BufferPoolManager DiskManager (list byte)).
Implicit Types (s : pool) (a : pstate (list byte)).

(** What the members leave behind: the bytes of the file. *)
Definition destroy s : outcome (list byte) :=
  ((DiskManager_destroy;; gets (fun m => file (db_io_ m))) (BufferPoolManager_destroy s)).1.

Definition reopen (bytes : list byte) (pool_size replacer_k : nat) : pool :=
  BufferPoolManager_new pool_size (DiskManager_new bytes) replacer_k.

Lemma destroy_file s : destroy s = Ret (file (db_io_ (disk_manager_ s))).
Proof. unfold destroy, DiskManager_destroy. by rewrite (bind_Ret _ _ _ _ _ (ShutDown_closes _)). Qed.

(** A pool over the file that was left behind knows every page that was on the disk. *)
Lemma reopen_stored s n replacer_k (pages : gmap Z (list byte)) :
  disk_ok (disk_manager_ s) → (0 < replacer_k)%nat →
  (∀ id d, pages !! id = Some d → stored (disk_manager_ s) id = Some d) →
  pool_rep None (reopen (file (db_io_ (disk_manager_ s))) n replacer_k)
    (mkPState n (length (file (db_io_ (disk_manager_ s))) / ONEBASE_PAGE_SIZE) pages ∅ ∅).
Proof.
  intros Hok Hk Hpages. destruct (DiskManager_new_next _ Hok) as (Hnext & Hrange & Hok').
  rewrite <-Hnext in *. unfold reopen. set (m := DiskManager_new _) in *.
  change (next_page_id_ m) with (next_id m). apply BufferPoolManager_new_stored; [done|done|done|].
  intros id d Hd%Hpages%DiskManager_new_pages. change (next_id m) with (next_page_id_ m). by rewrite Hnext.
Qed.
End restart.

(** ** Properties *)

(** C10: a flushed pool survives a restart.  After [FlushAllPages] the program may end
    and another one may open the file with a pool of any size: it has every live page
    with its content, as a pool in which no page is pinned, and the ids that it hands
    out to new pages are those of no live page. *)
Theorem restart_after_flush `{IterOrder} (s : BufferPoolManager DiskManager (list byte)) a n replacer_k :
  pool_rep None s a → (0 < replacer_k)%nat →
  wp FlushAllPages s (fun _ s' => ∃ bytes next, destroy s' = Ret bytes ∧
    pool_rep None (reopen bytes n replacer_k) (mkPState n next (ps_pages a) ∅ ∅)).
Proof.
  intros Hrep Hk. eapply wp_mono; [by apply FlushAllPages_wp|]. intros _ s' (Hrep' & _ & Hsto).
  eexists _, _. split; [apply destroy_file|]. apply reopen_stored; [apply (rep_inv _ _ _ Hrep')|done|done].
Qed.

(** The rows of a heap that two pages hold, read by a pool of one frame after the
    restart. *)
Example restart_after_flush_witness :
  wp (first ← TableHeap_new; os ← insert_all 4 first demo_tuples; mret first) heap_pool (fun first s =>
    wp FlushAllPages s (fun _ s' => ∃ bytes, destroy s' = Ret bytes ∧
      wp (scan_heap 3 4 first) (reopen bytes 1 2) (fun ts _ =>
        data_ <$> ts ≡ₚ data_ <$> demo_tuples))).
Proof.
  wp_step. eapply wp_mono; [apply (TableHeap_new_wp disk_pages _ _ heap_pool_rep); [by apply Nat.leb_le; vm_compute|by vm_compute]|].
  intros first s (-> & a & Hrep & Hheap & (Hc & Hp & Hu) & Hn & _). wp_step.
  eapply wp_mono; [eapply (insert_all_wp disk_pages 4 _ demo_tuples s a); [exact Hrep|exact Hheap|done|by rewrite Hp|by rewrite Hc|cbn; lia| |]|].
  { rewrite Hn. by vm_compute. }
  { constructor; [split; [done|by vm_compute]|]. constructor; [split; [done|by vm_compute]|constructor]. }
  intros os s1 (rids & a1 & h1 & -> & Hrep1 & Hheap1 & Hp1 & Hc1 & Hlen1 & Hlive & Hrids & _). wp_step.
  eapply wp_mono; [apply (restart_after_flush s1 a1 1 2 Hrep1); lia|].
  intros _ s2 (bytes & next & Hbytes & Hrep2). exists bytes. split; [done|].
  assert (live_pages h1 ≡ₚ zip rids (map data_ demo_tuples)) as Hlive' by (rewrite Hlive; cbn; by rewrite app_nil_r).
  cbn in Hlen1. rewrite <-live_from_pages in Hlive'.
  eapply wp_mono.
  { apply (scan_wp 4 3 h1 (reopen bytes 1 2) (mkPState 1 next (ps_pages a1) ∅ ∅) 0 0); try done; [|by apply Nat.leb_le; vm_compute|lia|intros; lia|].
    - apply Forall_forall. intros x _. done.
    - rewrite Hlive', length_zip, length_map. cbn. lia. }
  intros ts s3 [_ ->]. rewrite Hlive'.
  destruct rids as [|r1 [|r2 [|]]]; try done.
Defined.

(** Nothing else writes the pages out: the destructors do not, and the server and the
    shell end without calling [FlushAllPages].  The same rows in the same pool are not
    in the file when the program ends. *)
Lemma unflushed_rows_lost :
  wp (first ← TableHeap_new; insert_all 4 first demo_tuples) heap_pool (fun os s =>
    os = [Some (mkRID 0 0); Some (mkRID 1 0)] ∧ destroy s = Ret []).
Proof. by vm_compute. Qed.
