(* ===== verification/HeapCursor.v ===== *)
(** * Cursors over a table heap

    What the executors and the catalog use of [TableHeap::Iterator]: a cursor at
    the rest [l] of the live tuples is dereferenced to the head of [l] and
    incremented to its tail, and changes to tuples that it has passed do not move
    it. *)
From coqutil Require Import Byte.
From S2P Require Import Prelude Interfaces Tuple TablePage TableHeap.

#[local] Open Scope Z_scope.
#[local] Coercion Z.of_nat : nat >-> Z.

(** A heap that can be read: its pages are not pinned by others and there is a
    frame for one more page. *)
Record readable (fuel : nat) (a : pstate (list byte)) (first : Z) (h : list (Z * list (list byte))) : Prop := {
  readable_heap : heap_at (ps_pages a) first h;
  readable_idle : chain_idle a h;
  readable_room : room 1 a;
  readable_fuel : (length h < fuel)%nat;
}.

(** A row is also found by its identifier. *)
Lemma live_pages_at m first h x :
  heap_at m first h → x ∈ live_pages h →
  ∃ id slots rest (j : nat), heap_at m id ((id, slots) :: rest) ∧ x.1 = mkRID id j ∧ slots !! j = Some x.2 ∧ id ∈ h.*1.
Proof.
  induction 1 as [|id d next fsp slots rest Hd Hpage Hnotin Hrest IH]; [by intros ?%elem_of_nil|].
  unfold live_pages. cbn [mbind list_bind]. rewrite elem_of_app. intros [Hx|Hx].
  - unfold live_slots in Hx. apply list_elem_of_filter in Hx as [_ Hx]. apply list_elem_of_lookup in Hx as [j Hj].
    rewrite list_lookup_imap in Hj. apply fmap_Some in Hj as (bs & Hbs & ->).
    exists id, slots, rest, j. split_and!; [by econstructor|done|done|cbn; set_solver].
  - destruct (IH Hx) as (id' & slots' & rest' & j & ? & ? & ? & ?). exists id', slots', rest', j. split_and!; try done. cbn. set_solver.
Qed.

(** No two rows have the same identifier. *)
Lemma live_slots_ids id i slots x : x ∈ live_slots id i slots → page_id_of x.1 = id.
Proof. unfold live_slots. intros [_ Hx]%list_elem_of_filter. apply list_elem_of_lookup in Hx as [j Hj]. rewrite list_lookup_imap in Hj. by apply fmap_Some in Hj as (bs & _ & ->). Qed.

Lemma live_slots_nodup id slots : ∀ i, NoDup (live_slots id i slots).*1.
Proof.
  unfold live_slots. induction slots as [|bs slots IH]; intros i; [constructor|]. cbn [imap]. rewrite filter_cons.
  assert (imap ((λ j bs0, (mkRID id (i + j)%nat, bs0)) ∘ S) slots = imap (λ j bs0, (mkRID id (S i + j)%nat, bs0)) slots) as ->.
  { apply imap_ext. intros j y _. cbn. do 3 f_equal. lia. }
  destruct (decide _); [|apply IH]. cbn [fmap list_fmap fst]. apply NoDup_cons. split; [|apply IH].
  intros (y & Hy & Hin)%list_elem_of_fmap. apply list_elem_of_filter in Hin as [_ Hin]. apply list_elem_of_lookup in Hin as [j Hj].
  rewrite list_lookup_imap in Hj. apply fmap_Some in Hj as (bs' & _ & ->). cbn in Hy. injection Hy as Hy. lia.
Qed.

Lemma live_pages_nodup m first h : heap_at m first h → NoDup (live_pages h).*1.
Proof.
  induction 1 as [|id d next fsp slots rest Hd Hpage Hnotin Hrest IH]; [constructor|].
  unfold live_pages. cbn [mbind list_bind]. rewrite fmap_app. apply NoDup_app. split_and!; [apply live_slots_nodup| |exact IH].
  intros rid (x & -> & Hx)%list_elem_of_fmap (y & Hxy & Hy)%list_elem_of_fmap. apply live_slots_ids in Hx.
  destruct (live_pages_at _ _ _ _ Hrest Hy) as (id' & ? & ? & ? & _ & Hid & _ & Hin). cbn in Hx. rewrite Hxy, Hid in Hx. cbn in Hx. by subst id'.
Qed.

Section rules.
Context {St : Type} `{PageStoreSpec St (list byte)}.
Context (fuel : nat).
Implicit Types (s : St) (a : pstate (list byte)).

Lemma readable_tail a first pre id slots rest :
  readable fuel a first (pre ++ (id, slots) :: rest) → readable fuel a id ((id, slots) :: rest).
Proof.
  intros [Hheap Hidle Hroom Hfuel]. rewrite length_app in Hfuel. split; [by eapply heap_at_tail| |done|lia].
  unfold chain_idle in *. by apply Forall_app in Hidle as [_ Hidle].
Qed.

Lemma seek_cursor s a id h (i : nat) :
  ps_rep s a → readable fuel a id h → (∀ id slots rest, h = (id, slots) :: rest → i ≤ length slots)%nat →
  wp (seek_loop fuel id i) s (fun it s' => ps_rep s' a ∧ cursor h (live_from h i) it).
Proof. intros Hrep [Hheap Hidle Hroom Hfuel] Hi. by apply seek_wp. Qed.

Lemma Begin_cursor s a first h :
  ps_rep s a → readable fuel a first h →
  wp (Begin fuel first) s (fun it s' => ps_rep s' a ∧ cursor h (live_pages h) it).
Proof.
  intros Hrep Hread. rewrite <-live_from_pages. unfold Begin. change 0 with (Z.of_nat 0).
  apply seek_cursor; [done|done|]. intros. lia.
Qed.

Lemma cursor_at_end s a first h l it : ps_rep s a → readable fuel a first h → cursor h l it → it = End_rid ↔ l = [].
Proof.
  intros Hrep Hread Hc. destruct l as [|[rid bs] l]; cbn in Hc; [by split|]. split; [|done].
  destruct Hc as (-> & Hne & pre & id & slots & rest & j & -> & -> & _). intros [= -> _].
  pose proof (heap_at_bound s a _ _ Hrep (readable_heap _ _ _ _ (readable_tail _ _ _ _ _ _ Hread))). unfold INVALID_PAGE_ID in *. naive_solver lia.
Qed.

Lemma cursor_deref s a first h x l it :
  ps_rep s a → readable fuel a first h → cursor h (x :: l) it →
  wp (GetTuple it) s (fun t s' => t = stored_tuple x ∧ ps_rep s' a).
Proof.
  intros Hrep Hread Hc. destruct x as [rid bs]. destruct Hc as (-> & Hne & pre & id & slots & rest & j & -> & -> & Hj & _).
  apply readable_tail in Hread as [Hheap Hidle Hroom _]. apply Forall_cons in Hidle as [Hidle _]. by eapply GetTuple_heap_wp.
Qed.

Lemma cursor_mono pre h l it : cursor h l it → cursor (pre ++ h) l it.
Proof.
  unfold cursor. destruct l as [|[rid bs] l]; [done|]. intros (-> & Hne & pre' & id & slots & rest & j & -> & ?).
  split_and!; [done|done|]. exists (pre ++ pre'), id, slots, rest, j. by rewrite app_assoc.
Qed.

Lemma cursor_next s a first h x l it :
  ps_rep s a → readable fuel a first h → cursor h (x :: l) it →
  wp (increment fuel it) s (fun it' s' => ps_rep s' a ∧ cursor h l it').
Proof.
  intros Hrep Hread Hc. destruct x as [rid bs]. destruct Hc as (-> & Hne & pre & id & slots & rest & j & -> & -> & Hj & ->).
  apply readable_tail in Hread. unfold increment. cbn [page_id_of slot_num_of].
  pose proof (readable_heap _ _ _ _ Hread) as Hheap. inversion Hheap as [|? d next fsp ? ? Hd Hpage Hnotin Hrest]; subst.
  pose proof (lookup_lt_Some _ _ _ Hj) as Hlt. pose proof (page_slot_count _ _ _ _ Hpage) as Hcount.
  rewrite wrapu_small by lia. replace (j + 1) with (Z.of_nat (S j)) by lia.
  eapply wp_mono; [apply seek_cursor; [done|done|]|].
  - intros ??? [= <- <- <-]. lia.
  - intros it' s' [? ?]. split; [done|]. by apply cursor_mono.
Qed.

Lemma member_deref s a first h x :
  ps_rep s a → readable fuel a first h → x ∈ live_pages h →
  wp (GetTuple x.1) s (fun t s' => t = stored_tuple x ∧ ps_rep s' a).
Proof.
  intros Hrep [Hheap Hidle Hroom _] Hx. destruct (live_pages_at _ _ _ _ Hheap Hx) as (id & slots & rest & j & Hat & Hid & Hj & Hin).
  destruct x as [rid bs]. cbn in *. subst rid. eapply GetTuple_heap_wp; [done|done| |done|done].
  assert (Forall (idle a) h.*1) as Hids by by apply Forall_fmap. rewrite Forall_forall in Hids. by apply Hids.
Qed.
End rules.
