(* ===== verification/HeapChange.v ===== *)
(** * Changes to the tuples of a table heap

    [DeleteTuple] and [UpdateTuple] of [TableHeap] replace one slot of the heap.  A
    cursor that has passed the slot stays where it is, so a scan may change the rows
    it has returned. *)
From coqutil Require Import Byte.
From S2P Require Import Prelude Interfaces Bytes Tuple TablePage TableHeap HeapCursor.

#[local] Open Scope Z_scope.
#[local] Coercion Z.of_nat : nat >-> Z.

(** The heap with the bytes [bs] in the slot [rid]. *)
Definition set_slot (rid : RID) (bs : list byte) (h : list (Z * list (list byte))) : list (Z * list (list byte)) :=
  map (fun x => if decide (x.1 = page_id_of rid) then (x.1, <[Z.to_nat (slot_num_of rid) := bs]> x.2) else x) h.

Lemma set_slot_ids rid bs h : (set_slot rid bs h).*1 = h.*1.
Proof. unfold set_slot. induction h as [|[id slots] h IH]; [done|]. cbn. rewrite IH. by case_decide. Qed.

Lemma set_slot_length rid bs h : length (set_slot rid bs h) = length h.
Proof. apply length_map. Qed.

Lemma set_slot_app rid bs h h' : set_slot rid bs (h ++ h') = set_slot rid bs h ++ set_slot rid bs h'.
Proof. apply map_app. Qed.
Lemma set_slot_cons rid bs x h :
  set_slot rid bs (x :: h) = (if decide (x.1 = page_id_of rid) then (x.1, <[Z.to_nat (slot_num_of rid) := bs]> x.2) else x) :: set_slot rid bs h.
Proof. done. Qed.

Lemma set_slot_other rid bs h : page_id_of rid ∉ h.*1 → set_slot rid bs h = h.
Proof.
  unfold set_slot. induction h as [|[id slots] h IH]; [done|]. cbn. intros Hn. rewrite decide_False by set_solver. by rewrite IH by set_solver.
Qed.

Lemma set_slot_page pre id slots rest (j : nat) bs :
  NoDup (pre ++ (id, slots) :: rest).*1 →
  set_slot (mkRID id j) bs (pre ++ (id, slots) :: rest) = pre ++ (id, <[j := bs]> slots) :: rest.
Proof.
  rewrite fmap_app. intros (_ & Hpre & Hrest)%NoDup_app. cbn in Hpre, Hrest. apply NoDup_cons in Hrest as [Hrest _].
  rewrite set_slot_app, set_slot_cons. cbn [fst snd page_id_of slot_num_of]. rewrite decide_True, Nat2Z.id by done.
  rewrite !set_slot_other; [done|done|]. cbn. intros Hin. by eapply Hpre; [|left].
Qed.

Lemma heap_at_nodup m first h : heap_at m first h → NoDup h.*1.
Proof. induction 1; [constructor|]. by constructor. Qed.

(** Where a live tuple lies. *)
Lemma live_slots_app id i s1 s2 : live_slots id i (s1 ++ s2) = live_slots id i s1 ++ live_slots id (i + length s1) s2.
Proof.
  unfold live_slots. rewrite imap_app, filter_app. do 2 f_equal. apply imap_ext. intros j bs _. cbn. do 3 f_equal. lia.
Qed.
Lemma live_slots_cons id i bs s : live_slots id i (bs :: s) = (if decide (bs = []) then [] else [(mkRID id i, bs)]) ++ live_slots id (S i) s.
Proof.
  change (bs :: s) with ([bs] ++ s). rewrite live_slots_app. cbn [length]. rewrite Nat.add_1_r. f_equal.
  unfold live_slots. cbn [imap]. rewrite filter_cons. cbn [snd]. rewrite Nat.add_0_r. by repeat case_decide.
Qed.
Lemma live_pages_app h h' : live_pages (h ++ h') = live_pages h ++ live_pages h'.
Proof. apply bind_app. Qed.

Lemma live_pages_page pre id slots post : live_pages (pre ++ (id, slots) :: post) = live_pages pre ++ live_slots id 0 slots ++ live_pages post.
Proof. apply live_pages_app. Qed.

Lemma live_member h x : x ∈ live_pages h ↔ ∃ id slots (j : nat), (id, slots) ∈ h ∧ x.1 = mkRID id j ∧ slots !! j = Some x.2 ∧ x.2 ≠ [].
Proof.
  unfold live_pages, live_slots. rewrite list_elem_of_bind. destruct x as [rid bs]. cbn [fst snd]. split.
  - intros ([id slots] & [Hne Hx]%list_elem_of_filter & Hin). cbn in Hne, Hx. apply list_elem_of_lookup in Hx as [j Hj].
    rewrite list_lookup_imap in Hj. apply fmap_Some in Hj as (b & Hb & [= -> ->]). by exists id, slots, j.
  - intros (id & slots & j & Hin & -> & Hj & Hne). exists (id, slots). split; [|done]. apply list_elem_of_filter. split; [done|].
    apply list_elem_of_lookup. exists j. rewrite list_lookup_imap. cbn. by rewrite Hj.
Qed.

Lemma live_split h x : x ∈ live_pages h →
  ∃ pre id s1 s2 post, h = pre ++ (id, s1 ++ x.2 :: s2) :: post ∧ x.1 = mkRID id (length s1) ∧ x.2 ≠ [].
Proof.
  intros (id & slots & j & Hin & Hx & Hj & Hne)%live_member. apply list_elem_of_split in Hin as (pre & post & ->).
  exists pre, id, (take j slots), (drop (S j) slots), post. pose proof (lookup_lt_Some _ _ _ Hj).
  rewrite take_drop_middle, length_take, Nat.min_l by (done || lia). done.
Qed.

(** The live tuples after a change of one of them. *)
Definition revise (rid : RID) (bs : list byte) (x : RID * list byte) : option (RID * list byte) :=
  if decide (x.1 = rid) then if decide (bs = []) then None else Some (rid, bs) else Some x.

Lemma revise_same rid bs b : revise rid bs (rid, b) = if decide (bs = []) then None else Some (rid, bs).
Proof. unfold revise. by rewrite decide_True. Qed.

Lemma revise_others rid bs l : rid ∉ l.*1 → omap (revise rid bs) l = l.
Proof.
  induction l as [|x l IH]; [done|]. cbn. intros Hn. unfold revise at 1. rewrite decide_False by set_solver. by rewrite IH by set_solver.
Qed.

Lemma live_set_slot h x bs :
  NoDup h.*1 → NoDup (live_pages h).*1 → x ∈ live_pages h → live_pages (set_slot x.1 bs h) = omap (revise x.1 bs) (live_pages h).
Proof.
  intros Hids Hrows (pre & id & s1 & s2 & post & -> & Hx & Hne)%live_split. rewrite Hx in *. rewrite set_slot_page by done.
  assert (<[length s1 := bs]> (s1 ++ x.2 :: s2) = s1 ++ bs :: s2) as -> by by rewrite insert_app_r_alt, Nat.sub_diag by done.
  rewrite !live_pages_page in *.
  rewrite !live_slots_app, !live_slots_cons in *. cbn [Nat.add] in *. rewrite (decide_False (P := x.2 = [])) in Hrows |- * by done.
  rewrite <-!app_assoc in *. rewrite !fmap_app in Hrows. cbn [fmap list_fmap fst app] in Hrows.
  rewrite (app_assoc (_.*1)) in Hrows. apply NoDup_app in Hrows as (_ & Hbefore & [Hafter _]%NoDup_cons).
  assert (mkRID id (length s1) ∉ (live_pages pre ++ live_slots id 0 s1).*1) as Hbefore'.
  { rewrite fmap_app. intros Hin. by eapply Hbefore; [|left]. }
  rewrite fmap_app in Hbefore'. rewrite !omap_app. cbn [omap list_omap app]. rewrite revise_same.
  rewrite !revise_others by set_solver. by case_decide.
Qed.

(** A scan has the rows behind its cursor before it. *)
Lemma cursor_suffix h l it : cursor h l it → l `suffix_of` live_pages h.
Proof.
  destruct l as [|[rid bs] l]; [intros; apply suffix_nil|]. intros (-> & Hne & pre & id & slots & rest & j & -> & -> & Hj & ->).
  exists (live_pages pre ++ live_slots id 0 (take j slots)). rewrite live_pages_page. cbn [live_from].
  pose proof (lookup_lt_Some _ _ _ Hj).
  rewrite <-(take_drop_middle _ _ _ Hj) at 1. rewrite live_slots_app, live_slots_cons, decide_False by done.
  rewrite length_take, Nat.min_l by lia. cbn [Nat.add app]. by rewrite <-!app_assoc.
Qed.

(** A change of a row that is not behind the cursor. *)
Lemma cursor_set_slot h l it x bs :
  NoDup h.*1 → x ∈ live_pages h → x.1 ∉ l.*1 → cursor h l it → cursor (set_slot x.1 bs h) l it.
Proof.
  intros Hids Hx Hn. destruct l as [|[rid b] l]; [done|]. intros (-> & Hne & pre & id & slots & rest & j & -> & -> & Hj & ->).
  apply live_member in Hx as (id' & slots' & j' & Hin & Hx & Hj' & Hne'). cbn [fmap list_fmap fst live_from] in Hn. rewrite fmap_app in Hn.
  rewrite Hx in *. rewrite fmap_app in Hids. pose proof Hids as (_ & Hdis & Hids')%NoDup_app. cbn in Hdis. cbn [fmap list_fmap fst] in Hids'. apply NoDup_cons in Hids' as [Hid Hrest].
  assert (id' ∉ rest.*1) as Hid'.
  { intros Hr. apply Hn. right. apply elem_of_app. right. apply list_elem_of_fmap. exists x. split; [done|]. apply live_member.
    exists id', slots', j'. split_and!; try done. apply elem_of_app in Hin as [Hin|[Hin|Hin]%elem_of_cons]; [|by injection Hin as -> _|done].
    exfalso. eapply Hdis; [by apply (list_elem_of_fmap_2 fst) in Hin|]. by right. }
  split_and!; [done|done|].
  destruct (decide (id = id')) as [<-|Hne2].
  - exists pre, id, (<[j' := bs]> slots), rest, j. rewrite set_slot_page by by rewrite fmap_app.
    assert (slots' = slots) as ->.
    { apply elem_of_app in Hin as [Hin|[Hin|Hin]%elem_of_cons]; [|by injection Hin|].
      - exfalso. eapply Hdis; [by apply (list_elem_of_fmap_2 fst) in Hin|by left].
      - by apply (list_elem_of_fmap_2 fst) in Hin. }
    assert (j' < j)%nat as Hlt.
    { destruct (decide (j' < j)%nat) as [|Hge]; [done|exfalso]. apply Hn. destruct (decide (j' = j)) as [->|]; [by left|]. right. apply elem_of_app. left.
      apply list_elem_of_fmap. exists (mkRID id j', x.2). split; [done|]. unfold live_slots. apply list_elem_of_filter. split; [done|].
      apply list_elem_of_lookup. exists (j' - S j)%nat. rewrite list_lookup_imap, lookup_drop. replace (S j + (j' - S j))%nat with j' by lia.
      by rewrite Hj'. }
    split_and!; [done|done|by rewrite list_lookup_insert_ne by lia|]. cbn [live_from]. by rewrite drop_insert_lt by lia.
  - exists (set_slot (mkRID id' j') bs pre), id, slots, rest, j. split_and!; [|done..].
    rewrite set_slot_app, set_slot_cons. cbn [fst page_id_of]. by rewrite decide_False, (set_slot_other _ _ rest) by done.
Qed.

(** The bytes that are free on page [id]. *)
Definition free_in (a : pstate (list byte)) (id : Z) : Z :=
  match ps_pages a !! id with
  | Some d => match (GetFreeSpaceRemaining d).1 with Ret n => n | _ => 0 end
  | None => 0
  end.

Lemma free_in_page a id d next fsp slots : ps_pages a !! id = Some d → page_rep d next fsp slots → free_in a id = free_space fsp slots.
Proof.
  intros Hd Hrep. unfold free_in. rewrite Hd. destruct (wp_elim _ _ _ (GetFreeSpaceRemaining_wp _ _ _ _ Hrep)) as (n & d' & -> & -> & _). done.
Qed.

(** The bytes that new tuples need on page [id]. *)
Definition needed (id : Z) (l : list (RID * list byte)) : Z :=
  foldr (fun x n => (if decide (page_id_of x.1 = id) then Z.of_nat (length x.2) else 0) + n) 0 l.

Lemma needed_cons id x l : needed id (x :: l) = (if decide (page_id_of x.1 = id) then Z.of_nat (length x.2) else 0) + needed id l.
Proof. done. Qed.
Lemma needed_nonneg id l : 0 ≤ needed id l.
Proof. unfold needed. induction l as [|x l IH]; cbn; [done|]. case_decide; lia. Qed.

(** The new tuples fit where the old ones are, all of them together. *)
Definition fits (a : pstate (list byte)) (l : list (RID * list byte)) : Prop := Forall (fun x => needed (page_id_of x.1) l ≤ free_in a (page_id_of x.1)) l.

Lemma heap_at_put m d' id slots slots' rest : ∀ pre first d next fsp next' fsp',
  heap_at m first (pre ++ (id, slots) :: rest) → m !! id = Some d → page_rep d next fsp slots → page_rep d' next' fsp' slots' → next' = next →
  heap_at (<[id := d']> m) first (pre ++ (id, slots') :: rest).
Proof.
  induction pre as [|[id0 slots0] pre IH]; cbn [app]; intros first d next fsp next' fsp' Hheap Hd Hrep Hrep' ->; pose proof (heap_at_nodup _ _ _ Hheap) as Hnd;
    inversion Hheap as [|? d0 next0 fsp0 ? ? Hd0 Hpage Hnotin Hrest]; subst.
  - assert (next0 = next) as <-.
    { simplify_eq. pose proof (page_next _ _ _ _ Hrep). pose proof (page_next _ _ _ _ Hpage). congruence. }
    econstructor; [apply lookup_insert_eq|done|done|]. eapply (heap_at_frame m); [done|]. intros j Hj. apply lookup_insert_ne. by intros <-.
  - cbn [fmap list_fmap fst] in Hnd. apply NoDup_cons in Hnd as [Hnd _]. rewrite fmap_app in Hnd, Hnotin. cbn in Hnd, Hnotin.
    econstructor; [rewrite lookup_insert_ne; [done|set_solver]|done| |by eapply IH]. by rewrite fmap_app.
Qed.

(** What the bytes say about a slot is unique. *)
Lemma page_slot_length d n f slots n' f' slots' (j : nat) b b' :
  page_rep d n f slots → page_rep d n' f' slots' → slots !! j = Some b → slots' !! j = Some b' → length b = length b'.
Proof.
  intros H1 H2 Hb Hb'. destruct (page_slots _ _ _ _ H1 _ _ Hb) as (o & _ & Hl & _), (page_slots _ _ _ _ H2 _ _ Hb') as (o' & _ & Hl' & _).
  rewrite Hl in Hl'. injection Hl' as Hl'. lia.
Qed.

Section rules.
Context {St : Type} `{PageStoreSpec St (list byte)}.
Context (Hbytes : ∀ d, ps_ok d ↔ Z.of_nat (length d) = ONEBASE_PAGE_SIZE).
Context (fuel : nat).
Implicit Types (s : St) (a : pstate (list byte)).

(** What is left of a change of the page [id]. *)
Lemma readable_put a first h h' id d' :
  readable fuel a first h → heap_at (<[id := d']> (ps_pages a)) first h' → h'.*1 = h.*1 → readable fuel (put_content id d' a) first h'.
Proof.
  intros [Hheap Hidle Hroom Hfuel] Hheap' Hids. split; [done| |done|].
  - apply (Forall_fmap fst (idle (put_content id d' a))). rewrite Hids. by apply (Forall_fmap fst (idle a)).
  - by rewrite <-(length_fmap fst), Hids, length_fmap.
Qed.

(** A change of the slot [j] of a page by [m]. *)
Lemma change_slot_wp {A B} s a first pre id slots rest (j : nat) old bs d next fsp (dirty : A → bool) (out : A → B) (none : M St B) (m : M (list byte) A) (P : A → list byte → Prop) (Q : B → St → Prop) :
  ps_rep s a → readable fuel a first (pre ++ (id, slots) :: rest) → slots !! j = Some old → ps_pages a !! id = Some d → page_rep d next fsp slots →
  wp m d (fun x d' => P x d' ∧ ∃ fsp', page_rep d' next fsp' (<[j := bs]> slots)) →
  (∀ x d', P x d' → d' ≠ d ∧ dirty x = true) →
  (∀ x d' s', P x d' → ps_rep s' (put_content id d' a) → free_in (put_content id d' a) id = match (GetFreeSpaceRemaining d').1 with Ret n => n | _ => 0 end →
    readable fuel (put_content id d' a) first (set_slot (mkRID id j) bs (pre ++ (id, slots) :: rest)) → Q (out x) s') →
  wp (page ← ps_fetch_page id;
      match page with
      | None => none
      | Some f => x ← write_page f m; ps_unpin_page id (dirty x);; mret (out x)
      end) s Q.
Proof using Hbytes.
  intros Hrep Hread Hj Hd Hpage Hm Hdirty HQ. pose proof Hread as [Hheap Hidle Hroom _].
  apply Forall_app in Hidle as [_ Hidle]. apply Forall_cons in Hidle as [Hid _]. cbn [fst] in Hid.
  wp_step. apply (fetch_wp s a id d); [done..|]. intros f s1 Hrep1. cbn beta iota.
  assert (ps_pinned (spec_pin id f 1 a) !! id = Some (f, 1)) as Hpin by apply lookup_insert_eq.
  wp_step. eapply (write_dirty_wp Hbytes s1 _ id f 1 d m (fun x d' => P x d' ∧ ∃ fsp', page_rep d' next fsp' (<[j := bs]> slots))); [exact Hrep1|exact Hpin|exact Hd| | |].
  { eapply wp_mono; [exact Hm|]. intros x d' [HP (fsp' & Hd')]. split_and!; [done|by exists fsp'|apply Hd']. }
  { intros x d' [HP _]. left. by apply Hdirty in HP as [? _]. }
  intros s2 x d' [HP (fsp' & Hd')] Hrep2. wp_step. pose proof (Hdirty _ _ HP) as [_ ->].
  eapply wp_mono; [eapply (ps_unpin_spec s2 _ id f 1 true Hrep2); [exact Hpin|by left]|].
  intros b s3 [-> Hrep3]. wp_step. rewrite unpin_written in Hrep3 by (done || by eapply idle_saved). eapply HQ; [done|done|by unfold free_in; cbn; rewrite lookup_insert_eq|].
  eapply readable_put; [done| |apply set_slot_ids]. rewrite set_slot_page by by eapply heap_at_nodup. by eapply heap_at_put.
Qed.
(** The heap after a change of the row [x]. *)
Definition row_changed a first h (x : RID * list byte) (bs : list byte) (free : Z) s' : Prop :=
  ∃ d', let a' := put_content (page_id_of x.1) d' a in
    ps_rep s' a' ∧ readable fuel a' first (set_slot x.1 bs h) ∧ free_in a' (page_id_of x.1) = free.

Lemma DeleteTuple_row_wp s a first h x :
  ps_rep s a → readable fuel a first h → x ∈ live_pages h →
  wp (DeleteTuple x.1) s (fun _ => row_changed a first h x [] (free_in a (page_id_of x.1))).
Proof using Hbytes.
  intros Hrep Hread (pre & id & s1 & s2 & post & -> & Hx & Hne)%live_split. unfold row_changed. rewrite Hx. cbn [page_id_of].
  pose proof (heap_at_tail _ _ _ _ _ _ (readable_heap _ _ _ _ Hread)) as Hat. inversion Hat as [|? d next fsp ? ? Hd Hpage Hnotin Hrest]; subst.
  set (slots := s1 ++ x.2 :: s2) in *. assert (slots !! length s1 = Some x.2) as Hj by by apply list_lookup_middle.
  pose proof (lookup_lt_Some _ _ _ Hj) as Hlt. rewrite (free_in_page a id d next fsp slots Hd Hpage).
  unfold DeleteTuple. eapply (change_slot_wp s a first pre id slots post (length s1) x.2 [] d next fsp (fun _ => true) (fun _ => tt) _ _
    (fun _ d' => page_rep d' next fsp (<[length s1 := []]> slots))); [done..| | |].
  - eapply wp_mono; [by apply DeleteTuple_wp|]. intros [] d' Hd'. split; [done|by exists fsp].
  - intros [] d' Hd'. split; [|done]. intros ->. apply Hne, nil_length_inv.
    by rewrite (page_slot_length _ _ _ _ _ _ _ _ _ [] Hpage Hd' Hj (list_lookup_insert_eq _ _ _ Hlt)).
  - intros [] d' s' Hd' Hrep' Hfree Hread'. exists d'. split_and!; [done|done|]. rewrite Hfree.
    destruct (wp_elim _ _ _ (GetFreeSpaceRemaining_wp _ _ _ _ Hd')) as (n & d2 & -> & -> & _). unfold free_space. by rewrite length_insert.
Qed.

Lemma UpdateTuple_row_wp s a first h x t :
  ps_rep s a → readable fuel a first h → x ∈ live_pages h → data_ t ≠ [] → length (data_ t) ≤ free_in a (page_id_of x.1) →
  wp (UpdateTuple x.1 t) s (fun b s' => b = true ∧ row_changed a first h x (data_ t) (free_in a (page_id_of x.1) - length (data_ t)) s').
Proof using Hbytes.
  intros Hrep Hread (pre & id & s1 & s2 & post & -> & Hx & Hne)%live_split Hnew. unfold row_changed. rewrite Hx. cbn [page_id_of].
  pose proof (heap_at_tail _ _ _ _ _ _ (readable_heap _ _ _ _ Hread)) as Hat. inversion Hat as [|? d next fsp ? ? Hd Hpage Hnotin Hrest]; subst.
  set (slots := s1 ++ x.2 :: s2) in *. assert (slots !! length s1 = Some x.2) as Hj by by apply list_lookup_middle.
  rewrite (free_in_page a id d next fsp slots Hd Hpage). intros Hfit.
  unfold UpdateTuple. eapply (change_slot_wp s a first pre id slots post (length s1) x.2 (data_ t) d next fsp (fun b => b) (fun b => b) _ _
    (fun b d' => b = true ∧ page_rep d' next (fsp - length (data_ t)) (<[length s1 := data_ t]> slots))); [done..| | |].
  - eapply wp_mono; [by eapply UpdateTuple_fits_wp|]. intros b d' [-> Hd']. split; [done|by eexists].
  - intros b d' [-> Hd']. split; [|done]. intros ->. apply Hnew, nil_length_inv.
    pose proof (page_fsp _ _ _ _ Hpage) as Hf. rewrite (page_fsp _ _ _ _ Hd') in Hf. injection Hf as Hf. lia.
  - intros b d' s' [-> Hd'] Hrep' Hfree Hread'. split; [done|]. exists d'. split_and!; [done|done|]. rewrite Hfree.
    destruct (wp_elim _ _ _ (GetFreeSpaceRemaining_wp _ _ _ _ Hd')) as (n & d2 & -> & -> & _). unfold free_space. rewrite length_insert. cbn [fst]. lia.
Qed.
End rules.
