(* ===== verification/LockManager.v ===== *)
(** * Lock manager and transactions

    Models [src/concurrency/lock_manager.cpp], [transaction_manager.cpp] and
    [transaction.h].  Every method of the lock manager runs under [latch_]; the
    lock methods give the latch up in [cv_.wait].  A method is therefore one or
    two atomic sections: [X_enter] is the code up to the wait, [X_leave] the code
    after it, and [can_X] the predicate of the wait, which is tested with the
    latch held, so that [X_leave] follows in the same section.  The iterator [it]
    into the list of requests is the key of its node. *)
From S2P Require Import Prelude Tuple.

#[local] Open Scope Z_scope.

#[export] Instance RID_countable : Countable RID.
Proof.
  refine (inj_countable' (fun r => (page_id_of r, slot_num_of r)) (fun p => mkRID p.1 p.2) _). by intros [].
Defined.

(** ** State *)
Inductive LockMode : Set := SHARED | EXCLUSIVE.
Inductive TransactionState : Set := GROWING | SHRINKING | COMMITTED | ABORTED.
Inductive IsolationLevel : Set := READ_UNCOMMITTED | READ_COMMITTED | REPEATABLE_READ.

#[export] Instance LockMode_eq_dec : EqDecision LockMode.
Proof. solve_decision. Defined.
#[export] Instance TransactionState_eq_dec : EqDecision TransactionState.
Proof. solve_decision. Defined.

Record Transaction := mkTransaction {
  txn_id_ : Z;
  isolation_level_ : IsolationLevel;
  state_ : TransactionState;
  shared_lock_set_ : gset RID;
  exclusive_lock_set_ : gset RID;
}.

Definition Transaction_new (txn_id : Z) (isolation_level : IsolationLevel) : Transaction :=
  mkTransaction txn_id isolation_level GROWING ∅ ∅.

Definition SetState (st : TransactionState) (t : Transaction) : Transaction :=
  mkTransaction (txn_id_ t) (isolation_level_ t) st (shared_lock_set_ t) (exclusive_lock_set_ t).
Definition set_lock_sets (sh ex : gset RID → gset RID) (t : Transaction) : Transaction :=
  mkTransaction (txn_id_ t) (isolation_level_ t) (state_ t) (sh (shared_lock_set_ t)) (ex (exclusive_lock_set_ t)).
Definition IsSharedLocked (t : Transaction) (rid : RID) : bool := bool_decide (rid ∈ shared_lock_set_ t).
Definition IsExclusiveLocked (t : Transaction) (rid : RID) : bool := bool_decide (rid ∈ exclusive_lock_set_ t).

Record LockRequest := mkRequest {
  req_key : nat;
  req_txn_id_ : Z;
  lock_mode_ : LockMode;
  granted_ : bool;
}.

Record LockRequestQueue := mkQueue {
  request_queue_ : list LockRequest;
  upgrading_ : bool;
}.

Record LockManager := mkLockManager {
  lock_table_ : gmap RID LockRequestQueue;
  next_key_ : nat;
}.

Definition LockManager_new : LockManager := mkLockManager ∅ 0.

(** [lock_table_[rid]], which creates the queue if there is none. *)
Definition queue_of (lm : LockManager) (rid : RID) : LockRequestQueue :=
  default (mkQueue [] false) (lock_table_ lm !! rid).
Definition set_queue (rid : RID) (q : LockRequestQueue) (lm : LockManager) : LockManager :=
  mkLockManager (<[rid := q]> (lock_table_ lm)) (next_key_ lm).

(** ** The methods *)

(** What the code before the wait decides. *)
Inductive attempt := Done (b : bool) | Wait (key : nat).

Abbreviation lock_state := (LockManager * Transaction)%type.

Definition get_state : M lock_state TransactionState := gets (fun s => state_ s.2).
Definition set_state (st : TransactionState) : M lock_state unit := modify (fun s => (s.1, SetState st s.2)).
Definition get_queue (rid : RID) : M lock_state LockRequestQueue := gets (fun s => queue_of s.1 rid).
Definition put_queue (rid : RID) (q : LockRequestQueue) : M lock_state unit :=
  modify (fun s => (set_queue rid q s.1, s.2)).
Definition update_requests (rid : RID) (f : list LockRequest → list LockRequest) : M lock_state unit :=
  q ← get_queue rid; put_queue rid (mkQueue (f (request_queue_ q)) (upgrading_ q)).
Definition set_upgrading (rid : RID) (b : bool) : M lock_state unit :=
  q ← get_queue rid; put_queue rid (mkQueue (request_queue_ q) b).

(** [emplace_back] and [std::prev(end())]. *)
Definition enqueue (rid : RID) (mode : LockMode) : M lock_state nat :=
  key ← gets (fun s => next_key_ s.1);
  tid ← gets (fun s => txn_id_ s.2);
  modify (fun s => (mkLockManager (lock_table_ s.1) (S key), s.2));;
  update_requests rid (fun l => l ++ [mkRequest key tid mode false]);;
  mret key.

Definition erase (key : nat) (l : list LockRequest) : list LockRequest :=
  filter (fun r => req_key r ≠ key) l.
Definition with_request (key : nat) (f : LockRequest → LockRequest) (l : list LockRequest) : list LockRequest :=
  map (fun r => if decide (req_key r = key) then f r else r) l.
Definition set_granted (b : bool) (r : LockRequest) : LockRequest :=
  mkRequest (req_key r) (req_txn_id_ r) (lock_mode_ r) b.
Definition set_mode (m : LockMode) (r : LockRequest) : LockRequest :=
  mkRequest (req_key r) (req_txn_id_ r) m (granted_ r).

(** The two tests at the head of the lock methods. *)
Definition check_state : M lock_state (option bool) :=
  st ← get_state;
  if decide (st = SHRINKING) then set_state ABORTED;; mret (Some false)
  else if decide (st = ABORTED) then mret (Some false) else mret None.

Definition LockShared_enter (rid : RID) : M lock_state attempt :=
  early ← check_state;
  match early with
  | Some b => mret (Done b)
  | None =>
    txn ← gets snd;
    if IsSharedLocked txn rid || IsExclusiveLocked txn rid then mret (Done true)
    else key ← enqueue rid SHARED; mret (Wait key)
  end.

Definition can_share (q : LockRequestQueue) (t : Transaction) : bool :=
  bool_decide (state_ t = ABORTED) ||
  forallb (fun req => negb (granted_ req && bool_decide (lock_mode_ req = EXCLUSIVE))) (request_queue_ q).

Definition LockShared_leave (rid : RID) (key : nat) : M lock_state bool :=
  st ← get_state;
  if decide (st = ABORTED) then update_requests rid (erase key);; mret false
  else
    update_requests rid (with_request key (set_granted true));;
    modify (fun s => (s.1, set_lock_sets (union {[rid]}) id s.2));;
    mret true.

Definition LockExclusive_enter (rid : RID) : M lock_state attempt :=
  early ← check_state;
  match early with
  | Some b => mret (Done b)
  | None =>
    txn ← gets snd;
    if IsExclusiveLocked txn rid then mret (Done true)
    else key ← enqueue rid EXCLUSIVE; mret (Wait key)
  end.

Definition can_exclude (q : LockRequestQueue) (t : Transaction) : bool :=
  bool_decide (state_ t = ABORTED) ||
  forallb (fun req => negb (granted_ req && bool_decide (req_txn_id_ req ≠ txn_id_ t))) (request_queue_ q).

Definition LockExclusive_leave (rid : RID) (key : nat) : M lock_state bool :=
  st ← get_state;
  if decide (st = ABORTED) then update_requests rid (erase key);; mret false
  else
    update_requests rid (with_request key (set_granted true));;
    modify (fun s => (s.1, set_lock_sets id (union {[rid]}) s.2));;
    mret true.

Definition LockUpgrade_enter (rid : RID) : M lock_state attempt :=
  early ← check_state;
  match early with
  | Some b => mret (Done b)
  | None =>
    q ← get_queue rid;
    if upgrading_ q : bool then set_state ABORTED;; mret (Done false)
    else
      set_upgrading rid true;;
      txn ← gets snd;
      match list_find (fun r => req_txn_id_ r = txn_id_ txn ∧ granted_ r = true) (request_queue_ q) with
      | None => set_upgrading rid false;; mret (Done false)
      | Some (_, it) =>
        update_requests rid (with_request (req_key it) (fun r => set_granted false (set_mode EXCLUSIVE r)));;
        mret (Wait (req_key it))
      end
  end.

Definition LockUpgrade_leave (rid : RID) (key : nat) : M lock_state bool :=
  set_upgrading rid false;;
  st ← get_state;
  if decide (st = ABORTED) then mret false
  else
    update_requests rid (with_request key (set_granted true));;
    modify (fun s => (s.1, set_lock_sets (fun sh => sh ∖ {[rid]}) (union {[rid]}) s.2));;
    mret true.

(** The first request of the transaction leaves the queue. *)
Fixpoint erase_first (tid : Z) (l : list LockRequest) : list LockRequest :=
  match l with
  | [] => []
  | r :: l' => if decide (req_txn_id_ r = tid) then l' else r :: erase_first tid l'
  end.

Definition Unlock (rid : RID) : M lock_state bool :=
  tid ← gets (fun s => txn_id_ s.2);
  update_requests rid (erase_first tid);;
  st ← get_state;
  (if decide (st = GROWING) then set_state SHRINKING else mret tt);;
  modify (fun s => (s.1, set_lock_sets (fun sh => sh ∖ {[rid]}) (fun ex => ex ∖ {[rid]}) s.2));;
  mret true.

(** ** Commit and abort

    [for (const auto &rid : *set) body]: when the body erases the element it is
    called with, the iterator of the loop is invalid and advancing it is
    undefined. *)
Fixpoint range_for (order : list RID) (set : lock_state → gset RID) (body : RID → M lock_state bool) : M lock_state unit :=
  match order with
  | [] => mret tt
  | rid :: order' =>
    body rid;;
    now ← gets set;
    if decide (rid ∈ now) then range_for order' set body else lift Undef
  end.

Definition release (st : TransactionState) : M lock_state unit :=
  set_state st;;
  txn ← gets snd;
  range_for (elements (shared_lock_set_ txn)) (fun s => shared_lock_set_ s.2) Unlock;;
  txn ← gets snd;
  range_for (elements (exclusive_lock_set_ txn)) (fun s => exclusive_lock_set_ s.2) Unlock;;
  modify (fun s => (s.1, set_lock_sets (fun _ => ∅) (fun _ => ∅) s.2)).

Definition Commit : M lock_state unit := release COMMITTED.
Definition Abort : M lock_state unit := release ABORTED.

Record TransactionManager := mkTransactionManager {
  next_txn_id_ : Z;
  txn_map_ : gmap Z Transaction;
}.

Definition TransactionManager_Begin (isolation_level : IsolationLevel) : M TransactionManager Z :=
  txn_id ← gets next_txn_id_;
  modify (fun m => mkTransactionManager (wraps 64 (txn_id + 1))
    (<[txn_id := Transaction_new txn_id isolation_level]> (txn_map_ m)));;
  mret txn_id.

(** ** Threads

    One thread runs each transaction.  A call that finds its predicate true goes
    through; otherwise its thread waits until a later test succeeds. *)
Inductive lock_kind : Set := KShared | KExclusive | KUpgrade.

#[export] Instance lock_kind_eq_dec : EqDecision lock_kind.
Proof. solve_decision. Defined.

Definition lock_enter (k : lock_kind) (rid : RID) : M lock_state attempt :=
  match k with
  | KShared => LockShared_enter rid
  | KExclusive => LockExclusive_enter rid
  | KUpgrade => LockUpgrade_enter rid
  end.
Definition can_proceed (k : lock_kind) : LockRequestQueue → Transaction → bool :=
  match k with KShared => can_share | KExclusive => can_exclude | KUpgrade => can_exclude end.
Definition lock_leave (k : lock_kind) (rid : RID) (key : nat) : M lock_state bool :=
  match k with
  | KShared => LockShared_leave rid key
  | KExclusive => LockExclusive_leave rid key
  | KUpgrade => LockUpgrade_leave rid key
  end.

(** A call up to its return or to the point where it blocks. *)
Definition lock_call (k : lock_kind) (rid : RID) : M lock_state attempt :=
  a ← lock_enter k rid;
  match a with
  | Done b => mret (Done b)
  | Wait key =>
    q ← get_queue rid;
    txn ← gets snd;
    if can_proceed k q txn then b ← lock_leave k rid key; mret (Done b) else mret (Wait key)
  end.

Record world := mkWorld {
  lm : LockManager;
  txns : gmap Z Transaction;
  waiting : gmap Z (lock_kind * RID * nat);
}.

Inductive step : world → world → Prop :=
  | step_begin w t iso : txns w !! t = None →
      step w (mkWorld (lm w) (<[t := Transaction_new t iso]> (txns w)) (waiting w))
  | step_lock w t x k rid b lm' x' : txns w !! t = Some x → waiting w !! t = None →
      lock_call k rid (lm w, x) = (Ret (Done b), (lm', x')) →
      step w (mkWorld lm' (<[t := x']> (txns w)) (waiting w))
  | step_block w t x k rid key lm' x' : txns w !! t = Some x → waiting w !! t = None →
      lock_call k rid (lm w, x) = (Ret (Wait key), (lm', x')) →
      step w (mkWorld lm' (<[t := x']> (txns w)) (<[t := (k, rid, key)]> (waiting w)))
  | step_wake w t x k rid key b lm' x' : txns w !! t = Some x → waiting w !! t = Some (k, rid, key) →
      can_proceed k (queue_of (lm w) rid) x = true →
      lock_leave k rid key (lm w, x) = (Ret b, (lm', x')) →
      step w (mkWorld lm' (<[t := x']> (txns w)) (delete t (waiting w)))
  | step_unlock w t x rid b lm' x' : txns w !! t = Some x → waiting w !! t = None →
      Unlock rid (lm w, x) = (Ret b, (lm', x')) →
      step w (mkWorld lm' (<[t := x']> (txns w)) (waiting w))
  | step_release w t x st lm' x' : (* [Commit] or [Abort] *)
      st = COMMITTED ∨ st = ABORTED → txns w !! t = Some x → waiting w !! t = None →
      release st (lm w, x) = (Ret tt, (lm', x')) →
      step w (mkWorld lm' (<[t := x']> (txns w)) (waiting w))
  | step_kill w t x : txns w !! t = Some x →
      (* another thread marks the transaction as aborted *)
      step w (mkWorld (lm w) (<[t := SetState ABORTED x]> (txns w)) (waiting w)).

Definition world_new : world := mkWorld LockManager_new ∅ ∅.

Inductive reachable : world → Prop :=
  | reachable_new : reachable world_new
  | reachable_step w w' : reachable w → step w w' → reachable w'.

(** ** Queues of requests *)

(** Requests that are granted together do not conflict. *)
Record requests_ok (next : nat) (l : list LockRequest) : Prop := {
  req_bound r : r ∈ l → (req_key r < next)%nat;
  req_uniq r1 r2 : r1 ∈ l → r2 ∈ l → req_key r1 = req_key r2 → r1 = r2;
  req_compatible r1 r2 : r1 ∈ l → r2 ∈ l → granted_ r1 = true → granted_ r2 = true →
    req_txn_id_ r1 = req_txn_id_ r2 ∨ lock_mode_ r1 = SHARED ∧ lock_mode_ r2 = SHARED;
}.

Lemma requests_ok_mono next next' l : requests_ok next l → (next ≤ next')%nat → requests_ok next' l.
Proof. intros [Hb Hu Hc] Hle. split; [|done|done]. intros r Hr%Hb. lia. Qed.

Lemma requests_ok_sub next l l' : requests_ok next l → l' ⊆ l → requests_ok next l'.
Proof. intros [Hb Hu Hc] Hsub. split; [intros r Hr; by apply Hb, Hsub|eauto|eauto]. Qed.

Lemma requests_ok_append next l t mode :
  requests_ok next l → requests_ok (S next) (l ++ [mkRequest next t mode false]).
Proof.
  intros [Hb Hu Hc].
  assert (∀ r, r ∈ l ++ [mkRequest next t mode false] → r ∈ l ∨ r = mkRequest next t mode false) as Hin by set_solver.
  split.
  - intros r [Hr%Hb | ->]%Hin; cbn; lia.
  - intros r1 r2 [H1 | ->]%Hin [H2 | ->]%Hin Heq; [by apply Hu| | |done].
    + apply Hb in H1. cbn in Heq. lia.
    + apply Hb in H2. cbn in Heq. lia.
  - by intros r1 r2 [H1 | ->]%Hin [H2 | ->]%Hin G1 G2; [apply Hc|..].
Qed.

Lemma elem_of_with_request key f l r' :
  r' ∈ with_request key f l ↔ ∃ r, r ∈ l ∧ r' = if decide (req_key r = key) then f r else r.
Proof. unfold with_request. rewrite list_elem_of_fmap. naive_solver. Qed.

Lemma requests_ok_with next l key f :
  requests_ok next l → (∀ r, req_key (f r) = req_key r) →
  (∀ r1 r2, r1 ∈ l → r2 ∈ with_request key f l → req_key r1 = key → granted_ (f r1) = true → granted_ r2 = true →
     req_txn_id_ (f r1) = req_txn_id_ r2 ∨ lock_mode_ (f r1) = SHARED ∧ lock_mode_ r2 = SHARED) →
  requests_ok next (with_request key f l).
Proof.
  intros [Hb Hu Hc] Hkey Hcompat. split.
  - intros r' (r & Hr & ->)%elem_of_with_request. case_decide; rewrite ?Hkey; by apply Hb.
  - intros r1' r2' (r1 & H1 & ->)%elem_of_with_request (r2 & H2 & ->)%elem_of_with_request Heq.
    assert (req_key r1 = req_key r2) as He by (repeat case_decide; rewrite ?Hkey in Heq; done).
    by rewrite (Hu r1 r2 H1 H2 He).
  - intros r1' r2' Hr1 Hr2 G1 G2. pose proof Hr1 as (r1 & H1 & E1)%elem_of_with_request.
    pose proof Hr2 as (r2 & H2 & E2)%elem_of_with_request.
    destruct (decide (req_key r1 = key)) as [K1|K1].
    + rewrite E1 in G1 |- *. by apply (Hcompat r1 r2').
    + destruct (decide (req_key r2 = key)) as [K2|K2].
      * rewrite E2 in G2. destruct (Hcompat r2 r1' H2 Hr1 K2 G2 G1) as [He|[He1 He2]]; rewrite E2; [by left|by right].
      * subst. by apply Hc.
Qed.

(** ** The manager as a whole *)
Definition requests (m : LockManager) (rid : RID) : list LockRequest := request_queue_ (queue_of m rid).
Definition lm_ok (m : LockManager) : Prop := ∀ rid, requests_ok (next_key_ m) (requests m rid).

Definition mode_of (k : lock_kind) : LockMode := match k with KShared => SHARED | _ => EXCLUSIVE end.

(** The request that a waiting thread will grant is its own, and not granted. *)
Definition wait_ok (m : LockManager) (t : Z) (w : lock_kind * RID * nat) : Prop :=
  (w.2 < next_key_ m)%nat ∧
  ∀ r, r ∈ requests m w.1.2 → req_key r = w.2 →
    req_txn_id_ r = t ∧ lock_mode_ r = mode_of w.1.1 ∧ granted_ r = false.

(** What a section run by [t] leaves alone. *)
Definition keeps (t : Z) (m m' : LockManager) : Prop :=
  ∀ t' w, t' ≠ t → wait_ok m t' w → wait_ok m' t' w.

Lemma requests_set_queue rid rid' q m :
  requests (set_queue rid q m) rid' = if decide (rid' = rid) then request_queue_ q else requests m rid'.
Proof.
  unfold requests, queue_of, set_queue. cbn. case_decide as H; [subst; by rewrite lookup_insert_eq|].
  by rewrite lookup_insert_ne.
Qed.

Lemma lm_ok_set rid q m n :
  lm_ok m → (next_key_ m ≤ n)%nat → requests_ok n (request_queue_ q) →
  lm_ok (mkLockManager (<[rid := q]> (lock_table_ m)) n).
Proof.
  intros Hm Hn Hq rid'. pose proof (requests_set_queue rid rid' q m) as Hr.
  unfold requests, queue_of, set_queue in *. cbn in *. rewrite Hr. case_decide; [done|].
  eapply requests_ok_mono; [apply Hm|done].
Qed.

(** Other threads are not disturbed by a change of queue [rid] that keeps the
    requests of the other transactions. *)
Lemma keeps_set t rid q m n :
  (next_key_ m ≤ n)%nat →
  (∀ r', r' ∈ request_queue_ q → (next_key_ m ≤ req_key r')%nat ∨
     ∃ r, r ∈ requests m rid ∧ req_key r = req_key r' ∧ (req_txn_id_ r = t ∨ r' = r)) →
  keeps t m (mkLockManager (<[rid := q]> (lock_table_ m)) n).
Proof.
  intros Hn Hq t' [[k rid'] key] Hne [Hkey Hw]. split; [cbn in *; lia|]. cbn [fst snd] in *.
  intros r' Hr' Hk'. pose proof (requests_set_queue rid rid' q m) as Hr.
  unfold requests at 1, queue_of, set_queue in Hr'. unfold requests, queue_of, set_queue in Hr. cbn in Hr, Hr'. rewrite Hr in Hr'.
  destruct (decide (rid' = rid)) as [->|]; [|by apply Hw].
  destruct (Hq r' Hr') as [|(r & Hin & Hkk & [Htx | ->])]; [lia| |by apply Hw].
  destruct (Hw r Hin) as [Htx' _]; congruence.
Qed.

Lemma keeps_refl t m : keeps t m m.
Proof. by intros t' w _. Qed.
Lemma keeps_trans t m1 m2 m3 : keeps t m1 m2 → keeps t m2 m3 → keeps t m1 m3.
Proof. unfold keeps. naive_solver. Qed.

(** [update_requests] as a change of the manager. *)
Definition updated (rid : RID) (f : list LockRequest → list LockRequest) (m : LockManager) : LockManager :=
  set_queue rid (mkQueue (f (requests m rid)) (upgrading_ (queue_of m rid))) m.
Definition flagged (rid : RID) (b : bool) (m : LockManager) : LockManager :=
  set_queue rid (mkQueue (requests m rid) b) m.

Lemma requests_updated rid f m rid' :
  requests (updated rid f m) rid' = if decide (rid' = rid) then f (requests m rid) else requests m rid'.
Proof. unfold updated. by rewrite requests_set_queue. Qed.
Lemma requests_flagged rid b m rid' : requests (flagged rid b m) rid' = requests m rid'.
Proof. unfold flagged. rewrite requests_set_queue. case_decide; by subst. Qed.

(** The sections preserve the conditions of the manager and of other threads. *)
Definition good (t : Z) (m m' : LockManager) : Prop := lm_ok m' ∧ keeps t m m'.

Lemma good_trans t m1 m2 m3 : good t m1 m2 → good t m2 m3 → good t m1 m3.
Proof. intros [_ K1] [O2 K2]. split; [done|by eapply keeps_trans]. Qed.

Lemma good_flagged t rid b m : lm_ok m → good t m (flagged rid b m).
Proof.
  intros Hm. split; [by apply lm_ok_set; [|done|apply Hm]|].
  apply (keeps_set t rid (mkQueue (requests m rid) b) m (next_key_ m)); [done|]. cbn. intros r Hr. right. exists r. auto.
Qed.

Lemma good_sub t rid f m :
  lm_ok m → f (requests m rid) ⊆ requests m rid → good t m (updated rid f m).
Proof.
  intros Hm Hsub. split.
  - apply lm_ok_set; [done|done|]. cbn. eapply requests_ok_sub; [apply Hm|done].
  - apply (keeps_set t rid (mkQueue (f (requests m rid)) (upgrading_ (queue_of m rid))) m (next_key_ m)); [done|].
    cbn. intros r Hr%Hsub. right. exists r. auto.
Qed.

Lemma good_with t rid key f m :
  lm_ok m → (∀ r, req_key (f r) = req_key r) →
  (∀ r, r ∈ requests m rid → req_key r = key → req_txn_id_ r = t) →
  (∀ r1 r2, r1 ∈ requests m rid → r2 ∈ with_request key f (requests m rid) → req_key r1 = key →
     granted_ (f r1) = true → granted_ r2 = true →
     req_txn_id_ (f r1) = req_txn_id_ r2 ∨ lock_mode_ (f r1) = SHARED ∧ lock_mode_ r2 = SHARED) →
  good t m (updated rid (with_request key f) m).
Proof.
  intros Hm Hk Ht Hc. split.
  - apply lm_ok_set; [done|done|]. cbn. apply requests_ok_with; [apply Hm|done|done].
  - apply (keeps_set t rid (mkQueue (with_request key f (requests m rid)) (upgrading_ (queue_of m rid))) m (next_key_ m)); [done|].
    cbn. intros r' (r & Hr & ->)%elem_of_with_request. right. exists r. case_decide; rewrite ?Hk; eauto 6.
Qed.

Lemma good_append t rid mode m :
  lm_ok m →
  good t m (updated rid (fun l => l ++ [mkRequest (next_key_ m) t mode false]) (mkLockManager (lock_table_ m) (S (next_key_ m)))).
Proof.
  intros Hm. split.
  - apply (lm_ok_set rid (mkQueue (requests m rid ++ [mkRequest (next_key_ m) t mode false]) (upgrading_ (queue_of m rid))) m (S (next_key_ m)));
      [done|lia|]. cbn. apply requests_ok_append, Hm.
  - apply (keeps_set t rid (mkQueue (requests m rid ++ [mkRequest (next_key_ m) t mode false]) (upgrading_ (queue_of m rid))) m (S (next_key_ m)));
      [lia|]. cbn. intros r [Hr|Hr]%elem_of_app; [right; exists r; auto|]. apply list_elem_of_singleton in Hr as ->. by left.
Qed.

(** ** The sections, computed *)
Definition lock_sets (x : Transaction) : gset RID * gset RID := (shared_lock_set_ x, exclusive_lock_set_ x).

(** What [lock_enter] does when it returns at once: nothing to the queues but the
    flag, nothing to the lock sets. *)
Definition early_exit (x x' : Transaction) : Prop :=
  txn_id_ x' = txn_id_ x ∧ lock_sets x' = lock_sets x ∧ (x' = x ∨ state_ x' = ABORTED).

Lemma SetState_early x : early_exit x (SetState ABORTED x).
Proof. repeat split. by right. Qed.
Lemma refl_early x : early_exit x x.
Proof. repeat split. by left. Qed.

Lemma LockShared_enter_spec rid m x a m' x' :
  LockShared_enter rid (m, x) = (Ret a, (m', x')) →
  (∃ b, a = Done b ∧ m' = m ∧ early_exit x x') ∨
  (a = Wait (next_key_ m) ∧ x' = x ∧ state_ x ≠ SHRINKING ∧ state_ x ≠ ABORTED ∧
   m' = updated rid (fun l => l ++ [mkRequest (next_key_ m) (txn_id_ x) SHARED false]) (mkLockManager (lock_table_ m) (S (next_key_ m)))).
Proof.
  unfold LockShared_enter, check_state, get_state, set_state, enqueue, update_requests, get_queue, put_queue. m_unfold. cbn [fst snd].
  destruct (decide (state_ x = SHRINKING)); cbn [fst snd].
  { intros [= <- <- <-]. left. eexists. split_and!; [done|done|apply SetState_early]. }
  destruct (decide (state_ x = ABORTED)); cbn [fst snd].
  { intros [= <- <- <-]. left. eexists. split_and!; [done|done|apply refl_early]. }
  destruct (_ || _); intros [= <- <- <-]; [left; eexists; split_and!; [done|done|apply refl_early]|by right].
Qed.

Lemma LockExclusive_enter_spec rid m x a m' x' :
  LockExclusive_enter rid (m, x) = (Ret a, (m', x')) →
  (∃ b, a = Done b ∧ m' = m ∧ early_exit x x') ∨
  (a = Wait (next_key_ m) ∧ x' = x ∧ state_ x ≠ SHRINKING ∧ state_ x ≠ ABORTED ∧
   m' = updated rid (fun l => l ++ [mkRequest (next_key_ m) (txn_id_ x) EXCLUSIVE false]) (mkLockManager (lock_table_ m) (S (next_key_ m)))).
Proof.
  unfold LockExclusive_enter, check_state, get_state, set_state, enqueue, update_requests, get_queue, put_queue. m_unfold. cbn [fst snd].
  destruct (decide (state_ x = SHRINKING)); cbn [fst snd].
  { intros [= <- <- <-]. left. eexists. split_and!; [done|done|apply SetState_early]. }
  destruct (decide (state_ x = ABORTED)); cbn [fst snd].
  { intros [= <- <- <-]. left. eexists. split_and!; [done|done|apply refl_early]. }
  destruct (IsExclusiveLocked _ _); intros [= <- <- <-]; [left; eexists; split_and!; [done|done|apply refl_early]|by right].
Qed.

Definition to_upgrade (r : LockRequest) : LockRequest := set_granted false (set_mode EXCLUSIVE r).

Lemma LockUpgrade_enter_spec rid m x a m' x' :
  LockUpgrade_enter rid (m, x) = (Ret a, (m', x')) →
  (∃ b, a = Done b ∧ (m' = m ∨ ∃ f, m' = flagged rid f (flagged rid true m)) ∧ early_exit x x') ∨
  (∃ it, a = Wait (req_key it) ∧ x' = x ∧ state_ x ≠ SHRINKING ∧ state_ x ≠ ABORTED ∧
   it ∈ requests m rid ∧ req_txn_id_ it = txn_id_ x ∧ granted_ it = true ∧
   m' = updated rid (with_request (req_key it) to_upgrade) (flagged rid true m)).
Proof.
  unfold LockUpgrade_enter, check_state, get_state, set_state, update_requests, set_upgrading, get_queue, put_queue. m_unfold. cbn [fst snd].
  destruct (decide (state_ x = SHRINKING)); cbn [fst snd].
  { intros [= <- <- <-]. left. eexists. split_and!; [done|by left|apply SetState_early]. }
  destruct (decide (state_ x = ABORTED)); cbn [fst snd].
  { intros [= <- <- <-]. left. eexists. split_and!; [done|by left|apply refl_early]. }
  destruct (upgrading_ (queue_of m rid)); cbn [fst snd].
  { intros [= <- <- <-]. left. eexists. split_and!; [done|by left|apply SetState_early]. }
  destruct (list_find _ _) as [[i it]|] eqn:Hfind; cbn [fst snd]; intros [= <- <- <-].
  - right. apply list_find_Some in Hfind as (Hi & [Ht Hg] & _). exists it.
    split_and!; try done. by eapply list_elem_of_lookup_2.
  - left. eexists. split_and!; [done| |apply refl_early]. right. exists false. reflexivity.
Qed.

(** The manager after the code that follows the wait. *)
Definition left_aborted (k : lock_kind) (rid : RID) (key : nat) (m : LockManager) : LockManager :=
  match k with KUpgrade => flagged rid false m | _ => updated rid (erase key) m end.
Definition left_granted (k : lock_kind) (rid : RID) (key : nat) (m : LockManager) : LockManager :=
  updated rid (with_request key (set_granted true)) (match k with KUpgrade => flagged rid false m | _ => m end).
Definition locked (k : lock_kind) (rid : RID) (x : Transaction) : Transaction :=
  match k with
  | KShared => set_lock_sets (union {[rid]}) id x
  | KExclusive => set_lock_sets id (union {[rid]}) x
  | KUpgrade => set_lock_sets (fun sh => sh ∖ {[rid]}) (union {[rid]}) x
  end.

Lemma lock_leave_spec k rid key m x b m' x' :
  lock_leave k rid key (m, x) = (Ret b, (m', x')) →
  (state_ x = ABORTED ∧ b = false ∧ x' = x ∧ m' = left_aborted k rid key m) ∨
  (state_ x ≠ ABORTED ∧ b = true ∧ x' = locked k rid x ∧ m' = left_granted k rid key m).
Proof.
  destruct k; unfold lock_leave, LockShared_leave, LockExclusive_leave, LockUpgrade_leave, get_state, update_requests,
    set_upgrading, get_queue, put_queue; m_unfold; cbn [fst snd];
    (destruct (decide (state_ x = ABORTED)); cbn [fst snd]; intros [= <- <- <-]; [left|right]; done).
Qed.

Lemma Unlock_spec rid m x b m' x' :
  Unlock rid (m, x) = (Ret b, (m', x')) →
  m' = updated rid (erase_first (txn_id_ x)) m ∧ txn_id_ x' = txn_id_ x ∧
  lock_sets x' = (shared_lock_set_ x ∖ {[rid]}, exclusive_lock_set_ x ∖ {[rid]}) ∧
  state_ x' = (if decide (state_ x = GROWING) then SHRINKING else state_ x).
Proof.
  unfold Unlock, update_requests, get_queue, put_queue, get_state, set_state. m_unfold. cbn [fst snd].
  destruct (decide (state_ x = GROWING)); cbn [fst snd]; intros [= <- <- <-]; done.
Qed.

Lemma erase_first_sub t l : erase_first t l ⊆ l.
Proof. induction l as [|r l IH]; cbn; [done|]. case_decide; set_solver. Qed.

Lemma erase_first_other t l r : r ∈ l → req_txn_id_ r ≠ t → r ∈ erase_first t l.
Proof. induction l as [|r' l IH]; cbn; [done|]. case_decide; set_solver. Qed.

Section sections.
Implicit Types (m : LockManager) (x : Transaction).

Lemma append_wait t rid k mode m :
  mode = mode_of k → lm_ok m →
  wait_ok (updated rid (fun l => l ++ [mkRequest (next_key_ m) t mode false]) (mkLockManager (lock_table_ m) (S (next_key_ m))))
    t (k, rid, next_key_ m).
Proof.
  intros -> Hm. split; cbn [fst snd]; [cbn; lia|]. intros r. rewrite requests_updated, decide_True by done.
  intros [Hr|Hr]%elem_of_app Hk.
  - change (r ∈ requests m rid) in Hr. apply (req_bound _ _ (Hm rid)) in Hr. lia.
  - by apply list_elem_of_singleton in Hr as ->.
Qed.

Lemma lock_enter_good k rid m x a m' x' :
  lm_ok m → lock_enter k rid (m, x) = (Ret a, (m', x')) →
  good (txn_id_ x) m m' ∧ txn_id_ x' = txn_id_ x ∧ ∀ key, a = Wait key → wait_ok m' (txn_id_ x) (k, rid, key).
Proof.
  intros Hm. assert (good (txn_id_ x) m m) as Hrefl by (split; [done|apply keeps_refl]).
  destruct k; cbn [lock_enter].
  - intros [(b & -> & -> & Ht & _)|(-> & -> & _ & _ & ->)]%LockShared_enter_spec; [done|].
    split_and!; [by apply good_append|done|]. intros key [= <-]. by apply append_wait.
  - intros [(b & -> & -> & Ht & _)|(-> & -> & _ & _ & ->)]%LockExclusive_enter_spec; [done|].
    split_and!; [by apply good_append|done|]. intros key [= <-]. by apply append_wait.
  - assert (good (txn_id_ x) m (flagged rid true m)) as Hflag by by apply good_flagged.
    intros [(b & -> & Hm' & Ht & _)|(it & -> & -> & _ & _ & Hit & Htx & _ & ->)]%LockUpgrade_enter_spec.
    + split_and!; [|done|done]. destruct Hm' as [->|[f ->]]; [done|]. eapply good_trans; [done|]. apply good_flagged, Hflag.
    + split_and!; [|done|].
      * eapply good_trans; [done|]. apply good_with; [apply Hflag|done| |done].
        intros r Hr Hk. rewrite requests_flagged in Hr. by rewrite (req_uniq _ _ (Hm rid) r it Hr Hit Hk).
      * intros key [= <-]. split; [cbn; by apply (req_bound _ _ (Hm rid))|]. cbn [fst snd].
        intros r'. rewrite requests_updated, decide_True, requests_flagged by done.
        intros (r & Hr & ->)%elem_of_with_request Hk. assert (req_key r = req_key it) as Hk' by (by case_decide).
        rewrite decide_True by done. cbn. by rewrite (req_uniq _ _ (Hm rid) r it Hr Hit Hk').
Qed.

(** What the predicate of the wait says about the requests that are granted. *)
Lemma can_proceed_compatible k q x r1 r2 :
  can_proceed k q x = true → state_ x ≠ ABORTED → r2 ∈ request_queue_ q → granted_ r2 = true →
  req_txn_id_ r1 = txn_id_ x → lock_mode_ r1 = mode_of k →
  req_txn_id_ r1 = req_txn_id_ r2 ∨ lock_mode_ r1 = SHARED ∧ lock_mode_ r2 = SHARED.
Proof.
  intros Hcan Hst Hin Hg Ht Hmode. assert (bool_decide (state_ x = ABORTED) = false) as Hb by by apply bool_decide_false.
  destruct k; cbn in Hcan; unfold can_share, can_exclude in Hcan; rewrite Hb in Hcan; cbn in Hcan.
  all: rewrite forallb_forall in Hcan; specialize (Hcan r2); rewrite Hg in Hcan; cbn in Hcan.
  all: apply list_elem_of_In in Hin; specialize (Hcan Hin); apply negb_true_iff, bool_decide_eq_false in Hcan.
  - right. split; [done|]. by destruct (lock_mode_ r2).
  - left. destruct (decide (req_txn_id_ r2 = txn_id_ x)); [congruence|done].
  - left. destruct (decide (req_txn_id_ r2 = txn_id_ x)); [congruence|done].
Qed.

Lemma lock_leave_good k rid key m x b m' x' :
  lm_ok m → wait_ok m (txn_id_ x) (k, rid, key) → can_proceed k (queue_of m rid) x = true →
  lock_leave k rid key (m, x) = (Ret b, (m', x')) → good (txn_id_ x) m m' ∧ txn_id_ x' = txn_id_ x.
Proof.
  intros Hm [_ Hw] Hcan Hleave. cbn [fst snd] in Hw.
  assert (∀ fl, good (txn_id_ x) m (flagged rid fl m)) as Hflag by (intros; by apply good_flagged).
  apply lock_leave_spec in Hleave as [(Hst & -> & -> & ->)|(Hst & -> & -> & ->)]; split; [|done| |by destruct k].
  - destruct k; cbn; [apply good_sub; [done|]..|apply Hflag]; unfold erase; intros r [_ ?]%list_elem_of_filter; done.
  - set (m1 := match k with KUpgrade => flagged rid false m | _ => m end).
    assert (good (txn_id_ x) m m1 ∧ ∀ rid', requests m1 rid' = requests m rid') as [H1 Hreq].
    { subst m1. destruct k; (split; [|intros; try done; apply requests_flagged]); [split; [done|apply keeps_refl]..|apply Hflag]. }
    unfold left_granted. fold m1. eapply good_trans; [exact H1|].
    apply good_with; [apply H1|done| |]; rewrite Hreq; [by intros r Hr Hk; apply Hw|].
    intros r1 r2' Hr1 (r2 & Hr2 & ->)%elem_of_with_request Hk1 _ Hg2. destruct (Hw r1 Hr1 Hk1) as (Ht1 & Hmode1 & _).
    case_decide as Hk2.
    + left. cbn. rewrite Ht1. symmetry. by apply Hw.
    + by apply (can_proceed_compatible k (queue_of m rid) x (set_granted true r1) r2).
Qed.
End sections.

(** ** The invariant of the reachable states *)
Record lock_inv (w : world) : Prop := {
  inv_manager : lm_ok (lm w);
  inv_ids t x : txns w !! t = Some x → txn_id_ x = t;
  inv_waiting t wt : waiting w !! t = Some wt → wait_ok (lm w) t wt;
}.

Lemma lock_call_good k rid m x a m' x' :
  lm_ok m → lock_call k rid (m, x) = (Ret a, (m', x')) →
  good (txn_id_ x) m m' ∧ txn_id_ x' = txn_id_ x ∧ ∀ key, a = Wait key → wait_ok m' (txn_id_ x) (k, rid, key).
Proof.
  intros Hm. unfold lock_call. unfold mbind, M_bind. destruct (lock_enter k rid (m, x)) as [[a1| | |] [m1 x1]] eqn:Henter; try done.
  destruct (lock_enter_good _ _ _ _ _ _ _ Hm Henter) as (H1 & Ht1 & Hwait).
  destruct a1 as [b|key]; [by intros [= <- <- <-]|]. unfold get_queue, gets. cbn [fst snd].
  destruct (can_proceed k (queue_of m1 rid) x1) eqn:Hcan; [|by intros [= <- <- <-]].
  destruct (lock_leave k rid key (m1, x1)) as [[b| | |] [m2 x2]] eqn:Hleave; try done. intros [= <- <- <-].
  specialize (Hwait key eq_refl). rewrite <-Ht1 in Hwait.
  destruct (lock_leave_good _ _ _ _ _ _ _ _ (proj1 H1) Hwait Hcan Hleave) as [H2 Ht2]. rewrite Ht1 in *.
  split_and!; [by eapply good_trans|congruence|done].
Qed.

(** ** Release of the locks *)
Lemma Unlock_returns rid m x : ∃ m' x', Unlock rid (m, x) = (Ret true, (m', x')).
Proof.
  unfold Unlock, update_requests, get_queue, put_queue, get_state, set_state. m_unfold. cbn [fst snd].
  destruct (decide (state_ x = GROWING)); cbn [fst snd]; eauto.
Qed.

Lemma range_for_erasing l (set : lock_state → gset RID) m x :
  (∀ rid m x m' x', Unlock rid (m, x) = (Ret true, (m', x')) → rid ∉ set (m', x')) →
  match l with
  | [] => range_for l set Unlock (m, x) = (Ret tt, (m, x))
  | _ => (range_for l set Unlock (m, x)).1 = Undef
  end.
Proof.
  intros Hset. destruct l as [|rid l]; [done|]. destruct (Unlock_returns rid m x) as (m' & x' & Hu).
  cbn [range_for]. rewrite (bind_Ret _ _ _ _ _ Hu). unfold mbind, M_bind, gets.
  rewrite decide_False by by eapply Hset. done.
Qed.

Lemma Unlock_erases rid m x m' x' :
  Unlock rid (m, x) = (Ret true, (m', x')) → rid ∉ shared_lock_set_ x' ∧ rid ∉ exclusive_lock_set_ x'.
Proof. intros (_ & _ & Hsets & _)%Unlock_spec. unfold lock_sets in Hsets. injection Hsets as -> ->. set_solver. Qed.

Lemma release_outcome st m x :
  if decide (shared_lock_set_ x = ∅ ∧ exclusive_lock_set_ x = ∅)
  then release st (m, x) = (Ret tt, (m, set_lock_sets (fun _ => ∅) (fun _ => ∅) (SetState st x)))
  else (release st (m, x)).1 = Undef.
Proof.
  unfold release. change (set_state st (m, x)) with (Ret tt, (m, SetState st x)).
  rewrite (bind_Ret (set_state st) _ (m, x) tt (m, SetState st x)) by done.
  rewrite (bind_Ret (gets snd) _ (m, SetState st x) (SetState st x) (m, SetState st x)) by done.
  change (shared_lock_set_ (SetState st x)) with (shared_lock_set_ x).
  pose proof (range_for_erasing (elements (shared_lock_set_ x)) (fun s => shared_lock_set_ s.2) m (SetState st x)
    (λ rid m x m' x' Hu, proj1 (Unlock_erases rid m x m' x' Hu))) as H1.
  destruct (elements (shared_lock_set_ x)) as [|r1 l1] eqn:E1.
  - apply elements_empty_inv, leibniz_equiv in E1. rewrite (bind_Ret _ _ _ _ _ H1).
    rewrite (bind_Ret (gets snd) _ (m, SetState st x) (SetState st x) (m, SetState st x)) by done.
    change (exclusive_lock_set_ (SetState st x)) with (exclusive_lock_set_ x).
    pose proof (range_for_erasing (elements (exclusive_lock_set_ x)) (fun s => exclusive_lock_set_ s.2) m (SetState st x)
      (λ rid m x m' x' Hu, proj2 (Unlock_erases rid m x m' x' Hu))) as H2.
    destruct (elements (exclusive_lock_set_ x)) as [|r2 l2] eqn:E2.
    + apply elements_empty_inv, leibniz_equiv in E2. rewrite decide_True by done. by rewrite (bind_Ret _ _ _ _ _ H2).
    + rewrite decide_False by (intros [_ He]; rewrite He, elements_empty in E2; done).
      by apply bind_fails.
  - rewrite decide_False by (intros [He _]; rewrite He, elements_empty in E1; done).
    by apply bind_fails.
Qed.

(** ** Invariance *)
Lemma lock_inv_update w t x m' x' wt' :
  lock_inv w → txns w !! t = Some x → good (txn_id_ x) (lm w) m' → txn_id_ x' = txn_id_ x →
  (∀ wt, wt' !! t = Some wt → wait_ok m' t wt) → (∀ t', t' ≠ t → wt' !! t' = waiting w !! t') →
  lock_inv (mkWorld m' (<[t := x']> (txns w)) wt').
Proof.
  intros [Hm Hids Hw] Ht [Hok Hkeep] Htx Hwt Hother. rewrite (Hids t x Ht) in *. split; cbn; [done| |].
  - intros t' y [[<- <-]|[Hne Hy]]%lookup_insert_Some; [done|by apply Hids].
  - intros t' wt Hwt'. destruct (decide (t' = t)) as [->|Hne]; [by apply Hwt|].
    rewrite Hother in Hwt' by done. by apply Hkeep, Hw.
Qed.

Lemma reachable_inv w : reachable w → lock_inv w.
Proof.
  induction 1 as [|w w' _ Hinv Hstep].
  - split; cbn; [|by intros ???|by intros ???]. intros rid. split; set_solver.
  - assert (∀ t x, txns w !! t = Some x → waiting w !! t = None → ∀ m, ∀ wt, waiting w !! t = Some wt → wait_ok m t wt)
      as Hidle by (intros; congruence).
    assert (good 0 (lm w) (lm w) ∧ ∀ t, good t (lm w) (lm w)) as [_ Hrefl].
    { split; [|intros]; (split; [apply Hinv|apply keeps_refl]). }
    destruct Hstep as [w t iso Ht|w t x k rid b m' x' Ht Hw Hc|w t x k rid key m' x' Ht Hw Hc|w t x k rid key b m' x' Ht Hw Hcan Hl
      |w t x rid b m' x' Ht Hw Hu|w t x st m' x' Hend Ht Hw Hr|w t x Ht].
    + destruct Hinv as [Hm Hids Hw]. split; cbn; [done| |done].
      intros t' y [[<- <-]|[Hne Hy]]%lookup_insert_Some; [done|by apply Hids].
    + destruct (lock_call_good _ _ _ _ _ _ _ (inv_manager _ Hinv) Hc) as (Hg & Htx & _).
      eapply lock_inv_update; try done. intros wt Hwt. congruence.
    + destruct (lock_call_good _ _ _ _ _ _ _ (inv_manager _ Hinv) Hc) as (Hg & Htx & Hwait).
      rewrite (inv_ids _ Hinv t x Ht) in Hwait.
      eapply lock_inv_update; try done; intros; [|by apply lookup_insert_ne].
      rewrite lookup_insert_eq in H. injection H as <-. by apply Hwait.
    + pose proof (inv_waiting _ Hinv t _ Hw) as Hwok. rewrite <-(inv_ids _ Hinv t x Ht) in Hwok.
      destruct (lock_leave_good _ _ _ _ _ _ _ _ (inv_manager _ Hinv) Hwok Hcan Hl) as [Hg Htx].
      eapply lock_inv_update; try done; intros; [|by apply lookup_delete_ne]. by rewrite lookup_delete_eq in H.
    + apply Unlock_spec in Hu as (-> & Htx & _ & _). eapply lock_inv_update; try done; [|intros; congruence].
      apply good_sub; [apply Hinv|apply erase_first_sub].
    + pose proof (release_outcome st (lm w) x) as Ho. case_decide; rewrite Hr in Ho; [|done]. injection Ho as -> ->.
      eapply lock_inv_update; try done; first [apply Hrefl|intros; congruence].
    + eapply lock_inv_update; try done; first [apply Hrefl|intros wt Hwt; by apply Hinv].
Qed.

(** ** Lock sets and granted requests *)

(** The requests of other transactions stay as they are. *)
Definition spares_others (t : Z) (m m' : LockManager) : Prop :=
  ∀ rid r, r ∈ requests m rid → req_txn_id_ r ≠ t → r ∈ requests m' rid.

(** Every lock that the transaction believes to hold is granted in the queue. *)
Definition backed_at (m : LockManager) (x : Transaction) (rid : RID) : Prop :=
  (rid ∈ shared_lock_set_ x → ∃ r, r ∈ requests m rid ∧ req_txn_id_ r = txn_id_ x ∧ granted_ r = true) ∧
  (rid ∈ exclusive_lock_set_ x →
   ∃ r, r ∈ requests m rid ∧ req_txn_id_ r = txn_id_ x ∧ granted_ r = true ∧ lock_mode_ r = EXCLUSIVE).
Definition backed (m : LockManager) (x : Transaction) : Prop := ∀ rid, backed_at m x rid.

Lemma spares_others_refl t m : spares_others t m m.
Proof. by intros rid r. Qed.
Lemma spares_others_trans t m1 m2 m3 : spares_others t m1 m2 → spares_others t m2 m3 → spares_others t m1 m3.
Proof. unfold spares_others. naive_solver. Qed.

Lemma spares_updated t rid f m :
  (∀ r, r ∈ requests m rid → req_txn_id_ r ≠ t → r ∈ f (requests m rid)) → spares_others t m (updated rid f m).
Proof. intros Hf rid' r Hr Ht. rewrite requests_updated. case_decide; [subst; by apply Hf|done]. Qed.
Lemma spares_flagged t rid b m : spares_others t m (flagged rid b m).
Proof. intros rid' r Hr _. by rewrite requests_flagged. Qed.

Lemma spares_with t rid key f m :
  (∀ r, r ∈ requests m rid → req_key r = key → req_txn_id_ r = t) →
  spares_others t m (updated rid (with_request key f) m).
Proof.
  intros Hkey. apply spares_updated. intros r Hr Ht. apply elem_of_with_request. exists r. split; [done|].
  rewrite decide_False; [done|]. intros Hk. by apply Ht, Hkey.
Qed.

Lemma backed_other t m m' x :
  backed m x → spares_others t m m' → txn_id_ x ≠ t → backed m' x.
Proof.
  intros Hb Hs Hne rid. destruct (Hb rid) as [Hsh Hex]. split.
  - intros (r & ? & ? & ?)%Hsh. exists r. split_and!; [apply Hs; congruence|done|done].
  - intros (r & ? & ? & ? & ?)%Hex. exists r. split_and!; [apply Hs; congruence|done..].
Qed.

(** Granted requests that survive, perhaps as exclusive ones, still back the locks. *)
Lemma backed_kept m m' x x' :
  backed m x → txn_id_ x' = txn_id_ x → lock_sets x' = lock_sets x →
  (∀ rid r, r ∈ requests m rid → req_txn_id_ r = txn_id_ x → granted_ r = true → r ∈ requests m' rid) → backed m' x'.
Proof.
  unfold lock_sets. intros Hb Ht [= Hs He] Hk rid. unfold backed_at. rewrite Ht, Hs, He. destruct (Hb rid) as [Hsh Hex].
  split; [intros (r & ? & ? & ?)%Hsh|intros (r & ? & ? & ? & ?)%Hex]; exists r; naive_solver.
Qed.

(** Granting the request [key] of [x] backs the lock that [locked] adds. *)
Lemma backed_granted k rid key m x :
  (∀ rid', rid' ≠ rid ∨ k ≠ KUpgrade → backed_at m x rid') →
  wait_ok m (txn_id_ x) (k, rid, key) → (∃ r, r ∈ requests m rid ∧ req_key r = key) →
  backed (left_granted k rid key m) (locked k rid x).
Proof.
  intros Hb [_ Hw] (r0 & Hr0 & Hk0). cbn [fst snd] in Hw.
  set (m1 := match k with KUpgrade => flagged rid false m | _ => m end).
  assert (∀ rid', requests m1 rid' = requests m rid') as Hreq by (subst m1; destruct k; intros; by rewrite ?requests_flagged).
  unfold left_granted. fold m1.
  assert (∀ rid' r, r ∈ requests m rid' → granted_ r = true → r ∈ requests (updated rid (with_request key (set_granted true)) m1) rid') as Hkeep.
  { intros rid' r Hr Hg. rewrite requests_updated, !Hreq. case_decide as He; [subst rid'|done]. apply elem_of_with_request.
    exists r. split; [done|]. rewrite decide_False; [done|]. intros Hk. destruct (Hw r Hr Hk) as (_ & _ & ?). congruence. }
  assert (∃ r, r ∈ requests (updated rid (with_request key (set_granted true)) m1) rid ∧ req_txn_id_ r = txn_id_ x ∧
    granted_ r = true ∧ lock_mode_ r = mode_of k) as (r1 & Hr1 & Ht1 & Hg1 & Hm1).
  { exists (set_granted true r0). destruct (Hw r0 Hr0 Hk0) as (? & ? & _). split_and!; try done.
    rewrite requests_updated, decide_True, Hreq by done. apply elem_of_with_request. exists r0. by rewrite decide_True. }
  assert (txn_id_ (locked k rid x) = txn_id_ x) as Htx by by destruct k.
  intros rid'. unfold backed_at. rewrite Htx.
  destruct (decide (rid' = rid)) as [->|Hne].
  - split; [intros _; by exists r1|]. intros Hin. destruct k; [|by exists r1..].
    destruct (Hb rid ltac:(by right)) as [_ Hex]. destruct Hex as (r & ? & ? & ? & ?); [done|]. exists r. split_and!; auto.
  - destruct (Hb rid' ltac:(by left)) as [Hsh Hex]. split; intros Hin.
    + destruct Hsh as (r & ? & ? & ?); [destruct k; cbn in Hin; set_solver|]. exists r. split_and!; auto.
    + destruct Hex as (r & ? & ? & ? & ?); [destruct k; cbn in Hin; set_solver|]. exists r. split_and!; auto.
Qed.

(** Runs in which no upgrade has to wait. *)
Inductive calm : world → Prop :=
  | calm_new : calm world_new
  | calm_step w w' : calm w → step w w' → (∀ t rid key, waiting w' !! t ≠ Some (KUpgrade, rid, key)) → calm w'.

Lemma calm_no_upgrade w t rid key : calm w → waiting w !! t ≠ Some (KUpgrade, rid, key).
Proof. by destruct 1. Qed.

Lemma calm_reachable w : calm w → reachable w.
Proof. induction 1; by econstructor. Qed.

(** A call as a whole. *)
Lemma lock_enter_backed k rid m x a m' x' :
  lm_ok m → backed m x → lock_enter k rid (m, x) = (Ret a, (m', x')) →
  spares_others (txn_id_ x) m m' ∧
  match a with
  | Done _ => backed m' x'
  | Wait key => x' = x ∧ (∃ r, r ∈ requests m' rid ∧ req_key r = key) ∧
                ∀ rid', rid' ≠ rid ∨ k ≠ KUpgrade → backed_at m' x rid'
  end.
Proof.
  intros Hm Hb. destruct k; cbn [lock_enter].
  1,2: first [intros [(b & -> & -> & Ht & Hs & _)|(-> & -> & _ & _ & ->)]%LockShared_enter_spec
             |intros [(b & -> & -> & Ht & Hs & _)|(-> & -> & _ & _ & ->)]%LockExclusive_enter_spec];
    [split; [apply spares_others_refl|by eapply backed_kept]|].
  1,2: (split_and!; [intros rid' r Hr _; rewrite requests_updated; case_decide; [subst; apply elem_of_app; by left|done]
    |done|eexists; rewrite requests_updated, decide_True by done; split; [apply elem_of_app; right; by left|done]
    |intros rid' _; apply (backed_kept m _ x x Hb eq_refl eq_refl)];
    intros rid'' r Hr _ _; rewrite requests_updated; case_decide; [subst; apply elem_of_app; by left|done]).
  intros [(b & -> & Hm' & Ht & Hs & _)|(it & -> & -> & _ & _ & Hit & Htx & _ & ->)]%LockUpgrade_enter_spec.
  - assert (∀ rid', requests m' rid' = requests m rid') as Hreq
      by (intros; destruct Hm' as [->|[f ->]]; by rewrite ?requests_flagged).
    split; [intros rid' r Hr _; by rewrite Hreq|]. eapply backed_kept; try done. intros rid' r Hr _ _. by rewrite Hreq.
  - split_and!; [|done| |].
    + eapply spares_others_trans; [apply spares_flagged|]. apply spares_with. intros r. rewrite requests_flagged.
      intros Hr Hk. by rewrite (req_uniq _ _ (Hm rid) r it Hr Hit Hk).
    + exists (to_upgrade it). rewrite requests_updated, decide_True, requests_flagged by done. split; [|done].
      apply elem_of_with_request. exists it. by rewrite decide_True.
    + intros rid' [Hne|]; [|done]. destruct (Hb rid') as [Hsh Hex].
      unfold backed_at. rewrite requests_updated, decide_False, requests_flagged by done. done.
Qed.

Lemma lock_leave_backed k rid key m x b m' x' :
  lm_ok m → (∀ rid', rid' ≠ rid ∨ k ≠ KUpgrade → backed_at m x rid') → (state_ x ≠ ABORTED ∨ k ≠ KUpgrade) →
  wait_ok m (txn_id_ x) (k, rid, key) → (∃ r, r ∈ requests m rid ∧ req_key r = key) →
  lock_leave k rid key (m, x) = (Ret b, (m', x')) → backed m' x' ∧ spares_others (txn_id_ x) m m'.
Proof.
  intros Hm Hb Hst Hwait Hex Hleave.
  assert (∀ r, r ∈ requests m rid → req_key r = key → req_txn_id_ r = txn_id_ x ∧ granted_ r = false) as Hown.
  { intros r Hr Hk. destruct Hwait as [_ Hw]. by destruct (Hw r Hr Hk) as (? & _ & ?). }
  apply lock_leave_spec in Hleave as [(Ha & -> & -> & ->)|(_ & -> & -> & ->)].
  - destruct Hst as [|Hk]; [done|].
    assert (left_aborted k rid key m = updated rid (erase key) m) as -> by by destruct k.
    assert (∀ r, r ∈ requests m rid → req_key r ≠ key → r ∈ erase key (requests m rid)) as Her
      by (intros; by apply list_elem_of_filter).
    split.
    + eapply backed_kept; [intros rid'; by apply Hb; right|done|done|]. intros rid' r Hr Ht Hg. rewrite requests_updated.
      case_decide; [subst|done]. apply Her; [done|]. intros Hkk. destruct (Hown r Hr Hkk). congruence.
    + apply spares_updated. intros r Hr Ht. apply Her; [done|]. intros Hkk. by destruct (Hown r Hr Hkk).
  - split; [by apply backed_granted|]. unfold left_granted.
    eapply (spares_others_trans _ _ (match k with KUpgrade => flagged rid false m | _ => m end)).
    + destruct k; [apply spares_others_refl..|apply spares_flagged].
    + apply spares_with. intros r. destruct k; rewrite ?requests_flagged; intros Hr Hk; by apply Hown.
Qed.

Lemma lock_call_backed k rid m x a m' x' :
  lm_ok m → backed m x → lock_call k rid (m, x) = (Ret a, (m', x')) →
  match a with Done _ => True | Wait _ => k ≠ KUpgrade end →
  backed m' x' ∧ spares_others (txn_id_ x) m m' ∧
  ∀ key, a = Wait key → ∃ r, r ∈ requests m' rid ∧ req_key r = key.
Proof.
  intros Hm Hb. unfold lock_call, mbind, M_bind. destruct (lock_enter k rid (m, x)) as [[a1| | |] [m1 x1]] eqn:Henter; try done.
  destruct (lock_enter_backed _ _ _ _ _ _ _ Hm Hb Henter) as (Hs1 & Ha).
  destruct (lock_enter_good _ _ _ _ _ _ _ Hm Henter) as ([Hm1 _] & _ & Hwait).
  destruct a1 as [b|key]; [by intros [= <- <- <-]|]. destruct Ha as (-> & Hex & Hb1). unfold get_queue, gets. cbn [fst snd].
  destruct (can_proceed k (queue_of m1 rid) x) eqn:Hcan.
  - destruct (lock_leave k rid key (m1, x)) as [[b| | |] [m2 x2]] eqn:Hleave; try done. intros [= <- <- <-] _.
    assert (state_ x ≠ ABORTED) as Hst.
    { destruct k; [apply LockShared_enter_spec in Henter|apply LockExclusive_enter_spec in Henter|apply LockUpgrade_enter_spec in Henter];
        by destruct Henter as [(? & ? & _)|Hw]; [|destruct_and? Hw || destruct Hw as (? & ? & ? & ? & ? & _)]. }
    destruct (lock_leave_backed _ _ _ _ _ _ _ _ Hm1 Hb1 ltac:(by left) (Hwait key eq_refl) Hex Hleave) as [Hb2 Hs2].
    split_and!; [done|by eapply spares_others_trans|done].
  - intros [= <- <- <-] Hk. split_and!; [|done|by intros ? [= <-]].
    intros rid'. apply Hb1. by right.
Qed.

(** What holds along calm runs. *)
Record calm_inv (w : world) : Prop := {
  calm_backed t x : txns w !! t = Some x → backed (lm w) x;
  calm_present t wt : waiting w !! t = Some wt → ∃ r, r ∈ requests (lm w) wt.1.2 ∧ req_key r = wt.2;
}.

Lemma calm_inv_update w t x m' x' wt' :
  lock_inv w → calm_inv w → txns w !! t = Some x → spares_others t (lm w) m' → backed m' x' →
  (∀ wt, wt' !! t = Some wt → ∃ r, r ∈ requests m' wt.1.2 ∧ req_key r = wt.2) →
  (∀ t', t' ≠ t → wt' !! t' = waiting w !! t') →
  calm_inv (mkWorld m' (<[t := x']> (txns w)) wt').
Proof.
  intros Hinv [Hb Hp] Ht Hs Hx' Hwt Hother. split; cbn.
  - intros t' y [[<- <-]|[Hne Hy]]%lookup_insert_Some; [done|].
    eapply backed_other; [by eapply Hb|done|]. by rewrite (inv_ids _ Hinv t' y Hy).
  - intros t' wt Hw. destruct (decide (t' = t)) as [->|Hne]; [by apply Hwt|]. rewrite Hother in Hw by done.
    destruct (Hp t' wt Hw) as (r & Hr & Hk). exists r. split; [|done]. apply Hs; [done|].
    destruct (inv_waiting _ Hinv t' wt Hw) as [_ Hown]. by destruct (Hown r Hr Hk) as (-> & _).
Qed.

Lemma calm_invariant w : calm w → calm_inv w.
Proof.
  induction 1 as [|w w' Hcalm Hci Hstep Hno]; [split; by intros ???|].
  pose proof (reachable_inv w (calm_reachable _ Hcalm)) as Hinv.
  assert (∀ t x, txns w !! t = Some x → txn_id_ x = t) as Hid by apply Hinv.
  destruct Hstep as [w t iso Ht|w t x k rid b m' x' Ht Hw Hc|w t x k rid key m' x' Ht Hw Hc|w t x k rid key b m' x' Ht Hw Hcan Hl
    |w t x rid b m' x' Ht Hw Hu|w t x st m' x' Hend Ht Hw Hr|w t x Ht].
  - destruct Hci as [Hb Hp]. split; cbn; [|done].
    intros t' y [[<- <-]|[Hne Hy]]%lookup_insert_Some; [|by eapply Hb]. intros rid. split; set_solver.
  - destruct (lock_call_backed _ _ _ _ _ _ _ (inv_manager _ Hinv) (calm_backed _ Hci t x Ht) Hc I) as (Hb & Hs & _).
    rewrite (Hid t x Ht) in Hs. eapply calm_inv_update; try done. intros wt Hwt. congruence.
  - assert (k ≠ KUpgrade) as Hk by (intros ->; apply (Hno t rid key); apply lookup_insert_eq).
    destruct (lock_call_backed _ _ _ _ _ _ _ (inv_manager _ Hinv) (calm_backed _ Hci t x Ht) Hc Hk) as (Hb & Hs & Hp).
    rewrite (Hid t x Ht) in Hs. eapply calm_inv_update; try done; [|intros; by apply lookup_insert_ne].
    intros wt. rewrite lookup_insert_eq. intros [= <-]. by apply Hp.
  - assert (wait_ok (lm w) (txn_id_ x) (k, rid, key)) as Hwait by (rewrite (Hid t x Ht); by apply Hinv).
    pose proof (calm_present _ Hci _ _ Hw) as Hp. cbn [fst snd] in Hp.
    assert (k ≠ KUpgrade) as Hk by (intros ->; by apply (calm_no_upgrade w t rid key)).
    destruct (lock_leave_backed _ _ _ _ _ _ _ _ (inv_manager _ Hinv) (λ rid' _, calm_backed _ Hci t x Ht rid')
      ltac:(by right) Hwait Hp Hl) as [Hb Hs].
    rewrite (Hid t x Ht) in Hs. eapply calm_inv_update; try done; [|intros; by apply lookup_delete_ne].
    intros wt. by rewrite lookup_delete_eq.
  - apply Unlock_spec in Hu as (-> & Htx & Hsets & _). eapply calm_inv_update; try done; [| |intros; congruence].
    + apply spares_updated. intros r Hr Hne. rewrite (Hid t x Ht). by apply erase_first_other.
    + injection Hsets as Hs He. intros rid'. unfold backed_at. rewrite Htx, Hs, He, requests_updated.
      destruct (calm_backed _ Hci t x Ht rid') as [Hsh Hex]. case_decide; [subst; set_solver|].
      split; intros [? _]%elem_of_difference; auto.
  - pose proof (release_outcome st (lm w) x) as Ho. case_decide; rewrite Hr in Ho; [|done]. injection Ho as -> ->.
    eapply calm_inv_update; try done; intros; congruence.
  - eapply calm_inv_update; try done; [apply spares_others_refl|exact (calm_backed _ Hci t x Ht)|by intros wt Hwt; apply (calm_present _ Hci t)].
Qed.

(** ** Properties *)

(** C28: in every state that any interleaving of any number of transactions can
    reach, two requests for the same record that are granted together belong to
    the same transaction or are both shared. *)
Theorem granted_locks_compatible w rid r1 r2 :
  reachable w → r1 ∈ requests (lm w) rid → r2 ∈ requests (lm w) rid → granted_ r1 = true → granted_ r2 = true →
  req_txn_id_ r1 = req_txn_id_ r2 ∨ lock_mode_ r1 = SHARED ∧ lock_mode_ r2 = SHARED.
Proof. intros Hr%reachable_inv. apply (req_compatible _ _ (inv_manager _ Hr rid)). Qed.

(** [Commit] and [Abort] walk over a lock set while [Unlock] erases the element
    they are at, so on a transaction that holds a lock they have undefined
    behaviour; without locks they only set the state. *)
Theorem release_needs_no_locks st m x :
  (shared_lock_set_ x = ∅ ∧ exclusive_lock_set_ x = ∅ →
   release st (m, x) = (Ret tt, (m, set_lock_sets (fun _ => ∅) (fun _ => ∅) (SetState st x)))) ∧
  (shared_lock_set_ x ≠ ∅ ∨ exclusive_lock_set_ x ≠ ∅ → (release st (m, x)).1 = Undef).
Proof.
  pose proof (release_outcome st m x) as Ho. split; intros Hx.
  - by rewrite decide_True in Ho.
  - rewrite decide_False in Ho; [done|]. intros [??]. by destruct Hx.
Qed.

(** C29: along any run in which no upgrade has to wait, the lock sets of the
    transactions exclude each other: nobody holds any lock on a record that
    another transaction holds exclusively. *)
Theorem lock_sets_exclusive w t1 t2 x1 x2 rid :
  calm w → txns w !! t1 = Some x1 → txns w !! t2 = Some x2 → t1 ≠ t2 →
  rid ∈ exclusive_lock_set_ x1 → rid ∉ shared_lock_set_ x2 ∧ rid ∉ exclusive_lock_set_ x2.
Proof.
  intros Hcalm H1 H2 Hne Hex. pose proof (calm_invariant _ Hcalm) as Hci.
  pose proof (reachable_inv _ (calm_reachable _ Hcalm)) as Hinv.
  destruct (proj2 (calm_backed _ Hci t1 x1 H1 rid) Hex) as (r1 & Hr1 & Ht1 & Hg1 & Hm1).
  assert (∀ r2, r2 ∈ requests (lm w) rid → req_txn_id_ r2 = txn_id_ x2 → granted_ r2 = true → False) as Hno.
  { intros r2 Hr2 Ht2 Hg2. rewrite (inv_ids _ Hinv _ _ H1) in Ht1. rewrite (inv_ids _ Hinv _ _ H2) in Ht2.
    destruct (req_compatible _ _ (inv_manager _ Hinv rid) r1 r2 Hr1 Hr2 Hg1 Hg2) as [|[? _]]; congruence. }
  destruct (calm_backed _ Hci t2 x2 H2 rid) as [Hsh2 Hex2]. split; intros Hin.
  - destruct (Hsh2 Hin) as (r2 & ? & ? & ?). by eapply Hno.
  - destruct (Hex2 Hin) as (r2 & ? & ? & ? & _). by eapply Hno.
Qed.

(** ** Two phases *)
Lemma lock_enter_wait k rid m x key m' x' :
  lock_enter k rid (m, x) = (Ret (Wait key), (m', x')) → x' = x ∧ state_ x ≠ SHRINKING ∧ state_ x ≠ ABORTED.
Proof.
  destruct k; cbn [lock_enter];
    [intros [(? & ? & _)|(? & ? & ? & ? & _)]%LockShared_enter_spec
    |intros [(? & ? & _)|(? & ? & ? & ? & _)]%LockExclusive_enter_spec
    |intros [(? & ? & _)|(? & ? & ? & ? & ? & _)]%LockUpgrade_enter_spec]; done.
Qed.

Lemma lock_enter_done k rid m x b m' x' :
  lock_enter k rid (m, x) = (Ret (Done b), (m', x')) → early_exit x x'.
Proof.
  destruct k; cbn [lock_enter];
    [intros [(? & ? & ? & ?)|(? & _)]%LockShared_enter_spec
    |intros [(? & ? & ? & ?)|(? & _)]%LockExclusive_enter_spec
    |intros [(? & ? & ? & ?)|(? & ? & _)]%LockUpgrade_enter_spec]; done.
Qed.

(** On a transaction that gave up a lock or was aborted, a lock call gains nothing. *)
Lemma lock_call_shrinking k rid m x a m' x' :
  lock_call k rid (m, x) = (Ret a, (m', x')) → state_ x = SHRINKING ∨ state_ x = ABORTED → lock_sets x' = lock_sets x.
Proof.
  unfold lock_call, mbind, M_bind. destruct (lock_enter k rid (m, x)) as [[[b|key]| | |] [m1 x1]] eqn:He; try done.
  - intros [= _ _ <-] _. by apply lock_enter_done in He as (_ & ? & _).
  - intros _ Hst. apply lock_enter_wait in He as (_ & H1 & H2). by destruct Hst.
Qed.

Lemma lock_call_wait k rid m x key m' x' :
  lock_call k rid (m, x) = (Ret (Wait key), (m', x')) → x' = x ∧ state_ x ≠ SHRINKING.
Proof.
  unfold lock_call, mbind, M_bind. destruct (lock_enter k rid (m, x)) as [[[b|key1]| | |] [m1 x1]] eqn:He; try done.
  apply lock_enter_wait in He as (-> & H1 & _). unfold get_queue, gets. cbn [fst snd].
  destruct (can_proceed _ _ _); [|by intros [= _ _ <-]].
  by destruct (lock_leave _ _ _ _) as [[] []].
Qed.

Lemma waiting_not_shrinking w : reachable w →
  ∀ t x wt, waiting w !! t = Some wt → txns w !! t = Some x → state_ x ≠ SHRINKING.
Proof.
  induction 1 as [|w w' _ IH Hstep]; [by intros ???|].
  assert (∀ t x t' x' wt, waiting w !! t = None → waiting w !! t' = Some wt →
    <[t := x]> (txns w) !! t' = Some x' → state_ x' ≠ SHRINKING) as Hidle.
  { intros t x t' x' wt Hn Hw. destruct (decide (t' = t)) as [->|]; [congruence|].
    rewrite lookup_insert_ne by done. by eapply IH. }
  destruct Hstep as [w t iso Ht|w t x k rid b m' x' Ht Hw Hc|w t x k rid key m' x' Ht Hw Hc|w t x k rid key b m' x' Ht Hw Hcan Hl
    |w t x rid b m' x' Ht Hw Hu|w t x st m' x' Hend Ht Hw Hr|w t x Ht]; cbn; intros t' y wt Hwt Hy; try by eapply Hidle.
  - apply lookup_insert_Some in Hy as [[<- <-]|[Hne Hy]]; [done|by eapply IH].
  - apply lock_call_wait in Hc as [-> Hs].
    apply lookup_insert_Some in Hy as [[<- <-]|[Hne Hy]]; [done|]. rewrite lookup_insert_ne in Hwt by done. by eapply IH.
  - apply lookup_delete_Some in Hwt as [Hne Hwt]. rewrite lookup_insert_ne in Hy by done. by eapply IH.
  - apply lookup_insert_Some in Hy as [[<- <-]|[Hne Hy]]; [done|by eapply IH].
Qed.

(** What stays true of a transaction that has released a lock, until it is
    committed. *)
Definition retired (t : Z) (x : Transaction) (w : world) : Prop :=
  waiting w !! t = None ∧
  ∃ x', txns w !! t = Some x' ∧ (state_ x' = SHRINKING ∨ state_ x' = ABORTED) ∧
    shared_lock_set_ x' ⊆ shared_lock_set_ x ∧ exclusive_lock_set_ x' ⊆ exclusive_lock_set_ x.

(** A step after which transaction [t] is not committed. *)
Definition uncommitted_step (t : Z) (w w' : world) : Prop :=
  step w w' ∧ ∀ x', txns w' !! t = Some x' → state_ x' ≠ COMMITTED.

Lemma lock_call_refused k rid m x :
  state_ x = SHRINKING ∨ state_ x = ABORTED →
  lock_call k rid (m, x) = (Ret (Done false), (m, SetState ABORTED x)).
Proof.
  intros Hst. unfold lock_call, lock_enter, LockShared_enter, LockExclusive_enter, LockUpgrade_enter, check_state,
    get_state, set_state. m_unfold. cbn [fst snd].
  destruct x as [tid iso st sh ex]. cbn in Hst. destruct Hst as [-> | ->], k; done.
Qed.

Lemma retired_update t x t1 y w m wt :
  retired t x w → (t1 ≠ t → wt !! t = waiting w !! t) →
  (t1 = t → wt !! t = None ∧ (state_ y = SHRINKING ∨ state_ y = ABORTED) ∧
     shared_lock_set_ y ⊆ shared_lock_set_ x ∧ exclusive_lock_set_ y ⊆ exclusive_lock_set_ x) →
  retired t x (mkWorld m (<[t1 := y]> (txns w)) wt).
Proof.
  intros (Hw & x' & Hx' & Hst) Hne Heq. unfold retired. cbn. destruct (decide (t1 = t)) as [->|Hd].
  - destruct (Heq eq_refl) as [? ?]. split; [done|]. exists y. by rewrite lookup_insert_eq.
  - rewrite Hne by done. split; [done|]. exists x'. by rewrite lookup_insert_ne.
Qed.

Lemma retired_step t x w w' : retired t x w → uncommitted_step t w w' → retired t x w'.
Proof.
  intros Hret [Hstep Hunc]. pose proof Hret as (Hnw & x0 & Hx0 & Hst & Hsh & Hex).
  destruct Hstep as [w t1 iso Ht|w t1 x1 k rid b m' x' Ht Hw Hc|w t1 x1 k rid key m' x' Ht Hw Hc|w t1 x1 k rid key b m' x' Ht Hw Hcan Hl
    |w t1 x1 rid b m' x' Ht Hw Hu|w t1 x1 st m' x' Hend Ht Hw Hr|w t1 x1 Ht]; apply retired_update; try done;
    try (intros ->; replace x1 with x0 in * by congruence).
  - intros ->. congruence.
  - rewrite lock_call_refused in Hc by done. injection Hc as <- <- <-. split_and!; [done|by right|done|done].
  - intros Hne. by rewrite lookup_insert_ne.
  - by rewrite lock_call_refused in Hc.
  - intros Hne. by rewrite lookup_delete_ne.
  - congruence.
  - apply Unlock_spec in Hu as (_ & _ & Hsets & Hs). injection Hsets as -> ->. rewrite Hs.
    split_and!; [done|case_decide; [by left|done]|set_solver..].
  - pose proof (release_outcome st (lm w) x0) as Ho. case_decide; rewrite Hr in Ho; [|done]. injection Ho as -> ->.
    split_and!; [done| |set_solver..]. right. cbn. destruct Hend as [-> |?]; [|done].
    by destruct (Hunc _ (lookup_insert_eq _ _ _)).
  - split_and!; [done|by right|done|done].
Qed.

Lemma retired_run t x w w' : rtc (uncommitted_step t) w w' → retired t x w → retired t x w'.
Proof. induction 1; [done|]. intros Hr. eauto using retired_step. Qed.

(** C30: two-phase locking.  [Unlock] takes the record out of both lock sets and
    makes a growing transaction shrinking.  From then on, whatever the threads do
    in any number of steps, until the transaction is committed it is shrinking or
    aborted, it holds no lock that it did not hold after that [Unlock], and each
    of its lock calls returns false at once, changes no queue and leaves it
    aborted.  (After [COMMITTED] nothing stops it: the lock methods do not look
    for that state.) *)
Theorem two_phase w t x rid b m x1 w' :
  txns w !! t = Some x → waiting w !! t = None → state_ x = GROWING →
  Unlock rid (lm w, x) = (Ret b, (m, x1)) →
  rtc (uncommitted_step t) (mkWorld m (<[t := x1]> (txns w)) (waiting w)) w' →
  state_ x1 = SHRINKING ∧ rid ∉ shared_lock_set_ x1 ∧ rid ∉ exclusive_lock_set_ x1 ∧
  ∃ x', txns w' !! t = Some x' ∧ (state_ x' = SHRINKING ∨ state_ x' = ABORTED) ∧
    shared_lock_set_ x' ⊆ shared_lock_set_ x1 ∧ exclusive_lock_set_ x' ⊆ exclusive_lock_set_ x1 ∧
    ∀ k rid', lock_call k rid' (lm w', x') = (Ret (Done false), (lm w', SetState ABORTED x')).
Proof.
  intros Hx Hw Hst Hu Hrun. apply Unlock_spec in Hu as (-> & _ & Hsets & Hs1). rewrite decide_True in Hs1 by done.
  split; [done|]. split; [injection Hsets as -> _; set_solver|]. split; [injection Hsets as _ ->; set_solver|].
  assert (retired t x1 w') as (_ & x' & Hx' & Hst' & Hsub).
  { apply (retired_run _ _ _ _ Hrun). split; [done|]. exists x1. cbn. rewrite lookup_insert_eq. auto. }
  exists x'. destruct Hsub. split_and!; try done. intros k rid'. by apply lock_call_refused.
Qed.

(** ** Executable runs *)
Inductive action :=
  | ABegin (t : Z) | ALock (t : Z) (k : lock_kind) (rid : RID) | AWake (t : Z) | AUnlock (t : Z) (rid : RID) | AKill (t : Z).

Definition act (a : action) (w : world) : option world :=
  match a with
  | ABegin t =>
    match txns w !! t with
    | None => Some (mkWorld (lm w) (<[t := Transaction_new t REPEATABLE_READ]> (txns w)) (waiting w))
    | Some _ => None
    end
  | ALock t k rid =>
    match txns w !! t, waiting w !! t with
    | Some x, None =>
      match lock_call k rid (lm w, x) with
      | (Ret (Done _), (m, x')) => Some (mkWorld m (<[t := x']> (txns w)) (waiting w))
      | (Ret (Wait key), (m, x')) => Some (mkWorld m (<[t := x']> (txns w)) (<[t := (k, rid, key)]> (waiting w)))
      | _ => None
      end
    | _, _ => None
    end
  | AWake t =>
    match txns w !! t, waiting w !! t with
    | Some x, Some (k, rid, key) =>
      if can_proceed k (queue_of (lm w) rid) x then
        match lock_leave k rid key (lm w, x) with
        | (Ret _, (m, x')) => Some (mkWorld m (<[t := x']> (txns w)) (delete t (waiting w)))
        | _ => None
        end
      else None
    | _, _ => None
    end
  | AUnlock t rid =>
    match txns w !! t, waiting w !! t with
    | Some x, None =>
      match Unlock rid (lm w, x) with
      | (Ret _, (m, x')) => Some (mkWorld m (<[t := x']> (txns w)) (waiting w))
      | _ => None
      end
    | _, _ => None
    end
  | AKill t =>
    x ← txns w !! t; Some (mkWorld (lm w) (<[t := SetState ABORTED x]> (txns w)) (waiting w))
  end.

Lemma act_step a w w' : act a w = Some w' → step w w'.
Proof.
  destruct a as [t|t k rid|t|t rid|t]; cbn; destruct (txns w !! t) as [x|] eqn:Ht; try done; cbn;
    try (destruct (waiting w !! t) as [[[k' rid'] key']|] eqn:Hw; try done; cbn).
  all: try (destruct (lock_call k rid _) as [[[]| | |] [m x']] eqn:Hc); try (destruct (can_proceed _ _ _) eqn:Hcan);
    try (destruct (lock_leave _ _ _ _) as [[] [m x']] eqn:Hl); try (destruct (Unlock _ _) as [[] [m x']] eqn:Hu); try done.
  all: intros [= <-]; by econstructor.
Qed.

Fixpoint acts (l : list action) (w : world) : option world :=
  match l with [] => Some w | a :: l' => w' ← act a w; acts l' w' end.

Definition no_upgrade_waits (w : world) : bool :=
  forallb (fun p => bool_decide (p.2.1.1 ≠ KUpgrade)) (map_to_list (waiting w)).
Fixpoint calm_acts (l : list action) (w : world) : option world :=
  match l with [] => Some w | a :: l' => w' ← act a w; if no_upgrade_waits w' then calm_acts l' w' else None end.

Lemma acts_reachable l : ∀ w w', reachable w → acts l w = Some w' → reachable w'.
Proof.
  induction l as [|a l IH]; intros w w' Hr; cbn; [by intros [= <-]|].
  destruct (act a w) as [w1|] eqn:Ha; [|done]. cbn. apply IH. by eapply reachable_step, act_step.
Qed.

Lemma calm_acts_calm l : ∀ w w', calm w → calm_acts l w = Some w' → calm w'.
Proof.
  induction l as [|a l IH]; intros w w' Hr; cbn; [by intros [= <-]|].
  destruct (act a w) as [w1|] eqn:Ha; [|done]. cbn. destruct (no_upgrade_waits w1) eqn:Hn; [|done]. apply IH.
  eapply calm_step; [done|by eapply act_step|]. intros t rid key Hw. unfold no_upgrade_waits in Hn.
  rewrite forallb_forall in Hn. specialize (Hn (t, (KUpgrade, rid, key))).
  by assert (bool_decide (KUpgrade ≠ KUpgrade) = true) as ?%bool_decide_eq_true by
    (apply Hn, list_elem_of_In, elem_of_map_to_list, Hw).
Qed.

(** ** Two runs that go wrong *)
Definition r0 : RID := mkRID 0 0.

(** The world after a run, or the initial one if the run is not possible. *)
Definition after (l : list action) : world := default world_new (acts l world_new).

Lemma after_reachable l : reachable (after l).
Proof.
  unfold after. destruct (acts l world_new) as [w|] eqn:Hw; [|constructor]. by eapply acts_reachable; [constructor|].
Qed.

Lemma calm_after l : is_Some (calm_acts l world_new) → calm (default world_new (calm_acts l world_new)).
Proof. intros [w Hw]. rewrite Hw. by eapply calm_acts_calm; [constructor|]. Qed.

Definition upgrade_run : list action :=
  [ABegin 1; ABegin 2; ABegin 3; ALock 1 KShared r0; ALock 2 KShared r0; ALock 1 KUpgrade r0; ALock 3 KExclusive r0;
   AUnlock 2 r0].

(** C34: a transaction that waits in [LockUpgrade] has its shared request marked as
    not granted but keeps the record in its lock set.  So whenever another
    transaction waits for the exclusive lock, and no request but that marked one
    stands in its way, it can be given the lock: the first one is still waiting
    and still has the record in its shared lock set, and the other one has it in
    its exclusive lock set, so both believe to hold the record. *)
Theorem waiting_upgrade_breaks_exclusion w t1 x1 t3 x3 rid key key3 :
  reachable w → t1 ≠ t3 →
  txns w !! t1 = Some x1 → waiting w !! t1 = Some (KUpgrade, rid, key) → rid ∈ shared_lock_set_ x1 →
  txns w !! t3 = Some x3 → waiting w !! t3 = Some (KExclusive, rid, key3) → state_ x3 ≠ ABORTED →
  (∀ r, r ∈ requests (lm w) rid → granted_ r = true → req_txn_id_ r = t3 ∨ req_key r = key) →
  ∃ w' x3', step w w' ∧
    txns w' !! t1 = Some x1 ∧ waiting w' !! t1 = Some (KUpgrade, rid, key) ∧ rid ∈ shared_lock_set_ x1 ∧
    txns w' !! t3 = Some x3' ∧ waiting w' !! t3 = None ∧ rid ∈ exclusive_lock_set_ x3'.
Proof.
  intros Hinv%reachable_inv Hne H1 Hw1 Hsh H3 Hw3 Hst Hgr.
  destruct (lock_leave KExclusive rid key3 (lm w, x3)) as [o [m' x3']] eqn:Hl.
  assert (o = Ret true ∧ x3' = locked KExclusive rid x3) as [-> ->].
  { revert Hl. unfold lock_leave, LockExclusive_leave, get_state, update_requests, get_queue, put_queue. m_unfold.
    cbn [fst snd]. rewrite decide_False by done. by intros [= <- _ <-]. }
  exists (mkWorld m' (<[t3 := locked KExclusive rid x3]> (txns w)) (delete t3 (waiting w))), (locked KExclusive rid x3).
  split; [|cbn; rewrite lookup_insert_ne, lookup_delete_ne, lookup_insert_eq, lookup_delete_eq by done; set_solver].
  eapply step_wake; [done|done| |done]. unfold can_proceed, can_exclude. apply orb_true_iff. right.
  apply forallb_forall. intros r Hr%list_elem_of_In. apply negb_true_iff, andb_false_iff.
  destruct (granted_ r) eqn:Hg; [right|by left]. apply bool_decide_eq_false. intros Htid. apply Htid.
  rewrite (inv_ids _ Hinv _ _ H3). destruct (Hgr r Hr Hg) as [|Hk]; [done|].
  destruct (inv_waiting _ Hinv _ _ Hw1) as [_ Hown]. destruct (Hown r Hr Hk) as (_ & _ & ?). cbn in *. congruence.
Qed.

Definition zombie_run : list action :=
  [ABegin 1; ABegin 2; ALock 1 KShared r0; ALock 1 KExclusive r0; AUnlock 1 r0; ALock 2 KShared r0].

(** C35: a transaction that locks a record shared and then exclusively has two
    requests in the queue, of which [Unlock] removes only the first: an exclusive
    lock that is in nobody's lock set stays granted, and other transactions wait
    for it. *)
Theorem unlock_leaves_granted_lock :
  ∃ w req key, reachable w ∧ req ∈ requests (lm w) r0 ∧ granted_ req = true ∧ lock_mode_ req = EXCLUSIVE ∧
    map_Forall (fun _ x => lock_sets x = (∅, ∅)) (txns w) ∧ waiting w !! 2 = Some (KShared, r0, key).
Proof.
  exists (after zombie_run), (mkRequest 1 1 EXCLUSIVE true), 2%nat. split; [apply after_reachable|].
  assert (requests (lm (after zombie_run)) r0 = [mkRequest 1 1 EXCLUSIVE true; mkRequest 2 2 SHARED false]) as ->
    by (vm_compute; reflexivity).
  split; [by left|]. split; [done|]. split; [done|].
  split; [|vm_compute; reflexivity]. apply (bool_decide_unpack _). vm_compute. exact I.
Qed.

(** ** Witnesses *)
Definition shared_run : list action :=
  [ABegin 1; ABegin 2; ALock 1 KShared r0; ALock 2 KShared r0].

Example granted_locks_compatible_witness :
  req_txn_id_ (mkRequest 0 1 SHARED true) = req_txn_id_ (mkRequest 1 2 SHARED true) ∨
  lock_mode_ (mkRequest 0 1 SHARED true) = SHARED ∧ lock_mode_ (mkRequest 1 2 SHARED true) = SHARED.
Proof.
  apply (granted_locks_compatible (after shared_run) r0); [apply after_reachable| | |done|done].
  - assert (requests (lm (after shared_run)) r0 = [mkRequest 0 1 SHARED true; mkRequest 1 2 SHARED true]) as ->
      by (vm_compute; reflexivity). by left.
  - assert (requests (lm (after shared_run)) r0 = [mkRequest 0 1 SHARED true; mkRequest 1 2 SHARED true]) as ->
      by (vm_compute; reflexivity). right. by left.
Defined.

Definition exclusive_run : list action := [ABegin 1; ABegin 2; ALock 1 KExclusive r0; ALock 2 KShared r0].

Example lock_sets_exclusive_witness :
  r0 ∉ shared_lock_set_ (Transaction_new 2 REPEATABLE_READ) ∧ r0 ∉ exclusive_lock_set_ (Transaction_new 2 REPEATABLE_READ).
Proof.
  apply (lock_sets_exclusive (default world_new (calm_acts exclusive_run world_new)) 1 2
    (set_lock_sets id (union {[r0]}) (Transaction_new 1 REPEATABLE_READ)) (Transaction_new 2 REPEATABLE_READ) r0).
  - apply calm_after. vm_compute. by eexists.
  - vm_compute. reflexivity.
  - vm_compute. reflexivity.
  - done.
  - apply (bool_decide_unpack _). vm_compute. exact I.
Defined.

(** Transaction 1 releases its lock, then asks for another one. *)
Definition shrinking_run : list action :=
  [ABegin 1; ALock 1 KShared r0; AUnlock 1 r0; ABegin 2; ALock 1 KExclusive r0].
Definition shrunk : Transaction := mkTransaction 1 REPEATABLE_READ SHRINKING ∅ ∅.

Example two_phase_witness :
  state_ shrunk = SHRINKING ∧ r0 ∉ shared_lock_set_ shrunk ∧ r0 ∉ exclusive_lock_set_ shrunk ∧
  ∃ x', txns (after shrinking_run) !! 1 = Some x' ∧ (state_ x' = SHRINKING ∨ state_ x' = ABORTED) ∧
    shared_lock_set_ x' ⊆ shared_lock_set_ shrunk ∧ exclusive_lock_set_ x' ⊆ exclusive_lock_set_ shrunk ∧
    ∀ k rid', lock_call k rid' (lm (after shrinking_run), x') =
      (Ret (Done false), (lm (after shrinking_run), SetState ABORTED x')).
Proof.
  refine (two_phase (after [ABegin 1; ALock 1 KShared r0]) 1
    (set_lock_sets (union {[r0]}) id (Transaction_new 1 REPEATABLE_READ)) r0 true _ shrunk (after shrinking_run)
    _ _ _ _ _); [vm_compute; reflexivity..|].
  eapply rtc_l; [|apply rtc_once].
  - split; [apply (act_step (ABegin 2)); vm_compute; reflexivity|].
    intros x' Hx'. vm_compute in Hx'. by injection Hx' as <-.
  - split; [apply (act_step (ALock 1 KExclusive r0)); vm_compute; reflexivity|].
    intros x' Hx'. vm_compute in Hx'. by injection Hx' as <-.
Defined.

Definition reader (t : Z) : Transaction := set_lock_sets (union {[r0]}) id (Transaction_new t REPEATABLE_READ).

Example waiting_upgrade_breaks_exclusion_witness :
  ∃ w' x3', step (after upgrade_run) w' ∧
    txns w' !! 1 = Some (reader 1) ∧ waiting w' !! 1 = Some (KUpgrade, r0, 0%nat) ∧ r0 ∈ shared_lock_set_ (reader 1) ∧
    txns w' !! 3 = Some x3' ∧ waiting w' !! 3 = None ∧ r0 ∈ exclusive_lock_set_ x3'.
Proof.
  apply (waiting_upgrade_breaks_exclusion (after upgrade_run) 1 (reader 1) 3 (Transaction_new 3 REPEATABLE_READ) r0 0 2);
    [apply after_reachable|done|vm_compute; reflexivity|vm_compute; reflexivity| |vm_compute; reflexivity|vm_compute; reflexivity|done|].
  - apply (bool_decide_unpack _). vm_compute. exact I.
  - assert (requests (lm (after upgrade_run)) r0 = [mkRequest 0 1 EXCLUSIVE false; mkRequest 2 3 EXCLUSIVE false]) as ->
      by (vm_compute; reflexivity).
    intros r. rewrite !elem_of_cons, elem_of_nil. intros [-> |[-> |[]]]; done.
Defined.

Example release_needs_no_locks_witness :
  (release COMMITTED (LockManager_new, set_lock_sets id (union {[r0]}) (Transaction_new 1 REPEATABLE_READ))).1 = Undef.
Proof.
  apply (release_needs_no_locks COMMITTED LockManager_new (set_lock_sets id (union {[r0]}) (Transaction_new 1 REPEATABLE_READ))).
  right. intros He. apply (f_equal (fun s => bool_decide (r0 ∈ s))) in He. vm_compute in He. done.
Defined.
