(* ===== verification/BPlusTreePage.v ===== *)
(** * Pages of the B+ tree

    Models [src/storage/page/b_plus_tree_leaf_page.cpp] and
    [b_plus_tree_internal_page.cpp], instantiated as the program does with keys
    [int] and the comparator [std::less<int>].  The flexible array member
    [array_[0]] is the list of all cells that fit into the page, used or not: an
    access to a cell outside it is undefined.  The used cells are the first
    [size_] ones. *)
From Stdlib Require Import Sorting.Sorted.
From stdpp Require Import sorting.
From S2P Require Import Prelude Interfaces Tuple.

#[local] Open Scope Z_scope.
#[local] Coercion Z.of_nat : nat >-> Z.

(** ** Arrays *)
Section arrays.
Context {A : Type}.
Implicit Types (l src dst : list A).

Definition arr_get (i : Z) (l : list A) : outcome A :=
  if bool_decide (0 ≤ i) then deref (l !! Z.to_nat i) else Undef.
Definition arr_set (i : Z) (x : A) (l : list A) : outcome (list A) :=
  if bool_decide (0 ≤ i < length l) then Ret (<[Z.to_nat i := x]> l) else Undef.

(** [n] rounds of [array_[i] = array_[i - 1]], [i] going down. *)
Fixpoint shift_up (n : nat) (i : Z) (l : list A) : outcome (list A) :=
  match n with
  | O => Ret l
  | S n' => x ← arr_get (i - 1) l; l' ← arr_set i x l; shift_up n' (i - 1) l'
  end.

(** [n] rounds of [array_[i] = array_[i + 1]], [i] going up. *)
Fixpoint shift_down (n : nat) (i : Z) (l : list A) : outcome (list A) :=
  match n with
  | O => Ret l
  | S n' => x ← arr_get (i + 1) l; l' ← arr_set i x l; shift_down n' (i + 1) l'
  end.

(** [n] rounds of [dst[j] = src[i]], both going up. *)
Fixpoint copy_cells (n : nat) (src : list A) (i : Z) (dst : list A) (j : Z) : outcome (list A) :=
  match n with
  | O => Ret dst
  | S n' => x ← arr_get i src; dst' ← arr_set j x dst; copy_cells n' src (i + 1) dst' (j + 1)
  end.

Lemma arr_get_nat (i : nat) x l : l !! i = Some x → arr_get i l = Ret x.
Proof. intros Hx. unfold arr_get. rewrite bool_decide_true, Nat2Z.id, Hx by lia. done. Qed.
Lemma arr_set_nat (i : nat) x l : (i < length l)%nat → arr_set i x l = Ret (<[i := x]> l).
Proof. intros Hi. unfold arr_set. rewrite bool_decide_true, Nat2Z.id by lia. done. Qed.

(** What the loops leave in each cell. *)
Lemma shift_up_spec n : ∀ (i : nat) l,
  (n ≤ i)%nat → (i < length l)%nat →
  ∃ l', shift_up n i l = Ret l' ∧ length l' = length l ∧
    ∀ j, l' !! j = if decide (i - n < j ≤ i)%nat then l !! (j - 1)%nat else l !! j.
Proof.
  induction n as [|n IH]; intros i l Hn Hi; cbn [shift_up].
  { exists l. split_and!; [done|done|]. intros j. rewrite decide_False by lia. done. }
  replace (i - 1) with (Z.of_nat (i - 1)) by lia.
  destruct (lookup_lt_is_Some_2 l (i - 1)) as [x Hx]; [lia|]. rewrite (arr_get_nat _ x) by done. cbn [mbind outcome_bind].
  rewrite arr_set_nat by done. cbn [mbind outcome_bind].
  destruct (IH (i - 1)%nat (<[i := x]> l)) as (l' & Hl' & Hlen & Hj); [lia|rewrite length_insert; lia|].
  exists l'. rewrite length_insert in Hlen. split_and!; [done|done|]. intros j. rewrite Hj.
  destruct (decide (i - 1 - n < j ≤ i - 1)%nat) as [H1|H1].
  - rewrite decide_True by lia. by rewrite list_lookup_insert_ne by lia.
  - destruct (decide (j = i)) as [->|].
    + rewrite decide_True by lia. by rewrite list_lookup_insert_eq by lia.
    + rewrite decide_False by lia. by rewrite list_lookup_insert_ne by lia.
Qed.

Lemma shift_down_spec n : ∀ (i : nat) l,
  (i + n < length l)%nat →
  ∃ l', shift_down n i l = Ret l' ∧ length l' = length l ∧
    ∀ j, l' !! j = if decide (i ≤ j < i + n)%nat then l !! S j else l !! j.
Proof.
  induction n as [|n IH]; intros i l Hi; cbn [shift_down].
  { exists l. split_and!; [done|done|]. intros j. rewrite decide_False by lia. done. }
  replace (i + 1) with (Z.of_nat (S i)) by lia.
  destruct (lookup_lt_is_Some_2 l (S i)) as [x Hx]; [lia|]. rewrite (arr_get_nat _ x) by done. cbn [mbind outcome_bind].
  rewrite arr_set_nat by lia. cbn [mbind outcome_bind].
  destruct (IH (S i) (<[i := x]> l)) as (l' & Hl' & Hlen & Hj); [rewrite length_insert; lia|].
  exists l'. rewrite length_insert in Hlen. split_and!; [done|done|]. intros j. rewrite Hj.
  destruct (decide (S i ≤ j < S i + n)%nat) as [H1|H1].
  - rewrite decide_True by lia. by rewrite list_lookup_insert_ne by lia.
  - destruct (decide (j = i)) as [->|].
    + rewrite decide_True by lia. by rewrite list_lookup_insert_eq by lia.
    + rewrite decide_False by lia. by rewrite list_lookup_insert_ne by lia.
Qed.

Lemma copy_cells_spec n : ∀ src (i j : nat) dst,
  (i + n ≤ length src)%nat → (j + n ≤ length dst)%nat →
  ∃ dst', copy_cells n src i dst j = Ret dst' ∧ length dst' = length dst ∧
    ∀ x, dst' !! x = if decide (j ≤ x < j + n)%nat then src !! (i + (x - j))%nat else dst !! x.
Proof.
  induction n as [|n IH]; intros src i j dst Hi Hj; cbn [copy_cells].
  { exists dst. split_and!; [done|done|]. intros x. rewrite decide_False by lia. done. }
  destruct (lookup_lt_is_Some_2 src i) as [x Hx]; [lia|]. rewrite (arr_get_nat _ x) by done. cbn [mbind outcome_bind].
  rewrite arr_set_nat by lia. cbn [mbind outcome_bind].
  replace (i + 1) with (Z.of_nat (S i)) by lia. replace (j + 1) with (Z.of_nat (S j)) by lia.
  destruct (IH src (S i) (S j) (<[j := x]> dst)) as (l' & Hl' & Hlen & Hy); [lia|rewrite length_insert; lia|].
  exists l'. rewrite length_insert in Hlen. split_and!; [done|done|]. intros y. rewrite Hy.
  destruct (decide (S j ≤ y < S j + n)%nat) as [H1|H1].
  - rewrite decide_True by lia. f_equal. lia.
  - destruct (decide (y = j)) as [->|].
    + rewrite decide_True by lia. rewrite list_lookup_insert_eq by lia. rewrite <-Hx. f_equal. lia.
    + rewrite decide_False by lia. by rewrite list_lookup_insert_ne by lia.
Qed.
Lemma shift_up_out n l : (0 < n)%nat → shift_up n (length l) l = Undef.
Proof.
  destruct n as [|n]; intros Hn; [lia|]. cbn [shift_up].
  unfold arr_get, arr_set, deref. rewrite (bool_decide_false (0 ≤ length l < length l)) by lia.
  repeat (case_match; cbn; try done).
Qed.

(** The loops as operations on lists. *)
Lemma lookup_app_dec (l1 l2 : list A) (i : nat) :
  (l1 ++ l2) !! i = if decide (i < length l1)%nat then l1 !! i else l2 !! (i - length l1)%nat.
Proof. case_decide; [apply lookup_app_l|apply lookup_app_r]; lia. Qed.

Lemma lookup_cons_dec (x : A) l (i : nat) : (x :: l) !! i = if decide (i = 0)%nat then Some x else l !! (i - 1)%nat.
Proof. destruct i; cbn; [done|]. by rewrite Nat.sub_0_r. Qed.

Lemma shift_up_insert (i s : nat) (x : A) l :
  (i ≤ s < length l)%nat →
  ∃ l1, shift_up (s - i) s l = Ret l1 ∧
  ∃ l2, arr_set i x l1 = Ret l2 ∧ length l2 = length l ∧ take (S s) l2 = take i l ++ x :: drop i (take s l).
Proof.
  intros His. destruct (shift_up_spec (s - i) s l) as (l1 & -> & Hlen & Hl1); [lia..|].
  exists l1. split; [done|]. exists (<[i:=x]> l1). rewrite arr_set_nat by lia.
  rewrite length_insert. split_and!; [done|done|].
  apply list_eq. intros j. rewrite lookup_app_dec, lookup_cons_dec, !lookup_take, lookup_drop, lookup_take, length_take, list_lookup_insert, Hl1.
  repeat (case_decide; try lia; try done); try (by f_equal; lia).
Qed.

Lemma shift_down_remove (i s : nat) l :
  (i < s ≤ length l)%nat →
  ∃ l1, shift_down (s - 1 - i) i l = Ret l1 ∧ length l1 = length l ∧
    take (s - 1) l1 = take i l ++ drop (S i) (take s l).
Proof.
  intros His. destruct (shift_down_spec (s - 1 - i) i l) as (l1 & -> & Hlen & Hl1); [lia..|].
  exists l1. split_and!; [done|done|].
  apply list_eq. intros j. rewrite lookup_app_dec, !lookup_take, lookup_drop, lookup_take, length_take, Hl1.
  repeat (case_decide; try lia; try done); try (by f_equal; lia).
Qed.

Lemma copy_cells_append n src (i j : nat) dst :
  (i + n ≤ length src)%nat → (j + n ≤ length dst)%nat →
  ∃ dst', copy_cells n src i dst j = Ret dst' ∧ length dst' = length dst ∧
    take (j + n) dst' = take j dst ++ take n (drop i src).
Proof.
  intros Hi Hj. destruct (copy_cells_spec n src i j dst) as (l1 & -> & Hlen & Hl1); [lia..|].
  exists l1. split_and!; [done|done|].
  apply list_eq. intros x. rewrite lookup_app_dec, !lookup_take, lookup_drop, length_take, Hl1.
  repeat (case_decide; try lia; try done); try (by f_equal; lia).
Qed.
End arrays.

(** ** Headers *)
Inductive IndexPageType : Set := INVALID_INDEX_PAGE | LEAF_PAGE | INTERNAL_PAGE.

#[export] Instance IndexPageType_eq_dec : EqDecision IndexPageType.
Proof. solve_decision. Defined.

(** A page with cells of keys and values; [next_page_id_] is used by leaves only. *)
Record TreePage (V : Type) := mkTreePage {
  page_type_ : IndexPageType;
  size_ : Z;
  max_size_ : Z;
  parent_page_id_ : Z;
  next_page_id_ : Z;
  array_ : list (Z * V);
}.
Arguments mkTreePage {V}.
Arguments page_type_ {V}.
Arguments size_ {V}.
Arguments max_size_ {V}.
Arguments parent_page_id_ {V}.
Arguments next_page_id_ {V}.
Arguments array_ {V}.

Section pages.
Context {V : Type}.
Abbreviation page := (TreePage V).

Definition IsLeafPage (p : page) : bool := bool_decide (page_type_ p = LEAF_PAGE).
Definition IsRootPage (p : page) : bool := bool_decide (parent_page_id_ p = INVALID_PAGE_ID).
Definition SetSize (n : Z) (p : page) : page :=
  mkTreePage (page_type_ p) n (max_size_ p) (parent_page_id_ p) (next_page_id_ p) (array_ p).
Definition IncreaseSize (amount : Z) (p : page) : page := SetSize (size_ p + amount) p.
Definition SetParentPageId (id : Z) (p : page) : page :=
  mkTreePage (page_type_ p) (size_ p) (max_size_ p) id (next_page_id_ p) (array_ p).
Definition SetNextPageId (id : Z) (p : page) : page :=
  mkTreePage (page_type_ p) (size_ p) (max_size_ p) (parent_page_id_ p) id (array_ p).
Definition set_array (l : list (Z * V)) (p : page) : page :=
  mkTreePage (page_type_ p) (size_ p) (max_size_ p) (parent_page_id_ p) (next_page_id_ p) l.
Definition GetMinSize (p : page) : Z :=
  if IsLeafPage p then Z.quot (max_size_ p) 2 else Z.quot (max_size_ p + 1) 2.

Definition init_page (type : IndexPageType) (max_size : Z) (p : page) : page :=
  mkTreePage type 0 max_size INVALID_PAGE_ID (next_page_id_ p) (array_ p).

(** [KeyAt], [ValueAt] and their setters. *)
Definition KeyAt (index : Z) (p : page) : outcome Z := c ← arr_get index (array_ p); mret c.1.
Definition ValueAt (index : Z) (p : page) : outcome V := c ← arr_get index (array_ p); mret c.2.
Definition SetKeyAt (index key : Z) (p : page) : outcome page :=
  c ← arr_get index (array_ p); l ← arr_set index (key, c.2) (array_ p); mret (set_array l p).
Definition SetValueAt (index : Z) (value : V) (p : page) : outcome page :=
  c ← arr_get index (array_ p); l ← arr_set index (c.1, value) (array_ p); mret (set_array l p).

(** The used cells. *)
Definition cells (p : page) : list (Z * V) := take (Z.to_nat (size_ p)) (array_ p).
End pages.

(** ** Leaf pages *)
Section leaf.
Context {V : Type}.
Abbreviation page := (TreePage V).

Definition Leaf_Init (max_size : Z) (p : page) : page :=
  SetNextPageId INVALID_PAGE_ID (init_page LEAF_PAGE max_size p).

(** The binary search; each round halves [high - low]. *)
Fixpoint key_index_loop (fuel : nat) (low high key : Z) (l : list (Z * V)) : outcome Z :=
  match fuel with
  | O => OutOfFuel
  | S fuel' =>
    if bool_decide (low < high) then
      let mid := low + Z.quot (high - low) 2 in
      c ← arr_get mid l;
      if bool_decide (c.1 < key) then key_index_loop fuel' (mid + 1) high key l
      else key_index_loop fuel' low mid key l
    else mret low
  end.
Definition KeyIndex (key : Z) (p : page) : outcome Z :=
  key_index_loop (S (Z.to_nat (size_ p))) 0 (size_ p) key (array_ p).

(** [idx < GetSize() && !comparator(key, array_[idx].first) && !comparator(array_[idx].first, key)] *)
Definition key_found (idx key : Z) (p : page) : outcome bool :=
  if bool_decide (idx < size_ p) then
    c ← arr_get idx (array_ p); mret (negb (bool_decide (key < c.1)) && negb (bool_decide (c.1 < key)))
  else mret false.

Definition Leaf_Lookup (key : Z) (p : page) : outcome (option V) :=
  idx ← KeyIndex key p;
  found ← key_found idx key p;
  if found : bool then c ← arr_get idx (array_ p); mret (Some c.2) else mret None.

Definition Leaf_Insert (key : Z) (value : V) (p : page) : outcome (Z * page) :=
  idx ← KeyIndex key p;
  found ← key_found idx key p;
  if found : bool then mret (size_ p, p)
  else
    l ← shift_up (Z.to_nat (size_ p - idx)) (size_ p) (array_ p);
    l ← arr_set idx (key, value) l;
    let p := IncreaseSize 1 (set_array l p) in
    mret (size_ p, p).

Definition Leaf_RemoveAndDeleteRecord (key : Z) (p : page) : outcome (Z * page) :=
  idx ← KeyIndex key p;
  found ← key_found idx key p;
  if negb found then mret (size_ p, p)
  else
    l ← shift_down (Z.to_nat (size_ p - 1 - idx)) idx (array_ p);
    let p := IncreaseSize (-1) (set_array l p) in
    mret (size_ p, p).

(** The moves return the page and the recipient. *)
Definition Leaf_MoveHalfTo (p recipient : page) : outcome (page * page) :=
  let split_idx := Z.quot (size_ p) 2 in
  let move_count := size_ p - split_idx in
  l ← copy_cells (Z.to_nat move_count) (array_ p) split_idx (array_ recipient) 0;
  mret (SetSize split_idx p, SetSize move_count (set_array l recipient)).

Definition Leaf_MoveAllTo (p recipient : page) : outcome (page * page) :=
  l ← copy_cells (Z.to_nat (size_ p)) (array_ p) 0 (array_ recipient) (size_ recipient);
  mret (SetSize 0 p, IncreaseSize (size_ p) (set_array l recipient)).

Definition Leaf_MoveFirstToEndOf (p recipient : page) : outcome (page * page) :=
  first ← arr_get 0 (array_ p);
  l ← arr_set (size_ recipient) first (array_ recipient);
  l' ← shift_down (Z.to_nat (size_ p - 1)) 0 (array_ p);
  mret (IncreaseSize (-1) (set_array l' p), IncreaseSize 1 (set_array l recipient)).

Definition Leaf_MoveLastToFrontOf (p recipient : page) : outcome (page * page) :=
  l ← shift_up (Z.to_nat (size_ recipient)) (size_ recipient) (array_ recipient);
  last ← arr_get (size_ p - 1) (array_ p);
  l ← arr_set 0 last l;
  mret (IncreaseSize (-1) p, IncreaseSize 1 (set_array l recipient)).
End leaf.

(** ** Internal pages

    The value of cell [i] is the child whose keys are at least the key of cell
    [i]; the key of cell 0 is not used. *)
Section internal.
Abbreviation page := (TreePage Z).

Definition Internal_Init (max_size : Z) (p : page) : page := init_page INTERNAL_PAGE max_size p.

Fixpoint value_index_loop (n : nat) (i value : Z) (l : list (Z * Z)) : outcome Z :=
  match n with
  | O => mret (-1)
  | S n' => c ← arr_get i l; if bool_decide (c.2 = value) then mret i else value_index_loop n' (i + 1) value l
  end.
Definition ValueIndex (value : Z) (p : page) : outcome Z := value_index_loop (Z.to_nat (size_ p)) 0 value (array_ p).

Fixpoint lookup_loop (n : nat) (i key result : Z) (l : list (Z * Z)) : outcome Z :=
  match n with
  | O => mret result
  | S n' =>
    c ← arr_get i l;
    if bool_decide (key < c.1) then mret result else lookup_loop n' (i + 1) key c.2 l
  end.
Definition Internal_Lookup (key : Z) (p : page) : outcome Z :=
  c ← arr_get 0 (array_ p); lookup_loop (Z.to_nat (size_ p - 1)) 1 key c.2 (array_ p).

Definition PopulateNewRoot (old_value key new_value : Z) (p : page) : outcome page :=
  p ← SetValueAt 0 old_value p;
  l ← arr_set 1 (key, new_value) (array_ p);
  mret (SetSize 2 (set_array l p)).

Definition InsertNodeAfter (old_value key new_value : Z) (p : page) : outcome (Z * page) :=
  idx ← ValueIndex old_value p;
  l ← shift_up (Z.to_nat (size_ p - (idx + 1))) (size_ p) (array_ p);
  l ← arr_set (idx + 1) (key, new_value) l;
  let p := IncreaseSize 1 (set_array l p) in
  mret (size_ p, p).

Definition Internal_Remove (index : Z) (p : page) : outcome page :=
  l ← shift_down (Z.to_nat (size_ p - 1 - index)) index (array_ p);
  mret (IncreaseSize (-1) (set_array l p)).

Definition RemoveAndReturnOnlyChild (p : page) : outcome (Z * page) :=
  child ← ValueAt 0 p; mret (child, SetSize 0 p).

Definition Internal_MoveAllTo (p recipient : page) (middle_key : Z) : outcome (page * page) :=
  p ← SetKeyAt 0 middle_key p;
  l ← copy_cells (Z.to_nat (size_ p)) (array_ p) 0 (array_ recipient) (size_ recipient);
  mret (SetSize 0 p, IncreaseSize (size_ p) (set_array l recipient)).

Definition Internal_MoveHalfTo (p recipient : page) (middle_key : Z) : outcome (page * page) :=
  let split_idx := Z.quot (size_ p) 2 in
  let move_count := size_ p - split_idx - 1 in
  c ← arr_get split_idx (array_ p);
  recipient ← SetValueAt 0 c.2 recipient;
  l ← copy_cells (Z.to_nat move_count) (array_ p) (split_idx + 1) (array_ recipient) 1;
  mret (SetSize split_idx p, SetSize (move_count + 1) (set_array l recipient)).

Definition Internal_MoveFirstToEndOf (p recipient : page) (middle_key : Z) : outcome (page * page) :=
  c ← arr_get 0 (array_ p);
  l ← arr_set (size_ recipient) (middle_key, c.2) (array_ recipient);
  l' ← shift_down (Z.to_nat (size_ p - 1)) 0 (array_ p);
  mret (IncreaseSize (-1) (set_array l' p), IncreaseSize 1 (set_array l recipient)).

(** Cell 0 of the recipient gets the last child; the key left in it is the one
    that was there. *)
Definition Internal_MoveLastToFrontOf (p recipient : page) (middle_key : Z) : outcome (page * page) :=
  l ← shift_up (Z.to_nat (size_ recipient)) (size_ recipient) (array_ recipient);
  c ← arr_get (size_ p - 1) (array_ p);
  recipient ← SetValueAt 0 c.2 (set_array l recipient);
  recipient ← SetKeyAt 1 middle_key recipient;
  mret (IncreaseSize (-1) p, IncreaseSize 1 recipient).
End internal.

(** ** Leaf pages as sorted finite maps *)
Definition page_ok {V} (p : TreePage V) : Prop := 0 ≤ size_ p ≤ length (array_ p).

(** The keys of the used cells increase strictly. *)
Definition leaf_ok {V} (p : TreePage V) : Prop := page_ok p ∧ StronglySorted Z.lt (cells p).*1.

(** The map that a leaf stands for. *)
Definition leaf_map {V} (p : TreePage V) : gmap Z V := list_to_map (cells p).

(** What only [Init] and the tree itself change. *)
Definition same_header {V} (p p' : TreePage V) : Prop :=
  page_type_ p' = page_type_ p ∧ max_size_ p' = max_size_ p ∧ parent_page_id_ p' = parent_page_id_ p ∧
  next_page_id_ p' = next_page_id_ p ∧ length (array_ p') = length (array_ p).

Lemma StronglySorted_app_inv {A} (R : A → A → Prop) l1 l2 :
  StronglySorted R (l1 ++ l2) → StronglySorted R l1 ∧ StronglySorted R l2 ∧ ∀ x y, x ∈ l1 → y ∈ l2 → R x y.
Proof.
  induction l1 as [|a l1 IH]; cbn; intros H.
  - split_and!; [constructor|done|]. intros x y Hx. by apply elem_of_nil in Hx.
  - apply StronglySorted_inv in H as [H Ha]. destruct (IH H) as (H1 & H2 & H12).
    rewrite Forall_app, !Forall_forall in Ha. destruct Ha as [Ha1 Ha2].
    split_and!; [constructor; [done|by apply Forall_forall]|done|].
    intros x y [->|Hx]%elem_of_cons Hy; [by apply Ha2|by apply H12].
Qed.

Lemma StronglySorted_app_intro {A} (R : A → A → Prop) l1 l2 :
  StronglySorted R l1 → StronglySorted R l2 → (∀ x y, x ∈ l1 → y ∈ l2 → R x y) → StronglySorted R (l1 ++ l2).
Proof.
  induction l1 as [|a l1 IH]; cbn; intros H1 H2 H12; [done|].
  apply StronglySorted_inv in H1 as [H1 Ha]. constructor.
  - apply IH; [done..|]. intros x y Hx. apply H12. by right.
  - apply Forall_app. split; [done|]. apply Forall_forall. intros y. apply H12. by left.
Qed.

Lemma StronglySorted_lookup {A} (R : A → A → Prop) l i j x y :
  StronglySorted R l → l !! i = Some x → l !! j = Some y → (i < j)%nat → R x y.
Proof.
  intros H Hx Hy Hij. rewrite <-(take_drop j l) in H.
  apply StronglySorted_app_inv in H as (_ & _ & H). apply H.
  - apply elem_of_take. by exists i.
  - apply list_elem_of_lookup. exists 0%nat. by rewrite lookup_drop, Nat.add_0_r.
Qed.

Section leaf_facts.
Context {V : Type}.
Implicit Types p : TreePage V.

Lemma length_cells p : page_ok p → length (cells p) = Z.to_nat (size_ p).
Proof. unfold page_ok, cells. intros. rewrite length_take. lia. Qed.

Lemma lookup_cells p (i : nat) : i < size_ p → cells p !! i = array_ p !! i.
Proof. unfold cells. intros. apply lookup_take_lt. lia. Qed.

Lemma sorted_lookup p (i j : nat) c d :
  StronglySorted Z.lt (cells p).*1 → cells p !! i = Some c → cells p !! j = Some d → (i < j)%nat → c.1 < d.1.
Proof.
  intros Hs Hc Hd Hij. apply (StronglySorted_lookup _ _ i j _ _ Hs); [..|done]; rewrite list_lookup_fmap.
  - by rewrite Hc.
  - by rewrite Hd.
Qed.

(** The binary search: keys below [low] are smaller, keys from [high] on are not. *)
Lemma key_index_loop_spec key p fuel : ∀ low high : nat,
  leaf_ok p → (low ≤ high)%nat → high ≤ size_ p → (high - low < fuel)%nat →
  (∀ i c, (i < low)%nat → cells p !! i = Some c → c.1 < key) →
  (∀ i c, (high ≤ i)%nat → cells p !! i = Some c → key ≤ c.1) →
  ∃ i : nat, key_index_loop fuel low high key (array_ p) = Ret (Z.of_nat i) ∧ i ≤ size_ p ∧
    (∀ j c, (j < i)%nat → cells p !! j = Some c → c.1 < key) ∧
    (∀ j c, (i ≤ j)%nat → cells p !! j = Some c → key ≤ c.1).
Proof.
  induction fuel as [|fuel IH]; intros low high Hok Hlh Hh Hf Hlow Hhigh; [lia|]. cbn [key_index_loop].
  case_bool_decide as Hlt.
  2:{ exists low. assert (low = high) as -> by lia. split_and!; [done|lia|done|done]. }
  remember (low + (high - low) / 2)%nat as mid eqn:Hmid.
  assert (low ≤ mid < high)%nat as Hm.
  { subst mid. pose proof (Nat.Div0.div_lt_upper_bound (high - low) 2 (high - low)). lia. }
  replace (low + Z.quot (high - low) 2) with (Z.of_nat mid).
  2:{ rewrite Z.quot_div_nonneg by lia. subst mid. rewrite Nat2Z.inj_add, Nat2Z.inj_div, Nat2Z.inj_sub by lia. done. }
  destruct Hok as [Hp Hs]. unfold page_ok in Hp.
  destruct (lookup_lt_is_Some_2 (array_ p) mid) as [c Hc]; [lia|].
  rewrite (arr_get_nat _ c) by done. cbn [mbind outcome_bind].
  assert (cells p !! mid = Some c) as Hc' by (rewrite lookup_cells by lia; done).
  case_bool_decide as Hck.
  - replace (mid + 1) with (Z.of_nat (S mid)) by lia. apply IH; [done|lia..| |done].
    intros i d Hi Hd. destruct (decide (i = mid)) as [->|]; [congruence|].
    pose proof (sorted_lookup p i mid d c Hs Hd Hc'). lia.
  - apply IH; [done|lia|lia|lia|done|].
    intros i d Hi Hd. destruct (decide (i = mid)) as [->|]; [simplify_eq; lia|].
    pose proof (sorted_lookup p mid i c d Hs Hc' Hd). lia.
Qed.

(** The search of every leaf operation: the cells before the index have smaller
    keys, the others are not smaller, and [key_found] tells which case it is. *)
Lemma leaf_search key p :
  leaf_ok p → ∃ l1 l2, cells p = l1 ++ l2 ∧ KeyIndex key p = Ret (Z.of_nat (length l1)) ∧
    Forall (fun c => c.1 < key) l1 ∧
    ((key_found (length l1) key p = Ret false ∧ Forall (fun c => key < c.1) l2) ∨
     ∃ v l3, key_found (length l1) key p = Ret true ∧ l2 = (key, v) :: l3 ∧
       array_ p !! length l1 = Some (key, v) ∧ Forall (fun c => key < c.1) l3).
Proof.
  intros Hok. pose proof Hok as [Hp Hs]. unfold page_ok in Hp.
  destruct (key_index_loop_spec key p (S (Z.to_nat (size_ p))) 0 (Z.to_nat (size_ p))) as (i & Hi & Hle & Hlow & Hhigh);
    [done|lia|lia|lia|lia| |].
  { intros i c Hi Hc. apply lookup_lt_Some in Hc. rewrite length_cells in Hc by done. lia. }
  exists (take i (cells p)), (drop i (cells p)). rewrite take_drop.
  assert (length (take i (cells p)) = i) as -> by (rewrite length_take, length_cells by done; lia).
  split_and!; [done| | |].
  { unfold KeyIndex. rewrite <-Hi. f_equal; lia. }
  { apply Forall_forall. intros c (j & Hc & Hj)%elem_of_take. by apply (Hlow j). }
  assert (∀ c, c ∈ drop i (cells p) → key ≤ c.1) as Hge.
  { intros c (j & Hj)%list_elem_of_lookup. rewrite lookup_drop in Hj. apply (Hhigh (i + j)%nat); [lia|done]. }
  unfold key_found. case_bool_decide as Hlt.
  2:{ left. split; [done|]. rewrite drop_ge; [constructor|]. rewrite length_cells by done. lia. }
  destruct (lookup_lt_is_Some_2 (array_ p) i) as [[k v] Hc]; [lia|].
  rewrite (arr_get_nat _ (k, v)) by done. cbn.
  assert (cells p !! i = Some (k, v)) as Hc' by (rewrite lookup_cells by lia; done).
  rewrite (drop_S _ _ _ Hc') in Hge |- *.
  assert (∀ c, c ∈ drop (S i) (cells p) → k < c.1) as Hgt.
  { intros c (j & Hj)%list_elem_of_lookup. rewrite lookup_drop in Hj.
    apply (sorted_lookup p i (S i + j) (k, v) c Hs Hc' Hj). lia. }
  assert (key ≤ k) by (apply (Hge (k, v)); by left).
  rewrite (bool_decide_false (k < key)) by lia. case_bool_decide as Hk; cbn.
  - left. split; [done|]. constructor; [done|]. apply Forall_forall. intros c Hc''. pose proof (Hgt c Hc''). lia.
  - right. assert (k = key) as -> by lia. exists v, (drop (S i) (cells p)). split_and!; [done..|].
    by apply Forall_forall.
Qed.
End leaf_facts.

Section leaf_maps.
Context {V : Type}.
Implicit Types (p : TreePage V) (cs : list (Z * V)).
Abbreviation cell_map cs := (list_to_map cs : gmap Z V).

Lemma cell_map_absent key cs : Forall (fun c => c.1 ≠ key) cs → cell_map cs !! key = None.
Proof.
  intros H. apply not_elem_of_list_to_map_1. intros (c & -> & Hc)%list_elem_of_fmap.
  rewrite Forall_forall in H. by apply (H c).
Qed.

Lemma cell_map_middle key v cs1 cs2 :
  Forall (fun c => c.1 < key) cs1 → cell_map (cs1 ++ (key, v) :: cs2) = <[key := v]> (cell_map (cs1 ++ cs2)).
Proof.
  intros H. rewrite !list_to_map_app. cbn. symmetry. apply insert_union_r, cell_map_absent.
  eapply Forall_impl; [exact H|]. cbn. lia.
Qed.

Lemma cell_map_around key cs1 cs2 :
  Forall (fun c => c.1 < key) cs1 → Forall (fun c => key < c.1) cs2 → cell_map (cs1 ++ cs2) !! key = None.
Proof.
  intros H1 H2. apply cell_map_absent. apply Forall_app. split; (eapply Forall_impl; [eassumption|]; cbn; lia).
Qed.

Lemma sorted_around key v cs1 cs2 :
  StronglySorted Z.lt (cs1 ++ cs2).*1 →
  Forall (fun c => c.1 < key) cs1 → Forall (fun c => key < c.1) cs2 →
  StronglySorted Z.lt (cs1 ++ (key, v) :: cs2).*1.
Proof.
  rewrite !fmap_app. cbn. intros (H1 & H2 & H12)%StronglySorted_app_inv Hlt Hgt.
  assert (∀ x, x ∈ cs1.*1 → x < key) as Hlt'.
  { intros x (c & -> & Hc)%list_elem_of_fmap. rewrite Forall_forall in Hlt. by apply Hlt. }
  apply StronglySorted_app_intro; [done| |].
  - constructor; [done|]. apply Forall_fmap. eapply Forall_impl; [done|]. by intros [].
  - intros x y Hx [->|Hy]%elem_of_cons; [by apply Hlt'|by apply H12].
Qed.

Lemma sorted_without c cs1 cs2 :
  StronglySorted Z.lt (cs1 ++ c :: cs2).*1 → StronglySorted Z.lt (cs1 ++ cs2).*1.
Proof.
  rewrite !fmap_app. cbn. intros (H1 & H2 & H12)%StronglySorted_app_inv.
  apply StronglySorted_app_intro; [done| |].
  - by apply StronglySorted_inv in H2 as [? _].
  - intros x y Hx Hy. apply H12; [done|by right].
Qed.

Lemma cells_set_array n (l : list (Z * V)) p : cells (SetSize n (set_array l p)) = take (Z.to_nat n) l.
Proof. done. Qed.

(** A full page has no room for another cell. *)
Lemma Leaf_Insert_full key value p :
  leaf_ok p → size_ p = length (array_ p) → leaf_map p !! key = None → Leaf_Insert key value p = Undef.
Proof.
  intros Hok Hfull Habs. destruct (leaf_search key p Hok) as (l1 & l2 & Hcs & Hidx & Hlt & Hl2).
  destruct Hl2 as [[Hf Hgt]|(v & l3 & Hf & -> & Hc & Hgt)].
  2:{ unfold leaf_map in Habs. rewrite Hcs, cell_map_middle, lookup_insert_eq in Habs by done. done. }
  unfold Leaf_Insert. rewrite Hidx. cbn [mbind outcome_bind]. rewrite Hf. cbn [mbind outcome_bind].
  assert (length l1 ≤ length (array_ p))%nat as Hle.
  { transitivity (length (cells p)); [rewrite Hcs, length_app; lia|]. unfold cells. rewrite length_take. lia. }
  destruct (decide (length l1 = length (array_ p))) as [Heq|].
  - replace (size_ p - length l1) with 0 by lia. 
    change (Z.to_nat 0) with 0%nat. cbn [shift_up mbind outcome_bind]. unfold arr_set. rewrite bool_decide_false by lia. done.
  - rewrite Hfull, shift_up_out by lia. done.
Qed.
End leaf_maps.

Section leaf_specs.
Context {V : Type}.
Implicit Types p : TreePage V.

(** The cells that end up in the array are the used ones. *)
Lemma take_of_cells n p (l1 l2 : list (Z * V)) :
  cells p = l1 ++ l2 → n = length l1 → (n ≤ Z.to_nat (size_ p))%nat → take n (array_ p) = l1.
Proof.
  intros Hcs -> Hn. transitivity (take (length l1) (cells p)); [|by rewrite Hcs, take_app_length].
  unfold cells. rewrite take_take. f_equal. lia.
Qed.

Lemma Leaf_Lookup_spec key p : leaf_ok p → Leaf_Lookup key p = Ret (leaf_map p !! key).
Proof.
  intros Hok. destruct (leaf_search key p Hok) as (l1 & l2 & Hcs & Hidx & Hlt & Hl2).
  unfold Leaf_Lookup, leaf_map. rewrite Hidx, Hcs. cbn [mbind outcome_bind].
  destruct Hl2 as [[Hf Hgt]|(v & l3 & Hf & -> & Hc & Hgt)]; rewrite Hf; cbn [mbind outcome_bind].
  - by rewrite cell_map_around.
  - rewrite (arr_get_nat _ (key, v)) by done. by rewrite cell_map_middle, lookup_insert_eq.
Qed.

Lemma Leaf_Insert_present key value v p :
  leaf_ok p → leaf_map p !! key = Some v → Leaf_Insert key value p = Ret (size_ p, p).
Proof.
  intros Hok Hv. destruct (leaf_search key p Hok) as (l1 & l2 & Hcs & Hidx & Hlt & Hl2).
  unfold Leaf_Insert. rewrite Hidx. cbn [mbind outcome_bind].
  destruct Hl2 as [[Hf Hgt]|(w & l3 & Hf & _)]; rewrite Hf; [|done].
  unfold leaf_map in Hv. rewrite Hcs, cell_map_around in Hv by done. done.
Qed.

Lemma Leaf_Insert_absent key value p :
  leaf_ok p → leaf_map p !! key = None → size_ p < length (array_ p) →
  ∃ p', Leaf_Insert key value p = Ret (size_ p + 1, p') ∧ leaf_ok p' ∧ same_header p p' ∧
    size_ p' = size_ p + 1 ∧ leaf_map p' = <[key := value]> (leaf_map p).
Proof.
  intros Hok Habs Hroom. destruct (leaf_search key p Hok) as (l1 & l2 & Hcs & Hidx & Hlt & Hl2).
  destruct Hok as [Hp Hs]. pose proof (length_cells p Hp) as Hlen. unfold page_ok in Hp.
  unfold leaf_map in Habs |- *. rewrite Hcs in Hs, Habs, Hlen |- *. rewrite length_app in Hlen.
  destruct Hl2 as [[Hf Hgt]|(v & l3 & _ & -> & _)].
  2:{ rewrite cell_map_middle, lookup_insert_eq in Habs by done. done. }
  unfold Leaf_Insert. rewrite Hidx. cbn [mbind outcome_bind]. rewrite Hf. cbn [mbind outcome_bind].
  destruct (shift_up_insert (length l1) (Z.to_nat (size_ p)) (key, value) (array_ p)) as (a1 & Ha1 & a2 & Ha2 & Hl & Hc2); [lia|].
  replace (Z.to_nat (size_ p - length l1)) with (Z.to_nat (size_ p) - length l1)%nat by lia.
  rewrite Z2Nat.id in Ha1 by lia. rewrite Ha1. cbn [mbind outcome_bind].
  rewrite Ha2. cbn [mbind outcome_bind]. eexists. split; [done|].
  assert (cells (IncreaseSize 1 (set_array a2 p)) = l1 ++ (key, value) :: l2) as Hcells.
  { unfold IncreaseSize. rewrite cells_set_array. cbn [size_ set_array].
    replace (Z.to_nat (size_ p + 1)) with (S (Z.to_nat (size_ p))) by lia. rewrite Hc2.
    change (take (Z.to_nat (size_ p)) (array_ p)) with (cells p).
    rewrite (take_of_cells _ p l1 l2) by (done || lia). by rewrite Hcs, drop_app_length. }
  rewrite Hcells. split_and!; [split; [unfold page_ok; cbn; lia|rewrite Hcells; by apply sorted_around]|done|done|].
  by apply cell_map_middle.
Qed.

Lemma Leaf_Remove_spec key p :
  leaf_ok p → ∃ p', Leaf_RemoveAndDeleteRecord key p = Ret (size_ p', p') ∧ leaf_ok p' ∧ same_header p p' ∧
    size_ p' = match leaf_map p !! key with Some _ => size_ p - 1 | None => size_ p end ∧ leaf_map p' = delete key (leaf_map p).
Proof.
  intros Hok. destruct (leaf_search key p Hok) as (l1 & l2 & Hcs & Hidx & Hlt & Hl2).
  pose proof Hok as [Hp Hs]. pose proof (length_cells p Hp) as Hlen. unfold page_ok in Hp.
  rewrite Hcs in Hs, Hlen. rewrite length_app in Hlen.
  unfold Leaf_RemoveAndDeleteRecord. rewrite Hidx. cbn [mbind outcome_bind].
  destruct Hl2 as [[Hf Hgt]|(v & l3 & Hf & -> & Hc & Hgt)]; rewrite Hf; cbn [mbind outcome_bind negb].
  { assert (leaf_map p !! key = None) as Habs by (unfold leaf_map; rewrite Hcs; by apply cell_map_around).
    rewrite Habs. exists p. split_and!; [done..|]. symmetry. by apply delete_id. }
  cbn [length] in Hlen.
  destruct (shift_down_remove (length l1) (Z.to_nat (size_ p)) (array_ p)) as (a1 & Ha1 & Hl & Hc2); [lia|].
  replace (Z.to_nat (size_ p - 1 - length l1)) with (Z.to_nat (size_ p) - 1 - length l1)%nat by lia.
  rewrite Ha1. cbn [mbind outcome_bind]. eexists. split; [done|].
  assert (cells (IncreaseSize (-1) (set_array a1 p)) = l1 ++ l3) as Hcells.
  { unfold IncreaseSize. rewrite cells_set_array. cbn [size_ set_array].
    replace (Z.to_nat (size_ p + -1)) with (Z.to_nat (size_ p) - 1)%nat by lia. rewrite Hc2.
    change (take (Z.to_nat (size_ p)) (array_ p)) with (cells p).
    rewrite (take_of_cells _ p l1 ((key, v) :: l3)) by (done || lia).
    rewrite Hcs. f_equal. rewrite (cons_middle _ l1 l3), app_assoc. apply drop_app_length'. rewrite length_app. cbn. lia. }
  unfold leaf_map. rewrite Hcells, Hcs, cell_map_middle, lookup_insert_eq by done.
  split_and!; [split; [unfold page_ok; cbn; lia|rewrite Hcells; by eapply sorted_without]|done|done|].
  symmetry. apply delete_insert_id. by apply cell_map_around.
Qed.
End leaf_specs.

(** C37: A leaf page implements a finite map: [Lookup] finds the value of a key;
    [Insert] changes nothing when the key is there, and otherwise adds it and
    returns the new size, as long as there is room for a cell; and
    [RemoveAndDeleteRecord] removes the key.  The cells stay strictly sorted. *)
Theorem leaf_implements_map {V} (p : TreePage V) (key : Z) (value : V) :
  leaf_ok p →
  Leaf_Lookup key p = Ret (leaf_map p !! key) ∧
  (∀ v, leaf_map p !! key = Some v → Leaf_Insert key value p = Ret (size_ p, p)) ∧
  (leaf_map p !! key = None → size_ p < length (array_ p) →
    ∃ p', Leaf_Insert key value p = Ret (size_ p + 1, p') ∧ leaf_ok p' ∧ same_header p p' ∧
      size_ p' = size_ p + 1 ∧ leaf_map p' = <[key := value]> (leaf_map p)) ∧
  ∃ p', Leaf_RemoveAndDeleteRecord key p = Ret (size_ p', p') ∧ leaf_ok p' ∧ same_header p p' ∧
    size_ p' = match leaf_map p !! key with Some _ => size_ p - 1 | None => size_ p end ∧ leaf_map p' = delete key (leaf_map p).
Proof.
  intros Hok. split_and!.
  - by apply Leaf_Lookup_spec.
  - intros v. by apply Leaf_Insert_present.
  - by apply Leaf_Insert_absent.
  - by apply Leaf_Remove_spec.
Qed.

(** ** Moves *)
Section moves.
Context {V : Type}.
Implicit Types p q : TreePage V.

Lemma take_cells n p : (n ≤ Z.to_nat (size_ p))%nat → take n (array_ p) = take n (cells p).
Proof. intros. unfold cells. rewrite take_take. f_equal. lia. Qed.

(** Copying the cells from [i] on behind the cells of the recipient. *)
Lemma copy_behind (i : nat) p q :
  page_ok p → page_ok q → (i ≤ Z.to_nat (size_ p))%nat → size_ q + (size_ p - i) ≤ length (array_ q) →
  ∃ l, copy_cells (Z.to_nat (size_ p) - i) (array_ p) i (array_ q) (size_ q) = Ret l ∧ length l = length (array_ q) ∧
    take (Z.to_nat (size_ q + (size_ p - i))) l = cells q ++ drop i (cells p).
Proof.
  unfold page_ok. intros Hp Hq Hi Hroom.
  destruct (copy_cells_append (Z.to_nat (size_ p) - i) (array_ p) i (Z.to_nat (size_ q)) (array_ q)) as (l & Hl & Hlen & Ht); [lia..|].
  rewrite Z2Nat.id in Hl by lia. exists l. split_and!; [done|done|].
  replace (Z.to_nat (size_ q + (size_ p - i))) with (Z.to_nat (size_ q) + (Z.to_nat (size_ p) - i))%nat by lia.
  rewrite Ht. f_equal. unfold cells. rewrite take_drop_commute. do 2 f_equal. lia.
Qed.

(** The first cell goes, the others move up. *)
Lemma shift_out_first p :
  page_ok p → 0 < size_ p →
  ∃ c l, arr_get 0 (array_ p) = Ret c ∧ shift_down (Z.to_nat (size_ p - 1)) 0 (array_ p) = Ret l ∧
    length l = length (array_ p) ∧ cells p = c :: take (Z.to_nat (size_ p - 1)) l.
Proof.
  unfold page_ok. intros Hp Hpos.
  destruct (shift_down_remove 0 (Z.to_nat (size_ p)) (array_ p)) as (l & Hl & Hlen & Ht); [lia|].
  destruct (lookup_lt_is_Some_2 (array_ p) 0) as [c Hc]; [lia|].
  exists c, l. rewrite (arr_get_nat 0 c) by done.
  replace (Z.to_nat (size_ p - 1)) with (Z.to_nat (size_ p) - 1 - 0)%nat by lia.
  split_and!; [done|done|done|].
  replace (Z.to_nat (size_ p) - 1 - 0)%nat with (Z.to_nat (size_ p) - 1)%nat by lia.
  rewrite Ht. change (take (Z.to_nat (size_ p)) (array_ p)) with (cells p). cbn.
  assert (cells p !! 0%nat = Some c) as Hc' by (rewrite lookup_cells by lia; done).
  destruct (cells p); cbn in *; [done|]. by simplify_eq.
Qed.

(** All cells move down by one, and the first is written. *)
Lemma shift_in_first p c :
  page_ok p → size_ p < length (array_ p) →
  ∃ l l', shift_up (Z.to_nat (size_ p)) (size_ p) (array_ p) = Ret l ∧ arr_set 0 c l = Ret l' ∧ length l' = length (array_ p) ∧
    take (Z.to_nat (size_ p + 1)) l' = c :: cells p.
Proof.
  unfold page_ok. intros Hp Hroom.
  destruct (shift_up_insert 0 (Z.to_nat (size_ p)) c (array_ p)) as (l & Hl & l' & Hl' & Hlen & Ht); [lia|].
  rewrite Nat.sub_0_r, Z2Nat.id in Hl by lia. exists l, l'. split_and!; [done|done|done|].
  by replace (Z.to_nat (size_ p + 1)) with (S (Z.to_nat (size_ p))) by lia.
Qed.

(** One more cell behind the used ones. *)
Lemma append_cell p c :
  page_ok p → size_ p < length (array_ p) →
  ∃ l, arr_set (size_ p) c (array_ p) = Ret l ∧ length l = length (array_ p) ∧
    take (Z.to_nat (size_ p + 1)) l = cells p ++ [c].
Proof.
  unfold page_ok. intros Hp Hroom. exists (<[Z.to_nat (size_ p) := c]> (array_ p)).
  unfold arr_set. rewrite bool_decide_true, length_insert by lia. split_and!; [done|done|].
  replace (Z.to_nat (size_ p + 1)) with (S (Z.to_nat (size_ p))) by lia.
  rewrite (take_S_r _ _ c) by (apply list_lookup_insert_eq; lia). by rewrite take_insert_ge by lia.
Qed.

(** The last cell goes with the size. *)
Lemma drop_last_cell p :
  page_ok p → 0 < size_ p →
  ∃ c, arr_get (size_ p - 1) (array_ p) = Ret c ∧ cells p = cells (IncreaseSize (-1) p) ++ [c].
Proof.
  unfold page_ok. intros Hp Hpos.
  destruct (lookup_lt_is_Some_2 (array_ p) (Z.to_nat (size_ p) - 1)) as [c Hc]; [lia|].
  exists c. replace (size_ p - 1) with (Z.of_nat (Z.to_nat (size_ p) - 1)) by lia.
  rewrite (arr_get_nat _ c) by done. split; [done|].
  unfold cells. cbn. replace (Z.to_nat (size_ p)) with (S (Z.to_nat (size_ p) - 1)) at 1 by lia.
  rewrite (take_S_r _ _ c) by done. do 2 f_equal. lia.
Qed.

Lemma Leaf_MoveHalfTo_spec p q :
  page_ok p → page_ok q → size_ q = 0 → size_ p ≤ length (array_ q) →
  ∃ p' q', Leaf_MoveHalfTo p q = Ret (p', q') ∧ page_ok p' ∧ page_ok q' ∧ same_header p p' ∧ same_header q q' ∧
    size_ p' = size_ p / 2 ∧ cells p' ++ cells q' = cells p.
Proof.
  intros Hp Hq Hq0 Hroom. pose proof Hp as Hp'. pose proof Hq as Hq'. unfold page_ok in Hp', Hq'.
  unfold Leaf_MoveHalfTo. rewrite Z.quot_div_nonneg by lia.
  remember (Z.to_nat (size_ p / 2)) as i eqn:Hi.
  assert (0 ≤ size_ p / 2 ≤ size_ p) by (split; [apply Z.div_pos; lia|apply Z.div_le_upper_bound; lia]).
  replace (size_ p / 2) with (Z.of_nat i) in * by lia.
  destruct (copy_behind i p q) as (l & Hl & Hlen & Ht); [done|done|lia|lia|].
  replace (Z.to_nat (size_ p - i)) with (Z.to_nat (size_ p) - i)%nat by lia. rewrite Hq0 in Hl. rewrite Hl. cbn [mbind outcome_bind].
  eexists _, _. split; [done|]. unfold page_ok. cbn. split_and!; [lia|lia|lia|lia|done|done|done|].
  rewrite cells_set_array. rewrite Hq0 in Ht. replace (0 + (size_ p - i)) with (size_ p - i) in Ht by lia. rewrite Ht.
  unfold cells at 1 2. cbn. rewrite Hq0. cbn. rewrite Nat2Z.id, take_cells by lia. apply take_drop.
Qed.

Lemma Leaf_MoveAllTo_spec p q :
  page_ok p → page_ok q → size_ q + size_ p ≤ length (array_ q) →
  ∃ p' q', Leaf_MoveAllTo p q = Ret (p', q') ∧ page_ok p' ∧ page_ok q' ∧ same_header p p' ∧ same_header q q' ∧
    size_ q' = size_ q + size_ p ∧ cells p' = [] ∧ cells q' = cells q ++ cells p.
Proof.
  intros Hp Hq Hroom. pose proof Hp as Hp'. pose proof Hq as Hq'. unfold page_ok in Hp', Hq'. unfold Leaf_MoveAllTo.
  destruct (copy_behind 0 p q) as (l & Hl & Hlen & Ht); [done|done|lia|lia|].
  rewrite Nat.sub_0_r in Hl. change (Z.of_nat 0) with 0 in Hl, Ht. rewrite Hl. cbn [mbind outcome_bind].
  eexists _, _. split; [done|]. unfold page_ok. cbn. split_and!; [lia|lia|lia|lia|done|done|done|done|].
  unfold IncreaseSize. rewrite cells_set_array. by rewrite Z.sub_0_r in Ht.
Qed.

Lemma Leaf_MoveFirstToEndOf_spec p q :
  page_ok p → page_ok q → 0 < size_ p → size_ q < length (array_ q) →
  ∃ c p' q', Leaf_MoveFirstToEndOf p q = Ret (p', q') ∧ page_ok p' ∧ page_ok q' ∧ same_header p p' ∧ same_header q q' ∧
    size_ p' = size_ p - 1 ∧ size_ q' = size_ q + 1 ∧ cells p = c :: cells p' ∧ cells q' = cells q ++ [c].
Proof.
  intros Hp Hq Hpos Hroom. pose proof Hp as Hp'. pose proof Hq as Hq'. unfold page_ok in Hp', Hq'. unfold Leaf_MoveFirstToEndOf.
  destruct (shift_out_first p) as (c & l & -> & Hs & Hl & Hc); [done..|]. cbn [mbind outcome_bind].
  destruct (append_cell q c) as (l' & -> & Hl' & Hc'); [done..|]. cbn [mbind outcome_bind]. rewrite Hs. cbn [mbind outcome_bind].
  eexists c, _, _. split; [done|]. unfold page_ok. cbn. split_and!; [lia|lia|lia|lia|done|done|lia|done|done|done].
Qed.

Lemma Leaf_MoveLastToFrontOf_spec p q :
  page_ok p → page_ok q → 0 < size_ p → size_ q < length (array_ q) →
  ∃ c p' q', Leaf_MoveLastToFrontOf p q = Ret (p', q') ∧ page_ok p' ∧ page_ok q' ∧ same_header p p' ∧ same_header q q' ∧
    size_ p' = size_ p - 1 ∧ size_ q' = size_ q + 1 ∧ cells p = cells p' ++ [c] ∧ cells q' = c :: cells q.
Proof.
  intros Hp Hq Hpos Hroom. pose proof Hp as Hp'. pose proof Hq as Hq'. unfold page_ok in Hp', Hq'. unfold Leaf_MoveLastToFrontOf.
  destruct (drop_last_cell p) as (c & Hg & Hc); [done..|].
  destruct (shift_in_first q c) as (l & l' & -> & Hl & Hlen & Ht); [done..|]. cbn [mbind outcome_bind].
  rewrite Hg. cbn [mbind outcome_bind]. rewrite Hl. cbn [mbind outcome_bind].
  eexists c, _, _. split; [done|]. unfold page_ok. cbn. split_and!; [lia|lia|lia|lia|done|done|lia|done|done|done].
Qed.
End moves.

(** C39: Splitting, merging and redistributing leaves move cells and lose none:
    [MoveHalfTo] leaves the first half and gives the rest to the (new)
    recipient, [MoveAllTo] appends all cells to it, [MoveFirstToEndOf] and
    [MoveLastToFrontOf] move one cell between neighbours. *)
Theorem leaf_moves {V} (p q : TreePage V) :
  page_ok p → page_ok q →
  (size_ q = 0 → size_ p ≤ length (array_ q) →
    ∃ p' q', Leaf_MoveHalfTo p q = Ret (p', q') ∧ page_ok p' ∧ page_ok q' ∧
      size_ p' = size_ p / 2 ∧ cells p' ++ cells q' = cells p) ∧
  (size_ q + size_ p ≤ length (array_ q) →
    ∃ p' q', Leaf_MoveAllTo p q = Ret (p', q') ∧ page_ok p' ∧ page_ok q' ∧
      cells p' = [] ∧ cells q' = cells q ++ cells p) ∧
  (0 < size_ p → size_ q < length (array_ q) →
    ∃ c p' q', Leaf_MoveFirstToEndOf p q = Ret (p', q') ∧ page_ok p' ∧ page_ok q' ∧
      cells p = c :: cells p' ∧ cells q' = cells q ++ [c]) ∧
  (0 < size_ p → size_ q < length (array_ q) →
    ∃ c p' q', Leaf_MoveLastToFrontOf p q = Ret (p', q') ∧ page_ok p' ∧ page_ok q' ∧
      cells p = cells p' ++ [c] ∧ cells q' = c :: cells q).
Proof.
  intros Hp Hq. split_and!.
  - intros Hq0 Hroom. destruct (Leaf_MoveHalfTo_spec p q) as (p' & q' & H & ? & ? & _ & _ & ? & ?); [done..|].
    by exists p', q'.
  - intros Hroom. destruct (Leaf_MoveAllTo_spec p q) as (p' & q' & H & ? & ? & _ & _ & _ & ? & ?); [done..|].
    by exists p', q'.
  - intros Hpos Hroom. destruct (Leaf_MoveFirstToEndOf_spec p q) as (c & p' & q' & H & ? & ? & _ & _ & _ & _ & ? & ?); [done..|].
    by exists c, p', q'.
  - intros Hpos Hroom. destruct (Leaf_MoveLastToFrontOf_spec p q) as (c & p' & q' & H & ? & ? & _ & _ & _ & _ & ? & ?); [done..|].
    by exists c, p', q'.
Qed.

(** The two halves of a leaf. *)
Lemma leaf_halves (p p1 p2 : TreePage RID) middle :
  leaf_ok p → page_ok p1 → page_ok p2 → cells p1 ++ cells p2 = cells p → 0 < size_ p1 → KeyAt 0 p2 = Ret middle → 0 < size_ p2 →
  leaf_ok p1 ∧ leaf_ok p2 ∧ (∀ k, leaf_map p !! k = leaf_map (if bool_decide (middle ≤ k) then p2 else p1) !! k) ∧
  (∀ k, is_Some (leaf_map p1 !! k) → k < middle) ∧ (∀ k, is_Some (leaf_map p2 !! k) → middle ≤ k) ∧
  is_Some (leaf_map p !! middle) ∧ ∃ k0, k0 < middle ∧ is_Some (leaf_map p !! k0).
Proof.
  intros [Hp Hs] Hp1 Hp2 Hcells Hs1 Hmid Hs2. rewrite <-Hcells, fmap_app in Hs. apply StronglySorted_app_inv in Hs as (Hst1 & Hst2 & Hst12).
  unfold leaf_map. rewrite <-Hcells, list_to_map_app.
  destruct (lookup_lt_is_Some_2 (cells p1) 0) as [[k1 v1] Hc1]; [rewrite length_cells by done; lia|].
  destruct (lookup_lt_is_Some_2 (cells p2) 0) as [[k2 v2] Hc2]; [rewrite length_cells by done; lia|].
  assert (k2 = middle) as ->.
  { rewrite lookup_cells in Hc2 by lia. unfold KeyAt in Hmid. rewrite (arr_get_nat 0 (k2, v2)) in Hmid by done. by injection Hmid. }
  assert (∀ (cs : list (Z * RID)) k, is_Some ((list_to_map cs : gmap Z RID) !! k) → k ∈ cs.*1) as Hin.
  { intros cs k [v Hv]. apply elem_of_list_to_map_2 in Hv. apply list_elem_of_fmap. by exists (k, v). }
  assert (∀ k, is_Some ((list_to_map (cells p1) : gmap Z RID) !! k) → k < middle) as Hlt.
  { intros k Hk%Hin. apply Hst12; [done|]. apply list_elem_of_fmap. exists (middle, v2). split; [done|]. by eapply list_elem_of_lookup_2. }
  assert (∀ k, is_Some ((list_to_map (cells p2) : gmap Z RID) !! k) → middle ≤ k) as Hge.
  { intros k Hk%Hin. destruct (cells p2) as [|c cs]; [done|]. cbn in Hc2, Hk, Hst2. simplify_eq.
    apply StronglySorted_inv in Hst2 as [_ Hst2]. rewrite Forall_forall in Hst2. apply elem_of_cons in Hk as [->|Hk]; [cbn; lia|].
    pose proof (Hst2 k Hk). cbn in *. lia. }
  split; [by split|]. split; [by split|]. split; [|split; [done|split; [done|split]]].
  - intros k. rewrite lookup_union. case_bool_decide as Hk.
    + destruct ((list_to_map (cells p1) : gmap Z RID) !! k) eqn:H1'; [|by rewrite option_union_left_id].
      pose proof (Hlt k (ex_intro _ _ H1')). lia.
    + destruct ((list_to_map (cells p2) : gmap Z RID) !! k) eqn:H2'; [|by rewrite option_union_right_id].
      pose proof (Hge k (ex_intro _ _ H2')). lia.
  - rewrite lookup_union_is_Some. right. destruct (cells p2) as [|c cs]; [done|]. cbn in Hc2. simplify_eq. cbn. rewrite lookup_insert_eq. by eexists.
  - exists k1. assert (is_Some ((list_to_map (cells p1) : gmap Z RID) !! k1)) as H1'.
    { destruct (cells p1) as [|c cs]; [done|]. cbn in Hc1. simplify_eq. cbn. rewrite lookup_insert_eq. by eexists. }
    split; [by apply Hlt|]. rewrite lookup_union_is_Some. by left.
Qed.

(** ** Routing through internal pages *)

(** The separators are the keys of all used cells but the first. *)
Definition separators (p : TreePage Z) : list Z := (tail (cells p)).*1.
Definition internal_ok (p : TreePage Z) : Prop :=
  page_ok p ∧ 0 < size_ p ∧ StronglySorted Z.lt (separators p).

Section routing.
Implicit Types (p q : TreePage Z) (cs : list (Z * Z)).

(** The child for a key, among a first child [v] and cells with separators. *)
Fixpoint route (key v : Z) cs : Z :=
  match cs with
  | [] => v
  | c :: cs' => if bool_decide (key < c.1) then v else route key c.2 cs'
  end.

Lemma internal_cells p : page_ok p → 0 < size_ p → ∃ c0 cs, cells p = c0 :: cs ∧ array_ p !! 0%nat = Some c0.
Proof.
  unfold page_ok. intros Hp Hpos. destruct (lookup_lt_is_Some_2 (array_ p) 0) as [c Hc]; [lia|].
  assert (cells p !! 0%nat = Some c) as Hc' by (rewrite lookup_cells by lia; done).
  destruct (cells p) as [|c0 cs]; cbn in *; [done|]. simplify_eq. by exists c, cs.
Qed.

Lemma lookup_loop_route key cs : ∀ (i : nat) r l rest,
  drop i l = cs ++ rest → lookup_loop (length cs) i key r l = Ret (route key r cs).
Proof.
  induction cs as [|c cs IH]; intros i r l rest Hd; cbn; [done|].
  assert (l !! i = Some c) as Hc.
  { rewrite <-(Nat.add_0_r i), <-lookup_drop, Hd. done. }
  rewrite (arr_get_nat _ c) by done. cbn [mbind outcome_bind]. case_bool_decide; [done|].
  replace (i + 1) with (Z.of_nat (S i)) by lia. apply (IH _ _ _ rest).
  rewrite (drop_S _ _ _ Hc) in Hd. by simplify_eq/=.
Qed.

Lemma Internal_Lookup_route key p c0 cs :
  page_ok p → cells p = c0 :: cs → Internal_Lookup key p = Ret (route key c0.2 cs).
Proof.
  intros Hp Hcs. pose proof (length_cells p Hp) as Hlen. rewrite Hcs in Hlen. cbn in Hlen.
  destruct (internal_cells p) as (c0' & cs' & Hcs' & H0); [done|lia|]. rewrite Hcs in Hcs'. symmetry in Hcs'. simplify_eq.
  unfold Internal_Lookup. rewrite (arr_get_nat 0 c0) by done. cbn [mbind outcome_bind].
  replace (Z.to_nat (size_ p - 1)) with (length cs) by lia.
  apply (lookup_loop_route key cs 1 _ _ (drop (Z.to_nat (size_ p)) (array_ p))).
  rewrite <-(take_drop (Z.to_nat (size_ p)) (array_ p)) at 1.
  change (take (Z.to_nat (size_ p)) (array_ p)) with (cells p). by rewrite Hcs.
Qed.

Lemma route_app key v cs1 m w cs2 :
  StronglySorted Z.lt (cs1 ++ (m, w) :: cs2).*1 →
  route key v (cs1 ++ (m, w) :: cs2) = if bool_decide (key < m) then route key v cs1 else route key w cs2.
Proof.
  revert v. induction cs1 as [|c cs1 IH]; intros v Hs; cbn; [by case_bool_decide|].
  cbn in Hs. apply StronglySorted_inv in Hs as [Hs Hc]. rewrite fmap_app, Forall_app in Hc. destruct Hc as [_ Hm].
  apply Forall_inv in Hm. cbn in Hm. rewrite IH by done.
  repeat case_bool_decide; try lia; done.
Qed.

(** Either the first child is taken, whatever it is, or one of the others. *)
Lemma route_cases key v cs :
  (∀ v', route key v' cs = v') ∨ (route key v cs ∈ cs.*2 ∧ ∀ v', route key v' cs = route key v cs).
Proof.
  destruct cs as [|c cs]; cbn; [by left|]. case_bool_decide; [by left|right].
  split; [|done]. clear H. revert c. induction cs as [|d cs IH]; intros c; cbn; [left|].
  case_bool_decide; [left|]. right. apply IH.
Qed.

(** Keys below all of the last separators stay in front of them. *)
Lemma route_app_below key v cs1 cs2 :
  Forall (fun c => key < c.1) cs2 → route key v (cs1 ++ cs2) = route key v cs1.
Proof.
  intros H. revert v. induction cs1 as [|c cs1 IH]; intros v; cbn; [|by rewrite IH].
  destruct cs2; cbn; [done|]. apply Forall_inv in H. by rewrite bool_decide_true.
Qed.

Lemma route_app_above key v cs1 cs2 :
  Forall (fun c => c.1 ≤ key) cs1 → route key v (cs1 ++ cs2) = route key (default v (last cs1.*2)) cs2.
Proof.
  revert v. induction cs1 as [|c cs1 IH]; intros v H; cbn; [done|].
  apply Forall_cons in H as [Hc H]. rewrite bool_decide_false by lia. rewrite IH by done.
  rewrite last_cons. by destruct (last _).
Qed.

Lemma route_split key v cs :
  StronglySorted Z.lt cs.*1 →
  ∃ cs1 cs2, cs = cs1 ++ cs2 ∧ Forall (fun c => c.1 ≤ key) cs1 ∧ Forall (fun c => key < c.1) cs2 ∧
    route key v cs = default v (last cs1.*2).
Proof.
  revert v. induction cs as [|c cs IH]; intros v Hs; cbn; [by exists [], []|].
  cbn in Hs. apply StronglySorted_inv in Hs as [Hs Hc]. case_bool_decide as Hk.
  - exists [], (c :: cs). split_and!; [done|done| |done]. constructor; [done|].
    rewrite Forall_forall in Hc. apply Forall_forall. intros d Hd.
    assert (c.1 < d.1); [|lia]. apply Hc, list_elem_of_fmap. by exists d.
  - destruct (IH c.2 Hs) as (cs1 & cs2 & -> & H1 & H2 & Hr). exists (c :: cs1), cs2.
    split_and!; [done|constructor; [lia|done]|done|]. rewrite Hr. cbn. rewrite last_cons. by destruct (last _).
Qed.

(** Where a key is routed to. *)
Lemma route_position key v cs :
  StronglySorted Z.lt cs.*1 → ∃ i c, ((0, v) :: cs) !! i = Some c ∧ route key v cs = c.2 ∧ (i = 0%nat ∨ c.1 ≤ key) ∧
    ∀ j d, (i < j)%nat → ((0, v) :: cs) !! j = Some d → key < d.1.
Proof.
  revert v. induction cs as [|c cs IH]; intros v Hs; cbn.
  { exists 0%nat, (0, v). split_and!; [done|done|by left|]. intros [|j] d Hj; cbn; [lia|done]. }
  cbn in Hs. apply StronglySorted_inv in Hs as [Hs Hc]. case_bool_decide as Hk.
  - exists 0%nat, (0, v). split_and!; [done|done|by left|]. intros [|[|j]] d Hj; cbn; [lia|intros; by simplify_eq|].
    intros Hd. rewrite Forall_forall in Hc. assert (c.1 < d.1); [|lia]. apply Hc, list_elem_of_fmap.
    exists d. split; [done|]. by eapply list_elem_of_lookup_2.
  - destruct (IH c.2 Hs) as (i & d & Hi & Hr & Hd & Hlater). destruct i as [|i]; cbn in Hi; simplify_eq.
    + exists 1%nat, c. split_and!; [done|done|right; lia|].
      intros [|[|j]] d Hj; cbn; [lia|lia|]. intros Hd'. apply (Hlater (S j)); [lia|done].
    + exists (S (S i)), d. split_and!; [done|done|right; destruct Hd; [lia|done]|].
      intros [|j] e Hj; cbn; [lia|]. destruct j as [|j]; [lia|]. intros He. apply (Hlater (S j)); [lia|done].
Qed.

(** Between two keys with the same child there are only keys with this child. *)
Lemma route_convex k1 k k2 v cs r :
  NoDup (v :: cs.*2) → k1 ≤ k → k ≤ k2 → route k1 v cs = r → route k2 v cs = r → route k v cs = r.
Proof.
  revert v. induction cs as [|c cs IH]; intros v Hnd H1 H2; cbn; [done|]. intros Hr1 Hr2.
  destruct (decide (k1 < c.1)) as [Hk1|Hk1].
  - rewrite bool_decide_true in Hr1 by done. subst r.
    destruct (decide (k < c.1)) as [Hk|Hk]; [by rewrite bool_decide_true|]. rewrite bool_decide_false in Hr2 by lia.
    apply NoDup_cons in Hnd as [Hn _]. destruct Hn. rewrite <-Hr2. cbn.
    destruct (route_cases k2 c.2 cs) as [Hany|[Hin _]]; [rewrite Hany; by left|by right].
  - rewrite bool_decide_false in Hr1 by lia. rewrite bool_decide_false in Hr2 by lia. rewrite bool_decide_false by lia. apply NoDup_cons in Hnd as [_ Hnd]. by apply IH.
Qed.
End routing.

(** Where [ValueIndex] finds a child that occurs once. *)
Lemma value_index_loop_spec (v k : Z) (cs1 : list (Z * Z)) : ∀ (i : nat) cs2 l rest,
  drop i l = (cs1 ++ (k, v) :: cs2) ++ rest → v ∉ cs1.*2 →
  value_index_loop (length (cs1 ++ (k, v) :: cs2)) i v l = Ret (Z.of_nat (i + length cs1)).
Proof.
  induction cs1 as [|c cs1 IH]; intros i cs2 l rest Hd Hv.
  - cbn. assert (l !! i = Some (k, v)) as Hc by (rewrite <-(Nat.add_0_r i), <-lookup_drop, Hd; done).
    rewrite (arr_get_nat _ (k, v)) by done. cbn. rewrite bool_decide_true by done. do 2 f_equal. lia.
  - cbn. assert (l !! i = Some c) as Hc by (rewrite <-(Nat.add_0_r i), <-lookup_drop, Hd; done).
    rewrite (arr_get_nat _ c) by done. cbn [mbind outcome_bind]. cbn in Hv. rewrite not_elem_of_cons in Hv.
    rewrite bool_decide_false by (intros Hcv; by destruct Hv).
    replace (i + 1) with (Z.of_nat (S i)) by lia. rewrite (IH _ _ _ rest); [do 2 f_equal; lia| |apply Hv].
    rewrite (drop_S _ _ _ Hc) in Hd. by simplify_eq/=.
Qed.

Lemma ValueIndex_spec p cs1 k v cs2 :
  page_ok p → cells p = cs1 ++ (k, v) :: cs2 → v ∉ cs1.*2 → ValueIndex v p = Ret (Z.of_nat (length cs1)).
Proof.
  intros Hp Hcs Hv. pose proof (length_cells p Hp) as Hlen. unfold ValueIndex. rewrite <-Hlen, Hcs.
  apply (value_index_loop_spec v k cs1 0 cs2 _ (drop (Z.to_nat (size_ p)) (array_ p))); [|done].
  rewrite <-(take_drop (Z.to_nat (size_ p)) (array_ p)) at 1.
  change (take (Z.to_nat (size_ p)) (array_ p)) with (cells p). by rewrite Hcs.
Qed.

(** A routed page with the cells [(k0, v0) :: cs]. *)
Definition has_cells (p : TreePage Z) (v0 : Z) (cs : list (Z * Z)) : Prop :=
  page_ok p ∧ StronglySorted Z.lt cs.*1 ∧ ∃ k0, cells p = (k0, v0) :: cs.

Lemma has_cells_intro p : internal_ok p → ∃ v0 cs, has_cells p v0 cs ∧ size_ p = 1 + length cs.
Proof.
  intros (Hp & Hpos & Hs). destruct (internal_cells p Hp Hpos) as ([k0 v0] & cs & Hcs & _).
  pose proof (length_cells p Hp) as Hlen. rewrite Hcs in Hlen. cbn in Hlen. unfold separators in Hs. rewrite Hcs in Hs.
  exists v0, cs. split; [|lia]. split_and!; [done|done|by exists k0].
Qed.

Lemma has_cells_ok p v0 cs : has_cells p v0 cs → internal_ok p ∧ size_ p = 1 + length cs.
Proof.
  intros (Hp & Hs & k0 & Hcs). pose proof (length_cells p Hp) as Hlen. rewrite Hcs in Hlen. cbn in Hlen.
  unfold page_ok in Hp. split; [|lia]. split_and!; [done|lia|]. unfold separators. by rewrite Hcs.
Qed.

Lemma has_cells_lookup p v0 cs key : has_cells p v0 cs → Internal_Lookup key p = Ret (route key v0 cs).
Proof. intros (Hp & _ & k0 & Hcs). by rewrite (Internal_Lookup_route key p (k0, v0) cs). Qed.

Lemma has_cells_separators p v0 cs : has_cells p v0 cs → separators p = cs.*1.
Proof. intros (_ & _ & k0 & Hcs). unfold separators. by rewrite Hcs. Qed.

(** An internal page routes every key to the child of the last used cell
    whose key is not greater, or to the first child when there is none. *)
Theorem internal_lookup_routes (p : TreePage Z) (key : Z) :
  internal_ok p →
  ∃ i c, cells p !! i = Some c ∧ Internal_Lookup key p = Ret c.2 ∧ (i = 0%nat ∨ c.1 ≤ key) ∧
    ∀ j d, (i < j)%nat → cells p !! j = Some d → key < d.1.
Proof.
  intros (v0 & cs & Hc & Hlen)%has_cells_intro. pose proof Hc as (Hp & Hs & k0 & Hcs).
  rewrite (has_cells_lookup p v0 cs) by done. rewrite Hcs.
  destruct (route_position key v0 cs Hs) as (i & c & Hi & Hr & Hk & Hlater).
  destruct i as [|i]; cbn in Hi; simplify_eq.
  - exists 0%nat, (k0, v0). split_and!; [done|by rewrite Hr|by left|].
    intros [|j] d Hj; cbn; [lia|]. intros Hd. apply (Hlater (S j)); [lia|done].
  - exists (S i), c. split_and!; [done|by rewrite Hr|destruct Hk; [lia|by right]|].
    intros [|j] d Hj; cbn; [lia|]. intros Hd. apply (Hlater (S j)); [lia|done].
Qed.

(** Splitting an internal page: the middle key, which goes to the parent,
    tells for every key which half routes it, and the half routes it to the child
    that the whole page did. *)
Lemma internal_split (p q : TreePage Z) (middle : Z) :
  internal_ok p → page_ok q → 2 ≤ size_ p → size_ p ≤ length (array_ q) →
  KeyAt (size_ p / 2) p = Ret middle →
  ∃ p' q', Internal_MoveHalfTo p q middle = Ret (p', q') ∧ internal_ok p' ∧ internal_ok q' ∧
    same_header p p' ∧ same_header q q' ∧ size_ p' = size_ p / 2 ∧ size_ p' + size_ q' = size_ p ∧
    separators p = separators p' ++ middle :: separators q' ∧ (cells p).*2 = (cells p').*2 ++ (cells q').*2 ∧
    ∀ key, Internal_Lookup key p = Internal_Lookup key (if bool_decide (key < middle) then p' else q').
Proof.
  intros (v0 & cs & Hc & Hlen)%has_cells_intro Hq Hsize Hroom Hm. pose proof Hc as (Hp & Hs & k0 & Hcs).
  pose proof Hp as Hp'. pose proof Hq as Hq'. unfold page_ok in Hp', Hq'.
  assert (1 ≤ size_ p / 2 < size_ p) as Hdiv.
  { split; [apply Z.div_le_lower_bound; lia|apply Z.div_lt_upper_bound; lia]. }
  remember (Z.to_nat (size_ p / 2)) as i eqn:Hi.
  assert (size_ p / 2 = i) as Hi' by lia. rewrite Hi' in *.
  unfold KeyAt in Hm. destruct (lookup_lt_is_Some_2 (array_ p) i) as [[m w] Hcell]; [lia|].
  rewrite (arr_get_nat _ (m, w)) in Hm by done. cbn in Hm. injection Hm as ->.
  assert (cells p !! i = Some (middle, w)) as Hcell' by (rewrite lookup_cells by lia; done).
  rewrite Hcs in Hcell'. destruct i as [|i]; [lia|]. cbn in Hcell'.
  pose proof (take_drop_middle _ _ _ Hcell') as Hsplit.
  destruct (array_ q) as [|q0 qs] eqn:Haq; [cbn in *; lia|]. cbn [length] in Hroom.
  destruct (copy_cells_append (length cs - S i) (array_ p) (S (S i)) 1 ((q0.1, w) :: qs)) as (l & Hl & Hll & Ht); [cbn; lia..|].
  unfold Internal_MoveHalfTo. rewrite Z.quot_div_nonneg, Hi' by lia.
  rewrite (arr_get_nat _ (middle, w)) by done. cbn [mbind outcome_bind].
  unfold SetValueAt. rewrite Haq, (arr_get_nat 0 q0) by done. cbn [mbind outcome_bind].
  rewrite (arr_set_nat 0) by (cbn; lia). cbn [mbind outcome_bind mret outcome_ret list_insert insert array_ set_array snd].
  replace (Z.to_nat (size_ p - S i - 1)) with (length cs - S i)%nat by lia.
  replace (S i + 1) with (Z.of_nat (S (S i))) by lia. change 1 with (Z.of_nat 1).
  rewrite Hl. cbn [mbind outcome_bind]. eexists _, _. split; [done|].
  cbn in Hll.
  rewrite <-Hsplit in Hs. pose proof Hs as Hss. rewrite fmap_app in Hss. cbn in Hss.
  apply StronglySorted_app_inv in Hss as (Hs1 & Hs2 & _). apply StronglySorted_inv in Hs2 as [Hs2 _].
  match goal with |- internal_ok ?p1 ∧ internal_ok ?q1 ∧ _ => set (p' := p1); set (q' := q1) end.
  assert (has_cells p' v0 (take i cs)) as Hcp.
  { split_and!; [unfold page_ok; cbn; lia|done|]. exists k0. unfold cells. subst p'. cbn [size_ array_ SetSize].
    rewrite Nat2Z.id, take_cells, Hcs by lia. done. }
  assert (has_cells q' w (drop (S i) cs)) as Hcq.
  { split_and!; [unfold page_ok; subst q'; cbn; lia|done|]. exists q0.1. unfold cells. subst q'. cbn [size_ array_ SetSize set_array].
    replace (Z.to_nat (size_ p - S i - 1%nat + 1%nat)) with (1 + (length cs - S i))%nat by lia. rewrite Ht. cbn [take app]. f_equal.
    transitivity (take (length cs - S i) (drop (S (S i)) (cells p))); [|rewrite Hcs; cbn; apply take_ge; rewrite length_drop; lia].
    unfold cells. rewrite take_0. cbn [app]. rewrite !take_drop_commute, take_take. f_equal; f_equal; lia. }
  split_and!; [by eapply has_cells_ok|by eapply has_cells_ok|done| |done|subst p' q'; cbn; lia| | |].
  { split_and!; [done..|]. subst q'. cbn. by rewrite Haq. }
  { rewrite (has_cells_separators _ _ _ Hc), (has_cells_separators _ _ _ Hcp), (has_cells_separators _ _ _ Hcq).
    by rewrite <-Hsplit, fmap_app at 1. }
  { destruct Hcp as (_ & _ & k1 & ->). destruct Hcq as (_ & _ & k2 & ->). rewrite Hcs, <-Hsplit at 1. cbn. by rewrite fmap_app. }
  intros key. rewrite (has_cells_lookup p v0 cs), <-Hsplit, route_app by done.
  case_bool_decide; by erewrite has_cells_lookup.
Qed.

Lemma last_default_middle {A B} (x : A * B) (l : list (A * B)) :
  ∃ pre k, x :: l = pre ++ [(k, default x.2 (last l.*2))].
Proof.
  induction l as [|y l IH] using rev_ind; [exists [], x.1; by destruct x|].
  exists (x :: l), y.1. rewrite fmap_app, fmap_cons, fmap_nil, last_snoc. by destruct y.
Qed.

(** [InsertNodeAfter] splits the range of a child: with a new separator that
    was routed to [old] and a new child, the keys of [old] from the separator on go
    to the new child and no other key is routed elsewhere. *)
Lemma internal_insert (p : TreePage Z) (old key new : Z) :
  internal_ok p → NoDup (cells p).*2 → size_ p < length (array_ p) →
  Internal_Lookup key p = Ret old → key ∉ separators p →
  ∃ p', InsertNodeAfter old key new p = Ret (size_ p + 1, p') ∧ internal_ok p' ∧ same_header p p' ∧
    size_ p' = size_ p + 1 ∧ (∀ x, x ∈ separators p' ↔ x = key ∨ x ∈ separators p) ∧ (cells p').*2 ≡ₚ new :: (cells p).*2 ∧
    ∀ k, Internal_Lookup k p' =
      (r ← Internal_Lookup k p; mret (if bool_decide (r = old ∧ key ≤ k) then new else r)).
Proof.
  intros (v0 & cs & Hc & Hlen)%has_cells_intro Hnd Hroom Hold Hkey. pose proof Hc as (Hp & Hs & k0 & Hcs).
  rewrite (has_cells_separators _ _ _ Hc) in *. rewrite (has_cells_lookup p v0 cs) in Hold by done. injection Hold as Hold.
  destruct (route_split key v0 cs Hs) as (cs1 & cs2 & -> & H1 & H2 & Hr). rewrite Hold in Hr.
  destruct (last_default_middle (k0, v0) cs1) as (pre & kc & Hpre). cbn [snd] in Hpre. rewrite <-Hr in Hpre.
  assert (cells p = pre ++ (kc, old) :: cs2) as Hcs'.
  { rewrite Hcs, app_comm_cons, Hpre, <-app_assoc. done. }
  assert (old ∉ pre.*2 ∧ old ∉ cs2.*2) as [Hn1 Hn2].
  { rewrite Hcs', fmap_app in Hnd. cbn in Hnd. apply NoDup_app in Hnd as (_ & Hd & [Hn _]%NoDup_cons).
    split; [intros Hin; apply (Hd old Hin); by left|done]. }
  assert (length pre = length cs1) as Hlpre.
  { apply (f_equal length) in Hpre. rewrite length_app in Hpre. cbn in Hpre. lia. }
  rewrite length_app in Hlen. unfold page_ok in Hp.
  unfold InsertNodeAfter. rewrite (ValueIndex_spec p pre kc old cs2) by done. cbn [mbind outcome_bind].
  destruct (shift_up_insert (S (length cs1)) (Z.to_nat (size_ p)) (key, new) (array_ p)) as (l1 & Hl1 & l2 & Hl2 & Hll & Ht); [lia|].
  rewrite Z2Nat.id in Hl1 by lia. rewrite Hlpre.
  replace (Z.to_nat (size_ p - (length cs1 + 1))) with (Z.to_nat (size_ p) - S (length cs1))%nat by lia.
  replace (length cs1 + 1) with (Z.of_nat (S (length cs1))) by lia.
  rewrite Hl1. cbn [mbind outcome_bind]. rewrite Hl2. cbn [mbind outcome_bind]. eexists. split; [done|].
  match goal with |- internal_ok ?p1 ∧ _ => set (p' := p1) end.
  assert (Forall (fun c => c.1 < key) cs1) as H1'.
  { rewrite Forall_forall in H1 |- *. intros c Hin. pose proof (H1 c Hin).
    assert (c.1 ≠ key); [|lia]. intros <-. apply Hkey, list_elem_of_fmap. exists c. split; [done|]. apply elem_of_app. by left. }
  pose proof (sorted_around key new cs1 cs2 Hs H1' H2) as Hs'.
  assert (has_cells p' v0 (cs1 ++ (key, new) :: cs2)) as Hc'.
  { split_and!; [unfold page_ok; subst p'; cbn; lia|done|]. exists k0. subst p'. unfold cells. cbn [size_ array_ IncreaseSize SetSize set_array].
    replace (Z.to_nat (size_ p + 1)) with (S (Z.to_nat (size_ p))) by lia. rewrite Ht.
    rewrite take_cells by lia. change (take (Z.to_nat (size_ p)) (array_ p)) with (cells p). rewrite Hcs.
    cbn. by rewrite take_app_length, drop_app_length. }
  split_and!; [by eapply has_cells_ok|done|done| | |].
  { intros x. rewrite (has_cells_separators _ _ _ Hc'), !fmap_app. cbn. set_solver. }
  { destruct Hc' as (_ & _ & k1 & ->). rewrite Hcs. cbn. rewrite !fmap_app. cbn. rewrite <-Permutation_middle. by constructor. }
  intros k. rewrite (has_cells_lookup _ _ _ k Hc'), (has_cells_lookup _ _ _ k Hc), route_app by done.
  cbn. f_equal. case_bool_decide as Hk.
  - rewrite bool_decide_false by lia. symmetry. apply route_app_below.
    eapply Forall_impl; [exact H2|]. cbn. lia.
  - rewrite (route_app_above k v0) by (eapply Forall_impl; [exact H1'|]; cbn; lia). rewrite <-Hr.
    destruct (route_cases k old cs2) as [Hany|[Hin Hany]].
    + rewrite !Hany. by rewrite bool_decide_true by (split; [done|lia]).
    + rewrite bool_decide_false; [apply Hany|]. intros [Heq _]. by rewrite Heq in Hin.
Qed.

(** Two neighbours among the children: the separator [m] stands between [left_of v0 cs1]
    and [b]. *)
Definition left_of (v0 : Z) (cs1 : list (Z * Z)) : Z := default v0 (last cs1.*2).

Lemma neighbours p (j : nat) :
  internal_ok p → (0 < j)%nat → j < size_ p →
  ∃ v0 cs1 m b cs2, has_cells p v0 (cs1 ++ (m, b) :: cs2) ∧ j = S (length cs1) ∧
    ValueAt (j - 1) p = Ret (left_of v0 cs1) ∧ ValueAt j p = Ret b.
Proof.
  intros (v0 & cs & Hc & Hlen)%has_cells_intro Hj Hsize. destruct j as [|i]; [lia|].
  destruct (lookup_lt_is_Some_2 cs i) as [[m b] Hm]; [lia|].
  pose proof (take_drop_middle _ _ _ Hm) as Hsplit. exists v0, (take i cs), m, b, (drop (S i) cs). rewrite Hsplit.
  split; [done|]. split; [rewrite length_take; lia|]. destruct Hc as (Hp & _ & k0 & Hcs).
  assert (∀ (j : nat) c, cells p !! j = Some c → ValueAt j p = Ret c.2) as Hval.
  { intros j c Hjc. assert (j < size_ p) by (apply lookup_lt_Some in Hjc; rewrite length_cells in Hjc by done; lia).
    rewrite lookup_cells in Hjc by done. unfold ValueAt. by rewrite (arr_get_nat _ c). }
  split.
  - replace (S i - 1) with (Z.of_nat i) by lia.
    destruct (last_default_middle (k0, v0) (take i cs)) as (pre & kc & Hpre). cbn [snd] in Hpre.
    assert (cells p = pre ++ (kc, left_of v0 (take i cs)) :: (m, b) :: drop (S i) cs) as Hcs'.
    { rewrite Hcs, <-Hsplit at 1. rewrite app_comm_cons, Hpre, <-app_assoc. done. }
    apply (Hval i (kc, left_of v0 (take i cs))). rewrite Hcs'. apply list_lookup_middle.
    apply (f_equal length) in Hpre. rewrite length_app in Hpre. cbn in Hpre. rewrite length_take in Hpre. lia.
  - apply (Hval (S i) (m, b)). by rewrite Hcs.
Qed.

Lemma left_of_child v0 cs1 m b cs2 : left_of v0 cs1 ∈ v0 :: (cs1 ++ (m, b) :: cs2).*2.
Proof.
  unfold left_of. destruct (last cs1.*2) as [v|] eqn:Hl; cbn; [right|left].
  apply last_Some in Hl as (l & Hl). rewrite fmap_app, Hl. set_solver.
Qed.

(** [Remove] of the right neighbour. *)
Lemma Internal_Remove_spec p v0 cs1 m b cs2 :
  has_cells p v0 (cs1 ++ (m, b) :: cs2) →
  ∃ p', Internal_Remove (S (length cs1)) p = Ret p' ∧ has_cells p' v0 (cs1 ++ cs2) ∧ same_header p p' ∧ size_ p' = size_ p - 1.
Proof.
  intros Hc. destruct (has_cells_ok _ _ _ Hc) as [_ Hlen]. destruct Hc as (Hp & Hs & k0 & Hcs).
  pose proof Hp as Hp'. unfold page_ok in Hp'. rewrite length_app in Hlen. cbn [length] in Hlen. unfold Internal_Remove.
  destruct (shift_down_remove (S (length cs1)) (Z.to_nat (size_ p)) (array_ p)) as (l & Hl & Hll & Ht); [lia|].
  replace (Z.to_nat (size_ p - 1 - S (length cs1))) with (Z.to_nat (size_ p) - 1 - S (length cs1))%nat by lia.
  rewrite Hl. cbn [mbind outcome_bind]. eexists. split; [done|]. split; [|done].
  split_and!; [unfold page_ok; cbn; lia|by eapply sorted_without|]. exists k0. unfold cells. cbn [size_ array_ IncreaseSize SetSize set_array].
  replace (Z.to_nat (size_ p + -1)) with (Z.to_nat (size_ p) - 1)%nat by lia. rewrite Ht.
  rewrite take_cells by lia. change (take (Z.to_nat (size_ p)) (array_ p)) with (cells p). rewrite Hcs. cbn.
  rewrite take_app_length. do 2 f_equal. rewrite (cons_middle _ cs1 cs2), app_assoc. apply drop_app_length'. rewrite length_app. cbn. lia.
Qed.

(** [SetKeyAt] moves the separator between the neighbours. *)
Lemma SetKeyAt_spec p v0 cs1 m b cs2 m' :
  has_cells p v0 (cs1 ++ (m, b) :: cs2) → Forall (fun c => c.1 < m') cs1 → Forall (fun c => m' < c.1) cs2 →
  ∃ p', SetKeyAt (S (length cs1)) m' p = Ret p' ∧ has_cells p' v0 (cs1 ++ (m', b) :: cs2) ∧ same_header p p' ∧ size_ p' = size_ p.
Proof.
  intros Hc H1 H2. destruct (has_cells_ok _ _ _ Hc) as [_ Hlen]. destruct Hc as (Hp & Hs & k0 & Hcs).
  pose proof Hp as Hp'. unfold page_ok in Hp'. rewrite length_app in Hlen. cbn [length] in Hlen. unfold SetKeyAt.
  assert (array_ p !! S (length cs1) = Some (m, b)) as Hm.
  { rewrite <-lookup_cells, Hcs by lia. cbn. by apply list_lookup_middle. }
  rewrite (arr_get_nat _ (m, b)) by done. cbn [mbind outcome_bind snd]. rewrite arr_set_nat by (by eapply lookup_lt_Some). cbn [mbind outcome_bind].
  eexists. split; [done|]. split; [|split; [|done]].
  2:{ unfold same_header. cbn. by rewrite length_insert. }
  split_and!.
  - unfold page_ok. cbn. rewrite length_insert. lia.
  - rewrite fmap_app in Hs |- *. cbn in Hs |- *. apply StronglySorted_app_inv in Hs as (Hs1 & [Hs2 _]%StronglySorted_inv & H12).
    apply StronglySorted_app_intro; [done| |].
    + constructor; [done|]. apply Forall_fmap. done.
    + intros x y Hx [->|Hy]%elem_of_cons; [|apply H12; [done|by right]].
      apply list_elem_of_fmap in Hx as (c & -> & Hin). rewrite Forall_forall in H1. by apply H1.
  - exists k0. unfold cells. cbn [size_ array_ set_array]. rewrite take_insert_lt by lia.
    change (take (Z.to_nat (size_ p)) (array_ p)) with (cells p). rewrite Hcs. cbn [insert list_insert]. f_equal.
    assert (length cs1 ≤ length cs1)%nat as Hle by done.
    change (list_insert (length cs1) (m', b)) with (<[length cs1 := (m', b)]> : list (Z * Z) → _).
    apply (insert_app_r_alt cs1 ((m, b) :: cs2) (length cs1)) with (x := (m', b)) in Hle. by rewrite Nat.sub_diag in Hle.
Qed.

Section neighbour_routes.
Context (v0 : Z) (cs1 : list (Z * Z)) (m b : Z) (cs2 : list (Z * Z)).
Context (Hs : StronglySorted Z.lt (cs1 ++ (m, b) :: cs2).*1) (Hnd : NoDup (v0 :: (cs1 ++ (m, b) :: cs2).*2)).

Lemma neighbour_sides : Forall (fun c => c.1 < m) cs1 ∧ Forall (fun c => m < c.1) cs2.
Proof.
  rewrite fmap_app in Hs. cbn in Hs. apply StronglySorted_app_inv in Hs as (_ & [_ Hgt]%StronglySorted_inv & Hlt).
  split; apply Forall_forall; intros c Hin.
  - apply Hlt; [by apply list_elem_of_fmap_2|by left].
  - rewrite Forall_forall in Hgt. by apply Hgt, list_elem_of_fmap_2.
Qed.

Lemma neighbour_names : b ∉ v0 :: cs1.*2 ∧ b ∉ cs2.*2 ∧ left_of v0 cs1 ∉ cs2.*2 ∧ left_of v0 cs1 ∈ v0 :: cs1.*2.
Proof.
  rewrite fmap_app, fmap_cons, app_comm_cons in Hnd. cbn [snd] in Hnd. apply NoDup_app in Hnd as (_ & Hd & [Hn _]%NoDup_cons).
  assert (left_of v0 cs1 ∈ v0 :: cs1.*2) as Hin.
  { unfold left_of. destruct (last cs1.*2) as [v|] eqn:Hl; cbn; [right; by apply last_Some_elem_of|left]. }
  split_and!; [|done| |done].
  - intros Hb. apply (Hd b Hb). by left.
  - intros Hl. apply (Hd _ Hin). by right.
Qed.

(** Keys up to the last separator in front, and keys behind [m]. *)
Lemma route_left key : key < m → route key v0 (cs1 ++ (m, b) :: cs2) = route key v0 cs1.
Proof. intros. rewrite route_app by done. by rewrite bool_decide_true. Qed.
Lemma route_right key : m ≤ key → route key v0 (cs1 ++ (m, b) :: cs2) = route key b cs2.
Proof. intros. rewrite route_app by done. by rewrite bool_decide_false by lia. Qed.
Lemma route_last key : Forall (fun c => c.1 ≤ key) cs1 → route key v0 cs1 = left_of v0 cs1.
Proof. intros. rewrite <-(app_nil_r cs1) at 1. by rewrite route_app_above. Qed.
Lemma route_first key v cs : Forall (fun c => key < c.1) cs → route key v cs = v.
Proof. intros H. by apply (route_app_below key v [] cs). Qed.

Lemma route_left_not_right key : route key v0 cs1 ≠ b.
Proof.
  destruct neighbour_names as (Hb & _). intros Heq. destruct (route_cases key v0 cs1) as [Hany|[Hin _]].
  - rewrite Hany in Heq. subst. apply Hb. by left.
  - apply Hb. right. by rewrite <-Heq.
Qed.

Lemma route_right_not_left key : route key b cs2 ≠ left_of v0 cs1.
Proof.
  destruct neighbour_names as (Hb & _ & Hl & Hin). intros Heq. destruct (route_cases key b cs2) as [Hany|[Hin' _]].
  - rewrite Hany in Heq. by rewrite Heq in Hb.
  - by rewrite Heq in Hin'.
Qed.

(** The keys of the two neighbours. *)
Lemma route_is_left key : route key v0 (cs1 ++ (m, b) :: cs2) = left_of v0 cs1 → Forall (fun c => c.1 ≤ key) cs1 ∧ key < m.
Proof.
  intros Hr. destruct (decide (key < m)) as [Hk|Hk]; [|rewrite route_right in Hr by lia; by apply route_right_not_left in Hr].
  split; [|done]. rewrite route_left in Hr by done. rewrite fmap_app in Hs. apply StronglySorted_app_inv in Hs as (Hs1 & _ & _).
  destruct (route_split key v0 cs1 Hs1) as (l1 & l2 & Hl & Hl1 & Hl2 & Hd). rewrite Hd in Hr.
  destruct l2 as [|c l2 _] using rev_ind; [by rewrite Hl, app_nil_r|]. exfalso. revert Hr. unfold left_of. rewrite Hl, !fmap_app, !last_app.
  cbn. rewrite fmap_app, fmap_cons, app_comm_cons in Hnd. apply NoDup_app in Hnd as (Hnd1 & _ & _). rewrite Hl, !fmap_app in Hnd1.
  intros Hr. rewrite app_assoc, app_comm_cons in Hnd1. apply NoDup_app in Hnd1 as (_ & Hdis & _).
  apply (Hdis c.2); [|by left]. rewrite <-Hr. destruct (last l1.*2) as [v|] eqn:Hlast; cbn; [|by left].
  right. apply elem_of_app. left. by apply last_Some_elem_of.
Qed.

Lemma route_is_right key : route key v0 (cs1 ++ (m, b) :: cs2) = b → m ≤ key ∧ Forall (fun c => key < c.1) cs2.
Proof.
  intros Hr. destruct (decide (key < m)) as [Hk|Hk]; [rewrite route_left in Hr by done; by apply route_left_not_right in Hr|].
  split; [lia|]. rewrite route_right in Hr by lia. rewrite fmap_app in Hs. cbn in Hs.
  apply StronglySorted_app_inv in Hs as (_ & [Hs2 _]%StronglySorted_inv & _).
  destruct (route_split key b cs2 Hs2) as (l1 & l2 & Hl & Hl1 & Hl2 & Hd). rewrite Hd in Hr.
  destruct (last l1.*2) as [v|] eqn:Hlast; cbn in Hr.
  - exfalso. destruct neighbour_names as (_ & Hb & _). apply Hb. rewrite Hl, fmap_app. apply elem_of_app. left. subst v. by apply last_Some_elem_of.
  - apply last_None, fmap_nil_inv in Hlast. by subst l1 cs2.
Qed.

(** Without the separator the keys of [b] go to its left neighbour. *)
Lemma route_remove key :
  route key v0 (cs1 ++ cs2) = let r := route key v0 (cs1 ++ (m, b) :: cs2) in if bool_decide (r = b) then left_of v0 cs1 else r.
Proof.
  destruct neighbour_sides as [H1 H2]. cbn zeta. destruct (decide (key < m)) as [Hk|Hk].
  - rewrite route_left by done. rewrite bool_decide_false by apply route_left_not_right. apply route_app_below.
    eapply Forall_impl; [exact H2|]. cbn. lia.
  - rewrite route_right by lia. rewrite route_app_above by (eapply Forall_impl; [exact H1|]; cbn; lia). fold (left_of v0 cs1).
    destruct (route_cases key b cs2) as [Hany|[Hin Hany]].
    + rewrite !Hany. by rewrite bool_decide_true.
    + rewrite bool_decide_false; [apply Hany|]. intros Heq. destruct neighbour_names as (_ & Hb & _). by rewrite Heq in Hin.
Qed.

(** With another separator only keys of the two neighbours change sides. *)
Lemma route_separator key m' :
  Forall (fun c => c.1 < m') cs1 → Forall (fun c => m' < c.1) cs2 →
  StronglySorted Z.lt (cs1 ++ (m', b) :: cs2).*1 →
  route key v0 (cs1 ++ (m', b) :: cs2) =
    let r := route key v0 (cs1 ++ (m, b) :: cs2) in
    if bool_decide (r = left_of v0 cs1 ∨ r = b) then (if bool_decide (key < m') then left_of v0 cs1 else b) else r.
Proof.
  intros H1 H2 Hs'. destruct neighbour_sides as [H1m H2m]. cbn zeta. rewrite (route_app key v0 cs1 m' b cs2) by done.
  destruct (decide (key < m)) as [Hk|Hk]; [rewrite route_left by done|rewrite route_right by lia]; case_bool_decide as Hk'.
  - case_bool_decide as Hr; [|done]. destruct Hr as [Hr|Hr]; [done|by apply route_left_not_right in Hr].
  - assert (Forall (fun c => c.1 ≤ key) cs1) as Habove by (eapply Forall_impl; [exact H1|]; cbn; lia).
    rewrite (route_last _ Habove), bool_decide_true by (by left). apply route_first. eapply Forall_impl; [exact H2m|]. cbn. lia.
  - assert (Forall (fun c => key < c.1) cs2) as Hbelow by (eapply Forall_impl; [exact H2|]; cbn; lia).
    rewrite (route_first _ b _ Hbelow), bool_decide_true by (by right). apply route_last. eapply Forall_impl; [exact H1m|]. cbn. lia.
  - case_bool_decide as Hr; [|done]. destruct Hr as [Hr|Hr]; [by apply route_right_not_left in Hr|done].
Qed.
End neighbour_routes.

(** C38: Merging an internal page into its left sibling with the separator of the
    parent: the sibling routes every key as the two pages did on the two sides of
    the separator. *)
Theorem internal_merge (p q : TreePage Z) (middle : Z) :
  internal_ok p → internal_ok q → size_ q + size_ p ≤ length (array_ q) →
  Forall (fun k => k < middle) (separators q) → Forall (fun k => middle < k) (separators p) →
  ∃ p' q', Internal_MoveAllTo p q middle = Ret (p', q') ∧ internal_ok q' ∧ size_ p' = 0 ∧ size_ q' = size_ q + size_ p ∧
    ∀ key, Internal_Lookup key q' = Internal_Lookup key (if bool_decide (key < middle) then q else p).
Proof.
  intros (vp & csp & Hcp & Hlp)%has_cells_intro (vq & csq & Hcq & Hlq)%has_cells_intro Hroom Hq Hp.
  rewrite (has_cells_separators _ _ _ Hcq) in Hq. rewrite (has_cells_separators _ _ _ Hcp) in Hp.
  pose proof Hcp as (Hokp & Hsp & kp & Hcsp). pose proof Hcq as (Hokq & Hsq & kq & Hcsq).
  pose proof Hokp as Hokp'. pose proof Hokq as Hokq'. unfold page_ok in Hokp', Hokq'.
  assert (array_ p !! 0%nat = Some (kp, vp)) as H0.
  { rewrite <-lookup_cells by lia. by rewrite Hcsp. }
  unfold Internal_MoveAllTo, SetKeyAt. rewrite (arr_get_nat 0 (kp, vp)) by done. cbn [mbind outcome_bind].
  rewrite (arr_set_nat 0) by lia. cbn [mbind outcome_bind mret outcome_ret snd].
  set (p1 := set_array _ p). assert (page_ok p1) as Hok1 by (subst p1; unfold page_ok; cbn; rewrite length_insert; lia).
  assert (cells p1 = (middle, vp) :: csp) as Hcs1.
  { subst p1. unfold cells. cbn [size_ array_ set_array]. rewrite take_insert_lt by lia.
    change (take (Z.to_nat (size_ p)) (array_ p)) with (cells p). by rewrite Hcsp. }
  change (size_ p1) with (size_ p).
  destruct (copy_behind 0 p1 q) as (l & Hl & Hll & Ht); [done|done|lia|cbn; lia|].
  rewrite Nat.sub_0_r in Hl. change (Z.of_nat 0) with 0 in Hl, Ht. rewrite Z.sub_0_r in Ht. cbn [size_ p1 set_array] in Hl, Ht.
  rewrite Hl. cbn [mbind outcome_bind]. eexists _, _. split; [done|].
  match goal with |- internal_ok ?q1 ∧ _ => set (q' := q1) end.
  assert (has_cells q' vq (csq ++ (middle, vp) :: csp)) as Hc'.
  { split_and!; [unfold page_ok; subst q'; cbn; lia| |].
    - apply sorted_around; [|exact (proj1 (Forall_fmap _ _ _) Hq)|exact (proj1 (Forall_fmap _ _ _) Hp)].
      rewrite fmap_app. apply StronglySorted_app_intro; [done..|]. intros x y Hx Hy.
      rewrite Forall_forall in Hq, Hp. pose proof (Hq x Hx). pose proof (Hp y Hy). lia.
    - exists kq. subst q'. unfold cells. cbn [size_ array_ IncreaseSize SetSize set_array]. rewrite Ht, Hcs1, Hcsq. done. }
  split_and!; [by eapply has_cells_ok|done|done|].
  intros key. rewrite (has_cells_lookup _ _ _ key Hc'). pose proof Hc' as (_ & Hs' & _). rewrite route_app by done.
  case_bool_decide; by erewrite has_cells_lookup.
Qed.

(** Redistribution from the right sibling: [MoveFirstToEndOf] hands over the
    first child, and the key that it leaves in cell 0 is the separator under which
    the two pages route every key as before. *)
Lemma internal_rotate_left (p q : TreePage Z) (middle : Z) :
  internal_ok p → internal_ok q → 2 ≤ size_ p → size_ q < length (array_ q) →
  Forall (fun k => k < middle) (separators q) → Forall (fun k => middle < k) (separators p) →
  ∃ p' q' sep, Internal_MoveFirstToEndOf p q middle = Ret (p', q') ∧ internal_ok p' ∧ internal_ok q' ∧
    size_ p' = size_ p - 1 ∧ size_ q' = size_ q + 1 ∧ KeyAt 0 p' = Ret sep ∧
    ∀ key, Internal_Lookup key (if bool_decide (key < middle) then q else p) =
           Internal_Lookup key (if bool_decide (key < sep) then q' else p').
Proof.
  intros (vp & csp & Hcp & Hlp)%has_cells_intro (vq & csq & Hcq & Hlq)%has_cells_intro Hsize Hroom Hq Hp.
  rewrite (has_cells_separators _ _ _ Hcq) in Hq. rewrite (has_cells_separators _ _ _ Hcp) in Hp.
  pose proof Hcp as (Hokp & Hsp & kp & Hcsp). pose proof Hcq as (Hokq & Hsq & kq & Hcsq).
  pose proof Hokp as Hokp'. pose proof Hokq as Hokq'. unfold page_ok in Hokp', Hokq'.
  destruct csp as [|[sep vs] csp]; [cbn in *; lia|]. unfold Internal_MoveFirstToEndOf.
  destruct (shift_out_first p) as (c & l & -> & Hs & Hl & Hc); [done|lia|]. cbn [mbind outcome_bind].
  rewrite Hcsp in Hc. injection Hc as <- Hc. cbn [snd].
  destruct (append_cell q (middle, vp)) as (l' & -> & Hl' & Hc'); [done|lia|]. cbn [mbind outcome_bind]. rewrite Hs. cbn [mbind outcome_bind].
  assert (l !! 0%nat = Some (sep, vs)) as Hl0.
  { rewrite <-(lookup_take_lt l (Z.to_nat (size_ p - 1))) by lia. by rewrite <-Hc. }
  eexists _, _, sep. split; [done|].
  match goal with |- internal_ok ?p1 ∧ internal_ok ?q1 ∧ _ => set (p' := p1); set (q' := q1) end.
  cbn in Hsp. pose proof Hsp as [Hsp' Hsep]%StronglySorted_inv.
  assert (has_cells p' vs csp) as Hcp'.
  { split_and!; [unfold page_ok; subst p'; cbn; lia|done|]. exists sep. symmetry. exact Hc. }
  assert (has_cells q' vq (csq ++ [(middle, vp)])) as Hcq'.
  { split_and!; [unfold page_ok; subst q'; cbn; lia| |exists kq; rewrite app_comm_cons, <-Hcsq; exact Hc'].
    apply sorted_around; [by rewrite app_nil_r|exact (proj1 (Forall_fmap _ _ _) Hq)|done]. }
  split_and!; [by eapply has_cells_ok|by eapply has_cells_ok|done|done|by unfold KeyAt; rewrite (arr_get_nat 0 (sep, vs))|].
  apply Forall_inv in Hp. cbn in Hp. intros key. pose proof Hcq' as (_ & Hsq' & _).
  destruct (bool_decide_reflect (key < sep)).
  - rewrite (has_cells_lookup _ _ _ key Hcq'), route_app by done. case_bool_decide.
    + by apply has_cells_lookup.
    + rewrite (has_cells_lookup _ _ _ key Hcp). cbn. by rewrite bool_decide_true.
  - rewrite bool_decide_false by lia.
    rewrite (has_cells_lookup _ _ _ key Hcp), (has_cells_lookup _ _ _ key Hcp'). cbn. by rewrite bool_decide_false.
Qed.

(** Redistribution from the left sibling: [MoveLastToFrontOf] hands over the
    last child, and the pages route every key as before under the key that this
    child had; but that key is lost, since the key in cell 0 of the recipient stays
    what it was. *)
Lemma internal_rotate_right (p q : TreePage Z) (middle sep : Z) :
  internal_ok p → internal_ok q → 2 ≤ size_ p → size_ q < length (array_ q) →
  Forall (fun k => k < middle) (separators p) → Forall (fun k => middle < k) (separators q) →
  KeyAt (size_ p - 1) p = Ret sep →
  ∃ p' q', Internal_MoveLastToFrontOf p q middle = Ret (p', q') ∧ internal_ok p' ∧ internal_ok q' ∧
    size_ p' = size_ p - 1 ∧ size_ q' = size_ q + 1 ∧ KeyAt 0 q' = KeyAt 0 q ∧
    ∀ key, Internal_Lookup key (if bool_decide (key < middle) then p else q) =
           Internal_Lookup key (if bool_decide (key < sep) then p' else q').
Proof.
  intros (vp & csp & Hcp & Hlp)%has_cells_intro (vq & csq & Hcq & Hlq)%has_cells_intro Hsize Hroom Hp Hq Hsep.
  rewrite (has_cells_separators _ _ _ Hcq) in Hq. rewrite (has_cells_separators _ _ _ Hcp) in Hp.
  pose proof Hcp as (Hokp & Hsp & kp & Hcsp). pose proof Hcq as (Hokq & Hsq & kq & Hcsq).
  pose proof Hokp as Hokp'. pose proof Hokq as Hokq'. unfold page_ok in Hokp', Hokq'.
  destruct (drop_last_cell p) as ([s vl] & Hg & Hc); [done|lia|].
  unfold KeyAt in Hsep. rewrite Hg in Hsep. injection Hsep as ->.
  destruct csp as [|c csp _] using rev_ind; [cbn in *; lia|].
  rewrite Hcsp, app_comm_cons in Hc. apply app_inj_tail in Hc as [Hc ->]. symmetry in Hc.
  assert (array_ q !! 0%nat = Some (kq, vq)) as H0 by (rewrite <-lookup_cells by lia; by rewrite Hcsq).
  destruct (shift_in_first q (kq, vq)) as (l & l' & Hs & Hl & Hll & Ht); [done|lia|]. rewrite Hcsq in Ht.
  assert (length l = length (array_ q)) as Hlen.
  { unfold arr_set in Hl. case_bool_decide; [|done]. injection Hl as <-. by rewrite length_insert in Hll. }
  assert (∃ rest, l = (kq, vq) :: (kq, vq) :: rest ∧ take (Z.to_nat (size_ q) - 1) rest = csq) as (rest & -> & Hrest).
  { destruct (shift_up_spec (Z.to_nat (size_ q)) (Z.to_nat (size_ q)) (array_ q)) as (l1 & Hl1 & _ & Hj); [lia..|].
    rewrite Z2Nat.id in Hl1 by lia. rewrite Hs in Hl1. injection Hl1 as <-.
    pose proof (Hj 0%nat) as Hj0. pose proof (Hj 1%nat) as Hj1.
    rewrite decide_False, H0 in Hj0 by lia. rewrite decide_True in Hj1 by lia. cbn in Hj1. rewrite H0 in Hj1.
    destruct l as [|a [|b rest]]; cbn in Hj0, Hj1; [done..|]. simplify_eq. exists rest. split; [done|].
    rewrite (arr_set_nat 0) in Hl by (cbn; lia). injection Hl as <-.
    replace (Z.to_nat (size_ q + 1)) with (S (S (Z.to_nat (size_ q) - 1))) in Ht by lia. by injection Ht. }
  unfold Internal_MoveLastToFrontOf. rewrite Hs. cbn [mbind outcome_bind]. rewrite Hg. cbn [mbind outcome_bind snd].
  unfold SetValueAt, SetKeyAt. cbn [array_ set_array].
  rewrite (arr_get_nat 0 (kq, vq)) by done. cbn [mbind outcome_bind fst].
  rewrite (arr_set_nat 0) by (cbn; lia). cbn [mbind outcome_bind mret outcome_ret array_ set_array list_insert insert].
  rewrite (arr_get_nat 1 (kq, vq)) by done. cbn [mbind outcome_bind snd].
  rewrite (arr_set_nat 1) by (cbn; lia). cbn [mbind outcome_bind mret outcome_ret array_ set_array list_insert insert].
  eexists _, _. split; [done|].
  match goal with |- internal_ok ?p1 ∧ internal_ok ?q1 ∧ _ => set (p' := p1); set (q' := q1) end.
  rewrite fmap_app in Hsp, Hp. cbn in Hsp, Hp, Hlen. rewrite length_app in Hlp. cbn in Hlp.
  apply Forall_app in Hp as [_ Hsm%Forall_inv]. cbn in Hsm.
  pose proof Hsp as (Hsp' & _ & _)%StronglySorted_app_inv.
  assert (has_cells p' vp csp) as Hcp' by (split_and!; [unfold page_ok; subst p'; cbn; lia|done|by exists kp]).
  assert (has_cells q' vl ((middle, vq) :: csq)) as Hcq'.
  { split_and!; [unfold page_ok; subst q'; cbn; lia| |].
    - cbn. constructor; done.
    - exists kq. unfold cells. subst q'. cbn [size_ array_ IncreaseSize SetSize set_array].
      replace (Z.to_nat (size_ q + 1)) with (S (S (Z.to_nat (size_ q) - 1))) by lia. cbn. by rewrite Hrest. }
  split_and!; [by eapply has_cells_ok|by eapply has_cells_ok|done|done| |].
  { transitivity (Ret kq : outcome Z); unfold KeyAt.
    - by rewrite (arr_get_nat 0 (kq, vl)).
    - by rewrite (arr_get_nat 0 (kq, vq)). }
  intros key. assert (StronglySorted Z.lt (csp ++ [(sep, vl)]).*1) as Hsp2 by (by rewrite fmap_app).
  destruct (bool_decide_reflect (key < sep)).
  - rewrite bool_decide_true by lia.
    rewrite (has_cells_lookup _ _ _ key Hcp), (has_cells_lookup _ _ _ key Hcp'), route_app by done. by rewrite bool_decide_true.
  - rewrite (has_cells_lookup _ _ _ key Hcq'). cbn. case_bool_decide.
    + rewrite (has_cells_lookup _ _ _ key Hcp), route_app by done. by rewrite bool_decide_false.
    + by rewrite (has_cells_lookup _ _ _ key Hcq).
Qed.

(** ** Room for the cells of a page *)

(** The cells that fit behind the header: [sizeof(BPlusTreePage)] is 16, a leaf
    has [next_page_id_] besides, its cells hold a key and a [RID] (12 bytes), and
    those of an internal page a key and a page id (8 bytes). *)
Definition leaf_default_max_size : Z := Z.quot (ONEBASE_PAGE_SIZE - 16 - 4) (4 + 8).
Definition internal_default_max_size : Z := Z.quot (ONEBASE_PAGE_SIZE - 16) (4 + 4).

Lemma value_index_loop_range n v l : ∀ i : nat,
  (i + n ≤ length l)%nat → ∃ r, value_index_loop n i v l = Ret r ∧ -1 ≤ r < i + n.
Proof.
  induction n as [|n IH]; intros i Hn; cbn [value_index_loop]; [exists (-1); split; [done|lia]|].
  destruct (lookup_lt_is_Some_2 l i) as [c Hc]; [lia|]. rewrite (arr_get_nat _ c) by done. cbn [mbind outcome_bind].
  case_bool_decide; [exists i; split; [done|lia]|].
  replace (i + 1) with (Z.of_nat (S i)) by lia. destruct (IH (S i)) as (r & Hr & Hb); [lia|].
  exists r. split; [done|lia].
Qed.

Lemma InsertNodeAfter_full old key new p :
  page_ok p → size_ p = length (array_ p) → InsertNodeAfter old key new p = Undef.
Proof.
  unfold page_ok. intros Hp Hfull. unfold InsertNodeAfter, ValueIndex.
  destruct (value_index_loop_range (Z.to_nat (size_ p)) old (array_ p) 0) as (r & Hr & Hb); [lia|].
  change (Z.of_nat 0) with 0 in Hr. rewrite Hr. cbn [mbind outcome_bind].
  destruct (decide (r + 1 = size_ p)) as [Heq|].
  - rewrite Heq. replace (Z.to_nat (size_ p - size_ p)) with 0%nat by lia. cbn [shift_up mbind outcome_bind].
    unfold arr_set. rewrite bool_decide_false by lia. done.
  - rewrite Hfull, shift_up_out by lia. done.
Qed.

(** The key that the tree takes as the new separator after a redistribution
    from the left is the one in cell 0: with it the parent sends key 7 to the right
    page, where it is not, although the pages routed it to the left one. *)
Theorem redistribution_loses_separator :
  ∃ (p q p' q' : TreePage Z) (middle sep key : Z),
    internal_ok p ∧ internal_ok q ∧ Internal_MoveLastToFrontOf p q middle = Ret (p', q') ∧ KeyAt 0 q' = Ret sep ∧
    Internal_Lookup key (if bool_decide (key < middle) then p else q) = Ret 11 ∧
    Internal_Lookup key (if bool_decide (key < sep) then p' else q') = Ret 12.
Proof.
  exists (mkTreePage INTERNAL_PAGE 3 4 1 (-1) [(0, 10); (5, 11); (8, 12); (0, 0)]),
    (mkTreePage INTERNAL_PAGE 1 4 1 (-1) [(0, 20); (0, 0); (0, 0); (0, 0)]).
  eexists _, _, 10, 0, 7.
  split; [split_and!; [split; done|done|repeat constructor]|].
  split; [split_and!; [split; done|done|repeat constructor]|].
  split; [reflexivity|]. repeat split.
Qed.

(** ** The theorems at concrete pages *)
Definition demo_leaf : TreePage Z := mkTreePage LEAF_PAGE 3 4 1 (-1) [(2, 20); (5, 50); (9, 90); (0, 0); (0, 0)].
Definition demo_empty_leaf : TreePage Z := mkTreePage LEAF_PAGE 0 4 1 (-1) (replicate 5 (0, 0)).
Definition demo_internal : TreePage Z := mkTreePage INTERNAL_PAGE 3 4 (-1) (-1) [(0, 10); (5, 11); (8, 12); (0, 0); (0, 0)].
Definition demo_new_internal : TreePage Z := mkTreePage INTERNAL_PAGE 0 4 (-1) (-1) (replicate 5 (0, 0)).
Definition demo_sibling : TreePage Z := mkTreePage INTERNAL_PAGE 2 4 (-1) (-1) [(0, 20); (30, 21); (0, 0); (0, 0); (0, 0)].

Lemma demo_leaf_ok : leaf_ok demo_leaf.
Proof. split; [split; done|]. cbn. repeat constructor. Qed.
Lemma demo_internal_ok : internal_ok demo_internal.
Proof. split_and!; [split; done|done|]. cbn. repeat constructor. Qed.
Lemma demo_sibling_ok : internal_ok demo_sibling.
Proof. split_and!; [split; done|done|]. cbn. repeat constructor. Qed.

Example leaf_implements_map_witness :
  Leaf_Lookup 5 demo_leaf = Ret (leaf_map demo_leaf !! 5) ∧ leaf_map demo_leaf !! 7 = None ∧
  ∃ p', Leaf_Insert 7 70 demo_leaf = Ret (4, p') ∧ leaf_map p' = <[7 := 70]> (leaf_map demo_leaf).
Proof.
  split; [exact (proj1 (leaf_implements_map demo_leaf 5 0 demo_leaf_ok))|]. split; [reflexivity|].
  destruct (leaf_implements_map demo_leaf 7 70 demo_leaf_ok) as (_ & _ & Hins & _).
  destruct Hins as (p' & Hp' & _ & _ & _ & Hm); [reflexivity|reflexivity|]. exists p'. split; [exact Hp'|exact Hm].
Defined.

Example leaf_moves_witness :
  page_ok demo_leaf ∧ ∃ p' q', Leaf_MoveHalfTo demo_leaf demo_empty_leaf = Ret (p', q') ∧ cells p' ++ cells q' = cells demo_leaf.
Proof.
  split; [split; done|].
  destruct (leaf_moves demo_leaf demo_empty_leaf) as (Hhalf & _); [split; done|split; done|].
  destruct Hhalf as (p' & q' & H & _ & _ & _ & Hc); [reflexivity|done|]. exists p', q'. split; [exact H|exact Hc].
Defined.

Example internal_lookup_routes_witness : internal_ok demo_internal ∧ ∃ i c, cells demo_internal !! i = Some c ∧ Internal_Lookup 7 demo_internal = Ret c.2.
Proof.
  split; [apply demo_internal_ok|].
  destruct (internal_lookup_routes demo_internal 7 demo_internal_ok) as (i & c & Hi & Hc & _). exists i, c. split; [exact Hi|exact Hc].
Defined.

Example internal_merge_witness :
  internal_ok demo_sibling ∧ ∃ p' q', Internal_MoveAllTo demo_sibling demo_internal 15 = Ret (p', q') ∧ internal_ok q'.
Proof.
  split; [apply demo_sibling_ok|].
  destruct (internal_merge demo_sibling demo_internal 15 demo_sibling_ok demo_internal_ok) as (p' & q' & H & Hok & _);
    [done|repeat constructor|repeat constructor|]. exists p', q'. split; [exact H|exact Hok].
Defined.
