(* ===== verification/NodeLayout.v ===== *)
(** * B+ tree pages in memory

    The tree casts the bytes of a page to [BPlusTreeLeafPage] and
    [BPlusTreeInternalPage].  [NodeLayout] is what the tree uses of these casts;
    the instance at the end is the layout of the classes in the 4096 bytes of a
    page, without padding: type, size, maximum size and parent (4 bytes each), for a
    leaf the next page, and the cells. *)
From coqutil Require Import Byte Word.LittleEndianList.
From S2P Require Import Prelude Interfaces Bytes Tuple BPlusTreePage.

#[local] Open Scope Z_scope.
#[local] Coercion Z.of_nat : nat >-> Z.

(** The cells of a page. *)
Definition leaf_cells : nat := 339.
Definition internal_cells : nat := 510.

(** ** The interface *)
Class NodeLayout (D : Type) := {
  type_at : D → IndexPageType;
  leaf_view : D → TreePage RID;
  internal_view : D → TreePage Z;
  put_leaf : TreePage RID → D → D;
  put_internal : TreePage Z → D → D;
  put_parent : Z → D → D;
}.

(** Values that the members can hold. *)
Definition header_fits {V} (p : TreePage V) : Prop :=
  in_int32 (size_ p) = true ∧ in_int32 (max_size_ p) = true ∧ in_int32 (parent_page_id_ p) = true ∧
  in_int32 (next_page_id_ p) = true.
Definition leaf_cell_fits (c : Z * RID) : Prop :=
  in_int32 c.1 = true ∧ in_int32 (page_id_of c.2) = true ∧ 0 ≤ slot_num_of c.2 < 2 ^ 32.
Definition internal_cell_fits (c : Z * Z) : Prop := in_int32 c.1 = true ∧ in_int32 c.2 = true.

Definition leaf_fits (p : TreePage RID) : Prop :=
  header_fits p ∧ length (array_ p) = leaf_cells ∧ Forall leaf_cell_fits (array_ p).
Definition internal_fits (p : TreePage Z) : Prop :=
  header_fits p ∧ next_page_id_ p = INVALID_PAGE_ID ∧ length (array_ p) = internal_cells ∧
  Forall internal_cell_fits (array_ p).

(** ** Methods keep the values in range *)
Section in_range.
Context {A : Type} (P : A → Prop).

Lemma arr_get_Forall i l x : arr_get i l = Ret x → Forall P l → P x.
Proof.
  unfold arr_get, deref. intros Hg Hl. repeat case_match; simplify_eq. by eapply Forall_lookup_1.
Qed.
Lemma arr_set_Forall i x l l' : arr_set i x l = Ret l' → P x → Forall P l → Forall P l'.
Proof. unfold arr_set. intros Hs Hx Hl. repeat case_match; simplify_eq. by apply Forall_insert. Qed.
Lemma shift_up_Forall n : ∀ i l l', shift_up n i l = Ret l' → Forall P l → Forall P l'.
Proof.
  induction n as [|n IH]; cbn [shift_up]; intros i l l' Hs Hl; outcome_inv; [done|].
  eapply IH; [done|]. eapply arr_set_Forall; [done| |done]. by eapply arr_get_Forall.
Qed.
Lemma copy_cells_Forall n : ∀ src i dst j dst', copy_cells n src i dst j = Ret dst' → Forall P src → Forall P dst → Forall P dst'.
Proof.
  induction n as [|n IH]; cbn [copy_cells]; intros src i dst j dst' Hs Hsrc Hdst; outcome_inv; [done|].
  eapply IH; [done|done|]. eapply arr_set_Forall; [done| |done]. by eapply arr_get_Forall.
Qed.
Lemma shift_down_Forall n : ∀ i l l', shift_down n i l = Ret l' → Forall P l → Forall P l'.
Proof.
  induction n as [|n IH]; cbn; intros i l l' H HP; outcome_inv; [done|]. eapply IH; [done|].
  eapply arr_set_Forall; [done| |done]. by eapply arr_get_Forall.
Qed.
End in_range.

Lemma Leaf_Insert_Forall {V} (P : Z * V → Prop) key value p n p' :
  Leaf_Insert key value p = Ret (n, p') → P (key, value) → Forall P (array_ p) → Forall P (array_ p').
Proof.
  unfold Leaf_Insert. intros Hop Hx Hp. outcome_inv; [done|]. cbn.
  eapply arr_set_Forall; [done|done|]. by eapply shift_up_Forall.
Qed.

Lemma Leaf_MoveHalfTo_Forall {V} (P : Z * V → Prop) p q p' q' :
  Leaf_MoveHalfTo p q = Ret (p', q') → Forall P (array_ p) → Forall P (array_ q) → Forall P (array_ p') ∧ Forall P (array_ q').
Proof. unfold Leaf_MoveHalfTo. intros Hop Hp Hq. outcome_inv. split; [done|]. cbn. by eapply copy_cells_Forall. Qed.

Lemma Leaf_Remove_Forall {V} (P : Z * V → Prop) key p n p' :
  Leaf_RemoveAndDeleteRecord key p = Ret (n, p') → Forall P (array_ p) → Forall P (array_ p').
Proof. unfold Leaf_RemoveAndDeleteRecord. intros Hop Hp. outcome_inv; [done|]. cbn. by eapply shift_down_Forall. Qed.

Lemma Leaf_MoveAllTo_Forall {V} (P : Z * V → Prop) p q p' q' :
  Leaf_MoveAllTo p q = Ret (p', q') → Forall P (array_ p) → Forall P (array_ q) → Forall P (array_ p') ∧ Forall P (array_ q').
Proof. unfold Leaf_MoveAllTo. intros Hop Hp Hq. outcome_inv. split; [done|]. cbn. by eapply copy_cells_Forall. Qed.

Lemma Leaf_MoveFirstToEndOf_Forall {V} (P : Z * V → Prop) p q p' q' :
  Leaf_MoveFirstToEndOf p q = Ret (p', q') → Forall P (array_ p) → Forall P (array_ q) → Forall P (array_ p') ∧ Forall P (array_ q').
Proof.
  unfold Leaf_MoveFirstToEndOf. intros Hop Hp Hq. outcome_inv. cbn. split; [by eapply shift_down_Forall|].
  eapply arr_set_Forall; [done| |done]. by eapply arr_get_Forall.
Qed.

Lemma Leaf_MoveLastToFrontOf_Forall {V} (P : Z * V → Prop) p q p' q' :
  Leaf_MoveLastToFrontOf p q = Ret (p', q') → Forall P (array_ p) → Forall P (array_ q) → Forall P (array_ p') ∧ Forall P (array_ q').
Proof.
  unfold Leaf_MoveLastToFrontOf. intros Hop Hp Hq. outcome_inv. cbn. split; [done|].
  eapply arr_set_Forall; [done|by eapply arr_get_Forall|]. by eapply shift_up_Forall.
Qed.

Lemma SetKeyAt_fits i key p p' :
  SetKeyAt i key p = Ret p' → in_int32 key = true → Forall internal_cell_fits (array_ p) → Forall internal_cell_fits (array_ p').
Proof.
  unfold SetKeyAt. intros Hop Hk Hp. outcome_inv. cbn. eapply arr_set_Forall; [done| |done].
  destruct (arr_get_Forall internal_cell_fits _ _ _ Hr Hp). by split.
Qed.

Lemma Internal_Remove_fits i p p' :
  Internal_Remove i p = Ret p' → Forall internal_cell_fits (array_ p) → Forall internal_cell_fits (array_ p').
Proof. unfold Internal_Remove. intros Hop Hp. outcome_inv. cbn. by eapply shift_down_Forall. Qed.

Lemma SetValueAt_fits i v p p' :
  SetValueAt i v p = Ret p' → in_int32 v = true → Forall internal_cell_fits (array_ p) → Forall internal_cell_fits (array_ p').
Proof.
  unfold SetValueAt. intros Hop Hv Hp. outcome_inv. cbn. eapply arr_set_Forall; [done| |done].
  destruct (arr_get_Forall internal_cell_fits _ _ _ Hr Hp). by split.
Qed.

Lemma Internal_MoveHalfTo_fits middle p q p' q' :
  Internal_MoveHalfTo p q middle = Ret (p', q') → Forall internal_cell_fits (array_ p) → Forall internal_cell_fits (array_ q) →
  Forall internal_cell_fits (array_ p') ∧ Forall internal_cell_fits (array_ q').
Proof.
  unfold Internal_MoveHalfTo. intros Hop Hp Hq. outcome_inv. split; [done|]. cbn. eapply copy_cells_Forall; [done|done|].
  destruct (arr_get_Forall internal_cell_fits _ _ _ Hr Hp). by eapply SetValueAt_fits.
Qed.

Lemma InsertNodeAfter_fits old key new p n p' :
  InsertNodeAfter old key new p = Ret (n, p') → in_int32 key = true → in_int32 new = true →
  Forall internal_cell_fits (array_ p) → Forall internal_cell_fits (array_ p').
Proof.
  unfold InsertNodeAfter. intros Hop Hk Hn Hp. outcome_inv. cbn.
  eapply arr_set_Forall; [done|done|]. by eapply shift_up_Forall.
Qed.

Lemma PopulateNewRoot_fits old key new p p' :
  PopulateNewRoot old key new p = Ret p' → in_int32 old = true → in_int32 key = true → in_int32 new = true →
  Forall internal_cell_fits (array_ p) → Forall internal_cell_fits (array_ p').
Proof.
  unfold PopulateNewRoot. intros Hop Ho Hk Hn Hp. outcome_inv. cbn.
  eapply arr_set_Forall; [done|done|]. by eapply SetValueAt_fits.
Qed.

(** A page whose size changed within its array. *)
Lemma page_size_fits {V} (p : TreePage V) n : page_ok p → length (array_ p) = n → (n ≤ 1000)%nat → in_int32 (size_ p) = true.
Proof. unfold page_ok. intros Hp Hl Hn. apply in_int32_iff. unfold INT32_MIN, INT32_MAX. lia. Qed.

Lemma leaf_fits_change p p' : leaf_fits p → same_header p p' → page_ok p' → Forall leaf_cell_fits (array_ p') → leaf_fits p'.
Proof.
  intros ((_ & Hm & Hp & Hn) & Hl & _) (_ & H1 & H2 & H3 & H4) Hok Hf. split; [|by rewrite H4].
  split_and!; [|congruence..]. eapply page_size_fits; [done|exact (eq_trans H4 Hl)|unfold leaf_cells; lia].
Qed.
Lemma internal_fits_change p p' : internal_fits p → same_header p p' → page_ok p' → Forall internal_cell_fits (array_ p') → internal_fits p'.
Proof.
  intros ((_ & Hm & Hp & Hn) & Hi & Hl & _) (_ & H1 & H2 & H3 & H4) Hok Hf. split; [|rewrite H4, H3; done].
  split_and!; [|congruence..]. eapply page_size_fits; [done|exact (eq_trans H4 Hl)|unfold internal_cells; lia].
Qed.
Lemma leaf_fits_parent id p : leaf_fits p → in_int32 id = true → leaf_fits (SetParentPageId id p).
Proof. intros ((? & ? & ? & ?) & ? & ?) ?. by split. Qed.
Lemma leaf_fits_next id p : leaf_fits p → in_int32 id = true → leaf_fits (SetNextPageId id p).
Proof. intros ((? & ? & ? & ?) & ? & ?) ?. by split. Qed.
Lemma internal_fits_parent id p : internal_fits p → in_int32 id = true → internal_fits (SetParentPageId id p).
Proof. intros ((? & ? & ? & ?) & ? & ? & ?) ?. by split_and!. Qed.

Class NodeLayoutSpec (D : Type) `{NodeLayout D} := {
  layout_ok : D → Prop;
  leaf_view_fits d : layout_ok d → leaf_fits (leaf_view d);
  internal_view_fits d : layout_ok d → internal_fits (internal_view d);
  leaf_view_type d : page_type_ (leaf_view d) = type_at d;
  internal_view_type d : page_type_ (internal_view d) = type_at d;
  put_leaf_ok p d : layout_ok d → leaf_fits p → layout_ok (put_leaf p d) ∧ leaf_view (put_leaf p d) = p;
  put_internal_ok p d : layout_ok d → internal_fits p →
    layout_ok (put_internal p d) ∧ internal_view (put_internal p d) = p;
  put_parent_ok id d : layout_ok d → in_int32 id = true →
    layout_ok (put_parent id d) ∧ leaf_view (put_parent id d) = SetParentPageId id (leaf_view d) ∧
    internal_view (put_parent id d) = SetParentPageId id (internal_view d);
}.

(** ** The bytes *)
Definition int_at (off : nat) (d : list byte) : Z := wraps 32 (le_combine (take 4 (drop off d))).
Definition uint_at (off : nat) (d : list byte) : Z := le_combine (take 4 (drop off d)).

Definition type_code (t : IndexPageType) : Z :=
  match t with INVALID_INDEX_PAGE => 0 | LEAF_PAGE => 1 | INTERNAL_PAGE => 2 end.
Definition type_of_code (z : Z) : IndexPageType :=
  if bool_decide (z = 1) then LEAF_PAGE else if bool_decide (z = 2) then INTERNAL_PAGE else INVALID_INDEX_PAGE.

Fixpoint leaf_cells_at (n off : nat) (d : list byte) : list (Z * RID) :=
  match n with
  | O => []
  | S n' => (int_at off d, mkRID (int_at (off + 4) d) (uint_at (off + 8) d)) :: leaf_cells_at n' (off + 12) d
  end.
Fixpoint internal_cells_at (n off : nat) (d : list byte) : list (Z * Z) :=
  match n with
  | O => []
  | S n' => (int_at off d, int_at (off + 4) d) :: internal_cells_at n' (off + 8) d
  end.

Definition leaf_cell_bytes (c : Z * RID) : list byte :=
  le_split 4 c.1 ++ le_split 4 (page_id_of c.2) ++ le_split 4 (slot_num_of c.2).
Definition internal_cell_bytes (c : Z * Z) : list byte := le_split 4 c.1 ++ le_split 4 c.2.

Definition header_bytes {V} (p : TreePage V) : list byte :=
  le_split 4 (type_code (page_type_ p)) ++ le_split 4 (size_ p) ++ le_split 4 (max_size_ p) ++ le_split 4 (parent_page_id_ p).

#[export] Instance byte_layout : NodeLayout (list byte) := {
  type_at d := type_of_code (int_at 0 d);
  leaf_view d := mkTreePage (type_of_code (int_at 0 d)) (int_at 4 d) (int_at 8 d) (int_at 12 d) (int_at 16 d)
    (leaf_cells_at leaf_cells 20 d);
  internal_view d := mkTreePage (type_of_code (int_at 0 d)) (int_at 4 d) (int_at 8 d) (int_at 12 d) INVALID_PAGE_ID
    (internal_cells_at internal_cells 16 d);
  put_leaf p d := header_bytes p ++ le_split 4 (next_page_id_ p) ++ List.concat (List.map leaf_cell_bytes (array_ p)) ++ drop (Z.to_nat 4088) d;
  put_internal p d := header_bytes p ++ List.concat (List.map internal_cell_bytes (array_ p)) ++ drop (Z.to_nat 4096) d;
  put_parent id d := take 12 d ++ le_split 4 id ++ drop 16 d;
}.

(** ** The laws *)
Lemma int_at_here pre v post :
  in_int32 v = true → int_at (length pre) (pre ++ le_split 4 v ++ post) = v.
Proof.
  intros Hv. unfold int_at. rewrite drop_app_length, take_app_length' by (by rewrite length_le_split).
  rewrite le_combine_split. change (Z.of_nat 4 * 8) with 32. rewrite wraps_mod by lia. by apply wraps_small.
Qed.

Lemma uint_at_here pre v post :
  0 ≤ v < 2 ^ 32 → uint_at (length pre) (pre ++ le_split 4 v ++ post) = v.
Proof.
  intros Hv. unfold uint_at. rewrite drop_app_length, take_app_length' by (by rewrite length_le_split).
  rewrite le_combine_split. change (Z.of_nat 4 * 8) with 32. by apply Z.mod_small.
Qed.

Lemma int_at_fits off d : (off + 4 ≤ length d)%nat → in_int32 (int_at off d) = true.
Proof.
  intros. unfold int_at, wraps. apply in_int32_iff. unfold INT32_MIN, INT32_MAX.
  change (2 ^ (32 - 1)) with 2147483648. change (2 ^ 32) with 4294967296.
  pose proof (Z.mod_pos_bound (le_combine (take 4 (drop off d)) + 2147483648) 4294967296). lia.
Qed.

Lemma uint_at_range off d : (off + 4 ≤ length d)%nat → 0 ≤ uint_at off d < 2 ^ 32.
Proof.
  intros. unfold uint_at. pose proof (le_combine_bound (take 4 (drop off d))) as Hb.
  by replace (length (take 4 (drop off d))) with 4%nat in Hb by (rewrite length_take, length_drop; lia).
Qed.

(** Bytes read at an offset [k] behind a prefix. *)
Lemma int_at_skip k pre d : int_at (length pre + k) (pre ++ d) = int_at k d.
Proof. unfold int_at. by rewrite <-drop_drop, drop_app_length. Qed.
Lemma uint_at_skip k pre d : uint_at (length pre + k) (pre ++ d) = uint_at k d.
Proof. unfold uint_at. by rewrite <-drop_drop, drop_app_length. Qed.

Lemma length_leaf_cell c : length (leaf_cell_bytes c) = 12%nat.
Proof. unfold leaf_cell_bytes. by rewrite !length_app, !length_le_split. Qed.
Lemma length_internal_cell c : length (internal_cell_bytes c) = 8%nat.
Proof. unfold internal_cell_bytes. by rewrite !length_app, !length_le_split. Qed.

Lemma length_cells_bytes {A} (f : A → list byte) n l :
  (∀ c, length (f c) = n) → length (List.concat (List.map f l)) = (length l * n)%nat.
Proof. intros Hf. induction l as [|c l IH]; cbn; [done|]. by rewrite length_app, Hf, IH. Qed.

Lemma leaf_cells_back l : ∀ pre post,
  Forall leaf_cell_fits l →
  leaf_cells_at (length l) (length pre) (pre ++ List.concat (List.map leaf_cell_bytes l) ++ post) = l.
Proof.
  induction l as [|[k [q s]] l IH]; intros pre post Hl; [done|].
  apply Forall_cons in Hl as [(Hk & Hq & Hs) Hl]. cbn in Hk, Hq, Hs.
  cbn [length leaf_cells_at List.map List.concat].
  f_equal; [f_equal; [|f_equal]|].
  - unfold leaf_cell_bytes at 1. rewrite <-!app_assoc. by apply int_at_here.
  - rewrite int_at_skip. unfold leaf_cell_bytes at 1. rewrite <-!app_assoc. rewrite <-(length_le_split 4 k) at 1. by apply int_at_here.
  - rewrite uint_at_skip. unfold leaf_cell_bytes at 1. rewrite <-!app_assoc. rewrite (app_assoc (le_split 4 k)).
    replace 8%nat with (length (le_split 4 k ++ le_split 4 q)) by (by rewrite length_app, !length_le_split).
    by apply uint_at_here.
  - specialize (IH (pre ++ leaf_cell_bytes (k, mkRID q s)) post Hl).
    rewrite length_app, length_leaf_cell in IH. etransitivity; [|exact IH]. by rewrite <-!app_assoc.
Qed.

Lemma internal_cells_back l : ∀ pre post,
  Forall internal_cell_fits l →
  internal_cells_at (length l) (length pre) (pre ++ List.concat (List.map internal_cell_bytes l) ++ post) = l.
Proof.
  induction l as [|[k v] l IH]; intros pre post Hl; [done|].
  apply Forall_cons in Hl as [(Hk & Hv) Hl]. cbn in Hk, Hv.
  cbn [length internal_cells_at List.map List.concat].
  f_equal; [f_equal|].
  - unfold internal_cell_bytes at 1. rewrite <-!app_assoc. by apply int_at_here.
  - rewrite int_at_skip. unfold internal_cell_bytes at 1. rewrite <-!app_assoc. rewrite <-(length_le_split 4 k) at 1. by apply int_at_here.
  - specialize (IH (pre ++ internal_cell_bytes (k, v)) post Hl).
    rewrite length_app, length_internal_cell in IH. etransitivity; [|exact IH]. by rewrite <-!app_assoc.
Qed.

Lemma type_code_back t : type_of_code (type_code t) = t ∧ in_int32 (type_code t) = true.
Proof. by destruct t. Qed.

Lemma leaf_cells_fit n : ∀ off d, (off + n * 12 ≤ length d)%nat →
  length (leaf_cells_at n off d) = n ∧ Forall leaf_cell_fits (leaf_cells_at n off d).
Proof.
  induction n as [|n IH]; intros off d Hd; cbn; [done|].
  destruct (IH (off + 12)%nat d) as [-> Hf]; [lia|]. split; [done|]. constructor; [|done].
  split_and!; [apply int_at_fits; lia|apply int_at_fits; lia|apply uint_at_range; lia..].
Qed.

Lemma internal_cells_fit n : ∀ off d, (off + n * 8 ≤ length d)%nat →
  length (internal_cells_at n off d) = n ∧ Forall internal_cell_fits (internal_cells_at n off d).
Proof.
  induction n as [|n IH]; intros off d Hd; cbn; [done|].
  destruct (IH (off + 8)%nat d) as [-> Hf]; [lia|]. split; [done|]. constructor; [|done].
  split; apply int_at_fits; lia.
Qed.

(** The header members read back. *)
Lemma header_back {V} (p : TreePage V) post :
  header_fits p →
  type_of_code (int_at 0 (header_bytes p ++ post)) = page_type_ p ∧ int_at 4 (header_bytes p ++ post) = size_ p ∧
  int_at 8 (header_bytes p ++ post) = max_size_ p ∧ int_at 12 (header_bytes p ++ post) = parent_page_id_ p.
Proof.
  intros (Hs & Hm & Hp & _). destruct (type_code_back (page_type_ p)) as [Ht Hc]. unfold header_bytes. rewrite <-!app_assoc.
  split_and!.
  - etransitivity; [|exact Ht]. f_equal. exact (int_at_here [] _ _ Hc).
  - rewrite <-(length_le_split 4 (type_code (page_type_ p))) at 1. by apply int_at_here.
  - replace 8%nat with (length (le_split 4 (type_code (page_type_ p)) ++ le_split 4 (size_ p))) by (by rewrite length_app, !length_le_split).
    rewrite (app_assoc _ (le_split 4 (size_ p))). by apply int_at_here.
  - replace 12%nat with (length (le_split 4 (type_code (page_type_ p)) ++ le_split 4 (size_ p) ++ le_split 4 (max_size_ p)))
      by (by rewrite !length_app, !length_le_split).
    rewrite (app_assoc (le_split 4 (size_ p))), (app_assoc _ (le_split 4 (size_ p) ++ _)). by apply int_at_here.
Qed.

Lemma length_header {V} (p : TreePage V) : length (header_bytes p) = 16%nat.
Proof. unfold header_bytes. by rewrite !length_app, !length_le_split. Qed.

(** Overwriting the parent leaves the other bytes. *)
Lemma int_at_ext off d d' : take 4 (drop off d) = take 4 (drop off d') → int_at off d = int_at off d'.
Proof. unfold int_at. by intros ->. Qed.

Lemma put_parent_other id off (d : list byte) :
  (16 ≤ length d)%nat → (off + 4 ≤ 12 ∨ 16 ≤ off)%nat →
  take 4 (drop off (take 12 d ++ le_split 4 id ++ drop 16 d)) = take 4 (drop off d).
Proof.
  intros Hd Hoff. apply list_eq. intros i.
  destruct (decide (i < 4)%nat); [|by rewrite !lookup_take_ge by lia].
  rewrite !lookup_take_lt, !lookup_drop by lia.
  destruct Hoff.
  - rewrite lookup_app_l by (rewrite length_take; lia). by rewrite lookup_take_lt by lia.
  - rewrite lookup_app_r by (rewrite length_take; lia). rewrite lookup_app_r by (rewrite length_take, length_le_split; lia).
    rewrite length_take, length_le_split, lookup_drop. f_equal. lia.
Qed.

Lemma leaf_cells_ext n : ∀ off d d',
  (∀ o, (off ≤ o)%nat → take 4 (drop o d) = take 4 (drop o d')) → leaf_cells_at n off d = leaf_cells_at n off d'.
Proof.
  induction n as [|n IH]; intros off d d' He; cbn; [done|]. unfold int_at, uint_at. rewrite !He by lia.
  f_equal. apply IH. intros o Ho. apply He. lia.
Qed.
Lemma internal_cells_ext n : ∀ off d d',
  (∀ o, (off ≤ o)%nat → take 4 (drop o d) = take 4 (drop o d')) → internal_cells_at n off d = internal_cells_at n off d'.
Proof.
  induction n as [|n IH]; intros off d d' He; cbn; [done|]. unfold int_at. rewrite !He by lia.
  f_equal. apply IH. intros o Ho. apply He. lia.
Qed.

#[export, refine] Instance byte_layout_spec : NodeLayoutSpec (list byte) := {
  layout_ok d := Z.of_nat (length d) = ONEBASE_PAGE_SIZE;
}.
Proof.
  all: unfold ONEBASE_PAGE_SIZE.
  - intros d Hd. destruct (leaf_cells_fit leaf_cells 20 d) as [Hl Hf]; [unfold leaf_cells; lia|].
    split; [split_and!; apply int_at_fits; lia|]. by split.
  - intros d Hd. destruct (internal_cells_fit internal_cells 16 d) as [Hl Hf]; [unfold internal_cells; lia|].
    split; [split_and!; try apply int_at_fits; try done; lia|]. by split_and!.
  - intros d. reflexivity.
  - intros d. reflexivity.
  - intros p d Hd (Hh & Hl & Hf). cbn [put_leaf put_internal put_parent leaf_view internal_view type_at byte_layout page_type_ size_ max_size_ parent_page_id_ next_page_id_ array_]. pose proof (length_cells_bytes leaf_cell_bytes 12 (array_ p) length_leaf_cell) as Hlc.
    rewrite Hl in Hlc. unfold leaf_cells in Hlc, Hl. split.
    + rewrite !length_app, length_header, length_le_split, Hlc, length_drop. lia.
    + destruct (header_back p (le_split 4 (next_page_id_ p) ++ List.concat (List.map leaf_cell_bytes (array_ p)) ++ drop (Z.to_nat 4088) d) Hh)
        as (-> & -> & -> & ->). destruct Hh as (_ & _ & _ & Hn).
      rewrite <-(length_header p) at 1. rewrite int_at_here by done.
      replace 20%nat with (length (header_bytes p ++ le_split 4 (next_page_id_ p))) by (by rewrite length_app, length_header, length_le_split).
      rewrite (app_assoc (header_bytes p)). replace leaf_cells with (length (array_ p)). rewrite leaf_cells_back by done. destruct p; reflexivity.
  - intros p d Hd (Hh & Hn & Hl & Hf). cbn [put_leaf put_internal put_parent leaf_view internal_view type_at byte_layout page_type_ size_ max_size_ parent_page_id_ next_page_id_ array_]. pose proof (length_cells_bytes internal_cell_bytes 8 (array_ p) length_internal_cell) as Hlc.
    rewrite Hl in Hlc. unfold internal_cells in Hlc, Hl. split.
    + rewrite !length_app, length_header, Hlc, length_drop. lia.
    + destruct (header_back p (List.concat (List.map internal_cell_bytes (array_ p)) ++ drop (Z.to_nat 4096) d) Hh) as (-> & -> & -> & ->).
      replace (internal_cells_at internal_cells 16) with (internal_cells_at (length (array_ p)) (length (header_bytes p)))
        by (by rewrite length_header, Hl).
      rewrite internal_cells_back by done. rewrite <-Hn. destruct p; reflexivity.
  - intros id d Hd Hid. cbn [put_parent leaf_view internal_view byte_layout page_type_ size_ max_size_ parent_page_id_ next_page_id_ array_].
    assert (∀ off, (off + 4 ≤ 12 ∨ 16 ≤ off)%nat → int_at off (take 12 d ++ le_split 4 id ++ drop 16 d) = int_at off d) as Hother.
    { intros off Hoff. apply int_at_ext, put_parent_other; lia. }
    assert (int_at 12 (take 12 d ++ le_split 4 id ++ drop 16 d) = id) as Hparent.
    { replace 12%nat with (length (take 12 d)) at 1 by (rewrite length_take; lia). by apply int_at_here. }
    unfold SetParentPageId. cbn [put_parent leaf_view internal_view byte_layout page_type_ size_ max_size_ parent_page_id_ next_page_id_ array_]. rewrite (Hother 0%nat), (Hother 4%nat), (Hother 8%nat), (Hother 16%nat), Hparent by lia. split_and!.
    + rewrite !length_app, length_take, length_le_split, length_drop. lia.
    + f_equal. apply leaf_cells_ext. intros o Ho. apply put_parent_other; lia.
    + f_equal. apply internal_cells_ext. intros o Ho. apply put_parent_other; lia.
Defined.
