(* ===== verification/BPlusTree.v ===== *)
(** * The B+ tree index

    Models [src/storage/index/b_plus_tree.cpp] and [b_plus_tree_iterator.cpp] over
    any page store and any layout of the nodes in its pages.  A [Page *] is the
    frame that the store returned; a method of a page is an operation on the view
    of the frame's data, which is written back when the operation changed it.
    Loops along a path of the tree take a number of rounds: one more than the
    height is enough. *)
From S2P Require Import Prelude Interfaces Tuple BPlusTreePage NodeLayout.

#[local] Open Scope Z_scope.
#[local] Coercion Z.of_nat : nat >-> Z.

#[export] Instance TreePage_eq_dec {V} `{EqDecision V} : EqDecision (TreePage V).
Proof. solve_decision. Defined.

Record BPlusTree (St : Type) := mkTree {
  bpm_ : St;
  root_page_id_ : Z;
  leaf_max_size_ : Z;
  internal_max_size_ : Z;
}.
Arguments mkTree {St}.
Arguments bpm_ {St}.
Arguments root_page_id_ {St}.
Arguments leaf_max_size_ {St}.
Arguments internal_max_size_ {St}.

Record Iterator := mkIterator { it_page_id : Z; it_index : Z; it_bpm : bool }.

Section operations.
Context {St D : Type} `{PageStore St D} `{NodeLayout D}.
Abbreviation tree := (BPlusTree St).

Definition BPlusTree_new (bpm : St) (leaf_max_size internal_max_size : Z) : tree :=
  mkTree bpm INVALID_PAGE_ID
    (if bool_decide (leaf_max_size = 0) then leaf_default_max_size else leaf_max_size)
    (if bool_decide (internal_max_size = 0) then internal_default_max_size else internal_max_size).

Definition set_bpm (s : St) (t : tree) : tree := mkTree s (root_page_id_ t) (leaf_max_size_ t) (internal_max_size_ t).
Definition set_root (id : Z) : M tree unit :=
  modify (fun t => mkTree (bpm_ t) id (leaf_max_size_ t) (internal_max_size_ t)).
Definition on_bpm {A} (m : M St A) : M tree A := zoom bpm_ set_bpm m.

Definition FetchPage (page_id : Z) : M tree (option Z) := on_bpm (ps_fetch_page page_id).
Definition NewPage : M tree (option (Z * Z)) := on_bpm ps_new_page.
Definition UnpinPage (page_id : Z) (is_dirty : bool) : M tree bool := on_bpm (ps_unpin_page page_id is_dirty).
Definition DeletePage (page_id : Z) : M tree bool := on_bpm (ps_delete_page page_id).

(** ** Pages through pointers *)
Definition is_leaf_at (f : Z) : M tree bool :=
  d ← on_bpm (ps_get_data f); mret (bool_decide (type_at d = LEAF_PAGE)).
Definition leaf_at (f : Z) : M tree (TreePage RID) := d ← on_bpm (ps_get_data f); mret (leaf_view d).
Definition internal_at (f : Z) : M tree (TreePage Z) := d ← on_bpm (ps_get_data f); mret (internal_view d).

(** A method that changes a page. *)
Definition edit_leaf {A} (f : Z) (op : TreePage RID → outcome (A * TreePage RID)) : M tree A :=
  d ← on_bpm (ps_get_data f);
  r ← lift (op (leaf_view d));
  (if decide (r.2 = leaf_view d) then mret tt else on_bpm (ps_set_data f (put_leaf r.2 d)));;
  mret r.1.
Definition edit_internal {A} (f : Z) (op : TreePage Z → outcome (A * TreePage Z)) : M tree A :=
  d ← on_bpm (ps_get_data f);
  r ← lift (op (internal_view d));
  (if decide (r.2 = internal_view d) then mret tt else on_bpm (ps_set_data f (put_internal r.2 d)));;
  mret r.1.
Definition edit_parent (f id : Z) : M tree unit :=
  d ← on_bpm (ps_get_data f); on_bpm (ps_set_data f (put_parent id d)).

(** A method that takes a second page. *)
Definition edit_leaves (f g : Z) (op : TreePage RID → TreePage RID → outcome (TreePage RID * TreePage RID)) : M tree unit :=
  p ← leaf_at f;
  q ← leaf_at g;
  r ← lift (op p q);
  edit_leaf f (fun _ => Ret (tt, r.1));;
  edit_leaf g (fun _ => Ret (tt, r.2)).
Definition edit_internals (f g : Z) (op : TreePage Z → TreePage Z → outcome (TreePage Z * TreePage Z)) : M tree unit :=
  p ← internal_at f;
  q ← internal_at g;
  r ← lift (op p q);
  edit_internal f (fun _ => Ret (tt, r.1));;
  edit_internal g (fun _ => Ret (tt, r.2)).

(** A setter. *)
Definition pure_op {V} (g : TreePage V → TreePage V) : TreePage V → outcome (unit * TreePage V) :=
  fun p => Ret (tt, g p).
Definition void_op {V} (g : TreePage V → outcome (TreePage V)) : TreePage V → outcome (unit * TreePage V) :=
  fun p => p' ← g p; mret (tt, p').

(** ** Search *)
Definition IsEmpty : M tree bool := gets (fun t => bool_decide (root_page_id_ t = INVALID_PAGE_ID)).

(** The loop [while (!tree_page->IsLeafPage())] from the page in frame [f]; the
    leaf that it ends in stays pinned. *)
Fixpoint descend (fuel : nat) (choose : TreePage Z → outcome Z) (page_id f : Z) : M tree (option (Z * Z)) :=
  match fuel with
  | O => lift OutOfFuel
  | S fuel' =>
    leaf ← is_leaf_at f;
    if leaf : bool then mret (Some (page_id, f))
    else
      internal_page ← internal_at f;
      child_page_id ← lift (choose internal_page);
      UnpinPage page_id false;;
      page ← FetchPage child_page_id;
      match page with
      | None => mret None
      | Some g => descend fuel' choose child_page_id g
      end
  end.

(** From the root. *)
Definition descend_root (fuel : nat) (choose : TreePage Z → outcome Z) : M tree (option (Z * Z)) :=
  page_id ← gets root_page_id_;
  page ← FetchPage page_id;
  match page with
  | None => mret None
  | Some f => descend fuel choose page_id f
  end.

(** The result is what is appended to [*result]. *)
Definition GetValue (fuel : nat) (key : Z) : M tree (option RID) :=
  empty ← IsEmpty;
  if empty : bool then mret None
  else
    leaf ← descend_root fuel (Internal_Lookup key);
    match leaf with
    | None => mret None
    | Some (page_id, f) =>
      leaf_page ← leaf_at f;
      found ← lift (Leaf_Lookup key leaf_page);
      UnpinPage page_id false;;
      mret found
    end.

Definition FindLeafPage (fuel : nat) (key : Z) : M tree Z :=
  empty ← IsEmpty;
  if empty : bool then mret INVALID_PAGE_ID
  else
    leaf ← descend_root fuel (Internal_Lookup key);
    match leaf with
    | None => mret INVALID_PAGE_ID
    | Some (page_id, f) => UnpinPage page_id false;; mret page_id
    end.

(** ** Insertion *)

(** [for (i...) child(i)->SetParentPageId(parent)] over the children [i], [i + 1],
    ... of the page in frame [g]. *)
Fixpoint adopt_children (n : nat) (i g parent : Z) : M tree unit :=
  match n with
  | O => mret tt
  | S n' =>
    new_internal ← internal_at g;
    child_id ← lift (ValueAt i new_internal);
    child_page ← FetchPage child_id;
    match child_page with
    | None => adopt_children n' (i + 1) g parent
    | Some c =>
      edit_parent c parent;;
      UnpinPage child_id true;;
      adopt_children n' (i + 1) g parent
    end
  end.

(** A new root above the pages [old_id] in frame [f] and [new_id] in frame [g]. *)
Definition grow_root (set_parent : Z → Z → M tree unit) (old_id f middle_key new_id g : Z) : M tree unit :=
  new_root_page ← NewPage;
  match new_root_page with
  | None =>
    UnpinPage old_id true;;
    UnpinPage new_id true;;
    mret tt
  | Some (new_root_id, r) =>
    internal_max ← gets internal_max_size_;
    edit_internal r (pure_op (Internal_Init internal_max));;
    edit_internal r (void_op (PopulateNewRoot old_id middle_key new_id));;
    set_parent f new_root_id;;
    set_parent g new_root_id;;
    set_root new_root_id;;
    UnpinPage old_id true;;
    UnpinPage new_id true;;
    UnpinPage new_root_id true;;
    mret tt
  end.
Definition set_leaf_parent (f id : Z) : M tree unit := edit_leaf f (pure_op (SetParentPageId id)).
Definition set_internal_parent (f id : Z) : M tree unit := edit_internal f (pure_op (SetParentPageId id)).

Definition SplitInternal (InsertIntoParent : Z → Z → Z → Z → M tree unit) (f internal_page_id : Z) : M tree unit :=
  new_page ← NewPage;
  match new_page with
  | None => UnpinPage internal_page_id true;; mret tt
  | Some (new_page_id, g) =>
    internal_max ← gets internal_max_size_;
    edit_internal g (pure_op (Internal_Init internal_max));;
    internal_page ← internal_at f;
    let split_idx := Z.quot (size_ internal_page) 2 in
    middle_key ← lift (KeyAt split_idx internal_page);
    edit_internals f g (fun p q => Internal_MoveHalfTo p q middle_key);;
    new_internal ← internal_at g;
    adopt_children (Z.to_nat (size_ new_internal)) 0 g new_page_id;;
    internal_page ← internal_at f;
    if IsRootPage internal_page then
      grow_root set_internal_parent internal_page_id f middle_key new_page_id g
    else
      let parent_id := parent_page_id_ internal_page in
      set_internal_parent g parent_id;;
      UnpinPage internal_page_id true;;
      UnpinPage new_page_id true;;
      InsertIntoParent parent_id internal_page_id middle_key new_page_id
  end.

Fixpoint InsertIntoParent (fuel : nat) (parent_id old_child_id key new_child_id : Z) : M tree unit :=
  match fuel with
  | O => lift OutOfFuel
  | S fuel' =>
    parent_page ← FetchPage parent_id;
    match parent_page with
    | None => mret tt
    | Some f =>
      edit_internal f (InsertNodeAfter old_child_id key new_child_id);;
      parent ← internal_at f;
      if bool_decide (max_size_ parent < size_ parent) then SplitInternal (InsertIntoParent fuel') f parent_id
      else UnpinPage parent_id true;; mret tt
    end
  end.

Definition Split (fuel : nat) (f leaf_page_id : Z) : M tree unit :=
  new_page ← NewPage;
  match new_page with
  | None => UnpinPage leaf_page_id true;; mret tt
  | Some (new_page_id, g) =>
    leaf_max ← gets leaf_max_size_;
    edit_leaf g (pure_op (Leaf_Init leaf_max));;
    edit_leaves f g Leaf_MoveHalfTo;;
    leaf_page ← leaf_at f;
    edit_leaf g (pure_op (SetNextPageId (next_page_id_ leaf_page)));;
    edit_leaf f (pure_op (SetNextPageId new_page_id));;
    new_leaf ← leaf_at g;
    middle_key ← lift (KeyAt 0 new_leaf);
    if IsRootPage leaf_page then
      grow_root set_leaf_parent leaf_page_id f middle_key new_page_id g
    else
      let parent_id := parent_page_id_ leaf_page in
      set_leaf_parent g parent_id;;
      UnpinPage leaf_page_id true;;
      UnpinPage new_page_id true;;
      InsertIntoParent fuel parent_id leaf_page_id middle_key new_page_id
  end.

Definition Insert (fuel : nat) (key : Z) (value : RID) : M tree bool :=
  empty ← IsEmpty;
  if empty : bool then
    new_page ← NewPage;
    match new_page with
    | None => mret false
    | Some (new_page_id, f) =>
      leaf_max ← gets leaf_max_size_;
      edit_leaf f (pure_op (Leaf_Init leaf_max));;
      edit_leaf f (Leaf_Insert key value);;
      set_root new_page_id;;
      UnpinPage new_page_id true;;
      mret true
    end
  else
    leaf ← descend_root fuel (Internal_Lookup key);
    match leaf with
    | None => mret false
    | Some (page_id, f) =>
      leaf_page ← leaf_at f;
      let old_size := size_ leaf_page in
      new_size ← edit_leaf f (Leaf_Insert key value);
      if bool_decide (new_size = old_size) then UnpinPage page_id false;; mret false
      else
        leaf_page ← leaf_at f;
        (if bool_decide (max_size_ leaf_page < size_ leaf_page) then Split fuel f page_id
         else UnpinPage page_id true;; mret tt);;
        mret true
    end.

(** ** Removal *)

(** The sibling of child [index]: the left one if there is one. *)
Definition choose_sibling (index : Z) (parent : TreePage Z) : outcome (Z * bool) :=
  if bool_decide (0 < index) then sibling_id ← ValueAt (index - 1) parent; mret (sibling_id, true)
  else if bool_decide (index < size_ parent - 1) then sibling_id ← ValueAt (index + 1) parent; mret (sibling_id, false)
  else mret (INVALID_PAGE_ID, false).

(** The end of both merges: the parent is merged in turn, replaced by its only
    child when it is the root, or left. *)
Definition shrink_parent (CoalesceOrRedistributeInternal : Z → Z → M tree unit) (pf parent_id : Z) : M tree unit :=
  parent ← internal_at pf;
  if bool_decide (size_ parent < GetMinSize parent) && negb (IsRootPage parent) then
    CoalesceOrRedistributeInternal pf parent_id
  else if IsRootPage parent && bool_decide (size_ parent = 1) then
    new_root_id ← edit_internal pf RemoveAndReturnOnlyChild;
    set_root new_root_id;;
    new_root_page ← FetchPage new_root_id;
    match new_root_page with
    | None => mret tt
    | Some r => edit_parent r INVALID_PAGE_ID;; UnpinPage new_root_id true;; mret tt
    end;;
    UnpinPage parent_id true;;
    DeletePage parent_id;;
    mret tt
  else UnpinPage parent_id true;; mret tt.

(** [child_page->SetParentPageId(parent)] for a child that moved. *)
Definition adopt_one (child_id parent : Z) : M tree unit :=
  child_page ← FetchPage child_id;
  match child_page with
  | None => mret tt
  | Some c => edit_parent c parent;; UnpinPage child_id true;; mret tt
  end.

Definition redistribute_internal (f internal_page_id sf sibling_id pf parent_id index : Z) (is_left_sibling : bool) : M tree unit :=
  parent ← internal_at pf;
  (if is_left_sibling then
     middle_key ← lift (KeyAt index parent);
     edit_internals sf f (fun p q => Internal_MoveLastToFrontOf p q middle_key);;
     internal_page ← internal_at f;
     separator ← lift (KeyAt 0 internal_page);
     edit_internal pf (void_op (SetKeyAt index separator));;
     moved_child_id ← lift (ValueAt 0 internal_page);
     adopt_one moved_child_id internal_page_id
   else
     middle_key ← lift (KeyAt (index + 1) parent);
     edit_internals sf f (fun p q => Internal_MoveFirstToEndOf p q middle_key);;
     sibling ← internal_at sf;
     separator ← lift (KeyAt 0 sibling);
     edit_internal pf (void_op (SetKeyAt (index + 1) separator));;
     internal_page ← internal_at f;
     moved_child_id ← lift (ValueAt (size_ internal_page - 1) internal_page);
     adopt_one moved_child_id internal_page_id);;
  UnpinPage internal_page_id true;;
  UnpinPage sibling_id true;;
  UnpinPage parent_id true;;
  mret tt.

(** The page in frame [f] is appended to the one in frame [g]; the loop over the
    moved children runs up to the size that the page has after the move. *)
Definition absorb (f g into_id middle_key : Z) : M tree unit :=
  edit_internals f g (fun p q => Internal_MoveAllTo p q middle_key);;
  moved ← internal_at f;
  into ← internal_at g;
  adopt_children (Z.to_nat (size_ moved)) (size_ into - size_ moved) g into_id.

Definition merge_internal (f internal_page_id sf sibling_id pf index : Z) (is_left_sibling : bool) : M tree unit :=
  parent ← internal_at pf;
  if is_left_sibling then
    middle_key ← lift (KeyAt index parent);
    absorb f sf sibling_id middle_key;;
    edit_internal pf (void_op (Internal_Remove index));;
    UnpinPage internal_page_id true;;
    UnpinPage sibling_id true;;
    DeletePage internal_page_id;;
    mret tt
  else
    middle_key ← lift (KeyAt (index + 1) parent);
    absorb sf f internal_page_id middle_key;;
    edit_internal pf (void_op (Internal_Remove (index + 1)));;
    UnpinPage internal_page_id true;;
    UnpinPage sibling_id true;;
    DeletePage sibling_id;;
    mret tt.

Fixpoint CoalesceOrRedistributeInternal (fuel : nat) (f internal_page_id : Z) : M tree unit :=
  match fuel with
  | O => lift OutOfFuel
  | S fuel' =>
    internal_page ← internal_at f;
    let parent_id := parent_page_id_ internal_page in
    parent_page ← FetchPage parent_id;
    match parent_page with
    | None => UnpinPage internal_page_id true;; mret tt
    | Some pf =>
      parent ← internal_at pf;
      index ← lift (ValueIndex internal_page_id parent);
      '(sibling_id, is_left_sibling) ← lift (choose_sibling index parent);
      if bool_decide (sibling_id = INVALID_PAGE_ID) then
        UnpinPage internal_page_id true;;
        UnpinPage parent_id false;;
        mret tt
      else
        sibling_page ← FetchPage sibling_id;
        match sibling_page with
        | None =>
          UnpinPage internal_page_id true;;
          UnpinPage parent_id false;;
          mret tt
        | Some sf =>
          sibling ← internal_at sf;
          if bool_decide (GetMinSize sibling < size_ sibling) then
            redistribute_internal f internal_page_id sf sibling_id pf parent_id index is_left_sibling
          else
            merge_internal f internal_page_id sf sibling_id pf index is_left_sibling;;
            shrink_parent (CoalesceOrRedistributeInternal fuel') pf parent_id
        end
    end
  end.

Definition redistribute_leaf (f leaf_page_id sf sibling_id pf parent_id index : Z) (is_left_sibling : bool) : M tree unit :=
  (if is_left_sibling then
     edit_leaves sf f Leaf_MoveLastToFrontOf;;
     leaf_page ← leaf_at f;
     separator ← lift (KeyAt 0 leaf_page);
     edit_internal pf (void_op (SetKeyAt index separator))
   else
     edit_leaves sf f Leaf_MoveFirstToEndOf;;
     sibling ← leaf_at sf;
     separator ← lift (KeyAt 0 sibling);
     edit_internal pf (void_op (SetKeyAt (index + 1) separator)));;
  UnpinPage leaf_page_id true;;
  UnpinPage sibling_id true;;
  UnpinPage parent_id true;;
  mret tt.

Definition merge_leaf (f leaf_page_id sf sibling_id pf index : Z) (is_left_sibling : bool) : M tree unit :=
  if is_left_sibling then
    edit_leaves f sf Leaf_MoveAllTo;;
    leaf_page ← leaf_at f;
    edit_leaf sf (pure_op (SetNextPageId (next_page_id_ leaf_page)));;
    edit_internal pf (void_op (Internal_Remove index));;
    UnpinPage leaf_page_id true;;
    UnpinPage sibling_id true;;
    DeletePage leaf_page_id;;
    mret tt
  else
    edit_leaves sf f Leaf_MoveAllTo;;
    sibling ← leaf_at sf;
    edit_leaf f (pure_op (SetNextPageId (next_page_id_ sibling)));;
    edit_internal pf (void_op (Internal_Remove (index + 1)));;
    UnpinPage leaf_page_id true;;
    UnpinPage sibling_id true;;
    DeletePage sibling_id;;
    mret tt.

Definition CoalesceOrRedistribute (fuel : nat) (f leaf_page_id : Z) : M tree unit :=
  leaf_page ← leaf_at f;
  let parent_id := parent_page_id_ leaf_page in
  parent_page ← FetchPage parent_id;
  match parent_page with
  | None => UnpinPage leaf_page_id true;; mret tt
  | Some pf =>
    parent ← internal_at pf;
    index ← lift (ValueIndex leaf_page_id parent);
    '(sibling_id, is_left_sibling) ← lift (choose_sibling index parent);
    if bool_decide (sibling_id = INVALID_PAGE_ID) then
      if IsRootPage parent && bool_decide (size_ parent = 1) then
        set_root leaf_page_id;;
        set_leaf_parent f INVALID_PAGE_ID;;
        UnpinPage leaf_page_id true;;
        UnpinPage parent_id true;;
        DeletePage parent_id;;
        mret tt
      else
        UnpinPage leaf_page_id true;;
        UnpinPage parent_id false;;
        mret tt
    else
      sibling_page ← FetchPage sibling_id;
      match sibling_page with
      | None =>
        UnpinPage leaf_page_id true;;
        UnpinPage parent_id false;;
        mret tt
      | Some sf =>
        sibling ← leaf_at sf;
        if bool_decide (GetMinSize sibling < size_ sibling) then
          redistribute_leaf f leaf_page_id sf sibling_id pf parent_id index is_left_sibling
        else
          merge_leaf f leaf_page_id sf sibling_id pf index is_left_sibling;;
          shrink_parent (CoalesceOrRedistributeInternal fuel) pf parent_id
      end
  end.

Definition Remove (fuel : nat) (key : Z) : M tree unit :=
  empty ← IsEmpty;
  if empty : bool then mret tt
  else
    leaf_page_id ← FindLeafPage fuel key;
    if bool_decide (leaf_page_id = INVALID_PAGE_ID) then mret tt
    else
      page ← FetchPage leaf_page_id;
      match page with
      | None => mret tt
      | Some f =>
        edit_leaf f (Leaf_RemoveAndDeleteRecord key);;
        leaf_page ← leaf_at f;
        if bool_decide (size_ leaf_page < GetMinSize leaf_page) && negb (IsRootPage leaf_page) then
          CoalesceOrRedistribute fuel f leaf_page_id
        else if bool_decide (size_ leaf_page = 0) && IsRootPage leaf_page then
          set_root INVALID_PAGE_ID;;
          UnpinPage leaf_page_id true;;
          DeletePage leaf_page_id;;
          mret tt
        else UnpinPage leaf_page_id true;; mret tt
      end.

(** ** Iterators *)
Definition End : Iterator := mkIterator INVALID_PAGE_ID 0 false.

Definition Begin (fuel : nat) : M tree Iterator :=
  empty ← IsEmpty;
  if empty : bool then mret End
  else
    leaf ← descend_root fuel (ValueAt 0);
    match leaf with
    | None => mret End
    | Some (page_id, f) => UnpinPage page_id false;; mret (mkIterator page_id 0 true)
    end.

(** The leaf is read through the pointer after it has been unpinned. *)
Definition Begin_key (fuel : nat) (key : Z) : M tree Iterator :=
  empty ← IsEmpty;
  if empty : bool then mret End
  else
    leaf ← descend_root fuel (Internal_Lookup key);
    match leaf with
    | None => mret End
    | Some (page_id, f) =>
      leaf_page ← leaf_at f;
      index ← lift (KeyIndex key leaf_page);
      UnpinPage page_id false;;
      leaf_page ← leaf_at f;
      if bool_decide (size_ leaf_page ≤ index) then mret (mkIterator (next_page_id_ leaf_page) 0 true)
      else mret (mkIterator page_id index true)
    end.

Definition IsEnd (it : Iterator) : bool := bool_decide (it_page_id it = INVALID_PAGE_ID).

Definition Iterator_deref (it : Iterator) : M tree (Z * RID) :=
  if IsEnd it || negb (it_bpm it) then lift (Throw (RuntimeError "BPlusTreeIterator::operator*: invalid iterator"))
  else
    page ← FetchPage (it_page_id it);
    match page with
    | None => lift (Throw (RuntimeError "BPlusTreeIterator::operator*: page fetch failed"))
    | Some f =>
      leaf_page ← leaf_at f;
      first ← lift (KeyAt (it_index it) leaf_page);
      second ← lift (ValueAt (it_index it) leaf_page);
      UnpinPage (it_page_id it) false;;
      mret (first, second)
    end.

(** The page is unpinned under the id that the iterator has by then. *)
Definition Iterator_next (it : Iterator) : M tree Iterator :=
  if IsEnd it || negb (it_bpm it) then mret it
  else
    page ← FetchPage (it_page_id it);
    match page with
    | None => mret (mkIterator INVALID_PAGE_ID (it_index it) (it_bpm it))
    | Some f =>
      leaf_page ← leaf_at f;
      let it :=
        if bool_decide (size_ leaf_page ≤ it_index it + 1) then mkIterator (next_page_id_ leaf_page) 0 true
        else mkIterator (it_page_id it) (it_index it + 1) true in
      UnpinPage (it_page_id it) false;;
      mret it
    end.

Definition Iterator_eq (it other : Iterator) : bool :=
  bool_decide (it_page_id it = it_page_id other) && bool_decide (it_index it = it_index other).
End operations.
