(* ===== verification/TreeInvariant.v ===== *)
(** * The shape of a B+ tree

    The tree as a finite map from page ids to nodes, with the invariant that makes
    it a map from keys to values: every key is routed from the root to a leaf, and
    the leaf has the value of the key.  Between the split of a node and the insert
    into its parent the new node is not linked yet; the invariant then holds with a
    redirection: a key from the middle key on that is routed to the old node counts
    as routed to the new one. *)
From Stdlib Require Import Sorting.Sorted.
From stdpp Require sorting.
From S2P Require Import Prelude Interfaces Tuple BPlusTreePage.

#[local] Open Scope Z_scope.
#[local] Coercion Z.of_nat : nat >-> Z.

(** A node, or a page that has not been initialised. *)
Inductive node :=
  | NLeaf (p : TreePage RID)
  | NInternal (p : TreePage Z)
  | NNew.

Definition node_parent (nd : node) : Z :=
  match nd with NLeaf p => parent_page_id_ p | NInternal p => parent_page_id_ p | NNew => INVALID_PAGE_ID end.
Definition set_node_parent (id : Z) (nd : node) : node :=
  match nd with
  | NLeaf p => NLeaf (SetParentPageId id p)
  | NInternal p => NInternal (SetParentPageId id p)
  | NNew => NNew
  end.

(** The keys that must be routed to the node. *)
Definition has_key (nd : node) (key : Z) : Prop :=
  match nd with NLeaf p => is_Some (leaf_map p !! key) | NInternal p => key ∈ separators p | NNew => False end.
Definition children (nd : node) : list Z :=
  match nd with NInternal p => (cells p).*2 | _ => [] end.

Definition node_step (key : Z) (nd : node) : option Z :=
  match nd with
  | NInternal p => match Internal_Lookup key p with Ret c => Some c | _ => None end
  | _ => None
  end.

Definition node_ok (nd : node) : Prop :=
  match nd with
  | NLeaf p => leaf_ok p
  | NInternal p => internal_ok p ∧ NoDup (cells p).*2
  | NNew => False
  end.

(** A split whose new node is not linked: the old node, the middle key, the new node. *)
Definition redirection : Type := option (Z * Z * Z).
Definition redirect (ρ : redirection) (key id : Z) : Z :=
  match ρ with
  | Some (old, middle, new) => if bool_decide (id = old ∧ middle ≤ key) then new else id
  | None => id
  end.

(** The leaf behind a leaf. *)
Definition leaf_next (nodes : gmap Z node) (id : Z) : option Z :=
  match nodes !! id with Some (NLeaf p) => Some (next_page_id_ p) | _ => None end.

(** Each leaf of the list points to the one behind it, the last one to none. *)
Fixpoint linked (next : Z → option Z) (L : list Z) : Prop :=
  match L with
  | [] => True
  | a :: L' => next a = Some (match L' with b :: _ => b | [] => INVALID_PAGE_ID end) ∧ linked next L'
  end.

(** Keys that are routed to [a] are smaller than those that are routed to [b]. *)
Definition routed_before (to_leaf : Z → option Z) (a b : Z) : Prop := ∀ k k', to_leaf k = Some a → to_leaf k' = Some b → k < k'.

(** The leaves are linked in the order of their keys; the first one gets the smallest. *)
Record leaf_chain (next : Z → option Z) (to_leaf : Z → option Z) (L : list Z) : Prop := {
  chain_linked : linked next L;
  chain_all id : is_Some (next id) → id ∈ L;
  chain_nodup : NoDup L;
  chain_sorted : StronglySorted (routed_before to_leaf) L;
  chain_first : ∃ k0, ∀ k, k ≤ k0 → to_leaf k = head L;
}.

Lemma linked_ext next next' L : (∀ a, a ∈ L → next' a = next a) → linked next L → linked next' L.
Proof.
  induction L as [|a L IH]; [done|]. intros He [Ha Hl]. split; [rewrite He by (by left); done|]. apply IH; [|done]. intros b Hb. apply He. by right.
Qed.

Lemma sorted_mono {A} (R R' : A → A → Prop) L : (∀ a b, a ∈ L → b ∈ L → R a b → R' a b) → StronglySorted R L → StronglySorted R' L.
Proof.
  intros Hr. induction 1 as [|a L Hs IH Hf]; constructor.
  - apply IH. intros b c Hb Hc. apply Hr; by right.
  - rewrite Forall_forall in Hf |- *. intros b Hb. apply Hr; [by left|by right|by apply Hf].
Qed.

Lemma leaf_chain_ext next next' to_leaf to_leaf' L :
  (∀ a, next' a = next a) → (∀ k, to_leaf' k = to_leaf k) → leaf_chain next to_leaf L → leaf_chain next' to_leaf' L.
Proof.
  intros Hn Ht [Hl Ha Hd Hs (k0 & Hf)]. split; [by eapply (linked_ext next)|intros id; rewrite Hn; apply Ha|done| |].
  - eapply sorted_mono; [|exact Hs]. intros a b _ _ Hab k k'. rewrite !Ht. apply Hab.
  - exists k0. intros k Hk. rewrite Ht. by apply Hf.
Qed.

Lemma linked_split next next' L1 old new L2 :
  linked next (L1 ++ old :: L2) → NoDup (L1 ++ old :: L2) → next' old = Some new → next' new = next old →
  (∀ a, a ∈ L1 ++ L2 → next' a = next a) → linked next' (L1 ++ old :: new :: L2).
Proof.
  induction L1 as [|a L1 IH]; cbn [app linked]; intros Hl Hd Ho Hn Ha.
  - destruct Hl as [Hold Hl]. split_and!; [done|by rewrite Hn|]. by eapply linked_ext.
  - destruct Hl as [Hna Hl]. apply NoDup_cons in Hd as [_ Hd]. split.
    + rewrite Ha by (by left). rewrite Hna. by destruct L1.
    + apply IH; [done..|]. intros b Hb. apply Ha. by right.
Qed.

(** A leaf is split: the new one comes behind it and takes the keys from the middle
    key on. *)
Lemma leaf_chain_split next next' to_leaf to_leaf' L old middle new :
  leaf_chain next to_leaf L → is_Some (next old) → next new = None → (∀ k, to_leaf k ≠ Some new) →
  next' old = Some new → next' new = next old → (∀ a, a ≠ old → a ≠ new → next' a = next a) →
  (∀ k, to_leaf' k = redirect (Some (old, middle, new)) k <$> to_leaf k) →
  ∃ L', leaf_chain next' to_leaf' L'.
Proof.
  intros [Hl Ha Hd Hs (k0 & Hf)] Hold Hfresh Hnone Ho Hn Hother Ht.
  assert (new ∉ L) as Hnew.
  { clear -Hl Hfresh. induction L as [|a L IH]; [by apply not_elem_of_nil|]. destruct Hl as [Hna Hl]. intros [->|Hin]%elem_of_cons; [congruence|by apply IH]. }
  assert (old ∈ L) as (L1 & L2 & ->)%list_elem_of_split by by apply Ha.
  exists (L1 ++ old :: new :: L2). apply NoDup_app in Hd as Hd'. destruct Hd' as (Hd1 & Hd12 & [Hd3 Hd2]%NoDup_cons).
  assert (∀ k a, a ≠ old → a ≠ new → to_leaf' k = Some a → to_leaf k = Some a) as Hsame.
  { intros k a Hao Han. rewrite Ht. destruct (to_leaf k) as [b|]; [|done]. cbn. case_bool_decide; intros [= <-]; done. }
  assert (∀ k, to_leaf' k = Some old → to_leaf k = Some old ∧ k < middle) as Hisold.
  { intros k. rewrite Ht. destruct (to_leaf k) as [b|]; [|done]. cbn. case_bool_decide as Hb; intros [= <-]; [by destruct (Hnew); set_solver|]. split; [done|lia]. }
  assert (∀ k, to_leaf' k = Some new → to_leaf k = Some old ∧ middle ≤ k) as Hisnew.
  { intros k. rewrite Ht. destruct (to_leaf k) as [b|] eqn:Hk; [|done]. cbn. case_bool_decide as Hb; intros Heq; [by destruct Hb as [-> ?]|].
    injection Heq as ->. by destruct (Hnone k). }
  assert (old ≠ new) as Hne by set_solver.
  split.
  - eapply linked_split; [done|done|done|done|]. intros a Hin. apply Hother; intros ->; set_solver.
  - intros id Hid. destruct (decide (id = new)) as [->|]; [set_solver|]. destruct (decide (id = old)) as [->|]; [set_solver|].
    rewrite Hother in Hid by done. apply Ha in Hid. set_solver.
  - apply NoDup_app. split_and!; [done| |].
    + intros a Hin. specialize (Hd12 a Hin). set_solver.
    + apply NoDup_cons. split; [set_solver|]. apply NoDup_cons. split; [set_solver|done].
  - apply sorting.StronglySorted_app in Hs as (Hs12 & Hs1 & Hs2). inversion_clear Hs2 as [|? ? Hs3 Hs4]. rewrite Forall_forall in Hs4.
    assert (∀ a b, a ∈ L1 ++ L2 → b ∈ L1 ++ L2 → routed_before to_leaf a b → routed_before to_leaf' a b) as Hmono.
    { intros a b Hina Hinb Hab k k' Hk Hk'. apply (Hab k k'); (apply Hsame; [..|done]); intros ->; set_solver. }
    apply sorting.StronglySorted_app. split_and!.
    + intros a b Hina Hinb. apply elem_of_cons in Hinb as [->|[->|Hinb]%elem_of_cons].
      * intros k k' Hk [Hk' _]%Hisold. apply (Hs12 a old Hina ltac:(by left) k k'); [|done]. apply Hsame; [..|done]; intros ->; set_solver.
      * intros k k' Hk [Hk' _]%Hisnew. apply (Hs12 a old Hina ltac:(by left) k k'); [|done]. apply Hsame; [..|done]; intros ->; set_solver.
      * apply Hmono; [set_solver|set_solver|]. apply Hs12; [done|by right].
    + eapply sorted_mono; [|exact Hs1]. intros a b Hina Hinb. apply Hmono; set_solver.
    + constructor; [constructor|].
      * eapply sorted_mono; [|exact Hs3]. intros a b Hina Hinb. apply Hmono; set_solver.
      * apply Forall_forall. intros b Hinb k k' [Hk _]%Hisnew Hk'. apply (Hs4 b Hinb k k'); [done|]. apply Hsame; [..|done]; intros ->; set_solver.
      * apply Forall_forall. intros b [->|Hinb]%elem_of_cons k k' [Hk Hlt]%Hisold Hk'; [apply Hisnew in Hk' as [_ ?]; lia|].
        apply (Hs4 b Hinb k k'); [done|]. apply Hsame; [..|done]; intros ->; set_solver.
  - exists (Z.min k0 (middle - 1)). intros k Hk. rewrite Ht, Hf by lia.
    assert (head (L1 ++ old :: new :: L2) = head (L1 ++ old :: L2)) as -> by by destruct L1.
    destruct (head _) as [a|]; [|done]. cbn. by rewrite bool_decide_false by lia.
Qed.

Section walks.
Implicit Types (ρ : redirection) (nodes : gmap Z node).

(** The node that is reached after [n] steps from the root. *)
Fixpoint walk ρ nodes (root key : Z) (n : nat) : option Z :=
  match n with
  | O => Some (redirect ρ key root)
  | S n' =>
    id ← walk ρ nodes root key n';
    nd ← nodes !! id;
    c ← node_step key nd;
    Some (redirect ρ key c)
  end.

(** [depth] is the distance from the root; the leaves are at depth [h]. *)
Record tree_inv ρ nodes (root : Z) (h : nat) (depth : Z → nat) (m : gmap Z RID) : Prop := {
  inv_leaf key : ∃ id p, walk ρ nodes root key h = Some id ∧ nodes !! id = Some (NLeaf p) ∧ leaf_map p !! key = m !! key;
  inv_root : ∃ nd, nodes !! root = Some nd ∧ node_parent nd = INVALID_PAGE_ID ∧ depth root = 0%nat;
  inv_ok id nd : nodes !! id = Some nd → 0 ≤ id ∧ node_ok nd;
  inv_depth id nd : nodes !! id = Some nd → match nd with NLeaf _ => depth id = h | _ => (depth id < h)%nat end;
  inv_children id nd c : nodes !! id = Some nd → c ∈ children nd →
    ∃ cd, nodes !! c = Some cd ∧ node_parent cd = id ∧ depth c = S (depth id);
  inv_linked id nd : nodes !! id = Some nd → node_parent nd ≠ INVALID_PAGE_ID →
    ∃ pd, nodes !! node_parent nd = Some pd ∧ (id ∈ children pd ∨ ∃ old middle, ρ = Some (old, middle, id));
  inv_keys id nd key : nodes !! id = Some nd → has_key nd key → walk ρ nodes root key (depth id) = Some id;
  inv_unique i j p q key : nodes !! i = Some (NInternal p) → nodes !! j = Some (NInternal q) →
    key ∈ separators p → key ∈ separators q → i = j;
  inv_redirect old middle new : ρ = Some (old, middle, new) →
    ∃ od nd, nodes !! old = Some od ∧ nodes !! new = Some nd ∧ node_parent od = node_parent nd ∧ depth old = depth new ∧
      old ≠ new ∧ walk ρ nodes root middle (depth old) = Some new ∧
      (∀ i p, nodes !! i = Some (NInternal p) → middle ∉ separators p) ∧
      (∀ i pd, nodes !! i = Some pd → new ∉ children pd);
  inv_chain : ∃ L, leaf_chain (leaf_next nodes) (fun key => walk ρ nodes root key h) L;
}.

Lemma redirect_other ρ key id : (∀ middle new, ρ ≠ Some (id, middle, new)) → redirect ρ key id = id.
Proof.
  destruct ρ as [[[old middle] new]|]; [|done]. intros H. cbn. rewrite bool_decide_false; [done|].
  intros [-> _]. by apply (H middle new).
Qed.

Lemma node_step_child key nd c : node_ok nd → node_step key nd = Some c → c ∈ children nd.
Proof.
  destruct nd as [|p|]; cbn; [done| |done]. intros [Hok _].
  destruct (has_cells_intro p Hok) as (v0 & cs & Hc & _). rewrite (has_cells_lookup _ _ _ key Hc). intros [= <-].
  destruct Hc as (_ & _ & k0 & ->). cbn. destruct (route_cases key v0 cs) as [Hany|[Hin _]].
  - rewrite Hany. by left.
  - by right.
Qed.

Lemma node_step_internal key p : internal_ok p → is_Some (node_step key (NInternal p)).
Proof.
  intros (v0 & cs & Hc & _)%has_cells_intro. cbn. rewrite (has_cells_lookup _ _ _ key Hc). by eexists.
Qed.

Lemma walk_S ρ nodes root key n :
  walk ρ nodes root key (S n) =
    (id ← walk ρ nodes root key n; nd ← nodes !! id; c ← node_step key nd; Some (redirect ρ key c)).
Proof. done. Qed.

Section invariant.
Context {ρ nodes root h depth m} (Hinv : tree_inv ρ nodes root h depth m).

Lemma parent_of_child id nd c cd :
  nodes !! id = Some nd → c ∈ children nd → nodes !! c = Some cd → node_parent cd = id ∧ depth c = S (depth id).
Proof. intros Hid Hc Hcd. destruct (inv_children _ _ _ _ _ _ Hinv id nd c Hid Hc) as (cd' & Hcd' & ? & ?). by simplify_eq. Qed.

Lemma root_not_child id nd : nodes !! id = Some nd → root ∉ children nd.
Proof.
  intros Hid Hc. destruct (inv_root _ _ _ _ _ _ Hinv) as (rd & Hrd & Hp & _).
  destruct (parent_of_child id nd root rd Hid Hc Hrd) as [Hp' _].
  destruct (inv_ok _ _ _ _ _ _ Hinv id nd Hid) as [Hge _]. unfold INVALID_PAGE_ID in Hp. lia.
Qed.

(** A redirected child has the parent and the depth of the child. *)
Lemma redirect_node key c cd :
  nodes !! c = Some cd →
  ∃ rd, nodes !! redirect ρ key c = Some rd ∧ node_parent rd = node_parent cd ∧ depth (redirect ρ key c) = depth c.
Proof.
  intros Hc. destruct ρ as [[[old middle] new]|] eqn:Hρ; cbn; [|by exists cd].
  case_bool_decide as Hb; [|by exists cd]. destruct Hb as [-> _].
  destruct (inv_redirect _ _ _ _ _ _ Hinv old middle new) as (od & nd & Ho & Hn & Hp & Hd & _); [done|].
  simplify_eq. by exists nd.
Qed.

(** A walk stays in the tree and goes down by one each step. *)
Lemma walk_node key n id :
  walk ρ nodes root key n = Some id → ∃ nd, nodes !! id = Some nd ∧ depth id = n.
Proof.
  revert id. induction n as [|n IH]; intros id.
  - cbn. intros [= <-]. destruct (inv_root _ _ _ _ _ _ Hinv) as (rd & Hrd & _ & Hd).
    destruct (redirect_node key root rd Hrd) as (rd' & ? & _ & ?). exists rd'. split; [done|lia].
  - rewrite walk_S. intros (i & Hi & (nd & Hnd & (c & Hc & [= <-])%bind_Some)%bind_Some)%bind_Some.
    destruct (IH i Hi) as (nd' & Hnd' & Hd). simplify_eq.
    destruct (inv_ok _ _ _ _ _ _ Hinv _ _ Hnd) as [_ Hok].
    destruct (inv_children _ _ _ _ _ _ Hinv _ _ c Hnd) as (cd & Hcd & _ & Hdc); [by eapply node_step_child|].
    destruct (redirect_node key c cd Hcd) as (cd' & ? & _ & ?). exists cd'. split; [done|lia].
Qed.

(** The last step of a walk. *)
Lemma walk_step_inv key n id :
  walk ρ nodes root key (S n) = Some id →
  ∃ pid pd c cd, walk ρ nodes root key n = Some pid ∧ nodes !! pid = Some pd ∧ node_step key pd = Some c ∧ c ∈ children pd ∧
    nodes !! c = Some cd ∧ node_parent cd = pid ∧ id = redirect ρ key c ∧
    ∃ nd, nodes !! id = Some nd ∧ node_parent nd = pid.
Proof.
  rewrite walk_S. intros (pid & Hp & (pd & Hpd & (c & Hc & [= <-])%bind_Some)%bind_Some)%bind_Some.
  destruct (inv_ok _ _ _ _ _ _ Hinv _ _ Hpd) as [_ Hok].
  pose proof (node_step_child key pd c Hok Hc) as Hin.
  destruct (inv_children _ _ _ _ _ _ Hinv _ _ c Hpd Hin) as (cd & Hcd & Hpar & Hdc).
  destruct (redirect_node key c cd Hcd) as (nd & Hnd & Hpn & _).
  exists pid, pd, c, cd. split_and!; [done..|]. exists nd. split; [done|congruence].
Qed.

Lemma walk_parent key n id nd :
  walk ρ nodes root key (S n) = Some id → nodes !! id = Some nd → walk ρ nodes root key n = Some (node_parent nd).
Proof.
  intros Hw Hnd. destruct (walk_step_inv key n id Hw) as (pid & _ & _ & _ & Hp & _ & _ & _ & _ & _ & _ & nd' & Hnd' & Hpar).
  by simplify_eq.
Qed.

(** Walks that meet have the same path. *)
Lemma walk_prefix k1 k2 n : ∀ id i,
  walk ρ nodes root k1 n = Some id → walk ρ nodes root k2 n = Some id → (i < n)%nat →
  walk ρ nodes root k1 i = walk ρ nodes root k2 i.
Proof.
  induction n as [|n IH]; intros id i H1 H2 Hi; [lia|].
  destruct (walk_node _ _ _ H1) as (nd & Hnd & _).
  pose proof (walk_parent _ _ _ _ H1 Hnd) as Hp1. pose proof (walk_parent _ _ _ _ H2 Hnd) as Hp2.
  destruct (decide (i = n)) as [->|]; [congruence|]. apply (IH _ i Hp1 Hp2). lia.
Qed.

(** A node with a key is reached with the key, and its ancestors are on the way. *)
Lemma key_walk id nd key : nodes !! id = Some nd → has_key nd key → walk ρ nodes root key (depth id) = Some id.
Proof. apply (inv_keys _ _ _ _ _ _ Hinv). Qed.

(** Every walk of at most [h] steps arrives. *)
Lemma walk_total key n : (n ≤ h)%nat → is_Some (walk ρ nodes root key n).
Proof.
  intros Hn. destruct (inv_leaf _ _ _ _ _ _ Hinv key) as (id & p & Hw & _).
  replace h with (n + (h - n))%nat in Hw by lia. generalize dependent (h - n)%nat. clear Hn.
  intros d. revert id. induction d as [|d IH]; intros id Hw; [rewrite Nat.add_0_r in Hw; by eexists|].
  rewrite Nat.add_succ_r, walk_S in Hw. apply bind_Some in Hw as (i & Hi & _). by apply (IH i).
Qed.
End invariant.

(** Walks depend on the steps only. *)
Lemma walk_ext ρ nodes nodes' root key n :
  (∀ id, nodes !! id ≫= node_step key = nodes' !! id ≫= node_step key) →
  walk ρ nodes root key n = walk ρ nodes' root key n.
Proof.
  intros He. induction n as [|n IH]; [done|]. rewrite !walk_S, IH.
  destruct (walk ρ nodes' root key n) as [id|]; [|done]. cbn. specialize (He id). revert He.
  destruct (nodes !! id), (nodes' !! id); cbn; intros He; try done; first [by rewrite He|by rewrite <-He].
Qed.

(** A leaf changes at a key that is routed to it. *)
Lemma inv_leaf_update nodes root h depth m m' id p p' key :
  tree_inv None nodes root h depth m → nodes !! id = Some (NLeaf p) → walk None nodes root key h = Some id →
  leaf_ok p' → parent_page_id_ p' = parent_page_id_ p → next_page_id_ p' = next_page_id_ p →
  leaf_map p' !! key = m' !! key → (∀ k, k ≠ key → leaf_map p' !! k = leaf_map p !! k ∧ m' !! k = m !! k) →
  tree_inv None (<[id := NLeaf p']> nodes) root h depth m'.
Proof.
  intros Hinv Hid Hw Hok Hpar Hnext Hkey Hmap.
  assert (∀ k n, walk None (<[id := NLeaf p']> nodes) root k n = walk None nodes root k n) as Hwalk.
  { intros k n. symmetry. apply walk_ext. intros i. destruct (decide (i = id)) as [->|].
    - by rewrite Hid, lookup_insert_eq.
    - by rewrite lookup_insert_ne. }
  assert (∀ i nd, <[id := NLeaf p']> nodes !! i = Some nd →
    (i = id ∧ nd = NLeaf p') ∨ (i ≠ id ∧ nodes !! i = Some nd)) as Hlk.
  { intros i nd. rewrite lookup_insert_Some. intros [[<- <-]|[? ?]]; [by left|by right]. }
  pose proof Hinv as [Hleaf Hroot Hoks Hdep Hch Hlink Hkeys Huniq _ [L Hchain]]. constructor.
  - intros k. rewrite Hwalk. destruct (Hleaf k) as (i & q & Hi & Hq & Hm). exists i.
    destruct (decide (i = id)) as [->|].
    + exists p'. rewrite lookup_insert_eq. split_and!; [done|done|]. simplify_eq.
      destruct (decide (k = key)) as [->|Hk]; [done|]. destruct (Hmap k Hk) as [-> ->]. done.
    + exists q. rewrite lookup_insert_ne by done. split_and!; [done|done|].
      assert (k ≠ key) as Hk by (intros ->; congruence). destruct (Hmap k Hk) as [_ ->]. done.
  - destruct Hroot as (rd & Hrd & Hrp & Hr0). destruct (decide (root = id)) as [->|].
    + exists (NLeaf p'). rewrite lookup_insert_eq. simplify_eq/=. split_and!; [done|congruence|done].
    + exists rd. by rewrite lookup_insert_ne.
  - intros i nd [[-> ->]|[? Hi]]%Hlk; [|by apply Hoks]. split; [by apply (Hoks id _ Hid)|done].
  - intros i nd [[-> ->]|[? Hi]]%Hlk; [apply (Hdep id _ Hid)|by apply Hdep].
  - intros i nd c [[-> ->]|[? Hi]]%Hlk Hc; [by apply not_elem_of_nil in Hc|].
    destruct (Hch i nd c Hi Hc) as (cd & Hcd & ? & ?). destruct (decide (c = id)) as [->|].
    + exists (NLeaf p'). rewrite lookup_insert_eq. simplify_eq/=. split_and!; [done|congruence|done].
    + exists cd. by rewrite lookup_insert_ne.
  - intros i nd Hi Hp. assert (∃ nd', nodes !! i = Some nd' ∧ node_parent nd' = node_parent nd) as (nd' & Hi' & Hp').
    { apply Hlk in Hi as [[-> ->]|[? Hi]]; [by exists (NLeaf p)|by exists nd]. }
    rewrite <-Hp' in Hp |- *. destruct (Hlink i nd' Hi' Hp) as (pd & Hpd & [Hin|(? & ? & ?)]); [|done].
    exists pd. rewrite lookup_insert_ne; [split; [done|by left]|]. intros Heq. rewrite <-Heq, Hid in Hpd. injection Hpd as <-.
    by apply not_elem_of_nil in Hin.
  - intros i nd k [[-> ->]|[? Hi]]%Hlk Hk; rewrite Hwalk; [|by apply (Hkeys i nd)].
    destruct (decide (k = key)) as [->|Hne].
    + rewrite <-Hw. f_equal. by apply (Hdep id _ Hid).
    + cbn in Hk. destruct (Hmap k Hne) as [Heq _]. rewrite Heq in Hk. by apply (Hkeys id (NLeaf p)).
  - intros i j q1 q2 k [[-> ?]|[? Hi]]%Hlk [[-> ?]|[? Hj]]%Hlk; try done. by apply Huniq.
  - done.
  - exists L. eapply leaf_chain_ext; [|intros k; apply Hwalk|exact Hchain]. intros i. unfold leaf_next. destruct (decide (i = id)) as [->|].
    + by rewrite lookup_insert_eq, Hid, Hnext.
    + by rewrite lookup_insert_ne.
Qed.

(** A leaf got a new key that is routed to it, or lost one. *)
Lemma inv_leaf_insert nodes root h depth m id p p' key v :
  tree_inv None nodes root h depth m → nodes !! id = Some (NLeaf p) → walk None nodes root key h = Some id →
  leaf_ok p' → parent_page_id_ p' = parent_page_id_ p → next_page_id_ p' = next_page_id_ p → leaf_map p' = <[key := v]> (leaf_map p) →
  tree_inv None (<[id := NLeaf p']> nodes) root h depth (<[key := v]> m).
Proof.
  intros Hinv Hid Hw Hok Hpar Hnext Hmap. eapply inv_leaf_update; [exact Hinv|exact Hid|exact Hw|done|done|done| |]; rewrite Hmap.
  - by rewrite !lookup_insert_eq.
  - intros k Hk. by rewrite !lookup_insert_ne.
Qed.

Lemma inv_leaf_delete nodes root h depth m id p p' key :
  tree_inv None nodes root h depth m → nodes !! id = Some (NLeaf p) → walk None nodes root key h = Some id →
  leaf_ok p' → parent_page_id_ p' = parent_page_id_ p → next_page_id_ p' = next_page_id_ p → leaf_map p' = delete key (leaf_map p) →
  tree_inv None (<[id := NLeaf p']> nodes) root h depth (delete key m).
Proof.
  intros Hinv Hid Hw Hok Hpar Hnext Hmap. eapply inv_leaf_update; [exact Hinv|exact Hid|exact Hw|done|done|done| |]; rewrite Hmap.
  - by rewrite !lookup_delete_eq.
  - intros k Hk. by rewrite !lookup_delete_ne.
Qed.

(** The new node of a split is as deep as the old one. *)
Definition depth_split (depth : Z → nat) (old new i : Z) : nat := if decide (i = new) then depth old else depth i.

Lemma depth_split_new depth old new : depth_split depth old new new = depth old.
Proof. unfold depth_split. by rewrite decide_True. Qed.
Lemma depth_split_other depth old new i : i ≠ new → depth_split depth old new i = depth i.
Proof. intros. unfold depth_split. by rewrite decide_False. Qed.

(** Below a separator keys take another child than from it on. *)
Lemma separator_separates q key middle :
  internal_ok q → NoDup (cells q).*2 → middle ∈ separators q → key < middle →
  Internal_Lookup key q ≠ Internal_Lookup middle q.
Proof.
  intros (v0 & cs & Hc & _)%has_cells_intro Hnd Hin Hlt. rewrite !(has_cells_lookup _ _ _ _ Hc).
  rewrite (has_cells_separators _ _ _ Hc) in Hin. destruct Hc as (_ & Hs & k0 & Hcs).
  apply list_elem_of_fmap in Hin as ([k w] & -> & Hin). cbn in *. apply list_elem_of_split in Hin as (cs1 & cs2 & ->).
  rewrite !route_app by done. rewrite bool_decide_true, bool_decide_false by lia.
  assert (route k w cs2 = w) as ->.
  { apply (route_app_below k w [] cs2). rewrite fmap_app in Hs. apply StronglySorted_app_inv in Hs as (_ & Hs & _). cbn in Hs.
    apply StronglySorted_inv in Hs as [_ Hs]. exact (proj1 (Forall_fmap _ _ _) Hs). }
  rewrite Hcs in Hnd. cbn in Hnd. rewrite fmap_app, app_comm_cons in Hnd. apply NoDup_app in Hnd as (_ & Hd & _).
  intros [= Heq]. apply (Hd w); [|by left].
  destruct (route_cases key v0 cs1) as [Hany|[Hin _]]; [rewrite Hany in Heq; subst; by left|]. rewrite Heq in Hin. by right.
Qed.

(** A key of a node that is not the smallest one there is no separator above it. *)
Lemma key_not_above nodes root h depth m id nd k0 middle :
  tree_inv None nodes root h depth m → nodes !! id = Some nd → has_key nd k0 → has_key nd middle → k0 < middle →
  ∀ i q, nodes !! i = Some (NInternal q) → (depth i < depth id)%nat → middle ∉ separators q.
Proof.
  intros Hinv Hid Hk0 Hm Hlt i q Hi Hdepth Hin.
  pose proof (inv_keys _ _ _ _ _ _ Hinv _ _ _ Hid Hk0) as Hw0.
  pose proof (inv_keys _ _ _ _ _ _ Hinv _ _ _ Hid Hm) as Hwm.
  pose proof (inv_keys _ _ _ _ _ _ Hinv _ _ middle Hi Hin) as Hwi.
  pose proof (walk_prefix Hinv _ _ _ _ (depth i) Hw0 Hwm Hdepth) as Heq. rewrite Hwi in Heq.
  assert (walk None nodes root k0 (S (depth i)) = walk None nodes root middle (S (depth i))) as HS.
  { destruct (decide (S (depth i) = depth id)) as [->|]; [congruence|]. apply (walk_prefix Hinv _ _ _ _ _ Hw0 Hwm). lia. }
  rewrite !walk_S, Heq, Hwi in HS. cbn in HS. rewrite Hi in HS.
  destruct (inv_ok _ _ _ _ _ _ Hinv _ _ Hi) as [_ [Hok Hnd]].
  destruct (node_step_internal k0 q Hok) as [c0 Hc0]. destruct (node_step_internal middle q Hok) as [cm Hcm].
  cbn [mbind option_bind] in HS. rewrite Hc0, Hcm in HS. cbn in HS. injection HS as ->.
  apply (separator_separates q k0 middle); [done..|]. cbn in Hc0, Hcm.
  destruct (Internal_Lookup k0 q), (Internal_Lookup middle q); by simplify_eq.
Qed.

(** Walks after a split of [old]: the steps of the two nodes are those of the old
    one on the two sides of the middle key. *)
Lemma walk_split nodes nodes' root h depth m old middle new key n :
  tree_inv None nodes root h depth m → nodes !! new = None →
  (∀ i, i ≠ old → i ≠ new → nodes' !! i ≫= node_step key = nodes !! i ≫= node_step key) →
  (nodes' !! (if bool_decide (middle ≤ key) then new else old) ≫= node_step key = nodes !! old ≫= node_step key) →
  walk (Some (old, middle, new)) nodes' root key n = redirect (Some (old, middle, new)) key <$> walk None nodes root key n.
Proof.
  intros Hinv Hnew Hother Hsplit. induction n as [|n IH]; [done|]. rewrite !walk_S, IH.
  destruct (walk None nodes root key n) as [id|] eqn:Hw; [|done]. cbn [fmap option_fmap option_map mbind option_bind].
  destruct (walk_node Hinv _ _ _ Hw) as (nd & Hid & _).
  assert (nodes' !! redirect (Some (old, middle, new)) key id ≫= node_step key = nodes !! id ≫= node_step key) as Hstep.
  { destruct (decide (id = old)) as [->|Ho].
    - rewrite <-Hsplit. cbn. case_bool_decide as H1; case_bool_decide as H2; try done; tauto.
    - rewrite redirect_other by congruence. apply Hother; [done|congruence]. }
  rewrite Hid in Hstep |- *. cbn [mbind option_bind] in Hstep |- *. revert Hstep.
  destruct (nodes' !! redirect _ key id) as [nd'|]; cbn [mbind option_bind]; intros <-; [|done].
  by destruct (node_step key nd').
Qed.

(** A leaf is split. *)
Lemma inv_leaf_split nodes root h depth m old p p1 p2 middle new :
  tree_inv None nodes root h depth m → nodes !! old = Some (NLeaf p) → nodes !! new = None → 0 ≤ new →
  leaf_ok p1 → leaf_ok p2 → parent_page_id_ p1 = parent_page_id_ p → parent_page_id_ p2 = parent_page_id_ p →
  next_page_id_ p1 = new ∧ next_page_id_ p2 = next_page_id_ p →
  (∀ k, leaf_map p !! k = leaf_map (if bool_decide (middle ≤ k) then p2 else p1) !! k) →
  (∀ k, is_Some (leaf_map p1 !! k) → k < middle) → (∀ k, is_Some (leaf_map p2 !! k) → middle ≤ k) →
  is_Some (leaf_map p !! middle) → (∃ k0, k0 < middle ∧ is_Some (leaf_map p !! k0)) →
  tree_inv (Some (old, middle, new)) (<[new := NLeaf p2]> (<[old := NLeaf p1]> nodes)) root h
    (depth_split depth old new) m.
Proof.
  intros Hinv Hold Hnew Hge Hok1 Hok2 Hp1 Hp2 Hn Hmap Hk1 Hk2 Hmid (k0 & Hk0 & Hk0in).
  set (nodes' := <[new := NLeaf p2]> (<[old := NLeaf p1]> nodes)). set (ρ := Some (old, middle, new)).
  assert (old ≠ new) as Hne by congruence.
  assert (nodes' !! old = Some (NLeaf p1)) as Hold'.
  { unfold nodes'. by rewrite lookup_insert_ne, lookup_insert_eq. }
  assert (nodes' !! new = Some (NLeaf p2)) as Hnew' by (unfold nodes'; by rewrite lookup_insert_eq).
  assert (∀ i, i ≠ old → i ≠ new → nodes' !! i = nodes !! i) as Hother.
  { intros i ??. unfold nodes'. by rewrite !lookup_insert_ne. }
  assert (∀ k n, walk ρ nodes' root k n = redirect ρ k <$> walk None nodes root k n) as Hwalk.
  { intros k n. eapply walk_split; [done|done| |]; cbn.
    - intros i ??. by rewrite Hother.
    - rewrite Hold. case_bool_decide; [by rewrite Hnew'|by rewrite Hold']. }
  pose proof Hinv as [Hleaf Hroot Hoks Hdep Hch Hlink Hkeys Huniq _ [L Hchain]].
  assert (∀ i nd, nodes !! i = Some nd → i ≠ new) as Hfresh by congruence.
  assert (∀ i nd, nodes' !! i = Some nd → i ≠ old → i ≠ new → nodes !! i = Some nd) as Hback by (intros i nd ???; by rewrite <-Hother).
  pose proof (depth_split_other depth old new) as Hdep'.
  constructor.
  - intros k. rewrite Hwalk. destruct (Hleaf k) as (i & q & Hi & Hq & Hm). rewrite Hi. cbn.
    destruct (decide (i = old)) as [->|].
    + simplify_eq. rewrite <-Hm, Hmap. case_bool_decide as Hb; case_bool_decide; try tauto; [by exists new, p2|by exists old, p1].
    + rewrite bool_decide_false by tauto. exists i, q. rewrite Hother by (done || by eapply Hfresh). done.
  - destruct Hroot as (rd & Hrd & Hrp & Hr0). destruct (decide (root = old)) as [->|].
    + exists (NLeaf p1). rewrite Hdep' by done. simplify_eq/=. split_and!; [done|congruence|done].
    + exists rd. rewrite Hother, Hdep' by (done || by eapply Hfresh). done.
  - intros i nd Hi. destruct (decide (i = new)) as [->|]; [simplify_eq; done|].
    destruct (decide (i = old)) as [->|]; [simplify_eq; split; [by apply (Hoks old _ Hold)|done]|]. by apply Hoks, Hback.
  - intros i nd Hi. destruct (decide (i = new)) as [->|]; [rewrite depth_split_new; simplify_eq; apply (Hdep old _ Hold)|].
    rewrite Hdep' by done.
    destruct (decide (i = old)) as [->|]; [simplify_eq; apply (Hdep old _ Hold)|]. apply Hdep. by apply Hback.
  - intros i nd c Hi Hc.
    destruct (decide (i = new)) as [->|]; [simplify_eq; by apply not_elem_of_nil in Hc|].
    destruct (decide (i = old)) as [->|]; [simplify_eq; by apply not_elem_of_nil in Hc|].
    apply Hback in Hi; [|done..]. destruct (Hch i nd c Hi Hc) as (cd & Hcd & ? & ?).
    rewrite !Hdep' by (done || by eapply Hfresh). destruct (decide (c = old)) as [->|].
    + exists (NLeaf p1). simplify_eq/=. split_and!; [done|congruence|done].
    + exists cd. rewrite Hother by (done || by eapply Hfresh). done.
  - intros i nd Hi Hp.
    assert (∃ j jd, nodes !! j = Some jd ∧ node_parent jd = node_parent nd ∧ (i = j ∨ i = new ∧ j = old)) as (j & jd & Hj & Hjp & Hij).
    { destruct (decide (i = new)) as [->|]; [simplify_eq; exists old, (NLeaf p); auto|].
      destruct (decide (i = old)) as [->|]; [simplify_eq; exists old, (NLeaf p); auto|]. exists i, nd. rewrite <-Hother; auto. }
    rewrite <-Hjp in Hp |- *. destruct (Hlink j jd Hj Hp) as (pd & Hpd & [Hin|(? & ? & ?)]); [|done].
    exists pd. rewrite Hother; [|intros Heq; rewrite Heq, Hold in Hpd; injection Hpd as <-; by apply not_elem_of_nil in Hin|by eapply Hfresh].
    split; [done|]. destruct Hij as [->|[-> ->]]; [by left|right; by exists old, middle].
  - intros i nd k Hi Hk. rewrite Hwalk. destruct (decide (i = new)) as [->|].
    { rewrite depth_split_new. simplify_eq. rewrite (Hkeys old (NLeaf p)); [|done|].
      - cbn. rewrite bool_decide_true; [done|]. split; [done|]. by apply Hk2.
      - cbn. rewrite Hmap, bool_decide_true by (by apply Hk2). done. }
    rewrite Hdep' by done. destruct (decide (i = old)) as [->|].
    { simplify_eq. assert (k < middle) by (by apply Hk1). rewrite (Hkeys old (NLeaf p)); [|done|].
      - cbn. by rewrite bool_decide_false by lia.
      - cbn. by rewrite Hmap, bool_decide_false by lia. }
    rewrite (Hkeys i nd); [|by apply Hback|done]. cbn. by rewrite bool_decide_false by tauto.
  - intros i j q1 q2 k Hi Hj. assert (∀ i q, nodes' !! i = Some (NInternal q) → nodes !! i = Some (NInternal q)) as Hint.
    { intros i' q Hi'. apply Hback; [done|intros ->; simplify_eq..]. }
    apply Huniq; by apply Hint.
  - intros ??? [= <- <- <-]. exists (NLeaf p1), (NLeaf p2). rewrite Hdep', depth_split_new by done.
    split_and!; [done|done|cbn; congruence|done|done| | |].
    + rewrite Hwalk, (Hkeys old (NLeaf p)) by done. cbn. by rewrite bool_decide_true by (split; [done|lia]).
    + intros i q Hi. assert (nodes !! i = Some (NInternal q)) as Hi' by (apply Hback; [done|intros ->; simplify_eq..]).
      eapply key_not_above; [done|exact Hold|exact Hk0in|exact Hmid|done|exact Hi'|].
      pose proof (Hdep i _ Hi'). pose proof (Hdep old _ Hold). cbn in *. lia.
    + intros i pd Hi Hin. destruct (decide (i = new)) as [->|]; [simplify_eq; by apply not_elem_of_nil in Hin|].
      destruct (decide (i = old)) as [->|]; [simplify_eq; by apply not_elem_of_nil in Hin|].
      destruct (Hch i pd new) as (cd & Hcd & _); [by apply Hback|done|congruence].
  - eapply leaf_chain_split; [exact Hchain| | | | | | |intros k; apply Hwalk]; unfold leaf_next.
    + by rewrite Hold.
    + by rewrite Hnew.
    + intros k Hk. destruct (walk_node Hinv _ _ _ Hk) as (? & ? & _). congruence.
    + by rewrite Hold', (proj1 Hn).
    + by rewrite Hnew', Hold, (proj2 Hn).
    + intros a ??. by rewrite Hother.
Qed.

(** The new node of a split is linked by its parent. *)
Section insert_child.
Context {nodes : gmap Z node} {root : Z} {h : nat} {depth : Z → nat} {m : gmap Z RID} {old middle new pid : Z} {p p' : TreePage Z}.
Context (Hinv : tree_inv (Some (old, middle, new)) nodes root h depth m)
  (Hpid : nodes !! pid = Some (NInternal p)) (Hold : old ∈ (cells p).*2).
Context (Hok' : internal_ok p') (Hpar' : parent_page_id_ p' = parent_page_id_ p)
  (Hseps : ∀ x, x ∈ separators p' ↔ x = middle ∨ x ∈ separators p) (Hvals : (cells p').*2 ≡ₚ new :: (cells p).*2)
  (Hlook : ∀ k, Internal_Lookup k p' = (r ← Internal_Lookup k p; mret (if bool_decide (r = old ∧ middle ≤ k) then new else r))).
Abbreviation nodes' := (<[pid := NInternal p']> nodes).
Abbreviation ρ := (Some (old, middle, new) : redirection).

Lemma insert_child_new : ∃ nd, nodes !! new = Some nd ∧ node_parent nd = pid ∧ depth new = S (depth pid) ∧ new ≠ pid.
Proof.
  destruct (inv_redirect _ _ _ _ _ _ Hinv old middle new) as (od & nd & Ho & Hn & Hp & Hd & _); [done|].
  destruct (parent_of_child Hinv pid _ old od Hpid Hold Ho) as [Hop Hod].
  exists nd. split_and!; [done|congruence|lia|]. intros ->. lia.
Qed.

Lemma insert_child_walk key n : walk None nodes' root key n = walk ρ nodes root key n.
Proof.
  induction n as [|n IH].
  - cbn. rewrite bool_decide_false; [done|]. intros [-> _]. by apply (root_not_child Hinv pid (NInternal p)).
  - rewrite !walk_S, IH. destruct (walk ρ nodes root key n) as [id|] eqn:Hw; [|done]. cbn [mbind option_bind].
    destruct (walk_node Hinv _ _ _ Hw) as (nd & Hid & _). destruct (decide (id = pid)) as [->|Hne].
    + rewrite lookup_insert_eq, Hpid. cbn. rewrite Hlook. by destruct (Internal_Lookup key p).
    + rewrite lookup_insert_ne, Hid by done. cbn [mbind option_bind].
      destruct (node_step key nd) as [c|] eqn:Hc; [|done]. cbn [mbind option_bind]. f_equal. symmetry. apply redirect_other.
      intros ?? [= -> _ _]. destruct (inv_ok _ _ _ _ _ _ Hinv _ _ Hid) as [_ Hok].
      pose proof (node_step_child _ _ _ Hok Hc) as Hin.
      destruct (inv_children _ _ _ _ _ _ Hinv _ _ _ Hid Hin) as (cd & Hcd & Hp1 & _).
      destruct (parent_of_child Hinv pid _ c cd Hpid Hold Hcd) as [Hp2 _]. congruence.
Qed.

(** What is looked up in the updated tree. *)
Lemma insert_child_lookup i nd :
  nodes' !! i = Some nd → (i = pid ∧ nd = NInternal p') ∨ (i ≠ pid ∧ nodes !! i = Some nd).
Proof. rewrite lookup_insert_Some. intros [[<- <-]|[? ?]]; [by left|by right]. Qed.

Lemma insert_child_old i nd :
  nodes !! i = Some nd → ∃ nd', nodes' !! i = Some nd' ∧ node_parent nd' = node_parent nd ∧ (∀ c, c ∈ children nd → c ∈ children nd').
Proof.
  intros Hi. destruct (decide (i = pid)) as [->|].
  - exists (NInternal p'). rewrite lookup_insert_eq. simplify_eq. split_and!; [done|done|]. cbn. intros c Hc. rewrite Hvals. by right.
  - exists nd. by rewrite lookup_insert_ne.
Qed.

Lemma inv_insert_child : tree_inv None nodes' root h depth m.
Proof.
  destruct insert_child_new as (nnd & Hnew & Hnpar & Hnd & Hnne).
  pose proof Hinv as [Hleaf Hroot Hoks Hdep Hch Hlink Hkeys Huniq Hred [L Hchain]].
  destruct (Hred old middle new eq_refl) as (_ & _ & _ & _ & _ & _ & _ & Hwm & Hmfree & Hnfree).
  constructor.
  - intros k. rewrite insert_child_walk. destruct (Hleaf k) as (i & q & Hi & Hq & Hm). exists i, q.
    rewrite lookup_insert_ne by congruence. done.
  - destruct Hroot as (rd & Hrd & Hrp & Hr0). destruct (insert_child_old root rd Hrd) as (rd' & ? & ? & _). exists rd'. split_and!; congruence.
  - intros i nd [[-> ->]|[_ Hi]]%insert_child_lookup; [|by apply Hoks]. destruct (Hoks pid _ Hpid) as [? [_ Hnodup]].
    split; [done|]. split; [done|]. rewrite Hvals. constructor; [exact (Hnfree pid _ Hpid)|done].
  - intros i nd [[-> ->]|[_ Hi]]%insert_child_lookup; [apply (Hdep pid _ Hpid)|by apply Hdep].
  - intros i nd c Hi Hc.
    assert (∃ cd, nodes !! c = Some cd ∧ node_parent cd = i ∧ depth c = S (depth i)) as (cd & Hcd & Hp & Hd).
    { apply insert_child_lookup in Hi as [[-> ->]|[_ Hi]]; [|by apply (Hch i nd)].
      cbn in Hc. rewrite Hvals in Hc. apply elem_of_cons in Hc as [->|Hc]; [by exists nnd|by apply (Hch pid (NInternal p))]. }
    destruct (insert_child_old c cd Hcd) as (cd' & ? & ? & _). exists cd'. split_and!; congruence.
  - intros i nd Hi Hp.
    assert (∃ nd0, nodes !! i = Some nd0 ∧ node_parent nd0 = node_parent nd) as (nd0 & Hi0 & Hp0).
    { apply insert_child_lookup in Hi as [[-> ->]|[_ Hi]]; [by exists (NInternal p)|by exists nd]. }
    rewrite <-Hp0 in Hp |- *. destruct (Hlink i nd0 Hi0 Hp) as (pd & Hpd & Hin).
    destruct (insert_child_old _ pd Hpd) as (pd' & Hpd' & _ & Hin'). exists pd'. split; [done|left].
    destruct Hin as [Hin|(? & ? & [= <- <- <-])]; [by apply Hin'|].
    assert (nd0 = nnd) as -> by congruence. rewrite Hnpar, lookup_insert_eq in Hpd'. injection Hpd' as <-. cbn. rewrite Hvals. by left.
  - intros i nd k [[-> ->]|[_ Hi]]%insert_child_lookup Hk; rewrite insert_child_walk; [|by apply (Hkeys i nd)].
    cbn in Hk. apply Hseps in Hk as [->|Hk]; [|by apply (Hkeys pid (NInternal p))].
    destruct (Hred old middle new eq_refl) as (od & _ & Hod & _ & _ & Hdo & _). rewrite Hdo, Hnd in Hwm.
    rewrite (walk_parent Hinv _ _ _ nnd Hwm Hnew). congruence.
  - intros i j q1 q2 k [[-> [= ->]]|[_ Hi]]%insert_child_lookup [[-> [= ->]]|[_ Hj]]%insert_child_lookup; rewrite ?Hseps; intros Hk1 Hk2; [done| | |by apply (Huniq i j q1 q2 k)].
    + destruct Hk1 as [->|Hk1]; [by destruct (Hmfree j q2 Hj)|by apply (Huniq pid j p q2 k)].
    + destruct Hk2 as [->|Hk2]; [by destruct (Hmfree i q1 Hi)|by apply (Huniq i pid q1 p k)].
  - done.
  - exists L. eapply leaf_chain_ext; [|intros k; apply insert_child_walk|exact Hchain]. intros i. unfold leaf_next.
    destruct (decide (i = pid)) as [->|]; [by rewrite lookup_insert_eq, Hpid|by rewrite lookup_insert_ne].
Qed.
End insert_child.

(** Nodes that differ in the parent only. *)
Definition same_but_parent (nd nd' : node) : Prop := nd' = nd ∨ ∃ par, nd' = set_node_parent par nd.

Lemma same_but_parent_step nd nd' key : same_but_parent nd nd' → node_step key nd' = node_step key nd.
Proof. intros [->|[par ->]]; by destruct nd. Qed.
Lemma same_but_parent_children nd nd' : same_but_parent nd nd' → children nd' = children nd.
Proof. intros [->|[par ->]]; by destruct nd. Qed.
Lemma same_but_parent_ok nd nd' : same_but_parent nd nd' → node_ok nd → node_ok nd'.
Proof. intros [->|[par ->]]; by destruct nd. Qed.
Lemma same_but_parent_key nd nd' key : same_but_parent nd nd' → has_key nd' key → has_key nd key.
Proof. intros [->|[par ->]]; by destruct nd. Qed.
Lemma same_but_parent_leaf p nd' : same_but_parent (NLeaf p) nd' → ∃ p', nd' = NLeaf p' ∧ leaf_map p' = leaf_map p.
Proof. intros [->|[par ->]]; [by exists p|by exists (SetParentPageId par p)]. Qed.
Lemma same_but_parent_internal nd p' : same_but_parent nd (NInternal p') → ∃ p, nd = NInternal p ∧ separators p' = separators p.
Proof.
  intros [<-|[par Hp]]; [by exists p'|]. destruct nd as [|p|]; cbn in Hp; simplify_eq. by exists p.
Qed.
Lemma same_but_parent_depth nd nd' (d h : nat) : same_but_parent nd nd' →
  match nd with NLeaf _ => d = h | _ => (d < h)%nat end → match nd' with NLeaf _ => d = h | _ => (d < h)%nat end.
Proof. intros [->|[par ->]]; by destruct nd. Qed.
Lemma same_but_parent_next nodes nodes' i nd nd' :
  nodes !! i = Some nd → nodes' !! i = Some nd' → same_but_parent nd nd' → leaf_next nodes' i = leaf_next nodes i.
Proof. unfold leaf_next. intros -> -> [->|[par ->]]; by destruct nd. Qed.
Lemma parent_set par nd : node_ok nd → node_parent (set_node_parent par nd) = par.
Proof. by destruct nd. Qed.

(** An internal node is split. *)
Section internal_split.
Context {nodes nodes' : gmap Z node} {root : Z} {h : nat} {depth : Z → nat} {m : gmap Z RID} {old middle new : Z} {p p1 p2 : TreePage Z}.
Context (Hinv : tree_inv None nodes root h depth m) (Hold : nodes !! old = Some (NInternal p)) (Hnew : nodes !! new = None) (Hge : 0 ≤ new).
Context (Hok1 : internal_ok p1) (Hok2 : internal_ok p2)
  (Hpar1 : parent_page_id_ p1 = parent_page_id_ p) (Hpar2 : parent_page_id_ p2 = parent_page_id_ p)
  (Hseps : separators p = separators p1 ++ middle :: separators p2) (Hvals : (cells p).*2 = (cells p1).*2 ++ (cells p2).*2)
  (Hlook : ∀ k, Internal_Lookup k p = Internal_Lookup k (if bool_decide (k < middle) then p1 else p2)).
Context (Hold' : nodes' !! old = Some (NInternal p1)) (Hnew' : nodes' !! new = Some (NInternal p2))
  (Hmoved : ∀ c, c ∈ (cells p2).*2 → nodes' !! c = set_node_parent new <$> nodes !! c)
  (Hother : ∀ i, i ≠ old → i ≠ new → i ∉ (cells p2).*2 → nodes' !! i = nodes !! i).
Abbreviation ρ := (Some (old, middle, new) : redirection).
Abbreviation depth' := (depth_split depth old new).

Lemma split_fresh i nd : nodes !! i = Some nd → i ≠ new.
Proof. congruence. Qed.

Lemma split_depth i nd : nodes !! i = Some nd → depth' i = depth i.
Proof. intros Hi%split_fresh. by apply depth_split_other. Qed.

Lemma split_nodup : NoDup (cells p1).*2 ∧ NoDup (cells p2).*2 ∧ ∀ c, c ∈ (cells p1).*2 → c ∉ (cells p2).*2.
Proof.
  destruct (inv_ok _ _ _ _ _ _ Hinv _ _ Hold) as [_ [_ Hnd]]. rewrite Hvals in Hnd.
  apply NoDup_app in Hnd as (? & ? & ?). done.
Qed.

Lemma split_child c : c ∈ (cells p).*2 → ∃ cd, nodes !! c = Some cd ∧ node_parent cd = old ∧ depth c = S (depth old) ∧ c ≠ old.
Proof.
  intros Hc. destruct (inv_children _ _ _ _ _ _ Hinv _ _ c Hold Hc) as (cd & ? & ? & ?).
  exists cd. split_and!; try done. intros ->. lia.
Qed.

(** The other nodes, forwards and backwards. *)
Lemma split_forward i nd : nodes !! i = Some nd → i ≠ old → ∃ nd', nodes' !! i = Some nd' ∧ same_but_parent nd nd' ∧
  (i ∉ (cells p2).*2 → nd' = nd) ∧ (i ∈ (cells p2).*2 → nd' = set_node_parent new nd).
Proof.
  intros Hi Hne. destruct (decide (i ∈ (cells p2).*2)) as [Hin|Hin].
  - exists (set_node_parent new nd). rewrite (Hmoved i Hin), Hi. split_and!; [done|right; by exists new|done|done].
  - exists nd. rewrite Hother by (done || by eapply split_fresh). split_and!; [done|by left|done|done].
Qed.

Lemma split_back i nd' : nodes' !! i = Some nd' → i ≠ old → i ≠ new → ∃ nd, nodes !! i = Some nd ∧ same_but_parent nd nd'.
Proof.
  intros Hi Ho Hn. destruct (decide (i ∈ (cells p2).*2)) as [Hin|Hin].
  - rewrite (Hmoved i Hin) in Hi. apply fmap_Some in Hi as (nd & Hi & ->). exists nd. split; [done|right; by exists new].
  - rewrite Hother in Hi by done. exists nd'. split; [done|by left].
Qed.

Lemma split_old_ne_new : old ≠ new.
Proof. congruence. Qed.

Lemma split_walk key n : walk ρ nodes' root key n = redirect ρ key <$> walk None nodes root key n.
Proof.
  eapply walk_split; [done|done| |].
  - intros i Ho Hn. destruct (nodes !! i) as [nd|] eqn:Hi.
    + destruct (split_forward i nd Hi Ho) as (nd' & -> & Hs & _). cbn. by apply same_but_parent_step.
    + destruct (nodes' !! i) as [nd'|] eqn:Hi'; [|done]. destruct (split_back i nd' Hi' Ho Hn) as (nd & ? & _). congruence.
  - rewrite Hold. cbn. rewrite Hlook. case_bool_decide.
    + rewrite Hnew'. cbn. by rewrite bool_decide_false by lia.
    + rewrite Hold'. cbn. by rewrite bool_decide_true by lia.
Qed.

Lemma split_middle : middle ∈ separators p ∧ (∀ k, k ∈ separators p1 → k < middle) ∧ (∀ k, k ∈ separators p2 → middle < k).
Proof.
  destruct (inv_ok _ _ _ _ _ _ Hinv _ _ Hold) as [_ [(_ & _ & Hs) _]]. rewrite Hseps in Hs |- *.
  apply StronglySorted_app_inv in Hs as (_ & [_ Hs2]%StronglySorted_inv & H12). rewrite Forall_forall in Hs2. split_and!.
  - apply elem_of_app. right. by left.
  - intros k Hk. apply H12; [done|by left].
  - done.
Qed.

(** Separators of the new tree are separators of the old one. *)
Lemma split_separators i q : nodes' !! i = Some (NInternal q) →
  ∃ j q0, nodes !! j = Some (NInternal q0) ∧ (∀ k, k ∈ separators q → k ∈ separators q0 ∧ (j = old → k ≠ middle)) ∧
    ((i = j ∧ i ≠ new ∧ (i = old → q = p1)) ∨ (i = new ∧ j = old ∧ q = p2)).
Proof.
  intros Hi. destruct split_middle as (_ & Hlt & Hgt). destruct (decide (i = new)) as [->|Hn].
  { simplify_eq. exists old, p. split_and!; [done| |by right]. intros k Hk. pose proof (Hgt k Hk). rewrite Hseps.
    split; [set_solver|lia]. }
  destruct (decide (i = old)) as [->|Ho].
  { simplify_eq. exists old, p. split_and!; [done| |left; by split_and!]. intros k Hk. pose proof (Hlt k Hk). rewrite Hseps.
    split; [set_solver|lia]. }
  destruct (split_back i _ Hi Ho Hn) as (nd & Hnd & Hs). destruct (same_but_parent_internal _ _ Hs) as (q0 & -> & Hq0).
  exists i, q0. split_and!; [done| |left; by split_and!]. intros k Hk. split; [by rewrite <-Hq0|done].
Qed.

Lemma split_children i nd c : nodes' !! i = Some nd → c ∈ children nd →
  ∃ cd, nodes' !! c = Some cd ∧ node_parent cd = i ∧ depth' c = S (depth' i).
Proof.
  intros Hi Hc. destruct split_nodup as (_ & _ & Hdisj). destruct (decide (i = new)) as [->|Hn].
  - simplify_eq. destruct (split_child c) as (cd & Hcd & _ & Hd & Hne); [rewrite Hvals; apply elem_of_app; by right|].
    destruct (split_forward c cd Hcd Hne) as (cd' & Hcd' & _ & _ & Hm). exists cd'. rewrite (split_depth c cd Hcd), depth_split_new.
    split_and!; [done| |done]. rewrite (Hm Hc). apply parent_set. by apply (inv_ok _ _ _ _ _ _ Hinv c).
  - rewrite (depth_split_other _ _ _ i) by done. destruct (decide (i = old)) as [->|Ho].
    + simplify_eq. destruct (split_child c) as (cd & Hcd & Hp & Hd & Hne); [rewrite Hvals; apply elem_of_app; by left|].
      destruct (split_forward c cd Hcd Hne) as (cd' & Hcd' & _ & Hm & _). exists cd'. rewrite (split_depth c cd Hcd).
      rewrite (Hm (Hdisj c Hc)) in Hcd' |- *. done.
    + destruct (split_back i nd Hi Ho Hn) as (nd0 & Hi0 & Hs). rewrite (same_but_parent_children _ _ Hs) in Hc.
      destruct (inv_children _ _ _ _ _ _ Hinv i nd0 c Hi0 Hc) as (cd & Hcd & Hp & Hd). rewrite (split_depth c cd Hcd).
      destruct (decide (c = old)) as [->|Hne]; [exists (NInternal p1); simplify_eq/=; split_and!; congruence|].
      destruct (split_forward c cd Hcd Hne) as (cd' & Hcd' & _ & Hm & _). exists cd'.
      assert (c ∉ (cells p2).*2) as Hnin; [|rewrite (Hm Hnin) in Hcd' |- *; done].
      intros Hin. destruct (split_child c) as (cd2 & ? & ? & _); [rewrite Hvals; apply elem_of_app; by right|]. congruence.
Qed.

Lemma split_linked i nd : nodes' !! i = Some nd → node_parent nd ≠ INVALID_PAGE_ID →
  ∃ pd, nodes' !! node_parent nd = Some pd ∧ (i ∈ children pd ∨ ∃ o mid, ρ = Some (o, mid, i)).
Proof.
  intros Hi Hp.
  (* the parent of a node of the old tree *)
  assert (∀ j jd, nodes !! j = Some jd → node_parent jd ≠ INVALID_PAGE_ID → j ∉ (cells p2).*2 →
    ∃ pd, nodes' !! node_parent jd = Some pd ∧ j ∈ children pd) as Hup.
  { intros j jd Hj Hjp Hnin. destruct (inv_linked _ _ _ _ _ _ Hinv j jd Hj Hjp) as (pd & Hpd & [Hin|(? & ? & ?)]); [|done].
    destruct (decide (node_parent jd = old)) as [Heq|Hne].
    - exists (NInternal p1). rewrite Heq in Hpd |- *. split; [done|]. simplify_eq. cbn in Hin |- *. rewrite Hvals in Hin.
      by apply elem_of_app in Hin as [?|?].
    - destruct (split_forward _ pd Hpd Hne) as (pd' & Hpd' & Hs & _). exists pd'. split; [done|].
      by rewrite (same_but_parent_children _ _ Hs). }
  assert (old ∉ (cells p2).*2) as Hnold.
  { intros Hin. destruct (split_child old) as (? & _ & _ & _ & ?); [rewrite Hvals; apply elem_of_app; by right|done]. }
  destruct (decide (i = new)) as [->|Hn].
  { simplify_eq. cbn in Hp |- *. destruct (Hup old (NInternal p) Hold) as (pd & Hpd & _); [cbn; congruence|done|].
    exists pd. cbn in Hpd. rewrite Hpar2. split; [done|]. right. by exists old, middle. }
  destruct (decide (i = old)) as [->|Ho].
  { simplify_eq. cbn in Hp |- *. destruct (Hup old (NInternal p) Hold) as (pd & Hpd & ?); [cbn; congruence|done|].
    exists pd. cbn in Hpd. rewrite Hpar1. split; [done|by left]. }
  destruct (split_back i nd Hi Ho Hn) as (nd0 & Hi0 & _). destruct (split_forward i nd0 Hi0 Ho) as (nd' & Hi' & _ & Hm1 & Hm2).
  simplify_eq. destruct (decide (i ∈ (cells p2).*2)) as [Hin|Hin].
  - rewrite (Hm2 Hin), parent_set by (by apply (inv_ok _ _ _ _ _ _ Hinv i)). exists (NInternal p2). split; [done|by left].
  - rewrite (Hm1 Hin) in Hp |- *. destruct (Hup i nd0 Hi0 Hp Hin) as (pd & ? & ?). exists pd. split; [done|by left].
Qed.

Lemma split_keys i nd key : nodes' !! i = Some nd → has_key nd key → walk ρ nodes' root key (depth' i) = Some i.
Proof.
  intros Hi Hk. rewrite split_walk. destruct split_middle as (_ & Hlt & Hgt). destruct (decide (i = new)) as [->|Hn].
  { rewrite depth_split_new. simplify_eq. cbn in Hk. rewrite (inv_keys _ _ _ _ _ _ Hinv old (NInternal p)); [|done|cbn; rewrite Hseps; set_solver].
    cbn. pose proof (Hgt key Hk). by rewrite bool_decide_true by (split; [done|lia]). }
  rewrite depth_split_other by done. destruct (decide (i = old)) as [->|Ho].
  { simplify_eq. cbn in Hk. rewrite (inv_keys _ _ _ _ _ _ Hinv old (NInternal p)); [|done|cbn; rewrite Hseps; set_solver].
    cbn. pose proof (Hlt key Hk). by rewrite bool_decide_false by lia. }
  destruct (split_back i nd Hi Ho Hn) as (nd0 & Hi0 & Hs).
  rewrite (inv_keys _ _ _ _ _ _ Hinv i nd0); [|done|by eapply same_but_parent_key]. cbn. by rewrite bool_decide_false by tauto.
Qed.

Lemma split_redirect : ∃ od nd, nodes' !! old = Some od ∧ nodes' !! new = Some nd ∧ node_parent od = node_parent nd ∧
  depth' old = depth' new ∧ old ≠ new ∧ walk ρ nodes' root middle (depth' old) = Some new ∧
  (∀ i q, nodes' !! i = Some (NInternal q) → middle ∉ separators q) ∧ (∀ i pd, nodes' !! i = Some pd → new ∉ children pd).
Proof.
  destruct split_middle as (Hin & _ & _). exists (NInternal p1), (NInternal p2).
  rewrite (split_depth old _ Hold), depth_split_new.
  split_and!; [done|done|cbn; congruence|done|apply split_old_ne_new| | |].
  - rewrite split_walk, (inv_keys _ _ _ _ _ _ Hinv old (NInternal p)) by done. cbn. by rewrite bool_decide_true.
  - intros i q Hi Hm. destruct (split_separators i q Hi) as (j & q0 & Hj & Hq & _).
    destruct (Hq _ Hm) as [Hq0 Hne]. apply Hne; [|done]. by apply (inv_unique _ _ _ _ _ _ Hinv j old q0 p middle).
  - intros i pd Hi Hc. assert (∃ j jd, nodes !! j = Some jd ∧ new ∈ children jd) as (j & jd & Hj & Hjc).
    { destruct (decide (i = new)) as [->|Hn]; [simplify_eq; exists old, (NInternal p); cbn in *; rewrite Hvals; set_solver|].
      destruct (decide (i = old)) as [->|Ho]; [simplify_eq; exists old, (NInternal p); cbn in *; rewrite Hvals; set_solver|].
      destruct (split_back i pd Hi Ho Hn) as (nd0 & Hi0 & Hs). exists i, nd0. by rewrite <-(same_but_parent_children _ _ Hs). }
    destruct (inv_children _ _ _ _ _ _ Hinv j jd new Hj Hjc) as (cd & ? & _). congruence.
Qed.

Lemma inv_internal_split : tree_inv ρ nodes' root h depth' m.
Proof.
  destruct split_nodup as (Hnd1 & Hnd2 & _). constructor.
  - intros k. rewrite split_walk. destruct (inv_leaf _ _ _ _ _ _ Hinv k) as (i & q & Hi & Hq & Hm).
    assert (i ≠ old) as Ho by congruence. destruct (split_forward i _ Hq Ho) as (nd' & Hq' & Hs & _).
    destruct (same_but_parent_leaf _ _ Hs) as (q' & -> & Hqm). exists i, q'. rewrite Hi. cbn.
    rewrite bool_decide_false by tauto. split_and!; [done|done|congruence].
  - destruct (inv_root _ _ _ _ _ _ Hinv) as (rd & Hrd & Hrp & Hr0). rewrite (split_depth root rd Hrd).
    destruct (decide (root = old)) as [->|Ho]; [exists (NInternal p1); simplify_eq/=; split_and!; congruence|].
    destruct (split_forward root rd Hrd Ho) as (rd' & Hrd' & _ & Hm & _). exists rd'.
    assert (root ∉ (cells p2).*2) as Hin by (intros Hin; apply (root_not_child Hinv old _ Hold); cbn; rewrite Hvals; set_solver).
    by rewrite (Hm Hin) in Hrd' |- *.
  - intros i nd Hi. destruct (decide (i = new)) as [->|Hn]; [by simplify_eq|].
    destruct (decide (i = old)) as [->|Ho]; [simplify_eq; split; [by apply (inv_ok _ _ _ _ _ _ Hinv old _ Hold)|done]|].
    destruct (split_back i nd Hi Ho Hn) as (nd0 & Hi0 & Hs). destruct (inv_ok _ _ _ _ _ _ Hinv i nd0 Hi0).
    split; [done|]. by eapply same_but_parent_ok.
  - intros i nd Hi. destruct (decide (i = new)) as [->|Hn]; [rewrite depth_split_new; simplify_eq; by apply (inv_depth _ _ _ _ _ _ Hinv old _ Hold)|].
    rewrite depth_split_other by done. destruct (decide (i = old)) as [->|Ho]; [simplify_eq; by apply (inv_depth _ _ _ _ _ _ Hinv old _ Hold)|].
    destruct (split_back i nd Hi Ho Hn) as (nd0 & Hi0 & Hs).
    eapply same_but_parent_depth; [done|]. by apply (inv_depth _ _ _ _ _ _ Hinv i nd0).
  - apply split_children.
  - apply split_linked.
  - apply split_keys.
  - intros i j q1 q2 k Hi Hj Hk1 Hk2.
    destruct (split_separators i q1 Hi) as (i0 & q10 & Hi0 & Hq1 & Hc1). destruct (split_separators j q2 Hj) as (j0 & q20 & Hj0 & Hq2 & Hc2).
    assert (i0 = j0) as -> by (eapply (inv_unique _ _ _ _ _ _ Hinv); [done..|by apply Hq1|by apply Hq2]).
    destruct split_middle as (_ & Hlt & Hgt).
    destruct Hc1 as [(-> & Hn1 & Hc1)|(-> & -> & ->)], Hc2 as [(-> & Hn2 & Hc2)|(-> & Hjo & ->)]; try done.
    + subst j0. rewrite (Hc1 eq_refl) in Hk1. pose proof (Hlt k Hk1). pose proof (Hgt k Hk2). lia.
    + rewrite (Hc2 eq_refl) in Hk2. pose proof (Hlt k Hk2). pose proof (Hgt k Hk1). lia.
  - intros ??? [= <- <- <-]. apply split_redirect.
  - destruct (inv_chain _ _ _ _ _ _ Hinv) as [L Hchain]. exists L. eapply leaf_chain_ext; [|intros k|exact Hchain].
    + intros i. destruct (decide (i = new)) as [->|Hn]; [unfold leaf_next; by rewrite Hnew', Hnew|].
      destruct (decide (i = old)) as [->|Ho]; [unfold leaf_next; by rewrite Hold', Hold|].
      destruct (nodes !! i) as [nd|] eqn:Hi.
      * destruct (split_forward i nd Hi Ho) as (nd' & Hi' & Hs & _). by eapply same_but_parent_next.
      * destruct (nodes' !! i) as [nd'|] eqn:Hi'; [|unfold leaf_next; by rewrite Hi, Hi'].
        destruct (split_back i nd' Hi' Ho Hn) as (nd & ? & _). congruence.
    + cbv beta. rewrite split_walk. destruct (walk_total Hinv k h) as [i Hi]; [done|]. rewrite Hi. cbn [fmap option_fmap option_map]. f_equal.
      apply redirect_other. intros ?? [= -> _ _].
      destruct (inv_leaf _ _ _ _ _ _ Hinv k) as (j & q & Hj & Hq & _). congruence.
Qed.
End internal_split.

(** A new root above the two halves of the old one. *)
Definition depth_below (depth : Z → nat) (top i : Z) : nat := if decide (i = top) then 0%nat else S (depth i).

Section new_root.
Context {nodes nodes' : gmap Z node} {root : Z} {h : nat} {depth : Z → nat} {m : gmap Z RID} {middle new top k0 : Z} {p : TreePage Z}.
Context (Hinv : tree_inv (Some (root, middle, new)) nodes root h depth m) (Htop : nodes !! top = None) (Hge : 0 ≤ top).
Context (Hok : internal_ok p) (Hcells : cells p = [(k0, root); (middle, new)]) (Hpar : parent_page_id_ p = INVALID_PAGE_ID).
Context (Htop' : nodes' !! top = Some (NInternal p))
  (Hmoved : ∀ i, i = root ∨ i = new → nodes' !! i = set_node_parent top <$> nodes !! i)
  (Hother : ∀ i, i ≠ top → i ≠ root → i ≠ new → nodes' !! i = nodes !! i).
Abbreviation ρ := (Some (root, middle, new) : redirection).

Lemma top_fresh i nd : nodes !! i = Some nd → depth_below depth top i = S (depth i).
Proof. intros Hi. unfold depth_below. rewrite decide_False; [done|]. congruence. Qed.

Lemma top_forward i nd : nodes !! i = Some nd → ∃ nd', nodes' !! i = Some nd' ∧ same_but_parent nd nd' ∧
  (i ≠ root → i ≠ new → nd' = nd) ∧ (i = root ∨ i = new → nd' = set_node_parent top nd).
Proof.
  intros Hi. destruct (decide (i = root ∨ i = new)) as [Hin|Hin].
  - exists (set_node_parent top nd). rewrite (Hmoved i Hin), Hi. split_and!; [done|right; by exists top|tauto|done].
  - exists nd. rewrite Hother by (intros ->; tauto || congruence). split_and!; [done|by left|done|tauto].
Qed.

Lemma top_back i nd' : nodes' !! i = Some nd' → i ≠ top → ∃ nd, nodes !! i = Some nd ∧ same_but_parent nd nd'.
Proof.
  intros Hi Ht. destruct (decide (i = root ∨ i = new)) as [Hin|Hin].
  - rewrite (Hmoved i Hin) in Hi. apply fmap_Some in Hi as (nd & Hi & ->). exists nd. split; [done|right; by exists top].
  - rewrite Hother in Hi by tauto. exists nd'. split; [done|by left].
Qed.

Lemma top_step key : node_step key (NInternal p) = Some (redirect ρ key root).
Proof.
  destruct (has_cells_intro p Hok) as (v0 & cs & Hc & _). cbn. rewrite (has_cells_lookup _ _ _ key Hc).
  destruct Hc as (_ & _ & k & Hcs). rewrite Hcells in Hcs. simplify_eq. cbn.
  case_bool_decide; case_bool_decide; try done; lia.
Qed.

Lemma top_walk key n : walk None nodes' top key (S n) = walk ρ nodes root key n.
Proof.
  induction n as [|n IH].
  - rewrite walk_S. cbn [walk]. cbn [redirect mbind option_bind]. rewrite Htop'. cbn [mbind option_bind]. by rewrite top_step.
  - rewrite walk_S, IH, (walk_S ρ). destruct (walk ρ nodes root key n) as [id|] eqn:Hw; [|done]. cbn [mbind option_bind].
    destruct (walk_node Hinv _ _ _ Hw) as (nd & Hid & _). destruct (top_forward id nd Hid) as (nd' & -> & Hs & _).
    rewrite Hid. cbn [mbind option_bind]. rewrite (same_but_parent_step _ _ key Hs).
    destruct (node_step key nd) as [c|] eqn:Hc; [|done]. cbn [mbind option_bind]. f_equal. symmetry. apply redirect_other.
    intros ?? [= <- _ _]. apply (root_not_child Hinv id nd Hid). apply (node_step_child key nd); [|done].
    by apply (inv_ok _ _ _ _ _ _ Hinv id).
Qed.

Lemma top_redirected : ∃ rd nnd, nodes !! root = Some rd ∧ nodes !! new = Some nnd ∧
  node_parent rd = INVALID_PAGE_ID ∧ node_parent nnd = INVALID_PAGE_ID ∧ depth root = 0%nat ∧ depth new = 0%nat ∧ root ≠ new.
Proof.
  destruct (inv_root _ _ _ _ _ _ Hinv) as (rd & Hrd & Hrp & Hr0).
  destruct (inv_redirect _ _ _ _ _ _ Hinv root middle new) as (od & nd & Ho & Hn & Hp & Hd & Hne & _); [done|].
  simplify_eq. exists rd, nd. split_and!; congruence.
Qed.

Lemma top_children i nd c : nodes' !! i = Some nd → c ∈ children nd →
  ∃ cd, nodes' !! c = Some cd ∧ node_parent cd = i ∧ depth_below depth top c = S (depth_below depth top i).
Proof.
  intros Hi Hc. destruct top_redirected as (rd & nnd & Hrd & Hnnd & Hrp & Hnp & Hr0 & Hn0 & Hne).
  assert (∀ cd, nodes !! c = Some cd → c = root ∨ c = new → ∃ cd', nodes' !! c = Some cd' ∧ node_parent cd' = top) as Hhalf.
  { intros cd Hcd Hin. destruct (top_forward c cd Hcd) as (cd' & Hcd' & _ & _ & Hm). exists cd'. split; [done|].
    rewrite (Hm Hin). apply parent_set. by apply (inv_ok _ _ _ _ _ _ Hinv c). }
  destruct (decide (i = top)) as [->|Ht].
  - simplify_eq. cbn in Hc. rewrite Hcells in Hc. cbn in Hc.
    apply elem_of_cons in Hc as [->|[->|[]%elem_of_nil]%elem_of_cons].
    + destruct (Hhalf rd Hrd) as (cd' & ? & ?); [by left|]. exists cd'. rewrite (top_fresh _ _ Hrd), Hr0. unfold depth_below. by rewrite decide_True.
    + destruct (Hhalf nnd Hnnd) as (cd' & ? & ?); [by right|]. exists cd'. rewrite (top_fresh _ _ Hnnd), Hn0. unfold depth_below. by rewrite decide_True.
  - destruct (top_back i nd Hi Ht) as (nd0 & Hi0 & Hs). rewrite (same_but_parent_children _ _ Hs) in Hc.
    destruct (inv_children _ _ _ _ _ _ Hinv i nd0 c Hi0 Hc) as (cd & Hcd & Hp & Hd).
    assert (0 ≤ i) by (by apply (inv_ok _ _ _ _ _ _ Hinv i nd0)).
    destruct (top_forward c cd Hcd) as (cd' & Hcd' & _ & Hm & _). exists cd'.
    rewrite (top_fresh c cd Hcd), (top_fresh i nd0 Hi0), Hd. split_and!; [done| |done].
    rewrite Hm; [done|intros ->; unfold INVALID_PAGE_ID in *; simplify_eq; lia..].
Qed.

Lemma top_linked i nd : nodes' !! i = Some nd → node_parent nd ≠ INVALID_PAGE_ID →
  ∃ pd, nodes' !! node_parent nd = Some pd ∧ (i ∈ children pd ∨ ∃ o mid, (None : redirection) = Some (o, mid, i)).
Proof.
  intros Hi Hp. destruct top_redirected as (rd & nnd & Hrd & Hnnd & Hrp & Hnp & _).
  destruct (decide (i = top)) as [->|Ht]; [simplify_eq/=; congruence|].
  destruct (top_back i nd Hi Ht) as (nd0 & Hi0 & _). destruct (top_forward i nd0 Hi0) as (nd' & Hi' & _ & Hm1 & Hm2). simplify_eq.
  assert (node_ok nd0) by (by apply (inv_ok _ _ _ _ _ _ Hinv i)).
  destruct (decide (i = root)) as [->|Hr].
  { rewrite Hm2, parent_set by (done || by left). exists (NInternal p). split; [done|left]. cbn. rewrite Hcells. by left. }
  destruct (decide (i = new)) as [->|Hn].
  { rewrite Hm2, parent_set by (done || by right). exists (NInternal p). split; [done|left]. cbn. rewrite Hcells. cbn. set_solver. }
  rewrite (Hm1 Hr Hn) in Hp |- *.
  destruct (inv_linked _ _ _ _ _ _ Hinv i nd0 Hi0 Hp) as (pd & Hpd & [Hin|(? & ? & ?)]); [|congruence].
  destruct (top_forward _ pd Hpd) as (pd' & Hpd' & Hs & _). exists pd'. split; [done|left].
  by rewrite (same_but_parent_children _ _ Hs).
Qed.

Lemma inv_new_root : tree_inv None nodes' top (S h) (depth_below depth top) m.
Proof.
  destruct top_redirected as (rd & nnd & Hrd & Hnnd & _ & _ & _ & _ & Hne).
  assert (depth_below depth top top = 0%nat) as Hd0 by (unfold depth_below; by rewrite decide_True).
  constructor.
  - intros k. rewrite top_walk. destruct (inv_leaf _ _ _ _ _ _ Hinv k) as (i & q & Hi & Hq & Hm).
    destruct (top_forward i _ Hq) as (nd' & Hq' & Hs & _). destruct (same_but_parent_leaf _ _ Hs) as (q' & -> & Hqm).
    exists i, q'. split_and!; [done|done|congruence].
  - by exists (NInternal p).
  - intros i nd Hi. destruct (decide (i = top)) as [->|Ht].
    { simplify_eq. split; [done|]. split; [done|]. rewrite Hcells. cbn. repeat constructor; set_solver. }
    destruct (top_back i nd Hi Ht) as (nd0 & Hi0 & Hs). destruct (inv_ok _ _ _ _ _ _ Hinv i nd0 Hi0).
    split; [done|]. by eapply same_but_parent_ok.
  - intros i nd Hi. destruct (decide (i = top)) as [->|Ht]; [simplify_eq; rewrite Hd0; lia|].
    destruct (top_back i nd Hi Ht) as (nd0 & Hi0 & Hs). rewrite (top_fresh i nd0 Hi0).
    eapply same_but_parent_depth; [done|]. pose proof (inv_depth _ _ _ _ _ _ Hinv i nd0 Hi0). destruct nd0; lia.
  - apply top_children.
  - apply top_linked.
  - intros i nd k Hi Hk. destruct (decide (i = top)) as [->|Ht]; [by rewrite Hd0|].
    destruct (top_back i nd Hi Ht) as (nd0 & Hi0 & Hs). rewrite (top_fresh i nd0 Hi0), top_walk.
    apply (inv_keys _ _ _ _ _ _ Hinv i nd0); [done|]. by eapply same_but_parent_key.
  - assert (∀ i q, nodes' !! i = Some (NInternal q) → (i = top ∧ separators q = [middle]) ∨
      ∃ q0, nodes !! i = Some (NInternal q0) ∧ separators q = separators q0) as Hsep.
    { intros i q Hi. destruct (decide (i = top)) as [->|Ht]; [left; simplify_eq; split; [done|]; unfold separators; by rewrite Hcells|].
      right. destruct (top_back i _ Hi Ht) as (nd0 & Hi0 & Hs). destruct (same_but_parent_internal _ _ Hs) as (q0 & -> & ?). by exists q0. }
    destruct (inv_redirect _ _ _ _ _ _ Hinv root middle new eq_refl) as (_ & _ & _ & _ & _ & _ & _ & _ & Hfree & _).
    intros i j q1 q2 k [[-> Hs1]|(q10 & Hi & Hs1)]%Hsep [[-> Hs2]|(q20 & Hj & Hs2)]%Hsep; rewrite Hs1, Hs2; try done.
    + intros ->%list_elem_of_singleton Hin. by destruct (Hfree j q20 Hj).
    + intros Hin ->%list_elem_of_singleton. by destruct (Hfree i q10 Hi).
    + by apply (inv_unique _ _ _ _ _ _ Hinv).
  - done.
  - destruct (inv_chain _ _ _ _ _ _ Hinv) as [L Hchain]. exists L. eapply leaf_chain_ext; [|intros k; apply top_walk|exact Hchain].
    intros i. destruct (decide (i = top)) as [->|Ht]; [unfold leaf_next; by rewrite Htop', Htop|].
    destruct (nodes !! i) as [nd|] eqn:Hi.
    + destruct (top_forward i nd Hi) as (nd' & Hi' & Hs & _). by eapply same_but_parent_next.
    + destruct (nodes' !! i) as [nd'|] eqn:Hi'; [|unfold leaf_next; by rewrite Hi, Hi'].
      destruct (top_back i nd' Hi' Ht) as (nd & ? & _). congruence.
Qed.
End new_root.

(** The first leaf is the root. *)
Lemma inv_first_leaf id p m :
  0 ≤ id → leaf_ok p → parent_page_id_ p = INVALID_PAGE_ID → next_page_id_ p = INVALID_PAGE_ID → leaf_map p = m →
  tree_inv None {[id := NLeaf p]} id 0 (fun _ => 0%nat) m.
Proof.
  intros Hid Hok Hpar Hnext Hm. constructor.
  - intros k. exists id, p. by rewrite lookup_singleton_eq, Hm.
  - exists (NLeaf p). by rewrite lookup_singleton_eq.
  - intros i nd [<- <-]%lookup_singleton_Some. done.
  - intros i nd [<- <-]%lookup_singleton_Some. done.
  - intros i nd c [<- <-]%lookup_singleton_Some Hc. by apply not_elem_of_nil in Hc.
  - intros i nd [<- <-]%lookup_singleton_Some. done.
  - intros i nd k [<- <-]%lookup_singleton_Some. done.
  - intros i j p1 p2 k [<- ?]%lookup_singleton_Some. done.
  - done.
  - exists [id]. unfold leaf_next. constructor.
    + cbn. by rewrite lookup_singleton_eq, Hnext.
    + intros i [n Hi]. destruct (decide (id = i)) as [->|]; [by left|]. by rewrite lookup_singleton_ne in Hi.
    + apply NoDup_singleton.
    + repeat constructor.
    + by exists 0.
Qed.
End walks.
