(* ===== verification/TreeRemove.v ===== *)
(** * The shape of a B+ tree after a removal

    What the invariant of [TreeInvariant.v] needs when two neighbouring leaves
    exchange cells or are merged, and when the root is replaced by its only child.
    A step of either kind sends the keys of the two leaves to other leaves, as the
    function [moved] says, and leaves the way of every other key alone. *)
From Stdlib Require Import Sorting.Sorted.
From stdpp Require sorting.
From S2P Require Import Prelude Interfaces Tuple BPlusTreePage TreeInvariant.

#[local] Open Scope Z_scope.
#[local] Coercion Z.of_nat : nat >-> Z.

(** ** Walks between walks *)
Lemma node_step_convex k1 k k2 nd c :
  node_ok nd → k1 ≤ k → k ≤ k2 → node_step k1 nd = Some c → node_step k2 nd = Some c → node_step k nd = Some c.
Proof.
  destruct nd as [|p|]; cbn; [done| |done]. intros [Hok Hnd] H1 H2.
  destruct (has_cells_intro p Hok) as (v0 & cs & Hc & _). rewrite !(has_cells_lookup _ _ _ _ Hc).
  destruct Hc as (_ & _ & k0 & Hcs). rewrite Hcs in Hnd. intros [= Hr1] [= Hr2]. f_equal. by eapply route_convex.
Qed.

Lemma walk_convex nodes root h depth m k1 k k2 n : ∀ id,
  tree_inv None nodes root h depth m → k1 ≤ k → k ≤ k2 →
  walk None nodes root k1 n = Some id → walk None nodes root k2 n = Some id → walk None nodes root k n = Some id.
Proof.
  induction n as [|n IH]; intros id Hinv H1 H2 Hw1 Hw2; [done|].
  destruct (walk_node Hinv _ _ _ Hw1) as (nd & Hnd & _).
  pose proof (walk_parent Hinv _ _ _ _ Hw1 Hnd) as Hp1. pose proof (walk_parent Hinv _ _ _ _ Hw2 Hnd) as Hp2.
  pose proof (IH _ Hinv H1 H2 Hp1 Hp2) as Hp. rewrite walk_S in Hw1, Hw2 |- *. rewrite Hp1 in Hw1. rewrite Hp2 in Hw2. rewrite Hp.
  cbn [mbind option_bind] in *. destruct (nodes !! node_parent nd) as [pd|] eqn:Hpd; [|done]. cbn [mbind option_bind] in *.
  destruct (inv_ok _ _ _ _ _ _ Hinv _ _ Hpd) as [_ Hok].
  destruct (node_step k1 pd) as [c1|] eqn:Hs1; [|done]. destruct (node_step k2 pd) as [c2|] eqn:Hs2; [|done].
  cbn in Hw1, Hw2. injection Hw1 as ->. injection Hw2 as ->.
  by rewrite (node_step_convex k1 k k2 pd id).
Qed.

(** ** Two leaves in the chain *)
Section chain.
Context {next : Z → option Z} {to_leaf : Z → option Z} {L1 L2 : list Z} {a b : Z}.
Context (Hchain : leaf_chain next to_leaf (L1 ++ a :: b :: L2)).

Lemma chain_pair_names : a ∉ L1 ∧ b ∉ L1 ∧ a ∉ L2 ∧ b ∉ L2 ∧ a ≠ b.
Proof.
  pose proof (chain_nodup _ _ _ Hchain) as Hnd. apply NoDup_app in Hnd as (_ & Hd & Hnd).
  apply NoDup_cons in Hnd as [Ha Hnd]. apply NoDup_cons in Hnd as [Hb _].
  split_and!; [intros Hin; apply (Hd _ Hin); by left|intros Hin; apply (Hd _ Hin); right; by left|set_solver|done|set_solver].
Qed.

Lemma chain_pair_linked next' : (∀ x, x ∈ L1 ++ L2 → next' x = next x) →
  (next' a = Some b ∧ next' b = next b → linked next' (L1 ++ [a; b] ++ L2)) ∧ (next' a = next b → linked next' (L1 ++ [a] ++ L2)).
Proof.
  intros Hn. pose proof (chain_linked _ _ _ Hchain) as Hl.
  assert (∀ L L', head L = Some a → linked next (L1 ++ a :: L') → (∀ x, x ∈ L1 → next' x = next x) → linked next' L → linked next' (L1 ++ L)) as Happ.
  { clear. intros L L' HL Hl Hn HL'. induction L1 as [|x L1' IH]; [done|]. destruct Hl as [Hx Hl]. split.
    - rewrite Hn by (by left). rewrite Hx. destruct L1'; [|done]. by destruct L; simplify_eq/=.
    - apply IH; [done|]. intros y Hy. apply Hn. by right. }
  assert (linked next (a :: b :: L2)) as (_ & Hb & Hl2).
  { clear -Hl. induction L1 as [|x L1' IH]; [done|]. destruct Hl as [_ Hl]. by apply IH. }
  assert (linked next' L2) as Hl2' by (eapply linked_ext; [|done]; set_solver).
  split.
  - intros [Ha' Hb']. apply (Happ ([a; b] ++ L2) (b :: L2)); [done|done|set_solver|]. split; [done|]. split; [by rewrite Hb'|done].
  - intros Ha'. apply (Happ ([a] ++ L2) (b :: L2)); [done|done|set_solver|]. split; [by rewrite Ha'|done].
Qed.
Context (to_leaf' : Z → option Z).

(** The first leaf stays the first. *)
Lemma chain_pair_first L k1 : head L = Some a → (∀ k x, k < k1 → x ≠ b → to_leaf k = Some x → to_leaf' k = Some x) →
  ∃ k0, ∀ k, k ≤ k0 → to_leaf' k = head (L1 ++ L ++ L2).
Proof.
  intros HL Hk1. destruct (chain_first _ _ _ Hchain) as [k0 Hk0]. exists (Z.min k0 (k1 - 1)). intros k Hk.
  assert (head (L1 ++ L ++ L2) = head (L1 ++ a :: b :: L2)) as ->.
  { destruct L1; [|done]. destruct L; by simplify_eq/=. }
  pose proof chain_pair_names as (_ & Hb1 & _ & _ & Hab). pose proof (Hk0 k ltac:(lia)) as Hh.
  destruct L1 as [|c L1']; cbn in *; (apply Hk1; [lia| |done]); [done|set_solver].
Qed.

Context (Houter : ∀ k x, to_leaf' k = Some x → x ≠ a → x ≠ b → to_leaf k = Some x)
  (Hinner : ∀ k x, to_leaf' k = Some x → x = a ∨ x = b → to_leaf k = Some a ∨ to_leaf k = Some b).

(** The leaves around the two stay in order. *)
Lemma chain_pair_sorted L : (∀ x, x ∈ L → x = a ∨ x = b) → StronglySorted (routed_before to_leaf') L →
  StronglySorted (routed_before to_leaf') (L1 ++ L ++ L2).
Proof.
  intros HL HsL. pose proof chain_pair_names as (Ha1 & Hb1 & Ha2 & Hb2 & _).
  pose proof (chain_sorted _ _ _ Hchain) as Hs. apply sorting.StronglySorted_app in Hs as (H12 & Hs1 & Hs2).
  apply StronglySorted_inv in Hs2 as [Hs2 Hfa]. apply StronglySorted_inv in Hs2 as [Hs2 Hfb]. rewrite Forall_forall in Hfa, Hfb.
  assert (∀ x, x ∈ L1 ∨ x ∈ L2 → x ≠ a ∧ x ≠ b) as Hout by (intros x Hx; split; intros ->; tauto).
  assert (∀ x y, x ∈ L1 ∨ x ∈ L2 → y ∈ L1 ∨ y ∈ L2 → routed_before to_leaf x y → routed_before to_leaf' x y) as Hmono.
  { intros x y Hx Hy Hxy k k' Hk Hk'. apply Hout in Hx as [? ?], Hy as [? ?]. apply Hxy; by apply Houter. }
  apply sorting.StronglySorted_app. split_and!.
  - intros x y Hx [Hy|Hy]%elem_of_app.
    + intros k k' Hk Hk'. destruct (Hout x) as [? ?]; [by left|]. apply Houter in Hk; [|done|done].
      destruct (Hinner k' y Hk' (HL y Hy)) as [Hy'|Hy'].
      * by apply (H12 x a Hx ltac:(by left)).
      * by apply (H12 x b Hx ltac:(right; by left)).
    + apply Hmono; [by left|by right|]. apply H12; [done|]. by do 2 right.
  - eapply sorted_mono; [|exact Hs1]. intros x y Hx Hy. apply Hmono; by left.
  - apply sorting.StronglySorted_app. split_and!; [|done|].
    + intros x y Hx Hy k k' Hk Hk'. destruct (Hout y) as [? ?]; [by right|]. apply Houter in Hk'; [|done|done].
      destruct (Hinner k x Hk (HL x Hx)) as [Hx'|Hx'].
      * apply (Hfa y ltac:(by right) k k' Hx' Hk').
      * apply (Hfb y Hy k k' Hx' Hk').
    + eapply sorted_mono; [|exact Hs2]. intros x y Hx Hy. apply Hmono; by right.
Qed.
End chain.

(** Where the two stand in the chain. *)
Lemma chain_pair next to_leaf L a b : leaf_chain next to_leaf L → next a = Some b → b ≠ INVALID_PAGE_ID → ∃ L1 L2, L = L1 ++ a :: b :: L2.
Proof.
  intros Hchain Ha Hb. assert (a ∈ L) as Hin by (apply (chain_all _ _ _ Hchain); by eexists).
  apply list_elem_of_split in Hin as (L1 & L2 & ->). exists L1. pose proof (chain_linked _ _ _ Hchain) as Hl.
  assert (linked next (a :: L2)) as [Hna _].
  { clear -Hl. induction L1 as [|x L1' IH]; [done|]. destruct Hl as [_ Hl]. by apply IH. }
  rewrite Ha in Hna. injection Hna as ->. destruct L2 as [|c L2]; [done|]. by exists L2.
Qed.

(** Keys change sides between the two, or all go to the left one. *)
Definition moved_to (a b key' : Z) (key r : Z) : Z := if bool_decide (r = a ∨ r = b) then (if bool_decide (key < key') then a else b) else r.
Definition moved_left (a b : Z) (key r : Z) : Z := if bool_decide (r = b) then a else r.

Lemma chain_redistribute next next' to_leaf to_leaf' L a b key' :
  leaf_chain next to_leaf L → (∀ x, next' x = next x) → next a = Some b → b ≠ INVALID_PAGE_ID →
  (∀ key, to_leaf' key = moved_to a b key' key <$> to_leaf key) → leaf_chain next' to_leaf' L.
Proof.
  intros Hchain Hn Ha Hb Ht. destruct (chain_pair _ _ _ _ _ Hchain Ha Hb) as (L1 & L2 & ->).
  pose proof (chain_pair_names Hchain) as (_ & _ & _ & _ & Hab).
  assert (∀ k x, to_leaf' k = Some x → x ≠ a → x ≠ b → to_leaf k = Some x) as Houter.
  { intros k x. rewrite Ht. destruct (to_leaf k) as [r|]; [|done]. cbn. unfold moved_to. intros [= <-]. repeat case_bool_decide; try done; congruence. }
  assert (∀ k x, to_leaf' k = Some x → x = a ∨ x = b → (to_leaf k = Some a ∨ to_leaf k = Some b) ∧ (x = a → k < key') ∧ (x = b → key' ≤ k)) as Hinner.
  { intros k x. rewrite Ht. destruct (to_leaf k) as [r|]; [|done]. cbn. unfold moved_to. intros [= <-] Hx.
    case_bool_decide as Hr; [|tauto]. split; [destruct Hr as [->| ->]; [by left|by right]|]. case_bool_decide; split; intros; try congruence; lia. }
  split.
  - destruct (chain_pair_linked Hchain next') as [Hl _]; [done|]. apply Hl. by rewrite !Hn.
  - intros id. rewrite Hn. apply (chain_all _ _ _ Hchain).
  - apply (chain_nodup _ _ _ Hchain).
  - apply (chain_pair_sorted Hchain to_leaf' Houter (fun k x H H' => proj1 (Hinner k x H H')) [a; b]); [set_solver|].
    repeat constructor. intros k k' Hk Hk'. apply Hinner in Hk as (_ & Hk & _); [|by left]. apply Hinner in Hk' as (_ & _ & Hk'); [|by right].
    specialize (Hk eq_refl). specialize (Hk' eq_refl). lia.
  - apply (chain_pair_first Hchain to_leaf' [a; b] key'); [done|]. intros k x Hk Hx Hkx. rewrite Ht, Hkx. cbn. unfold moved_to.
    case_bool_decide as Hr; [|done]. rewrite bool_decide_true by done. destruct Hr; by subst.
Qed.

Lemma chain_merge next next' to_leaf to_leaf' L a b :
  leaf_chain next to_leaf L → (∀ x, x ≠ a → x ≠ b → next' x = next x) → next a = Some b → b ≠ INVALID_PAGE_ID →
  next' a = next b → next' b = None → (∀ key, to_leaf' key = moved_left a b key <$> to_leaf key) → ∃ L', leaf_chain next' to_leaf' L'.
Proof.
  intros Hchain Hn Ha Hb Ha' Hb' Ht. destruct (chain_pair _ _ _ _ _ Hchain Ha Hb) as (L1 & L2 & ->).
  pose proof (chain_pair_names Hchain) as (Ha1 & Hb1 & Ha2 & Hb2 & Hab). exists (L1 ++ [a] ++ L2).
  assert (∀ k x, to_leaf' k = Some x → x ≠ a → x ≠ b → to_leaf k = Some x) as Houter.
  { intros k x. rewrite Ht. destruct (to_leaf k) as [r|]; [|done]. cbn. unfold moved_left. intros [= <-]. case_bool_decide; congruence. }
  assert (∀ k x, to_leaf' k = Some x → x = a ∨ x = b → to_leaf k = Some a ∨ to_leaf k = Some b) as Hinner.
  { intros k x. rewrite Ht. destruct (to_leaf k) as [r|]; [|done]. cbn. unfold moved_left. intros [= <-] Hx.
    case_bool_decide as Hr; [right; congruence|]. destruct Hx; [left|right]; congruence. }
  split.
  - destruct (chain_pair_linked Hchain next') as [_ Hl]; [|by apply Hl]. intros x Hx. apply Hn; intros ->; set_solver.
  - intros id Hid. destruct (decide (id = a)) as [->|]; [set_solver|]. destruct (decide (id = b)) as [->|]; [by rewrite Hb' in Hid; destruct Hid|].
    rewrite Hn in Hid by done. apply (chain_all _ _ _ Hchain) in Hid. set_solver.
  - pose proof (chain_nodup _ _ _ Hchain) as Hnd. eapply sublist_NoDup; [exact Hnd|]. apply sublist_app; [done|]. cbn. by repeat constructor.
  - apply (chain_pair_sorted Hchain to_leaf' Houter Hinner [a]); [set_solver|repeat constructor].
  - apply (chain_pair_first Hchain to_leaf' [a] 0); [done|]. intros k x _ Hx Hkx. rewrite Ht, Hkx. cbn. unfold moved_left. by rewrite bool_decide_false.
Qed.

(** ** Two leaves change under their parent *)
Section pair_change.
Context {nodes nodes' : gmap Z node} {root : Z} {h : nat} {depth : Z → nat} {m : gmap Z RID} {pid a b : Z} {q q' : TreePage Z}.
Context (moved : Z → Z → Z).
Context (Hinv : tree_inv None nodes root h depth m) (Hpid : nodes !! pid = Some (NInternal q))
  (Ha : a ∈ (cells q).*2) (Hb : b ∈ (cells q).*2) (Hdep : h = S (depth pid)).
Context (Hpid' : nodes' !! pid = Some (NInternal q')) (Hother : ∀ i, i ≠ pid → i ≠ a → i ≠ b → nodes' !! i = nodes !! i).
Context (Hok' : internal_ok q') (Hnd' : NoDup (cells q').*2) (Hpar' : parent_page_id_ q' = parent_page_id_ q).
Context (Hmoved : ∀ key r, r ≠ a → r ≠ b → moved key r = r)
  (Hlook : ∀ key, Internal_Lookup key q' = (r ← Internal_Lookup key q; mret (moved key r))).
(** The new children are old ones and are there; the leaves have the keys that are
    routed to them. *)
Context (Hchildren : ∀ c, c ∈ (cells q').*2 ↔ c ∈ (cells q).*2 ∧ is_Some (nodes' !! c)).
Context (Hleaves : ∀ i nd, i = a ∨ i = b → nodes' !! i = Some nd →
  ∃ p, nd = NLeaf p ∧ leaf_ok p ∧ parent_page_id_ p = pid ∧
    ∀ key, is_Some (leaf_map p !! key) → ∃ j, (j = a ∨ j = b) ∧ walk None nodes root key h = Some j ∧ moved key j = i).
Context (Hvalues : ∀ key i, i = a ∨ i = b → walk None nodes root key h = Some i →
  ∃ p, nodes' !! moved key i = Some (NLeaf p) ∧ leaf_map p !! key = m !! key).
Context (Hseps : ∀ key, key ∈ separators q' → key ∈ separators q ∨
  walk None nodes root key (depth pid) = Some pid ∧ ∀ i p, nodes !! i = Some (NInternal p) → key ∉ separators p).
Context (Hchain : ∃ L, leaf_chain (leaf_next nodes') (fun key => moved key <$> walk None nodes root key h) L).

Lemma pair_child c : c = a ∨ c = b → ∃ p, nodes !! c = Some (NLeaf p) ∧ parent_page_id_ p = pid ∧ c ≠ pid ∧ c ≠ root ∧ depth c = h.
Proof.
  intros Hc. assert (c ∈ children (NInternal q)) as Hin by (by destruct Hc as [->| ->]).
  destruct (inv_children _ _ _ _ _ _ Hinv _ _ c Hpid Hin) as (cd & Hcd & Hp & Hd).
  pose proof (inv_depth _ _ _ _ _ _ Hinv _ _ Hcd) as Hl. destruct cd as [p|p|]; [|lia|lia]. exists p. split_and!; [done|done| | |lia].
  - intros ->. lia.
  - intros ->. by apply (root_not_child Hinv pid _ Hpid).
Qed.

(** Nodes away from the two leaves. *)
Lemma pair_back i nd : nodes' !! i = Some nd → i ≠ a → i ≠ b →
  (i = pid ∧ nd = NInternal q') ∨ (i ≠ pid ∧ nodes !! i = Some nd).
Proof.
  intros Hi Hia Hib. destruct (decide (i = pid)) as [->|]; [left; split; [done|congruence]|right]. split; [done|]. by rewrite <-Hother.
Qed.

Lemma pair_forward i nd : nodes !! i = Some nd → i ≠ a → i ≠ b →
  ∃ nd', nodes' !! i = Some nd' ∧ node_parent nd' = node_parent nd ∧ (nd' = nd ∨ i = pid).
Proof.
  intros Hi Hia Hib. destruct (decide (i = pid)) as [->|].
  - exists (NInternal q'). split; [done|]. split; [|by right]. simplify_eq. done.
  - exists nd. rewrite Hother by done. split; [done|]. split; [done|by left].
Qed.

Lemma pair_walk_above key n : (n ≤ depth pid)%nat → walk None nodes' root key n = walk None nodes root key n.
Proof.
  induction n as [|n IH]; intros Hn; [done|]. rewrite !walk_S, IH by lia.
  destruct (walk None nodes root key n) as [id|] eqn:Hw; [|done]. cbn [mbind option_bind].
  destruct (walk_node Hinv _ _ _ Hw) as (nd & _ & Hd). rewrite Hother; [done|..].
  - intros ->. lia.
  - intros ->. destruct (pair_child a) as (_ & _ & _ & _ & _ & ?); [by left|]. lia.
  - intros ->. destruct (pair_child b) as (_ & _ & _ & _ & _ & ?); [by right|]. lia.
Qed.

Lemma pair_walk key : walk None nodes' root key h = moved key <$> walk None nodes root key h.
Proof.
  rewrite Hdep, !walk_S, pair_walk_above by done.
  destruct (walk None nodes root key (depth pid)) as [id|] eqn:Hw; [|done]. cbn [mbind option_bind].
  destruct (walk_node Hinv _ _ _ Hw) as (nd & Hid & Hd). destruct (decide (id = pid)) as [->|Hne].
  - rewrite Hpid', Hpid. cbn. rewrite Hlook. by destruct (Internal_Lookup key q).
  - rewrite Hother; [|done|..].
    2:{ intros ->. destruct (pair_child a) as (_ & _ & _ & _ & _ & ?); [by left|]. lia. }
    2:{ intros ->. destruct (pair_child b) as (_ & _ & _ & _ & _ & ?); [by right|]. lia. }
    rewrite Hid. cbn [mbind option_bind]. destruct (node_step key nd) as [c|] eqn:Hc; [|done]. cbn. f_equal.
    destruct (inv_ok _ _ _ _ _ _ Hinv _ _ Hid) as [_ Hok]. pose proof (node_step_child _ _ _ Hok Hc) as Hin.
    destruct (inv_children _ _ _ _ _ _ Hinv _ _ c Hid Hin) as (cd & Hcd & Hp & _).
    symmetry. apply Hmoved; intros ->.
    + destruct (pair_child a) as (p & Hp' & ? & _); [by left|]. rewrite Hcd in Hp'. injection Hp' as ->. cbn in Hp. congruence.
    + destruct (pair_child b) as (p & Hp' & ? & _); [by right|]. rewrite Hcd in Hp'. injection Hp' as ->. cbn in Hp. congruence.
Qed.

Lemma pair_keys i nd key : nodes' !! i = Some nd → has_key nd key → walk None nodes' root key (depth i) = Some i.
Proof.
  intros Hi Hk. destruct (decide (i = a ∨ i = b)) as [Hab|Hab].
  - destruct (pair_child i Hab) as (_ & _ & _ & _ & _ & ->). rewrite pair_walk.
    destruct (Hleaves i nd Hab Hi) as (p & -> & _ & _ & Hp). destruct (Hp key Hk) as (j & _ & -> & Hj). cbn. by rewrite Hj.
  - destruct (pair_back i nd Hi) as [[-> ->]|[Hne Hi0]]; [tauto|tauto| |].
    + rewrite pair_walk_above by done. destruct (Hseps key Hk) as [Hold|[Hw _]]; [|done].
      by apply (inv_keys _ _ _ _ _ _ Hinv pid (NInternal q)).
    + pose proof (inv_keys _ _ _ _ _ _ Hinv i nd key Hi0 Hk) as Hw. pose proof (inv_depth _ _ _ _ _ _ Hinv i nd Hi0) as Hd.
      destruct nd as [p|p|]; [|rewrite pair_walk_above by lia; done|done].
      rewrite Hd in Hw |- *. rewrite pair_walk, Hw. cbn. f_equal. apply Hmoved; tauto.
Qed.

Lemma pair_children i nd c : nodes' !! i = Some nd → c ∈ children nd →
  ∃ cd, nodes' !! c = Some cd ∧ node_parent cd = i ∧ depth c = S (depth i).
Proof.
  intros Hi Hc. destruct (decide (i = a ∨ i = b)) as [Hab|Hab].
  { destruct (Hleaves i nd Hab Hi) as (p & -> & _). by apply not_elem_of_nil in Hc. }
  assert (∃ nd0, nodes !! i = Some nd0 ∧ c ∈ children nd0 ∧ is_Some (nodes' !! c)) as (nd0 & Hi0 & Hc0 & [cd' Hcd']).
  { destruct (pair_back i nd Hi) as [[-> ->]|[Hne Hi0]]; [tauto|tauto| |].
    - exists (NInternal q). split; [done|]. by apply Hchildren.
    - exists nd. split; [done|]. split; [done|]. destruct (inv_children _ _ _ _ _ _ Hinv _ _ c Hi0 Hc) as (cd & Hcd & Hp & _).
      assert (∀ x, x = a ∨ x = b → c ≠ x) as Hx.
      { intros x Hx ->. destruct (pair_child x Hx) as (p & Hp' & Hpp & _). rewrite Hcd in Hp'. injection Hp' as ->. cbn in Hp. congruence. }
      destruct (pair_forward c cd Hcd) as (cd' & ? & _); [apply Hx; by left|apply Hx; by right|]. by exists cd'. }
  destruct (inv_children _ _ _ _ _ _ Hinv _ _ c Hi0 Hc0) as (cd & Hcd & Hp & Hd). exists cd'. split; [done|]. split; [|done].
  destruct (decide (c = a ∨ c = b)) as [Hcab|Hcab].
  - destruct (Hleaves c cd' Hcab Hcd') as (p & -> & _ & Hpp & _). destruct (pair_child c Hcab) as (p0 & Hp0 & Hpp0 & _).
    rewrite Hcd in Hp0. injection Hp0 as ->. cbn in *. congruence.
  - destruct (pair_forward c cd Hcd) as (cd2 & Hcd2 & Hp2 & _); [tauto|tauto|]. congruence.
Qed.

Lemma pair_linked i nd : nodes' !! i = Some nd → node_parent nd ≠ INVALID_PAGE_ID →
  ∃ pd, nodes' !! node_parent nd = Some pd ∧ (i ∈ children pd ∨ ∃ old middle, (None : redirection) = Some (old, middle, i)).
Proof.
  intros Hi Hp. destruct (decide (i = a ∨ i = b)) as [Hab|Hab].
  { destruct (Hleaves i nd Hab Hi) as (p & -> & _ & Hpp & _). cbn. rewrite Hpp. exists (NInternal q'). split; [done|left].
    apply Hchildren. split; [by destruct Hab as [->| ->]|by eexists]. }
  assert (∃ nd0, nodes !! i = Some nd0 ∧ node_parent nd0 = node_parent nd) as (nd0 & Hi0 & Hp0).
  { destruct (pair_back i nd Hi) as [[-> ->]|[Hne Hi0]]; [tauto|tauto| |by exists nd]. by exists (NInternal q). }
  rewrite <-Hp0 in Hp |- *. destruct (inv_linked _ _ _ _ _ _ Hinv i nd0 Hi0 Hp) as (pd & Hpd & [Hin|(? & ? & ?)]); [|done].
  destruct (decide (node_parent nd0 = a ∨ node_parent nd0 = b)) as [Hab'|Hab'].
  { destruct (pair_child _ Hab') as (p & Hp' & _). rewrite Hpd in Hp'. injection Hp' as ->. by apply not_elem_of_nil in Hin. }
  destruct (pair_forward _ pd Hpd) as (pd' & Hpd' & _ & Hpd2); [tauto|tauto|]. exists pd'. split; [done|left].
  destruct Hpd2 as [->|Heq]; [done|]. rewrite Heq in Hpd, Hpd'. simplify_eq. apply Hchildren. split; [done|by eexists].
Qed.

Lemma inv_pair_change : tree_inv None nodes' root h depth m.
Proof.
  constructor.
  - intros key. rewrite pair_walk. destruct (inv_leaf _ _ _ _ _ _ Hinv key) as (i & p & Hi & Hp & Hm). rewrite Hi. cbn.
    destruct (decide (i = a ∨ i = b)) as [Hab|Hab].
    + destruct (Hvalues key i Hab Hi) as (p' & Hp' & Hm'). by exists (moved key i), p'.
    + rewrite Hmoved by tauto. exists i, p. split; [done|]. split; [|done]. rewrite Hother; [done| |tauto|tauto]. congruence.
  - destruct (inv_root _ _ _ _ _ _ Hinv) as (rd & Hrd & Hrp & Hr0). destruct (pair_forward root rd Hrd) as (rd' & ? & ? & _).
    + intros Heq. destruct (pair_child a) as (_ & _ & _ & _ & ? & _); [by left|congruence].
    + intros Heq. destruct (pair_child b) as (_ & _ & _ & _ & ? & _); [by right|congruence].
    + exists rd'. split_and!; [done|congruence|done].
  - intros i nd Hi. destruct (decide (i = a ∨ i = b)) as [Hab|Hab].
    + destruct (Hleaves i nd Hab Hi) as (p & -> & Hlok & _). destruct (pair_child i Hab) as (p0 & Hp0 & _).
      split; [by apply (inv_ok _ _ _ _ _ _ Hinv i _ Hp0)|done].
    + destruct (pair_back i nd Hi) as [[-> ->]|[Hne Hi0]]; [tauto|tauto| |by apply (inv_ok _ _ _ _ _ _ Hinv i)].
      split; [by apply (inv_ok _ _ _ _ _ _ Hinv pid _ Hpid)|done].
  - intros i nd Hi. destruct (decide (i = a ∨ i = b)) as [Hab|Hab].
    + destruct (Hleaves i nd Hab Hi) as (p & -> & _). by destruct (pair_child i Hab) as (p0 & Hp0 & _ & _ & _ & ?).
    + destruct (pair_back i nd Hi) as [[-> ->]|[Hne Hi0]]; [tauto|tauto|lia|by apply (inv_depth _ _ _ _ _ _ Hinv i)].
  - apply pair_children.
  - apply pair_linked.
  - apply pair_keys.
  - intros i j q1 q2 key Hi Hj Hk1 Hk2.
    assert (∀ i p, nodes' !! i = Some (NInternal p) → key ∈ separators p →
      (∃ p0, nodes !! i = Some (NInternal p0) ∧ key ∈ separators p0) ∨
      i = pid ∧ ∀ i p, nodes !! i = Some (NInternal p) → key ∉ separators p) as Hold.
    { clear i j q1 q2 Hi Hj Hk1 Hk2. intros i p Hi Hk. destruct (decide (i = a ∨ i = b)) as [Hab|Hab].
      { by destruct (Hleaves i _ Hab Hi) as (? & ? & _). }
      destruct (pair_back i _ Hi) as [[-> [= ->]]|[Hne Hi0]]; [tauto|tauto| |left; by exists p].
      destruct (Hseps key Hk) as [Hq|[_ Hf]]; [left; by exists q|by right]. }
    destruct (Hold i q1 Hi Hk1) as [(p1 & Hi0 & Hp1)|[-> Hf1]], (Hold j q2 Hj Hk2) as [(p2 & Hj0 & Hp2)|[-> Hf2]]; [|by destruct (Hf2 i p1 Hi0)|by destruct (Hf1 j p2 Hj0)|done].
    by apply (inv_unique _ _ _ _ _ _ Hinv i j p1 p2 key).
  - done.
  - destruct Hchain as [L HL]. exists L. eapply leaf_chain_ext; [done| |exact HL]. intros key. apply pair_walk.
Qed.
End pair_change.

(** ** Neighbouring leaves *)
Section neighbours.
Context {nodes : gmap Z node} {root : Z} {h : nat} {depth : Z → nat} {m : gmap Z RID}.
Context {pid : Z} {q : TreePage Z} {v0 : Z} {cs1 : list (Z * Z)} {mid b : Z} {cs2 : list (Z * Z)} {pa pb : TreePage RID}.
Context (Hinv : tree_inv None nodes root h depth m) (Hpid : nodes !! pid = Some (NInternal q))
  (Hq : has_cells q v0 (cs1 ++ (mid, b) :: cs2)).
Abbreviation a := (left_of v0 cs1).
Context (Hpa : nodes !! a = Some (NLeaf pa)) (Hpb : nodes !! b = Some (NLeaf pb)).

Lemma neighbours_sorted : StronglySorted Z.lt (cs1 ++ (mid, b) :: cs2).*1.
Proof. by destruct Hq as (_ & ? & _). Qed.

Lemma neighbours_nodup : NoDup (v0 :: (cs1 ++ (mid, b) :: cs2).*2).
Proof. destruct (inv_ok _ _ _ _ _ _ Hinv _ _ Hpid) as [_ [_ Hnd]]. destruct Hq as (_ & _ & k0 & Hcs). by rewrite Hcs in Hnd. Qed.

Lemma neighbours_child_a : a ∈ (cells q).*2.
Proof. destruct Hq as (_ & _ & k0 & ->). cbn. apply left_of_child. Qed.

Lemma neighbours_child_b : b ∈ (cells q).*2.
Proof. destruct Hq as (_ & _ & k0 & ->). cbn. rewrite fmap_app. cbn. set_solver. Qed.

Lemma neighbours_differ : a ≠ b.
Proof. intros Heq. destruct (neighbour_names v0 cs1 mid b cs2 neighbours_nodup) as (Hb & _ & _ & Hin). by rewrite Heq in Hin. Qed.

Lemma neighbours_depth : h = S (depth pid).
Proof.
  destruct (inv_children _ _ _ _ _ _ Hinv _ _ b Hpid neighbours_child_b) as (cd & Hcd & _ & Hd).
  pose proof (inv_depth _ _ _ _ _ _ Hinv _ _ Hpb). cbn in *. congruence.
Qed.

Lemma neighbours_parents : parent_page_id_ pa = pid ∧ parent_page_id_ pb = pid.
Proof.
  destruct (inv_children _ _ _ _ _ _ Hinv _ _ b Hpid neighbours_child_b) as (cd & Hcd & Hp & _).
  destruct (inv_children _ _ _ _ _ _ Hinv _ _ a Hpid neighbours_child_a) as (cd' & Hcd' & Hp' & _). by simplify_eq.
Qed.

(** What is routed to one of the two passes their parent. *)
Lemma neighbours_pass key i : i = a ∨ i = b → walk None nodes root key h = Some i →
  walk None nodes root key (depth pid) = Some pid ∧ route key v0 (cs1 ++ (mid, b) :: cs2) = i.
Proof.
  intros Hi Hw. assert (∃ p, nodes !! i = Some (NLeaf p) ∧ parent_page_id_ p = pid) as (p & Hp & Hpp).
  { destruct neighbours_parents. destruct Hi as [->| ->]; [by exists pa|by exists pb]. }
  rewrite neighbours_depth in Hw. pose proof (walk_parent Hinv _ _ _ _ Hw Hp) as Hw'. cbn in Hw'. rewrite Hpp in Hw'. split; [done|].
  rewrite walk_S, Hw' in Hw. cbn [mbind option_bind] in Hw. rewrite Hpid in Hw. cbn [mbind option_bind node_step] in Hw.
  rewrite (has_cells_lookup _ _ _ key Hq) in Hw. by injection Hw.
Qed.

Lemma neighbours_key i p key : (i = a ∧ p = pa) ∨ (i = b ∧ p = pb) → is_Some (leaf_map p !! key) → walk None nodes root key h = Some i.
Proof.
  intros Hi Hk. assert (nodes !! i = Some (NLeaf p)) as Hp by (by destruct Hi as [[-> ->]|[-> ->]]).
  pose proof (inv_keys _ _ _ _ _ _ Hinv i (NLeaf p) key Hp Hk) as Hw. by rewrite (inv_depth _ _ _ _ _ _ Hinv i (NLeaf p) Hp) in Hw.
Qed.

Lemma neighbours_left_key key : is_Some (leaf_map pa !! key) → Forall (fun c => c.1 ≤ key) cs1 ∧ key < mid.
Proof.
  intros Hk. destruct (neighbours_pass key a) as [_ Hr]; [by left|eapply neighbours_key; [by left|done]|].
  eapply route_is_left; [apply neighbours_sorted|apply neighbours_nodup|done].
Qed.

Lemma neighbours_right_key key : is_Some (leaf_map pb !! key) → mid ≤ key ∧ Forall (fun c => key < c.1) cs2.
Proof.
  intros Hk. destruct (neighbours_pass key b) as [_ Hr]; [by right|eapply neighbours_key; [by right|done]|].
  eapply route_is_right; [apply neighbours_sorted|apply neighbours_nodup|done].
Qed.

(** The two leaves together, in order. *)
Lemma neighbours_cells : StronglySorted Z.lt (cells pa ++ cells pb).*1 ∧
  ∀ key, (list_to_map (cells pa ++ cells pb) : gmap Z RID) !! key =
    match leaf_map pa !! key with Some v => Some v | None => leaf_map pb !! key end.
Proof.
  destruct (inv_ok _ _ _ _ _ _ Hinv _ _ Hpa) as [_ [_ Hsa]]. destruct (inv_ok _ _ _ _ _ _ Hinv _ _ Hpb) as [_ [_ Hsb]].
  assert (∀ (p : TreePage RID) k, k ∈ (cells p).*1 → is_Some (leaf_map p !! k)) as Hin.
  { intros p k Hk. apply not_eq_None_Some. by intros ?%not_elem_of_list_to_map. }
  split.
  - rewrite fmap_app. apply StronglySorted_app_intro; [done|done|]. intros x y Hx%Hin Hy%Hin.
    apply neighbours_left_key in Hx as [_ ?]. apply neighbours_right_key in Hy as [? _]. lia.
  - intros key. rewrite list_to_map_app, lookup_union. unfold leaf_map. by destruct (_ !! key), (_ !! key).
Qed.

(** In the chain of leaves the right one comes behind the left one, when no leaf is
    empty. *)
Lemma neighbours_linked :
  (∀ i p, nodes !! i = Some (NLeaf p) → ∃ k, is_Some (leaf_map p !! k)) → next_page_id_ pa = b.
Proof.
  intros Hfull. destruct (inv_chain _ _ _ _ _ _ Hinv) as [L [Hl Hall Hnd Hs _]].
  destruct (Hfull _ _ Hpa) as [ka Hka]. destruct (Hfull _ _ Hpb) as [kb Hkb].
  pose proof (neighbours_key a pa ka ltac:(by left) Hka) as Hwa. pose proof (neighbours_key b pb kb ltac:(by right) Hkb) as Hwb.
  pose proof (neighbours_left_key ka Hka) as [Hca Hma]. pose proof (neighbours_right_key kb Hkb) as [Hmb Hcb].
  assert (a ∈ L) as Hina by (apply Hall; unfold leaf_next; rewrite Hpa; by eexists).
  assert (b ∈ L) as Hinb by (apply Hall; unfold leaf_next; rewrite Hpb; by eexists).
  apply list_elem_of_split in Hina as (L1 & L2 & ->). apply sorting.StronglySorted_app in Hs as (H12 & _ & Hs2).
  assert (∀ k0 k1, walk None nodes root k0 h = Some b → walk None nodes root k1 h = Some a → k1 < k0 → b ∉ L1) as Hnb.
  { intros k0 k1 H0 H1 Hlt Hin. pose proof (H12 b a Hin ltac:(by left) k0 k1 H0 H1). lia. }
  pose proof (Hnb kb ka Hwb Hwa ltac:(lia)) as HbL1. pose proof neighbours_differ as Hab.
  assert (linked (leaf_next nodes) (a :: L2)) as [Hna Hl2].
  { clear -Hl. induction L1 as [|x L1 IH]; [done|]. destruct Hl as [_ Hl]. by apply IH. }
  unfold leaf_next in Hna. rewrite Hpa in Hna. injection Hna as ->. destruct L2 as [|c L2]; [set_solver|].
  apply StronglySorted_inv in Hs2 as [Hs2 Hfa]. apply StronglySorted_inv in Hs2 as [_ Hfc]. rewrite Forall_forall in Hfa, Hfc.
  destruct (decide (c = b)) as [|Hcb']; [done|exfalso]. assert (b ∈ L2) as HbL2 by set_solver.
  destruct Hl2 as [Hnc _]. unfold leaf_next in Hnc. destruct (nodes !! c) as [[pc|pc|]|] eqn:Hpc; try done.
  destruct (Hfull _ _ Hpc) as [kc Hkc]. pose proof (inv_keys _ _ _ _ _ _ Hinv c (NLeaf pc) kc Hpc Hkc) as Hwc.
  rewrite (inv_depth _ _ _ _ _ _ Hinv c (NLeaf pc) Hpc) in Hwc.
  pose proof (Hfa c ltac:(by left) ka kc Hwa Hwc). pose proof (Hfc b HbL2 kc kb Hwc Hwb).
  destruct (neighbours_pass ka a ltac:(by left) Hwa) as [Hpa' _]. destruct (neighbours_pass kb b ltac:(by right) Hwb) as [Hpb' _].
  assert (walk None nodes root kc (depth pid) = Some pid) as Hpc' by (eapply (walk_convex nodes root h depth m ka kc kb); [done|lia|lia|done|done]).
  rewrite neighbours_depth, walk_S, Hpc' in Hwc. cbn [mbind option_bind] in Hwc. rewrite Hpid in Hwc. cbn [mbind option_bind node_step] in Hwc.
  rewrite (has_cells_lookup _ _ _ kc Hq) in Hwc. injection Hwc as Hr. cbn in Hr.
  destruct (decide (kc < mid)).
  - rewrite (route_left v0 cs1 mid b cs2 neighbours_sorted), route_last in Hr by (done || (eapply Forall_impl; [exact Hca|cbn; lia])).
    apply NoDup_app in Hnd as (_ & _ & [Hn _]%NoDup_cons). set_solver.
  - rewrite (route_right v0 cs1 mid b cs2 neighbours_sorted), route_first in Hr by (lia || (eapply Forall_impl; [exact Hcb|cbn; lia])). done.
Qed.

(** Every child is a node of the old tree. *)
Lemma neighbours_child c : c ∈ (cells q).*2 → c ≠ a → c ≠ b → ∃ cd, nodes !! c = Some cd ∧ c ≠ pid.
Proof.
  intros Hc _ _. destruct (inv_children _ _ _ _ _ _ Hinv _ _ c Hpid Hc) as (cd & Hcd & _ & Hd). exists cd. split; [done|]. intros ->. lia.
Qed.

(** A key of one of the leaves that is not the smallest one there can stand between
    them in the parent. *)
Definition can_separate (key' : Z) : Prop :=
  ∃ p k0, (p = pa ∨ p = pb) ∧ k0 < key' ∧ is_Some (leaf_map p !! k0) ∧ is_Some (leaf_map p !! key').

Lemma separator_between key' : can_separate key' → Forall (fun c => c.1 < key') cs1 ∧ Forall (fun c => key' < c.1) cs2.
Proof.
  destruct (neighbour_sides cs1 mid b cs2 neighbours_sorted) as [H1 H2].
  intros (p & k0 & [->| ->] & Hlt & Hk0 & Hk).
  - destruct (neighbours_left_key _ Hk0) as [Hl _]. destruct (neighbours_left_key _ Hk) as [_ Hm].
    split; [eapply Forall_impl; [exact Hl|]|eapply Forall_impl; [exact H2|]]; cbn; lia.
  - destruct (neighbours_right_key _ Hk) as [Hm Hr]. split; [eapply Forall_impl; [exact H1|]; cbn; lia|done].
Qed.

Lemma separator_new key' : can_separate key' →
  walk None nodes root key' (depth pid) = Some pid ∧ ∀ i p, nodes !! i = Some (NInternal p) → key' ∉ separators p.
Proof.
  intros (p & k0 & Hp & Hlt & Hk0 & Hk).
  assert (∃ i, ((i = a ∧ p = pa) ∨ (i = b ∧ p = pb)) ∧ nodes !! i = Some (NLeaf p)) as (i & Hi & Hin).
  { destruct Hp as [->| ->]; [exists a|exists b]; auto. }
  pose proof (neighbours_key i p key' Hi Hk) as Hw. split.
  - apply (neighbours_pass key' i); [|done]. destruct Hi as [[-> _]|[-> _]]; auto.
  - intros j p' Hj. eapply key_not_above; [exact Hinv|exact Hin|exact Hk0|exact Hk|done|exact Hj|].
    rewrite (inv_depth _ _ _ _ _ _ Hinv i (NLeaf p) Hin). by apply (inv_depth _ _ _ _ _ _ Hinv j (NInternal p')).
Qed.

(** The leaves have the keys of both, on the sides of the new separator. *)
Lemma inv_redistribute nodes' q' pa' pb' key' :
  next_page_id_ pa = b → can_separate key' → has_cells q' v0 (cs1 ++ (key', b) :: cs2) → parent_page_id_ q' = parent_page_id_ q →
  page_ok pa' → page_ok pb' → same_header pa pa' → same_header pb pb' →
  cells pa' ++ cells pb' = cells pa ++ cells pb → 0 < size_ pa' → 0 < size_ pb' → KeyAt 0 pb' = Ret key' →
  nodes' !! pid = Some (NInternal q') → nodes' !! a = Some (NLeaf pa') → nodes' !! b = Some (NLeaf pb') →
  (∀ i, i ≠ pid → i ≠ a → i ≠ b → nodes' !! i = nodes !! i) → tree_inv None nodes' root h depth m.
Proof.
  intros Hnext Hsep Hq' Hpar Hoka Hokb (_ & _ & Hpara & Hna & _) (_ & _ & Hparb & Hnb & _) Hcells Hsa Hsb Hkey Hpid' Ha' Hb' Hother.
  destruct neighbours_cells as [Hs Hmap]. destruct neighbours_parents as [Hppa Hppb].
  set (P := mkTreePage LEAF_PAGE (Z.of_nat (length (cells pa ++ cells pb))) 0 0 0 (cells pa ++ cells pb)).
  assert (cells P = cells pa ++ cells pb) as HcP by (unfold cells at 1; cbn; by rewrite Nat2Z.id, firstn_all).
  assert (leaf_ok P) as HP by (split; [unfold page_ok; cbn; lia|by rewrite HcP]).
  destruct (leaf_halves P pa' pb' key' HP Hoka Hokb) as (Hla & Hlb & Hlook & Hlow & Hhigh & _); [by rewrite HcP|done|done|done|].
  assert (∀ key, leaf_map P !! key = match leaf_map pa !! key with Some v => Some v | None => leaf_map pb !! key end) as HmP.
  { intros key. unfold leaf_map at 1. rewrite HcP. apply Hmap. }
  (* a key of the new leaves is a key of one of the old ones *)
  assert (∀ key i p, (i = a ∧ p = pa') ∨ (i = b ∧ p = pb') → is_Some (leaf_map p !! key) →
    ∃ j, (j = a ∨ j = b) ∧ walk None nodes root key h = Some j ∧ moved_to a b key' key j = i) as Hback.
  { intros key i p Hi Hk.
    assert (moved_to a b key' key a = i ∧ moved_to a b key' key b = i ∧ is_Some (leaf_map P !! key)) as (Hma & Hmb & HPk).
    { unfold moved_to. rewrite !(bool_decide_true (_ ∨ _)) by auto. rewrite Hlook. destruct Hi as [[-> ->]|[-> ->]].
      - specialize (Hlow key Hk). rewrite bool_decide_true, bool_decide_false by lia. done.
      - specialize (Hhigh key Hk). rewrite bool_decide_false, bool_decide_true by lia. done. }
    rewrite HmP in HPk. destruct (leaf_map pa !! key) as [v|] eqn:Hka.
    - exists a. split; [by left|]. split; [|done]. apply (neighbours_key a pa key); [by left|by eexists].
    - exists b. split; [by right|]. split; [|done]. apply (neighbours_key b pb key); [by right|done]. }
  destruct (has_cells_ok _ _ _ Hq') as [Hokq' _]. pose proof Hq as (_ & _ & kq & Hcq). pose proof Hq' as (_ & _ & kq' & Hcq').
  assert ((cells q').*2 = (cells q).*2) as Hcs by (rewrite Hcq, Hcq'; cbn; by rewrite !fmap_app).
  eapply (inv_pair_change (moved_to a b key') Hinv Hpid neighbours_child_a neighbours_child_b neighbours_depth Hpid' Hother Hokq'); try done.
  - rewrite Hcs. by destruct (inv_ok _ _ _ _ _ _ Hinv _ _ Hpid) as [_ [_ ?]].
  - intros key r Hra Hrb. unfold moved_to. by rewrite bool_decide_false by tauto.
  - intros key. rewrite (has_cells_lookup _ _ _ key Hq'), (has_cells_lookup _ _ _ key Hq). cbn. unfold mret, outcome_ret. f_equal.
    destruct (separator_between key' Hsep). destruct Hq' as (_ & Hsq' & _).
    by apply (route_separator v0 cs1 mid b cs2 neighbours_sorted neighbours_nodup).
  - intros c. rewrite Hcs. split; [|tauto]. intros Hc. split; [done|].
    destruct (decide (c = a)) as [->|]; [by eexists|]. destruct (decide (c = b)) as [->|]; [by eexists|].
    destruct (neighbours_child c Hc) as (cd & Hcd & Hne); [done|done|]. rewrite Hother by done. by eexists.
  - intros i nd Hi Hnd. destruct Hi as [->| ->].
    + rewrite Ha' in Hnd. injection Hnd as <-. exists pa'. split_and!; [done|done|congruence|].
      intros key Hk. apply (Hback key a pa'); [by left|done].
    + rewrite Hb' in Hnd. injection Hnd as <-. exists pb'. split_and!; [done|done|congruence|].
      intros key Hk. apply (Hback key b pb'); [by right|done].
  - intros key i Hi Hw. destruct (inv_leaf _ _ _ _ _ _ Hinv key) as (i' & p & Hi' & Hp & Hm). rewrite Hw in Hi'. injection Hi' as <-.
    unfold moved_to. rewrite bool_decide_true by done. exists (if bool_decide (key < key') then pa' else pb').
    split; [by case_bool_decide|]. rewrite <-Hm.
    replace (if bool_decide (key < key') then pa' else pb') with (if bool_decide (key' ≤ key) then pb' else pa') by (repeat case_bool_decide; done || lia).
    rewrite <-Hlook, HmP. destruct Hi as [->| ->].
    + assert (p = pa) as -> by congruence. destruct (leaf_map pa !! key) eqn:Hka; [done|]. destruct (leaf_map pb !! key) eqn:Hkb; [|done].
      pose proof (neighbours_key b pb key ltac:(by right) ltac:(by eexists)) as Hwb. rewrite Hw in Hwb. injection Hwb as Heq. by destruct neighbours_differ.
    + assert (p = pb) as -> by congruence. destruct (leaf_map pa !! key) eqn:Hka; [|done].
      pose proof (neighbours_key a pa key ltac:(by left) ltac:(by eexists)) as Hwa. rewrite Hw in Hwa. injection Hwa as Heq. by destruct neighbours_differ.
  - intros key Hk. rewrite (has_cells_separators _ _ _ Hq') in Hk. rewrite (has_cells_separators _ _ _ Hq).
    rewrite fmap_app in Hk |- *. cbn in Hk |- *. apply elem_of_app in Hk as [Hk|[->|Hk]%elem_of_cons]; [left; set_solver|right|left; set_solver].
    by apply separator_new.
  - destruct (inv_chain _ _ _ _ _ _ Hinv) as [L HL]. exists L. eapply (chain_redistribute _ _ _ _ _ a b key' HL).
    + intros x. unfold leaf_next. destruct (decide (x = a)) as [->|]; [by rewrite Ha', Hpa, Hna|].
      destruct (decide (x = b)) as [->|]; [by rewrite Hb', Hpb, Hnb|].
      destruct (decide (x = pid)) as [->|]; [by rewrite Hpid', Hpid|]. by rewrite Hother.
    + unfold leaf_next. by rewrite Hpa, Hnext.
    + destruct (inv_ok _ _ _ _ _ _ Hinv _ _ Hpb). unfold INVALID_PAGE_ID. lia.
    + done.
Qed.

(** The left leaf has the cells of both, and the right one is gone. *)
Lemma inv_merge nodes' q' pa' :
  next_page_id_ pa = b → has_cells q' v0 (cs1 ++ cs2) → parent_page_id_ q' = parent_page_id_ q →
  page_ok pa' → parent_page_id_ pa' = parent_page_id_ pa → next_page_id_ pa' = next_page_id_ pb → cells pa' = cells pa ++ cells pb →
  nodes' !! pid = Some (NInternal q') → nodes' !! a = Some (NLeaf pa') → nodes' !! b = None →
  (∀ i, i ≠ pid → i ≠ a → i ≠ b → nodes' !! i = nodes !! i) → tree_inv None nodes' root h depth m.
Proof.
  intros Hnext Hq' Hpar Hoka Hpara Hna Hcells Hpid' Ha' Hb' Hother.
  destruct neighbours_cells as [Hs Hmap]. destruct neighbours_parents as [Hppa Hppb].
  assert (∀ key, leaf_map pa' !! key = match leaf_map pa !! key with Some v => Some v | None => leaf_map pb !! key end) as Hm'.
  { intros key. unfold leaf_map at 1. rewrite Hcells. apply Hmap. }
  pose proof neighbours_differ as Hab. pose proof neighbours_nodup as Hnd.
  destruct (has_cells_ok _ _ _ Hq') as [Hokq' _]. pose proof Hq as (_ & _ & kq & Hcq). pose proof Hq' as (_ & _ & kq' & Hcq').
  assert (∀ c, c ∈ (cells q').*2 ↔ c ∈ (cells q).*2 ∧ c ≠ b) as Hcs.
  { intros c. rewrite Hcq, Hcq'. rewrite !fmap_cons, !fmap_app, fmap_cons. cbn [snd].
    destruct (neighbour_names v0 cs1 mid b cs2 Hnd) as (Hb1 & Hb2 & _).
    rewrite !elem_of_cons, !elem_of_app, elem_of_cons. rewrite elem_of_cons in Hb1. split; [|tauto].
    intros Hc. split; [tauto|]. intros ->. tauto. }
  eapply (inv_pair_change (moved_left a b) Hinv Hpid neighbours_child_a neighbours_child_b neighbours_depth Hpid' Hother Hokq'); try done.
  - rewrite Hcq'. rewrite fmap_app, fmap_cons, app_comm_cons in Hnd. apply NoDup_app in Hnd as (Hn1 & Hd & [_ Hn2]%NoDup_cons).
    rewrite fmap_cons, fmap_app, app_comm_cons. apply NoDup_app. split_and!; [done| |done]. intros x Hx Hx'. apply (Hd x Hx). by right.
  - intros key r Hra Hrb. unfold moved_left. by rewrite bool_decide_false.
  - intros key. rewrite (has_cells_lookup _ _ _ key Hq'), (has_cells_lookup _ _ _ key Hq). cbn. unfold mret, outcome_ret. f_equal.
    by apply (route_remove v0 cs1 mid b cs2 neighbours_sorted).
  - intros c. rewrite Hcs. split; intros [Hc Hcb]; (split; [done|]).
    + destruct (decide (c = a)) as [->|]; [by eexists|].
      destruct (neighbours_child c Hc) as (cd & Hcd & Hne); [done|done|]. rewrite Hother by done. by eexists.
    + intros ->. rewrite Hb' in Hcb. by destruct Hcb.
  - intros i nd [->| ->] Hnd'; [|congruence]. rewrite Ha' in Hnd'. injection Hnd' as <-. exists pa'. split; [done|].
    split; [split; [done|by rewrite Hcells]|]. split; [congruence|]. intros key Hk. rewrite Hm' in Hk.
    destruct (leaf_map pa !! key) as [v|] eqn:Hka.
    + exists a. split; [by left|]. split; [apply (neighbours_key a pa key); [by left|by eexists]|]. unfold moved_left. by rewrite bool_decide_false.
    + exists b. split; [by right|]. split; [apply (neighbours_key b pb key); [by right|done]|]. unfold moved_left. by rewrite bool_decide_true.
  - intros key i Hi Hw. destruct (inv_leaf _ _ _ _ _ _ Hinv key) as (i' & p & Hi' & Hp & Hm). rewrite Hw in Hi'. injection Hi' as <-.
    exists pa'. rewrite <-Hm, Hm'. destruct Hi as [->| ->]; unfold moved_left.
    + rewrite bool_decide_false by done. split; [done|]. assert (p = pa) as -> by congruence.
      destruct (leaf_map pa !! key) eqn:Hka; [done|]. destruct (leaf_map pb !! key) eqn:Hkb; [|done].
      pose proof (neighbours_key b pb key ltac:(by right) ltac:(by eexists)) as Hwb. congruence.
    + rewrite bool_decide_true by done. split; [done|]. assert (p = pb) as -> by congruence.
      destruct (leaf_map pa !! key) eqn:Hka; [|done].
      pose proof (neighbours_key a pa key ltac:(by left) ltac:(by eexists)) as Hwa. congruence.
  - intros key Hk. left. rewrite (has_cells_separators _ _ _ Hq') in Hk. rewrite (has_cells_separators _ _ _ Hq).
    rewrite fmap_app in Hk |- *. cbn. set_solver.
  - destruct (inv_chain _ _ _ _ _ _ Hinv) as [L HL]. eapply (chain_merge _ _ _ _ _ a b HL).
    + intros x Hxa Hxb. unfold leaf_next. destruct (decide (x = pid)) as [->|]; [by rewrite Hpid', Hpid|]. by rewrite Hother.
    + unfold leaf_next. by rewrite Hpa, Hnext.
    + destruct (inv_ok _ _ _ _ _ _ Hinv _ _ Hpb). unfold INVALID_PAGE_ID. lia.
    + unfold leaf_next. by rewrite Ha', Hpb, Hna.
    + unfold leaf_next. by rewrite Hb'.
    + done.
Qed.
End neighbours.

(** ** The root is replaced by its only child *)
Section collapse.
Context {nodes nodes' : gmap Z node} {root : Z} {h : nat} {depth : Z → nat} {m : gmap Z RID} {q : TreePage Z} {k0 c : Z} {cd : node}.
Context (Hinv : tree_inv None nodes root (S h) depth m) (Hroot : nodes !! root = Some (NInternal q)) (Hcells : cells q = [(k0, c)]).
Context (Hc : nodes !! c = Some cd).
Context (Horphans : ∀ i p, i ≠ root → nodes !! i = Some (NInternal p) → parent_page_id_ p ≠ INVALID_PAGE_ID).
Context (Hroot' : nodes' !! root = None) (Hc' : nodes' !! c = Some (set_node_parent INVALID_PAGE_ID cd))
  (Hother : ∀ i, i ≠ root → i ≠ c → nodes' !! i = nodes !! i).

Lemma collapse_child : node_parent cd = root ∧ depth c = 1%nat ∧ c ≠ root.
Proof.
  destruct (inv_root _ _ _ _ _ _ Hinv) as (rd & Hrd & _ & Hd).
  destruct (inv_children _ _ _ _ _ _ Hinv root _ c Hroot) as (cd' & Hcd' & Hp & Hdc); [cbn; rewrite Hcells; by left|].
  rewrite Hc in Hcd'. injection Hcd' as <-. split_and!; [done|lia|]. intros ->. lia.
Qed.

Lemma collapse_back i nd : nodes' !! i = Some nd → i ≠ root ∧ ∃ nd0, nodes !! i = Some nd0 ∧ same_but_parent nd0 nd ∧
  (i ≠ c → nd = nd0) ∧ (1 ≤ depth i)%nat.
Proof.
  intros Hi. assert (i ≠ root) as Hr by congruence. split; [done|]. destruct collapse_child as (_ & Hdc & _).
  destruct (decide (i = c)) as [->|Hic].
  - exists cd. rewrite Hc' in Hi. injection Hi as <-. split_and!; [done|right; by eexists|done|lia].
  - rewrite Hother in Hi by done. exists nd. split_and!; [done|by left|done|]. pose proof (inv_depth _ _ _ _ _ _ Hinv i nd Hi) as Hd.
    destruct nd as [p|p|]; [lia| |by destruct (inv_ok _ _ _ _ _ _ Hinv i _ Hi)].
    destruct (inv_linked _ _ _ _ _ _ Hinv i _ Hi (Horphans i p Hr Hi)) as (pd & Hpd & [Hin|(? & ? & ?)]); [|done].
    destruct (parent_of_child Hinv _ _ _ _ Hpd Hin Hi). lia.
Qed.

Lemma collapse_walk key n : walk None nodes' c key n = walk None nodes root key (S n).
Proof.
  induction n as [|n IH].
  - rewrite walk_S. cbn [walk]. cbn [redirect mbind option_bind]. rewrite Hroot. cbn [mbind option_bind node_step].
    destruct (inv_ok _ _ _ _ _ _ Hinv _ _ Hroot) as [_ [Hok _]]. destruct (has_cells_intro q Hok) as (v0 & cs & Hq & _).
    rewrite (has_cells_lookup _ _ _ key Hq). destruct Hq as (_ & _ & k & Hcs). rewrite Hcells in Hcs. by injection Hcs as _ <- <-.
  - rewrite walk_S, IH, (walk_S _ _ _ _ (S n)). destruct (walk None nodes root key (S n)) as [id|] eqn:Hw; [|done]. cbn [mbind option_bind].
    destruct (walk_node Hinv _ _ _ Hw) as (nd & Hid & Hd). destruct (inv_root _ _ _ _ _ _ Hinv) as (_ & _ & _ & Hr0).
    destruct (decide (id = c)) as [->|Hne].
    + rewrite Hc', Hc. cbn [mbind option_bind]. f_equal. apply same_but_parent_step. right. by eexists.
    + rewrite Hother; [done| |done]. intros ->. lia.
Qed.

Lemma collapse_children i nd x : nodes' !! i = Some nd → x ∈ children nd →
  ∃ xd, nodes' !! x = Some xd ∧ node_parent xd = i ∧ pred (depth x) = S (pred (depth i)).
Proof.
  intros Hi Hx. destruct (collapse_back i nd Hi) as (Hr & nd0 & Hi0 & Hs & _ & Hd). rewrite (same_but_parent_children _ _ Hs) in Hx.
  destruct (inv_children _ _ _ _ _ _ Hinv i nd0 x Hi0 Hx) as (xd & Hxd & Hp & Hdx). exists xd. rewrite Hother; [split_and!; [done|done|lia]| |].
  - intros ->. by apply (root_not_child Hinv i nd0 Hi0).
  - intros ->. destruct collapse_child as (Hcp & _). congruence.
Qed.

Lemma inv_collapse : tree_inv None nodes' c h (fun i => pred (depth i)) m.
Proof.
  destruct collapse_child as (Hcp & Hcd & Hcr).
  assert (node_ok cd) as Hcok by (by apply (inv_ok _ _ _ _ _ _ Hinv c)).
  constructor.
  - intros key. rewrite collapse_walk. destruct (inv_leaf _ _ _ _ _ _ Hinv key) as (i & p & Hi & Hp & Hm).
    assert (i ≠ root) as Hir by congruence. exists i. destruct (decide (i = c)) as [->|Hne].
    + rewrite Hc in Hp. injection Hp as ->. eexists. split; [done|]. split; [exact Hc'|done].
    + exists p. by rewrite Hother.
  - eexists. split; [exact Hc'|]. split; [by apply parent_set|]. by rewrite Hcd.
  - intros i nd Hi. destruct (collapse_back i nd Hi) as (_ & nd0 & Hi0 & Hs & _). destruct (inv_ok _ _ _ _ _ _ Hinv i nd0 Hi0).
    split; [done|]. by eapply same_but_parent_ok.
  - intros i nd Hi. destruct (collapse_back i nd Hi) as (_ & nd0 & Hi0 & Hs & _ & Hd). eapply same_but_parent_depth; [exact Hs|].
    pose proof (inv_depth _ _ _ _ _ _ Hinv i nd0 Hi0). destruct nd0; lia.
  - apply collapse_children.
  - intros i nd Hi Hp. destruct (collapse_back i nd Hi) as (Hr & nd0 & Hi0 & _ & Hsame & _). destruct (decide (i = c)) as [->|Hne].
    { rewrite Hc' in Hi. injection Hi as <-. by rewrite parent_set in Hp. }
    rewrite (Hsame Hne) in Hp |- *. destruct (inv_linked _ _ _ _ _ _ Hinv i nd0 Hi0 Hp) as (pd & Hpd & [Hin|(? & ? & ?)]); [|done].
    destruct (decide (node_parent nd0 = c)) as [Heq|Hpc].
    { rewrite Heq in Hpd |- *. rewrite Hc in Hpd. injection Hpd as <-. eexists. split; [exact Hc'|left]. by destruct cd. }
    exists pd. rewrite Hother; [split; [done|by left]| |done]. intros Heq. rewrite Heq, Hroot in Hpd. injection Hpd as <-. cbn in Hin.
    rewrite Hcells in Hin. cbn in Hin. apply list_elem_of_singleton in Hin. done.
  - intros i nd key Hi Hk. destruct (collapse_back i nd Hi) as (_ & nd0 & Hi0 & Hs & _ & Hd). rewrite collapse_walk.
    replace (S (pred (depth i))) with (depth i) by lia. apply (inv_keys _ _ _ _ _ _ Hinv i nd0); [done|]. by eapply same_but_parent_key.
  - intros i j q1 q2 key Hi Hj Hk1 Hk2. destruct (collapse_back i _ Hi) as (_ & n1 & Hi0 & Hs1 & _). destruct (collapse_back j _ Hj) as (_ & n2 & Hj0 & Hs2 & _).
    destruct (same_but_parent_internal _ _ Hs1) as (p1 & -> & Hp1). destruct (same_but_parent_internal _ _ Hs2) as (p2 & -> & Hp2).
    apply (inv_unique _ _ _ _ _ _ Hinv i j p1 p2 key); [done|done|by rewrite <-Hp1|by rewrite <-Hp2].
  - done.
  - destruct (inv_chain _ _ _ _ _ _ Hinv) as [L HL]. exists L. eapply leaf_chain_ext; [|intros key; apply collapse_walk|exact HL].
    intros i. destruct (decide (i = root)) as [->|Hr]; [unfold leaf_next; by rewrite Hroot, Hroot'|].
    destruct (decide (i = c)) as [->|Hne]; [|unfold leaf_next; by rewrite Hother]. eapply same_but_parent_next; [exact Hc|exact Hc'|]. right. by eexists.
Qed.
End collapse.
