(* ===== verification/BPlusTreeSpec.v ===== *)
(** * The B+ tree is a map

    [Insert] and [GetValue] of [BPlusTree.v] against finite maps, over any page
    store and any layout of the nodes.  The first part gives a rule for each call
    that the tree makes on the store; the second applies the lemmas of
    [TreeInvariant.v] along the code. *)
From Stdlib Require Import Sorting.Sorted.
From S2P Require Import Prelude Interfaces DiskManager BufferPool BufferPoolSpec Tuple BPlusTreePage NodeLayout BPlusTree TreeInvariant.

#[local] Open Scope Z_scope.
#[local] Coercion Z.of_nat : nat >-> Z.

(** ** The state of a tree

    The nodes, the pages that the tree has pinned with their frames, and the pages
    that it may have changed without unpinning them as dirty. *)
Record tstate := mkT {
  t_root : Z;
  t_next : Z;
  t_nodes : gmap Z node;
  t_open : gmap Z Z;
  t_dirty : gset Z;
}.

Definition t_fetch (id f : Z) (x : tstate) : tstate :=
  mkT (t_root x) (t_next x) (t_nodes x) (<[id := f]> (t_open x)) (t_dirty x ∖ {[id]}).
Definition t_unpin (id : Z) (x : tstate) : tstate :=
  mkT (t_root x) (t_next x) (t_nodes x) (delete id (t_open x)) (t_dirty x).
Definition t_write (id : Z) (nd : node) (x : tstate) : tstate :=
  mkT (t_root x) (t_next x) (<[id := nd]> (t_nodes x)) (t_open x) ({[id]} ∪ t_dirty x).
Definition t_new (f : Z) (x : tstate) : tstate :=
  mkT (t_root x) (t_next x + 1) (<[t_next x := NNew]> (t_nodes x)) (<[t_next x := f]> (t_open x)) ({[t_next x]} ∪ t_dirty x).
Definition t_set_root (id : Z) (x : tstate) : tstate :=
  mkT id (t_next x) (t_nodes x) (t_open x) (t_dirty x).

Section rules.
Context {St D : Type} `{PageStoreSpec St D} `{NodeLayoutSpec D}.
Context (Hpages : ∀ d, ps_ok d ↔ layout_ok d).
(** The capacity of the store, the pages pinned by others, and the maximum sizes. *)
Context (cap : nat) (others : gmap Z (Z * Z)) (leaf_max internal_max : Z).
Context (Hleaf_max : in_int32 leaf_max = true) (Hinternal_max : in_int32 internal_max = true).
Implicit Types (t : BPlusTree St) (x : tstate).

(** The data of a page seen as a node. *)
Definition node_view (d : D) (nd : node) : Prop :=
  layout_ok d ∧
  match nd with
  | NLeaf p => leaf_view d = p ∧ page_type_ p = LEAF_PAGE
  | NInternal p => internal_view d = p ∧ page_type_ p = INTERNAL_PAGE
  | NNew => True
  end.

Definition store_rep (s : St) x : Prop :=
  ∃ b : pstate D, ps_rep s b ∧ ps_cap b = cap ∧ ps_next b = t_next x ∧
    ps_pinned b = ((fun f => (f, 1)) <$> t_open x) ∪ others ∧
    (∀ id nd, t_nodes x !! id = Some nd →
      (∃ d, ps_pages b !! id = Some d ∧ node_view d nd) ∧ others !! id = None ∧ (id ∈ ps_unsaved b → id ∈ t_dirty x)) ∧
    (∀ id, is_Some (t_open x !! id) → is_Some (t_nodes x !! id)) ∧ (∀ id c, others !! id = Some c → id < t_next x).

Definition holds t x : Prop :=
  store_rep (bpm_ t) x ∧ root_page_id_ t = t_root x ∧ leaf_max_size_ t = leaf_max ∧ internal_max_size_ t = internal_max.

(** Another page can be pinned. *)
Definition room x : Prop := (size (t_open x) + size others < cap)%nat.

Lemma pinned_open x (b : pstate D) id f :
  ps_pinned b = ((fun f => (f, 1)) <$> t_open x) ∪ others → t_open x !! id = Some f → ps_pinned b !! id = Some (f, 1).
Proof. intros -> Hf. apply lookup_union_Some_l. by rewrite lookup_fmap, Hf. Qed.

Lemma pinned_closed x (b : pstate D) id :
  ps_pinned b = ((fun f => (f, 1)) <$> t_open x) ∪ others → t_open x !! id = None → others !! id = None → ps_pinned b !! id = None.
Proof. intros -> Hf Ho. apply lookup_union_None. by rewrite lookup_fmap, Hf. Qed.

Lemma pinned_size x (b : pstate D) :
  ps_pinned b = ((fun f => (f, 1)) <$> t_open x) ∪ others → (size (ps_pinned b) ≤ size (t_open x) + size others)%nat.
Proof.
  intros ->. rewrite <-!size_dom, dom_union_L, dom_fmap_L, size_union_alt.
  pose proof (subseteq_size (dom others ∖ dom (t_open x)) (dom others)) as Hs. specialize (Hs ltac:(set_solver)). lia.
Qed.


Lemma fetch_rule t x id (Q : option Z → BPlusTree St → Prop) :
  holds t x → is_Some (t_nodes x !! id) → t_open x !! id = None → room x →
  (∀ f t', holds t' (t_fetch id f x) → Q (Some f) t') → wp (FetchPage id) t Q.
Proof.
  intros ((b & Hrep & Hcap & Hnext & Hpin & Hnodes & Hopen & Hothers) & Hr & Hl & Hi) [nd Hnd] Hclosed Hroom HQ.
  destruct (Hnodes id nd Hnd) as ((d & Hd & Hv) & Ho & Hu).
  unfold FetchPage, on_bpm. apply wp_zoom. eapply wp_mono.
  { eapply ps_fetch_spec; [done|done|by eapply pinned_closed|]. rewrite Hcap. pose proof (pinned_size x b Hpin). unfold room in Hroom. lia. }
  intros o s' (f & -> & Hrep'). apply HQ. split; [|done].
  exists (spec_pin id f 1 b). cbn. split_and!; [done|done|done| | | |done].
  - rewrite Hpin, fmap_insert. by rewrite insert_union_l.
  - intros i ni Hi'. destruct (Hnodes i ni Hi') as (Hdi & Hoi & Hui). split_and!; [done|done|].
    intros Hin. pose proof (Hui Hin). destruct (decide (i = id)) as [->|]; [|set_solver].
    destruct (ps_rep_unsaved _ _ _ Hrep Hin) as [c Hc]. rewrite (pinned_closed x b) in Hc by done. done.
  - intros i. destruct (decide (i = id)) as [->|]; [by rewrite Hnd|]. rewrite lookup_insert_ne by done. apply Hopen.
Qed.

Lemma unpin_rule t x id f dirty (Q : bool → BPlusTree St → Prop) :
  holds t x → t_open x !! id = Some f → dirty = true ∨ id ∉ t_dirty x →
  (∀ t', holds t' (t_unpin id x) → Q true t') → wp (UnpinPage id dirty) t Q.
Proof.
  intros ((b & Hrep & Hcap & Hnext & Hpin & Hnodes & Hopen & Hothers) & Hr & Hl & Hi) Hf Hdirty HQ.
  destruct (Hopen id) as [nd Hnd]; [by eexists|]. destruct (Hnodes id nd Hnd) as (Hd & Ho & Hu).
  unfold UnpinPage, on_bpm. apply wp_zoom. eapply wp_mono.
  { eapply ps_unpin_spec; [done|by eapply pinned_open|]. destruct Hdirty as [->|Hn]; [by left|right; right; tauto]. }
  intros o s' (-> & Hrep'). apply HQ. split; [|done].
  exists (spec_unpin id f 1 dirty b). cbn. split_and!; [done|done|done| | | |done].
  - rewrite bool_decide_true, Hpin, fmap_delete, delete_union by done. by rewrite (delete_id others).
  - intros i ni Hi'. destruct (Hnodes i ni Hi') as (Hdi & Hoi & Hui). split_and!; [done|done|].
    destruct dirty; [|done]. set_solver.
  - intros i. rewrite lookup_delete_is_Some. intros [_ ?]. by apply Hopen.
Qed.

Lemma new_rule t x (Q : option (Z * Z) → BPlusTree St → Prop) :
  holds t x → room x → t_next x < INT32_MAX →
  (∀ f t', holds t' (t_new f x) → t_nodes x !! t_next x = None → t_open x !! t_next x = None → 0 ≤ t_next x → Q (Some (t_next x, f)) t') →
  wp NewPage t Q.
Proof.
  intros ((b & Hrep & Hcap & Hnext & Hpin & Hnodes & Hopen & Hothers) & Hr & Hl & Hi) Hroom Hmax HQ.
  assert (∀ id d, ps_pages b !! id = Some d → id ≠ t_next x) as Hfresh.
  { intros id d Hd ->. destruct (ps_rep_pages _ _ _ _ Hrep Hd). lia. }
  assert (t_nodes x !! t_next x = None) as Hn.
  { destruct (t_nodes x !! t_next x) as [nd|] eqn:Hnd; [|done]. destruct (Hnodes _ _ Hnd) as ((d & Hd & _) & _). by destruct (Hfresh _ _ Hd). }
  assert (t_open x !! t_next x = None) as Hc.
  { destruct (t_open x !! t_next x) as [f|] eqn:Hf; [|done]. destruct (Hopen (t_next x)) as [? ?]; [by eexists|]. congruence. }
  assert (others !! t_next x = None) as Hon.
  { destruct (others !! t_next x) as [c|] eqn:Hoc; [|done]. apply Hothers in Hoc. lia. }
  unfold NewPage, on_bpm. apply wp_zoom. eapply wp_mono.
  { eapply ps_new_spec; [done|by rewrite Hnext|]. rewrite Hcap. pose proof (pinned_size x b Hpin). unfold room in Hroom. lia. }
  intros o s' (f & -> & Hrep'). rewrite Hnext. destruct (ps_rep_pages _ _ (ps_next b) ps_zero Hrep') as [Hge _]; [cbn; by rewrite lookup_insert_eq|].
  apply HQ; [|done|done|lia]. split; [|done].
  exists (spec_new ps_zero f b). cbn. rewrite Hnext. split_and!; [done|done|done| | | |].
  - rewrite Hpin, fmap_insert. by rewrite insert_union_l.
  - intros i ni Hi'. destruct (decide (i = t_next x)) as [->|Hne].
    + rewrite lookup_insert_eq in Hi'. injection Hi' as <-. rewrite lookup_insert_eq. split_and!; [|done|set_solver].
      exists ps_zero. split; [done|]. split; [|done]. apply Hpages, ps_zero_ok.
    + rewrite lookup_insert_ne in Hi' by done. destruct (Hnodes i ni Hi') as (Hdi & Hoi & Hui). rewrite lookup_insert_ne by done.
      split_and!; [done|done|set_solver].
  - intros i. rewrite !lookup_insert_is_Some. intros [->|[? ?]]; [by left|right; auto].
  - intros i c Hi'. pose proof (Hothers i c Hi'). lia.
Qed.

Lemma set_root_rule t x id (Q : unit → BPlusTree St → Prop) :
  holds t x → (∀ t', holds t' (t_set_root id x) → Q tt t') → wp (set_root id) t Q.
Proof. intros (Hs & Hr & Hl & Hi) HQ. apply wp_modify, HQ. done. Qed.

(** The data in an open frame. *)
Lemma get_data_rule t x id f nd (Q : D → BPlusTree St → Prop) :
  holds t x → t_open x !! id = Some f → t_nodes x !! id = Some nd →
  (∀ d, node_view d nd → (∀ nd', node_view d nd' → holds t (t_write id nd' x)) → Q d t) → wp (on_bpm (ps_get_data f)) t Q.
Proof.
  intros ((b & Hrep & Hcap & Hnext & Hpin & Hnodes & Hopen & Hothers) & Ht) Hf Hnd HQ.
  destruct (Hnodes id nd Hnd) as ((d & Hd & Hv) & Ho & Hu).
  unfold on_bpm. apply wp_zoom. eapply wp_intro; [by eapply ps_get_spec, Hd; [|eapply pinned_open]|].
  assert (set_bpm (bpm_ t) t = t) as -> by (by destruct t). apply HQ; [done|]. intros nd' Hv'.
  split; [|done]. exists b. cbn. split_and!; try done.
  - intros i ni. rewrite lookup_insert_Some. intros [[<- <-]|[Hne Hi]].
    + split_and!; [by exists d|done|set_solver].
    + destruct (Hnodes i ni Hi) as (? & ? & ?). split_and!; [done|done|set_solver].
  - intros i Hi. rewrite lookup_insert_is_Some. destruct (decide (id = i)) as [->|]; [by left|right; auto].
Qed.

Lemma set_data_rule t x id f nd d (Q : unit → BPlusTree St → Prop) :
  holds t x → t_open x !! id = Some f → node_view d nd →
  (∀ t', holds t' (t_write id nd x) → Q tt t') → wp (on_bpm (ps_set_data f d)) t Q.
Proof.
  intros ((b & Hrep & Hcap & Hnext & Hpin & Hnodes & Hopen & Hothers) & Hr & Hl & Hi) Hf Hv HQ.
  destruct (Hopen id) as [nd0 Hnd0]; [by eexists|]. destruct (Hnodes id nd0 Hnd0) as (_ & Ho & _).
  unfold on_bpm. apply wp_zoom. eapply wp_mono; [eapply ps_set_spec; [done|by eapply pinned_open|by apply Hpages, Hv]|].
  intros [] s' Hrep'. apply HQ. split; [|done].
  exists (spec_write id d b). cbn. split_and!; [done|done|done|done| | |done].
  - intros i ni Hi'. destruct (decide (i = id)) as [->|Hne].
    + rewrite lookup_insert_eq in Hi'. injection Hi' as <-. rewrite lookup_insert_eq. split_and!; [by exists d|done|set_solver].
    + rewrite lookup_insert_ne in Hi' by done. destruct (Hnodes i ni Hi') as (Hdi & Hoi & Hui). rewrite lookup_insert_ne by done.
      split_and!; [done|done|set_solver].
  - intros i Hi'. rewrite lookup_insert_is_Some. destruct (decide (id = i)) as [->|]; [by left|right; auto].
Qed.

(** Nodes in the store fit into their pages. *)
Lemma node_fits t x id nd : holds t x → t_nodes x !! id = Some nd →
  0 ≤ id < t_next x ∧ match nd with NLeaf p => leaf_fits p ∧ page_type_ p = LEAF_PAGE | NInternal p => internal_fits p ∧ page_type_ p = INTERNAL_PAGE | NNew => True end.
Proof.
  intros ((b & Hrep & Hcap & Hnext & Hpin & Hnodes & _) & _) Hnd.
  destruct (Hnodes id nd Hnd) as ((d & Hd & Hok & Hv) & _). destruct (ps_rep_pages _ _ _ _ Hrep Hd) as [Hb _]. split; [lia|].
  destruct nd as [p|p|]; [|split|done].
  - destruct Hv as [<- Ht]. split; [by apply leaf_view_fits|done].
  - destruct Hv as [<- Ht]. by apply internal_view_fits.
  - by destruct Hv.
Qed.

(** ** Methods of pages *)
Lemma leaf_at_rule t x id f p (Q : TreePage RID → BPlusTree St → Prop) :
  holds t x → t_open x !! id = Some f → t_nodes x !! id = Some (NLeaf p) → Q p t → wp (leaf_at f) t Q.
Proof.
  intros Ht Hf Hp HQ. apply wp_bind. eapply get_data_rule; [done..|]. intros d (_ & <- & _) _. by apply wp_ret.
Qed.

Lemma internal_at_rule t x id f p (Q : TreePage Z → BPlusTree St → Prop) :
  holds t x → t_open x !! id = Some f → t_nodes x !! id = Some (NInternal p) → Q p t → wp (internal_at f) t Q.
Proof.
  intros Ht Hf Hp HQ. apply wp_bind. eapply get_data_rule; [done..|]. intros d (_ & <- & _) _. by apply wp_ret.
Qed.

Lemma is_leaf_rule t x id f nd (Q : bool → BPlusTree St → Prop) :
  holds t x → t_open x !! id = Some f → t_nodes x !! id = Some nd → nd ≠ NNew →
  Q (match nd with NLeaf _ => true | _ => false end) t → wp (is_leaf_at f) t Q.
Proof.
  intros Ht Hf Hnd Hne HQ. apply wp_bind. eapply get_data_rule; [done..|]. intros d (_ & Hv) _. apply wp_ret.
  destruct nd as [p|p|]; [| |done]; destruct Hv as [<- Htype].
  - rewrite leaf_view_type in Htype. by rewrite Htype.
  - rewrite internal_view_type in Htype. by rewrite Htype.
Qed.

Lemma edit_leaf_rule {A} t x id f p p' (op : TreePage RID → outcome (A * TreePage RID)) a (Q : A → BPlusTree St → Prop) :
  holds t x → t_open x !! id = Some f → t_nodes x !! id = Some (NLeaf p) →
  op p = Ret (a, p') → leaf_fits p' → page_type_ p' = LEAF_PAGE →
  (∀ t', holds t' (t_write id (NLeaf p') x) → Q a t') → wp (edit_leaf f op) t Q.
Proof.
  intros Ht Hf Hp Hop Hfit Htype HQ. apply wp_bind. eapply get_data_rule; [done..|]. intros d (Hok & Hv & _) Hkeep.
  rewrite Hv, Hop. apply wp_bind, wp_lift, wp_bind. cbn [fst snd]. destruct (decide (p' = p)) as [->|].
  - apply wp_ret, wp_ret, HQ. by apply Hkeep.
  - destruct (put_leaf_ok p' d Hok Hfit) as [Hok' Hv']. eapply (set_data_rule _ _ _ _ (NLeaf p')); [done|done|done|].
    intros t' Ht'. by apply wp_ret, HQ.
Qed.

(** A method that leaves the page as it was does not write. *)
Lemma edit_leaf_same {A} t x id f p (op : TreePage RID → outcome (A * TreePage RID)) a (Q : A → BPlusTree St → Prop) :
  holds t x → t_open x !! id = Some f → t_nodes x !! id = Some (NLeaf p) → op p = Ret (a, p) →
  Q a t → wp (edit_leaf f op) t Q.
Proof.
  intros Ht Hf Hp Hop HQ. apply wp_bind. eapply get_data_rule; [done..|]. intros d (Hok & Hv & _) Hkeep.
  rewrite Hv, Hop. apply wp_bind, wp_lift, wp_bind. cbn [fst snd]. rewrite decide_True by done. by apply wp_ret, wp_ret.
Qed.

Lemma edit_internal_rule {A} t x id f p p' (op : TreePage Z → outcome (A * TreePage Z)) a (Q : A → BPlusTree St → Prop) :
  holds t x → t_open x !! id = Some f → t_nodes x !! id = Some (NInternal p) →
  op p = Ret (a, p') → internal_fits p' → page_type_ p' = INTERNAL_PAGE →
  (∀ t', holds t' (t_write id (NInternal p') x) → Q a t') → wp (edit_internal f op) t Q.
Proof.
  intros Ht Hf Hp Hop Hfit Htype HQ. apply wp_bind. eapply get_data_rule; [done..|]. intros d (Hok & Hv & _) Hkeep.
  rewrite Hv, Hop. apply wp_bind, wp_lift, wp_bind. cbn [fst snd]. destruct (decide (p' = p)) as [->|].
  - apply wp_ret, wp_ret, HQ. by apply Hkeep.
  - destruct (put_internal_ok p' d Hok Hfit) as [Hok' Hv']. eapply (set_data_rule _ _ _ _ (NInternal p')); [done|done|done|].
    intros t' Ht'. by apply wp_ret, HQ.
Qed.

(** [Init] of a new page. *)
Lemma Leaf_Init_fits p : leaf_fits p → leaf_fits (Leaf_Init leaf_max p).
Proof. intros ((_ & _ & _ & _) & Hl & Hf). by split. Qed.
Lemma Internal_Init_fits p : internal_fits p → internal_fits (Internal_Init internal_max p).
Proof. intros ((_ & _ & _ & Hn) & Hn' & Hl & Hf). by split_and!. Qed.

Lemma init_leaf_rule t x id f (Q : unit → BPlusTree St → Prop) :
  holds t x → t_open x !! id = Some f → t_nodes x !! id = Some NNew →
  (∀ p0 t', leaf_fits p0 → holds t' (t_write id (NLeaf (Leaf_Init leaf_max p0)) x) → Q tt t') →
  wp (edit_leaf f (pure_op (Leaf_Init leaf_max))) t Q.
Proof.
  intros Ht Hf Hp HQ. apply wp_bind. eapply get_data_rule; [done..|]. intros d (Hok & _) Hkeep.
  pose proof (leaf_view_fits d Hok) as Hfit0. pose proof (Leaf_Init_fits _ Hfit0) as Hfit.
  apply wp_bind, wp_lift, wp_bind. cbn [fst snd]. destruct (decide (Leaf_Init leaf_max (leaf_view d) = leaf_view d)) as [Heq|].
  - apply wp_ret, wp_ret, (HQ (leaf_view d)); [done|]. apply Hkeep. by rewrite Heq, <-Heq at 1.
  - destruct (put_leaf_ok _ d Hok Hfit) as [Hok' Hv']. eapply set_data_rule; [done|done| |].
    2:{ intros t' Ht'. apply wp_ret, (HQ (leaf_view d)); done. }
    done.
Qed.

Lemma init_internal_rule t x id f (Q : unit → BPlusTree St → Prop) :
  holds t x → t_open x !! id = Some f → t_nodes x !! id = Some NNew →
  (∀ p0 t', internal_fits p0 → holds t' (t_write id (NInternal (Internal_Init internal_max p0)) x) → Q tt t') →
  wp (edit_internal f (pure_op (Internal_Init internal_max))) t Q.
Proof.
  intros Ht Hf Hp HQ. apply wp_bind. eapply get_data_rule; [done..|]. intros d (Hok & _) Hkeep.
  pose proof (internal_view_fits d Hok) as Hfit0. pose proof (Internal_Init_fits _ Hfit0) as Hfit.
  apply wp_bind, wp_lift, wp_bind. cbn [fst snd]. destruct (decide (Internal_Init internal_max (internal_view d) = internal_view d)) as [Heq|].
  - apply wp_ret, wp_ret, (HQ (internal_view d)); [done|]. apply Hkeep. by rewrite Heq, <-Heq at 1.
  - destruct (put_internal_ok _ d Hok Hfit) as [Hok' Hv']. eapply set_data_rule; [done|done| |].
    2:{ intros t' Ht'. apply wp_ret, (HQ (internal_view d)); done. }
    done.
Qed.

Lemma edit_parent_rule t x id f nd parent (Q : unit → BPlusTree St → Prop) :
  holds t x → t_open x !! id = Some f → t_nodes x !! id = Some nd → nd ≠ NNew → in_int32 parent = true →
  (∀ t', holds t' (t_write id (set_node_parent parent nd) x) → Q tt t') → wp (edit_parent f parent) t Q.
Proof.
  intros Ht Hf Hnd Hne Hfit HQ. apply wp_bind. eapply get_data_rule; [done..|]. intros d (Hok & Hv) _.
  destruct (put_parent_ok parent d Hok Hfit) as (Hok' & Hl & Hi).
  eapply (set_data_rule _ _ _ _ (set_node_parent parent nd)); [done|done| |done].
  split; [done|]. destruct nd as [p|p|]; [| |done]; destruct Hv as [<- ?]; by rewrite ?Hl, ?Hi.
Qed.

(** Methods with a second page. *)
Lemma edit_leaves_rule t x i f j g p q p' q' op (Q : unit → BPlusTree St → Prop) :
  holds t x → i ≠ j → t_open x !! i = Some f → t_nodes x !! i = Some (NLeaf p) →
  t_open x !! j = Some g → t_nodes x !! j = Some (NLeaf q) → op p q = Ret (p', q') →
  leaf_fits p' → leaf_fits q' → page_type_ p' = LEAF_PAGE → page_type_ q' = LEAF_PAGE →
  (∀ t', holds t' (t_write j (NLeaf q') (t_write i (NLeaf p') x)) → Q tt t') → wp (edit_leaves f g op) t Q.
Proof.
  intros Ht Hij Hf Hp Hg Hq Hop ???? HQ. unfold edit_leaves.
  apply wp_bind. eapply leaf_at_rule; [done..|]. apply wp_bind. eapply leaf_at_rule; [done..|].
  rewrite Hop. apply wp_bind, wp_lift, wp_bind. eapply edit_leaf_rule; [done..|]. intros t' Ht'.
  eapply edit_leaf_rule; [done|done| |done..]. cbn. by rewrite lookup_insert_ne.
Qed.

Lemma edit_internals_rule t x i f j g p q p' q' op (Q : unit → BPlusTree St → Prop) :
  holds t x → i ≠ j → t_open x !! i = Some f → t_nodes x !! i = Some (NInternal p) →
  t_open x !! j = Some g → t_nodes x !! j = Some (NInternal q) → op p q = Ret (p', q') →
  internal_fits p' → internal_fits q' → page_type_ p' = INTERNAL_PAGE → page_type_ q' = INTERNAL_PAGE →
  (∀ t', holds t' (t_write j (NInternal q') (t_write i (NInternal p') x)) → Q tt t') → wp (edit_internals f g op) t Q.
Proof.
  intros Ht Hij Hf Hp Hg Hq Hop ???? HQ. unfold edit_internals.
  apply wp_bind. eapply internal_at_rule; [done..|]. apply wp_bind. eapply internal_at_rule; [done..|].
  rewrite Hop. apply wp_bind, wp_lift, wp_bind. eapply edit_internal_rule; [done..|]. intros t' Ht'.
  eapply edit_internal_rule; [done|done| |done..]. cbn. by rewrite lookup_insert_ne.
Qed.

(** ** Search *)
Lemma wp_gets_bind {A B} (f : BPlusTree St → A) (k : A → M (BPlusTree St) B) t (Q : B → BPlusTree St → Prop) :
  wp (k (f t)) t Q → wp (mbind k (gets f)) t Q.
Proof. intros. by apply wp_bind, wp_gets. Qed.

Lemma descend_rule key step h depth m nodes root next fuel : ∀ n id f t dirty (Q : option (Z * Z) → BPlusTree St → Prop),
  (∀ id p, nodes !! id = Some (NInternal p) → step p = Internal_Lookup key p) → tree_inv None nodes root h depth m → holds t (mkT root next nodes {[id := f]} dirty) → id ∉ dirty →
  walk None nodes root key n = Some id → (h - n < fuel)%nat → (size others < cap)%nat →
  (∀ leaf g t' dirty', walk None nodes root key h = Some leaf → holds t' (mkT root next nodes {[leaf := g]} dirty') →
    leaf ∉ dirty' → Q (Some (leaf, g)) t') →
  wp (descend fuel step id f) t Q.
Proof.
  induction fuel as [|fuel IH]; intros n id f t dirty Q Hstep Hinv Ht Hd Hw Hfuel Hcap HQ; [lia|]. cbn [descend].
  destruct (walk_node Hinv _ _ _ Hw) as (nd & Hnd & Hdep).
  destruct (inv_ok _ _ _ _ _ _ Hinv _ _ Hnd) as [_ Hok]. pose proof (inv_depth _ _ _ _ _ _ Hinv _ _ Hnd) as Hlev. rewrite Hdep in Hlev.
  apply wp_bind. eapply is_leaf_rule; [done|apply lookup_singleton_eq|exact Hnd|by destruct nd|].
  destruct nd as [p|p|]; [| |done].
  { apply wp_ret. rewrite Hlev in Hw. by eapply HQ. }
  destruct (node_step_internal key p) as [c Hc]; [apply Hok|]. cbn in Hc. destruct (Internal_Lookup key p) as [c'| | |] eqn:Hl; [injection Hc as ->|done..].
  assert (walk None nodes root key (S n) = Some c) as HwS.
  { rewrite walk_S, Hw. cbn. rewrite Hnd. cbn. by rewrite Hl. }
  destruct (walk_node Hinv _ _ _ HwS) as (cd & Hcd & Hcdep).
  apply wp_bind. eapply internal_at_rule; [done|apply lookup_singleton_eq|exact Hnd|].
  rewrite (Hstep _ _ Hnd), Hl. apply wp_bind, wp_lift, wp_bind. eapply unpin_rule; [done|apply lookup_singleton_eq|by right|].
  intros t1 Ht1. unfold t_unpin in Ht1. cbn in Ht1. rewrite delete_singleton_eq in Ht1.
  apply wp_bind. eapply fetch_rule; [done|by exists cd|done|unfold room; cbn; by rewrite map_size_empty|].
  intros g t2 Ht2. unfold t_fetch in Ht2. cbn in Ht2. rewrite insert_empty in Ht2.
  eapply IH; [done|done|done|set_solver|done|lia|done|done].
Qed.

(** The whole search, from a closed tree. *)
Lemma descend_root_rule key step h depth m nodes root next fuel t dirty (Q : option (Z * Z) → BPlusTree St → Prop) :
  (∀ id p, nodes !! id = Some (NInternal p) → step p = Internal_Lookup key p) → tree_inv None nodes root h depth m → holds t (mkT root next nodes ∅ dirty) → (h < fuel)%nat → (size others < cap)%nat →
  (∀ leaf g t' dirty' p, walk None nodes root key h = Some leaf → nodes !! leaf = Some (NLeaf p) → leaf_map p !! key = m !! key →
    holds t' (mkT root next nodes {[leaf := g]} dirty') → leaf ∉ dirty' → Q (Some (leaf, g)) t') →
  wp (descend_root fuel step) t Q.
Proof.
  intros Hstep Hinv Ht Hfuel Hcap HQ. unfold descend_root. apply wp_gets_bind.
  pose proof Ht as (_ & -> & _). cbn [t_root].
  destruct (inv_root _ _ _ _ _ _ Hinv) as (rd & Hrd & _).
  apply wp_bind. eapply fetch_rule; [done|by exists rd|done|unfold room; cbn; by rewrite map_size_empty|].
  intros g t1 Ht1. unfold t_fetch in Ht1. cbn in Ht1. rewrite insert_empty in Ht1.
  eapply (descend_rule _ _ _ _ _ _ _ _ _ 0); [done|done|done|set_solver|done|lia|done|].
  intros leaf g' t' dirty' Hw Ht' Hnd. destruct (inv_leaf _ _ _ _ _ _ Hinv key) as (i & p & Hi & Hp & Hm).
  rewrite Hw in Hi. injection Hi as <-. by eapply HQ.
Qed.

Lemma not_empty nodes root h depth m t next dirty (Q : bool → BPlusTree St → Prop) :
  tree_inv None nodes root h depth m → holds t (mkT root next nodes ∅ dirty) → Q false t → wp IsEmpty t Q.
Proof.
  intros Hinv (_ & Hr & _) HQ. apply wp_gets. rewrite Hr. cbn. rewrite bool_decide_false; [done|].
  destruct (inv_root _ _ _ _ _ _ Hinv) as (rd & Hrd & _). destruct (inv_ok _ _ _ _ _ _ Hinv _ _ Hrd). unfold INVALID_PAGE_ID. lia.
Qed.

Lemma GetValue_rule key h depth m nodes root next fuel t dirty (Q : option RID → BPlusTree St → Prop) :
  tree_inv None nodes root h depth m → holds t (mkT root next nodes ∅ dirty) → (h < fuel)%nat → (size others < cap)%nat →
  (∀ t' dirty', holds t' (mkT root next nodes ∅ dirty') → Q (m !! key) t') → wp (GetValue fuel key) t Q.
Proof.
  intros Hinv Ht Hfuel Hcap HQ. unfold GetValue. apply wp_bind. eapply not_empty; [done|done|].
  apply wp_bind. eapply descend_root_rule; [done..|]. intros leaf g t1 dirty1 p Hw Hp Hm Ht1 Hd.
  destruct (inv_ok _ _ _ _ _ _ Hinv _ _ Hp) as [_ Hok].
  apply wp_bind. eapply leaf_at_rule; [done|apply lookup_singleton_eq|exact Hp|].
  rewrite (Leaf_Lookup_spec key p Hok). apply wp_bind, wp_lift, wp_bind.
  eapply unpin_rule; [done|apply lookup_singleton_eq|by right|]. intros t2 Ht2. unfold t_unpin in Ht2. cbn in Ht2.
  rewrite delete_singleton_eq in Ht2. apply wp_ret. rewrite Hm. by eapply HQ.
Qed.

(** ** Insertion *)

(** Sizes of the nodes at rest. *)
Definition node_sized (nd : node) : Prop :=
  match nd with
  | NLeaf p => max_size_ p = leaf_max ∧ 1 ≤ size_ p ≤ leaf_max
  | NInternal p => max_size_ p = internal_max ∧ size_ p ≤ internal_max
  | NNew => False
  end.
Definition all_sized (nodes : gmap Z node) : Prop := ∀ id nd, nodes !! id = Some nd → node_sized nd.

(** A node without a parent has two children. *)
Definition node_wide (nd : node) : Prop :=
  match nd with NInternal p => parent_page_id_ p = INVALID_PAGE_ID → 2 ≤ size_ p | _ => True end.
Definition all_wide (nodes : gmap Z node) : Prop := ∀ id nd, nodes !! id = Some nd → node_wide nd.

Lemma node_wide_parent id nd : id ≠ INVALID_PAGE_ID → node_wide (set_node_parent id nd).
Proof. intros Hid. by destruct nd; cbn. Qed.

Lemma node_sized_parent id nd : node_sized nd → node_sized (set_node_parent id nd).
Proof. by destruct nd. Qed.

(** There are at least as many keys as non-empty leaves. *)
Lemma keys_of_leaves (to_leaf : Z → option Z) (m : gmap Z RID) l :
  NoDup l → (∀ c, c ∈ l → ∃ k, to_leaf k = Some c ∧ is_Some (m !! k)) →
  ∃ K : gset Z, size K = length l ∧ K ⊆ dom m ∧ ∀ k, k ∈ K → ∃ c, c ∈ l ∧ to_leaf k = Some c.
Proof.
  induction 1 as [|c l Hc Hnd IH]; intros Hl; [exists ∅; split_and!; [done|set_solver|set_solver]|].
  destruct IH as (K & Hsize & Hdom & HK); [intros c' Hc'; apply Hl; by right|]. destruct (Hl c) as (k & Hk & Hm); [by left|].
  exists ({[k]} ∪ K). split_and!.
  - rewrite size_union, size_singleton, Hsize; [done|]. intros x ->%elem_of_singleton Hx. destruct (HK k Hx) as (c' & Hc' & Hk'). congruence.
  - apply elem_of_dom in Hm. set_solver.
  - intros x [->%elem_of_singleton|Hx]%elem_of_union; [exists c; split; [by left|done]|].
    destruct (HK x Hx) as (c' & ? & ?). exists c'. split; [by right|done].
Qed.

Lemma leaf_has_key (p : TreePage RID) : page_ok p → 1 ≤ size_ p → ∃ k, is_Some (leaf_map p !! k).
Proof.
  intros Hok Hp. pose proof (length_cells p Hok) as Hl. unfold leaf_map. destruct (cells p) as [|[k v] cs]; cbn in *; [lia|].
  exists k. rewrite lookup_insert_eq. by eexists.
Qed.

Lemma children_keys nodes root h depth m id (p : TreePage Z) :
  tree_inv None nodes root h depth m → nodes !! id = Some (NInternal p) → h = S (depth id) →
  (∀ i q, nodes !! i = Some (NLeaf q) → 1 ≤ size_ q) → size_ p ≤ size m.
Proof.
  intros Hinv Hid Hh Hsizes. destruct (inv_ok _ _ _ _ _ _ Hinv _ _ Hid) as [_ [[Hok _] Hnd]].
  destruct (keys_of_leaves (fun k => walk None nodes root k h) m (cells p).*2 Hnd) as (K & Hsize & Hdom & _).
  - intros c Hc. destruct (inv_children _ _ _ _ _ _ Hinv id (NInternal p) c Hid Hc) as (cd & Hcd & _ & Hd).
    pose proof (inv_depth _ _ _ _ _ _ Hinv _ _ Hcd) as Hl. destruct cd as [q|q|]; [|lia|lia].
    destruct (inv_ok _ _ _ _ _ _ Hinv _ _ Hcd) as [_ [Hqok _]]. destruct (leaf_has_key q Hqok (Hsizes _ _ Hcd)) as [k Hk].
    exists k. pose proof (inv_keys _ _ _ _ _ _ Hinv c (NLeaf q) k Hcd Hk) as Hw. rewrite Hl in Hw. split; [done|].
    destruct (inv_leaf _ _ _ _ _ _ Hinv k) as (i & q' & Hi & Hq' & Hm). rewrite <-Hm. simplify_eq. done.
  - apply subseteq_size in Hdom. rewrite size_dom, Hsize, length_fmap, length_cells in Hdom by done. unfold page_ok in Hok. lia.
Qed.

Lemma ValueAt_cells (i : nat) c (p : TreePage Z) : page_ok p → (cells p).*2 !! i = Some c → ValueAt i p = Ret c.
Proof.
  intros Hok Hi. rewrite list_lookup_fmap in Hi. apply fmap_Some in Hi as (cl & Hcl & ->).
  assert (i < size_ p). { apply lookup_lt_Some in Hcl. rewrite length_cells in Hcl by done. lia. }
  rewrite lookup_cells in Hcl by done. unfold ValueAt. by rewrite (arr_get_nat _ cl).
Qed.

Lemma page_id_fits t x id : holds t x → is_Some (t_nodes x !! id) → t_next x ≤ INT32_MAX → in_int32 id = true.
Proof.
  intros Ht [nd Hnd] Hn. destruct (node_fits t x id nd Ht Hnd) as [Hb _]. apply in_int32_iff. unfold INT32_MIN, INT32_MAX in *. lia.
Qed.

(** The children [i], [i + 1], ... of the page [gid] get a new parent. *)
Lemma adopt_rule root next open gid g q parent n : ∀ (i : nat) nodes t dirty (Q : unit → BPlusTree St → Prop),
  open !! gid = Some g → page_ok q → (i + n = Z.to_nat (size_ q))%nat → in_int32 parent = true →
  (size open + size others < cap)%nat → NoDup (drop i (cells q).*2) →
  nodes !! gid = Some (NInternal q) → holds t (mkT root next nodes open dirty) →
  (∀ c, c ∈ drop i (cells q).*2 → c ≠ gid ∧ open !! c = None ∧ ∃ nd, nodes !! c = Some nd ∧ nd ≠ NNew) →
  (∀ t' nodes' dirty', holds t' (mkT root next nodes' open dirty') →
    (∀ c, c ∈ drop i (cells q).*2 → nodes' !! c = set_node_parent parent <$> nodes !! c) →
    (∀ c, c ∉ drop i (cells q).*2 → nodes' !! c = nodes !! c) → Q tt t') →
  wp (adopt_children n i g parent) t Q.
Proof.
  induction n as [|n IH]; intros i nodes t dirty Q Hg Hok Hn Hfit Hroom Hnd Hq Ht Hc HQ; cbn [adopt_children].
  { apply wp_ret. rewrite drop_ge in HQ by (rewrite length_fmap, length_cells by done; lia).
    eapply HQ; [done| |done]. by intros c Hin%elem_of_nil. }
  destruct (lookup_lt_is_Some_2 (cells q).*2 i) as [c Hci]; [rewrite length_fmap, length_cells by done; lia|].
  rewrite (drop_S _ _ _ Hci) in Hnd, Hc, HQ. apply NoDup_cons in Hnd as [Hcn Hnd].
  destruct (Hc c) as (Hcg & Hco & nd & Hcnd & Hnew); [by left|].
  apply wp_bind. eapply internal_at_rule; [done|done|exact Hq|].
  rewrite (ValueAt_cells i c) by done. apply wp_bind, wp_lift, wp_bind.
  eapply fetch_rule; [done|by exists nd|done|done|]. intros f t1 Ht1. unfold t_fetch in Ht1. cbn in Ht1.
  apply wp_bind. eapply edit_parent_rule; [exact Ht1|apply lookup_insert_eq|exact Hcnd|done|done|].
  intros t2 Ht2. unfold t_write in Ht2. cbn in Ht2.
  apply wp_bind. eapply unpin_rule; [exact Ht2|apply lookup_insert_eq|by left|].
  intros t3 Ht3. unfold t_unpin in Ht3. cbn in Ht3. rewrite delete_insert_id in Ht3 by done.
  replace (i + 1) with (Z.of_nat (S i)) by lia.
  eapply IH; [done|done|lia|done|done|done| |exact Ht3| |].
  - by rewrite lookup_insert_ne.
  - intros c' Hc'. destruct (Hc c') as (? & ? & nd' & ? & ?); [by right|]. split_and!; [done|done|].
    exists nd'. rewrite lookup_insert_ne; [done|]. intros ->. done.
  - intros t' nodes' dirty' Ht' Hin Hout. eapply HQ; [exact Ht'| |].
    + intros c' [->|Hc']%elem_of_cons.
      * rewrite Hout, lookup_insert_eq, Hcnd by done. done.
      * rewrite (Hin c' Hc'), lookup_insert_ne; [done|]. by intros ->.
    + intros c' Hc'. apply not_elem_of_cons in Hc' as [Hne Hc']. by rewrite (Hout c' Hc'), lookup_insert_ne.
Qed.

(** [PopulateNewRoot] on a new page. *)
Lemma PopulateNewRoot_spec old middle new p0 :
  internal_fits p0 → in_int32 old = true → in_int32 middle = true → in_int32 new = true →
  ∃ k0 p', PopulateNewRoot old middle new (Internal_Init internal_max p0) = Ret p' ∧ internal_fits p' ∧ page_type_ p' = INTERNAL_PAGE ∧
    internal_ok p' ∧ cells p' = [(k0, old); (middle, new)] ∧ parent_page_id_ p' = INVALID_PAGE_ID ∧
    max_size_ p' = internal_max ∧ size_ p' = 2.
Proof.
  intros Hfit Ho Hm Hn. pose proof (Internal_Init_fits p0 Hfit) as Hfit1. destruct Hfit as (_ & _ & Hl & Hf).
  destruct (array_ p0) as [|[k0 v0] [|c1 l]] eqn:Ha; [done..|].
  assert (PopulateNewRoot old middle new (Internal_Init internal_max p0) =
    Ret (SetSize 2 (set_array ((k0, old) :: (middle, new) :: l) (set_array ((k0, old) :: c1 :: l) (Internal_Init internal_max p0))))) as Hop.
  { unfold PopulateNewRoot, SetValueAt. cbn [array_ Internal_Init init_page]. rewrite Ha.
    rewrite (arr_get_nat 0 (k0, v0)) by done. cbn [mbind outcome_bind fst]. rewrite (arr_set_nat 0) by (cbn; lia).
    cbn [mbind outcome_bind mret outcome_ret array_ set_array list_insert insert]. rewrite (arr_set_nat 1) by (cbn; lia). done. }
  exists k0. eexists. split; [exact Hop|]. rewrite <-Ha in Hl, Hf.
  pose proof (PopulateNewRoot_fits _ _ _ _ _ Hop Ho Hm Hn Hf) as Hf'. cbn in Hl. rewrite Ha in Hl. cbn in Hl.
  assert (page_ok (SetSize 2 (set_array ((k0, old) :: (middle, new) :: l) (set_array ((k0, old) :: c1 :: l) (Internal_Init internal_max p0))))) as Hpo.
  { unfold page_ok. cbn. lia. }
  split.
  { destruct Hfit1 as ((_ & ? & ? & ?) & ? & _ & _). by split_and!. }
  split; [done|]. split; [|done]. split; [done|]. split; [done|].
  unfold separators, cells. cbn. repeat constructor.
Qed.

(** A tree of two levels grows when it has more keys than the root can have
    children. *)
Definition grows (m : gmap Z RID) (h h' : nat) : Prop := h' = h ∨ h' = S h ∧ (h = 1%nat → internal_max < size m).

Lemma grows_le m h h' : grows m h h' → (h' ≤ S h)%nat.
Proof. intros [->|[-> _]]; lia. Qed.

(** What is true of the tree after an insertion, from a state with [next]. *)
Definition tree_after (m : gmap Z RID) (h : nat) (next bound : Z) t : Prop :=
  ∃ root nodes next' dirty h' depth, holds t (mkT root next' nodes ∅ dirty) ∧ tree_inv None nodes root h' depth m ∧
    all_sized nodes ∧ all_wide nodes ∧ grows m h h' ∧ next' ≤ next + bound.

Lemma grow_root_rule (kind : node → Prop) set_parent h depth m nodes root middle new f g next t dirty :
  (∀ t x id f nd parent (Q : unit → BPlusTree St → Prop), holds t x → t_open x !! id = Some f → t_nodes x !! id = Some nd → kind nd →
    in_int32 parent = true → (∀ t', holds t' (t_write id (set_node_parent parent nd) x) → Q tt t') → wp (set_parent f parent) t Q) →
  (∀ nd, nodes !! root = Some nd → kind nd) → (∀ nd, nodes !! new = Some nd → kind nd) →
  tree_inv (Some (root, middle, new)) nodes root h depth m → all_sized nodes →
  (∀ i nd, i ≠ root → i ≠ new → nodes !! i = Some nd → node_wide nd) → (h = 1%nat → internal_max < size m) → 2 ≤ internal_max →
  holds t (mkT root next nodes (<[new := g]> {[root := f]}) dirty) → in_int32 middle = true →
  next < INT32_MAX → (2 + size others < cap)%nat →
  wp (grow_root set_parent root f middle new g) t (fun _ t' => tree_after m h next 1 t').
Proof.
  intros Hset Hkr Hkn Hinv Hsized Hwide Hgrow Himax Ht Hmid Hnext Hroom. unfold grow_root.
  destruct (top_redirected Hinv) as (rd & nnd & Hrd & Hnnd & _ & _ & _ & _ & Hne).
  assert (t_next (mkT root next nodes (<[new := g]> {[root := f]}) dirty) ≤ INT32_MAX) as Hle by (cbn; lia).
  pose proof (page_id_fits _ _ root Ht (ex_intro _ rd Hrd) Hle) as Hfr.
  pose proof (page_id_fits _ _ new Ht (ex_intro _ nnd Hnnd) Hle) as Hfn.
  apply wp_bind. eapply new_rule; [exact Ht| |done|].
  { unfold room. cbn. rewrite map_size_insert_None, map_size_singleton by (by rewrite lookup_singleton_ne). lia. }
  intros r t1 Ht1 Hfresh Hclosed Hge. cbn in Hfresh, Hclosed, Hge. unfold t_new in Ht1. cbn in Ht1.
  assert (next ≠ root) as Hnr by congruence. assert (next ≠ new) as Hnn by congruence.
  assert (in_int32 next = true) as Hft by (apply in_int32_iff; unfold INT32_MIN, INT32_MAX in *; lia).
  apply wp_gets_bind. pose proof Ht1 as (_ & _ & _ & ->).
  apply wp_bind. eapply init_internal_rule; [exact Ht1|apply lookup_insert_eq|apply lookup_insert_eq|].
  intros p0 t2 Hfit0 Ht2. unfold t_write in Ht2. cbn in Ht2. rewrite insert_insert_eq in Ht2.
  destruct (PopulateNewRoot_spec root middle new p0 Hfit0 Hfr Hmid Hfn) as (k0 & p & Hop & Hfit & Htype & Hok & Hcells & Hpar & Hmax & Hsize).
  apply wp_bind. eapply (edit_internal_rule _ _ next r _ p); [exact Ht2|apply lookup_insert_eq|apply lookup_insert_eq| |done|done|].
  { unfold void_op. rewrite Hop. done. }
  intros t3 Ht3. unfold t_write in Ht3. cbn in Ht3. rewrite insert_insert_eq in Ht3.
  apply wp_bind. eapply (Hset _ _ root f rd); [exact Ht3| |cbn; by rewrite lookup_insert_ne|by apply Hkr|done|].
  { cbn. rewrite !lookup_insert_ne by done. apply lookup_singleton_eq. }
  intros t4 Ht4. unfold t_write in Ht4. cbn in Ht4.
  apply wp_bind. eapply (Hset _ _ new g nnd); [exact Ht4| |cbn; by rewrite !lookup_insert_ne|by apply Hkn|done|].
  { cbn. rewrite lookup_insert_ne by done. apply lookup_insert_eq. }
  intros t5 Ht5. unfold t_write in Ht5. cbn in Ht5.
  apply wp_bind. eapply set_root_rule; [exact Ht5|]. intros t6 Ht6. unfold t_set_root in Ht6. cbn in Ht6.
  apply wp_bind. eapply (unpin_rule _ _ root f); [exact Ht6| |by left|].
  { cbn. rewrite !lookup_insert_ne by done. apply lookup_singleton_eq. }
  intros t7 Ht7. unfold t_unpin in Ht7. cbn in Ht7.
  apply wp_bind. eapply (unpin_rule _ _ new g); [exact Ht7| |by left|].
  { cbn. rewrite lookup_delete_ne, lookup_insert_ne by done. apply lookup_insert_eq. }
  intros t8 Ht8. unfold t_unpin in Ht8. cbn in Ht8.
  apply wp_bind. eapply (unpin_rule _ _ next r); [exact Ht8| |by left|].
  { cbn. rewrite !lookup_delete_ne by done. apply lookup_insert_eq. }
  intros t9 Ht9. unfold t_unpin in Ht9. cbn in Ht9. apply wp_ret.
  set (nodes' := <[new:=set_node_parent next nnd]> (<[root:=set_node_parent next rd]> (<[next:=NInternal p]> nodes))) in *.
  assert (delete next (delete new (delete root (<[next:=r]> (<[new:=g]> {[root:=f]})))) = (∅ : gmap Z Z)) as Hempty.
  { apply map_eq. intros i. rewrite lookup_empty, !lookup_delete_None, lookup_insert_None, lookup_insert_None, lookup_singleton_None.
    destruct (decide (next = i)), (decide (new = i)), (decide (root = i)); tauto. }
  rewrite Hempty in Ht9. eexists next, nodes', _, _, (S h), (depth_below depth next). split; [exact Ht9|]. split; [|split_and!; [| |by right|lia]].
  - eapply (inv_new_root (p := p) (k0 := k0) Hinv); [done|lia|done|done|done| | |]; unfold nodes'.
    + do 2 rewrite lookup_insert_ne by done. apply lookup_insert_eq.
    + intros i [->| ->].
      * by rewrite lookup_insert_ne, lookup_insert_eq, Hrd.
      * by rewrite lookup_insert_eq, Hnnd.
    + intros i ???. by rewrite !lookup_insert_ne.
  - intros i nd. unfold nodes'. rewrite !lookup_insert_Some. intros [[_ <-]|[_ [[_ <-]|[_ [[_ <-]|[_ Hi]]]]]].
    + by apply node_sized_parent, (Hsized new).
    + by apply node_sized_parent, (Hsized root).
    + cbn. lia.
    + by apply (Hsized i).
  - assert (next ≠ INVALID_PAGE_ID) by (unfold INVALID_PAGE_ID; lia).
    intros i nd. unfold nodes'. rewrite !lookup_insert_Some. intros [[_ <-]|[? [[_ <-]|[? [[_ <-]|[_ Hi]]]]]].
    + by apply node_wide_parent.
    + by apply node_wide_parent.
    + cbn. lia.
    + by apply (Hwide i).
Qed.

Lemma set_leaf_parent_rule t x id f p parent (Q : unit → BPlusTree St → Prop) :
  holds t x → t_open x !! id = Some f → t_nodes x !! id = Some (NLeaf p) → in_int32 parent = true →
  (∀ t', holds t' (t_write id (NLeaf (SetParentPageId parent p)) x) → Q tt t') → wp (set_leaf_parent f parent) t Q.
Proof.
  intros Ht Hf Hp Hfit HQ. destruct (node_fits _ _ _ _ Ht Hp) as (_ & Hpf & Htype).
  eapply edit_leaf_rule; [done|done|done|done|by apply leaf_fits_parent|done|done].
Qed.

Lemma set_internal_parent_rule t x id f p parent (Q : unit → BPlusTree St → Prop) :
  holds t x → t_open x !! id = Some f → t_nodes x !! id = Some (NInternal p) → in_int32 parent = true →
  (∀ t', holds t' (t_write id (NInternal (SetParentPageId parent p)) x) → Q tt t') → wp (set_internal_parent f parent) t Q.
Proof.
  intros Ht Hf Hp Hfit HQ. destruct (node_fits _ _ _ _ Ht Hp) as (_ & Hpf & Htype).
  eapply edit_internal_rule; [done|done|done|done|by apply internal_fits_parent|done|done].
Qed.

Lemma orphan_is_root nodes root h depth m key n id nd :
  tree_inv None nodes root h depth m → walk None nodes root key n = Some id → nodes !! id = Some nd →
  node_parent nd = INVALID_PAGE_ID → id = root.
Proof.
  intros Hinv Hw Hnd Hp. destruct n as [|n]; [by injection Hw|].
  pose proof (walk_parent Hinv _ _ _ _ Hw Hnd) as Hw'. rewrite Hp in Hw'.
  destruct (walk_node Hinv _ _ _ Hw') as (pd & Hpd & _). destruct (inv_ok _ _ _ _ _ _ Hinv _ _ Hpd). unfold INVALID_PAGE_ID in *. lia.
Qed.

Lemma tree_after_mono m h next1 bound1 next2 bound2 t :
  tree_after m h next1 bound1 t → next1 + bound1 ≤ next2 + bound2 → tree_after m h next2 bound2 t.
Proof.
  intros (root & nodes & next' & dirty & h' & depth & ? & ? & ? & ? & ? & ?) Hle.
  exists root, nodes, next', dirty, h', depth. split_and!; try done. lia.
Qed.

(** ** A tree of one leaf

    As long as the root is a leaf, its maximum size may be that of the array. *)
Definition one_leaf t (m : gmap Z RID) (next : Z) : Prop :=
  ∃ root p dirty, holds t (mkT root next {[root := NLeaf p]} ∅ dirty) ∧ 0 ≤ root ∧ leaf_ok p ∧
    parent_page_id_ p = INVALID_PAGE_ID ∧ next_page_id_ p = INVALID_PAGE_ID ∧ max_size_ p = leaf_max ∧
    size_ p = size m ∧ leaf_map p = m.

Lemma first_Insert fuel key value t dirty next :
  (size others < cap)%nat → holds t (mkT INVALID_PAGE_ID next ∅ ∅ dirty) → leaf_cell_fits (key, value) → next < INT32_MAX →
  wp (Insert fuel key value) t (fun b t' => b = true ∧ one_leaf t' {[key := value]} (next + 1)).
Proof.
  intros Hcap Ht Hcell Hnext. unfold Insert. apply wp_bind, wp_gets. pose proof Ht as (_ & -> & _). cbn [t_root].
  rewrite bool_decide_true by done. apply wp_bind.
  eapply new_rule; [exact Ht|unfold room; cbn; rewrite map_size_empty; lia|done|].
  intros f t1 Ht1 _ _ Hge. unfold t_new in Ht1. cbn in Ht1, Hge.
  apply wp_gets_bind. pose proof Ht1 as (_ & _ & -> & _).
  apply wp_bind. eapply init_leaf_rule; [exact Ht1|apply lookup_insert_eq|apply lookup_insert_eq|].
  intros p0 t2 Hfit0 Ht2. unfold t_write in Ht2. cbn in Ht2. rewrite insert_insert_eq in Ht2.
  set (q := Leaf_Init leaf_max p0) in *. pose proof (Leaf_Init_fits p0 Hfit0) as Hqfit. destruct Hfit0 as (_ & Hl0 & _).
  assert (leaf_ok q) as Hqok by (split; [unfold page_ok; cbn; lia|constructor]).
  destruct (Leaf_Insert_absent key value q Hqok) as (p & Hop & Hok & Hh & Hsize & Hmap); [done|cbn; rewrite Hl0; done|].
  pose proof (Leaf_Insert_Forall _ _ _ _ _ _ Hop Hcell (proj2 (proj2 Hqfit))) as Hf.
  pose proof (leaf_fits_change q p Hqfit Hh (proj1 Hok) Hf) as Hfit. destruct Hh as (Hty & Hmx & Hpp & Hnx & _).
  apply wp_bind. eapply (edit_leaf_rule _ _ next f q p); [exact Ht2|apply lookup_insert_eq|apply lookup_insert_eq|exact Hop|done|done|].
  intros t3 Ht3. unfold t_write in Ht3. cbn in Ht3. rewrite insert_insert_eq in Ht3.
  apply wp_bind. eapply set_root_rule; [exact Ht3|]. intros t4 Ht4. unfold t_set_root in Ht4. cbn in Ht4.
  apply wp_bind. eapply (unpin_rule _ _ next f); [exact Ht4|apply lookup_insert_eq|by left|].
  intros t5 Ht5. unfold t_unpin in Ht5. cbn in Ht5. rewrite delete_insert_id, insert_empty in Ht5 by done. apply wp_ret. split; [done|].
  exists next, p. eexists. rewrite map_size_singleton, Hsize. split_and!; [exact Ht5|lia|done|done|done|done|done|done].
Qed.

(** The way of an insertion into the only leaf. *)
Lemma one_leaf_descend fuel key root p next t dirty (Q : option (Z * Z) → BPlusTree St → Prop) :
  holds t (mkT root next {[root := NLeaf p]} ∅ dirty) → (size others < cap)%nat →
  (∀ f t' dirty', holds t' (mkT root next {[root := NLeaf p]} {[root := f]} dirty') → root ∉ dirty' → Q (Some (root, f)) t') →
  wp (descend_root (S fuel) (Internal_Lookup key)) t Q.
Proof.
  intros Ht Hcap HQ. unfold descend_root. apply wp_gets_bind. pose proof Ht as (_ & -> & _). cbn [t_root].
  assert (({[root := NLeaf p]} : gmap Z node) !! root = Some (NLeaf p)) as Hp by apply lookup_singleton_eq.
  apply wp_bind. eapply fetch_rule; [exact Ht|by exists (NLeaf p)|done|unfold room; cbn; by rewrite map_size_empty|].
  intros f t1 Ht1. unfold t_fetch in Ht1. cbn in Ht1. rewrite insert_empty in Ht1. cbn [descend].
  apply wp_bind. eapply is_leaf_rule; [exact Ht1|apply lookup_singleton_eq|exact Hp|done|].
  apply wp_ret. eapply HQ; [exact Ht1|set_solver].
Qed.

Lemma one_leaf_not_empty m next t : one_leaf t m next → IsEmpty t = (Ret false, t).
Proof.
  intros (root & p & dirty & (_ & Hr & _) & Hroot & _). unfold IsEmpty, gets. rewrite Hr. cbn.
  rewrite bool_decide_false; [done|]. unfold INVALID_PAGE_ID. lia.
Qed.

Lemma one_leaf_Insert fuel key value t m next :
  (size others < cap)%nat → leaf_max ≤ leaf_cells → one_leaf t m next → m !! key = None → size m < leaf_max →
  leaf_cell_fits (key, value) →
  wp (Insert (S fuel) key value) t (fun b t' => b = true ∧ one_leaf t' (<[key := value]> m) next).
Proof.
  intros Hcap Hmax Hone Habs Hsize Hcell. unfold Insert. apply wp_bind. eapply wp_intro; [by eapply one_leaf_not_empty|].
  destruct Hone as (root & p & dirty & Ht & Hroot & Hok & Hpar & Hnx & Hmx & Hs & Hm).
  assert (({[root := NLeaf p]} : gmap Z node) !! root = Some (NLeaf p)) as Hp by apply lookup_singleton_eq.
  apply wp_bind. eapply one_leaf_descend; [done..|]. intros f t1 dirty1 Ht1 _.
  destruct (node_fits _ _ _ _ Ht1 Hp) as (_ & Hfit & Htype).
  apply wp_bind. eapply leaf_at_rule; [exact Ht1|apply lookup_singleton_eq|exact Hp|]. cbn zeta.
  destruct (Leaf_Insert_absent key value p Hok) as (p' & Hop & Hok' & Hh & Hs' & Hmap); [by rewrite Hm| |].
  { destruct Hfit as (_ & -> & _). lia. }
  pose proof (Leaf_Insert_Forall _ _ _ _ _ _ Hop Hcell (proj2 (proj2 Hfit))) as Hf.
  pose proof (leaf_fits_change p p' Hfit Hh (proj1 Hok') Hf) as Hfit'. destruct Hh as (Hty & Hmx' & Hpp & Hnx' & _).
  apply wp_bind. eapply (edit_leaf_rule _ _ root f p p'); [exact Ht1|apply lookup_singleton_eq|exact Hp|exact Hop|done|congruence|].
  intros t2 Ht2. unfold t_write in Ht2. cbn in Ht2. rewrite insert_singleton_eq in Ht2. rewrite bool_decide_false by lia.
  apply wp_bind. eapply leaf_at_rule; [exact Ht2|apply lookup_singleton_eq|apply lookup_singleton_eq|].
  apply wp_bind. rewrite bool_decide_false by lia.
  apply wp_bind. eapply unpin_rule; [exact Ht2|apply lookup_singleton_eq|by left|].
  intros t3 Ht3. unfold t_unpin in Ht3. cbn in Ht3. rewrite delete_singleton_eq in Ht3. apply wp_ret, wp_ret. split; [done|].
  exists root, p'. eexists. split_and!; [exact Ht3|done|done|congruence|congruence|congruence| |congruence].
  rewrite Hs', Hs, map_size_insert_None by done. lia.
Qed.

(** When it has as many cells as the array, the next one is out of range. *)
Lemma one_leaf_Insert_full fuel key value t m next :
  (size others < cap)%nat → one_leaf t m next → m !! key = None → size m = leaf_cells →
  (Insert (S fuel) key value t).1 = Undef.
Proof.
  intros Hcap Hone Habs Hsize. unfold Insert. rewrite (bind_Ret _ _ _ _ _ (one_leaf_not_empty _ _ _ Hone)).
  destruct Hone as (root & p & dirty & Ht & Hroot & Hok & Hpar & Hnx & Hmx & Hs & Hm).
  assert (({[root := NLeaf p]} : gmap Z node) !! root = Some (NLeaf p)) as Hp by apply lookup_singleton_eq.
  eapply (wp_bind_fails _ _ _ (fun o t1 => ∃ f dirty', o = Some (root, f) ∧ holds t1 (mkT root next {[root := NLeaf p]} {[root := f]} dirty'))).
  { eapply one_leaf_descend; [done..|]. intros f t1 dirty1 Ht1 _. by exists f, dirty1. }
  intros o t1 (f & dirty1 & -> & Ht1). destruct (node_fits _ _ _ _ Ht1 Hp) as (_ & (_ & Hlen & _) & _).
  eapply (wp_bind_fails _ _ _ (fun l t2 => t2 = t1)); [eapply leaf_at_rule; [exact Ht1|apply lookup_singleton_eq|exact Hp|done]|].
  intros l t2 ->. apply bind_fails. unfold edit_leaf.
  eapply (wp_bind_fails _ _ _ (fun d t2 => node_view d (NLeaf p) ∧ t2 = t1)).
  { eapply get_data_rule; [exact Ht1|apply lookup_singleton_eq|exact Hp|]. by intros d Hd _. }
  intros d t2 [(_ & Hd & _) ->]. apply bind_fails. rewrite Hd, Leaf_Insert_full; [done|done|lia|by rewrite Hm].
Qed.

Context (Hlm : 1 ≤ leaf_max < leaf_cells) (Him : 2 ≤ internal_max < internal_cells) (Hroom : (3 + size others ≤ cap)%nat).

Lemma size_two (i j f g : Z) : (size (<[j := g]> {[i := f]} : gmap Z Z) ≤ 2)%nat.
Proof.
  rewrite map_size_insert, map_size_singleton. by destruct ({[i := f]} !! j); cbn; lia.
Qed.

(** What the rest of a split has to do: link the new node. *)
Definition links_split (InsertIntoParent : Z → Z → Z → Z → M (BPlusTree St) unit) (root id new parent : Z) (h d : nat) m next bound : Prop :=
  ∀ nodes depth middle t dirty nd,
    tree_inv (Some (id, middle, new)) nodes root h depth m → all_sized nodes → all_wide nodes → holds t (mkT root next nodes ∅ dirty) →
    nodes !! id = Some nd → node_parent nd = parent → parent ≠ INVALID_PAGE_ID → in_int32 middle = true → depth id = d →
    wp (InsertIntoParent parent id middle new) t (fun _ t' => tree_after m h next bound t').

(** After the cells of [id] have been moved to [next]: the children follow, and the
    new node is linked. *)
Lemma finish_internal_split InsertIntoParent h depth m nodes root id p p1 p2 middle f g next t dirty bound :
  tree_inv None nodes root h depth m → nodes !! id = Some (NInternal p) → nodes !! next = None → 0 ≤ next →
  (∀ i nd, i ≠ id → nodes !! i = Some nd → node_sized nd) → (∀ i nd, i ≠ id → nodes !! i = Some nd → node_wide nd) →
  (h = S (depth id) → internal_max < size m) → node_sized (NInternal p1) → node_sized (NInternal p2) →
  internal_ok p1 → internal_ok p2 → parent_page_id_ p1 = parent_page_id_ p → parent_page_id_ p2 = INVALID_PAGE_ID →
  separators p = separators p1 ++ middle :: separators p2 → (cells p).*2 = (cells p1).*2 ++ (cells p2).*2 →
  (∀ k, Internal_Lookup k p = Internal_Lookup k (if bool_decide (k < middle) then p1 else p2)) →
  holds t (mkT root (next + 1) (<[next := NInternal p2]> (<[id := NInternal p1]> nodes)) (<[next := g]> {[id := f]}) dirty) →
  in_int32 middle = true → next + 1 < INT32_MAX → 1 ≤ bound →
  links_split InsertIntoParent root id next (parent_page_id_ p) h (depth id) m (next + 1) bound →
  wp (adopt_children (Z.to_nat (size_ p2)) 0 g next;;
      internal_page ← internal_at f;
      if IsRootPage internal_page then grow_root set_internal_parent id f middle next g
      else
        let parent_id := parent_page_id_ internal_page in
        set_internal_parent g parent_id;;
        UnpinPage id true;;
        UnpinPage next true;;
        InsertIntoParent parent_id id middle next) t (fun _ t' => tree_after m h next (1 + bound) t').
Proof.
  intros Hinv Hid Hfresh Hge Hothers Hwides Hgrow Hz1 Hz2 Hok1 Hok2 Hp1 Hp2 Hseps Hvals Hlook Ht Hmfit Hnext Hbound Hlink.
  assert (next ≠ id) as Hne by congruence.
  assert (in_int32 next = true) as Hnfit by (apply in_int32_iff; unfold INT32_MIN, INT32_MAX in *; lia).
  destruct (inv_ok _ _ _ _ _ _ Hinv _ _ Hid) as [_ [_ Hnd]]. rewrite Hvals in Hnd. apply NoDup_app in Hnd as (_ & _ & Hnd2).
  assert (∀ c, c ∈ (cells p2).*2 → c ≠ id ∧ c ≠ next ∧ ∃ cd, nodes !! c = Some cd ∧ cd ≠ NNew) as Hchild.
  { intros c Hc. destruct (inv_children _ _ _ _ _ _ Hinv id (NInternal p) c Hid) as (cd & Hcd & _ & Hd).
    { cbn. rewrite Hvals. set_solver. }
    destruct (inv_ok _ _ _ _ _ _ Hinv _ _ Hcd) as [_ Hcok].
    split_and!; [intros ->; lia|congruence|]. exists cd. split; [done|]. by intros ->. }
  apply wp_bind. eapply (adopt_rule root (next + 1) (<[next := g]> {[id := f]}) next g p2 next (Z.to_nat (size_ p2)) 0);
    [apply lookup_insert_eq|apply Hok2|lia|done| |done|apply lookup_insert_eq|exact Ht| |].
  { pose proof (size_two id next f g). lia. }
  { intros c Hc. destruct (Hchild c Hc) as (H1' & H2' & cd & Hcd & Hcn). split_and!; [done| |].
    - rewrite lookup_insert_ne, lookup_singleton_ne by done. done.
    - exists cd. rewrite !lookup_insert_ne by done. done. }
  intros t1 nodes1 dirty1 Ht1 Hin Hout. rewrite drop_0 in Hin, Hout.
  assert (nodes1 !! id = Some (NInternal p1)) as Hid1.
  { rewrite Hout; [rewrite lookup_insert_ne by done; apply lookup_insert_eq|]. intros Hc. by destruct (Hchild _ Hc). }
  assert (nodes1 !! next = Some (NInternal p2)) as Hnext1.
  { rewrite Hout; [apply lookup_insert_eq|]. intros Hc. by destruct (Hchild _ Hc) as (_ & ? & _). }
  assert (∀ c, c ∈ (cells p2).*2 → nodes1 !! c = set_node_parent next <$> nodes !! c) as Hmoved.
  { intros c Hc. destruct (Hchild _ Hc) as (? & ? & _). rewrite (Hin c Hc), !lookup_insert_ne by done. done. }
  assert (∀ i, i ≠ id → i ≠ next → i ∉ (cells p2).*2 → nodes1 !! i = nodes !! i) as Hother.
  { intros i ???. rewrite (Hout i), !lookup_insert_ne by done. done. }
  assert (all_sized nodes1) as Hsized1.
  { intros i nd Hi. destruct (decide (i = id)) as [->|]; [by simplify_eq|]. destruct (decide (i = next)) as [->|]; [by simplify_eq|].
    destruct (decide (i ∈ (cells p2).*2)) as [Hc|Hc].
    - rewrite (Hmoved i Hc) in Hi. apply fmap_Some in Hi as (nd0 & Hi & ->). by apply node_sized_parent, (Hothers i).
    - rewrite Hother in Hi by done. by apply (Hothers i). }
  assert (∀ i nd, i ≠ id → i ≠ next → nodes1 !! i = Some nd → node_wide nd) as Hwide1.
  { intros i nd Hi1 Hi2 Hi. destruct (decide (i ∈ (cells p2).*2)) as [Hc|Hc].
    - rewrite (Hmoved i Hc) in Hi. apply fmap_Some in Hi as (nd0 & Hi & ->). apply node_wide_parent. unfold INVALID_PAGE_ID. lia.
    - rewrite Hother in Hi by done. by apply (Hwides i). }
  assert (t_open (mkT root (next + 1) nodes1 (<[next := g]> {[id := f]}) dirty1) !! id = Some f) as Hf.
  { cbn. rewrite lookup_insert_ne by done. apply lookup_singleton_eq. }
  apply wp_bind. eapply internal_at_rule; [exact Ht1|exact Hf|exact Hid1|].
  unfold IsRootPage. rewrite Hp1. case_bool_decide as Hroot.
  - assert (id = root) as ->.
    { assert (middle ∈ separators p) as Hms by (rewrite Hseps; set_solver).
      eapply orphan_is_root; [done|exact (inv_keys _ _ _ _ _ _ Hinv id (NInternal p) middle Hid Hms)|done|done]. }
    eapply wp_mono; [eapply (grow_root_rule (fun nd => ∃ q, nd = NInternal q) set_internal_parent h _ m nodes1)|].
    + intros t' x' i' f' nd parent Q Ht' Hf' Hnd' [q ->] Hpf HQ. by eapply set_internal_parent_rule.
    + intros nd. rewrite Hid1. intros [= <-]. by eexists.
    + intros nd. rewrite Hnext1. intros [= <-]. by eexists.
    + eapply (inv_internal_split (p1 := p1) (p2 := p2) Hinv); try done. congruence.
    + done.
    + done.
    + intros Hh. apply Hgrow. destruct (inv_root _ _ _ _ _ _ Hinv) as (_ & _ & _ & Hr0). lia.
    + lia.
    + exact Ht1.
    + done.
    + done.
    + lia.
    + intros [] t' Hafter. eapply tree_after_mono; [exact Hafter|lia].
  - cbn zeta. apply wp_bind. eapply (set_internal_parent_rule _ _ next g p2); [exact Ht1|apply lookup_insert_eq|exact Hnext1| |].
    { destruct (node_fits _ _ _ _ Ht1 Hid1) as (_ & ((_ & _ & Hpf & _) & _) & _). by rewrite <-Hp1. }
    intros t2 Ht2. unfold t_write in Ht2. cbn in Ht2.
    apply wp_bind. eapply (unpin_rule _ _ id f); [exact Ht2|exact Hf|by left|]. intros t3 Ht3. unfold t_unpin in Ht3. cbn in Ht3.
    apply wp_bind. eapply (unpin_rule _ _ next g); [exact Ht3|cbn; rewrite lookup_delete_ne by done; apply lookup_insert_eq|by left|].
    intros t4 Ht4. unfold t_unpin in Ht4. cbn in Ht4.
    assert (delete next (delete id (<[next := g]> {[id := f]})) = (∅ : gmap Z Z)) as Hempty.
    { apply map_eq. intros i. rewrite lookup_empty, !lookup_delete_None, lookup_insert_None, lookup_singleton_None.
      destruct (decide (next = i)), (decide (id = i)); tauto. }
    rewrite Hempty in Ht4. eapply wp_mono.
    + eapply (Hlink _ _ middle); [|..|exact Ht4| | |done|done|].
      * eapply (inv_internal_split (p1 := p1) (p2 := SetParentPageId (parent_page_id_ p) p2) Hinv Hid Hfresh Hge Hok1 Hok2 Hp1); try done.
        -- intros k. rewrite Hlook. by case_bool_decide.
        -- by rewrite lookup_insert_ne.
        -- apply lookup_insert_eq.
        -- intros c Hc. destruct (Hchild c Hc) as (_ & ? & _). rewrite lookup_insert_ne by done. by apply Hmoved.
        -- intros i ???. rewrite lookup_insert_ne by done. by apply Hother.
      * intros i nd. rewrite lookup_insert_Some. intros [[_ <-]|[_ Hi]]; [done|by apply (Hsized1 i)].
      * intros i nd. rewrite lookup_insert_Some. intros [[_ <-]|[? Hi]]; [by cbn|]. destruct (decide (i = id)) as [->|]; [|by apply (Hwide1 i)].
        rewrite Hid1 in Hi. injection Hi as <-. cbn. congruence.
      * by rewrite lookup_insert_ne.
      * done.
      * apply depth_split_other. done.
    + intros [] t' Hafter. eapply tree_after_mono; [exact Hafter|lia].
Qed.

(** The two halves of a node are closed and the new one is linked, or a new root
    is made. *)
Lemma SplitInternal_rule InsertIntoParent h depth m nodes root id p f next t dirty bound :
  tree_inv None nodes root h depth m → nodes !! id = Some (NInternal p) →
  max_size_ p = internal_max → size_ p = internal_max + 1 →
  (∀ i nd, i ≠ id → nodes !! i = Some nd → node_sized nd) → (∀ i nd, i ≠ id → nodes !! i = Some nd → node_wide nd) →
  holds t (mkT root next nodes {[id := f]} dirty) → next + 1 < INT32_MAX → 1 ≤ bound →
  links_split InsertIntoParent root id next (parent_page_id_ p) h (depth id) m (next + 1) bound →
  wp (SplitInternal InsertIntoParent f id) t (fun _ t' => tree_after m h next (1 + bound) t').
Proof.
  intros Hinv Hid Hmax Hsize Hothers Hwides Ht Hnext Hbound Hlink. unfold SplitInternal.
  destruct (inv_ok _ _ _ _ _ _ Hinv _ _ Hid) as [_ [Hok Hnd]].
  destruct (node_fits _ _ _ _ Ht Hid) as (_ & Hfit & Htype).
  apply wp_bind. eapply new_rule; [exact Ht| |cbn; lia|].
  { unfold room. cbn. rewrite map_size_singleton. lia. }
  intros g t1 Ht1 Hfresh Hclosed Hge. cbn in Hfresh, Hclosed, Hge. unfold t_new in Ht1. cbn in Ht1.
  assert (next ≠ id) as Hne by congruence.
  apply wp_gets_bind. pose proof Ht1 as (_ & _ & _ & ->).
  apply wp_bind. eapply init_internal_rule; [exact Ht1|apply lookup_insert_eq|apply lookup_insert_eq|].
  intros p0 t2 Hfit0 Ht2. unfold t_write in Ht2. cbn in Ht2. rewrite insert_insert_eq in Ht2.
  set (q := Internal_Init internal_max p0) in *.
  pose proof (Internal_Init_fits p0 Hfit0) as Hqfit. destruct Hfit0 as (_ & _ & Hl0 & _).
  assert (∀ o d, t_open (mkT root (next + 1) d (<[next:=g]> {[id:=f]}) o) !! id = Some f) as Hopenf.
  { intros. cbn. rewrite lookup_insert_ne by done. apply lookup_singleton_eq. }
  apply wp_bind. eapply internal_at_rule; [exact Ht2|by apply Hopenf|cbn; by rewrite lookup_insert_ne|].
  rewrite Z.quot_div_nonneg by lia.
  assert (0 ≤ size_ p / 2 < size_ p) as Hdiv by (split; [apply Z.div_pos; lia|apply Z.div_lt_upper_bound; lia]).
  destruct (lookup_lt_is_Some_2 (array_ p) (Z.to_nat (size_ p / 2))) as [[middle w] Hcell].
  { destruct Hok as (Hpo & _). unfold page_ok in Hpo. lia. }
  assert (KeyAt (size_ p / 2) p = Ret middle) as Hmid.
  { unfold KeyAt. rewrite <-(Z2Nat.id (size_ p / 2)) by lia. by rewrite (arr_get_nat _ (middle, w)). }
  rewrite Hmid. apply wp_bind, wp_lift.
  assert (in_int32 middle = true) as Hmfit.
  { destruct Hfit as (_ & _ & _ & Hf). by apply (Forall_lookup_1 _ _ _ _ Hf Hcell). }
  destruct (internal_split p q middle) as (p1 & p2 & Hop & Hok1 & Hok2 & Hh1 & Hh2 & Hs1 & Hs12 & Hseps & Hvals & Hlook);
    [done|unfold page_ok; cbn; lia|lia|cbn; lia|done|].
  destruct (Internal_MoveHalfTo_fits _ _ _ _ _ Hop) as [Hf1 Hf2]; [apply Hfit|apply Hqfit|].
  pose proof (internal_fits_change p p1 Hfit Hh1 (proj1 Hok1) Hf1) as Hfit1.
  pose proof (internal_fits_change q p2 Hqfit Hh2 (proj1 Hok2) Hf2) as Hfit2.
  destruct Hh1 as (Ht1' & Hm1 & Hp1 & _). destruct Hh2 as (Ht2' & Hm2 & Hp2 & _).
  apply wp_bind. eapply (edit_internals_rule _ _ id f next g); [exact Ht2|done|by apply Hopenf|cbn; by rewrite lookup_insert_ne| | |exact Hop|done|done|congruence|done|].
  { cbn. apply lookup_insert_eq. }
  { cbn. apply lookup_insert_eq. }
  intros t3 Ht3. unfold t_write in Ht3. cbn in Ht3.
  apply wp_bind. eapply internal_at_rule; [exact Ht3|apply lookup_insert_eq|apply lookup_insert_eq|].
  replace (<[next:=NInternal p2]> (<[id:=NInternal p1]> (<[next:=NInternal q]> nodes)))
    with (<[next:=NInternal p2]> (<[id:=NInternal p1]> nodes)) in Ht3
    by (rewrite (insert_insert_ne nodes id next), insert_insert_eq by done; done).
  eapply (finish_internal_split InsertIntoParent h depth m nodes root id p p1 p2 middle); [done..| | | |done|done|done|done|done|done|done|exact Ht3|done|done|done|done].
  - intros Hh. assert (size_ p ≤ size m); [|lia]. eapply children_keys; [exact Hinv|exact Hid|done|].
    intros i pl Hi. assert (i ≠ id) as Hne' by congruence. by destruct (Hothers i _ Hne' Hi) as [_ [? _]].
  - cbn. split; [congruence|]. rewrite Hs1. pose proof (Z.div_le_upper_bound (size_ p) 2 internal_max). lia.
  - cbn. split; [by rewrite Hm2|]. assert (1 ≤ size_ p / 2) by (apply Z.div_le_lower_bound; lia). lia.
Qed.

(** The parent of a node that has been split. *)
Lemma split_parent old middle new nodes root h depth m od :
  tree_inv (Some (old, middle, new)) nodes root h depth m → nodes !! old = Some od → node_parent od ≠ INVALID_PAGE_ID →
  ∃ p, nodes !! node_parent od = Some (NInternal p) ∧ old ∈ (cells p).*2 ∧ depth old = S (depth (node_parent od)) ∧
    Internal_Lookup middle p = Ret old ∧ middle ∉ separators p.
Proof.
  intros Hinv Hold Hpar. destruct (inv_redirect _ _ _ _ _ _ Hinv old middle new) as (od' & nd & Ho & Hn & Hp & Hd & Hne & Hw & Hfree & Hnc); [done|].
  rewrite Hold in Ho. injection Ho as <-.
  destruct (inv_linked _ _ _ _ _ _ Hinv old od Hold Hpar) as (pd & Hpd & [Hin|(? & ? & [= ? ? ?])]); [|congruence].
  destruct (parent_of_child Hinv _ _ _ _ Hpd Hin Hold) as [_ Hdep].
  destruct pd as [|p|]; [by apply not_elem_of_nil in Hin| |by apply not_elem_of_nil in Hin].
  exists p. split_and!; [done|done|done| |by eapply Hfree].
  rewrite Hdep in Hw. destruct (walk_step_inv Hinv _ _ _ Hw) as (pid & pd & c & cd & Hwp & Hpid & Hstep & Hc & Hcd & Hcp & Hred & nd' & Hnd' & Hnp).
  assert (nd' = nd) as -> by congruence. assert (pid = node_parent od) as -> by congruence. assert (pd = NInternal p) as -> by congruence.
  assert (c = old) as ->.
  { cbn in Hred. case_bool_decide as Hb; [by destruct Hb|]. subst c. by destruct (Hnc _ _ Hpid). }
  cbn in Hstep. destruct (Internal_Lookup middle p); by simplify_eq.
Qed.

Lemma InsertIntoParent_rule fuel : ∀ root id new parent h d m next,
  (d ≤ fuel)%nat → next + d + 1 < INT32_MAX →
  links_split (InsertIntoParent fuel) root id new parent h d m next (d + 1).
Proof.
  induction fuel as [|fuel IH]; intros root id new parent h d m next Hfuel Hmax nodes depth middle t dirty nd Hinv Hsized Hwide Ht Hid Hpar Hne Hmid Hd;
    subst parent; destruct (split_parent _ _ _ _ _ _ _ _ _ Hinv Hid Hne) as (p & Hp & Hin & Hdep & Hlook & Hnsep); [lia|].
  set (pid := node_parent nd) in *. cbn [InsertIntoParent].
  destruct (inv_ok _ _ _ _ _ _ Hinv _ _ Hp) as [_ [Hok Hnd]]. destruct (Hsized _ _ Hp) as [Hmaxp Hsize].
  destruct (node_fits _ _ _ _ Ht Hp) as (_ & Hfit & Htype).
  destruct (inv_redirect _ _ _ _ _ _ Hinv id middle new) as (_ & nnd & _ & Hnn & _); [done|].
  assert (in_int32 new = true) as Hnfit by (eapply page_id_fits; [exact Ht|by exists nnd|cbn; lia]).
  apply wp_bind. eapply fetch_rule; [exact Ht|by exists (NInternal p)|done|unfold room; cbn; rewrite map_size_empty; lia|].
  intros f t1 Ht1. unfold t_fetch in Ht1. cbn in Ht1. rewrite insert_empty in Ht1.
  destruct (internal_insert p id middle new Hok Hnd) as (p' & Hop & Hok' & Hh & Hs' & Hseps & Hvals & Hlook'); [|done|done|].
  { destruct Hfit as (_ & _ & -> & _). lia. }
  pose proof (InsertNodeAfter_fits _ _ _ _ _ _ Hop Hmid Hnfit) as Hf'. destruct Hfit as (Hhf & Hnx & Hl & Hf). specialize (Hf' Hf).
  assert (internal_fits p') as Hfit' by (eapply internal_fits_change; [by split_and!|done|apply Hok'|done]).
  destruct Hh as (Hty & Hmx & Hpp & _).
  apply wp_bind. eapply (edit_internal_rule _ _ pid f p p'); [exact Ht1|apply lookup_singleton_eq|exact Hp|exact Hop|done|congruence|].
  intros t2 Ht2. unfold t_write in Ht2. cbn in Ht2.
  pose proof (inv_insert_child (p' := p') Hinv Hp Hin Hok' Hpp Hseps Hvals Hlook') as Hinv'.
  apply wp_bind. eapply internal_at_rule; [exact Ht2|apply lookup_singleton_eq|apply lookup_insert_eq|].
  rewrite Hmx, Hmaxp, Hs'. case_bool_decide as Hover.
  - replace (d + 1) with (1 + Z.of_nat d) by lia. eapply (SplitInternal_rule _ h depth m (<[pid := NInternal p']> nodes) root pid p').
    + done.
    + apply lookup_insert_eq.
    + congruence.
    + lia.
    + intros i nd' Hi. rewrite lookup_insert_ne by done. by apply Hsized.
    + intros i nd' Hi. rewrite lookup_insert_ne by done. by apply Hwide.
    + exact Ht2.
    + lia.
    + lia.
    + replace (Z.of_nat d) with (Z.of_nat (depth pid) + 1) by lia. apply IH; lia.
  - apply wp_bind. eapply unpin_rule; [exact Ht2|apply lookup_singleton_eq|by left|]. intros t3 Ht3. unfold t_unpin in Ht3. cbn in Ht3.
    rewrite delete_singleton_eq in Ht3. apply wp_ret. eexists root, (<[pid := NInternal p']> nodes), next, _, h, depth.
    split_and!; [exact Ht3|done| | |by left|lia]; intros i nd'; rewrite lookup_insert_Some; intros [[_ <-]|[_ Hi]].
    + cbn. split; [congruence|lia].
    + by apply (Hsized i).
    + cbn. destruct Hok as (_ & ? & _). lia.
    + by apply (Hwide i).
Qed.

(** After the cells of the leaf [id] have been moved to [next]. *)
Lemma finish_leaf_split fuel h depth m nodes root id p p1 p2 middle f g next t dirty :
  tree_inv None nodes root h depth m → nodes !! id = Some (NLeaf p) → nodes !! next = None → 0 ≤ next →
  (∀ i nd, i ≠ id → nodes !! i = Some nd → node_sized nd) → all_wide nodes → node_sized (NLeaf p1) → node_sized (NLeaf p2) →
  page_ok p1 → page_ok p2 → cells p1 ++ cells p2 = cells p → 0 < size_ p1 → 0 < size_ p2 → KeyAt 0 p2 = Ret middle →
  parent_page_id_ p1 = parent_page_id_ p → parent_page_id_ p2 = INVALID_PAGE_ID →
  next_page_id_ p1 = next ∧ next_page_id_ p2 = next_page_id_ p →
  holds t (mkT root (next + 1) (<[next := NLeaf p2]> (<[id := NLeaf p1]> nodes)) (<[next := g]> {[id := f]}) dirty) →
  in_int32 middle = true → (h ≤ fuel)%nat → next + h + 2 < INT32_MAX →
  wp (if IsRootPage p1 then grow_root set_leaf_parent id f middle next g
      else
        let parent_id := parent_page_id_ p1 in
        set_leaf_parent g parent_id;;
        UnpinPage id true;;
        UnpinPage next true;;
        InsertIntoParent fuel parent_id id middle next) t (fun _ t' => tree_after m h next (h + 2) t').
Proof.
  intros Hinv Hid Hfresh Hge Hothers Hwide Hz1 Hz2 Hok1 Hok2 Hcells Hs1 Hs2 Hmid Hp1 Hp2 Hnx Ht Hmfit Hfuel Hnext.
  assert (next ≠ id) as Hne by congruence. destruct (inv_ok _ _ _ _ _ _ Hinv _ _ Hid) as [_ Hlok].
  destruct (leaf_halves p p1 p2 middle Hlok Hok1 Hok2 Hcells Hs1 Hmid Hs2) as (Hl1 & Hl2 & Hmap & Hlt & Hgt & Hmin & Hk0).
  assert (all_sized (<[next := NLeaf p2]> (<[id := NLeaf p1]> nodes))) as Hsized1.
  { intros i nd. rewrite !lookup_insert_Some. intros [[_ <-]|[_ [[_ <-]|[? Hi]]]]; [done|done|by apply (Hothers i)]. }
  assert (all_wide (<[next := NLeaf p2]> (<[id := NLeaf p1]> nodes))) as Hwide1.
  { intros i nd. rewrite !lookup_insert_Some. intros [[_ <-]|[_ [[_ <-]|[_ Hi]]]]; [done|done|by apply (Hwide i)]. }
  pose proof (inv_depth _ _ _ _ _ _ Hinv _ _ Hid) as Hdep. cbn in Hdep.
  assert (t_open (mkT root (next + 1) (<[next := NLeaf p2]> (<[id := NLeaf p1]> nodes)) (<[next := g]> {[id := f]}) dirty) !! id = Some f) as Hf.
  { cbn. rewrite lookup_insert_ne by done. apply lookup_singleton_eq. }
  assert (<[next := NLeaf p2]> (<[id := NLeaf p1]> nodes) !! id = Some (NLeaf p1)) as Hid1.
  { rewrite lookup_insert_ne by done. apply lookup_insert_eq. }
  unfold IsRootPage. rewrite Hp1. case_bool_decide as Hroot.
  - assert (id = root) as ->.
    { eapply orphan_is_root; [done|exact (inv_keys _ _ _ _ _ _ Hinv id (NLeaf p) middle Hid Hmin)|done|done]. }
    eapply wp_mono; [eapply (grow_root_rule (fun nd => ∃ q, nd = NLeaf q) set_leaf_parent h _ m)|].
    + intros t' x' i' f' nd parent Q Ht' Hf' Hnd' [q ->] Hpf HQ. by eapply set_leaf_parent_rule.
    + intros nd. rewrite Hid1. intros [= <-]. by eexists.
    + intros nd. rewrite lookup_insert_eq. intros [= <-]. by eexists.
    + eapply (inv_leaf_split _ _ _ _ _ _ p p1 p2 middle next Hinv); try done. congruence.
    + done.
    + intros i nd _ _. apply Hwide1.
    + destruct (inv_root _ _ _ _ _ _ Hinv) as (_ & _ & _ & Hr0). lia.
    + lia.
    + exact Ht.
    + done.
    + lia.
    + lia.
    + intros [] t' Hafter. eapply tree_after_mono; [exact Hafter|lia].
  - cbn zeta. apply wp_bind. eapply (set_leaf_parent_rule _ _ next g p2); [exact Ht|apply lookup_insert_eq|apply lookup_insert_eq| |].
    { destruct (node_fits _ _ _ _ Ht Hid1) as (_ & ((_ & _ & Hpf & _) & _) & _). by rewrite <-Hp1. }
    intros t2 Ht2. unfold t_write in Ht2. cbn in Ht2. rewrite insert_insert_eq in Ht2.
    apply wp_bind. eapply (unpin_rule _ _ id f); [exact Ht2|exact Hf|by left|]. intros t3 Ht3. unfold t_unpin in Ht3. cbn in Ht3.
    apply wp_bind. eapply (unpin_rule _ _ next g); [exact Ht3|cbn; rewrite lookup_delete_ne by done; apply lookup_insert_eq|by left|].
    intros t4 Ht4. unfold t_unpin in Ht4. cbn in Ht4.
    assert (delete next (delete id (<[next := g]> {[id := f]})) = (∅ : gmap Z Z)) as Hempty.
    { apply map_eq. intros i. rewrite lookup_empty, !lookup_delete_None, lookup_insert_None, lookup_singleton_None.
      destruct (decide (next = i)), (decide (id = i)); tauto. }
    rewrite Hempty in Ht4. eapply wp_mono.
    + eapply (InsertIntoParent_rule fuel root id next (parent_page_id_ p) h h m (next + 1) Hfuel);
        [lia| | | |exact Ht4| | |done|done|].
      * eapply (inv_leaf_split _ _ _ _ _ _ p p1 (SetParentPageId (parent_page_id_ p) p2) middle next Hinv); try done. intros k. rewrite Hmap. by case_bool_decide.
      * intros i nd. rewrite !lookup_insert_Some. intros [[_ <-]|[_ [[_ <-]|[? Hi]]]]; [done|done|by apply (Hothers i)].
      * intros i nd. rewrite !lookup_insert_Some. intros [[_ <-]|[_ [[_ <-]|[_ Hi]]]]; [done|done|by apply (Hwide i)].
      * rewrite lookup_insert_ne by done. apply lookup_insert_eq.
      * done.
      * by rewrite depth_split_other.
    + intros [] t' Hafter. eapply tree_after_mono; [exact Hafter|lia].
Qed.

Lemma Split_rule fuel h depth m nodes root id p f next t dirty :
  tree_inv None nodes root h depth m → nodes !! id = Some (NLeaf p) →
  max_size_ p = leaf_max → size_ p = leaf_max + 1 → (∀ i nd, i ≠ id → nodes !! i = Some nd → node_sized nd) → all_wide nodes →
  holds t (mkT root next nodes {[id := f]} dirty) → (h ≤ fuel)%nat → next + h + 2 < INT32_MAX →
  wp (Split fuel f id) t (fun _ t' => tree_after m h next (h + 2) t').
Proof.
  intros Hinv Hid Hmax Hsize Hothers Hwide Ht Hfuel Hnext. unfold Split.
  destruct (inv_ok _ _ _ _ _ _ Hinv _ _ Hid) as [_ Hok].
  destruct (node_fits _ _ _ _ Ht Hid) as (_ & Hfit & Htype).
  apply wp_bind. eapply new_rule; [exact Ht| |cbn; lia|].
  { unfold room. cbn. rewrite map_size_singleton. lia. }
  intros g t1 Ht1 Hfresh Hclosed Hge. cbn in Hfresh, Hclosed, Hge. unfold t_new in Ht1. cbn in Ht1.
  assert (next ≠ id) as Hne by congruence.
  apply wp_gets_bind. pose proof Ht1 as (_ & _ & -> & _).
  apply wp_bind. eapply init_leaf_rule; [exact Ht1|apply lookup_insert_eq|apply lookup_insert_eq|].
  intros p0 t2 Hfit0 Ht2. unfold t_write in Ht2. cbn in Ht2. rewrite insert_insert_eq in Ht2.
  set (q := Leaf_Init leaf_max p0) in *.
  pose proof (Leaf_Init_fits p0 Hfit0) as Hqfit. destruct Hfit0 as (_ & Hl0 & _).
  assert (∀ o d, t_open (mkT root (next + 1) d (<[next:=g]> {[id:=f]}) o) !! id = Some f) as Hopenf.
  { intros. cbn. rewrite lookup_insert_ne by done. apply lookup_singleton_eq. }
  destruct (Leaf_MoveHalfTo_spec p q (proj1 Hok)) as (p1 & p2 & Hop & Hok1 & Hok2 & Hh1 & Hh2 & Hs1 & Hcells);
    [unfold page_ok; cbn; lia|done|cbn; lia|].
  destruct (Leaf_MoveHalfTo_Forall _ _ _ _ _ Hop (proj2 (proj2 Hfit)) (proj2 (proj2 Hqfit))) as [Hf1 Hf2].
  pose proof (leaf_fits_change p p1 Hfit Hh1 Hok1 Hf1) as Hfit1. pose proof (leaf_fits_change q p2 Hqfit Hh2 Hok2 Hf2) as Hfit2.
  destruct Hh1 as (Ht1' & Hm1 & Hp1 & Hx1 & _). destruct Hh2 as (Ht2' & Hm2 & Hp2 & Hx2 & _).
  apply wp_bind. eapply (edit_leaves_rule _ _ id f next g); [exact Ht2|done|by apply Hopenf|cbn; by rewrite lookup_insert_ne| | |exact Hop|done|done|congruence|done|].
  { cbn. apply lookup_insert_eq. }
  { cbn. apply lookup_insert_eq. }
  intros t3 Ht3. unfold t_write in Ht3. cbn in Ht3.
  replace (<[next:=NLeaf p2]> (<[id:=NLeaf p1]> (<[next:=NLeaf q]> nodes)))
    with (<[next:=NLeaf p2]> (<[id:=NLeaf p1]> nodes)) in Ht3
    by (rewrite (insert_insert_ne nodes id next), insert_insert_eq by done; done).
  assert (<[next := NLeaf p2]> (<[id := NLeaf p1]> nodes) !! id = Some (NLeaf p1)) as Hid1.
  { rewrite lookup_insert_ne by done. apply lookup_insert_eq. }
  apply wp_bind. eapply leaf_at_rule; [exact Ht3|by apply Hopenf|exact Hid1|].
  apply wp_bind. eapply (edit_leaf_rule _ _ next g p2); [exact Ht3|apply lookup_insert_eq|apply lookup_insert_eq|done| |done|].
  { apply leaf_fits_next; [done|]. by destruct Hfit1 as ((_ & _ & _ & ?) & _). }
  intros t4 Ht4. unfold t_write in Ht4. cbn in Ht4. rewrite insert_insert_eq in Ht4.
  set (p2' := SetNextPageId (next_page_id_ p1) p2) in *.
  apply wp_bind. eapply (edit_leaf_rule _ _ id f p1); [exact Ht4|by apply Hopenf| |done| |cbn; congruence|].
  { cbn. rewrite lookup_insert_ne by done. apply lookup_insert_eq. }
  { apply leaf_fits_next; [done|]. apply in_int32_iff. cbn [t_next]. unfold INT32_MIN, INT32_MAX in *. lia. }
  intros t5 Ht5. unfold t_write in Ht5. cbn in Ht5. rewrite (insert_insert_ne _ id next), insert_insert_eq in Ht5 by done.
  set (p1' := SetNextPageId next p1) in *.
  apply wp_bind. eapply leaf_at_rule; [exact Ht5|apply lookup_insert_eq|apply lookup_insert_eq|].
  assert (1 ≤ size_ p / 2 < size_ p) as Hdiv by (split; [apply Z.div_le_lower_bound; lia|apply Z.div_lt_upper_bound; lia]).
  assert (size_ p1 + size_ p2 = size_ p) as Hsum.
  { apply (f_equal length) in Hcells. rewrite length_app, !length_cells in Hcells by (done || apply Hok).
    unfold page_ok in Hok1, Hok2. lia. }
  destruct (lookup_lt_is_Some_2 (array_ p2) 0) as [[middle v] Hc0]; [unfold page_ok in Hok2; lia|].
  assert (KeyAt 0 p2' = Ret middle) as Hmid by (unfold KeyAt; cbn; by rewrite (arr_get_nat 0 (middle, v))).
  rewrite Hmid. apply wp_bind, wp_lift.
  change (IsRootPage p1) with (IsRootPage p1'). change (parent_page_id_ p1) with (parent_page_id_ p1').
  eapply (finish_leaf_split fuel h depth m nodes root id p p1' p2' middle); try done; cbn; try lia.
  - split; [by rewrite Hm2|]. pose proof (Z.div_mod (size_ p) 2). lia.
  - destruct Hfit2 as (_ & _ & Hf). by apply (Forall_lookup_1 _ _ _ _ Hf Hc0).
Qed.

(** ** The abstract state of a tree

    [tree_rep t m h next]: the tree has the map [m] and height [h], and the next
    page of the store is [next]. *)
Definition tree_rep t (m : gmap Z RID) (h : nat) (next : Z) : Prop :=
  (∃ dirty, holds t (mkT INVALID_PAGE_ID next ∅ ∅ dirty) ∧ m = ∅ ∧ h = 0%nat) ∨
  (∃ root nodes dirty depth, holds t (mkT root next nodes ∅ dirty) ∧ tree_inv None nodes root h depth m ∧
    all_sized nodes ∧ all_wide nodes).

(** [Insert] as an operation on maps. *)
Definition insert_new (key : Z) (value : RID) (m : gmap Z RID) : gmap Z RID :=
  match m !! key with Some _ => m | None => <[key := value]> m end.

Lemma tree_rep_after m h next bound t : tree_after m h next bound t →
  ∃ h' next', tree_rep t m h' next' ∧ grows m h h' ∧ next' ≤ next + bound.
Proof.
  intros (root & nodes & next' & dirty & h' & depth & ? & ? & ? & ? & ? & ?). exists h', next'.
  split_and!; [|done|done]. right. by exists root, nodes, dirty, depth.
Qed.

Lemma GetValue_rep fuel key t m h next :
  tree_rep t m h next → (h < fuel)%nat → wp (GetValue fuel key) t (fun v t' => v = m !! key ∧ tree_rep t' m h next).
Proof.
  intros [(dirty & Ht & -> & ->)|(root & nodes & dirty & depth & Ht & Hinv & Hsized & Hwide)] Hfuel.
  - unfold GetValue. apply wp_bind, wp_gets. pose proof Ht as (_ & -> & _). cbn. split; [by rewrite lookup_empty|].
    left. by exists dirty.
  - eapply GetValue_rule; [done|done|done|lia|]. intros t' dirty' Ht'. split; [done|]. right. by exists root, nodes, dirty', depth.
Qed.

(** The first insertion. *)
Lemma first_Insert_rep fuel key value t dirty next :
  holds t (mkT INVALID_PAGE_ID next ∅ ∅ dirty) → leaf_cell_fits (key, value) → next < INT32_MAX →
  wp (Insert fuel key value) t (fun b t' => b = true ∧ tree_rep t' {[key := value]} 0 (next + 1)).
Proof.
  intros Ht Hcell Hnext. eapply wp_mono; [eapply first_Insert; [lia|done..]|].
  intros b t' (-> & root & p & dirty' & Ht' & Hroot & Hok & Hpar & Hnx & Hmax & Hsize & Hmap). split; [done|].
  right. exists root, {[root := NLeaf p]}, dirty', (fun _ => 0%nat). split_and!; [done|by apply inv_first_leaf| |].
  - intros i nd [<- <-]%lookup_singleton_Some. cbn. rewrite Hsize, map_size_singleton. lia.
  - by intros i nd [<- <-]%lookup_singleton_Some.
Qed.

Lemma Insert_rep fuel key value t m h next :
  tree_rep t m h next → (h < fuel)%nat → leaf_cell_fits (key, value) → next + h + 2 < INT32_MAX →
  wp (Insert fuel key value) t (fun b t' => b = bool_decide (m !! key = None) ∧
    ∃ h' next', tree_rep t' (insert_new key value m) h' next' ∧ grows (insert_new key value m) h h' ∧ next' ≤ next + (h + 2)).
Proof.
  intros [(dirty & Ht & -> & ->)|(root & nodes & dirty & depth & Ht & Hinv & Hsized & Hwide)] Hfuel Hcell Hnext.
  { eapply wp_mono; [eapply first_Insert_rep; [done|done|lia]|]. intros b t' [-> Hrep]. split; [done|].
    exists 0%nat, (next + 1). split_and!; [done|by left|lia]. }
  unfold Insert. apply wp_bind. eapply not_empty; [done|done|].
  apply wp_bind. eapply descend_root_rule; [done..|lia|]. intros leaf f t1 dirty1 p Hw Hp Hm Ht1 Hd.
  destruct (inv_ok _ _ _ _ _ _ Hinv _ _ Hp) as [_ Hok]. destruct (Hsized _ _ Hp) as [Hmax Hsize].
  destruct (node_fits _ _ _ _ Ht1 Hp) as (_ & Hfit & Htype).
  apply wp_bind. eapply leaf_at_rule; [exact Ht1|apply lookup_singleton_eq|exact Hp|]. cbn zeta.
  destruct (m !! key) as [w|] eqn:Hkey.
  - apply wp_bind. eapply (edit_leaf_same _ _ leaf f p); [exact Ht1|apply lookup_singleton_eq|exact Hp|by eapply Leaf_Insert_present|].
    rewrite bool_decide_true by done. apply wp_bind. eapply unpin_rule; [exact Ht1|apply lookup_singleton_eq|by right|].
    intros t2 Ht2. unfold t_unpin in Ht2. cbn in Ht2. rewrite delete_singleton_eq in Ht2. apply wp_ret. split; [done|].
    exists h, next. unfold insert_new. rewrite Hkey. split_and!; [|by left|lia]. right. by exists root, nodes, dirty1, depth.
  - destruct (Leaf_Insert_absent key value p Hok) as (p' & Hop & Hok' & Hh & Hs' & Hmap); [done| |].
    { destruct Hfit as (_ & -> & _). lia. }
    pose proof (Leaf_Insert_Forall _ _ _ _ _ _ Hop Hcell (proj2 (proj2 Hfit))) as Hf.
    pose proof (leaf_fits_change p p' Hfit Hh (proj1 Hok') Hf) as Hfit'. destruct Hh as (Hty & Hmx & Hpp & Hnx & _).
    apply wp_bind. eapply (edit_leaf_rule _ _ leaf f p p'); [exact Ht1|apply lookup_singleton_eq|exact Hp|exact Hop|done|congruence|].
    intros t2 Ht2. unfold t_write in Ht2. cbn in Ht2. rewrite bool_decide_false by lia.
    pose proof (inv_leaf_insert _ _ _ _ _ leaf p p' key value Hinv Hp Hw Hok' Hpp Hnx Hmap) as Hinv'.
    apply wp_bind. eapply leaf_at_rule; [exact Ht2|apply lookup_singleton_eq|apply lookup_insert_eq|].
    unfold insert_new. rewrite Hkey. apply wp_bind. rewrite Hmx, Hmax, Hs'. case_bool_decide as Hover.
    + eapply wp_mono; [eapply (Split_rule fuel h depth _ _ root leaf p' f next _ _ Hinv')|].
      * apply lookup_insert_eq.
      * congruence.
      * lia.
      * intros i nd Hi. rewrite lookup_insert_ne by done. by apply Hsized.
      * intros i nd. rewrite lookup_insert_Some. intros [[_ <-]|[_ Hi]]; [done|by apply (Hwide i)].
      * exact Ht2.
      * lia.
      * lia.
      * intros [] t' Hafter. apply wp_ret. split; [done|]. by apply tree_rep_after.
    + apply wp_bind. eapply unpin_rule; [exact Ht2|apply lookup_singleton_eq|by left|].
      intros t3 Ht3. unfold t_unpin in Ht3. cbn in Ht3. rewrite delete_singleton_eq in Ht3. apply wp_ret, wp_ret. split; [done|].
      exists h, next. split_and!; [|by left|lia]. right. eexists root, _, _, depth. split_and!; [exact Ht3|done| |].
      * intros i nd. rewrite lookup_insert_Some. intros [[_ <-]|[_ Hi]]; [|by apply (Hsized i)]. cbn. split; [congruence|lia].
      * intros i nd. rewrite lookup_insert_Some. intros [[_ <-]|[_ Hi]]; [done|by apply (Hwide i)].
Qed.

(** All pages of the tree are unpinned at rest. *)
Lemma tree_rep_pinned t m h next : tree_rep t m h next → ∃ b, ps_rep (bpm_ t) b ∧ ps_pinned b = others.
Proof.
  assert (∀ x, holds t x → t_open x = ∅ → ∃ b, ps_rep (bpm_ t) b ∧ ps_pinned b = others) as Hx.
  { intros x ((b & Hrep & _ & _ & Hpin & _) & _) Ho. exists b. split; [done|]. by rewrite Hpin, Ho, fmap_empty, map_empty_union. }
  intros [(dirty & Ht & _)|(root & nodes & dirty & depth & Ht & _)]; by eapply Hx.
Qed.
End rules.

(** A new tree pins no page. *)
Lemma new_tree_state {St D} `{PageStoreSpec St D} `{NodeLayoutSpec D} (s : St) (b : pstate D) (leaf_max internal_max : Z) :
  ps_rep s b → let t := BPlusTree_new s leaf_max internal_max in
  holds (ps_cap b) (ps_pinned b) (leaf_max_size_ t) (internal_max_size_ t) t (mkT INVALID_PAGE_ID (ps_next b) ∅ ∅ ∅).
Proof.
  intros Hrep t. split; [|done].
  exists b. cbn. rewrite fmap_empty, map_empty_union. split_and!; try done.
  - intros id [f Hf]. by rewrite lookup_empty in Hf.
  - intros id [f c] Hp. destruct (ps_rep_pinned _ _ _ _ _ Hrep Hp) as [_ [d Hd]]. by apply (ps_rep_pages _ _ _ _ Hrep Hd).
Qed.

Lemma new_tree_holds {St D} `{PageStoreSpec St D} `{NodeLayoutSpec D} (s : St) (b : pstate D) (leaf_max internal_max : Z) :
  ps_rep s b → leaf_max ≠ 0 → internal_max ≠ 0 →
  holds (ps_cap b) (ps_pinned b) leaf_max internal_max (BPlusTree_new s leaf_max internal_max) (mkT INVALID_PAGE_ID (ps_next b) ∅ ∅ ∅).
Proof.
  intros Hrep Hl Hi. pose proof (new_tree_state s b leaf_max internal_max Hrep) as Hholds. cbn in Hholds.
  by rewrite !bool_decide_false in Hholds by lia.
Qed.
