(* ===== verification/RemoveSpec.v ===== *)
(** * Removal from a B+ tree of two levels

    [Remove] of [BPlusTree.v] against the deletion from a finite map, for trees
    whose internal nodes need no merge: the leaves are children of the root or the
    only leaf is the root.  (Merges of internal nodes leave children with the page id
    of a parent that is gone.)  Leaves lend each other cells, are merged, and the root
    is replaced by its only child; the lemmas of [TreeRemove.v] are applied along the
    code, as [BPlusTreeSpec.v] does for insertions. *)
From Stdlib Require Import Sorting.Sorted.
From S2P Require Import Prelude Interfaces DiskManager BufferPool BufferPoolSpec Tuple BPlusTreePage NodeLayout BPlusTree TreeInvariant TreeRemove BPlusTreeSpec.

#[local] Open Scope Z_scope.
#[local] Coercion Z.of_nat : nat >-> Z.

Definition t_delete (id : Z) (x : tstate) : tstate :=
  mkT (t_root x) (t_next x) (delete id (t_nodes x)) (t_open x) (t_dirty x).

Section rules.
Context {St D : Type} `{PageStoreSpec St D} `{NodeLayoutSpec D}.
Context (Hpages : ∀ d, ps_ok d ↔ layout_ok d).
Context (cap : nat) (others : gmap Z (Z * Z)) (leaf_max internal_max : Z).
Context (Hleaf_max : in_int32 leaf_max = true) (Hinternal_max : in_int32 internal_max = true).
Context (Hlm : 2 ≤ leaf_max < leaf_cells) (Hroom : (3 + size others ≤ cap)%nat).
Implicit Types (t : BPlusTree St) (x : tstate).
Abbreviation holds := (BPlusTreeSpec.holds cap others leaf_max internal_max).
Abbreviation room := (BPlusTreeSpec.room cap others).
Abbreviation all_sized := (BPlusTreeSpec.all_sized leaf_max internal_max).
Abbreviation node_sized := (BPlusTreeSpec.node_sized leaf_max internal_max).
Abbreviation tree_rep := (BPlusTreeSpec.tree_rep cap others leaf_max internal_max).
Abbreviation fetch_rule := (BPlusTreeSpec.fetch_rule Hpages cap others leaf_max internal_max Hleaf_max Hinternal_max).
Abbreviation unpin_rule := (BPlusTreeSpec.unpin_rule Hpages cap others leaf_max internal_max Hleaf_max Hinternal_max).
Abbreviation leaf_at_rule := (BPlusTreeSpec.leaf_at_rule Hpages cap others leaf_max internal_max Hleaf_max Hinternal_max).
Abbreviation internal_at_rule := (BPlusTreeSpec.internal_at_rule Hpages cap others leaf_max internal_max Hleaf_max Hinternal_max).
Abbreviation edit_leaf_rule := (BPlusTreeSpec.edit_leaf_rule Hpages cap others leaf_max internal_max Hleaf_max Hinternal_max).
Abbreviation edit_leaves_rule := (BPlusTreeSpec.edit_leaves_rule Hpages cap others leaf_max internal_max Hleaf_max Hinternal_max).
Abbreviation edit_internal_rule := (BPlusTreeSpec.edit_internal_rule Hpages cap others leaf_max internal_max Hleaf_max Hinternal_max).
Abbreviation edit_parent_rule := (BPlusTreeSpec.edit_parent_rule Hpages cap others leaf_max internal_max Hleaf_max Hinternal_max).
Abbreviation set_root_rule := (BPlusTreeSpec.set_root_rule cap others leaf_max internal_max).
Abbreviation node_fits := (BPlusTreeSpec.node_fits cap others leaf_max internal_max).

(** A page that is not pinned can be deleted. *)
Lemma delete_rule t x id (Q : bool → BPlusTree St → Prop) :
  holds t x → is_Some (t_nodes x !! id) → t_open x !! id = None →
  (∀ t', holds t' (t_delete id x) → Q true t') → wp (DeletePage id) t Q.
Proof.
  intros ((b & Hrep & Hcap & Hnext & Hpin & Hnodes & Hopen & Hothers) & Hr & Hl & Hi) [nd Hnd] Hclosed HQ.
  destruct (Hnodes id nd Hnd) as (_ & Ho & _). unfold DeletePage, on_bpm. apply wp_zoom.
  eapply wp_mono; [eapply ps_delete_spec; [exact Hrep|by eapply pinned_closed]|]. intros o s' (-> & Hrep'). apply HQ. split; [|done].
  exists (spec_delete id b). cbn. split_and!; [done|done|done|done| | |done].
  - intros i ni Hi'. apply lookup_delete_Some in Hi' as [Hne Hi']. destruct (Hnodes i ni Hi') as (Hd & Hoi & Hu).
    rewrite lookup_delete_ne by done. done.
  - intros i Hi'. rewrite lookup_delete_is_Some. split; [|by apply Hopen]. intros <-. rewrite Hclosed in Hi'. by destruct Hi'.
Qed.

(** Nodes can be forgotten when no page is pinned. *)
Lemma holds_forget t root next nodes dirty : holds t (mkT root next nodes ∅ dirty) → holds t (mkT root next ∅ ∅ dirty).
Proof.
  intros ((b & Hrep & Hcap & Hnext & Hpin & Hnodes & Hopen & Hothers) & Ht). split; [|done]. exists b.
  split_and!; try done. cbn. intros i [f Hf]. by rewrite lookup_empty in Hf.
Qed.

(** ** Two neighbouring leaves of the root *)
Section coalesce.
Context (m : gmap Z RID) (h : nat) (nodes : gmap Z node) (root next : Z) (depth : Z → nat).
Context (q : TreePage Z) (v0 : Z) (cs1 : list (Z * Z)) (mid b : Z) (cs2 : list (Z * Z)) (pa pb : TreePage RID).
Abbreviation a := (left_of v0 cs1).
Context (Hinv : tree_inv None nodes root h depth m) (Hroot : nodes !! root = Some (NInternal q)) (Hq : has_cells q v0 (cs1 ++ (mid, b) :: cs2)).
Context (Hpa : nodes !! a = Some (NLeaf pa)) (Hpb : nodes !! b = Some (NLeaf pb)) (Hnext : next_page_id_ pa = b).
Context (Hsized : ∀ i nd, i ≠ a → i ≠ b → nodes !! i = Some nd → node_sized nd) (Hwide : all_wide nodes).
Context (Hmaxa : max_size_ pa = leaf_max) (Hmaxb : max_size_ pb = leaf_max).
(** The frames of the three pages. *)
Context (open : gmap Z Z) (fa fb pf : Z) (Hoa : open !! a = Some fa) (Hob : open !! b = Some fb) (Hor : open !! root = Some pf)
  (Hrest : delete a (delete b open) = {[root := pf]}).

Lemma coalesce_differ : a ≠ b ∧ a ≠ root ∧ b ≠ root.
Proof. split; [by eapply neighbours_differ|]. split; intros Heq; rewrite Heq in *; congruence. Qed.

Lemma coalesce_pages : page_ok pa ∧ page_ok pb ∧ internal_ok q ∧ 2 ≤ size_ q ∧ parent_page_id_ q = INVALID_PAGE_ID.
Proof.
  destruct (inv_ok _ _ _ _ _ _ Hinv _ _ Hpa) as [_ [? _]]. destruct (inv_ok _ _ _ _ _ _ Hinv _ _ Hpb) as [_ [? _]].
  destruct (inv_ok _ _ _ _ _ _ Hinv _ _ Hroot) as [_ [? _]]. destruct (inv_root _ _ _ _ _ _ Hinv) as (rd & Hrd & Hp & _).
  rewrite Hroot in Hrd. injection Hrd as <-. split_and!; try done. by apply (Hwide root (NInternal q) Hroot).
Qed.

(** The nodes after an exchange of cells. *)
Definition lent (pa' pb' : TreePage RID) (q' : TreePage Z) : gmap Z node :=
  <[root := NInternal q']> (<[b := NLeaf pb']> (<[a := NLeaf pa']> nodes)).

Lemma lent_lookup pa' pb' q' : lent pa' pb' q' !! root = Some (NInternal q') ∧ lent pa' pb' q' !! a = Some (NLeaf pa') ∧
  lent pa' pb' q' !! b = Some (NLeaf pb') ∧ ∀ i, i ≠ root → i ≠ a → i ≠ b → lent pa' pb' q' !! i = nodes !! i.
Proof.
  destruct coalesce_differ as (Hab & Har & Hbr). unfold lent. split_and!.
  - apply lookup_insert_eq.
  - rewrite !lookup_insert_ne by done. apply lookup_insert_eq.
  - rewrite lookup_insert_ne by done. apply lookup_insert_eq.
  - intros i ???. by rewrite !lookup_insert_ne.
Qed.

Lemma lent_rep t dirty pa' pb' q' key' :
  holds t (mkT root next (lent pa' pb' q') ∅ dirty) → can_separate (pa := pa) (pb := pb) key' →
  has_cells q' v0 (cs1 ++ (key', b) :: cs2) → same_header q q' → size_ q' = size_ q →
  page_ok pa' → page_ok pb' → same_header pa pa' → same_header pb pb' → cells pa' ++ cells pb' = cells pa ++ cells pb →
  1 ≤ size_ pa' ≤ leaf_max → 1 ≤ size_ pb' ≤ leaf_max → KeyAt 0 pb' = Ret key' → tree_rep t m h next.
Proof.
  intros Ht Hsep Hq' (_ & Hmx & Hpar & _) Hsize Hoka Hokb Hha Hhb Hcells Hsa Hsb Hkey.
  destruct coalesce_differ as (Hab & Har & Hbr). destruct coalesce_pages as (_ & _ & _ & Hwq & Hpq).
  destruct (lent_lookup pa' pb' q') as (Hlr & Hla & Hlb & Hlo).
  right. eexists root, _, dirty, depth. split; [exact Ht|]. split; [|split].
  - eapply (inv_redistribute Hinv Hroot Hq Hpa Hpb _ q' pa' pb' key'); try done; lia.
  - destruct Hha as (_ & Hma & _). destruct Hhb as (_ & Hmb & _).
    intros i nd Hi. destruct (decide (i = root)) as [->|Hir].
    { rewrite Hlr in Hi. injection Hi as <-. destruct (Hsized root _ (not_eq_sym Har) (not_eq_sym Hbr) Hroot). cbn. split; [congruence|lia]. }
    destruct (decide (i = a)) as [->|Hia]; [rewrite Hla in Hi; injection Hi as <-; cbn; split; [congruence|lia]|].
    destruct (decide (i = b)) as [->|Hib]; [rewrite Hlb in Hi; injection Hi as <-; cbn; split; [congruence|lia]|].
    rewrite Hlo in Hi by done. by apply (Hsized i).
  - intros i nd Hi. destruct (decide (i = root)) as [->|Hir]; [rewrite Hlr in Hi; injection Hi as <-; cbn; lia|].
    destruct (decide (i = a)) as [->|Hia]; [rewrite Hla in Hi; by injection Hi as <-|].
    destruct (decide (i = b)) as [->|Hib]; [rewrite Hlb in Hi; by injection Hi as <-|].
    rewrite Hlo in Hi by done. by apply (Hwide i).
Qed.

(** The key of the first cell. *)
Lemma first_key (p : TreePage RID) c cs : page_ok p → cells p = c :: cs → KeyAt 0 p = Ret c.1 ∧ is_Some (leaf_map p !! c.1).
Proof.
  intros Hok Hc. split.
  - assert (0 < size_ p) by (pose proof (length_cells p Hok) as Hl; rewrite Hc in Hl; cbn in Hl; lia).
    unfold KeyAt. rewrite (arr_get_nat 0 c); [done|]. rewrite <-lookup_cells by lia. by rewrite Hc.
  - unfold leaf_map. rewrite Hc. destruct c. cbn. rewrite lookup_insert_eq. by eexists.
Qed.

Lemma cell_key (p : TreePage RID) c : c ∈ cells p → is_Some (leaf_map p !! c.1).
Proof.
  intros Hc. apply not_eq_None_Some. unfold leaf_map. intros Hn%not_elem_of_list_to_map. apply Hn. by apply list_elem_of_fmap_2.
Qed.

Lemma leaf_key_fits (p : TreePage RID) c : leaf_fits p → c ∈ cells p → in_int32 c.1 = true.
Proof.
  intros (_ & _ & Hf) Hc. rewrite Forall_forall in Hf. unfold cells in Hc. apply elem_of_take in Hc as (i & Hi & _).
  apply list_elem_of_lookup_2 in Hi. by destruct (Hf c Hi).
Qed.

(** The new separator is written, and the pages are closed. *)
Lemma write_separator t dirty pa' pb' c cs (Q : unit → BPlusTree St → Prop) :
  holds t (mkT root next (<[b := NLeaf pb']> (<[a := NLeaf pa']> nodes)) open dirty) → page_ok pb' → cells pb' = c :: cs →
  can_separate (pa := pa) (pb := pb) c.1 →
  (∀ q' t' dirty', has_cells q' v0 (cs1 ++ (c.1, b) :: cs2) → same_header q q' → size_ q' = size_ q →
    holds t' (mkT root next (lent pa' pb' q') open dirty') → Q tt t') →
  wp (separator ← lift (KeyAt 0 pb'); edit_internal pf (void_op (SetKeyAt (S (length cs1)) separator))) t Q.
Proof.
  intros Ht Hok Hc Hsep HQ. destruct coalesce_differ as (Hab & Har & Hbr). destruct (first_key pb' c cs Hok Hc) as [-> _]. apply wp_bind, wp_lift.
  destruct (separator_between Hinv Hroot Hq Hpa Hpb c.1 Hsep) as [Hs1 Hs2].
  destruct (SetKeyAt_spec q v0 cs1 mid b cs2 c.1 Hq Hs1 Hs2) as (q' & Hop & Hq' & Hh & Hsize).
  assert (nodes !! root = Some (NInternal q)) as Hroot1 by done.
  assert (<[b := NLeaf pb']> (<[a := NLeaf pa']> nodes) !! root = Some (NInternal q)) as Hroot2 by (by rewrite !lookup_insert_ne).
  assert (<[b := NLeaf pb']> (<[a := NLeaf pa']> nodes) !! b = Some (NLeaf pb')) as Hb2 by apply lookup_insert_eq.
  destruct (node_fits _ _ _ _ Ht Hroot2) as (_ & Hfit & Htype). destruct (node_fits _ _ _ _ Ht Hb2) as (_ & Hbfit & _).
  assert (in_int32 c.1 = true) as Hcfit by (apply (leaf_key_fits pb'); [done|rewrite Hc; by left]).
  destruct (has_cells_ok _ _ _ Hq') as [[Hpok _] _].
  eapply (edit_internal_rule _ _ root pf q q'); [exact Ht|exact Hor|exact Hroot2|by unfold void_op; rewrite Hop| | |].
  - eapply internal_fits_change; [exact Hfit|done|done|]. destruct Hfit as (_ & _ & _ & Hf). by eapply SetKeyAt_fits.
  - destruct Hh as (-> & _). done.
  - intros t' Ht'. by eapply HQ.
Qed.

Lemma close_rule t nodes' dirty (Q : unit → BPlusTree St → Prop) :
  holds t (mkT root next nodes' open dirty) →
  (∀ t' dirty', holds t' (mkT root next nodes' ∅ dirty') → Q tt t') →
  wp (UnpinPage b true;; UnpinPage a true;; UnpinPage root true;; mret tt) t Q ∧
  wp (UnpinPage a true;; UnpinPage b true;; UnpinPage root true;; mret tt) t Q.
Proof.
  intros Ht HQ. destruct coalesce_differ as (Hab & Har & Hbr).
  split; (apply wp_bind; eapply unpin_rule; [exact Ht|done|by left|]); intros t1 Ht1; unfold t_unpin in Ht1; cbn in Ht1;
    (apply wp_bind; eapply unpin_rule; [exact Ht1|cbn; by rewrite lookup_delete_ne|by left|]); intros t2 Ht2; unfold t_unpin in Ht2; cbn in Ht2;
    (apply wp_bind; eapply unpin_rule; [exact Ht2|cbn; by rewrite !lookup_delete_ne|by left|]); intros t3 Ht3; unfold t_unpin in Ht3; cbn in Ht3;
    [|rewrite (delete_delete _ b a) in Ht3]; rewrite Hrest, delete_singleton_eq in Ht3; apply wp_ret; by eapply HQ.
Qed.

Lemma leaf_nonempty (p : TreePage RID) : page_ok p → 1 ≤ size_ p → ∃ c cs, cells p = c :: cs.
Proof. intros Hok Hp. pose proof (length_cells p Hok) as Hl. destruct (cells p) as [|c cs]; cbn in *; [lia|by eexists _, _]. Qed.

Lemma leaf_pair_fits t x id p : holds t x → t_nodes x !! id = Some (NLeaf p) → leaf_fits p ∧ page_type_ p = LEAF_PAGE.
Proof. intros Ht Hp. by destruct (node_fits _ _ _ _ Ht Hp) as (_ & ?). Qed.

(** The left sibling lends its last cell, the right one its first. *)
Lemma redistribute_left_rule t dirty :
  holds t (mkT root next nodes open dirty) → 2 ≤ size_ pa ≤ leaf_max → size_ pb < leaf_max →
  wp (redistribute_leaf fb b fa a pf root (S (length cs1)) true) t (fun _ t' => tree_rep t' m h next).
Proof.
  intros Ht Hsa Hsb. destruct coalesce_differ as (Hab & Har & Hbr). destruct coalesce_pages as (Hoka & Hokb & _).
  destruct (leaf_pair_fits _ _ _ _ Ht Hpa) as [Hfa Hta]. destruct (leaf_pair_fits _ _ _ _ Ht Hpb) as [Hfb Htb].
  pose proof Hokb as Hokb'. unfold page_ok in Hokb'. unfold redistribute_leaf. apply wp_bind.
  destruct (Leaf_MoveLastToFrontOf_spec pa pb) as (c & pa' & pb' & Hop & Hpa1 & Hpb1 & Hha & Hhb & Hza & Hzb & Hca & Hcb);
    [done|done|lia|destruct Hfb as (_ & -> & _); lia|].
  destruct (Leaf_MoveLastToFrontOf_Forall _ _ _ _ _ Hop (proj2 (proj2 Hfa)) (proj2 (proj2 Hfb))) as [Hf1 Hf2].
  pose proof (leaf_fits_change pa pa' Hfa Hha Hpa1 Hf1) as Hfa'. pose proof (leaf_fits_change pb pb' Hfb Hhb Hpb1 Hf2) as Hfb'.
  apply wp_bind. eapply (edit_leaves_rule _ _ a fa b fb); [exact Ht|done|done|exact Hpa|done|exact Hpb|exact Hop|done|done| | |].
  { destruct Hha as (-> & _). done. }
  { destruct Hhb as (-> & _). done. }
  intros t1 Ht1. unfold t_write in Ht1. cbn in Ht1.
  apply wp_bind. eapply (leaf_at_rule _ _ b fb pb'); [exact Ht1|done|apply lookup_insert_eq|].
  assert (can_separate (pa := pa) (pb := pb) c.1) as Hsep.
  { destruct (leaf_nonempty pa') as (d & ds & Hd); [done|lia|]. exists pa, d.1. split; [by left|].
    destruct (inv_ok _ _ _ _ _ _ Hinv _ _ Hpa) as [_ [_ Hs]]. rewrite Hca, fmap_app in Hs. apply StronglySorted_app_inv in Hs as (_ & _ & Hs).
    split_and!; [apply Hs; [rewrite Hd; by left|by left]| |]; apply cell_key; rewrite Hca, Hd; set_solver. }
  eapply write_separator; [exact Ht1|done|exact Hcb|done|]. intros q' t2 dirty2 Hq' Hhq Hzq Ht2.
  eapply close_rule; [exact Ht2|]. intros t3 dirty3 Ht3. destruct (first_key pb' c (cells pb)) as [Hkey _]; [done|done|].
  eapply (lent_rep t3 dirty3 pa' pb' q' c.1); try done; [by rewrite Hca, Hcb, <-app_assoc|lia|lia].
Qed.

Lemma redistribute_right_rule t dirty :
  holds t (mkT root next nodes open dirty) → size_ pa < leaf_max → 2 ≤ size_ pb ≤ leaf_max →
  wp (redistribute_leaf fa a fb b pf root (length cs1) false) t (fun _ t' => tree_rep t' m h next).
Proof.
  intros Ht Hsa Hsb. destruct coalesce_differ as (Hab & Har & Hbr). destruct coalesce_pages as (Hoka & Hokb & _).
  destruct (leaf_pair_fits _ _ _ _ Ht Hpa) as [Hfa Hta]. destruct (leaf_pair_fits _ _ _ _ Ht Hpb) as [Hfb Htb].
  pose proof Hoka as Hoka'. unfold page_ok in Hoka'. unfold redistribute_leaf. apply wp_bind.
  destruct (Leaf_MoveFirstToEndOf_spec pb pa) as (c & pb' & pa' & Hop & Hpb1 & Hpa1 & Hhb & Hha & Hzb & Hza & Hcb & Hca);
    [done|done|lia|destruct Hfa as (_ & -> & _); lia|].
  destruct (Leaf_MoveFirstToEndOf_Forall _ _ _ _ _ Hop (proj2 (proj2 Hfb)) (proj2 (proj2 Hfa))) as [Hf2 Hf1].
  pose proof (leaf_fits_change pa pa' Hfa Hha Hpa1 Hf1) as Hfa'. pose proof (leaf_fits_change pb pb' Hfb Hhb Hpb1 Hf2) as Hfb'.
  apply wp_bind. eapply (edit_leaves_rule _ _ b fb a fa); [exact Ht|done|done|exact Hpb|done|exact Hpa|exact Hop|done|done| | |].
  { destruct Hhb as (-> & _). done. }
  { destruct Hha as (-> & _). done. }
  intros t1 Ht1. unfold t_write in Ht1. cbn in Ht1. rewrite insert_insert_ne in Ht1 by done.
  apply wp_bind. eapply (leaf_at_rule _ _ b fb pb'); [exact Ht1|done|apply lookup_insert_eq|].
  destruct (leaf_nonempty pb') as (d & ds & Hd); [done|lia|].
  assert (can_separate (pa := pa) (pb := pb) d.1) as Hsep.
  { exists pb, c.1. split; [by right|].
    destruct (inv_ok _ _ _ _ _ _ Hinv _ _ Hpb) as [_ [_ Hs]]. rewrite Hcb in Hs. apply StronglySorted_inv in Hs as [_ Hs]. rewrite Forall_forall in Hs.
    split_and!; [apply Hs; rewrite Hd; by left| |]; apply cell_key; rewrite Hcb, ?Hd; set_solver. }
  replace (length cs1 + 1) with (Z.of_nat (S (length cs1))) by lia.
  eapply write_separator; [exact Ht1|done|exact Hd|done|]. intros q' t2 dirty2 Hq' Hhq Hzq Ht2.
  eapply close_rule; [exact Ht2|]. intros t3 dirty3 Ht3. destruct (first_key pb' d ds) as [Hkey _]; [done|done|].
  eapply (lent_rep t3 dirty3 pa' pb' q' d.1); try done; [by rewrite Hca, Hcb, <-app_assoc|lia|lia].
Qed.

(** The nodes after a merge: the right leaf is gone, and the root has one cell less. *)
Definition merged (nodes' : gmap Z node) (q' : TreePage Z) : Prop :=
  tree_inv None nodes' root h depth m ∧ nodes' !! root = Some (NInternal q') ∧ parent_page_id_ q' = INVALID_PAGE_ID ∧
  size_ q' = size_ q - 1 ∧ all_sized nodes' ∧ ∀ i nd, i ≠ root → nodes' !! i = Some nd → node_wide nd.

Lemma merged_nodes pa' pb' q' :
  has_cells q' v0 (cs1 ++ cs2) → same_header q q' → size_ q' = size_ q - 1 → page_ok pa' → same_header pa pa' →
  cells pa' = cells pa ++ cells pb → 1 ≤ size_ pa' ≤ leaf_max →
  merged (delete b (<[root := NInternal q']> (<[a := NLeaf (SetNextPageId (next_page_id_ pb) pa')]> (<[b := NLeaf pb']> nodes)))) q'.
Proof.
  intros Hq' (_ & Hmx & Hpar & _) Hsize Hoka (_ & Hma & Hppa & _) Hcells Hsa.
  destruct coalesce_differ as (Hab & Har & Hbr). destruct coalesce_pages as (_ & _ & _ & Hwq & Hpq).
  set (pa2 := SetNextPageId (next_page_id_ pb) pa').
  set (nodes' := delete b (<[root := NInternal q']> (<[a := NLeaf pa2]> (<[b := NLeaf pb']> nodes)))).
  assert (nodes' !! root = Some (NInternal q')) as Hr by (unfold nodes'; by rewrite lookup_delete_ne, lookup_insert_eq).
  assert (nodes' !! a = Some (NLeaf pa2)) as Ha by (unfold nodes'; by rewrite lookup_delete_ne, lookup_insert_ne, lookup_insert_eq).
  assert (nodes' !! b = None) as Hb by (unfold nodes'; apply lookup_delete_eq).
  assert (∀ i, i ≠ root → i ≠ a → i ≠ b → nodes' !! i = nodes !! i) as Ho.
  { intros i ???. unfold nodes'. by rewrite lookup_delete_ne, !lookup_insert_ne. }
  split; [by eapply (inv_merge Hinv Hroot Hq Hpa Hpb _ q' pa2)|]. split; [done|]. split; [congruence|]. split; [done|]. split.
  - intros i nd Hi. destruct (decide (i = root)) as [->|Hir].
    { rewrite Hr in Hi. injection Hi as <-. destruct (Hsized root _ (not_eq_sym Har) (not_eq_sym Hbr) Hroot). cbn. split; [congruence|lia]. }
    destruct (decide (i = a)) as [->|Hia]; [rewrite Ha in Hi; injection Hi as <-; cbn; split; [congruence|lia]|].
    destruct (decide (i = b)) as [->|Hib]; [congruence|]. rewrite Ho in Hi by done. by apply (Hsized i).
  - intros i nd Hir Hi. destruct (decide (i = a)) as [->|Hia]; [rewrite Ha in Hi; by injection Hi as <-|].
    destruct (decide (i = b)) as [->|Hib]; [congruence|]. rewrite Ho in Hi by done. by apply (Hwide i).
Qed.

(** The cell of the right leaf is removed from the root, and its page deleted. *)
Lemma drop_right_leaf t dirty pa' pb' (Q : unit → BPlusTree St → Prop) :
  holds t (mkT root next (<[a := NLeaf (SetNextPageId (next_page_id_ pb) pa')]> (<[b := NLeaf pb']> nodes)) open dirty) →
  page_ok pa' → same_header pa pa' → cells pa' = cells pa ++ cells pb → 1 ≤ size_ pa' ≤ leaf_max →
  (∀ q' nodes' t' dirty', merged nodes' q' → holds t' (mkT root next nodes' {[root := pf]} dirty') → Q tt t') →
  wp (edit_internal pf (void_op (Internal_Remove (S (length cs1))));; UnpinPage b true;; UnpinPage a true;; DeletePage b;; mret tt) t Q ∧
  wp (edit_internal pf (void_op (Internal_Remove (S (length cs1))));; UnpinPage a true;; UnpinPage b true;; DeletePage b;; mret tt) t Q.
Proof.
  intros Ht Hoka Hha Hcells Hsa HQ. destruct coalesce_differ as (Hab & Har & Hbr).
  destruct (Internal_Remove_spec q v0 cs1 mid b cs2 Hq) as (q' & Hop & Hq' & Hhq & Hsize).
  assert (<[a := NLeaf (SetNextPageId (next_page_id_ pb) pa')]> (<[b := NLeaf pb']> nodes) !! root = Some (NInternal q)) as Hroot2 by (by rewrite !lookup_insert_ne).
  destruct (node_fits _ _ _ _ Ht Hroot2) as (_ & Hfit & Htype). destruct (has_cells_ok _ _ _ Hq') as [[Hpok _] _].
  assert (internal_fits q') as Hfit'.
  { eapply internal_fits_change; [exact Hfit|done|done|]. destruct Hfit as (_ & _ & _ & Hf). by eapply Internal_Remove_fits. }
  assert (page_type_ q' = INTERNAL_PAGE) as Htype' by (by destruct Hhq as (-> & _)).
  pose proof (merged_nodes pa' pb' q' Hq' Hhq Hsize Hoka Hha Hcells Hsa) as Hmerged.
  split; (apply wp_bind; eapply (edit_internal_rule _ _ root pf q q'); [exact Ht|exact Hor|exact Hroot2|by unfold void_op; rewrite Hop|done|done|]);
    intros t1 Ht1; unfold t_write in Ht1; cbn in Ht1;
    (apply wp_bind; eapply unpin_rule; [exact Ht1|done|by left|]); intros t2 Ht2; unfold t_unpin in Ht2; cbn in Ht2;
    (apply wp_bind; eapply unpin_rule; [exact Ht2|cbn; by rewrite lookup_delete_ne|by left|]); intros t3 Ht3; unfold t_unpin in Ht3; cbn in Ht3;
    [|rewrite (delete_delete _ b a) in Ht3]; rewrite Hrest in Ht3;
    (apply wp_bind; eapply (delete_rule _ _ b); [exact Ht3|cbn; rewrite !lookup_insert_ne, lookup_insert_eq by done; by eexists|cbn; by rewrite lookup_singleton_ne|]);
    intros t4 Ht4; unfold t_delete in Ht4; cbn in Ht4; apply wp_ret; by eapply HQ.
Qed.

Lemma merge_pages t dirty :
  holds t (mkT root next nodes open dirty) → 1 ≤ size_ pa + size_ pb ≤ leaf_max →
  ∃ pa' pb', Leaf_MoveAllTo pb pa = Ret (pb', pa') ∧ leaf_fits pa' ∧ leaf_fits pb' ∧ page_type_ pa' = LEAF_PAGE ∧ page_type_ pb' = LEAF_PAGE ∧
    page_ok pa' ∧ same_header pa pa' ∧ next_page_id_ pb' = next_page_id_ pb ∧ cells pa' = cells pa ++ cells pb ∧ 1 ≤ size_ pa' ≤ leaf_max.
Proof.
  intros Ht Hs. destruct coalesce_pages as (Hoka & Hokb & _).
  destruct (leaf_pair_fits _ _ _ _ Ht Hpa) as [Hfa Hta]. destruct (leaf_pair_fits _ _ _ _ Ht Hpb) as [Hfb Htb].
  destruct (Leaf_MoveAllTo_spec pb pa) as (pb' & pa' & Hop & Hpb1 & Hpa1 & Hhb & Hha & Hza & _ & Hca); [done|done|destruct Hfa as (_ & -> & _); lia|].
  destruct (Leaf_MoveAllTo_Forall _ _ _ _ _ Hop (proj2 (proj2 Hfb)) (proj2 (proj2 Hfa))) as [Hf2 Hf1].
  exists pa', pb'. split; [done|]. split; [by apply (leaf_fits_change pa)|]. split; [by apply (leaf_fits_change pb)|].
  pose proof Hha as (Hty1 & _). destruct Hhb as (Hty2 & _ & _ & Hn & _). split_and!; try done; try congruence; lia.
Qed.

Lemma next_fits t dirty : holds t (mkT root next nodes open dirty) → in_int32 (next_page_id_ pb) = true.
Proof. intros Ht. destruct (leaf_pair_fits _ _ _ _ Ht Hpb) as [((_ & _ & _ & ?) & _) _]. done. Qed.

(** Both merges move the cells of the right leaf to the left one. *)
Lemma merge_left_rule t dirty (Q : unit → BPlusTree St → Prop) :
  holds t (mkT root next nodes open dirty) → 1 ≤ size_ pa + size_ pb ≤ leaf_max →
  (∀ q' nodes' t' dirty', merged nodes' q' → holds t' (mkT root next nodes' {[root := pf]} dirty') → Q tt t') →
  wp (merge_leaf fb b fa a pf (S (length cs1)) true) t Q.
Proof.
  intros Ht Hs HQ. destruct coalesce_differ as (Hab & Har & Hbr). pose proof (next_fits _ _ Ht) as Hnf.
  destruct (merge_pages _ _ Ht Hs) as (pa' & pb' & Hop & Hfa & Hfb & Hta & Htb & Hoka & Hha & Hn & Hcells & Hsize). unfold merge_leaf.
  apply wp_bind. eapply (edit_leaves_rule _ _ b fb a fa); [exact Ht|done|done|exact Hpb|done|exact Hpa|exact Hop|done|done|done|done|].
  intros t1 Ht1. unfold t_write in Ht1. cbn in Ht1.
  apply wp_bind. eapply (leaf_at_rule _ _ b fb pb'); [exact Ht1|done|cbn; rewrite lookup_insert_ne by done; apply lookup_insert_eq|]. rewrite Hn.
  apply wp_bind. eapply (edit_leaf_rule _ _ a fa pa'); [exact Ht1|done|apply lookup_insert_eq|done|by apply leaf_fits_next|done|].
  intros t2 Ht2. unfold t_write in Ht2. cbn in Ht2. rewrite insert_insert_eq in Ht2. by eapply drop_right_leaf.
Qed.

Lemma merge_right_rule t dirty (Q : unit → BPlusTree St → Prop) :
  holds t (mkT root next nodes open dirty) → 1 ≤ size_ pa + size_ pb ≤ leaf_max →
  (∀ q' nodes' t' dirty', merged nodes' q' → holds t' (mkT root next nodes' {[root := pf]} dirty') → Q tt t') →
  wp (merge_leaf fa a fb b pf (length cs1) false) t Q.
Proof.
  intros Ht Hs HQ. destruct coalesce_differ as (Hab & Har & Hbr). pose proof (next_fits _ _ Ht) as Hnf.
  destruct (merge_pages _ _ Ht Hs) as (pa' & pb' & Hop & Hfa & Hfb & Hta & Htb & Hoka & Hha & Hn & Hcells & Hsize). unfold merge_leaf.
  apply wp_bind. eapply (edit_leaves_rule _ _ b fb a fa); [exact Ht|done|done|exact Hpb|done|exact Hpa|exact Hop|done|done|done|done|].
  intros t1 Ht1. unfold t_write in Ht1. cbn in Ht1.
  apply wp_bind. eapply (leaf_at_rule _ _ b fb pb'); [exact Ht1|done|cbn; rewrite lookup_insert_ne by done; apply lookup_insert_eq|]. rewrite Hn.
  apply wp_bind. eapply (edit_leaf_rule _ _ a fa pa'); [exact Ht1|done|apply lookup_insert_eq|done|by apply leaf_fits_next|done|].
  intros t2 Ht2. unfold t_write in Ht2. cbn in Ht2. rewrite insert_insert_eq in Ht2.
  replace (length cs1 + 1) with (Z.of_nat (S (length cs1))) by lia. by eapply drop_right_leaf.
Qed.

(** A root with one child is replaced by the child. *)
Lemma shrink_rule K t dirty nodes' q' :
  h = 1%nat → 2 ≤ size_ q → merged nodes' q' → holds t (mkT root next nodes' {[root := pf]} dirty) →
  wp (shrink_parent K pf root) t (fun _ t' => ∃ h', tree_rep t' m h' next ∧ (h' ≤ 1)%nat).
Proof.
  intros Hh Hwq (Hinv' & Hroot' & Hpar & Hsize & Hsized' & Hwide') Ht.
  unfold shrink_parent. apply wp_bind. eapply (internal_at_rule _ _ root pf q'); [exact Ht|apply lookup_singleton_eq|exact Hroot'|].
  unfold IsRootPage. rewrite (bool_decide_true (parent_page_id_ q' = _)), andb_false_r by done. cbn [andb].
  case_bool_decide as Hone.
  - destruct (inv_ok _ _ _ _ _ _ Hinv' _ _ Hroot') as [_ [Hokq _]]. destruct (node_fits _ _ _ _ Ht Hroot') as (Hge & Hfit & Htype).
    destruct (has_cells_intro q' Hokq) as (c & cs & Hc & Hlen). destruct cs; [|cbn in Hlen; lia]. destruct Hc as (Hpok & _ & k0 & Hcs).
    destruct (inv_children _ _ _ _ _ _ Hinv' root _ c Hroot') as (cd & Hcd & Hcp & Hcdep); [cbn; rewrite Hcs; by left|].
    destruct (inv_root _ _ _ _ _ _ Hinv') as (_ & _ & _ & Hr0). pose proof (inv_depth _ _ _ _ _ _ Hinv' _ _ Hcd) as Hlev.
    destruct cd as [pc|pc|]; [|lia|lia]. assert (c ≠ root) as Hcr by congruence.
    assert (ValueAt 0 q' = Ret c) as Hval by (apply (ValueAt_cells 0); [done|by rewrite Hcs]).
    apply wp_bind. eapply (edit_internal_rule _ _ root pf q' (SetSize 0 q')); [exact Ht|apply lookup_singleton_eq|exact Hroot'| | |done|].
    { unfold RemoveAndReturnOnlyChild. by rewrite Hval. }
    { eapply internal_fits_change; [exact Hfit|done| |apply Hfit]. unfold page_ok. cbn. lia. }
    intros t1 Ht1. unfold t_write in Ht1. cbn in Ht1.
    apply wp_bind. eapply set_root_rule; [exact Ht1|]. intros t2 Ht2. unfold t_set_root in Ht2. cbn in Ht2.
    assert (<[root := NInternal (SetSize 0 q')]> nodes' !! c = Some (NLeaf pc)) as Hc2 by (by rewrite lookup_insert_ne).
    apply wp_bind. eapply fetch_rule; [exact Ht2|by eexists|cbn; by rewrite lookup_singleton_ne|unfold room; cbn; rewrite map_size_singleton; lia|].
    intros r t3 Ht3. unfold t_fetch in Ht3. cbn in Ht3.
    apply wp_bind, wp_bind. eapply edit_parent_rule; [exact Ht3|apply lookup_insert_eq|exact Hc2|done|done|].
    intros t4 Ht4. unfold t_write in Ht4. cbn in Ht4.
    apply wp_bind. eapply unpin_rule; [exact Ht4|apply lookup_insert_eq|by left|]. intros t5 Ht5. unfold t_unpin in Ht5. cbn in Ht5.
    rewrite delete_insert_id in Ht5 by (by rewrite lookup_singleton_ne).
    apply wp_ret, wp_bind. eapply unpin_rule; [exact Ht5|apply lookup_singleton_eq|by left|]. intros t6 Ht6. unfold t_unpin in Ht6. cbn in Ht6.
    rewrite delete_singleton_eq in Ht6.
    apply wp_bind. eapply (delete_rule _ _ root); [exact Ht6|cbn; rewrite lookup_insert_ne, lookup_insert_eq by done; by eexists|done|].
    intros t7 Ht7. unfold t_delete in Ht7. cbn in Ht7. apply wp_ret. exists 0%nat. split; [|lia].
    set (nodes2 := delete root (<[c := NLeaf (SetParentPageId INVALID_PAGE_ID pc)]> (<[root := NInternal (SetSize 0 q')]> nodes'))) in *.
    assert (nodes2 !! c = Some (NLeaf (SetParentPageId INVALID_PAGE_ID pc))) as Hcn by (unfold nodes2; by rewrite lookup_delete_ne, lookup_insert_eq).
    assert (nodes2 !! root = None) as Hrn by apply lookup_delete_eq.
    assert (∀ i, i ≠ root → i ≠ c → nodes2 !! i = nodes' !! i) as Hon by (intros i ??; unfold nodes2; by rewrite lookup_delete_ne, !lookup_insert_ne).
    right. eexists c, _, _, _. split; [exact Ht7|]. split; [|split].
    + rewrite Hh in Hinv'. eapply (inv_collapse Hinv' Hroot' Hcs Hcd); [|done|done|done].
      intros i p Hi Hp Hpp. pose proof (Hwide' i _ Hi Hp Hpp) as Hw. cbn in Hw.
      destruct (inv_ok _ _ _ _ _ _ Hinv' _ _ Hp) as [_ [Hip _]]. destruct (has_cells_intro p Hip) as (w & ws & Hws & Hwl).
      destruct ws as [|[k w'] ws]; [cbn in Hwl; lia|]. apply Hi. eapply (orphan_is_root nodes' root _ _ _ k); [exact Hinv'| |exact Hp|exact Hpp].
      apply (inv_keys _ _ _ _ _ _ Hinv' i (NInternal p)); [exact Hp|]. cbn. rewrite (has_cells_separators _ _ _ Hws). by left.
    + intros i nd Hi. destruct (decide (i = root)) as [->|Hir]; [congruence|]. destruct (decide (i = c)) as [->|Hic].
      * rewrite Hcn in Hi. injection Hi as <-. apply (Hsized' c (NLeaf pc) Hcd).
      * rewrite Hon in Hi by done. by apply (Hsized' i).
    + intros i nd Hi. destruct (decide (i = root)) as [->|Hir]; [congruence|]. destruct (decide (i = c)) as [->|Hic].
      * rewrite Hcn in Hi. by injection Hi as <-.
      * rewrite Hon in Hi by done. by apply (Hwide' i).
  - apply wp_bind. eapply unpin_rule; [exact Ht|apply lookup_singleton_eq|by left|]. intros t1 Ht1. unfold t_unpin in Ht1. cbn in Ht1.
    rewrite delete_singleton_eq in Ht1. apply wp_ret. exists h. split; [|lia]. right. exists root, nodes', dirty, depth. split_and!; [done|done|done|].
    intros i nd Hi. destruct (decide (i = root)) as [->|Hir]; [|by apply (Hwide' i)]. rewrite Hroot' in Hi. injection Hi as <-. cbn. lia.
Qed.
End coalesce.

Lemma min_leaf_size (p : TreePage RID) : page_type_ p = LEAF_PAGE → max_size_ p = leaf_max → GetMinSize p = leaf_max / 2 ∧ 1 ≤ leaf_max / 2 ∧ 2 * (leaf_max / 2) ≤ leaf_max.
Proof.
  intros Ht Hm. unfold GetMinSize, IsLeafPage. rewrite Ht, Hm, bool_decide_true by done. rewrite Z.quot_div_nonneg by lia.
  split_and!; [done|apply Z.div_le_lower_bound; lia|by apply Z.mul_div_le].
Qed.

(** What the three pages of a leaf, its parent and its sibling leave pinned. *)
Lemma close_pair (i j k f g e : Z) : i ≠ j → i ≠ k → j ≠ k →
  delete i (delete j (<[i := g]> (<[k := e]> {[j := f]}))) = ({[k := e]} : gmap Z Z).
Proof.
  intros. rewrite delete_insert_ne, delete_insert_eq, (delete_insert_ne _ j k), delete_singleton_eq by done.
  rewrite insert_empty. by apply delete_singleton_ne.
Qed.

(** The position of a child and its sibling. *)
Lemma sibling_cases (q : TreePage Z) leaf :
  internal_ok q → NoDup (cells q).*2 → 2 ≤ size_ q → leaf ∈ (cells q).*2 →
  ∃ (index : nat) v0 cs1 mid b cs2, ValueIndex leaf q = Ret (Z.of_nat index) ∧ has_cells q v0 (cs1 ++ (mid, b) :: cs2) ∧
    ((leaf = b ∧ index = S (length cs1) ∧ choose_sibling index q = Ret (left_of v0 cs1, true)) ∨
     (leaf = left_of v0 cs1 ∧ index = length cs1 ∧ choose_sibling index q = Ret (b, false))).
Proof.
  intros Hok Hnd Hsize Hin. pose proof Hok as [Hpok _]. apply list_elem_of_fmap in Hin as ([k leaf'] & -> & Hin). cbn [snd].
  apply list_elem_of_split in Hin as (l1 & l2 & Hcs).
  assert (ValueIndex leaf' q = Ret (Z.of_nat (length l1))) as Hidx.
  { eapply ValueIndex_spec; [done|exact Hcs|]. rewrite Hcs, fmap_app in Hnd. apply NoDup_app in Hnd as (_ & Hd & _). intros Hl. apply (Hd _ Hl). by left. }
  assert (ValueAt (length l1) q = Ret leaf') as Hval.
  { apply (ValueAt_cells (length l1)); [done|]. rewrite Hcs, fmap_app. cbn. rewrite <-(length_fmap snd l1). by apply list_lookup_middle. }
  assert (length l1 < size_ q) as Hlt.
  { apply (f_equal length) in Hcs. rewrite length_cells, length_app in Hcs by done. cbn in Hcs. lia. }
  destruct (decide (length l1 = 0%nat)) as [Hz|Hz].
  - destruct (neighbours q 1) as (v0 & cs1 & mid & b & cs2 & Hq & Hj & Ha & Hb); [done|lia|lia|].
    exists (length l1), v0, cs1, mid, b, cs2. split; [done|]. split; [done|]. right.
    rewrite Hz in Hval |- *. change (1%nat - 1) with (Z.of_nat 0) in Ha. rewrite Ha in Hval. injection Hval as ->. split; [done|]. split; [lia|].
    unfold choose_sibling. rewrite bool_decide_false, bool_decide_true by lia. change (0%nat + 1) with (Z.of_nat 1). by rewrite Hb.
  - destruct (neighbours q (length l1)) as (v0 & cs1 & mid & b & cs2 & Hq & Hj & Ha & Hb); [done|lia|lia|].
    exists (length l1), v0, cs1, mid, b, cs2. split; [done|]. split; [done|]. left. rewrite Hb in Hval. injection Hval as ->. split; [done|]. split; [done|].
    unfold choose_sibling. rewrite bool_decide_true by lia. by rewrite Ha.
Qed.

Lemma CoalesceOrRedistribute_rule fuel m nodes root next depth q key leaf pl f t dirty :
  tree_inv None nodes root 1 depth m → nodes !! root = Some (NInternal q) → nodes !! leaf = Some (NLeaf pl) →
  walk None nodes root key 1 = Some leaf →
  max_size_ pl = leaf_max → size_ pl < leaf_max / 2 → (∀ i nd, i ≠ leaf → nodes !! i = Some nd → node_sized nd) → all_wide nodes →
  (∀ v0 cs1 mid b cs2 pa, has_cells q v0 (cs1 ++ (mid, b) :: cs2) → nodes !! left_of v0 cs1 = Some (NLeaf pa) → next_page_id_ pa = b) →
  holds t (mkT root next nodes {[leaf := f]} dirty) →
  wp (CoalesceOrRedistribute fuel f leaf) t (fun _ t' => ∃ h', tree_rep t' m h' next ∧ (h' ≤ 1)%nat).
Proof.
  intros Hinv Hroot Hleaf Hw Hmax Hunder Hsized Hwide Hlinks Ht. unfold CoalesceOrRedistribute.
  apply wp_bind. eapply (leaf_at_rule _ _ leaf f pl); [exact Ht|apply lookup_singleton_eq|exact Hleaf|]. cbn zeta.
  destruct (inv_root _ _ _ _ _ _ Hinv) as (rd & Hrd & Hrp & Hr0). rewrite Hroot in Hrd. injection Hrd as <-.
  assert (leaf ≠ root) as Hlr by congruence.
  destruct (walk_step_inv Hinv key 0 leaf Hw) as (pid & pd & c & cd & Hw0 & Hpd & _ & Hc & Hcd & Hcp & -> & _). cbn in Hw0, Hcd. injection Hw0 as <-.
  rewrite Hroot in Hpd. injection Hpd as <-. cbn [redirect] in *. rewrite Hleaf in Hcd. injection Hcd as <-. cbn in Hcp, Hc. rewrite Hcp.
  destruct (inv_ok _ _ _ _ _ _ Hinv _ _ Hroot) as [_ [Hokq Hnd]]. destruct (inv_ok _ _ _ _ _ _ Hinv _ _ Hleaf) as [Hge [Hokl _]].
  pose proof (Hwide root _ Hroot Hrp) as Hwq. cbn in Hwq. unfold page_ok in Hokl.
  apply wp_bind. eapply fetch_rule; [exact Ht|by eexists|cbn; by rewrite lookup_singleton_ne|unfold BPlusTreeSpec.room; cbn; rewrite map_size_singleton; lia|].
  intros pf t1 Ht1. unfold t_fetch in Ht1. cbn in Ht1.
  apply wp_bind. eapply (internal_at_rule _ _ root pf q); [exact Ht1|apply lookup_insert_eq|exact Hroot|].
  destruct (sibling_cases q c Hokq Hnd Hwq Hc) as (index & v0 & cs1 & mid & b & cs2 & Hidx & Hq & Hcase).
  rewrite Hidx. apply wp_bind, wp_lift.
  set (sib := if decide (c = b) then left_of v0 cs1 else b).
  assert (b ∈ (cells q).*2 ∧ left_of v0 cs1 ∈ (cells q).*2) as [Hbin Hain].
  { destruct Hq as (_ & _ & k0 & ->). cbn. split; [rewrite fmap_app; cbn; set_solver|apply left_of_child]. }
  assert (∀ i, i ∈ (cells q).*2 → ∃ p, nodes !! i = Some (NLeaf p) ∧ i ≠ root ∧ 0 ≤ i) as Hchild.
  { intros i Hi. destruct (inv_children _ _ _ _ _ _ Hinv _ _ i Hroot Hi) as (cd & Hcd & _ & Hd).
    pose proof (inv_depth _ _ _ _ _ _ Hinv _ _ Hcd) as Hl. destruct (inv_ok _ _ _ _ _ _ Hinv _ _ Hcd) as [Hgi _].
    destruct cd as [p|p|]; [exists p|lia|lia]. split_and!; [done| |done]. intros ->. congruence. }
  destruct (Hchild _ Hain) as (pa & Hpa & Har & Hage). destruct (Hchild _ Hbin) as (pb & Hpb & Hbr & Hbge).
  pose proof (neighbours_differ Hinv Hroot Hq) as Hab.
  assert (next_page_id_ pa = b) as Hnext by (by eapply Hlinks).
  assert (∀ i p, i ≠ c → nodes !! i = Some (NLeaf p) → max_size_ p = leaf_max ∧ 1 ≤ size_ p ≤ leaf_max ∧ GetMinSize p = leaf_max / 2) as Hsib.
  { intros i p Hic Hp. destruct (Hsized i _ Hic Hp) as [Hm Hz]. destruct (node_fits _ _ _ _ Ht1 Hp) as (_ & _ & Htp).
    destruct (min_leaf_size p Htp Hm) as (? & _). done. }
  destruct (node_fits _ _ _ _ Ht1 Hleaf) as (_ & _ & Htl). destruct (min_leaf_size pl Htl Hmax) as (_ & Hmin1 & Hmin2).
  assert (∀ i j, (∀ i nd, i ≠ c → nodes !! i = Some nd → node_sized nd) → c = i ∨ c = j →
    ∀ k nd, k ≠ i → k ≠ j → nodes !! k = Some nd → node_sized nd) as Hrest.
  { intros i j Hs Hij k nd Hki Hkj. apply Hs. destruct Hij as [-> | ->]; done. }
  destruct Hcase as [(-> & -> & Hch)|(-> & -> & Hch)]; rewrite Hch; apply wp_bind, wp_lift;
    (rewrite bool_decide_false by (unfold INVALID_PAGE_ID; lia)).
  - assert (pl = pb) as -> by congruence. destruct (Hsib _ pa Hab Hpa) as (Hma & Hza & Hga).
    apply wp_bind. eapply (fetch_rule _ _ (left_of v0 cs1)); [exact Ht1|by eexists|cbn; by rewrite lookup_insert_ne, lookup_singleton_ne| |].
    { unfold BPlusTreeSpec.room. cbn. rewrite map_size_insert_None, map_size_singleton by (by rewrite lookup_singleton_ne). lia. }
    intros sf t2 Ht2. unfold t_fetch in Ht2. cbn in Ht2.
    apply wp_bind. eapply (leaf_at_rule _ _ (left_of v0 cs1) sf pa); [exact Ht2|apply lookup_insert_eq|exact Hpa|]. rewrite Hga.
    assert (<[left_of v0 cs1:=sf]> (<[root:=pf]> {[b:=f]}) !! b = Some f) as Hob by (by rewrite !lookup_insert_ne, lookup_singleton_eq).
    assert (<[left_of v0 cs1:=sf]> (<[root:=pf]> {[b:=f]}) !! root = Some pf) as Hor by (by rewrite lookup_insert_ne, lookup_insert_eq).
    assert (delete (left_of v0 cs1) (delete b (<[left_of v0 cs1:=sf]> (<[root:=pf]> {[b:=f]}))) = {[root := pf]}) as Hcl by (by apply close_pair).
    case_bool_decide as Hlend.
    + eapply wp_mono; [eapply (redistribute_left_rule m 1 nodes root next depth q v0 cs1 mid b cs2 pa pb); try done; try lia|].
      * apply (Hrest _ b); [done|by right].
      * apply lookup_insert_eq.
      * intros [] t' Hrep. exists 1%nat. by split.
    + apply wp_bind. eapply (merge_left_rule m 1 nodes root next depth q v0 cs1 mid b cs2 pa pb); try done; try lia.
      * apply (Hrest _ b); [done|by right].
      * apply lookup_insert_eq.
      * intros q' nodes' t' dirty' Hmerged Ht'. by eapply shrink_rule.
  - assert (pl = pa) as -> by congruence. destruct (Hsib _ pb (not_eq_sym Hab) Hpb) as (Hmb & Hzb & Hgb).
    apply wp_bind. eapply (fetch_rule _ _ b); [exact Ht1|by eexists|cbn; by rewrite lookup_insert_ne, lookup_singleton_ne| |].
    { unfold BPlusTreeSpec.room. cbn. rewrite map_size_insert_None, map_size_singleton by (by rewrite lookup_singleton_ne). lia. }
    intros sf t2 Ht2. unfold t_fetch in Ht2. cbn in Ht2.
    apply wp_bind. eapply (leaf_at_rule _ _ b sf pb); [exact Ht2|apply lookup_insert_eq|exact Hpb|]. rewrite Hgb.
    set (a := left_of v0 cs1) in *.
    assert (<[b:=sf]> (<[root:=pf]> {[a:=f]}) !! a = Some f) as Hoa by (by rewrite !lookup_insert_ne, lookup_singleton_eq).
    assert (<[b:=sf]> (<[root:=pf]> {[a:=f]}) !! root = Some pf) as Hor by (by rewrite lookup_insert_ne, lookup_insert_eq).
    assert (delete a (delete b (<[b:=sf]> (<[root:=pf]> {[a:=f]}))) = {[root := pf]}) as Hcl by (rewrite delete_delete; by apply close_pair).
    case_bool_decide as Hlend.
    + eapply wp_mono; [eapply (redistribute_right_rule m 1 nodes root next depth q v0 cs1 mid b cs2 pa pb); try done; try lia|].
      * apply (Hrest a _); [done|by left].
      * apply lookup_insert_eq.
      * intros [] t' Hrep. exists 1%nat. by split.
    + apply wp_bind. eapply (merge_right_rule m 1 nodes root next depth q v0 cs1 mid b cs2 pa pb); try done; try lia.
      * apply (Hrest a _); [done|by left].
      * apply lookup_insert_eq.
      * intros q' nodes' t' dirty' Hmerged Ht'. by eapply shrink_rule.
Qed.

Lemma FindLeafPage_rule fuel key h depth m nodes root next t dirty (Q : Z → BPlusTree St → Prop) :
  tree_inv None nodes root h depth m → holds t (mkT root next nodes ∅ dirty) → (h < fuel)%nat →
  (∀ leaf p t' dirty', walk None nodes root key h = Some leaf → nodes !! leaf = Some (NLeaf p) →
    holds t' (mkT root next nodes ∅ dirty') → Q leaf t') → wp (FindLeafPage fuel key) t Q.
Proof.
  intros Hinv Ht Hfuel HQ. unfold FindLeafPage. apply wp_bind. eapply not_empty; [done|exact Ht|].
  apply wp_bind. eapply (descend_root_rule Hpages cap others leaf_max internal_max Hleaf_max Hinternal_max key); [done|done|exact Ht|done|lia|].
  intros leaf f t1 dirty1 p Hw Hp _ Ht1 Hd. apply wp_bind. eapply unpin_rule; [exact Ht1|apply lookup_singleton_eq|by right|].
  intros t2 Ht2. unfold t_unpin in Ht2. cbn in Ht2. rewrite delete_singleton_eq in Ht2. apply wp_ret. by eapply HQ.
Qed.

(** Leaves before a removal are linked in the order of the root. *)
Lemma root_links nodes root h depth m q :
  tree_inv None nodes root h depth m → all_sized nodes → nodes !! root = Some (NInternal q) → h = 1%nat →
  ∀ v0 cs1 mid b cs2 pa, has_cells q v0 (cs1 ++ (mid, b) :: cs2) → nodes !! left_of v0 cs1 = Some (NLeaf pa) → next_page_id_ pa = b.
Proof.
  intros Hinv Hsized Hroot Hh v0 cs1 mid b cs2 pa Hq Hpa.
  assert (b ∈ (cells q).*2) as Hbin by (destruct Hq as (_ & _ & k0 & ->); cbn; rewrite fmap_app; cbn; set_solver).
  destruct (inv_children _ _ _ _ _ _ Hinv _ _ b Hroot Hbin) as (cd & Hcd & _ & Hd).
  destruct (inv_root _ _ _ _ _ _ Hinv) as (_ & _ & _ & Hr0). pose proof (inv_depth _ _ _ _ _ _ Hinv _ _ Hcd) as Hl.
  destruct cd as [pb|pb|]; [|lia|lia]. eapply (neighbours_linked Hinv Hroot Hq Hpa Hcd).
  intros i p Hp. destruct (inv_ok _ _ _ _ _ _ Hinv _ _ Hp) as [_ [Hok _]]. destruct (Hsized _ _ Hp) as [_ [? _]]. by apply leaf_has_key.
Qed.

Lemma Remove_rep fuel key t m h next :
  tree_rep t m h next → (h ≤ 1)%nat → (h < fuel)%nat →
  wp (Remove fuel key) t (fun _ t' => ∃ h', tree_rep t' (delete key m) h' next ∧ (h' ≤ h)%nat).
Proof.
  intros [(dirty & Ht & -> & ->)|(root & nodes & dirty & depth & Ht & Hinv & Hsized & Hwide)] Hh Hfuel; unfold Remove.
  { apply wp_bind, wp_gets. pose proof Ht as (_ & -> & _). cbn. exists 0%nat. split; [|done]. left. exists dirty. split; [done|]. by rewrite delete_empty. }
  apply wp_bind. eapply not_empty; [done|exact Ht|].
  apply wp_bind. eapply FindLeafPage_rule; [done|exact Ht|done|]. intros leaf p t1 dirty1 Hw Hp Ht1.
  destruct (inv_ok _ _ _ _ _ _ Hinv _ _ Hp) as [Hge Hok]. rewrite bool_decide_false by (unfold INVALID_PAGE_ID; lia).
  apply wp_bind. eapply fetch_rule; [exact Ht1|by eexists|done|unfold BPlusTreeSpec.room; cbn; rewrite map_size_empty; lia|].
  intros f t2 Ht2. unfold t_fetch in Ht2. cbn in Ht2. rewrite insert_empty in Ht2.
  destruct (node_fits _ _ _ _ Ht2 Hp) as (_ & Hfit & Htype). destruct (Hsized _ _ Hp) as [Hmax Hsize].
  destruct (Leaf_Remove_spec key p Hok) as (p' & Hop & Hok' & Hhead & Hs' & Hmap).
  pose proof (Leaf_Remove_Forall _ _ _ _ _ Hop (proj2 (proj2 Hfit))) as Hf.
  pose proof (leaf_fits_change p p' Hfit Hhead (proj1 Hok') Hf) as Hfit'. destruct Hhead as (Hty & Hmx & Hpp & Hnx & _).
  apply wp_bind. eapply (edit_leaf_rule _ _ leaf f p p'); [exact Ht2|apply lookup_singleton_eq|exact Hp|exact Hop|done|congruence|].
  intros t3 Ht3. unfold t_write in Ht3. cbn in Ht3.
  pose proof (inv_leaf_delete _ _ _ _ _ leaf p p' key Hinv Hp Hw Hok' Hpp Hnx Hmap) as Hinv'.
  apply wp_bind. eapply (leaf_at_rule _ _ leaf f p'); [exact Ht3|apply lookup_singleton_eq|apply lookup_insert_eq|].
  destruct (min_leaf_size p') as (-> & Hmin1 & Hmin2); [congruence|congruence|].
  assert (size_ p' ≤ leaf_max) by (destruct (leaf_map p !! key); lia).
  assert (∀ i nd, i ≠ leaf → <[leaf := NLeaf p']> nodes !! i = Some nd → node_sized nd) as Hsized'.
  { intros i nd Hi. rewrite lookup_insert_ne by done. apply Hsized. }
  assert (all_wide (<[leaf := NLeaf p']> nodes)) as Hwide'.
  { intros i nd. rewrite lookup_insert_Some. intros [[_ <-]|[_ Hi]]; [done|by apply (Hwide i)]. }
  assert (parent_page_id_ p' = INVALID_PAGE_ID ↔ leaf = root) as Hrootleaf.
  { rewrite Hpp. split; [intros Hpar; by eapply (orphan_is_root nodes root h depth m key h leaf (NLeaf p))|]. intros ->.
    destruct (inv_root _ _ _ _ _ _ Hinv) as (rd & Hrd & Hrp & _). rewrite Hp in Hrd. by injection Hrd as <-. }
  unfold IsRootPage. destruct (decide (leaf = root)) as [Heq|Hne].
  - rewrite (bool_decide_true (parent_page_id_ p' = _)), andb_false_r by (by apply Hrootleaf).
    assert (h = 0%nat) as Hh0.
    { pose proof (inv_depth _ _ _ _ _ _ Hinv _ _ Hp) as Hd. destruct (inv_root _ _ _ _ _ _ Hinv) as (_ & _ & _ & Hr0). cbn in Hd. congruence. }
    case_bool_decide as Hz; cbn [andb].
    + apply wp_bind. eapply set_root_rule; [exact Ht3|]. intros t4 Ht4. unfold t_set_root in Ht4. cbn in Ht4.
      apply wp_bind. eapply unpin_rule; [exact Ht4|apply lookup_singleton_eq|by left|]. intros t5 Ht5. unfold t_unpin in Ht5. cbn in Ht5.
      rewrite delete_singleton_eq in Ht5.
      apply wp_bind. eapply (delete_rule _ _ leaf); [exact Ht5|cbn; rewrite lookup_insert_eq; by eexists|done|].
      intros t6 Ht6. unfold t_delete in Ht6. cbn in Ht6. apply wp_ret. exists 0%nat. split; [|lia]. left. eexists.
      split; [by eapply holds_forget|]. split; [|done]. apply map_eq. intros k. rewrite lookup_empty.
      destruct (inv_leaf _ _ _ _ _ _ Hinv' k) as (i & pl & Hi & Hpl & <-). rewrite Hh0 in Hi. cbn in Hi. injection Hi as <-.
      rewrite <-Heq, lookup_insert_eq in Hpl. injection Hpl as <-. unfold leaf_map.
      pose proof (length_cells p' (proj1 Hok')) as Hl. rewrite Hz in Hl. by destruct (cells p').
    + apply wp_bind. eapply unpin_rule; [exact Ht3|apply lookup_singleton_eq|by left|]. intros t4 Ht4. unfold t_unpin in Ht4. cbn in Ht4.
      rewrite delete_singleton_eq in Ht4. apply wp_ret. exists h. split; [|done]. right. eexists root, _, _, depth. split_and!; [exact Ht4|done| |done].
      intros i nd. rewrite lookup_insert_Some. intros [[_ <-]|[_ Hi]]; [|by apply (Hsized i)]. cbn. pose proof (proj1 Hok') as Hpo.
      unfold page_ok in Hpo. split; [congruence|lia].
  - rewrite (bool_decide_false (parent_page_id_ p' = _)) by (intros Hp0%Hrootleaf; done). cbn [negb]. rewrite andb_true_r, andb_false_r.
    case_bool_decide as Hunder.
    + assert (h = 1%nat) as Hh1.
      { assert (h ≠ 0%nat); [|lia]. intros Hh0. rewrite Hh0 in Hw. cbn in Hw. by injection Hw. }
      assert (∃ q, nodes !! root = Some (NInternal q)) as [q Hroot].
      { destruct (inv_root _ _ _ _ _ _ Hinv) as (rd & Hrd & _ & Hr0). pose proof (inv_depth _ _ _ _ _ _ Hinv _ _ Hrd) as Hd.
        destruct (inv_ok _ _ _ _ _ _ Hinv _ _ Hrd) as [_ Hrok]. destruct rd as [pr|q|]; [lia|by exists q|done]. }
      rewrite Hh1 in Hinv', Hw |- *.
      eapply (CoalesceOrRedistribute_rule fuel (delete key m) (<[leaf := NLeaf p']> nodes) root next depth q key leaf p'); try done.
      * by rewrite lookup_insert_ne.
      * apply lookup_insert_eq.
      * pose proof (inv_leaf_delete _ _ _ _ _ leaf p p' key Hinv Hp) as _. rewrite <-Hw. symmetry. apply walk_ext. intros i.
        destruct (decide (i = leaf)) as [->|]; [by rewrite Hp, lookup_insert_eq|by rewrite lookup_insert_ne].
      * congruence.
      * intros v0 cs1 mid b cs2 pa Hq. rewrite lookup_insert_Some.
        assert (∀ pa', nodes !! left_of v0 cs1 = Some (NLeaf pa') → next_page_id_ pa' = b) as Hlinks by (intros pa'; by eapply (root_links nodes root h depth m q)).
        intros [[Hl [= <-]]|[_ Hpa]]; [|by apply Hlinks]. rewrite Hnx. apply Hlinks. by rewrite <-Hl.
    + apply wp_bind. eapply unpin_rule; [exact Ht3|apply lookup_singleton_eq|by left|]. intros t4 Ht4. unfold t_unpin in Ht4. cbn in Ht4.
      rewrite delete_singleton_eq in Ht4. apply wp_ret. exists h. split; [|done]. right. eexists root, _, _, depth. split_and!; [exact Ht4|done| |done].
      intros i nd. rewrite lookup_insert_Some. intros [[_ <-]|[_ Hi]]; [|by apply (Hsized i)]. cbn. split; [congruence|lia].
Qed.
End rules.
