(* ===== verification/TreeMapSpec.v ===== *)
(** * Sequences of operations on a B+ tree

    Insertions, lookups and removals in any order against the same operations on a
    finite map.  Insertions and lookups can build a tree of any height; removals are
    covered as long as the tree keeps to two levels ([RemoveSpec.v]), which a tree
    with at most [internal_max] keys does. *)
From S2P Require Import Prelude Interfaces DiskManager BufferPool BufferPoolSpec Tuple BPlusTreePage NodeLayout BPlusTree TreeInvariant BPlusTreeSpec RemoveSpec.

#[local] Open Scope Z_scope.
#[local] Coercion Z.of_nat : nat >-> Z.

Inductive tree_op := OInsert (key : Z) (value : RID) | OGetValue (key : Z) | ORemove (key : Z).
Inductive tree_result := RInserted (b : bool) | RValue (v : option RID) | RRemoved.

Definition op_fits (op : tree_op) : Prop :=
  match op with OInsert key value => leaf_cell_fits (key, value) | _ => True end.
Definition no_remove (op : tree_op) : Prop := match op with ORemove _ => False | _ => True end.

(** ** The operations on a finite map *)
Definition spec_op (m : gmap Z RID) (op : tree_op) : gmap Z RID :=
  match op with
  | OInsert key value => insert_new key value m
  | OGetValue _ => m
  | ORemove key => delete key m
  end.
Definition spec_answer (m : gmap Z RID) (op : tree_op) : tree_result :=
  match op with
  | OInsert key _ => RInserted (bool_decide (m !! key = None))
  | OGetValue key => RValue (m !! key)
  | ORemove _ => RRemoved
  end.

Fixpoint spec_ops (m : gmap Z RID) (ops : list tree_op) : list tree_result :=
  match ops with
  | [] => []
  | op :: ops' => spec_answer m op :: spec_ops (spec_op m op) ops'
  end.
Definition final_map : gmap Z RID → list tree_op → gmap Z RID := foldl spec_op.

(** The largest number of keys at any time. *)
Fixpoint peak (m : gmap Z RID) (ops : list tree_op) : nat :=
  match ops with
  | [] => size m
  | op :: ops' => size m `max` peak (spec_op m op) ops'
  end.

Lemma spec_op_size m op : (size (spec_op m op) ≤ S (size m))%nat.
Proof.
  destruct op as [key value|key|key]; cbn [spec_op]; [|lia|].
  - unfold insert_new. destruct (m !! key) eqn:Hk; [lia|]. by rewrite map_size_insert_None.
  - rewrite map_size_delete. destruct (m !! key); unfold id; lia.
Qed.

Lemma final_map_size ops : ∀ m, (size (final_map m ops) ≤ size m + length ops)%nat.
Proof.
  induction ops as [|op ops IH]; intros m; cbn [final_map foldl length]; [lia|].
  specialize (IH (spec_op m op)). pose proof (spec_op_size m op). lia.
Qed.

Lemma peak_size m ops : (size m ≤ peak m ops)%nat.
Proof. destruct ops; cbn [peak]; lia. Qed.

(** ** The operations on a tree *)
Section operations.
Context {St D : Type} `{PageStore St D} `{NodeLayout D}.

Definition run_op (fuel : nat) (op : tree_op) : M (BPlusTree St) tree_result :=
  match op with
  | OInsert key value => b ← Insert fuel key value; mret (RInserted b)
  | OGetValue key => v ← GetValue fuel key; mret (RValue v)
  | ORemove key => Remove fuel key;; mret RRemoved
  end.

Fixpoint run_ops (fuel : nat) (ops : list tree_op) : M (BPlusTree St) (list tree_result) :=
  match ops with
  | [] => mret []
  | op :: ops' => r ← run_op fuel op; rs ← run_ops fuel ops'; mret (r :: rs)
  end.
End operations.

(** What removals ask of a tree of height [h] for the operations [ops] to come. *)
Definition covered (leaf_max internal_max : Z) (m : gmap Z RID) (h : nat) (ops : list tree_op) : Prop :=
  Forall no_remove ops ∨ 2 ≤ leaf_max ∧ (h ≤ 1)%nat ∧ peak m ops ≤ internal_max.

Section rules.
Context {St D : Type} `{PageStoreSpec St D} `{NodeLayoutSpec D}.
Context (Hpages : ∀ d, ps_ok d ↔ layout_ok d).
Context (cap : nat) (others : gmap Z (Z * Z)) (leaf_max internal_max : Z).
Context (Hlm : 1 ≤ leaf_max < leaf_cells) (Him : 2 ≤ internal_max < internal_cells) (Hroom : (3 + size others ≤ cap)%nat).
Implicit Types (t : BPlusTree St).
Abbreviation tree_rep := (BPlusTreeSpec.tree_rep cap others leaf_max internal_max).
Abbreviation covered := (covered leaf_max internal_max).

Lemma maxima_in_range : in_int32 leaf_max = true ∧ in_int32 internal_max = true.
Proof. split; apply in_int32_iff; unfold leaf_cells, internal_cells, INT32_MIN, INT32_MAX in *; lia. Qed.

Lemma run_op_rep fuel op ops t m h next :
  tree_rep t m h next → op_fits op → covered m h (op :: ops) → (h < fuel)%nat → next + h + 2 < INT32_MAX →
  wp (run_op fuel op) t (fun r t' => r = spec_answer m op ∧ ∃ h' next', tree_rep t' (spec_op m op) h' next' ∧
    covered (spec_op m op) h' ops ∧ (h' ≤ S h)%nat ∧ next' ≤ next + (h + 2)).
Proof.
  destruct maxima_in_range as [Hl Hi]. intros Hrep Hfit Hcov Hfuel Hnext.
  assert (∀ h', grows internal_max (spec_op m op) h h' ∨ (h' ≤ h)%nat → covered (spec_op m op) h' ops ∧ (h' ≤ S h)%nat) as Hgrow.
  { intros h' Hh. split; [|destruct Hh as [Hh%grows_le|]; lia].
    destruct Hcov as [[_ Hno]%Forall_cons|(Hl2 & Hlow & Hp)]; [by left|right]. split; [done|]. cbn in Hp.
    pose proof (peak_size (spec_op m op) ops). split; [|lia]. destruct Hh as [[->|[-> Hbig]]|]; [done| |lia].
    destruct (decide (h = 1%nat)) as [->|]; [|lia]. specialize (Hbig eq_refl). lia. }
  destruct op as [key value|key|key]; cbn [run_op spec_op spec_answer] in *; apply wp_bind.
  - eapply wp_mono; [eapply (Insert_rep Hpages cap others leaf_max internal_max); try done; lia|]. intros b t1 (-> & h1 & next1 & Hrep1 & Hh1 & Hn1). apply wp_ret.
    split; [done|]. exists h1, next1. destruct (Hgrow h1); [by left|]. done.
  - eapply wp_mono; [eapply (GetValue_rep Hpages cap others leaf_max internal_max); try done; lia|]. intros v t1 (-> & Hrep1). apply wp_ret.
    split; [done|]. exists h, next. destruct (Hgrow h); [by right|]. split_and!; [done..|lia].
  - destruct Hcov as [[[] _]%Forall_cons|(Hl2 & Hlow & _)].
    eapply wp_mono; [eapply (Remove_rep Hpages cap others leaf_max internal_max); try done; lia|]. intros [] t1 (h1 & Hrep1 & Hh1). apply wp_ret.
    split; [done|]. exists h1, next. destruct (Hgrow h1); [by right|]. split_and!; [done..|lia].
Qed.

Lemma run_ops_rep fuel ops : ∀ t m h next,
  tree_rep t m h next → Forall op_fits ops → covered m h ops → (h + length ops < fuel)%nat →
  next + length ops * (h + length ops + 2) < INT32_MAX →
  wp (run_ops fuel ops) t (fun rs t' => rs = spec_ops m ops ∧
    ∃ h' next', tree_rep t' (final_map m ops) h' next' ∧ (h' ≤ h + length ops)%nat).
Proof.
  induction ops as [|op ops IH]; intros t m h next Hrep Hfits Hcov Hfuel Hnext; cbn [run_ops spec_ops].
  { apply wp_ret. split; [done|]. exists h, next. split; [done|cbn; lia]. }
  apply Forall_cons in Hfits as [Hfit Hfits]. cbn [length] in Hfuel, Hnext.
  apply wp_bind. eapply wp_mono; [eapply run_op_rep; [done..|lia|nia]|].
  intros r t1 (-> & h1 & next1 & Hrep1 & Hcov1 & Hh1 & Hn1). apply wp_bind.
  eapply wp_mono; [eapply (IH t1 _ h1 next1); [done..|lia|nia]|]. intros rs t2 (-> & h2 & next2 & Hend & Hh2). apply wp_ret.
  split; [done|]. exists h2, next2. split; [done|cbn [length]; lia].
Qed.
End rules.

(** C2: A B+ tree is a finite map: whatever is inserted, looked up and removed in a
    new tree, with any maximum sizes that leave room for one more cell per page,
    over any page store with three free frames, every [Insert] tells whether the key
    was new, every [GetValue] gives the value of the first insert of the key since
    it was last removed, and in the end no page of the tree is pinned.  Sequences
    with a [Remove] are covered when the tree never has more keys than an internal
    page can have children (then it has at most two levels) and a leaf can have two
    cells.  The descent needs at most as many rounds as there were inserts, so
    [fuel] of one more is enough. *)
Theorem tree_refines_map {St D} `{PageStoreSpec St D} `{NodeLayoutSpec D} (s : St) (b : pstate D)
    (leaf_max internal_max : Z) (fuel : nat) (ops : list tree_op) :
  (∀ d, ps_ok d ↔ layout_ok d) → ps_rep s b →
  1 ≤ leaf_max < leaf_cells → 2 ≤ internal_max < internal_cells → (3 + size (ps_pinned b) ≤ ps_cap b)%nat →
  Forall op_fits ops → Forall no_remove ops ∨ 2 ≤ leaf_max ∧ peak ∅ ops ≤ internal_max →
  (length ops < fuel)%nat → ps_next b + length ops * (length ops + 2) < INT32_MAX →
  wp (run_ops fuel ops) (BPlusTree_new s leaf_max internal_max) (fun rs t =>
    rs = spec_ops ∅ ops ∧ ∃ b', ps_rep (bpm_ t) b' ∧ ps_pinned b' = ps_pinned b).
Proof.
  intros Hpages Hrep Hlm Him Hcap Hops Hcov Hfuel Hnext.
  eapply wp_mono; [eapply (run_ops_rep Hpages (ps_cap b) (ps_pinned b) leaf_max internal_max) with (h := 0%nat) (m := ∅) (next := ps_next b)|]; try done.
  - left. exists ∅. split; [|done]. apply new_tree_holds; [done|lia|lia].
  - destruct Hcov as [?|[? ?]]; [by left|right]. split_and!; [done|lia|done].
  - intros rs t (-> & h' & next' & Hend & _). split; [done|]. by eapply tree_rep_pinned.
Qed.

(** ** The default maximum sizes *)
Definition inserts (cs : list (Z * RID)) : list tree_op := (fun c => OInsert c.1 c.2) <$> cs.

Section fill.
Context {St D : Type} `{PageStoreSpec St D} `{NodeLayoutSpec D}.
Context (Hpages : ∀ d, ps_ok d ↔ layout_ok d).
Context (cap : nat) (others : gmap Z (Z * Z)) (leaf_max internal_max : Z).
Context (Hlm : 1 ≤ leaf_max ≤ leaf_cells) (Him : in_int32 internal_max = true) (Hcap : (size others < cap)%nat).
Abbreviation one_leaf := (one_leaf cap others leaf_max internal_max).

Lemma leaf_max_in_range : in_int32 leaf_max = true.
Proof using Hlm. clear - Hlm. apply in_int32_iff. unfold leaf_cells, INT32_MIN, INT32_MAX in *. lia. Qed.

(** Insertions of new keys into the only leaf, up to its maximum size. *)
Lemma fill_leaf fuel cs : ∀ (m : gmap Z RID) (t : BPlusTree St) next,
  one_leaf t m next → Forall leaf_cell_fits cs → NoDup cs.*1 → (∀ c, c ∈ cs → m !! c.1 = None) →
  size m + length cs ≤ leaf_max →
  wp (run_ops (S fuel) (inserts cs)) t (fun rs t' =>
    rs = replicate (length cs) (RInserted true) ∧
    ∃ m', one_leaf t' m' next ∧ Z.of_nat (size m') = size m + length cs ∧
      (∀ k, m' !! k = None ↔ m !! k = None ∧ k ∉ cs.*1)).
Proof using Hpages Hlm Him Hcap.
  induction cs as [|c cs IH]; intros m t next Hone Hfit Hnd Habs Hsize; cbn [inserts fmap list_fmap run_ops length].
  { apply wp_ret. split; [done|]. exists m. split_and!; [done|lia|]. intros k. set_solver. }
  apply Forall_cons in Hfit as [Hc Hfit]. apply NoDup_cons in Hnd as [Hni Hnd]. cbn [length] in Hsize.
  assert (m !! c.1 = None) as Hnone by (apply Habs; by left).
  apply wp_bind, wp_bind. eapply wp_mono.
  { eapply (one_leaf_Insert Hpages cap others leaf_max internal_max); [apply leaf_max_in_range|done|done|lia|exact Hone|done|lia|by destruct c]. }
  intros b t1 [-> Hone1]. apply wp_ret, wp_bind. eapply wp_mono; [apply (IH _ _ _ Hone1 Hfit Hnd)|].
  - intros c' Hc'. rewrite lookup_insert_ne; [by apply Habs; right|]. intros Heq. apply Hni. rewrite Heq. by apply list_elem_of_fmap_2.
  - rewrite map_size_insert_None by done. lia.
  - intros rs t2 (-> & m' & Hone' & Hs & Hk). apply wp_ret. split; [done|]. exists m'. split_and!; [done| |].
    + rewrite Hs, map_size_insert_None by done. lia.
    + intros k. rewrite Hk, lookup_insert_None. cbn. rewrite not_elem_of_cons. clear. naive_solver.
Qed.
End fill.

(** C40: The default maximum sizes leave no room for the cell that a page takes
    before it is split.  A new tree with the default sizes accepts
    [leaf_max_size_] different keys, all in one leaf whose array they fill; the
    insertion of one key more writes behind the array, outside the page.  In the
    same way a page that holds as many children as the default
    [internal_max_size_] allows has no room for the child that [InsertIntoParent]
    adds before it splits the page.  The arrays are those of the page layout:
    what is left of the 4096 bytes behind the headers. *)
Theorem default_sizes_overrun {St D} `{PageStoreSpec St D} `{NodeLayoutSpec D} (s : St) (b : pstate D)
    (fuel : nat) (cs : list (Z * RID)) (key : Z) (value : RID) :
  (∀ d, ps_ok d ↔ layout_ok d) → ps_rep s b → (size (ps_pinned b) < ps_cap b)%nat → ps_next b < INT32_MAX →
  Forall leaf_cell_fits cs → NoDup cs.*1 → Z.of_nat (length cs) = leaf_max_size_ (BPlusTree_new s 0 0) → key ∉ cs.*1 →
  wp (run_ops (S fuel) (inserts cs)) (BPlusTree_new s 0 0) (fun rs t =>
    rs = replicate (length cs) (RInserted true) ∧ (Insert (S fuel) key value t).1 = Undef) ∧
  (∀ old k new q, internal_fits q → page_ok q → size_ q = internal_max_size_ (BPlusTree_new s 0 0) →
    InsertNodeAfter old k new q = Undef).
Proof.
  intros Hpages Hrep Hcap Hnext Hfit Hnd Hlen Hnew. split.
  2:{ intros old k new q (_ & _ & Hl & _) Hok Hq. apply InsertNodeAfter_full; [done|]. by rewrite Hq, Hl. }
  assert (leaf_max_size_ (BPlusTree_new s 0 0) = 339) as Hmax by done. rewrite Hmax in Hlen.
  destruct cs as [|c cs]; [done|]. cbn [length] in Hlen. apply Forall_cons in Hfit as [Hc Hfit].
  apply NoDup_cons in Hnd as [Hni Hnd]. set (lm := leaf_max_size_ (BPlusTree_new s 0 0)) in *.
  set (im := internal_max_size_ (BPlusTree_new s 0 0)).
  assert (in_int32 im = true ∧ in_int32 lm = true) as [Him Hlmr] by done.
  cbn [inserts fmap list_fmap run_ops]. apply wp_bind, wp_bind. eapply wp_mono.
  { eapply (first_Insert Hpages (ps_cap b) (ps_pinned b) lm im Hlmr Him); [done|by apply (new_tree_state s b 0 0)|by destruct c|done]. }
  intros r t [-> Hone]. apply wp_ret, wp_bind. eapply wp_mono.
  { apply (fill_leaf Hpages (ps_cap b) (ps_pinned b) lm im ltac:(unfold leaf_cells; lia) Him Hcap fuel cs _ _ _ Hone Hfit Hnd).
    - intros c' Hc'. apply lookup_singleton_ne. intros Heq. apply Hni. rewrite Heq. by apply list_elem_of_fmap_2.
    - rewrite map_size_singleton. lia. }
  intros rs t' (-> & m' & Hone' & Hs & Hk). apply wp_ret. split; [done|].
  eapply (one_leaf_Insert_full Hpages (ps_cap b) (ps_pinned b) lm im Hlmr Him); [done|exact Hone'| |].
  - apply Hk. rewrite fmap_cons in Hnew. apply not_elem_of_cons in Hnew as [??]. split; [|done]. by apply lookup_singleton_ne.
  - rewrite map_size_singleton in Hs. unfold leaf_cells. lia.
Qed.

(** ** A tree in a pool of four frames over an empty file *)
Definition tree_pool : BufferPoolManager DiskManager (list Init.Byte.byte) :=
  BufferPoolManager_new 4 (DiskManager_new []) 2.

Lemma tree_pool_rep : ps_rep tree_pool (mkPState 4 0 ∅ ∅ ∅).
Proof.
  change (pool_rep None tree_pool (mkPState 4 0 ∅ ∅ ∅)). unfold tree_pool. change 0 with (next_id (DiskManager_new [])).
  apply BufferPoolManager_new_rep; [done|by vm_compute|lia].
Qed.

Lemma tree_pages (d : list Init.Byte.byte) : ps_ok (S := BufferPoolManager DiskManager (list Init.Byte.byte)) d ↔ layout_ok d.
Proof. done. Qed.

(** Leaves of two keys: splits, loans between neighbours, a merge that leaves the
    root with one child, and a leaf that becomes empty. *)
Definition demo_ops : list tree_op :=
  [OInsert 5 (mkRID 0 5); OInsert 1 (mkRID 0 1); OInsert 9 (mkRID 0 9); OInsert 5 (mkRID 1 1); OGetValue 5; ORemove 1;
   OInsert 3 (mkRID 0 3); OGetValue 1; ORemove 9; ORemove 5; OGetValue 5; OInsert 5 (mkRID 1 1); OGetValue 5; ORemove 3; ORemove 5; OGetValue 3].

Example tree_refines_map_witness :
  wp (run_ops 20 demo_ops) (BPlusTree_new tree_pool 2 4) (fun rs _ =>
    rs = [RInserted true; RInserted true; RInserted true; RInserted false; RValue (Some (mkRID 0 5)); RRemoved;
          RInserted true; RValue None; RRemoved; RRemoved; RValue None; RInserted true; RValue (Some (mkRID 1 1)); RRemoved; RRemoved; RValue None]).
Proof.
  eapply wp_mono.
  - apply (tree_refines_map tree_pool _ 2 4 20 demo_ops tree_pages tree_pool_rep); [done|done|apply Nat.leb_le; vm_compute; reflexivity| | |cbn; lia|done].
    + repeat (constructor; [try done; by split_and!|]). constructor.
    + right. split; [done|]. apply Z.leb_le. vm_compute. reflexivity.
  - intros rs t [-> _]. reflexivity.
Defined.

Definition demo_cells : list (Z * RID) := (fun i : nat => (Z.of_nat i, mkRID 0 i)) <$> seq 0 339.

Lemma demo_cells_fit : Forall leaf_cell_fits demo_cells ∧ NoDup demo_cells.*1 ∧ length demo_cells = 339%nat ∧ 339 ∉ demo_cells.*1.
Proof.
  unfold demo_cells. rewrite <-list_fmap_compose, length_fmap, length_seq. split_and!; [|apply NoDup_fmap_2, NoDup_seq; intros ??; cbn; lia|done|].
  - apply Forall_fmap, Forall_forall. intros i [_ Hi]%elem_of_seq. cbn. split_and!; [apply in_int32_iff; unfold INT32_MIN, INT32_MAX|done|..]; cbn; lia.
  - intros (i & Hi & [_ ?]%elem_of_seq)%list_elem_of_fmap. cbn in *. lia.
Qed.

Example default_sizes_overrun_witness :
  wp (run_ops 1 (inserts demo_cells)) (BPlusTree_new tree_pool 0 0) (fun rs t =>
    rs = replicate (length demo_cells) (RInserted true) ∧ (Insert 1 339 (mkRID 0 339) t).1 = Undef).
Proof.
  destruct demo_cells_fit as (Hfit & Hnd & Hlen & Hnew).
  refine (proj1 (default_sizes_overrun tree_pool _ 0 demo_cells 339 (mkRID 0 339) tree_pages tree_pool_rep _ _ Hfit Hnd _ Hnew));
    [apply Nat.ltb_lt; reflexivity|done|by rewrite Hlen].
Defined.
