(* ===== verification/IteratorSpec.v ===== *)
(** * Iterating over a B+ tree

    The loop [for (auto it = tree.Begin(); it != tree.End(); ++it)] over the
    iterators of [BPlusTree.v]: with enough frames it gives the entries of the tree
    in the order of the keys.  The leaves are linked in that order (the field
    [inv_chain] of [TreeInvariant.v]), and [Begin] arrives at the first one.
    [operator++] unpins the page id that it has moved to, so each leaf that has been
    left stays pinned: the rules below keep count of them. *)
From Stdlib Require Import Sorting.Sorted.
From stdpp Require sorting.
From S2P Require Import Prelude Interfaces DiskManager BufferPool BufferPoolSpec Tuple BPlusTreePage NodeLayout BPlusTree TreeInvariant BPlusTreeSpec TreeMapSpec.

#[local] Open Scope Z_scope.
#[local] Coercion Z.of_nat : nat >-> Z.

(** ** The loop *)
Section loop.
Context {St D : Type} `{PageStore St D} `{NodeLayout D}.

Fixpoint scan_from (fuel : nat) (it : Iterator) : M (BPlusTree St) (list (Z * RID)) :=
  match fuel with
  | O => lift OutOfFuel
  | S fuel' =>
    if Iterator_eq it End then mret []
    else
      entry ← Iterator_deref it;
      it ← Iterator_next it;
      entries ← scan_from fuel' it;
      mret (entry :: entries)
  end.

Definition scan (fuel : nat) : M (BPlusTree St) (list (Z * RID)) :=
  it ← Begin fuel;
  scan_from fuel it.
End loop.

(** ** The leaves in their order *)

(** The cells of the leaf, and of a list of leaves. *)
Definition leaf_entries (nodes : gmap Z node) (id : Z) : list (Z * RID) :=
  match nodes !! id with Some (NLeaf p) => cells p | _ => [] end.
Definition chain_entries (nodes : gmap Z node) (L : list Z) : list (Z * RID) := L ≫= leaf_entries nodes.

Lemma sorted_keys_nodup (l : list Z) : StronglySorted Z.lt l → NoDup l.
Proof.
  induction 1 as [|a l _ IH Hf]; [constructor|]. constructor; [|done]. rewrite Forall_forall in Hf. intros Ha%Hf. lia.
Qed.

Section order.
Context {nodes : gmap Z node} {root : Z} {h : nat} {depth : Z → nat} {m : gmap Z RID}.
Context (Hinv : tree_inv None nodes root h depth m).
Abbreviation to_leaf := (fun key => walk None nodes root key h).

(** An entry of a leaf is routed to the leaf. *)
Lemma leaf_entry id k v : (k, v) ∈ leaf_entries nodes id → to_leaf k = Some id ∧ m !! k = Some v.
Proof.
  unfold leaf_entries. destruct (nodes !! id) as [[p|p|]|] eqn:Hid; try intros []%elem_of_nil.
  intros Hin. destruct (inv_ok _ _ _ _ _ _ Hinv _ _ Hid) as [_ [_ Hs]]. pose proof (inv_depth _ _ _ _ _ _ Hinv _ _ Hid) as Hd. cbn in Hd.
  assert (leaf_map p !! k = Some v) as Hk.
  { apply elem_of_list_to_map_1; [by apply sorted_keys_nodup|done]. }
  pose proof (inv_keys _ _ _ _ _ _ Hinv id (NLeaf p) k Hid (ex_intro _ v Hk)) as Hw. rewrite Hd in Hw. split; [done|].
  destruct (inv_leaf _ _ _ _ _ _ Hinv k) as (i & q & Hi & Hq & Hm). congruence.
Qed.

Lemma leaf_entry_key id k : k ∈ (leaf_entries nodes id).*1 → to_leaf k = Some id.
Proof. intros ([k' v] & -> & Hin)%list_elem_of_fmap. by destruct (leaf_entry id k' v Hin). Qed.

Lemma leaf_entries_sorted id : StronglySorted Z.lt (leaf_entries nodes id).*1.
Proof.
  unfold leaf_entries. destruct (nodes !! id) as [[p|p|]|] eqn:Hid; try constructor.
  by destruct (inv_ok _ _ _ _ _ _ Hinv _ _ Hid) as [_ [_ Hs]].
Qed.

Lemma chain_entries_cons id L : chain_entries nodes (id :: L) = leaf_entries nodes id ++ chain_entries nodes L.
Proof. done. Qed.

Lemma chain_key L k : k ∈ (chain_entries nodes L).*1 → ∃ id, id ∈ L ∧ to_leaf k = Some id.
Proof.
  induction L as [|id L IH]; [intros []%elem_of_nil|]. rewrite chain_entries_cons, fmap_app, elem_of_app.
  intros [Hin|Hin]; [exists id; split; [by left|by apply leaf_entry_key]|].
  destruct (IH Hin) as (i & ? & ?). exists i. split; [by right|done].
Qed.

Lemma chain_sorted_keys L : StronglySorted (routed_before to_leaf) L → StronglySorted Z.lt (chain_entries nodes L).*1.
Proof.
  induction 1 as [|id L _ IH Hf]; [constructor|]. rewrite chain_entries_cons, fmap_app. apply sorting.StronglySorted_app.
  split_and!; [|apply leaf_entries_sorted|done]. intros k k' Hk (i & Hi & Hk')%chain_key.
  rewrite Forall_forall in Hf. by apply (Hf i Hi); [apply leaf_entry_key|].
Qed.

(** The leaves have the entries of the map. *)
Lemma chain_entries_map L k v : leaf_chain (leaf_next nodes) to_leaf L → (k, v) ∈ chain_entries nodes L ↔ m !! k = Some v.
Proof.
  intros Hchain. split.
  - intros (id & Hin & _)%list_elem_of_bind. by apply (leaf_entry id).
  - intros Hk. destruct (inv_leaf _ _ _ _ _ _ Hinv k) as (id & p & _ & Hid & Hm). apply list_elem_of_bind. exists id. split.
    + unfold leaf_entries. rewrite Hid. apply elem_of_list_to_map_2. by rewrite <-Hk.
    + apply (chain_all _ _ _ Hchain). unfold leaf_next. rewrite Hid. by eexists.
Qed.

(** Below all separators a key is routed to the first child of each node. *)
Lemma below_separators : ∃ k0, ∀ id p k, nodes !! id = Some (NInternal p) → k ∈ separators p → k0 < k.
Proof.
  clear Hinv. induction nodes as [|i nd nds Hi IH] using map_ind.
  { exists 0. intros id p k Hp. by rewrite lookup_empty in Hp. }
  destruct IH as [k0 Hk0]. assert (∀ l : list Z, ∃ k1, ∀ k, k ∈ l → k1 < k) as Hl.
  { clear. intros l. induction l as [|a l [k1 Hk1]]; [exists 0; intros k []%elem_of_nil|].
    exists (Z.min k1 (a - 1)). intros k [->|Hk]%elem_of_cons; [lia|]. pose proof (Hk1 k Hk). lia. }
  destruct (Hl (match nd with NInternal p => separators p | _ => [] end)) as [k1 Hk1].
  exists (Z.min k0 k1). intros id p k. rewrite lookup_insert_Some. intros [[<- ->]|[_ Hp]] Hk.
  - pose proof (Hk1 k Hk). lia.
  - pose proof (Hk0 id p k Hp Hk). lia.
Qed.

Lemma first_child p k : node_ok (NInternal p) → (∀ k', k' ∈ separators p → k < k') → ValueAt 0 p = Internal_Lookup k p.
Proof.
  intros [Hok _] Hk. destruct (has_cells_intro p Hok) as (v0 & cs & Hc & _). rewrite (has_cells_lookup _ _ _ k Hc).
  assert (route k v0 cs = v0) as ->.
  { apply (route_app_below k v0 [] cs), Forall_forall. intros c Hin. apply Hk. rewrite (has_cells_separators _ _ _ Hc). by apply list_elem_of_fmap_2. }
  destruct Hc as (Hpo & _ & k0 & Hcs). apply (ValueAt_cells 0); [done|]. by rewrite Hcs.
Qed.

Lemma first_leaf_key L : leaf_chain (leaf_next nodes) to_leaf L →
  ∃ k, to_leaf k = head L ∧ ∀ id p, nodes !! id = Some (NInternal p) → ValueAt 0 p = Internal_Lookup k p.
Proof.
  intros Hchain. destruct (chain_first _ _ _ Hchain) as [k0 Hk0]. destruct below_separators as [k1 Hk1].
  exists (Z.min k0 k1). split; [apply Hk0; lia|]. intros id p Hp. apply first_child; [by apply (inv_ok _ _ _ _ _ _ Hinv id)|].
  intros k' Hk'. pose proof (Hk1 id p k' Hp Hk'). lia.
Qed.

Lemma chain_nonempty L : leaf_chain (leaf_next nodes) to_leaf L → L ≠ [].
Proof.
  intros Hchain ->. destruct (inv_leaf _ _ _ _ _ _ Hinv 0) as (id & p & _ & Hid & _).
  apply (not_elem_of_nil id), (chain_all _ _ _ Hchain). unfold leaf_next. rewrite Hid. by eexists.
Qed.
End order.

(** ** The loop over a tree *)
Section rules.
Context {St D : Type} `{PageStoreSpec St D} `{NodeLayoutSpec D}.
Context (Hpages : ∀ d, ps_ok d ↔ layout_ok d).
Context (cap : nat) (others : gmap Z (Z * Z)) (leaf_max internal_max : Z).
Context (Hleaf_max : in_int32 leaf_max = true) (Hinternal_max : in_int32 internal_max = true).
Implicit Types (t : BPlusTree St) (x : tstate).
Abbreviation holds := (BPlusTreeSpec.holds cap others leaf_max internal_max).
Abbreviation fetch_rule := (BPlusTreeSpec.fetch_rule Hpages cap others leaf_max internal_max Hleaf_max Hinternal_max).
Abbreviation unpin_rule := (BPlusTreeSpec.unpin_rule Hpages cap others leaf_max internal_max Hleaf_max Hinternal_max).
Abbreviation leaf_at_rule := (BPlusTreeSpec.leaf_at_rule Hpages cap others leaf_max internal_max Hleaf_max Hinternal_max).

(** A page that is not pinned, or no page, is not unpinned. *)
Lemma unpin_closed_rule t x id dirty (Q : bool → BPlusTree St → Prop) :
  holds t x → t_open x !! id = None → is_Some (t_nodes x !! id) ∨ id = INVALID_PAGE_ID → Q false t → wp (UnpinPage id dirty) t Q.
Proof.
  intros ((b & Hrep & Hcap & Hnext & Hpin & Hnodes & Hopen & Hothers) & Ht) Hid Hin HQ.
  unfold UnpinPage, on_bpm. apply wp_zoom. eapply wp_intro.
  - eapply ps_unpin_unpinned; [exact Hrep|]. eapply pinned_closed; [done|done|].
    destruct Hin as [[nd Hnd]|Hid']; [by destruct (Hnodes id nd Hnd) as (_ & ? & _)|].
    destruct (others !! id) as [[f c]|] eqn:Ho; [|done].
    destruct (ps_rep_pinned _ b id f c Hrep) as [_ [d Hd]].
    { rewrite Hpin, lookup_union_r; [done|]. by rewrite lookup_fmap, Hid. }
    destruct (ps_rep_pages _ _ _ _ Hrep Hd). unfold INVALID_PAGE_ID in *. lia.
  - by destruct t.
Qed.

Lemma deref_rule t root next nodes open dirty id (i : nat) p c (Q : Z * RID → BPlusTree St → Prop) :
  holds t (mkT root next nodes open dirty) → nodes !! id = Some (NLeaf p) → open !! id = None → (size open + size others < cap)%nat →
  page_ok p → cells p !! i = Some c →
  (∀ t' dirty', holds t' (mkT root next nodes open dirty') → Q c t') → wp (Iterator_deref (mkIterator id i true)) t Q.
Proof.
  intros Ht Hid Ho Hroom Hok Hc HQ. destruct (node_fits _ _ _ _ _ _ _ _ Ht Hid) as [Hge _]. cbn [t_next] in Hge.
  unfold Iterator_deref, IsEnd. cbn [it_page_id it_bpm it_index]. rewrite bool_decide_false by (unfold INVALID_PAGE_ID; lia). cbn [orb negb].
  apply wp_bind. eapply fetch_rule; [exact Ht|by eexists|done|done|]. intros f t1 Ht1. unfold t_fetch in Ht1. cbn in Ht1.
  apply wp_bind. eapply leaf_at_rule; [exact Ht1|apply lookup_insert_eq|exact Hid|].
  assert (i < size_ p) by (apply lookup_lt_Some in Hc; rewrite length_cells in Hc by done; lia).
  rewrite lookup_cells in Hc by done. unfold KeyAt, ValueAt. rewrite (arr_get_nat _ c) by done.
  apply wp_bind, wp_lift, wp_bind, wp_lift, wp_bind.
  eapply unpin_rule; [exact Ht1|apply lookup_insert_eq|right; set_solver|]. intros t2 Ht2. unfold t_unpin in Ht2. cbn in Ht2.
  rewrite delete_insert_id in Ht2 by done. apply wp_ret. destruct c as [k v]. by eapply HQ.
Qed.

(** [operator++] inside a leaf, and from a leaf to the next one: the page that has
    been left stays pinned. *)
Lemma next_inside_rule t root next nodes open dirty id (i : nat) p (Q : Iterator → BPlusTree St → Prop) :
  holds t (mkT root next nodes open dirty) → nodes !! id = Some (NLeaf p) → open !! id = None → (size open + size others < cap)%nat →
  i + 1 < size_ p →
  (∀ t' dirty', holds t' (mkT root next nodes open dirty') → Q (mkIterator id (S i) true) t') → wp (Iterator_next (mkIterator id i true)) t Q.
Proof.
  intros Ht Hid Ho Hroom Hi HQ. destruct (node_fits _ _ _ _ _ _ _ _ Ht Hid) as [Hge _]. cbn [t_next] in Hge.
  unfold Iterator_next, IsEnd. cbn [it_page_id it_bpm it_index]. rewrite bool_decide_false by (unfold INVALID_PAGE_ID; lia). cbn [orb negb].
  apply wp_bind. eapply fetch_rule; [exact Ht|by eexists|done|done|]. intros f t1 Ht1. unfold t_fetch in Ht1. cbn in Ht1.
  apply wp_bind. eapply leaf_at_rule; [exact Ht1|apply lookup_insert_eq|exact Hid|]. cbn zeta.
  rewrite bool_decide_false by lia. cbn [it_page_id]. apply wp_bind.
  eapply unpin_rule; [exact Ht1|apply lookup_insert_eq|right; set_solver|]. intros t2 Ht2. unfold t_unpin in Ht2. cbn in Ht2.
  rewrite delete_insert_id in Ht2 by done. apply wp_ret. replace (i + 1) with (Z.of_nat (S i)) by lia. by eapply HQ.
Qed.

Lemma next_leaf_rule t root next nodes open dirty id (i : nat) p (Q : Iterator → BPlusTree St → Prop) :
  holds t (mkT root next nodes open dirty) → nodes !! id = Some (NLeaf p) → open !! id = None → (size open + size others < cap)%nat →
  size_ p ≤ i + 1 → next_page_id_ p ≠ id → open !! next_page_id_ p = None →
  is_Some (nodes !! next_page_id_ p) ∨ next_page_id_ p = INVALID_PAGE_ID →
  (∀ f t' dirty', holds t' (mkT root next nodes (<[id := f]> open) dirty') → Q (mkIterator (next_page_id_ p) 0 true) t') →
  wp (Iterator_next (mkIterator id i true)) t Q.
Proof.
  intros Ht Hid Ho Hroom Hi Hne Hno Hnn HQ. destruct (node_fits _ _ _ _ _ _ _ _ Ht Hid) as [Hge _]. cbn [t_next] in Hge.
  unfold Iterator_next, IsEnd. cbn [it_page_id it_bpm it_index]. rewrite bool_decide_false by (unfold INVALID_PAGE_ID; lia). cbn [orb negb].
  apply wp_bind. eapply fetch_rule; [exact Ht|by eexists|done|done|]. intros f t1 Ht1. unfold t_fetch in Ht1. cbn in Ht1.
  apply wp_bind. eapply leaf_at_rule; [exact Ht1|apply lookup_insert_eq|exact Hid|]. cbn zeta.
  rewrite bool_decide_true by lia. cbn [it_page_id]. apply wp_bind.
  eapply unpin_closed_rule; [exact Ht1|by cbn; rewrite lookup_insert_ne|done|]. apply wp_ret. by eapply HQ.
Qed.

(** The rest of the loop, from a cell of a leaf. *)
Lemma scan_from_rule root next nodes fuel : ∀ id (i : nat) L p t open dirty,
  holds t (mkT root next nodes open dirty) → nodes !! id = Some (NLeaf p) →
  all_sized leaf_max internal_max nodes → (∀ a q, nodes !! a = Some (NLeaf q) → page_ok q) → i < size_ p →
  linked (leaf_next nodes) (id :: L) → NoDup (id :: L) → (∀ a, a ∈ id :: L → open !! a = None) → open !! INVALID_PAGE_ID = None →
  (size open + length (id :: L) + size others ≤ cap)%nat → (length (drop i (cells p) ++ chain_entries nodes L) < fuel)%nat →
  wp (scan_from fuel (mkIterator id i true)) t (fun l t' => l = drop i (cells p) ++ chain_entries nodes L ∧
    ∃ open' dirty', holds t' (mkT root next nodes open' dirty') ∧ dom open' = dom open ∪ list_to_set (id :: L)).
Proof.
  induction fuel as [|fuel IH]; intros id i L p t open dirty Ht Hid Hsized Hoks Hi Hl Hd Hopen Hinv Hroom Hfuel; [lia|].
  pose proof (Hoks _ _ Hid) as Hok. destruct (node_fits _ _ _ _ _ _ _ _ Ht Hid) as [Hge _]. cbn [t_next] in Hge.
  destruct (lookup_lt_is_Some_2 (cells p) i) as [c Hc]; [rewrite length_cells by done; lia|].
  assert (open !! id = None) as Ho by (apply Hopen; by left).
  cbn [scan_from]. unfold Iterator_eq, End. cbn [it_page_id it_index].
  rewrite bool_decide_false by (unfold INVALID_PAGE_ID; lia). cbn [andb length] in *.
  rewrite (drop_S _ _ _ Hc) in *. cbn [app length] in *.
  apply wp_bind. eapply deref_rule; [exact Ht|exact Hid|done|lia|done|exact Hc|]. intros t1 dirty1 Ht1. apply wp_bind.
  destruct (decide (i + 1 < size_ p)) as [Hlt|Hge'].
  - eapply next_inside_rule; [exact Ht1|exact Hid|done|lia|done|]. intros t2 dirty2 Ht2. apply wp_bind.
    eapply wp_mono; [eapply (IH id (S i) L p); try done; cbn [length]; lia|].
    intros l t3 [-> Hend]. apply wp_ret. by split.
  - destruct Hl as [Hn Hl]. unfold leaf_next in Hn. rewrite Hid in Hn. injection Hn as Hn. apply NoDup_cons in Hd as [Hdi Hd].
    rewrite (drop_ge (cells p)) in * by (rewrite length_cells by done; lia). cbn [app] in *.
    eapply next_leaf_rule; [exact Ht1|exact Hid|done|lia|lia| | | |]; rewrite ?Hn.
    { destruct L; [unfold INVALID_PAGE_ID; lia|]. set_solver. }
    { destruct L; [done|]. apply Hopen. set_solver. }
    { destruct L as [|b L]; [by right|left]. destruct Hl as [Hb _]. unfold leaf_next in Hb. by destruct (nodes !! b). }
    intros f t2 dirty2 Ht2. apply wp_bind. destruct L as [|b L].
    + destruct fuel as [|fuel]; [lia|]. cbn [scan_from]. apply wp_ret, wp_ret. split; [done|].
      exists (<[id := f]> open), dirty2. split; [done|]. rewrite dom_insert_L. set_solver.
    + assert (∃ q, nodes !! b = Some (NLeaf q)) as [q Hq].
      { destruct Hl as [Hb _]. unfold leaf_next in Hb. destruct (nodes !! b) as [[q|q|]|]; try done. by exists q. }
      assert (chain_entries nodes (b :: L) = drop 0 (cells q) ++ chain_entries nodes L) as Hce.
      { unfold chain_entries. cbn. unfold leaf_entries at 1. by rewrite Hq. }
      rewrite Hce in *.
      eapply wp_mono; [eapply (IH b 0%nat L q); try done|].
      * destruct (Hsized _ _ Hq). lia.
      * intros a Ha. rewrite lookup_insert_ne by set_solver. apply Hopen. by right.
      * rewrite lookup_insert_ne by (unfold INVALID_PAGE_ID; lia). done.
      * rewrite map_size_insert_None by done. cbn [length] in *. lia.
      * lia.
      * intros l t3 (-> & open' & dirty' & Hend & Hdom). apply wp_ret. split; [done|].
        exists open', dirty'. split; [done|]. rewrite Hdom, dom_insert_L. set_solver.
Qed.

(** The entries of a map in the order of the keys. *)
Definition entries_of (m : gmap Z RID) (l : list (Z * RID)) : Prop :=
  StronglySorted Z.lt l.*1 ∧ ∀ k v, (k, v) ∈ l ↔ m !! k = Some v.

Lemma entries_length m l : entries_of m l → length l = size m.
Proof.
  intros [Hs Hm]. apply sorted_keys_nodup in Hs. rewrite <-(map_size_list_to_map (M := gmap Z) l) by done. f_equal.
  apply map_eq. intros k. apply option_eq. intros v. by rewrite <-elem_of_list_to_map, Hm.
Qed.

Lemma entries_keys m l l' : entries_of m l → entries_of m l' → l.*1 = l'.*1.
Proof.
  intros [Hs Hm] [Hs' Hm'].
  assert (∀ l, (∀ k v, (k, v) ∈ l ↔ m !! k = Some v) → ∀ k, k ∈ l.*1 ↔ is_Some (m !! k)) as Hk.
  { clear. intros l Hm k. rewrite list_elem_of_fmap. split.
    - intros ([k' v] & -> & Hin). exists v. by apply Hm.
    - intros [v Hv]. exists (k, v). split; [done|by apply Hm]. }
  apply (sorting.StronglySorted_unique_strong Z.lt); [lia|done|done|].
  apply NoDup_Permutation; [by apply sorted_keys_nodup..|]. intros k. by rewrite (Hk l), (Hk l').
Qed.

Lemma chain_length nodes L : linked (leaf_next nodes) L → all_sized leaf_max internal_max nodes →
  (∀ a q, nodes !! a = Some (NLeaf q) → page_ok q) → (length L ≤ length (chain_entries nodes L))%nat.
Proof.
  intros Hl Hsized Hoks. induction L as [|a L IH]; [done|]. destruct Hl as [Ha Hl]. rewrite chain_entries_cons, length_app.
  unfold leaf_next in Ha. unfold leaf_entries. destruct (nodes !! a) as [[q|q|]|] eqn:Hq; try done.
  rewrite length_cells by by eapply Hoks. destruct (Hsized _ _ Hq). specialize (IH Hl). cbn [length]. lia.
Qed.

Lemma scan_rep fuel t m h next :
  tree_rep cap others leaf_max internal_max t m h next → (h < fuel)%nat → (size m < fuel)%nat →
  (size others < cap)%nat → (size m + size others ≤ cap)%nat →
  wp (scan fuel) t (fun l t' => entries_of m l ∧
    (l ≠ [] → ∃ b id, ps_rep (bpm_ t') b ∧ others !! id = None ∧ is_Some (ps_pinned b !! id))).
Proof.
  intros [(dirty & Ht & -> & ->)|(root & nodes & dirty & depth & Ht & Hinv & Hsized & _)] Hfuel Hm Hcap Hroom; unfold scan, Begin.
  { apply wp_bind, wp_bind, wp_gets. pose proof Ht as (_ & -> & _). cbn [t_root]. rewrite bool_decide_true by done. apply wp_ret.
    destruct fuel; [lia|]. cbn [scan_from]. apply wp_ret. split; [|done]. split; [constructor|]. intros k v.
    rewrite lookup_empty. split; [intros []%elem_of_nil|done]. }
  destruct (inv_chain _ _ _ _ _ _ Hinv) as [L Hchain]. pose proof (chain_nonempty Hinv L Hchain) as Hne.
  assert (entries_of m (chain_entries nodes L)) as Hentries.
  { split; [by eapply chain_sorted_keys, chain_sorted|]. intros k v. by eapply chain_entries_map. }
  assert (∀ a q, nodes !! a = Some (NLeaf q) → page_ok q) as Hoks.
  { intros a q Hq. destruct (inv_ok _ _ _ _ _ _ Hinv _ _ Hq) as [_ [? _]]. done. }
  pose proof (entries_length _ _ Hentries) as Hlen. pose proof (chain_length nodes L (chain_linked _ _ _ Hchain) Hsized Hoks) as HL.
  destruct (first_leaf_key Hinv L Hchain) as (k & Hhead & Hstep). destruct L as [|id L]; [done|].
  apply wp_bind, wp_bind. eapply not_empty; [done|exact Ht|].
  apply wp_bind. eapply (descend_root_rule Hpages cap others leaf_max internal_max Hleaf_max Hinternal_max k); [done|done|exact Ht|done|done|].
  intros leaf f t1 dirty1 p Hw Hp _ Ht1 Hd. cbv beta in Hhead. rewrite Hw in Hhead. injection Hhead as ->.
  apply wp_bind. eapply unpin_rule; [exact Ht1|apply lookup_singleton_eq|by right|]. intros t2 Ht2. unfold t_unpin in Ht2. cbn in Ht2.
  rewrite delete_singleton_eq in Ht2. apply wp_ret.
  assert (chain_entries nodes (id :: L) = drop 0 (cells p) ++ chain_entries nodes L) as Hce.
  { unfold chain_entries. cbn. unfold leaf_entries at 1. by rewrite Hp. }
  rewrite Hce in *.
  eapply wp_mono; [eapply (scan_from_rule root next nodes fuel id 0%nat L p t2 ∅ dirty1)|]; try done.
  - destruct (Hsized _ _ Hp). lia.
  - apply (chain_linked _ _ _ Hchain).
  - apply (chain_nodup _ _ _ Hchain).
  - rewrite map_size_empty. cbn [length] in *. lia.
  - lia.
  - intros l t3 (-> & open' & dirty' & Hend & Hdom). split; [done|]. intros _.
    destruct Hend as ((b & Hrep & _ & _ & Hpin & Hnodes & _) & _). exists b, id. split; [done|].
    destruct (Hnodes id (NLeaf p) Hp) as (_ & Ho & _). split; [done|]. rewrite Hpin.
    assert (id ∈ dom open') as [g Hg]%elem_of_dom by (rewrite Hdom; set_solver).
    exists (g, 1). apply lookup_union_Some_l. cbn [t_open]. by rewrite lookup_fmap, Hg.
Qed.
End rules.

(** C17: Iterating over a B+ tree from [Begin] to [End], after any operations on a
    new tree (removals under the conditions of [TreeMapSpec.v]) and with as many free
    frames as the tree has keys, ends and gives every key of the map with its value,
    once and in ascending order.  Unless the tree is empty a page is pinned afterwards that was
    not pinned before: [operator++] unpins the page it moves to, not the one it
    leaves.  One round more than there were operations is enough. *)
Theorem scan_in_order {St D} `{PageStoreSpec St D} `{NodeLayoutSpec D} (s : St) (b : pstate D)
    (leaf_max internal_max : Z) (fuel : nat) (ops : list tree_op) :
  (∀ d, ps_ok d ↔ layout_ok d) → ps_rep s b →
  1 ≤ leaf_max < leaf_cells → 2 ≤ internal_max < internal_cells →
  (3 + size (ps_pinned b) ≤ ps_cap b)%nat → (size (final_map ∅ ops) + size (ps_pinned b) ≤ ps_cap b)%nat →
  Forall op_fits ops → Forall no_remove ops ∨ 2 ≤ leaf_max ∧ peak ∅ ops ≤ internal_max →
  (length ops < fuel)%nat → ps_next b + length ops * (length ops + 2) < INT32_MAX →
  wp (run_ops fuel ops;; scan fuel) (BPlusTree_new s leaf_max internal_max) (fun l t =>
    entries_of (final_map ∅ ops) l ∧
    (l ≠ [] → ∃ b' id, ps_rep (bpm_ t) b' ∧ ps_pinned b !! id = None ∧ is_Some (ps_pinned b' !! id))).
Proof.
  intros Hpages Hrep Hlm Him Hcap Hframes Hops Hcov Hfuel Hnext.
  assert (in_int32 leaf_max = true) by (apply in_int32_iff; unfold leaf_cells, INT32_MIN, INT32_MAX in *; lia).
  assert (in_int32 internal_max = true) by (apply in_int32_iff; unfold internal_cells, INT32_MIN, INT32_MAX in *; lia).
  apply wp_bind. eapply wp_mono; [eapply (run_ops_rep Hpages (ps_cap b) (ps_pinned b) leaf_max internal_max) with (h := 0%nat) (m := ∅) (next := ps_next b)|]; try done.
  - left. exists ∅. split; [|done]. apply new_tree_holds; [done|lia|lia].
  - destruct Hcov as [?|[? ?]]; [by left|right]. split_and!; [done|lia|done].
  - intros rs t (_ & h' & next' & Hend & Hh'). pose proof (final_map_size ops ∅) as Hsize. rewrite map_size_empty in Hsize.
    eapply (scan_rep Hpages _ _ leaf_max internal_max); [done|done|exact Hend|lia|lia|lia|lia].
Qed.

(** Six inserts and a removal, leaves of two keys, then the loop. *)
Definition scan_ops : list tree_op :=
  [OInsert 5 (mkRID 0 5); OInsert 1 (mkRID 0 1); OInsert 9 (mkRID 0 9); OInsert 7 (mkRID 0 7); OInsert 5 (mkRID 1 1); ORemove 1; OInsert 3 (mkRID 0 3)].

Example scan_in_order_witness :
  wp (run_ops 10 scan_ops;; scan 10) (BPlusTree_new tree_pool 2 4) (fun l _ => l.*1 = [3; 5; 7; 9]).
Proof.
  eapply wp_mono.
  - apply (scan_in_order tree_pool _ 2 4 10 scan_ops tree_pages tree_pool_rep); [done|done|apply Nat.leb_le; vm_compute; reflexivity..| | |cbn; lia|done].
    + repeat (constructor; [try done; by split_and!|]). constructor.
    + right. split; [done|]. apply Z.leb_le. vm_compute. reflexivity.
  - intros l t [Hl _]. set (entries := [(3, mkRID 0 3); (5, mkRID 0 5); (7, mkRID 0 7); (9, mkRID 0 9)]).
    apply (entries_keys _ l entries Hl). split; [repeat constructor|]. intros k v.
    replace (final_map ∅ scan_ops) with (list_to_map entries : gmap Z RID) by (vm_compute; reflexivity).
    apply elem_of_list_to_map, (bool_decide_unpack _). by vm_compute.
Defined.
