(* ===== verification/Expression.v ===== *)
(** * Expressions of query plans

    Models [src/include/onebase/execution/expressions/*.h].  An
    [AbstractExpressionRef] is a shared pointer: [nullptr] is one of its values,
    and to evaluate it is undefined behaviour.  [Evaluate] and [EvaluateJoin] of
    a class differ only in where a column is read, which is an argument of
    [evaluate].  Both operands are always evaluated, the left one first. *)
From S2P Require Import Prelude Value Tuple.

#[local] Open Scope Z_scope.

Inductive ComparisonType := Equal | NotEqual | LessThan | LessThanOrEqual | GreaterThan | GreaterThanOrEqual.
Inductive ArithmeticType := Plus | Minus | Times | Over | Mod.
Inductive LogicType := LogicAnd | LogicOr.

#[export] Instance ComparisonType_eq_dec : EqDecision ComparisonType.
Proof. solve_decision. Defined.
#[export] Instance ArithmeticType_eq_dec : EqDecision ArithmeticType.
Proof. solve_decision. Defined.
#[export] Instance LogicType_eq_dec : EqDecision LogicType.
Proof. solve_decision. Defined.

Inductive AbstractExpression :=
  | nullptr
  | ColumnValueExpression (tuple_idx : Z) (col_idx : nat) (ret_type : TypeId)
  | ConstantValueExpression (val : Value)
  | ComparisonExpression (lhs rhs : AbstractExpression) (comp_type : ComparisonType)
  | ArithmeticExpression (lhs rhs : AbstractExpression) (arith_type : ArithmeticType) (ret_type : TypeId)
  | LogicExpression (lhs rhs : AbstractExpression) (logic_type : LogicType).

#[export] Instance AbstractExpression_eq_dec : EqDecision AbstractExpression.
Proof. solve_decision. Defined.

(** [predicate != nullptr] *)
Definition is_null_expr (e : AbstractExpression) : bool := match e with nullptr => true | _ => false end.

Definition GetReturnType (e : AbstractExpression) : outcome TypeId :=
  match e with
  | nullptr => Undef
  | ColumnValueExpression _ _ ret_type => mret ret_type
  | ConstantValueExpression val => mret (type_id_ val)
  | ComparisonExpression _ _ _ | LogicExpression _ _ _ => mret BOOLEAN
  | ArithmeticExpression _ _ _ ret_type => mret ret_type
  end.

(** The constructor moves [left] into the children and tests it in the next
    argument; C++ does not fix which comes first. *)
Definition ArithmeticExpression_new (moved_first : bool) (lhs rhs : AbstractExpression) (arith_type : ArithmeticType) : outcome AbstractExpression :=
  if moved_first || is_null_expr lhs then mret (ArithmeticExpression lhs rhs arith_type INTEGER)
  else ret_type ← GetReturnType lhs; mret (ArithmeticExpression lhs rhs arith_type ret_type).

(** ** Evaluation *)
Definition PerformComparison (comp_type : ComparisonType) (lhs rhs : Value) : outcome Value :=
  match comp_type with
  | Equal => CompareEquals lhs rhs
  | NotEqual => CompareNotEquals lhs rhs
  | LessThan => CompareLessThan lhs rhs
  | LessThanOrEqual => CompareLessThanOrEqual lhs rhs
  | GreaterThan => CompareGreaterThan lhs rhs
  | GreaterThanOrEqual => CompareGreaterThanOrEqual lhs rhs
  end.

Definition PerformComputation (arith_type : ArithmeticType) (lhs rhs : Value) : outcome Value :=
  match arith_type with
  | Plus => Add lhs rhs
  | Minus => Subtract lhs rhs
  | Times => Multiply lhs rhs
  | Over => Divide lhs rhs
  | Mod => Modulo lhs rhs
  end.

Definition PerformLogic (logic_type : LogicType) (lhs rhs : Value) : outcome Value :=
  match logic_type with
  | LogicAnd => And lhs rhs
  | LogicOr => Or lhs rhs
  end.

(** [column tuple_idx col_idx] is what a column reference reads. *)
Fixpoint evaluate (column : Z → nat → outcome Value) (e : AbstractExpression) : outcome Value :=
  match e with
  | nullptr => Undef
  | ColumnValueExpression tuple_idx col_idx _ => column tuple_idx col_idx
  | ConstantValueExpression val => mret val
  | ComparisonExpression lhs rhs comp_type =>
    left ← evaluate column lhs; right ← evaluate column rhs; PerformComparison comp_type left right
  | ArithmeticExpression lhs rhs arith_type _ =>
    left ← evaluate column lhs; right ← evaluate column rhs; PerformComputation arith_type left right
  | LogicExpression lhs rhs logic_type =>
    left ← evaluate column lhs; right ← evaluate column rhs; PerformLogic logic_type left right
  end.

(** What a column reference reads in one tuple, and in the two tuples of a join. *)
Definition tuple_columns (tuple : Tuple) (schema : Schema) : Z → nat → outcome Value :=
  fun _ col_idx => GetValue_schema tuple schema col_idx.
Definition join_columns (left_tuple : Tuple) (left_schema : Schema) (right_tuple : Tuple) (right_schema : Schema) : Z → nat → outcome Value :=
  fun tuple_idx col_idx =>
    if bool_decide (tuple_idx = 0) then GetValue_schema left_tuple left_schema col_idx
    else GetValue_schema right_tuple right_schema col_idx.

Definition Evaluate (e : AbstractExpression) (tuple : Tuple) (schema : Schema) : outcome Value :=
  evaluate (tuple_columns tuple schema) e.
Definition EvaluateJoin (e : AbstractExpression) (left_tuple : Tuple) (left_schema : Schema)
    (right_tuple : Tuple) (right_schema : Schema) : outcome Value :=
  evaluate (join_columns left_tuple left_schema right_tuple right_schema) e.

(** A predicate that is absent holds. *)
Definition holds_predicate (e : AbstractExpression) (eval : AbstractExpression → outcome Value) : outcome bool :=
  if is_null_expr e then mret true else value ← eval e; GetAsBoolean value.

(** ** Types *)
Definition comparable (comp_type : ComparisonType) (t : TypeId) : bool :=
  match t with
  | INVALID => false
  | BOOLEAN => bool_decide (comp_type = Equal) || bool_decide (comp_type = NotEqual)
  | _ => true
  end.

Definition computable (arith_type : ArithmeticType) (t : TypeId) : bool :=
  match t with
  | INTEGER => true
  | FLOAT => negb (bool_decide (arith_type = Mod))
  | _ => false
  end.

(** The type of an expression over columns of the given types. *)
Fixpoint type_of (types : Z → nat → option TypeId) (e : AbstractExpression) : option TypeId :=
  match e with
  | nullptr => None
  | ColumnValueExpression tuple_idx col_idx _ => types tuple_idx col_idx
  | ConstantValueExpression val => Some (type_id_ val)
  | ComparisonExpression lhs rhs comp_type =>
    t ← type_of types lhs; t' ← type_of types rhs;
    if bool_decide (t = t') && comparable comp_type t then Some BOOLEAN else None
  | ArithmeticExpression lhs rhs arith_type _ =>
    t ← type_of types lhs; t' ← type_of types rhs;
    if bool_decide (t = t') && computable arith_type t then Some t else None
  | LogicExpression lhs rhs _ =>
    t ← type_of types lhs; t' ← type_of types rhs;
    if bool_decide (t = BOOLEAN) && bool_decide (t' = BOOLEAN) then Some BOOLEAN else None
  end.

Definition schema_types (schema : Schema) (col_idx : nat) : option TypeId := type_ <$> columns_ schema !! col_idx.

(** The tuple has a value of the right type for every column. *)
Definition tuple_typed (tuple : Tuple) (schema : Schema) : Prop :=
  ∀ i t, schema_types schema i = Some t → ∃ v, GetValue_schema tuple schema i = Ret v ∧ type_id_ v = t.

(** The result of an integer operation before it is stored; a remainder overflows
    when its quotient does. *)
Definition exact_result (arith_type : ArithmeticType) (a b : Z) : Z :=
  match arith_type with
  | Plus => a + b
  | Minus => a - b
  | Times => a * b
  | Over | Mod => Z.quot a b
  end.

Definition is_zero (v : Value) : bool :=
  match type_id_ v with
  | INTEGER => integer_ v =? 0
  | FLOAT => float_eq (float_ v) (float_ (mkValue FLOAT 0 "" false))
  | _ => false
  end.

(** The ways in which an operation on numbers of one type fails. *)
Inductive arith_fault (a b : Value) : ArithmeticType → outcome Value → Prop :=
  | division_by_zero : is_zero b = true → arith_fault a b Over (Throw (LogicError "Division by zero"))
  | modulo_by_zero : is_zero b = true → arith_fault a b Mod (Throw (LogicError "Modulo by zero"))
  | overflow op : type_id_ a = INTEGER → in_int32 (exact_result op (integer_ a) (integer_ b)) = false → arith_fault a b op Undef.

(** The first operation that is evaluated and fails, in evaluation order. *)
Inductive fails (column : Z → nat → outcome Value) : AbstractExpression → outcome Value → Prop :=
  | fails_here lhs rhs op t a b o :
    evaluate column lhs = Ret a → evaluate column rhs = Ret b → arith_fault a b op o →
    fails column (ArithmeticExpression lhs rhs op t) o
  | fails_arith_l lhs rhs op t o : fails column lhs o → fails column (ArithmeticExpression lhs rhs op t) o
  | fails_arith_r lhs rhs op t a o : evaluate column lhs = Ret a → fails column rhs o → fails column (ArithmeticExpression lhs rhs op t) o
  | fails_comp_l lhs rhs op o : fails column lhs o → fails column (ComparisonExpression lhs rhs op) o
  | fails_comp_r lhs rhs op a o : evaluate column lhs = Ret a → fails column rhs o → fails column (ComparisonExpression lhs rhs op) o
  | fails_logic_l lhs rhs op o : fails column lhs o → fails column (LogicExpression lhs rhs op) o
  | fails_logic_r lhs rhs op a o : evaluate column lhs = Ret a → fails column rhs o → fails column (LogicExpression lhs rhs op) o.

Lemma PerformComparison_typed op a b :
  type_id_ a = type_id_ b → comparable op (type_id_ a) = true → ∃ v, PerformComparison op a b = Ret v ∧ type_id_ v = BOOLEAN.
Proof.
  intros Ht Hc.
  destruct op; cbn [PerformComparison];
    unfold CompareEquals, CompareNotEquals, CompareLessThan, CompareLessThanOrEqual, CompareGreaterThan, CompareGreaterThanOrEqual, same_type;
    rewrite bool_decide_true by done; cbn [ONEBASE_ASSERT mbind outcome_bind]; destruct (type_id_ a); try done; by eexists.
Qed.

Lemma PerformLogic_typed op a b :
  type_id_ a = BOOLEAN → type_id_ b = BOOLEAN → ∃ v, PerformLogic op a b = Ret v ∧ type_id_ v = BOOLEAN.
Proof. intros Ha Hb. destruct op; cbn; unfold And, Or; rewrite Ha, Hb; by eexists. Qed.

(** [int32_op] stores a result or is an overflow. *)
Lemma int32_op_cases z : int32_op z = Ret z ∨ (in_int32 z = false ∧ int32_op z = Undef).
Proof. unfold int32_op. destruct (in_int32 z); auto. Qed.

(** A stored integer result, or an overflow. *)
Lemma int_result_typed op a b z :
  type_id_ a = INTEGER → z = exact_result op (integer_ a) (integer_ b) →
  (∃ v, (i ← int32_op z; mret (Value_int INTEGER i)) = Ret v ∧ type_id_ v = INTEGER) ∨
  arith_fault a b op (i ← int32_op z; mret (Value_int INTEGER i)).
Proof.
  intros Ha ->. destruct (int32_op_cases (exact_result op (integer_ a) (integer_ b))) as [->|[Ho ->]].
  - left. by eexists.
  - right. by constructor.
Qed.

Lemma PerformComputation_integer op a b :
  type_id_ a = INTEGER → type_id_ b = INTEGER →
  (∃ v, PerformComputation op a b = Ret v ∧ type_id_ v = INTEGER) ∨ arith_fault a b op (PerformComputation op a b).
Proof.
  intros Ha Hb.
  assert (same_type a b "Type mismatch in arithmetic" = Ret tt) as Hs by (unfold same_type; by rewrite Ha, Hb).
  destruct op; cbn [PerformComputation]; unfold Add, Subtract, Multiply, Divide, Modulo; rewrite Hs, Ha; cbn [mbind outcome_bind];
    try by apply int_result_typed.
  - destruct (integer_ b =? 0) eqn:Hz; cbn [negb ONEBASE_ASSERT mbind outcome_bind].
    + right. apply division_by_zero. unfold is_zero. by rewrite Hb.
    + by apply int_result_typed.
  - destruct (integer_ b =? 0) eqn:Hz; cbn [negb ONEBASE_ASSERT mbind outcome_bind].
    + right. apply modulo_by_zero. unfold is_zero. by rewrite Hb.
    + destruct (int32_op_cases (Z.quot (integer_ a) (integer_ b))) as [->|[Ho ->]]; [left; by eexists|right; by constructor].
Qed.

Lemma PerformComputation_float op a b :
  type_id_ a = FLOAT → type_id_ b = FLOAT → op ≠ Mod →
  (∃ v, PerformComputation op a b = Ret v ∧ type_id_ v = FLOAT) ∨ arith_fault a b op (PerformComputation op a b).
Proof.
  intros Ha Hb Hop.
  assert (same_type a b "Type mismatch in arithmetic" = Ret tt) as Hs by (unfold same_type; by rewrite Ha, Hb).
  destruct op; [..|done]; cbn [PerformComputation]; unfold Add, Subtract, Multiply, Divide; rewrite Hs, Ha; cbn [mbind outcome_bind];
    [left; by eexists..|].
  assert (is_zero b = float_eq (float_ b) (SpecFloat.S754_zero false)) as <- by (unfold is_zero; rewrite Hb; done).
  destruct (is_zero b) eqn:Hz; cbn [negb ONEBASE_ASSERT mbind outcome_bind].
  - right. by apply division_by_zero.
  - left. by eexists.
Qed.

Lemma PerformComputation_typed op a b :
  type_id_ a = type_id_ b → computable op (type_id_ a) = true →
  (∃ v, PerformComputation op a b = Ret v ∧ type_id_ v = type_id_ a) ∨ arith_fault a b op (PerformComputation op a b).
Proof.
  intros Ht Hc. destruct (type_id_ a) eqn:Ha; try done.
  - by apply PerformComputation_integer.
  - apply PerformComputation_float; [done..|]. by destruct op.
Qed.

(** A failure ends the evaluation. *)
Lemma fails_stops column e o (k : Value → outcome Value) : fails column e o → mbind k o = o.
Proof. induction 1 as [????????? []| | | | | |]; done. Qed.

Section soundness.
Context (column : Z → nat → outcome Value) (types : Z → nat → option TypeId).
Context (Hcolumn : ∀ k i t, types k i = Some t → ∃ v, column k i = Ret v ∧ type_id_ v = t).

Definition sound (e : AbstractExpression) (t : TypeId) : Prop :=
  (∃ v, evaluate column e = Ret v ∧ type_id_ v = t) ∨ fails column e (evaluate column e).

(** Two operands, in order. *)
Lemma operands_sound l r tl tr (perform : Value → Value → outcome Value) (P : outcome Value → Prop) :
  sound l tl → sound r tr →
  (∀ a b, evaluate column l = Ret a → type_id_ a = tl → evaluate column r = Ret b → type_id_ b = tr → P (perform a b)) →
  (fails column l (evaluate column l) → P (evaluate column l)) →
  (∀ a, evaluate column l = Ret a → fails column r (evaluate column r) → P (evaluate column r)) →
  P (left ← evaluate column l; right ← evaluate column r; perform left right).
Proof.
  intros [(a & Ha & Hta)|Hl] Hr Hboth Hleft Hright.
  - rewrite Ha. cbn [mbind outcome_bind]. destruct Hr as [(b & Hb & Htb)|Hr].
    + rewrite Hb. cbn [mbind outcome_bind]. by apply Hboth.
    + rewrite (fails_stops _ _ _ _ Hr). by eapply Hright.
  - rewrite (fails_stops _ _ _ _ Hl). by apply Hleft.
Qed.

Lemma evaluate_sound e : ∀ t, type_of types e = Some t → sound e t.
Proof.
  induction e as [|k i r|v|l IHl r IHr op|l IHl r IHr op rt|l IHl r IHr op]; intros t; cbn [type_of]; intros Ht; unfold sound; cbn [evaluate].
  - done.
  - left. by apply Hcolumn.
  - simplify_eq. left. by exists v.
  - apply bind_Some in Ht as (tl & Hl & (tr & Hr & Ht)%bind_Some). case_match eqn:Hc; [|done]. simplify_eq.
    apply andb_true_iff in Hc as [<-%bool_decide_eq_true Hc].
    eapply (operands_sound l r); [by apply IHl|by apply IHr| | |].
    + intros a b _ <- _ Hb. left. by apply PerformComparison_typed.
    + intros Hf. right. by apply fails_comp_l.
    + intros a Ha Hf. right. by eapply fails_comp_r.
  - apply bind_Some in Ht as (tl & Hl & (tr & Hr & Ht)%bind_Some). case_match eqn:Hc; [|done]. simplify_eq.
    apply andb_true_iff in Hc as [<-%bool_decide_eq_true Hc].
    eapply (operands_sound l r); [by apply IHl|by apply IHr| | |].
    + intros a b Ha <- Hb Htb. destruct (PerformComputation_typed op a b) as [Hv|Hf]; [done|done|by left|]. right. by eapply fails_here.
    + intros Hf. right. by apply fails_arith_l.
    + intros a Ha Hf. right. by eapply fails_arith_r.
  - apply bind_Some in Ht as (tl & Hl & (tr & Hr & Ht)%bind_Some). case_match eqn:Hc; [|done]. simplify_eq.
    apply andb_true_iff in Hc as [->%bool_decide_eq_true ->%bool_decide_eq_true].
    eapply (operands_sound l r); [by apply IHl|by apply IHr| | |].
    + intros a b _ Ha _ Hb. left. by apply PerformLogic_typed.
    + intros Hf. right. by apply fails_logic_l.
    + intros a Ha Hf. right. by eapply fails_logic_r.
Qed.
End soundness.

Definition join_types (left_schema right_schema : Schema) (tuple_idx : Z) : nat → option TypeId :=
  if bool_decide (tuple_idx = 0) then schema_types left_schema else schema_types right_schema.

(** C14: expressions are type safe.  An expression that has a type over the columns
    of a schema evaluates, on every tuple that fits the schema, to a value of that
    type; or the first arithmetic operation on the way fails, with the exception for
    a zero divisor or with the overflow of a 32-bit integer.  No assertion about
    types fails and no null pointer is followed.  The same holds for the columns of
    the two tuples of a join. *)
Theorem expression_type_safety e t tuple1 schema1 tuple2 schema2 :
  tuple_typed tuple1 schema1 → tuple_typed tuple2 schema2 →
  (type_of (fun _ => schema_types schema1) e = Some t →
    (∃ v, Evaluate e tuple1 schema1 = Ret v ∧ type_id_ v = t) ∨
    fails (tuple_columns tuple1 schema1) e (Evaluate e tuple1 schema1)) ∧
  (type_of (join_types schema1 schema2) e = Some t →
    (∃ v, EvaluateJoin e tuple1 schema1 tuple2 schema2 = Ret v ∧ type_id_ v = t) ∨
    fails (join_columns tuple1 schema1 tuple2 schema2) e (EvaluateJoin e tuple1 schema1 tuple2 schema2)).
Proof.
  intros H1 H2. split; intros Ht.
  - apply (evaluate_sound _ (fun _ => schema_types schema1)); [|done]. intros k i t' Hi. by apply H1.
  - apply (evaluate_sound _ (join_types schema1 schema2)); [|done]. intros k i t' Hi. unfold join_types, join_columns in *.
    case_bool_decide; [by apply H1|by apply H2].
Qed.

(** ** Tuples that are made of values *)
Lemma schema_types_new columns i : schema_types (Schema_new columns) i = type_ <$> columns !! i.
Proof.
  unfold Schema_new, schema_types. destruct (place_columns 0 columns) as [placed total] eqn:Hp. cbn [columns_].
  revert i placed total Hp. generalize 0. induction columns as [|c columns IH]; intros off i placed total; cbn [place_columns].
  - intros Hp. by simplify_eq.
  - destruct (place_columns _ columns) as [placed' total'] eqn:Hp'. intros Hp. simplify_eq.
    destruct i as [|i]; [by destruct c|]. exact (IH _ i _ _ Hp').
Qed.

Lemma Tuple_new_typed values columns tuple :
  Tuple_new values = Ret tuple → type_id_ <$> values = type_ <$> columns → tuple_typed tuple (Schema_new columns).
Proof.
  unfold Tuple_new. destruct (append_values [] values) as [data| | |]; [|done..]. intros [= <-] Ht i t.
  rewrite schema_types_new, <-list_lookup_fmap, <-Ht, list_lookup_fmap. intros (v & Hi & Hv)%fmap_Some.
  exists v. unfold GetValue_schema. cbn [values_]. by rewrite Hi.
Qed.

(** [WHERE a + 1 < b], on a row where [a] is the largest integer and on one where it is not. *)
Definition demo_schema : Schema := Schema_new [Column_new "a" INTEGER 0; Column_new "b" INTEGER 0].
Definition demo_row (a b : Z) : Tuple := mkTuple RID_default [] [Value_int INTEGER a; Value_int INTEGER b].
Definition demo_predicate : AbstractExpression :=
  ComparisonExpression (ArithmeticExpression (ColumnValueExpression 0 0 INTEGER) (ConstantValueExpression (Value_int INTEGER 1)) Plus INTEGER)
    (ColumnValueExpression 0 1 INTEGER) LessThan.

Lemma demo_row_typed a b : tuple_typed (demo_row a b) demo_schema.
Proof.
  intros i t. unfold demo_schema. rewrite schema_types_new. destruct i as [|[|i]]; cbn; intros Ht; simplify_eq; by eexists.
Qed.

Example expression_type_safety_witness :
  ((∃ v, Evaluate demo_predicate (demo_row 2 5) demo_schema = Ret v ∧ type_id_ v = BOOLEAN) ∨
   fails (tuple_columns (demo_row 2 5) demo_schema) demo_predicate (Evaluate demo_predicate (demo_row 2 5) demo_schema)) ∧
  Evaluate demo_predicate (demo_row 2147483647 5) demo_schema = Undef.
Proof.
  split; [|reflexivity].
  apply (expression_type_safety demo_predicate BOOLEAN (demo_row 2 5) demo_schema (demo_row 0 0) demo_schema (demo_row_typed 2 5) (demo_row_typed 0 0)).
  reflexivity.
Defined.
