(* ===== verification/Catalog.v ===== *)
(** * The catalog

    Models [src/include/onebase/catalog/catalog.h] and [src/catalog/catalog.cpp].
    A [TableInfo *] or [IndexInfo *] is the record that the catalog owns; the heap
    of a table is known by its first page, in the pool that the catalog points to.
    The maps are [std::unordered_map]s: code that walks over one takes the order
    as a parameter. *)
From coqutil Require Import Byte.
From S2P Require Import Prelude Interfaces Value Tuple TableHeap.

#[local] Open Scope Z_scope.
#[local] Coercion Z.of_nat : nat >-> Z.

Record TableInfo := mkTableInfo {
  schema_ : Schema;
  table_name : string;
  table_ : Z;
  table_oid : Z;
}.

Record IndexInfo := mkIndexInfo {
  key_schema_ : Schema;
  index_name : string;
  index_table_name : string;
  index_oid : Z;
  key_attrs_ : list nat;
  supports_point_lookup_ : bool;
  int_rid_map_ : gmap Z (list RID);
}.

Definition IndexInfo_new (key_schema : Schema) (name table : string) (oid : Z) (key_attrs : list nat) : IndexInfo :=
  mkIndexInfo key_schema name table oid key_attrs false ∅.
Definition SupportsPointLookup (i : IndexInfo) : bool := supports_point_lookup_ i.
Definition GetLookupAttr (i : IndexInfo) : outcome nat := deref (head (key_attrs_ i)).
Definition set_point_lookup (i : IndexInfo) : IndexInfo :=
  mkIndexInfo (key_schema_ i) (index_name i) (index_table_name i) (index_oid i) (key_attrs_ i) true (int_rid_map_ i).
Definition set_rid_map (m : gmap Z (list RID)) (i : IndexInfo) : IndexInfo :=
  mkIndexInfo (key_schema_ i) (index_name i) (index_table_name i) (index_oid i) (key_attrs_ i) (supports_point_lookup_ i) m.

(** [nullptr] is [None]. *)
Definition LookupInteger (key : Z) (i : IndexInfo) : option (list RID) := int_rid_map_ i !! key.
Definition InsertEntry (key : Z) (rid : RID) (i : IndexInfo) : IndexInfo :=
  set_rid_map (<[key := default [] (int_rid_map_ i !! key) ++ [rid]]> (int_rid_map_ i)) i.
Definition RemoveEntry (key : Z) (rid : RID) (i : IndexInfo) : IndexInfo :=
  match int_rid_map_ i !! key with
  | None => i
  | Some rids =>
    let rids := filter (.≠ rid) rids in
    set_rid_map (if bool_decide (rids = []) then delete key (int_rid_map_ i) else <[key := rids]> (int_rid_map_ i)) i
  end.

Record Catalog (St : Type) := mkCatalog {
  bpm_ : St;
  next_table_oid_ : Z;
  next_index_oid_ : Z;
  tables_ : gmap Z TableInfo;
  table_names_ : gmap string Z;
  indexes_ : gmap Z IndexInfo;
  index_names_ : gmap string (gmap string Z);
}.
Arguments mkCatalog {St}.
Arguments bpm_ {St}.
Arguments next_table_oid_ {St}.
Arguments next_index_oid_ {St}.
Arguments tables_ {St}.
Arguments table_names_ {St}.
Arguments indexes_ {St}.
Arguments index_names_ {St}.

(** The order in which a map from names is walked; it does not depend on the values. *)
Class NameOrder := {
  name_order {A} : gmap string A → list (string * A);
  name_order_perm {A} (m : gmap string A) : name_order m ≡ₚ map_to_list m;
  name_order_fmap {A B} (f : A → B) (m : gmap string A) : name_order (f <$> m) = prod_map id f <$> name_order m;
}.
#[export] Instance default_name_order : NameOrder | 100 := {
  name_order A := map_to_list;
  name_order_perm A m := reflexivity _;
  name_order_fmap A B := map_to_list_fmap;
}.

(** [map.at(key)] *)
Definition at_ {A} (o : option A) : outcome A :=
  match o with Some x => mret x | None => Throw (LogicError "unordered_map::at") end.

Section operations.
Context {St : Type} `{PageStore St (list byte)} `{IterOrder} `{NameOrder}.
Abbreviation catalog := (Catalog St).

Definition Catalog_new (bpm : St) : catalog := mkCatalog bpm 1 1 ∅ ∅ ∅ ∅.

Definition set_bpm (s : St) (c : catalog) : catalog :=
  mkCatalog s (next_table_oid_ c) (next_index_oid_ c) (tables_ c) (table_names_ c) (indexes_ c) (index_names_ c).
(** A call on a table heap. *)
Definition on_heap {A} (m : M St A) : M catalog A := zoom bpm_ set_bpm m.

(** [next_table_oid_++] and [next_index_oid_++] *)
Definition fresh_table_oid : M catalog Z :=
  oid ← gets next_table_oid_;
  modify (fun c => mkCatalog (bpm_ c) (wrapu 32 (oid + 1)) (next_index_oid_ c) (tables_ c) (table_names_ c) (indexes_ c) (index_names_ c));;
  mret oid.
Definition fresh_index_oid : M catalog Z :=
  oid ← gets next_index_oid_;
  modify (fun c => mkCatalog (bpm_ c) (next_table_oid_ c) (wrapu 32 (oid + 1)) (tables_ c) (table_names_ c) (indexes_ c) (index_names_ c));;
  mret oid.

Definition add_table (info : TableInfo) (c : catalog) : catalog :=
  mkCatalog (bpm_ c) (next_table_oid_ c) (next_index_oid_ c) (<[table_oid info := info]> (tables_ c))
    (<[table_name info := table_oid info]> (table_names_ c)) (indexes_ c) (index_names_ c).

(** [indexes_[oid] = info; index_names_[table_name][index_name] = oid] *)
Definition add_index (info : IndexInfo) (c : catalog) : catalog :=
  let table := index_table_name info in
  mkCatalog (bpm_ c) (next_table_oid_ c) (next_index_oid_ c) (tables_ c) (table_names_ c)
    (<[index_oid info := info]> (indexes_ c))
    (<[table := <[index_name info := index_oid info]> (default ∅ (index_names_ c !! table))]> (index_names_ c)).

Definition remove_index (index table : string) (oid : Z) (c : catalog) : catalog :=
  let names := delete index (default ∅ (index_names_ c !! table)) in
  mkCatalog (bpm_ c) (next_table_oid_ c) (next_index_oid_ c) (tables_ c) (table_names_ c) (delete oid (indexes_ c))
    (if bool_decide (names = ∅) then delete table (index_names_ c) else <[table := names]> (index_names_ c)).

Definition CreateTable (name : string) (schema : Schema) : M catalog (option TableInfo) :=
  known ← gets (fun c => bool_decide (is_Some (table_names_ c !! name)));
  if known : bool then mret None
  else
    table_oid ← fresh_table_oid;
    table_heap ← on_heap TableHeap_new;
    let table_info := mkTableInfo schema name table_heap table_oid in
    modify (add_table table_info);;
    mret (Some table_info).

Definition GetTable_name (name : string) (c : catalog) : outcome (option TableInfo) :=
  match table_names_ c !! name with
  | None => mret None
  | Some oid => info ← at_ (tables_ c !! oid); mret (Some info)
  end.

Definition GetTable (oid : Z) (c : catalog) : option TableInfo := tables_ c !! oid.

Definition GetAllTables (c : catalog) : list TableInfo := (iter_order (tables_ c)).*2.

Definition GetIndex_name (index table : string) (c : catalog) : outcome (option IndexInfo) :=
  match index_names_ c !! table with
  | None => mret None
  | Some names =>
    match names !! index with
    | None => mret None
    | Some oid => info ← at_ (indexes_ c !! oid); mret (Some info)
    end
  end.

Definition GetIndex (oid : Z) (c : catalog) : option IndexInfo := indexes_ c !! oid.

Fixpoint get_infos (names : list (string * Z)) (c : catalog) : outcome (list IndexInfo) :=
  match names with
  | [] => mret []
  | (_, oid) :: names' => info ← at_ (indexes_ c !! oid); rest ← get_infos names' c; mret (info :: rest)
  end.
Definition GetTableIndexes (table : string) (c : catalog) : outcome (list IndexInfo) :=
  match index_names_ c !! table with
  | None => mret []
  | Some names => get_infos (name_order names) c
  end.

Definition GetAllIndexes (c : catalog) : list IndexInfo := (iter_order (indexes_ c)).*2.

(** The columns of the key; [None] if an attribute is not a column. *)
Fixpoint key_columns (schema : Schema) (key_attrs : list nat) : outcome (option (list Column)) :=
  match key_attrs with
  | [] => mret (Some [])
  | attr :: key_attrs' =>
    if bool_decide (GetColumnCount schema ≤ attr) then mret None
    else
      column ← GetColumn schema attr;
      rest ← key_columns schema key_attrs';
      mret (fmap (M:=option) (cons column) rest)
  end.

(** The loop over the heap that fills the index. *)
Fixpoint fill_index (rounds fuel : nat) (schema : Schema) (attr : nat) (it : RID) (index_info : IndexInfo) : M catalog IndexInfo :=
  match rounds with
  | O => lift OutOfFuel
  | S rounds' =>
    if decide (it = End_rid) then mret index_info
    else
      tuple ← on_heap (GetTuple it);
      value ← lift (GetValue_schema tuple schema attr);
      key ← lift (GetAsInteger value);
      it' ← on_heap (increment fuel it);
      fill_index rounds' fuel schema attr it' (InsertEntry key it index_info)
  end.

Definition CreateIndex (rounds fuel : nat) (index table : string) (key_attrs : list nat) : M catalog (option IndexInfo) :=
  c ← gets id;
  table_info ← lift (GetTable_name table c);
  match table_info with
  | None => mret None
  | Some table_info =>
    if String.eqb index "" || bool_decide (key_attrs = []) then mret None
    else
      existing ← lift (GetIndex_name index table c);
      if existing is Some _ then mret None
      else
        columns ← lift (key_columns (schema_ table_info) key_attrs);
        match columns with
        | None => mret None
        | Some columns =>
          index_oid ← fresh_index_oid;
          let index_info := IndexInfo_new (Schema_new columns) index table index_oid key_attrs in
          attr ← lift (GetLookupAttr index_info);
          column ← lift (GetColumn (schema_ table_info) attr);
          index_info ← (if bool_decide (length key_attrs = 1%nat) && bool_decide (type_ column = INTEGER) then
              it ← on_heap (Begin fuel (table_ table_info));
              fill_index rounds fuel (schema_ table_info) attr it (set_point_lookup index_info)
            else mret index_info);
          modify (add_index index_info);;
          mret (Some index_info)
        end
  end.

Definition DropIndex (index table : string) : M catalog bool :=
  oid ← gets (fun c => index_names_ c !! table ≫= (.!! index));
  match oid with
  | None => mret false
  | Some oid => modify (remove_index index table oid);; mret true
  end.
End operations.
