(* ===== verification/CatalogSpec.v ===== *)
(** * The catalog as two finite maps

    The four hash maps of the catalog implement one map from names to tables and
    one from pairs of names to indexes; they stay consistent when an operation is
    left by an exception.  An index that is created over a table holds every row of
    it. *)
From coqutil Require Import Byte.
From S2P Require Import Prelude Interfaces DiskManager BufferPool BufferPoolSpec Value Tuple TableHeap HeapCursor Catalog.

#[local] Open Scope Z_scope.
#[local] Coercion Z.of_nat : nat >-> Z.

Section refinement.
Context {St : Type} `{PageStore St (list byte)} `{IterOrder} `{NameOrder}.
Implicit Types (c : Catalog St) (T : gmap string TableInfo) (I : gmap (string * string) IndexInfo).

(** [T] has the tables by name, [I] the indexes by index and table name. *)
Record catalog_rep c T I : Prop := {
  rep_table_names name : table_names_ c !! name = table_oid <$> T !! name;
  rep_tables oid info : tables_ c !! oid = Some info ↔ T !! table_name info = Some info ∧ table_oid info = oid;
  rep_table_name name info : T !! name = Some info → table_name info = name ∧ 0 < table_oid info < next_table_oid_ c;
  rep_index_names index table : index_names_ c !! table ≫= (.!! index) = index_oid <$> I !! (index, table);
  rep_indexes oid info : indexes_ c !! oid = Some info ↔ I !! (index_name info, index_table_name info) = Some info ∧ index_oid info = oid;
  rep_index_name index table info : I !! (index, table) = Some info →
    index_name info = index ∧ index_table_name info = table ∧ 0 < index_oid info < next_index_oid_ c;
  rep_next : 0 < next_table_oid_ c ∧ 0 < next_index_oid_ c;
}.

Lemma Catalog_new_rep bpm : catalog_rep (Catalog_new bpm) ∅ ∅.
Proof.
  split; cbn; intros; rewrite ?lookup_empty in *; try done.
  - split; [done|]. by intros [? _].
  - split; [done|]. by intros [? _].
Qed.

Lemma GetTable_name_rep c T I name : catalog_rep c T I → GetTable_name name c = Ret (T !! name).
Proof.
  intros Hrep. unfold GetTable_name. rewrite (rep_table_names _ _ _ Hrep). destruct (T !! name) as [info|] eqn:Hinfo; cbn; [|done].
  destruct (rep_table_name _ _ _ Hrep _ _ Hinfo) as [Hname _].
  assert (tables_ c !! table_oid info = Some info) as -> by (apply (rep_tables _ _ _ Hrep); by rewrite Hname).
  done.
Qed.

Lemma GetIndex_name_rep c T I index table : catalog_rep c T I → GetIndex_name index table c = Ret (I !! (index, table)).
Proof.
  intros Hrep. unfold GetIndex_name. pose proof (rep_index_names _ _ _ Hrep index table) as Hn.
  destruct (index_names_ c !! table) as [names|] eqn:Hnames; cbn in Hn;
    destruct (I !! (index, table)) as [info|] eqn:Hinfo; cbn in Hn; try done; rewrite Hn; [|done].
  destruct (rep_index_name _ _ _ Hrep _ _ _ Hinfo) as (R1 & R2 & _).
  assert (indexes_ c !! index_oid info = Some info) as -> by (apply (rep_indexes _ _ _ Hrep); by rewrite R1, R2).
  done.
Qed.

Lemma GetTable_rep c T I oid info :
  catalog_rep c T I → GetTable oid c = Some info ↔ T !! table_name info = Some info ∧ table_oid info = oid.
Proof. intros Hrep. apply (rep_tables _ _ _ Hrep). Qed.

(** Fields that the heaps do not touch. *)
Lemma catalog_rep_maps c c' T I :
  catalog_rep c T I → next_table_oid_ c ≤ next_table_oid_ c' → next_index_oid_ c ≤ next_index_oid_ c' →
  tables_ c' = tables_ c → table_names_ c' = table_names_ c → indexes_ c' = indexes_ c → index_names_ c' = index_names_ c →
  catalog_rep c' T I.
Proof.
  intros [R1 R2 R3 R4 R5 R6 [R7 R8]] Ht Hi E1 E2 E3 E4. split; rewrite ?E1, ?E2, ?E3, ?E4; try done.
  - intros name info Hn. destruct (R3 _ _ Hn). split; [done|lia].
  - intros index table info Hn. destruct (R6 _ _ _ Hn) as (? & ? & ?). split_and!; [done..| |]; lia.
  - lia.
Qed.

Lemma add_table_rep c T I info :
  catalog_rep c T I → T !! table_name info = None → 0 < table_oid info < next_table_oid_ c →
  (∀ name info', T !! name = Some info' → table_oid info' ≠ table_oid info) →
  catalog_rep (add_table info c) (<[table_name info := info]> T) I.
Proof.
  intros [R1 R2 R3 R4 R5 R6 R7] Hnew Hoid Hfresh. split; cbn; try done.
  - intros name. destruct (decide (name = table_name info)) as [->|Hne]; [by rewrite !lookup_insert_eq|].
    by rewrite !lookup_insert_ne by done.
  - intros oid info'. destruct (decide (oid = table_oid info)) as [->|Hne].
    + rewrite lookup_insert_eq. split; [intros [= <-]; by rewrite lookup_insert_eq|]. intros [[[_ <-]|[_ Hi]]%lookup_insert_Some Ho]; [done|].
      by apply Hfresh in Hi.
    + rewrite lookup_insert_ne by done. rewrite R2. split; intros [Hi Ho].
      * split; [|done]. destruct (decide (table_name info' = table_name info)) as [Heq|]; [congruence|]. by rewrite lookup_insert_ne by done.
      * apply lookup_insert_Some in Hi as [[_ <-]|[_ Hi]]; [done|]. by split.
  - intros name info' [[<- <-]|[_ Hi]]%lookup_insert_Some; [done|]. by apply R3.
Qed.

Lemma CreateTable_rep c T I name schema :
  catalog_rep c T I → next_table_oid_ c < UINT32_MAX →
  let '(o, c') := CreateTable name schema c in
  match T !! name with
  | Some _ => o = Ret None ∧ c' = c
  | None =>
    match o with
    | Ret r => ∃ info, r = Some info ∧ table_name info = name ∧ schema_ info = schema ∧ catalog_rep c' (<[name := info]> T) I
    | _ => catalog_rep c' T I
    end
  end.
Proof.
  intros Hrep Hmax. destruct (CreateTable name schema c) as [o c'] eqn:Hrun. unfold CreateTable in Hrun. m_unfold in Hrun.
  rewrite (rep_table_names _ _ _ Hrep) in Hrun. destruct (T !! name) as [old|] eqn:Hname; cbn [fmap option_fmap option_map] in Hrun.
  { rewrite bool_decide_true in Hrun by done. by simplify_eq. }
  rewrite bool_decide_false in Hrun by (by intros []). unfold fresh_table_oid, on_heap in Hrun. m_unfold in Hrun. cbn [bpm_] in Hrun.
  destruct (rep_next _ _ _ Hrep) as [Hpos _].
  assert (wrapu 32 (next_table_oid_ c + 1) = next_table_oid_ c + 1) as Hw by (apply wrapu_small; unfold UINT32_MAX in *; lia).
  destruct (TableHeap_new (bpm_ c)) as [[heap| | |] s'] eqn:Hheap; simplify_eq;
    try (eapply catalog_rep_maps; [exact Hrep|cbn; lia|done..]).
  eexists. split_and!; [done..|]. set (info := mkTableInfo schema name heap (next_table_oid_ c)). change name with (table_name info).
  apply add_table_rep; [|done|cbn; lia|].
  - eapply catalog_rep_maps; [exact Hrep|cbn; lia|done..].
  - intros name' info' Hi. destruct (rep_table_name _ _ _ Hrep _ _ Hi). cbn. lia.
Qed.

Lemma add_index_rep c T I info :
  let k := (index_name info, index_table_name info) in
  catalog_rep c T I → I !! k = None → 0 < index_oid info < next_index_oid_ c →
  (∀ k' info', I !! k' = Some info' → index_oid info' ≠ index_oid info) →
  catalog_rep (add_index info c) T (<[k := info]> I).
Proof.
  intros k [R1 R2 R3 R4 R5 R6 R7] Hnew Hoid Hfresh. split; cbn; try done.
  - intros index table. destruct (decide (table = index_table_name info)) as [->|Hne].
    + rewrite lookup_insert_eq. cbn. destruct (decide (index = index_name info)) as [->|Hi].
      * by rewrite !lookup_insert_eq.
      * rewrite !lookup_insert_ne by (unfold k; congruence). rewrite <-R4. by destruct (index_names_ c !! index_table_name info).
    + rewrite !lookup_insert_ne by (unfold k; congruence). apply R4.
  - intros oid info'. destruct (decide (oid = index_oid info)) as [->|Hne].
    + rewrite lookup_insert_eq. split; [intros [= <-]; by rewrite lookup_insert_eq|]. intros [[[_ <-]|[_ Hi]]%lookup_insert_Some Ho]; [done|].
      by apply Hfresh in Hi.
    + rewrite lookup_insert_ne by done. rewrite R5. split; intros [Hi Ho].
      * split; [|done]. destruct (decide ((index_name info', index_table_name info') = k)) as [Heq|]; [congruence|]. by rewrite lookup_insert_ne by done.
      * apply lookup_insert_Some in Hi as [[_ <-]|[_ Hi]]; [done|]. by split.
  - intros index table info' [[[= <- <-] <-]|[_ Hi]]%lookup_insert_Some; [done|]. by apply R6.
Qed.

Lemma remove_index_rep c T I index table info :
  catalog_rep c T I → I !! (index, table) = Some info →
  catalog_rep (remove_index index table (index_oid info) c) T (delete (index, table) I).
Proof.
  intros [R1 R2 R3 R4 R5 R6 R7] Hinfo. destruct (R6 _ _ _ Hinfo) as (Ni & Nt & _). split; cbn; try done.
  - intros index' table'. pose proof (R4 index' table') as R4'.
    destruct (decide (table' = table)) as [->|Hne].
    + assert ((if bool_decide (delete index (default ∅ (index_names_ c !! table)) = ∅) then delete table (index_names_ c)
               else <[table := delete index (default ∅ (index_names_ c !! table))]> (index_names_ c)) !! table ≫= (.!! index') =
              delete index (default ∅ (index_names_ c !! table)) !! index') as ->.
      { case_bool_decide as He; [by rewrite lookup_delete_eq, He|by rewrite lookup_insert_eq]. }
      destruct (decide (index' = index)) as [->|Hi]; [by rewrite !lookup_delete_eq|].
      rewrite !lookup_delete_ne by congruence. rewrite <-R4'. by destruct (index_names_ c !! table).
    + rewrite (lookup_delete_ne I) by congruence. rewrite <-R4'. case_bool_decide; [by rewrite lookup_delete_ne by done|by rewrite lookup_insert_ne by done].
  - intros oid info'. rewrite lookup_delete_Some, R5, lookup_delete_Some. split.
    + intros (Hne & Hi & Ho). split_and!; [|done|done]. intros [= -> ->]. congruence.
    + intros ((Hne & Hi) & Ho). split_and!; [|done|done]. intros Heq.
      assert (indexes_ c !! index_oid info' = Some info') as E1 by (by apply R5).
      assert (indexes_ c !! index_oid info = Some info) as E2 by (apply R5; by rewrite Ni, Nt). congruence.
  - intros index' table' info' [_ Hi]%lookup_delete_Some. by apply R6.
Qed.

(** Code that changes the pages of the tables only. *)
Definition heap_only {A} (m : M (Catalog St) A) : Prop := ∀ c, ∃ s, (m c).2 = set_bpm s c.

Lemma heap_only_ret {A} (a : A) : heap_only (mret a).
Proof. intros c. exists (bpm_ c). by destruct c. Qed.
Lemma heap_only_lift {A} (o : outcome A) : heap_only (lift o).
Proof. intros c. exists (bpm_ c). by destruct c. Qed.
Lemma heap_only_on_heap {A} (m : M St A) : heap_only (on_heap m).
Proof. intros c. unfold on_heap. m_unfold. destruct (m (bpm_ c)) as [o s]. by exists s. Qed.
Lemma heap_only_bind {A B} (m : M (Catalog St) A) (k : A → M (Catalog St) B) :
  heap_only m → (∀ a, heap_only (k a)) → heap_only (mbind k m).
Proof.
  intros Hm Hk c. unfold mbind, M_bind. destruct (Hm c) as [s Hs]. destruct (m c) as [[a| | |] c']; cbn in Hs; subst c'; try by exists s.
  destruct (Hk a (set_bpm s c)) as [s' ->]. by exists s'.
Qed.
Hint Resolve heap_only_ret heap_only_lift heap_only_on_heap heap_only_bind : onebase.

Lemma fill_index_heap_only rounds fuel schema attr : ∀ it info, heap_only (fill_index rounds fuel schema attr it info).
Proof. induction rounds as [|rounds IH]; intros it info; cbn [fill_index]; [auto with onebase|]. destruct (decide (it = End_rid)); auto 20 with onebase. Qed.

Lemma catalog_rep_heap c T I s : catalog_rep c T I → catalog_rep (set_bpm s c) T I.
Proof. intros Hrep. by eapply catalog_rep_maps. Qed.

(** The key columns of an index. *)
Definition is_column (schema : Schema) (attr : nat) : Prop := attr < GetColumnCount schema.

Lemma is_column_lookup schema attr : is_column schema attr → ∃ col, columns_ schema !! attr = Some col.
Proof.
  unfold is_column, GetColumnCount, wrapu. intros Ha. apply lookup_lt_is_Some_2.
  pose proof (Z.mod_le (length (columns_ schema)) (2 ^ 32)). lia.
Qed.

Lemma key_columns_spec schema attrs :
  (¬ Forall (is_column schema) attrs ∧ key_columns schema attrs = Ret None) ∨
  (Forall (is_column schema) attrs ∧ ∃ cols, key_columns schema attrs = Ret (Some cols)).
Proof.
  induction attrs as [|a attrs IH]; cbn [key_columns]; [right; split; [done|by eexists]|].
  case_bool_decide as Ha.
  { left. split; [|done]. intros [Hc _]%Forall_cons. unfold is_column in Hc. lia. }
  destruct (is_column_lookup schema a) as [col Hcol]; [unfold is_column; lia|]. unfold GetColumn. rewrite Hcol. cbn [deref mbind outcome_bind].
  destruct IH as [[Hn ->]|[Hall [cols ->]]]; cbn [mbind outcome_bind].
  - left. split; [|done]. by intros [_ ?]%Forall_cons.
  - right. split; [constructor; [unfold is_column; lia|done]|by eexists].
Qed.

(** When [CreateIndex] returns [nullptr]. *)
Definition refused T I (index table : string) (attrs : list nat) : Prop :=
  match T !! table with
  | None => True
  | Some info => index = "" ∨ attrs = [] ∨ is_Some (I !! (index, table)) ∨ ¬ Forall (is_column (schema_ info)) attrs
  end.

(** The part of [CreateIndex] after its checks. *)
Definition build_index (rounds fuel : nat) (info : TableInfo) (attrs : list nat) (index_info : IndexInfo) : M (Catalog St) IndexInfo :=
  attr ← lift (GetLookupAttr index_info);
  column ← lift (GetColumn (schema_ info) attr);
  if bool_decide (length attrs = 1%nat) && bool_decide (type_ column = INTEGER) then
    it ← on_heap (Begin fuel (table_ info));
    fill_index rounds fuel (schema_ info) attr it (set_point_lookup index_info)
  else mret index_info.

Lemma build_index_heap_only rounds fuel info attrs i : heap_only (build_index rounds fuel info attrs i).
Proof.
  unfold build_index. apply heap_only_bind; [auto with onebase|]. intros attr. apply heap_only_bind; [auto with onebase|]. intros col.
  case_match; [|auto with onebase]. apply heap_only_bind; [auto with onebase|]. intros it. apply fill_index_heap_only.
Qed.

Lemma fill_index_keeps rounds fuel schema attr : ∀ it info c info' c',
  fill_index rounds fuel schema attr it info c = (Ret info', c') → ∃ m, info' = set_rid_map m info.
Proof.
  induction rounds as [|rounds IH]; intros it info c info' c'; cbn [fill_index]; [done|]. destruct (decide (it = End_rid)).
  { intros [= <- <-]. exists (int_rid_map_ info). by destruct info. }
  unfold mbind, M_bind at 1. destruct (on_heap (GetTuple it) c) as [[t| | |] c1]; [|done..].
  unfold M_bind at 1, lift at 1. destruct (GetValue_schema t schema attr) as [v| | |]; [|done..].
  unfold M_bind at 1, lift at 1. destruct (GetAsInteger v) as [k| | |]; [|done..].
  unfold M_bind. destruct (on_heap (increment fuel it) c1) as [[it'| | |] c2]; [|done..].
  intros [m ->]%IH. by exists m.
Qed.

Lemma build_index_keeps rounds fuel info attrs i c i' c' :
  build_index rounds fuel info attrs i c = (Ret i', c') →
  index_name i' = index_name i ∧ index_table_name i' = index_table_name i ∧ index_oid i' = index_oid i.
Proof.
  unfold build_index, mbind, M_bind, lift. destruct (GetLookupAttr i); [|done..]. destruct (GetColumn (schema_ info) a); [|done..].
  case_match; [|by intros [= <- <-]]. destruct (on_heap (Begin fuel (table_ info)) c) as [[it| | |] c1]; [|done..].
  intros [m ->]%fill_index_keeps. done.
Qed.

(** [CreateIndex] is its checks, [build_index] and the entry in the maps. *)
Lemma CreateIndex_steps c T I rounds fuel index table attrs :
  catalog_rep c T I →
  (refused T I index table attrs ∧ CreateIndex rounds fuel index table attrs c = (Ret None, c)) ∨
  (¬ refused T I index table attrs ∧ ∃ info cols, T !! table = Some info ∧
    CreateIndex rounds fuel index table attrs c =
      (oid ← fresh_index_oid;
       index_info ← build_index rounds fuel info attrs (IndexInfo_new (Schema_new cols) index table oid attrs);
       modify (add_index index_info);; mret (Some index_info)) c).
Proof.
  intros Hrep. unfold CreateIndex, refused. rewrite bind_gets, (GetTable_name_rep _ _ _ _ Hrep), bind_lift_Ret.
  destruct (T !! table) as [info|]; [|by left].
  destruct (String.eqb_spec index "") as [Hi|Hi]; cbn [orb]; [by left; auto|].
  case_bool_decide as Ha; [by left; auto|]. cbn [id]. rewrite (GetIndex_name_rep _ _ _ _ _ Hrep), bind_lift_Ret.
  destruct (I !! (index, table)) as [old|]; [left; by eauto|].
  destruct (key_columns_spec (schema_ info) attrs) as [[Hn ->]|[Hall [cols ->]]]; rewrite bind_lift_Ret; [left; by auto|].
  right. split; [by intros [?|[?|[[]|?]]]|]. exists info, cols. split; [done|].
  apply bind_ext. intros oid c1. unfold build_index. rewrite bind_bind. apply bind_ext. intros attr c2.
  rewrite bind_bind. apply bind_ext. intros col c3. by case_match.
Qed.

Lemma CreateIndex_rep c T I rounds fuel index table attrs :
  catalog_rep c T I → next_index_oid_ c < UINT32_MAX →
  let '(o, c') := CreateIndex rounds fuel index table attrs c in
  (refused T I index table attrs ∧ o = Ret None ∧ c' = c) ∨
  (¬ refused T I index table attrs ∧
    match o with
    | Ret r => ∃ info, r = Some info ∧ index_name info = index ∧ index_table_name info = table ∧ catalog_rep c' T (<[(index, table) := info]> I)
    | _ => catalog_rep c' T I
    end).
Proof.
  intros Hrep Hmax. destruct (CreateIndex_steps c T I rounds fuel index table attrs Hrep) as [[Href ->]|(Hok & info & cols & Hinfo & ->)]; [by left|].
  set (steps := mbind _ _). destruct (steps c) as [o c'] eqn:Hrun. right. split; [done|]. subst steps.
  destruct (rep_next _ _ _ Hrep) as [_ Hpos].
  assert (wrapu 32 (next_index_oid_ c + 1) = next_index_oid_ c + 1) as Hw by (apply wrapu_small; unfold UINT32_MAX in *; lia).
  unfold fresh_index_oid in Hrun. unfold mbind, M_bind, gets, modify, mret, M_ret in Hrun. rewrite Hw in Hrun.
  set (c1 := mkCatalog _ _ _ _ _ _ _) in Hrun. set (i := IndexInfo_new _ _ _ _ _) in Hrun.
  assert (catalog_rep c1 T I) as Hrep1 by (eapply catalog_rep_maps; [exact Hrep|cbn; lia|cbn; lia|done..]).
  destruct (build_index_heap_only rounds fuel info attrs i c1) as [s Hs].
  destruct (build_index rounds fuel info attrs i c1) as [[i'| | |] c2] eqn:Hb; cbn in Hs; subst c2; simplify_eq;
    try by apply catalog_rep_heap.
  destruct (build_index_keeps _ _ _ _ _ _ _ _ Hb) as (En & Et & Eo). cbn in En, Et, Eo.
  eexists. split_and!; [done..|].
  assert ((index, table) = (index_name i', index_table_name i')) as -> by congruence.
  apply add_index_rep; [by apply catalog_rep_heap| | |].
  - rewrite En, Et. destruct (I !! (index, table)) eqn:E; [|done]. destruct Hok. unfold refused. rewrite Hinfo. eauto.
  - rewrite Eo. cbn. lia.
  - intros [index' table'] info' Hi. destruct (rep_index_name _ _ _ Hrep _ _ _ Hi) as (_ & _ & ?). rewrite Eo. cbn. lia.
Qed.

Lemma DropIndex_rep c T I index table :
  catalog_rep c T I →
  let '(o, c') := DropIndex index table c in
  o = Ret (bool_decide (is_Some (I !! (index, table)))) ∧ catalog_rep c' T (delete (index, table) I).
Proof.
  intros Hrep. unfold DropIndex. m_unfold. rewrite (rep_index_names _ _ _ Hrep).
  destruct (I !! (index, table)) as [info|] eqn:Hi; cbn [fmap option_fmap option_map].
  - rewrite bool_decide_true by done. split; [done|]. by apply remove_index_rep.
  - rewrite bool_decide_false by (by intros []). split; [done|]. by rewrite delete_id.
Qed.

(** The indexes of one table. *)
Lemma get_infos_spec c T I table names l :
  catalog_rep c T I → index_names_ c !! table = Some names → (∀ p, p ∈ l → names !! p.1 = Some p.2) →
  ∃ infos, get_infos l c = Ret infos ∧
    ∀ info, info ∈ infos ↔ index_table_name info = table ∧ (index_name info, index_oid info) ∈ l ∧ I !! (index_name info, table) = Some info.
Proof.
  intros Hrep Hnames. induction l as [|[index oid] l IH]; intros Hl; cbn [get_infos].
  { exists []. split; [done|]. set_solver. }
  destruct IH as (infos & -> & Hin); [set_solver|].
  assert (names !! index = Some oid) as Hoid by (apply (Hl (index, oid)); set_solver).
  pose proof (rep_index_names _ _ _ Hrep index table) as Hx. rewrite Hnames in Hx. cbn in Hx. rewrite Hoid in Hx.
  destruct (I !! (index, table)) as [info|] eqn:Hi; [|done]. cbn in Hx. simplify_eq.
  destruct (rep_index_name _ _ _ Hrep _ _ _ Hi) as (<- & <- & _).
  assert (indexes_ c !! index_oid info = Some info) as -> by by apply (rep_indexes _ _ _ Hrep).
  cbn. eexists. split; [done|]. intros info'. rewrite elem_of_cons, Hin, elem_of_cons. split.
  - intros [->|(? & ? & ?)]; auto.
  - intros (Ht & [[= E1 E2]|Hl'] & Hi'); [left|by right]. rewrite E1 in Hi'. congruence.
Qed.

Lemma GetTableIndexes_rep c T I table :
  catalog_rep c T I →
  ∃ infos, GetTableIndexes table c = Ret infos ∧ ∀ info, info ∈ infos ↔ I !! (index_name info, table) = Some info.
Proof.
  intros Hrep. unfold GetTableIndexes. destruct (index_names_ c !! table) as [names|] eqn:Hnames.
  - destruct (get_infos_spec c T I table names (name_order names) Hrep Hnames) as (infos & -> & Hin).
    { intros p. rewrite name_order_perm. destruct p as [i oid]. by rewrite elem_of_map_to_list. }
    exists infos. split; [done|]. intros info. rewrite Hin, name_order_perm, elem_of_map_to_list. split; [by intros (_ & _ & ?)|].
    intros Hi. destruct (rep_index_name _ _ _ Hrep _ _ _ Hi) as (_ & Ht & _). split_and!; [done| |done].
    pose proof (rep_index_names _ _ _ Hrep (index_name info) table) as Hx. rewrite Hnames, Hi in Hx. exact Hx.
  - exists []. split; [done|]. intros info. split; [set_solver|]. intros Hi.
    pose proof (rep_index_names _ _ _ Hrep (index_name info) table) as Hx. rewrite Hnames, Hi in Hx. done.
Qed.

(** C13: the catalog is one finite map from names to tables and one from pairs of
    names to indexes.  Every lookup, by name, by number, or of all indexes of a table,
    answers from these maps and never fails on an entry that is missing in another
    hash map; creating a table or an index that is there already, or an index without
    a name, without columns or on columns that the table does not have, returns
    [nullptr] and changes nothing; what is created is found; dropping an index removes
    it and nothing else.  An exception on the way out of an operation leaves the maps
    as they were. *)
Theorem catalog_refines_maps c T I :
  catalog_rep c T I → next_table_oid_ c < UINT32_MAX → next_index_oid_ c < UINT32_MAX →
  (∀ name, GetTable_name name c = Ret (T !! name)) ∧
  (∀ oid info, GetTable oid c = Some info ↔ T !! table_name info = Some info ∧ table_oid info = oid) ∧
  (∀ index table, GetIndex_name index table c = Ret (I !! (index, table))) ∧
  (∀ oid info, GetIndex oid c = Some info ↔ I !! (index_name info, index_table_name info) = Some info ∧ index_oid info = oid) ∧
  (∀ table, ∃ infos, GetTableIndexes table c = Ret infos ∧ ∀ info, info ∈ infos ↔ I !! (index_name info, table) = Some info) ∧
  (∀ name schema, let '(o, c') := CreateTable name schema c in
    match T !! name with
    | Some _ => o = Ret None ∧ c' = c
    | None =>
      match o with
      | Ret r => ∃ info, r = Some info ∧ table_name info = name ∧ schema_ info = schema ∧ catalog_rep c' (<[name := info]> T) I
      | _ => catalog_rep c' T I
      end
    end) ∧
  (∀ rounds fuel index table attrs, let '(o, c') := CreateIndex rounds fuel index table attrs c in
    (refused T I index table attrs ∧ o = Ret None ∧ c' = c) ∨
    (¬ refused T I index table attrs ∧
      match o with
      | Ret r => ∃ info, r = Some info ∧ index_name info = index ∧ index_table_name info = table ∧ catalog_rep c' T (<[(index, table) := info]> I)
      | _ => catalog_rep c' T I
      end)) ∧
  (∀ index table, let '(o, c') := DropIndex index table c in
    o = Ret (bool_decide (is_Some (I !! (index, table)))) ∧ catalog_rep c' T (delete (index, table) I)).
Proof.
  intros Hrep Ht Hi. split_and!; intros.
  - by eapply GetTable_name_rep.
  - by eapply GetTable_rep.
  - by eapply GetIndex_name_rep.
  - apply (rep_indexes _ _ _ Hrep).
  - by eapply GetTableIndexes_rep.
  - by apply CreateTable_rep.
  - by apply CreateIndex_rep.
  - by apply DropIndex_rep.
Qed.
End refinement.

(** ** The entries of a new index *)

(** The key of a row. *)
Definition row_key (schema : Schema) (attr : nat) (x : RID * list byte) : outcome Z :=
  v ← GetValue_schema (stored_tuple x) schema attr; GetAsInteger v.

(** The rows with a key, in heap order. *)
Definition rows_with_key (schema : Schema) (attr : nat) (key : Z) (rows : list (RID * list byte)) : list RID :=
  (filter (fun x => row_key schema attr x = Ret key) rows).*1.

Section completeness.
Context {St : Type} `{PageStoreSpec St (list byte)} `{IterOrder} `{NameOrder}.
Implicit Types (c : Catalog St) (a : pstate (list byte)).

(** The map has the rows [l] behind what it had before. *)
Definition extends (schema : Schema) (attr : nat) (l : list (RID * list byte)) (m m' : gmap Z (list RID)) : Prop :=
  ∀ key, m' !! key = match rows_with_key schema attr key l with
                     | [] => m !! key
                     | rids => Some (default [] (m !! key) ++ rids)
                     end.

Lemma extends_cons schema attr x l k m m' :
  row_key schema attr x = Ret k → extends schema attr l (<[k := default [] (m !! k) ++ [x.1]]> m) m' →
  extends schema attr (x :: l) m m'.
Proof.
  intros Hk He key. rewrite He. unfold rows_with_key. rewrite filter_cons, Hk. destruct (decide (k = key)) as [->|Hne].
  - rewrite decide_True by done. cbn [fmap list_fmap]. rewrite lookup_insert_eq. cbn [default from_option id].
    destruct ((filter _ l).*1); [done|]. by rewrite <-app_assoc.
  - rewrite decide_False by congruence. by rewrite lookup_insert_ne by done.
Qed.

Lemma on_heap_wp {A} (m : M St A) c (Q : A → Catalog St → Prop) :
  wp m (bpm_ c) (fun x s => Q x (set_bpm s c)) → wp (on_heap m) c Q.
Proof. apply wp_zoom. Qed.

Lemma fill_index_wp schema attr fuel a first h : readable fuel a first h → ∀ rounds l it i c,
  ps_rep (bpm_ c) a → cursor h l it → (length l < rounds)%nat →
  Forall (fun x => ∃ k, row_key schema attr x = Ret k) l →
  wp (fill_index rounds fuel schema attr it i) c (fun i' c' => ∃ s m, c' = set_bpm s c ∧ ps_rep s a ∧
    i' = set_rid_map m i ∧ extends schema attr l (int_rid_map_ i) m).
Proof.
  intros Hread. induction rounds as [|rounds IH]; intros l it i c Hrep Hcur Hlen Hrows; [lia|]. cbn [fill_index].
  pose proof (cursor_at_end fuel _ _ _ _ _ _ Hrep Hread Hcur) as Hend. destruct l as [|x l].
  { rewrite decide_True by by apply Hend. wp_step. exists (bpm_ c), (int_rid_map_ i). split_and!; [by destruct c|done|by destruct i|].
    intros key. done. }
  rewrite decide_False by (intros He; by apply Hend in He). apply Forall_cons in Hrows as [[k Hk] Hrows].
  wp_step. apply on_heap_wp. eapply wp_mono; [by eapply (cursor_deref fuel)|]. intros t s1 [-> Hrep1].
  unfold row_key in Hk. apply outcome_bind_Ret in Hk as (v & Hv & Hk).
  wp_step. rewrite Hv. wp_step. wp_step. rewrite Hk. wp_step.
  wp_step. apply on_heap_wp. eapply wp_mono; [by eapply (cursor_next fuel)|]. intros it' s2 [Hrep2 Hcur'].
  cbn in Hlen. eapply wp_mono; [apply (IH l it' (InsertEntry k it i) (set_bpm s2 (set_bpm s1 c))); [done|done|lia|done]|].
  intros i' c' (s & m & -> & Hrep' & -> & He). exists s, m. split_and!; [done|done|by destruct i|].
  destruct x as [rid bs], Hcur as (-> & _). eapply extends_cons; [|exact He]. unfold row_key. by rewrite Hv.
Qed.

Lemma build_index_wp c a h info i (attr : nat) col rounds fuel :
  ps_rep (bpm_ c) a → readable fuel a (table_ info) h → (length (live_pages h) < rounds)%nat →
  key_attrs_ i = [attr] → columns_ (schema_ info) !! attr = Some col → type_ col = INTEGER →
  Forall (fun x => ∃ k, row_key (schema_ info) attr x = Ret k) (live_pages h) →
  wp (build_index rounds fuel info [attr] i) c (fun i' c' => ∃ s m, c' = set_bpm s c ∧ ps_rep s a ∧
    i' = set_rid_map m (set_point_lookup i) ∧ extends (schema_ info) attr (live_pages h) (int_rid_map_ i) m).
Proof.
  intros Hps Hread Hrounds Hk Hcol Htype Hrows. unfold build_index, GetLookupAttr, GetColumn. rewrite Hk. cbn [head deref].
  wp_step. wp_step. rewrite Hcol. cbn [deref]. wp_step. wp_step. rewrite Htype. cbn [length]. rewrite !bool_decide_true by done. cbn [andb].
  wp_step. apply on_heap_wp. eapply wp_mono; [by apply (Begin_cursor fuel)|]. intros it s [Hps1 Hcur].
  eapply wp_mono; [by apply (fill_index_wp (schema_ info) attr fuel a _ h Hread rounds (live_pages h))|].
  intros i' c' (s' & m & -> & Hps' & -> & He). by exists s', m.
Qed.

(** The index that [CREATE INDEX] makes, and the catalog with it. *)
Lemma CreateIndex_builds c T I a h info index table (attr : nat) col rounds fuel :
  catalog_rep c T I → next_index_oid_ c < UINT32_MAX → ps_rep (bpm_ c) a →
  T !! table = Some info → readable fuel a (table_ info) h → (length (live_pages h) < rounds)%nat →
  index ≠ "" → I !! (index, table) = None → is_column (schema_ info) attr →
  columns_ (schema_ info) !! attr = Some col → type_ col = INTEGER →
  Forall (fun x => ∃ k, row_key (schema_ info) attr x = Ret k) (live_pages h) →
  wp (CreateIndex rounds fuel index table [attr]) c (fun o c' => ∃ i, o = Some i ∧
    SupportsPointLookup i = true ∧ key_attrs_ i = [attr] ∧ index_name i = index ∧ index_table_name i = table ∧
    (∀ key, LookupInteger key i = match rows_with_key (schema_ info) attr key (live_pages h) with [] => None | rids => Some rids end) ∧
    catalog_rep c' T (<[(index, table) := i]> I) ∧ ps_rep (bpm_ c') a).
Proof.
  intros Hrep Hmax Hps Hinfo Hread Hrounds Hi Hfresh Hattr Hcol Htype Hrows.
  pose proof (CreateIndex_rep c T I rounds fuel index table [attr] Hrep Hmax) as Hspec.
  assert (¬ refused T I index table [attr]) as Hok.
  { unfold refused. rewrite Hinfo, Hfresh. intros [?|[?|[[]|Hn]]]; try done. apply Hn. by constructor. }
  assert (∃ i c', CreateIndex rounds fuel index table [attr] c = (Ret (Some i), c') ∧ supports_point_lookup_ i = true ∧
    key_attrs_ i = [attr] ∧ extends (schema_ info) attr (live_pages h) ∅ (int_rid_map_ i) ∧ ps_rep (bpm_ c') a) as (i & c' & Hrun & Hs & Hk & He & Hps').
  { destruct (CreateIndex_steps c T I rounds fuel index table [attr] Hrep) as [[? _]|(_ & info' & cols & Hinfo' & ->)]; [done|].
    simplify_eq. unfold fresh_index_oid. rewrite bind_bind, bind_gets, bind_bind.
    erewrite (bind_Ret (modify _)) by reflexivity. erewrite (bind_Ret (mret _)) by reflexivity. set (c1 := mkCatalog _ _ _ _ _ _ _). set (i := IndexInfo_new (Schema_new cols) index table (next_index_oid_ c) [attr]).
    destruct (wp_elim _ _ _ (build_index_wp c1 a h info i attr col rounds fuel Hps Hread Hrounds eq_refl Hcol Htype Hrows))
      as (i' & c' & Hb & s & m & -> & Hps' & -> & He). cbv beta. rewrite (bind_Ret _ _ _ _ _ Hb). by do 2 eexists. }
  rewrite Hrun in Hspec. destruct Hspec as [[? _]|(_ & i' & [= <-] & Hn & Ht & Hrep')]; [done|].
  unfold wp. rewrite Hrun. exists i. split_and!; try done.
Qed.

(** C16: an index that [CREATE INDEX] makes on an integer column holds every row
    of the table: it answers a key with the identifiers of exactly the rows that
    have the key, in the order of the heap, and [nullptr] when there is none; it is
    found in the catalog by its name, and the pages of the table are left as they
    were. *)
Theorem CreateIndex_complete c T I a h info index table (attr : nat) col rounds fuel :
  catalog_rep c T I → next_index_oid_ c < UINT32_MAX → ps_rep (bpm_ c) a →
  T !! table = Some info → readable fuel a (table_ info) h → (length (live_pages h) < rounds)%nat →
  index ≠ "" → I !! (index, table) = None → is_column (schema_ info) attr →
  columns_ (schema_ info) !! attr = Some col → type_ col = INTEGER →
  Forall (fun x => ∃ k, row_key (schema_ info) attr x = Ret k) (live_pages h) →
  wp (CreateIndex rounds fuel index table [attr]) c (fun o c' => ∃ i, o = Some i ∧
    SupportsPointLookup i = true ∧ GetLookupAttr i = Ret attr ∧
    (∀ key, LookupInteger key i = match rows_with_key (schema_ info) attr key (live_pages h) with [] => None | rids => Some rids end) ∧
    GetIndex_name index table c' = Ret (Some i) ∧ GetIndex (index_oid i) c' = Some i ∧
    GetTable_name table c' = Ret (Some info) ∧ ps_rep (bpm_ c') a).
Proof.
  intros Hrep Hmax Hps Hinfo Hread Hrounds Hi Hfresh Hattr Hcol Htype Hrows.
  eapply wp_mono; [by eapply (CreateIndex_builds c T I a h info)|]. intros o c' (i & -> & Hs & Hk & Hn & Ht & Hlookup & Hrep' & Hps').
  exists i. split_and!; [done|done|unfold GetLookupAttr; by rewrite Hk|done| | | |done].
  - rewrite (GetIndex_name_rep _ _ _ _ _ Hrep'). by rewrite lookup_insert_eq.
  - apply (rep_indexes _ _ _ Hrep'). by rewrite Hn, Ht, lookup_insert_eq.
  - by rewrite (GetTable_name_rep _ _ _ _ Hrep'), Hinfo.
Qed.
End completeness.

(** ** A table with one row *)
Definition one_column : Schema := Schema_new [Column_new "x" INTEGER 0].
Definition row_seven : Tuple := mkTuple RID_default (LittleEndianList.le_split 4 7) [Value_int INTEGER 7].
Definition demo_catalog {St} (first : Z) (s : St) : Catalog St :=
  add_table (mkTableInfo one_column "t" first 1) (mkCatalog s 2 1 ∅ ∅ ∅ ∅).

Lemma demo_catalog_rep {St} first (s : St) :
  catalog_rep (demo_catalog first s) {["t" := mkTableInfo one_column "t" first 1]} ∅.
Proof.
  apply (add_table_rep _ ∅ ∅ (mkTableInfo one_column "t" first 1)); [|done|cbn; lia|].
  - eapply catalog_rep_maps; [apply (Catalog_new_rep s)|cbn; lia|done..].
  - intros name info'. by rewrite lookup_empty.
Qed.

Example catalog_refines_maps_witness :
  GetTable_name "t" (demo_catalog 0 heap_pool) = Ret (Some (mkTableInfo one_column "t" 0 1)) ∧
  GetTable_name "u" (demo_catalog 0 heap_pool) = Ret None.
Proof.
  pose proof (catalog_refines_maps _ _ _ (demo_catalog_rep 0 heap_pool) eq_refl eq_refl) as (Hlookup & _).
  split; rewrite Hlookup; reflexivity.
Defined.

(** The heap of the table, in a pool of two frames. *)
Lemma one_row_heap :
  wp (first ← TableHeap_new; os ← insert_all 2 first [row_seven]; mret first) heap_pool (fun first s => ∃ a h rid,
    ps_rep s a ∧ readable 4 a first h ∧ live_pages h = [(rid, data_ row_seven)] ∧ room 2 a ∧ ps_next a ≤ 2).
Proof.
  wp_step. eapply wp_mono; [apply (TableHeap_new_wp disk_pages _ _ heap_pool_rep); [by apply Nat.leb_le; vm_compute|by vm_compute]|].
  intros first s (-> & a & Hrep & Hheap & (Hc & Hp & Hu) & Hn & _). wp_step.
  eapply wp_mono; [apply (insert_all_wp disk_pages 2 _ [row_seven] s a [(ps_next heap_spec, [])]); try done|].
  - rewrite Hc. cbn. lia.
  - rewrite Hn. by vm_compute.
  - constructor; [|constructor]. split; [done|by vm_compute].
  - intros os s' (rids & a' & h' & -> & Hrep' & Hheap' & Hp' & Hc' & Hlen & Hlive & Hrids & Hn'). wp_step.
    destruct rids as [|rid [|]]; try done. cbn in Hlive. exists a', h', rid. split_and!; [done| |by apply Permutation_singleton_r| |].
    2: { unfold room. rewrite Hp', Hc', Hc, map_size_empty. by apply Nat.leb_le. }
    2: { rewrite Hn in Hn'. cbn in Hn'. lia. }
    split; [done| | |cbn in Hlen; lia].
    + apply Forall_forall. intros x _. unfold idle. rewrite Hp'. apply lookup_empty.
    + unfold room. rewrite Hp', Hc', Hc, map_size_empty. cbn. lia.
Qed.

Example CreateIndex_complete_witness :
  wp (first ← TableHeap_new; os ← insert_all 2 first [row_seven]; mret first) heap_pool (fun first s => ∃ rid,
    wp (CreateIndex 2 4 "i" "t" [0%nat]) (demo_catalog first s) (fun o _ => ∃ i, o = Some i ∧
      LookupInteger 7 i = Some [rid] ∧ LookupInteger 8 i = None)).
Proof.
  eapply wp_mono; [exact one_row_heap|]. intros first s (a & h & rid & Hrep & Hread & Hlive & _). exists rid.
  eapply wp_mono; [eapply (CreateIndex_complete (demo_catalog first s) _ ∅ a h _ "i" "t" 0 _ 2 4 (demo_catalog_rep first s))|];
    rewrite ?Hlive; try done.
  - cbn. lia.
  - constructor; [|constructor]. by exists 7.
  - intros o c' (i & -> & _ & _ & Hlookup & _). exists i. split; [done|]. rewrite !Hlookup. split; reflexivity.
Defined.
