(* ===== verification/Plan.v ===== *)
(** * Query plans

    Models [src/include/onebase/execution/plans/*.h].  An [AbstractPlanNodeRef] is
    a shared pointer; the binder leaves it null for a source that it does not know.
    A plan is a tree that is read and rebuilt, never shared while it changes, so
    [SetChildAt] returns the plan with the new child. *)
From S2P Require Import Prelude Value Tuple Expression.

#[local] Open Scope Z_scope.

Inductive PlanType := SEQ_SCAN | INDEX_SCAN | INSERT | DELETE | UPDATE | NESTED_LOOP_JOIN | HASH_JOIN | AGGREGATION | SORT | LIMIT
  | PROJECTION | UTILITY.
Inductive AggregationType := CountStarAggregate | CountAggregate | SumAggregate | MinAggregate | MaxAggregate.

#[export] Instance AggregationType_eq_dec : EqDecision AggregationType.
Proof. solve_decision. Defined.
Inductive UtilityType := CREATE_INDEX | DROP_INDEX | SHOW_TABLES | SHOW_INDEXES | SHOW_SCHEMA.

#[export] Instance PlanType_eq_dec : EqDecision PlanType.
Proof. solve_decision. Defined.

Inductive AbstractPlanNode :=
  | null_plan
  | SeqScanPlanNode (output_schema : Schema) (table_oid : Z) (predicate : AbstractExpression)
  | IndexScanPlanNode (output_schema : Schema) (table_oid index_oid : Z) (lookup_key predicate : AbstractExpression)
  | InsertPlanNode (output_schema : Schema) (child : AbstractPlanNode) (table_oid : Z)
  | DeletePlanNode (output_schema : Schema) (child : AbstractPlanNode) (table_oid : Z)
  | UpdatePlanNode (output_schema : Schema) (child : AbstractPlanNode) (table_oid : Z) (update_exprs : list AbstractExpression)
  | NestedLoopJoinPlanNode (output_schema : Schema) (left_plan right_plan : AbstractPlanNode) (predicate : AbstractExpression)
  | HashJoinPlanNode (output_schema : Schema) (left_plan right_plan : AbstractPlanNode) (left_key_expr right_key_expr : AbstractExpression)
  | AggregationPlanNode (output_schema : Schema) (child : AbstractPlanNode) (group_bys aggregates : list AbstractExpression)
      (agg_types : list AggregationType)
  | SortPlanNode (output_schema : Schema) (child : AbstractPlanNode) (order_bys : list (bool * AbstractExpression))
  | LimitPlanNode (output_schema : Schema) (child : AbstractPlanNode) (limit : Z)
  | ProjectionPlanNode (output_schema : Schema) (child : AbstractPlanNode) (expressions : list AbstractExpression)
  | UtilityPlanNode (output_schema : Schema) (utility_type : UtilityType) (table_name index_name : string) (key_attrs : list nat)
      (object_names : list string) (missing_ok : bool).

Definition GetType (p : AbstractPlanNode) : outcome PlanType :=
  match p with
  | null_plan => Undef
  | SeqScanPlanNode _ _ _ => mret SEQ_SCAN
  | IndexScanPlanNode _ _ _ _ _ => mret INDEX_SCAN
  | InsertPlanNode _ _ _ => mret INSERT
  | DeletePlanNode _ _ _ => mret DELETE
  | UpdatePlanNode _ _ _ _ => mret UPDATE
  | NestedLoopJoinPlanNode _ _ _ _ => mret NESTED_LOOP_JOIN
  | HashJoinPlanNode _ _ _ _ _ => mret HASH_JOIN
  | AggregationPlanNode _ _ _ _ _ => mret AGGREGATION
  | SortPlanNode _ _ _ => mret SORT
  | LimitPlanNode _ _ _ => mret LIMIT
  | ProjectionPlanNode _ _ _ => mret PROJECTION
  | UtilityPlanNode _ _ _ _ _ _ _ => mret UTILITY
  end.

Definition plan_schema (p : AbstractPlanNode) : Schema :=
  match p with
  | null_plan => mkSchema [] 0
  | SeqScanPlanNode s _ _ | IndexScanPlanNode s _ _ _ _ | InsertPlanNode s _ _ | DeletePlanNode s _ _ | UpdatePlanNode s _ _ _
  | NestedLoopJoinPlanNode s _ _ _ | HashJoinPlanNode s _ _ _ _ | AggregationPlanNode s _ _ _ _ | SortPlanNode s _ _
  | LimitPlanNode s _ _ | ProjectionPlanNode s _ _ | UtilityPlanNode s _ _ _ _ _ _ => s
  end.

Definition GetChildren (p : AbstractPlanNode) : list AbstractPlanNode :=
  match p with
  | InsertPlanNode _ child _ | DeletePlanNode _ child _ | UpdatePlanNode _ child _ _ | AggregationPlanNode _ child _ _ _
  | SortPlanNode _ child _ | LimitPlanNode _ child _ | ProjectionPlanNode _ child _ => [child]
  | NestedLoopJoinPlanNode _ left_plan right_plan _ | HashJoinPlanNode _ left_plan right_plan _ _ => [left_plan; right_plan]
  | _ => []
  end.

(** [children_[idx] = child] for an index that is in range. *)
Definition SetChildAt (idx : nat) (c : AbstractPlanNode) (p : AbstractPlanNode) : AbstractPlanNode :=
  match p, idx with
  | InsertPlanNode s _ t, O => InsertPlanNode s c t
  | DeletePlanNode s _ t, O => DeletePlanNode s c t
  | UpdatePlanNode s _ t e, O => UpdatePlanNode s c t e
  | AggregationPlanNode s _ g a t, O => AggregationPlanNode s c g a t
  | SortPlanNode s _ o, O => SortPlanNode s c o
  | LimitPlanNode s _ l, O => LimitPlanNode s c l
  | ProjectionPlanNode s _ e, O => ProjectionPlanNode s c e
  | NestedLoopJoinPlanNode s _ r e, O => NestedLoopJoinPlanNode s c r e
  | NestedLoopJoinPlanNode s l _ e, S O => NestedLoopJoinPlanNode s l c e
  | HashJoinPlanNode s _ r e f, O => HashJoinPlanNode s c r e f
  | HashJoinPlanNode s l _ e f, S O => HashJoinPlanNode s l c e f
  | _, _ => p
  end.
