(* ===== verification/Executor.v ===== *)
(** * Executors

    Models [src/execution/executors/*.cpp] and [executor_factory.cpp].  An executor
    is an object behind the interface [AbstractExecutor]: its state is hidden, its
    methods act on the catalog of the executor context and on the state.  [Next]
    has the two objects that its pointers refer to as argument and returns them as
    it leaves them: most executors do not write the record identifier.  Loops that
    pull rows take a number of rounds. *)
From Stdlib Require Import Sorting.Sorted.
From coqutil Require Import Byte.
From S2P Require Import Prelude Interfaces Value Tuple TableHeap Catalog Expression Plan.

#[local] Open Scope Z_scope.
#[local] Coercion Z.of_nat : nat >-> Z.

(** [std::sort] with a comparator that may throw: a sorted permutation when the
    comparator is a strict weak order on the elements; which of the equal elements
    comes first is not specified. *)
Class SortAlgorithm := {
  std_sort {A} : (A → A → outcome bool) → list A → outcome (list A);
  std_sort_spec {A} (less : A → A → outcome bool) (lt : A → A → bool) (l : list A) :
    (∀ x y, x ∈ l → y ∈ l → less x y = Ret (lt x y)) →
    (∀ x, x ∈ l → lt x x = false) →
    (∀ x y z, x ∈ l → y ∈ l → z ∈ l → lt x y = true → lt y z = true → lt x z = true) →
    (∀ x y z, x ∈ l → y ∈ l → z ∈ l → lt x y = false → lt y z = false → lt x z = false) →
    ∃ l', std_sort less l = Ret l' ∧ l' ≡ₚ l ∧ StronglySorted (fun x y => lt y x = false) l';
}.

(** Insertion sort is one. *)
Section insertion_sort.
Context {A : Type} (less : A → A → outcome bool).

Fixpoint insert_sorted (x : A) (l : list A) : outcome (list A) :=
  match l with
  | [] => mret [x]
  | y :: l' => b ← less x y; if b : bool then mret (x :: y :: l') else r ← insert_sorted x l'; mret (y :: r)
  end.
Fixpoint insertion_sort (l : list A) : outcome (list A) :=
  match l with
  | [] => mret []
  | x :: l' => s ← insertion_sort l'; insert_sorted x s
  end.

Context (lt : A → A → bool) (P : A → Prop).
Context (Hless : ∀ x y, P x → P y → less x y = Ret (lt x y)) (Hirr : ∀ x, P x → lt x x = false).
Context (Htrans : ∀ x y z, P x → P y → P z → lt x y = true → lt y z = true → lt x z = true).
Context (Hneg : ∀ x y z, P x → P y → P z → lt x y = false → lt y z = false → lt x z = false).
Abbreviation sorted := (StronglySorted (fun x y => lt y x = false)).

Lemma lt_asym x y : P x → P y → lt x y = true → lt y x = false.
Proof using Hirr Htrans.
  intros Hx Hy Hxy. destruct (lt y x) eqn:Hyx; [|done]. pose proof (Htrans x y x Hx Hy Hx Hxy Hyx). by rewrite Hirr in H.
Qed.

Lemma insert_sorted_spec x l : P x → Forall P l → sorted l → ∃ l', insert_sorted x l = Ret l' ∧ l' ≡ₚ x :: l ∧ sorted l'.
Proof using All.
  intros Hx. induction l as [|y l IH]; intros Hl Hs; cbn.
  { exists [x]. split_and!; [done|done|]. by repeat constructor. }
  apply Forall_cons in Hl as [Hy Hl]. inversion Hs as [|? ? Hs' Hall]; subst. rewrite Hless by done. cbn.
  destruct (lt x y) eqn:Hxy.
  - exists (x :: y :: l). split_and!; [done|done|]. constructor; [done|]. constructor; [by apply lt_asym|].
    rewrite Forall_forall in Hl, Hall |- *. intros z Hz. eapply (Hneg z y x); auto. by apply lt_asym.
  - destruct (IH Hl Hs') as (l' & -> & Hp & Hs1). exists (y :: l'). split_and!; [done|by rewrite Hp, Permutation_swap|].
    constructor; [done|]. rewrite Hp. by constructor.
Qed.

Lemma insertion_sort_spec l : Forall P l → ∃ l', insertion_sort l = Ret l' ∧ l' ≡ₚ l ∧ sorted l'.
Proof using All.
  induction l as [|x l IH]; intros Hl; cbn; [exists []; split_and!; [done|done|constructor]|].
  apply Forall_cons in Hl as [Hx Hl]. destruct (IH Hl) as (s & -> & Hp & Hs). cbn.
  destruct (insert_sorted_spec x s Hx) as (l' & -> & Hp' & Hs'); [by rewrite Hp|done|]. exists l'. split_and!; [done|by rewrite Hp', Hp|done].
Qed.
End insertion_sort.

#[export] Instance default_sort : SortAlgorithm | 100 := {
  std_sort A := insertion_sort;
  std_sort_spec A less lt l H1 H2 H3 H4 := insertion_sort_spec less lt (.∈ l) H1 H2 H3 H4 l (proj2 (Forall_forall _ _) (fun x Hx => Hx));
}.

(** The objects that [tuple] and [rid] point to. *)
Definition row : Type := Tuple * RID.

Section operations.
Context {St : Type} `{PageStore St (list byte)} `{IterOrder} `{NameOrder} `{FloatFormat} `{SortAlgorithm}.
Context (rounds fuel : nat).
Abbreviation catalog := (Catalog St).

Record AbstractExecutor := mkExecutor {
  ex_state : Type;
  ex_start : ex_state;
  Init : M (catalog * ex_state) unit;
  Next : row → M (catalog * ex_state) (bool * row);
  GetOutputSchema : Schema;
}.

(** ** Access to parts of the state *)
Definition on_catalog {X A} (m : M catalog A) : M (catalog * X) A := zoom fst (fun c s => (c, s.2)) m.
Definition get {X} : M (catalog * X) X := gets snd.
Definition put {X} (x : X) : M (catalog * X) unit := modify (fun s => (s.1, x)).
(** A call on the child of an executor whose own state is [Y]. *)
Definition on_child {X Y A} (m : M (catalog * X) A) : M (catalog * (X * Y)) A :=
  zoom (fun s => (s.1, s.2.1)) (fun t s => (t.1, (t.2, s.2.2))) m.
Definition on_own {X Y A} (m : M (catalog * Y) A) : M (catalog * (X * Y)) A :=
  zoom (fun s => (s.1, s.2.2)) (fun t s => (t.1, (s.2.1, t.2))) m.

(** [while (child->Next(&tuple, &rid)) body] *)
Fixpoint for_each {S A} (n : nat) (next : row → M S (bool * row)) (body : row → A → M S A) (out : row) (acc : A) : M S A :=
  match n with
  | O => lift OutOfFuel
  | S n' =>
    r ← next out;
    if r.1 : bool then acc' ← body r.2 acc; for_each n' next body r.2 acc' else mret acc
  end.

(** [tuple.GetValue(&schema, i)] for all columns from [i] on. *)
Fixpoint values_from (n i : nat) (tuple : Tuple) (schema : Schema) : outcome (list Value) :=
  match n with
  | O => mret []
  | S n' => v ← GetValue_schema tuple schema i; vs ← values_from n' (S i) tuple schema; mret (v :: vs)
  end.
Definition tuple_values (tuple : Tuple) (schema : Schema) : outcome (list Value) :=
  values_from (Z.to_nat (GetColumnCount schema)) 0 tuple schema.

Fixpoint evaluate_all (exprs : list AbstractExpression) (tuple : Tuple) (schema : Schema) : outcome (list Value) :=
  match exprs with
  | [] => mret []
  | expr :: exprs' => v ← Evaluate expr tuple schema; vs ← evaluate_all exprs' tuple schema; mret (v :: vs)
  end.

(** A row with the columns of the output schema and an identifier. *)
Definition populate (tuple : Tuple) (schema : Schema) (rid : RID) : outcome Tuple :=
  values ← tuple_values tuple schema;
  populated ← Tuple_new values;
  mret (SetRID rid populated).

(** A row for the pair of a join. *)
Definition combine (left_tuple : Tuple) (left_schema : Schema) (right_tuple : Tuple) (right_schema : Schema) : outcome Tuple :=
  left_values ← tuple_values left_tuple left_schema;
  right_values ← tuple_values right_tuple right_schema;
  Tuple_new (left_values ++ right_values).

(** [if (cursor_ >= result_tuples_.size()) return false; *tuple = result_tuples_[cursor_++]] *)
Definition next_result (out : row) : M (catalog * (list Tuple * nat)) (bool * row) :=
  s ← get;
  let '(result_tuples, cursor) := s in
  match result_tuples !! cursor with
  | None => mret (false, out)
  | Some tuple => put (result_tuples, S cursor);; mret (true, (tuple, out.2))
  end.

(** ** Scans *)
Definition get_table {X} (table_oid : Z) : M (catalog * X) TableInfo :=
  table_info ← on_catalog (gets (GetTable table_oid)); lift (deref table_info).

Fixpoint seq_scan_next (n : nat) (table_info : option TableInfo) (schema : Schema) (predicate : AbstractExpression) (out : row) :
    M (catalog * (option TableInfo * RID)) (bool * row) :=
  match n with
  | O => lift OutOfFuel
  | S n' =>
    s ← get;
    let iter := s.2 in
    if decide (iter = End_rid) then mret (false, out)
    else
      tuple ← on_catalog (on_heap (GetTuple iter));
      let rid := rid_ tuple in
      iter' ← on_catalog (on_heap (increment fuel iter));
      put (table_info, iter');;
      keep ← lift (holds_predicate predicate (fun e => Evaluate e tuple schema));
      if keep : bool then
        populated ← lift (populate tuple schema rid);
        mret (true, (populated, rid))
      else seq_scan_next n' table_info schema predicate (tuple, rid)
  end.

Definition SeqScanExecutor (schema : Schema) (table_oid : Z) (predicate : AbstractExpression) : AbstractExecutor := {|
  ex_state := option TableInfo * RID;
  ex_start := (None, End_rid);
  Init :=
    table_info ← on_catalog (gets (GetTable table_oid));
    s ← get;
    put (table_info, s.2);;
    info ← lift (deref table_info);
    iter ← on_catalog (on_heap (Begin fuel (table_ info)));
    put (table_info, iter);
  Next out := s ← get; seq_scan_next rounds s.1 schema predicate out;
  GetOutputSchema := schema;
|}.

Fixpoint index_scan_next (n : nat) (heap : option TableInfo) (schema : Schema) (predicate : AbstractExpression) (out : row) :
    M (catalog * (list RID * nat)) (bool * row) :=
  match n with
  | O => lift OutOfFuel
  | S n' =>
    s ← get;
    let '(rids, cursor) := s in
    match rids !! cursor with
    | None => mret (false, out)
    | Some current_rid =>
      put (rids, S cursor);;
      lift (deref heap);;
      child_tuple ← on_catalog (on_heap (GetTuple current_rid));
      keep ← lift (holds_predicate predicate (fun e => Evaluate e child_tuple schema));
      if keep : bool then
        populated ← lift (populate child_tuple schema current_rid);
        mret (true, (populated, current_rid))
      else index_scan_next n' heap schema predicate out
    end
  end.

Definition IndexScanExecutor (schema : Schema) (table_oid index_oid : Z) (lookup_key predicate : AbstractExpression) : AbstractExecutor := {|
  ex_state := list RID * nat;
  ex_start := ([], 0%nat);
  Init :=
    index_info ← on_catalog (gets (GetIndex index_oid));
    put ([], 0%nat);;
    match index_info with
    | None => mret tt
    | Some index_info =>
      if negb (SupportsPointLookup index_info) then mret tt
      else
        match lookup_key with
        | ConstantValueExpression val =>
          key ← lift (GetAsInteger val);
          match LookupInteger key index_info with
          | None => mret tt
          | Some found_rids => put (found_rids, 0%nat)
          end
        | _ => mret tt
        end
    end;
  Next out :=
    table_info ← on_catalog (gets (GetTable table_oid));
    s ← get;
    index_scan_next (S (length s.1)) table_info schema predicate out;
  GetOutputSchema := schema;
|}.

(** ** Changes to tables *)

(** [count++] on an [int]. *)
Definition increment_count (count : Z) : outcome Z := int32_op (count + 1).

(** The keys of the indexes of a changed row are computed and dropped. *)
Fixpoint key_values (tuple : Tuple) (schema : Schema) (key_attrs : list nat) : outcome (list Value) :=
  match key_attrs with
  | [] => mret []
  | attr :: key_attrs' => v ← GetValue_schema tuple schema attr; vs ← key_values tuple schema key_attrs'; mret (v :: vs)
  end.
Fixpoint index_keys (tuple : Tuple) (schema : Schema) (indexes : list IndexInfo) : outcome unit :=
  match indexes with
  | [] => mret tt
  | index_info :: indexes' =>
    values ← key_values tuple schema (key_attrs_ index_info);
    Tuple_new values;;
    index_keys tuple schema indexes'
  end.

(** [*tuple = Tuple({Value(TypeId::INTEGER, count)}); return true] *)
Definition count_row {S} (count : Z) (out : row) : M S (bool * row) :=
  tuple ← lift (Tuple_new [Value_int INTEGER count]); mret (true, (tuple, out.2)).

Definition out_start : row := (Tuple_default, RID_default).

(** [has_inserted_], [has_deleted_] and [has_updated_] *)
Definition once {X} (run : row → M (catalog * (X * bool)) (bool * row)) (out : row) : M (catalog * (X * bool)) (bool * row) :=
  done ← on_own get;
  if done : bool then mret (false, out) else on_own (put true);; run out.

Definition change_init (child : AbstractExecutor) : M (catalog * (ex_state child * bool)) unit :=
  on_child (Init child);; on_own (put false).

Definition insert_row {X} (table_info : TableInfo) (indexes : list IndexInfo) (r : row) (count : Z) : M (catalog * X) Z :=
  new_rid ← on_catalog (on_heap (InsertTuple fuel (table_ table_info) r.1));
  match new_rid with
  | None => mret count
  | Some _ => lift (index_keys r.1 (schema_ table_info) indexes);; lift (increment_count count)
  end.

Definition InsertExecutor (schema : Schema) (table_oid : Z) (child : AbstractExecutor) : AbstractExecutor := {|
  ex_state := ex_state child * bool;
  ex_start := (ex_start child, false);
  Init := change_init child;
  Next := once (fun out =>
    table_info ← get_table table_oid;
    c ← gets fst;
    indexes ← lift (GetTableIndexes (table_name table_info) c);
    count ← for_each rounds (fun o => on_child (Next child o)) (insert_row table_info indexes) out_start 0;
    count_row count out);
  GetOutputSchema := schema;
|}.

Definition delete_row {X} (table_info : TableInfo) (indexes : list IndexInfo) (r : row) (count : Z) : M (catalog * X) Z :=
  on_catalog (on_heap (DeleteTuple r.2));;
  lift (index_keys r.1 (schema_ table_info) indexes);;
  lift (increment_count count).

Definition DeleteExecutor (schema : Schema) (table_oid : Z) (child : AbstractExecutor) : AbstractExecutor := {|
  ex_state := ex_state child * bool;
  ex_start := (ex_start child, false);
  Init := change_init child;
  Next := once (fun out =>
    table_info ← get_table table_oid;
    c ← gets fst;
    indexes ← lift (GetTableIndexes (table_name table_info) c);
    count ← for_each rounds (fun o => on_child (Next child o)) (delete_row table_info indexes) out_start 0;
    count_row count out);
  GetOutputSchema := schema;
|}.

Definition update_row {X} (table_info : TableInfo) (update_exprs : list AbstractExpression) (r : row) (count : Z) : M (catalog * X) Z :=
  new_values ← lift (evaluate_all update_exprs r.1 (schema_ table_info));
  new_tuple ← lift (Tuple_new new_values);
  on_catalog (on_heap (UpdateTuple r.2 new_tuple));;
  lift (increment_count count).

Definition UpdateExecutor (schema : Schema) (table_oid : Z) (update_exprs : list AbstractExpression) (child : AbstractExecutor) : AbstractExecutor := {|
  ex_state := ex_state child * bool;
  ex_start := (ex_start child, false);
  Init := change_init child;
  Next := once (fun out =>
    table_info ← get_table table_oid;
    count ← for_each rounds (fun o => on_child (Next child o)) (update_row table_info update_exprs) out_start 0;
    count_row count out);
  GetOutputSchema := schema;
|}.

(** ** Joins *)

(** The two children, and the result that [Init] computes. *)
Definition on_left {X Y Z A} (m : M (catalog * X) A) : M (catalog * (X * (Y * Z))) A := on_child m.
Definition on_right {X Y Z A} (m : M (catalog * Y) A) : M (catalog * (X * (Y * Z))) A := on_own (on_child m).
Definition on_result {X Y Z A} (m : M (catalog * Z) A) : M (catalog * (X * (Y * Z))) A := on_own (on_own m).

(** The body of the inner loop. *)
Definition match_pair (predicate : AbstractExpression) (left_schema right_schema : Schema) (l r : row) (results : list Tuple) : outcome (list Tuple) :=
  m ← holds_predicate predicate (fun e => EvaluateJoin e l.1 left_schema r.1 right_schema);
  if m : bool then combined ← combine l.1 left_schema r.1 right_schema; mret (results ++ [combined]) else mret results.

Definition NestedLoopJoinExecutor (schema : Schema) (predicate : AbstractExpression) (left_executor right_executor : AbstractExecutor) :
    AbstractExecutor := {|
  ex_state := ex_state left_executor * (ex_state right_executor * (list Tuple * nat));
  ex_start := (ex_start left_executor, (ex_start right_executor, ([], 0%nat)));
  Init :=
    on_left (Init left_executor);;
    on_right (Init right_executor);;
    on_result (put ([], 0%nat));;
    results ← for_each rounds (fun o => on_left (Next left_executor o))
      (fun l results =>
        results ← for_each rounds (fun o => on_right (Next right_executor o))
          (fun r results => lift (match_pair predicate (GetOutputSchema left_executor) (GetOutputSchema right_executor) l r results))
          out_start results;
        on_right (Init right_executor);;
        mret results) out_start [];
    on_result (put (results, 0%nat));
  Next out := on_result (next_result out);
  GetOutputSchema := schema;
|}.

(** [hash_table_[key.ToString()].push_back(left_tuple)] *)
Definition build_side (left_key_expr : AbstractExpression) (left_schema : Schema) (l : row) (hash_table : gmap string (list Tuple)) :
    outcome (gmap string (list Tuple)) :=
  key ← Evaluate left_key_expr l.1 left_schema;
  mret (<[ToString key := default [] (hash_table !! ToString key) ++ [l.1]]> hash_table).

Fixpoint combine_all (lefts : list Tuple) (left_schema : Schema) (right_tuple : Tuple) (right_schema : Schema) : outcome (list Tuple) :=
  match lefts with
  | [] => mret []
  | left_tuple :: lefts' =>
    combined ← combine left_tuple left_schema right_tuple right_schema;
    rest ← combine_all lefts' left_schema right_tuple right_schema;
    mret (combined :: rest)
  end.
Definition probe_side (right_key_expr : AbstractExpression) (left_schema right_schema : Schema) (hash_table : gmap string (list Tuple)) (r : row)
    (results : list Tuple) : outcome (list Tuple) :=
  key ← Evaluate right_key_expr r.1 right_schema;
  match hash_table !! ToString key with
  | None => mret results
  | Some lefts => new ← combine_all lefts left_schema r.1 right_schema; mret (results ++ new)
  end.

Definition HashJoinExecutor (schema : Schema) (left_key_expr right_key_expr : AbstractExpression) (left_executor right_executor : AbstractExecutor) :
    AbstractExecutor := {|
  ex_state := ex_state left_executor * (ex_state right_executor * (list Tuple * nat));
  ex_start := (ex_start left_executor, (ex_start right_executor, ([], 0%nat)));
  Init :=
    on_left (Init left_executor);;
    on_right (Init right_executor);;
    on_result (put ([], 0%nat));;
    hash_table ← for_each rounds (fun o => on_left (Next left_executor o))
      (fun l t => lift (build_side left_key_expr (GetOutputSchema left_executor) l t)) out_start ∅;
    results ← for_each rounds (fun o => on_right (Next right_executor o))
      (fun r t => lift (probe_side right_key_expr (GetOutputSchema left_executor) (GetOutputSchema right_executor) hash_table r t)) out_start [];
    on_result (put (results, 0%nat));
  Next out := on_result (next_result out);
  GetOutputSchema := schema;
|}.

(** ** Aggregation *)

(** [has_value] is left out: it is set and never read. *)
Record AggState := mkAggState {
  group_values : list Value;
  count_star : Z;
  agg_count : Z;
  agg_sum : Z;
  min_val : Z;
  max_val : Z;
  has_sum : bool;
  has_min : bool;
  has_max : bool;
}.
Definition AggState_new : AggState := mkAggState [] 0 0 0 INT32_MAX INT32_MIN false false false.

(** One value of an aggregate; a NULL is skipped. *)
Definition aggregate_value (type : AggregationType) (val : Value) (s : AggState) : outcome AggState :=
  match type with
  | CountStarAggregate => mret s
  | CountAggregate =>
    if IsNull val then mret s
    else
      n ← increment_count (agg_count s);
      mret (mkAggState (group_values s) (count_star s) n (agg_sum s) (min_val s) (max_val s) (has_sum s) (has_min s) (has_max s))
  | SumAggregate =>
    if IsNull val then mret s
    else
      v ← GetAsInteger val;
      n ← int32_op (agg_sum s + v);
      mret (mkAggState (group_values s) (count_star s) (agg_count s) n (min_val s) (max_val s) true (has_min s) (has_max s))
  | MinAggregate =>
    if IsNull val then mret s
    else
      v ← GetAsInteger val;
      if negb (has_min s) || bool_decide (v < min_val s) then
        mret (mkAggState (group_values s) (count_star s) (agg_count s) (agg_sum s) v (max_val s) (has_sum s) true (has_max s))
      else mret s
  | MaxAggregate =>
    if IsNull val then mret s
    else
      v ← GetAsInteger val;
      if negb (has_max s) || bool_decide (max_val s < v) then
        mret (mkAggState (group_values s) (count_star s) (agg_count s) (agg_sum s) (min_val s) v (has_sum s) (has_min s) true)
      else mret s
  end.

(** [agg_types[i]] is read without a check. *)
Fixpoint aggregate_all (aggregates : list AbstractExpression) (agg_types : list AggregationType) (tuple : Tuple) (schema : Schema) (s : AggState) :
    outcome AggState :=
  match aggregates with
  | [] => mret s
  | expr :: aggregates' =>
    val ← Evaluate expr tuple schema;
    match agg_types with
    | [] => Undef
    | type :: agg_types' => s' ← aggregate_value type val s; aggregate_all aggregates' agg_types' tuple schema s'
    end
  end.

Fixpoint group_key_of (vals : list Value) : string :=
  match vals with [] => "" | val :: vals' => (ToString val ++ "|" ++ group_key_of vals')%string end.

Definition aggregate_row (group_bys aggregates : list AbstractExpression) (agg_types : list AggregationType) (schema : Schema) (r : row)
    (groups : gmap string AggState) : outcome (gmap string AggState) :=
  group_val ← evaluate_all group_bys r.1 schema;
  let group_key := group_key_of group_val in
  let s := default AggState_new (groups !! group_key) in
  n ← increment_count (count_star s);
  s ← aggregate_all aggregates agg_types r.1 schema
    (mkAggState (if bool_decide (count_star s = 0) then group_val else group_values s) n (agg_count s) (agg_sum s) (min_val s) (max_val s)
      (has_sum s) (has_min s) (has_max s));
  mret (<[group_key := s]> groups).

Definition aggregate_result (s : AggState) (type : AggregationType) : Value :=
  Value_int INTEGER
    match type with
    | CountStarAggregate => count_star s
    | CountAggregate => agg_count s
    | SumAggregate => if has_sum s then agg_sum s else 0
    | MinAggregate => if has_min s then min_val s else 0
    | MaxAggregate => if has_max s then max_val s else 0
    end.

Fixpoint group_tuples (group_bys : list AbstractExpression) (agg_types : list AggregationType) (groups : list (string * AggState)) :
    outcome (list Tuple) :=
  match groups with
  | [] => mret []
  | (_, s) :: groups' =>
    tuple ← Tuple_new ((if bool_decide (group_bys = []) then [] else group_values s) ++ map (aggregate_result s) agg_types);
    rest ← group_tuples group_bys agg_types groups';
    mret (tuple :: rest)
  end.

Definition AggregationExecutor (schema : Schema) (group_bys aggregates : list AbstractExpression) (agg_types : list AggregationType)
    (child : AbstractExecutor) : AbstractExecutor := {|
  ex_state := ex_state child * (list Tuple * nat);
  ex_start := (ex_start child, ([], 0%nat));
  Init :=
    on_child (Init child);;
    on_own (put ([], 0%nat));;
    state ← for_each rounds (fun o => on_child (Next child o))
      (fun r t => groups ← lift (aggregate_row group_bys aggregates agg_types (GetOutputSchema child) r t.1); mret (groups, true))
      out_start (∅, false);
    let '(groups, has_input) := state in
    results ← (if negb has_input && bool_decide (group_bys = []) then
        tuple ← lift (Tuple_new (map (fun _ => Value_int INTEGER 0) agg_types)); mret [tuple]
      else lift (group_tuples group_bys agg_types (name_order groups)));
    on_own (put (results, 0%nat));
  Next out := on_own (next_result out);
  GetOutputSchema := schema;
|}.

(** ** Sort, limit and projection *)

(** The comparator. *)
Fixpoint sort_less (order_bys : list (bool * AbstractExpression)) (schema : Schema) (a b : Tuple) : outcome bool :=
  match order_bys with
  | [] => mret false
  | (is_ascending, expr) :: order_bys' =>
    val_a ← Evaluate expr a schema;
    val_b ← Evaluate expr b schema;
    eq ← CompareEquals val_a val_b;
    equal ← GetAsBoolean eq;
    if equal : bool then sort_less order_bys' schema a b
    else if is_ascending : bool then less ← CompareLessThan val_a val_b; GetAsBoolean less
    else greater ← CompareGreaterThan val_a val_b; GetAsBoolean greater
  end.

Definition SortExecutor (schema : Schema) (order_bys : list (bool * AbstractExpression)) (child : AbstractExecutor) : AbstractExecutor := {|
  ex_state := ex_state child * (list Tuple * nat);
  ex_start := (ex_start child, ([], 0%nat));
  Init :=
    on_child (Init child);;
    on_own (put ([], 0%nat));;
    tuples ← for_each rounds (fun o => on_child (Next child o)) (fun r tuples => mret (tuples ++ [r.1])) out_start [];
    sorted_tuples ← lift (std_sort (sort_less order_bys (GetOutputSchema child)) tuples);
    on_own (put (sorted_tuples, 0%nat));
  Next out := on_own (next_result out);
  GetOutputSchema := schema;
|}.

Definition LimitExecutor (schema : Schema) (limit : Z) (child : AbstractExecutor) : AbstractExecutor := {|
  ex_state := ex_state child * Z;
  ex_start := (ex_start child, 0);
  Init := on_child (Init child);; on_own (put 0);
  Next out :=
    count ← on_own get;
    if bool_decide (limit ≤ count) then mret (false, out)
    else
      r ← on_child (Next child out);
      if r.1 : bool then on_own (put (wrapu 64 (count + 1)));; mret (true, r.2) else mret (false, r.2);
  GetOutputSchema := schema;
|}.

Definition ProjectionExecutor (schema : Schema) (exprs : list AbstractExpression) (child : AbstractExecutor) : AbstractExecutor := {|
  ex_state := ex_state child;
  ex_start := ex_start child;
  Init := Init child;
  Next out :=
    r ← Next child out_start;
    if r.1 : bool then
      values ← lift (evaluate_all exprs r.2.1 (GetOutputSchema child));
      tuple ← lift (Tuple_new values);
      mret (true, (tuple, r.2.2))
    else mret (false, out);
  GetOutputSchema := schema;
|}.

(** ** Utility statements *)
Fixpoint join_loop (first : bool) (parts : list string) (separator joined : string) : string :=
  match parts with
  | [] => joined
  | part :: parts' => join_loop false parts' separator ((if first then joined else joined ++ separator) ++ part)
  end.
Definition JoinStrings (parts : list string) (separator : string) : string := join_loop true parts separator "".

Definition MakeTableRow (values : list string) : outcome Tuple := Tuple_new (map (Value_string VARCHAR) values).
Definition MakeCommandRow (tag : string) : outcome Tuple := MakeTableRow [tag].
Fixpoint make_rows (rows : list (list string)) : outcome (list Tuple) :=
  match rows with
  | [] => mret []
  | r :: rows' => t ← MakeTableRow r; ts ← make_rows rows'; mret (t :: ts)
  end.

(** The name of the one table that has an index [index]. *)
Fixpoint find_index_table (index : string) (tables : list TableInfo) (matched : string) (c : catalog) : outcome string :=
  match tables with
  | [] => mret matched
  | table_info :: tables' =>
    found ← GetIndex_name index (table_name table_info) c;
    match found with
    | None => find_index_table index tables' matched c
    | Some _ =>
      if String.eqb matched "" then find_index_table index tables' (table_name table_info) c
      else Throw (RuntimeError ("Ambiguous index name: " ++ index))
    end
  end.

Fixpoint drop_indexes (object_names : list string) (missing_ok removed_any : bool) : M catalog bool :=
  match object_names with
  | [] => mret removed_any
  | index :: object_names' =>
    c ← gets id;
    matched_table_name ← lift (find_index_table index (GetAllTables c) "" c);
    if String.eqb matched_table_name "" then
      if missing_ok then drop_indexes object_names' missing_ok removed_any
      else lift (Throw (RuntimeError ("Index not found: " ++ index)))
    else
      dropped ← DropIndex index matched_table_name;
      drop_indexes object_names' missing_ok (dropped || removed_any)
  end.

Definition table_less (lhs rhs : TableInfo) : outcome bool := mret (string_ltb (table_name lhs) (table_name rhs)).
Definition index_less (lhs rhs : IndexInfo) : outcome bool :=
  mret (if negb (String.eqb (index_name lhs) (index_name rhs)) then string_ltb (index_name lhs) (index_name rhs)
        else if negb (String.eqb (index_table_name lhs) (index_table_name rhs)) then string_ltb (index_table_name lhs) (index_table_name rhs)
        else bool_decide (index_oid lhs < index_oid rhs)).

Definition index_row (index_info : IndexInfo) : list string :=
  [index_name index_info; index_table_name index_info; JoinStrings (map name_ (columns_ (key_schema_ index_info))) ","].

(** The rows of a utility statement. *)
Definition run_utility (utility_type : UtilityType) (table index : string) (key_attrs : list nat) (object_names : list string) (missing_ok : bool) :
    M catalog (list Tuple) :=
  match utility_type with
  | CREATE_INDEX =>
    index_info ← CreateIndex rounds fuel index table key_attrs;
    match index_info with
    | None => lift (Throw (RuntimeError ("Failed to create index: " ++ index)))
    | Some _ => t ← lift (MakeCommandRow ("CREATE INDEX " ++ index)); mret [t]
    end
  | DROP_INDEX =>
    removed_any ← drop_indexes object_names missing_ok false;
    t ← lift (MakeCommandRow (if removed_any : bool then "DROP INDEX" else "DROP INDEX (0 rows)"));
    mret [t]
  | SHOW_TABLES =>
    c ← gets id;
    tables ← lift (std_sort table_less (GetAllTables c));
    lift (make_rows (map (fun table_info => [table_name table_info]) tables))
  | SHOW_INDEXES =>
    c ← gets id;
    indexes ← lift (std_sort index_less (GetAllIndexes c));
    lift (make_rows (map index_row indexes))
  | SHOW_SCHEMA =>
    c ← gets id;
    table_info ← lift (GetTable_name table c);
    match table_info with
    | None => lift (Throw (RuntimeError ("Table not found: " ++ table)))
    | Some table_info => lift (make_rows (map (fun col => [name_ col; Column_ToString col])
        (take (Z.to_nat (GetColumnCount (schema_ table_info))) (columns_ (schema_ table_info)))))
    end
  end.

Definition UtilityExecutor (schema : Schema) (utility_type : UtilityType) (table index : string) (key_attrs : list nat)
    (object_names : list string) (missing_ok : bool) : AbstractExecutor := {|
  ex_state := list Tuple * nat;
  ex_start := ([], 0%nat);
  Init :=
    put ([], 0%nat);;
    rows ← on_catalog (run_utility utility_type table index key_attrs object_names missing_ok);
    put (rows, 0%nat);
  Next out :=
    r ← next_result out;
    mret (if r.1 : bool then (true, (r.2.1, RID_default)) else r);
  GetOutputSchema := schema;
|}.

(** ** The factory and the engine *)
Fixpoint CreateExecutor (plan : AbstractPlanNode) : outcome AbstractExecutor :=
  match plan with
  | null_plan => Undef
  | SeqScanPlanNode schema table_oid predicate => mret (SeqScanExecutor schema table_oid predicate)
  | IndexScanPlanNode schema table_oid index_oid lookup_key predicate =>
    mret (IndexScanExecutor schema table_oid index_oid lookup_key predicate)
  | InsertPlanNode schema child table_oid => child ← CreateExecutor child; mret (InsertExecutor schema table_oid child)
  | DeletePlanNode schema child table_oid => child ← CreateExecutor child; mret (DeleteExecutor schema table_oid child)
  | UpdatePlanNode schema child table_oid update_exprs => child ← CreateExecutor child; mret (UpdateExecutor schema table_oid update_exprs child)
  | NestedLoopJoinPlanNode schema left_plan right_plan predicate =>
    left_executor ← CreateExecutor left_plan;
    right_executor ← CreateExecutor right_plan;
    mret (NestedLoopJoinExecutor schema predicate left_executor right_executor)
  | HashJoinPlanNode schema left_plan right_plan left_key_expr right_key_expr =>
    left_executor ← CreateExecutor left_plan;
    right_executor ← CreateExecutor right_plan;
    mret (HashJoinExecutor schema left_key_expr right_key_expr left_executor right_executor)
  | AggregationPlanNode schema child group_bys aggregates agg_types =>
    child ← CreateExecutor child; mret (AggregationExecutor schema group_bys aggregates agg_types child)
  | SortPlanNode schema child order_bys => child ← CreateExecutor child; mret (SortExecutor schema order_bys child)
  | LimitPlanNode schema child limit => child ← CreateExecutor child; mret (LimitExecutor schema limit child)
  | ProjectionPlanNode schema child exprs => child ← CreateExecutor child; mret (ProjectionExecutor schema exprs child)
  | UtilityPlanNode schema utility_type table index key_attrs object_names missing_ok =>
    mret (UtilityExecutor schema utility_type table index key_attrs object_names missing_ok)
  end.

(** [ExecutionEngine::Execute]: the rows appended to [*result_set]. *)
Definition run_executor (e : AbstractExecutor) : M catalog (list Tuple) :=
  fun c =>
    let '(o, s) := (Init e;; for_each rounds (Next e) (fun r ts => mret (ts ++ [r.1])) out_start []) (c, ex_start e) in (o, s.1).
Definition Execute (plan : AbstractPlanNode) : M catalog (list Tuple) :=
  executor ← lift (CreateExecutor plan); run_executor executor.
End operations.
