(* ===== verification/QuerySemantics.v ===== *)
(** * What a query means

    A reference semantics of the plans that only read: relational operators on
    lists of rows, without executors, cursors, hash tables or pages.  It is what
    the executors are proved to compute.  A row has a record identifier when the
    operator that made it writes one. *)
From coqutil Require Import Byte.
From S2P Require Import Prelude Value Tuple TableHeap Catalog Expression Plan Executor.

#[local] Open Scope Z_scope.

Definition result_row : Type := Tuple * option RID.

(** Maps with failure, in order; and a fallible choice from the elements. *)
Fixpoint map_rows {A B} (f : A → outcome B) (l : list A) : outcome (list B) :=
  match l with
  | [] => mret []
  | x :: l' => y ← f x; ys ← map_rows f l'; mret (y :: ys)
  end.
Fixpoint choose_rows {A B} (f : A → outcome (option B)) (l : list A) : outcome (list B) :=
  match l with
  | [] => mret []
  | x :: l' =>
    y ← f x; ys ← choose_rows f l';
    mret match y with Some y => y :: ys | None => ys end
  end.

(** A row with its new bytes, if it is among those that have some. *)
Fixpoint new_bytes (revisions : list (RID * list byte)) (rid : RID) : option (list byte) :=
  match revisions with
  | [] => None
  | r :: revisions' => if bool_decide (r.1 = rid) then Some r.2 else new_bytes revisions' rid
  end.
Definition replaced (revisions : list (RID * list byte)) (y : RID * list byte) : RID * list byte :=
  (y.1, default y.2 (new_bytes revisions y.1)).

Section semantics.
Context `{NameOrder} `{FloatFormat} `{SortAlgorithm}.
(** The rows of a table, and the indexes, by their numbers. *)
Context (table : Z → option (list (RID * list byte))) (index : Z → option IndexInfo).

(** A stored row that satisfies the predicate, with the columns of the schema. *)
Definition select_row (schema : Schema) (predicate : AbstractExpression) (x : RID * list byte) : outcome (option result_row) :=
  keep ← holds_predicate predicate (fun e => Evaluate e (stored_tuple x) schema);
  if keep : bool then t ← populate (stored_tuple x) schema x.1; mret (Some (t, Some x.1)) else mret None.

(** A pair that satisfies a condition. *)
Definition join_pair (condition : Tuple → Tuple → outcome bool) (left_schema right_schema : Schema) (l r : Tuple) : outcome (option Tuple) :=
  m ← condition l r;
  if m : bool then t ← combine l left_schema r right_schema; mret (Some t) else mret None.

(** The pairs in the order of the left rows. *)
Definition nested_join (condition : Tuple → Tuple → outcome bool) (left_schema right_schema : Schema) (lefts rights : list Tuple) : outcome (list Tuple) :=
  pairs ← map_rows (fun l => choose_rows (join_pair condition left_schema right_schema l) rights) lefts; mret (List.concat pairs).

Definition theta_condition (predicate : AbstractExpression) (left_schema right_schema : Schema) (l r : Tuple) : outcome bool :=
  holds_predicate predicate (fun e => EvaluateJoin e l left_schema r right_schema).
(** The pairs whose keys print the same, in the order of the right rows. *)
Definition print_key (key_expr : AbstractExpression) (schema : Schema) (t : Tuple) : outcome string :=
  key ← Evaluate key_expr t schema; mret (ToString key).
Definition hash_join (left_key_expr right_key_expr : AbstractExpression) (left_schema right_schema : Schema) (lefts rights : list Tuple) : outcome (list Tuple) :=
  keyed ← map_rows (fun l => k ← print_key left_key_expr left_schema l; mret (k, l)) lefts;
  pairs ← map_rows (fun r =>
    k ← print_key right_key_expr right_schema r;
    map_rows (fun l => combine l left_schema r right_schema) (filter (fun x => x.1 = k) keyed).*2) rights;
  mret (List.concat pairs).

(** The rows folded in their order. *)
Fixpoint fold_rows {A B} (f : A → B → outcome B) (l : list A) (b : B) : outcome B :=
  match l with
  | [] => mret b
  | x :: l' => b' ← f x b; fold_rows f l' b'
  end.

(** What an aggregate function is of the values of a group.  NULLs are not counted;
    SUM, MIN and MAX of no value are NULL.  Sums are computed in [int32_t]. *)
Definition present (vals : list Value) : list Value := filter (fun v => IsNull v = false) vals.
Definition aggregate_of (type : AggregationType) (vals : list Value) : outcome Value :=
  match type with
  | CountStarAggregate => mret (Value_int INTEGER (Z.of_nat (length vals)))
  | CountAggregate => mret (Value_int INTEGER (Z.of_nat (length (present vals))))
  | SumAggregate =>
    numbers ← map_rows GetAsInteger (present vals);
    total ← fold_rows (fun n total => int32_op (total + n)) numbers 0;
    mret (if bool_decide (numbers = []) then Value_null INTEGER else Value_int INTEGER total)
  | MinAggregate =>
    numbers ← map_rows GetAsInteger (present vals);
    mret match numbers with [] => Value_null INTEGER | n :: rest => Value_int INTEGER (foldl Z.min n rest) end
  | MaxAggregate =>
    numbers ← map_rows GetAsInteger (present vals);
    mret match numbers with [] => Value_null INTEGER | n :: rest => Value_int INTEGER (foldl Z.max n rest) end
  end.

(** The groups: one for each list of values of the GROUP BY columns, with its rows
    in their order; without GROUP BY all rows are one group, if there are none, too. *)
Definition column (schema : Schema) (expr : AbstractExpression) (tuples : list Tuple) : outcome (list Value) :=
  map_rows (fun t => Evaluate expr t schema) tuples.
Definition groups_of (schema : Schema) (group_bys : list AbstractExpression) (tuples : list Tuple) : outcome (list (list Value * list Tuple)) :=
  keyed ← map_rows (fun t => vs ← evaluate_all group_bys t schema; mret (vs, t)) tuples;
  mret (if bool_decide (group_bys = []) then [([], tuples)]
    else map (fun vs => (vs, (filter (fun x => x.1 = vs) keyed).*2)) (remove_dups keyed.*1)).
Definition aggregate_group (schema : Schema) (aggregates : list AbstractExpression) (agg_types : list AggregationType) (g : list Value * list Tuple) :
    outcome (list Value) :=
  results ← map_rows (fun p => vals ← column schema p.1 g.2; aggregate_of p.2 vals) (zip aggregates agg_types);
  mret (g.1 ++ results).

(** SQL leaves the order of the groups open; it is that of a map from the printed
    values of the columns, if they are all different. *)
Definition arrange {A} (l : list (string * A)) : list A :=
  if decide (NoDup l.*1) then (name_order (list_to_map l : gmap string A)).*2 else l.*2.
Definition aggregate (schema : Schema) (group_bys aggregates : list AbstractExpression) (agg_types : list AggregationType) (tuples : list Tuple) :
    outcome (list Tuple) :=
  if bool_decide (length aggregates = length agg_types) then
    groups ← groups_of schema group_bys tuples;
    results ← map_rows (fun g => values ← aggregate_group schema aggregates agg_types g; t ← Tuple_new values; mret (group_key_of g.1, t)) groups;
    mret (arrange results)
  else Undef.

Definition anonymous (tuples : list Tuple) : list result_row := map (fun t => (t, None)) tuples.

Definition find_row (rid : RID) (rows : list (RID * list byte)) : outcome (RID * list byte) :=
  deref (List.find (fun x => bool_decide (x.1 = rid)) rows).

Definition index_rids (lookup_key : AbstractExpression) (index_info : option IndexInfo) : outcome (list RID) :=
  match index_info with
  | None => mret []
  | Some index_info =>
    if SupportsPointLookup index_info then
      match lookup_key with
      | ConstantValueExpression val => key ← GetAsInteger val; mret (default [] (LookupInteger key index_info))
      | _ => mret []
      end
    else mret []
  end.

Fixpoint denote (plan : AbstractPlanNode) : outcome (list result_row) :=
  match plan with
  | SeqScanPlanNode schema table_oid predicate =>
    rows ← deref (table table_oid);
    choose_rows (select_row schema predicate) rows
  | IndexScanPlanNode schema table_oid index_oid lookup_key predicate =>
    rids ← index_rids lookup_key (index index_oid);
    rows ← deref (table table_oid);
    found ← map_rows (fun rid => find_row rid rows) rids;
    choose_rows (select_row schema predicate) found
  | NestedLoopJoinPlanNode _ left_plan right_plan predicate =>
    lefts ← denote left_plan; rights ← denote right_plan;
    tuples ← nested_join (theta_condition predicate (plan_schema left_plan) (plan_schema right_plan))
      (plan_schema left_plan) (plan_schema right_plan) lefts.*1 rights.*1;
    mret (anonymous tuples)
  | HashJoinPlanNode _ left_plan right_plan left_key_expr right_key_expr =>
    lefts ← denote left_plan; rights ← denote right_plan;
    tuples ← hash_join left_key_expr right_key_expr (plan_schema left_plan) (plan_schema right_plan) lefts.*1 rights.*1;
    mret (anonymous tuples)
  | AggregationPlanNode _ child group_bys aggregates agg_types =>
    rows ← denote child;
    tuples ← aggregate (plan_schema child) group_bys aggregates agg_types rows.*1;
    mret (anonymous tuples)
  | SortPlanNode _ child order_bys =>
    rows ← denote child;
    tuples ← std_sort (sort_less order_bys (plan_schema child)) rows.*1;
    mret (anonymous tuples)
  | LimitPlanNode _ child limit => rows ← denote child; mret (take (Z.to_nat limit) rows)
  | ProjectionPlanNode _ child exprs =>
    rows ← denote child;
    map_rows (fun x => values ← evaluate_all exprs x.1 (plan_schema child); t ← Tuple_new values; mret (t, Some (default RID_default x.2))) rows
  | null_plan | InsertPlanNode _ _ _ | DeletePlanNode _ _ _ | UpdatePlanNode _ _ _ _ | UtilityPlanNode _ _ _ _ _ _ _ => Undef
  end.

(** Where the executor agrees with this meaning of an aggregation: of COUNT, SUM, MIN
    and MAX each is used once at most, there are not more rows than an [int] counts,
    different groups have different printed values, and each SUM, MIN and MAX has a
    value. *)
Record grouping_ok (schema : Schema) (group_bys aggregates : list AbstractExpression) (agg_types : list AggregationType) (tuples : list Tuple) : Prop := {
  grouping_kinds : NoDup (filter (fun type => type ≠ CountStarAggregate) agg_types);
  grouping_rows : Z.of_nat (length tuples) ≤ INT32_MAX;
  grouping_keys t1 t2 vs1 vs2 : t1 ∈ tuples → t2 ∈ tuples →
    evaluate_all group_bys t1 schema = Ret vs1 → evaluate_all group_bys t2 schema = Ret vs2 → group_key_of vs1 = group_key_of vs2 → vs1 = vs2;
  grouping_values groups g expr type vals v : groups_of schema group_bys tuples = Ret groups → g ∈ groups →
    (expr, type) ∈ zip aggregates agg_types → column schema expr g.2 = Ret vals → aggregate_of type vals = Ret v → IsNull v = false;
}.
Fixpoint aggregates_ok (plan : AbstractPlanNode) : Prop :=
  match plan with
  | AggregationPlanNode _ child group_bys aggregates agg_types =>
    aggregates_ok child ∧ ∀ rows, denote child = Ret rows → grouping_ok (plan_schema child) group_bys aggregates agg_types rows.*1
  | NestedLoopJoinPlanNode _ l r _ | HashJoinPlanNode _ l r _ _ => aggregates_ok l ∧ aggregates_ok r
  | SortPlanNode _ child _ | LimitPlanNode _ child _ | ProjectionPlanNode _ child _ => aggregates_ok child
  | _ => True
  end.
End semantics.
