(* ===== verification/AggregationSpec.v ===== *)
(** * The aggregation loop computes the groups

    The executor keeps one accumulator for each group, in a map from the printed
    values of the GROUP BY columns, and goes over the rows once.  [aggregate_loop] is
    this loop; [aggregate] of [QuerySemantics.v] says what an aggregation means, group
    by group and column by column.  They agree where [grouping_ok] holds. *)
From S2P Require Import Prelude Value Tuple Catalog Expression Plan Executor QuerySemantics.

#[local] Open Scope Z_scope.

(** ** Maps and folds of lists *)
Lemma map_rows_app {A B} (f : A → outcome B) l1 l2 : ∀ ys,
  map_rows f (l1 ++ l2) = Ret ys ↔ ∃ ys1 ys2, map_rows f l1 = Ret ys1 ∧ map_rows f l2 = Ret ys2 ∧ ys = ys1 ++ ys2.
Proof.
  induction l1 as [|x l1 IH]; intros ys; cbn [map_rows app].
  - split; [intros H; by exists [], ys|]. by intros (ys1 & ys2 & [= <-] & H & ->).
  - split.
    + intros H. apply outcome_bind_Ret in H as (y & -> & H). apply outcome_bind_Ret in H as (l & Hl & [= <-]).
      apply IH in Hl as (ys1 & ys2 & -> & -> & ->). by exists (y :: ys1), ys2.
    + intros (ys1 & ys2 & H1 & H2 & ->). apply outcome_bind_Ret in H1 as (y & -> & H1). apply outcome_bind_Ret in H1 as (l & Hl & [= <-]).
      cbn [mbind outcome_bind]. rewrite (proj2 (IH (l ++ ys2))) by (by exists l, ys2). done.
Qed.

Lemma map_rows_elem {A B} (f : A → outcome B) l : ∀ ys x, map_rows f l = Ret ys → x ∈ l → ∃ y, f x = Ret y ∧ y ∈ ys.
Proof.
  induction l as [|x' l IH]; cbn [map_rows]; intros ys x Hl Hx; [by apply elem_of_nil in Hx|].
  apply outcome_bind_Ret in Hl as (y & Hy & Hl). apply outcome_bind_Ret in Hl as (l' & Hl' & [= <-]).
  apply elem_of_cons in Hx as [->|Hx]; [exists y; split; [done|by left]|].
  destruct (IH _ _ Hl' Hx) as (z & ? & ?). exists z. split; [done|by right].
Qed.

Lemma map_rows_back {A B} (f : A → outcome B) l : ∀ ys y, map_rows f l = Ret ys → y ∈ ys → ∃ x, x ∈ l ∧ f x = Ret y.
Proof.
  induction l as [|x' l IH]; cbn [map_rows]; intros ys y Hl Hy; [injection Hl as <-; by apply elem_of_nil in Hy|].
  apply outcome_bind_Ret in Hl as (y' & Hy' & Hl). apply outcome_bind_Ret in Hl as (l' & Hl' & [= <-]).
  apply elem_of_cons in Hy as [->|Hy]; [exists x'; split; [by left|done]|].
  destruct (IH _ _ Hl' Hy) as (z & ? & ?). exists z. split; [by right|done].
Qed.

Lemma map_rows_length {A B} (f : A → outcome B) l : ∀ ys, map_rows f l = Ret ys → length ys = length l.
Proof.
  induction l as [|x l IH]; cbn [map_rows]; intros ys Hl; [by injection Hl as <-|].
  apply outcome_bind_Ret in Hl as (y & Hy & Hl). apply outcome_bind_Ret in Hl as (l' & Hl' & [= <-]). cbn. by rewrite (IH _ Hl').
Qed.

Lemma fold_rows_app {A B} (f : A → B → outcome B) l1 l2 : ∀ b b',
  fold_rows f (l1 ++ l2) b = Ret b' ↔ ∃ b1, fold_rows f l1 b = Ret b1 ∧ fold_rows f l2 b1 = Ret b'.
Proof.
  induction l1 as [|x l1 IH]; intros b b'; cbn [fold_rows app].
  - split; [intros H; by exists b|]. by intros (b1 & [= ->] & H).
  - split.
    + intros H. apply outcome_bind_Ret in H as (b1 & -> & H). cbn [mbind outcome_bind]. by apply IH.
    + intros (b2 & H1 & H2). apply outcome_bind_Ret in H1 as (b1 & -> & H1). cbn [mbind outcome_bind]. apply IH. by exists b2.
Qed.

Lemma present_app l1 l2 : present (l1 ++ l2) = present l1 ++ present l2.
Proof. apply filter_app. Qed.
Lemma present_snoc l v : present (l ++ [v]) = if IsNull v then present l else present l ++ [v].
Proof.
  rewrite present_app. unfold present at 2. rewrite filter_cons, filter_nil. destruct (IsNull v) eqn:Hv; [|by rewrite decide_True].
  by rewrite decide_False, app_nil_r by done.
Qed.

Lemma same_keys_zip {A B} (m1 : gmap string A) (m2 : gmap string B) :
  (∀ k, m1 !! k = None ↔ m2 !! k = None) → ∃ m : gmap string (A * B), m1 = fst <$> m ∧ m2 = snd <$> m.
Proof.
  intros Hdom. exists (map_zip m1 m2).
  split; apply map_eq; intros k; specialize (Hdom k); rewrite lookup_fmap, (map_lookup_zip_with pair m1 m2 k); destruct (m1 !! k), (m2 !! k); try done;
    destruct Hdom as [H1 H2]; first [discriminate (H1 eq_refl)|discriminate (H2 eq_refl)].
Qed.

(** ** Accumulators *)

(** What the accumulator holds for one column, whose values so far are [vals]. *)
Definition accumulated (type : AggregationType) (vals : list Value) (s : AggState) : Prop :=
  match type with
  | CountStarAggregate => True
  | CountAggregate => agg_count s = Z.of_nat (length (present vals))
  | SumAggregate => ∃ numbers, map_rows GetAsInteger (present vals) = Ret numbers ∧
      fold_rows (fun n total => int32_op (total + n)) numbers 0 = Ret (agg_sum s) ∧ has_sum s = negb (bool_decide (numbers = []))
  | MinAggregate => ∃ numbers, map_rows GetAsInteger (present vals) = Ret numbers ∧
      match numbers with [] => has_min s = false | n :: rest => has_min s = true ∧ min_val s = foldl Z.min n rest end
  | MaxAggregate => ∃ numbers, map_rows GetAsInteger (present vals) = Ret numbers ∧
      match numbers with [] => has_max s = false | n :: rest => has_max s = true ∧ max_val s = foldl Z.max n rest end
  end.

(** The accumulator keeps the results of the other columns and the group. *)
Definition other_columns_kept (type : AggregationType) (s s' : AggState) : Prop :=
  group_values s' = group_values s ∧ count_star s' = count_star s ∧
  ∀ type' vals, type' ≠ type ∨ type' = CountStarAggregate → accumulated type' vals s → accumulated type' vals s'.

Lemma kept_refl type s : other_columns_kept type s s.
Proof. by split_and!. Qed.

Lemma aggregate_of_prefix type vals1 vals2 v :
  aggregate_of type (vals1 ++ vals2) = Ret v → ∃ v1, aggregate_of type vals1 = Ret v1.
Proof.
  unfold aggregate_of. rewrite present_app. destruct type; [by eexists..| | |]; intros H;
    apply outcome_bind_Ret in H as (numbers & (n1 & n2 & -> & _ & ->)%map_rows_app & H); cbn [mbind outcome_bind]; [|by eexists..].
  apply outcome_bind_Ret in H as (total & (t1 & -> & _)%fold_rows_app & _). by eexists.
Qed.

Lemma map_rows_snoc {A B} (f : A → outcome B) l x ys : map_rows f (l ++ [x]) = Ret ys →
  ∃ ys1 y, map_rows f l = Ret ys1 ∧ f x = Ret y ∧ ys = ys1 ++ [y].
Proof.
  intros (ys1 & ys2 & H1 & H2 & ->)%map_rows_app. cbn [map_rows] in H2. apply outcome_bind_Ret in H2 as (y & Hy & H2). injection H2 as <-. by exists ys1, y.
Qed.

Lemma GetAsInteger_snoc vals val numbers :
  map_rows GetAsInteger vals = Ret numbers → (∃ ns, map_rows GetAsInteger (vals ++ [val]) = Ret ns) →
  ∃ n, GetAsInteger val = Ret n ∧ map_rows GetAsInteger (vals ++ [val]) = Ret (numbers ++ [n]).
Proof.
  intros Hn [ns Hns]. pose proof Hns as (ns1 & n & H1 & Hval & ->)%map_rows_snoc. assert (ns1 = numbers) as -> by congruence. by exists n.
Qed.

(** One more value of a column. *)
Lemma aggregate_value_accumulates type vals val s v :
  accumulated type vals s → aggregate_of type (vals ++ [val]) = Ret v → Z.of_nat (length (vals ++ [val])) ≤ INT32_MAX →
  ∃ s', aggregate_value type val s = Ret s' ∧ accumulated type (vals ++ [val]) s' ∧ other_columns_kept type s s'.
Proof.
  intros Hacc Hof Hlen. unfold aggregate_value. destruct type; [exists s; split_and!; done|..];
    unfold accumulated, aggregate_of in *; rewrite present_snoc in *;
    (destruct (IsNull val); [exists s; split; [done|split; [done|apply kept_refl]]|]).
  - rewrite length_app in Hlen. cbn [length] in Hlen. assert (length (present vals) ≤ length vals)%nat by (apply length_filter).
    unfold increment_count. rewrite int32_op_ok by (apply in_int32_iff; unfold INT32_MIN, INT32_MAX in *; lia). cbn [mbind outcome_bind].
    eexists. split; [done|]. split; [cbn; rewrite length_app; cbn; lia|]. split_and!; [done|done|]. by intros [] vals' [|].
  - destruct Hacc as (numbers & Hn & Hsum & Hhas). apply outcome_bind_Ret in Hof as (numbers' & Hn' & Hof).
    destruct (GetAsInteger_snoc _ val _ Hn) as (n & Hval & Hnew); [by eexists|]. assert (numbers' = numbers ++ [n]) as -> by congruence.
    apply outcome_bind_Ret in Hof as (total & Htotal & _). apply fold_rows_app in Htotal as (b1 & Hb1 & Htotal).
    assert (b1 = agg_sum s) as -> by congruence. cbn [fold_rows] in Htotal. apply outcome_bind_Ret in Htotal as (total' & Htotal & _).
    rewrite Hval. cbn [mbind outcome_bind]. rewrite Htotal. cbn [mbind outcome_bind].
    eexists. split; [done|]. split; [|split_and!; [done|done|by intros [] vals' [|]]].
    exists (numbers ++ [n]). cbn. split_and!; [done| |by rewrite bool_decide_false by by destruct numbers].
    apply fold_rows_app. exists (agg_sum s). split; [done|]. cbn [fold_rows]. by rewrite Htotal.
  - destruct Hacc as (numbers & Hn & Hmin). apply outcome_bind_Ret in Hof as (numbers' & Hn' & _).
    destruct (GetAsInteger_snoc _ val _ Hn) as (n & Hval & Hnew); [by eexists|]. rewrite Hval. cbn [mbind outcome_bind].
    destruct (negb (has_min s) || bool_decide (n < min_val s)) eqn:Hless.
    + eexists. split; [done|]. split; [|split_and!; [done|done|by intros [] vals' [|]]]. exists (numbers ++ [n]). split; [done|].
      destruct numbers as [|m rest]; [done|]. destruct Hmin as [Hhas Hmin]. rewrite Hhas in Hless. apply bool_decide_eq_true in Hless.
      cbn. split; [done|]. rewrite foldl_snoc. lia.
    + exists s. split; [done|]. split; [|apply kept_refl]. exists (numbers ++ [n]). split; [done|].
      destruct numbers as [|m rest]; [by rewrite Hmin in Hless|]. destruct Hmin as [Hhas Hmin]. rewrite Hhas in Hless. apply bool_decide_eq_false in Hless.
      cbn. split; [done|]. rewrite foldl_snoc. lia.
  - destruct Hacc as (numbers & Hn & Hmax). apply outcome_bind_Ret in Hof as (numbers' & Hn' & _).
    destruct (GetAsInteger_snoc _ val _ Hn) as (n & Hval & Hnew); [by eexists|]. rewrite Hval. cbn [mbind outcome_bind].
    destruct (negb (has_max s) || bool_decide (max_val s < n)) eqn:Hless.
    + eexists. split; [done|]. split; [|split_and!; [done|done|by intros [] vals' [|]]]. exists (numbers ++ [n]). split; [done|].
      destruct numbers as [|m rest]; [done|]. destruct Hmax as [Hhas Hmax]. rewrite Hhas in Hless. apply bool_decide_eq_true in Hless.
      cbn. split; [done|]. rewrite foldl_snoc. lia.
    + exists s. split; [done|]. split; [|apply kept_refl]. exists (numbers ++ [n]). split; [done|].
      destruct numbers as [|m rest]; [by rewrite Hmax in Hless|]. destruct Hmax as [Hhas Hmax]. rewrite Hhas in Hless. apply bool_decide_eq_false in Hless.
      cbn. split; [done|]. rewrite foldl_snoc. lia.
Qed.

(** What the executor makes of the accumulator at the end. *)
Lemma accumulated_result type vals s v :
  accumulated type vals s → count_star s = Z.of_nat (length vals) → aggregate_of type vals = Ret v → IsNull v = false →
  aggregate_result s type = v.
Proof.
  unfold accumulated, aggregate_of, aggregate_result. destruct type; intros Hacc Hcount Hof Hnn.
  - injection Hof as <-. by rewrite Hcount.
  - injection Hof as <-. by rewrite Hacc.
  - destruct Hacc as (numbers & Hn & Hsum & Hhas). rewrite Hn in Hof. cbn [mbind outcome_bind] in Hof. rewrite Hsum in Hof. injection Hof as <-.
    rewrite Hhas. by destruct (bool_decide (numbers = [])).
  - destruct Hacc as (numbers & Hn & Hmin). rewrite Hn in Hof. injection Hof as <-. destruct numbers as [|n rest]; [done|]. by destruct Hmin as [-> ->].
  - destruct Hacc as (numbers & Hn & Hmax). rewrite Hn in Hof. injection Hof as <-. destruct numbers as [|n rest]; [done|]. by destruct Hmax as [-> ->].
Qed.

(** ** The loops *)
Definition aggregate_loop `{NameOrder} `{FloatFormat} (schema : Schema) (group_bys aggregates : list AbstractExpression) (agg_types : list AggregationType)
    (tuples : list Tuple) : outcome (list Tuple) :=
  if bool_decide (tuples = []) && bool_decide (group_bys = []) then
    t ← Tuple_new (map (fun _ => Value_int INTEGER 0) agg_types); mret [t]
  else
    groups ← fold_rows (fun t => aggregate_row group_bys aggregates agg_types schema (t, RID_default)) tuples ∅;
    group_tuples group_bys agg_types (name_order groups).

Section loops.
Context `{FloatFormat} (schema : Schema) (group_bys aggregates : list AbstractExpression) (agg_types : list AggregationType).
Abbreviation col := (column schema).

Lemma column_snoc expr rows t vals : col expr (rows ++ [t]) = Ret vals →
  ∃ vals1 val, col expr rows = Ret vals1 ∧ Evaluate expr t schema = Ret val ∧ vals = vals1 ++ [val].
Proof. by intros ?%map_rows_snoc. Qed.

Definition columns_ok (rows : list Tuple) (ps : list (AbstractExpression * AggregationType)) : Prop :=
  ∀ p, p ∈ ps → ∃ vals v, col p.1 rows = Ret vals ∧ aggregate_of p.2 vals = Ret v.
Definition columns_hold (rows : list Tuple) (ps : list (AbstractExpression * AggregationType)) (s : AggState) : Prop :=
  ∀ p vals, p ∈ ps → col p.1 rows = Ret vals → accumulated p.2 vals s.

(** One row, all columns. *)
Lemma aggregate_all_accumulates rows t (aggs : list AbstractExpression) : ∀ types s,
  length aggs = length types → NoDup (filter (fun type => type ≠ CountStarAggregate) types) →
  Z.of_nat (length (rows ++ [t])) ≤ INT32_MAX → columns_ok (rows ++ [t]) (zip aggs types) → columns_hold rows (zip aggs types) s →
  ∃ s', aggregate_all aggs types t schema s = Ret s' ∧ columns_hold (rows ++ [t]) (zip aggs types) s' ∧
    group_values s' = group_values s ∧ count_star s' = count_star s ∧
    ∀ type vals, type ∉ types → accumulated type vals s → accumulated type vals s'.
Proof.
  induction aggs as [|e aggs IH]; intros [|type types] s Hlen Hnd Hrows Hok Hhold; try done; cbn [aggregate_all zip zip_with].
  { exists s. split_and!; try done. by intros p vals ?%elem_of_nil. }
  destruct (Hok (e, type)) as (vals & v & Hcol & Hof); [by left|]. cbn [fst snd] in *. pose proof Hcol as (vals1 & val & Hcol1 & Hval & ->)%column_snoc.
  rewrite Hval. cbn [mbind outcome_bind].
  assert (length (vals1 ++ [val]) = length (rows ++ [t])) as Hl by exact (map_rows_length _ _ _ Hcol).
  destruct (aggregate_value_accumulates type vals1 val s v) as (s1 & -> & Hacc & Hgroup & Hcount & Hkept);
    [apply (Hhold (e, type)); [by left|done]|done|by rewrite Hl|]. cbn [mbind outcome_bind].
  assert (type = CountStarAggregate ∨ type ∉ types) as Htype.
  { destruct (decide (type = CountStarAggregate)) as [->|Hne]; [by left|right]. rewrite filter_cons, decide_True in Hnd by done.
    apply NoDup_cons in Hnd as [Hnd _]. intros Hin. apply Hnd. by apply list_elem_of_filter. }
  destruct (IH types s1) as (s' & Hrun & Hhold' & Hgroup' & Hcount' & Hkept'); [by injection Hlen| |done| | |].
  - rewrite filter_cons in Hnd. case_decide; [by apply NoDup_cons in Hnd as [_ ?]|done].
  - intros p Hp. apply Hok. by right.
  - intros p vals Hp Hv. apply Hkept; [|apply Hhold; [by right|done]]. destruct (decide (p.2 = CountStarAggregate)); [by right|left].
    intros Heq. destruct Htype as [->|Htype]; [done|]. apply Htype. rewrite <-Heq. destruct p. by eapply elem_of_zip_r.
  - exists s'. split; [done|]. split; [|split; [by rewrite Hgroup'|split; [by rewrite Hcount'|]]].
    + intros p vals [->|Hp]%elem_of_cons Hv; [|by apply Hhold']. cbn [fst snd] in *. assert (vals = vals1 ++ [val]) as -> by congruence.
      destruct Htype as [->|Htype]; [done|by apply Hkept'].
    + intros type' vals [Hne Hni]%not_elem_of_cons Ha. apply Hkept'; [done|]. apply Hkept; [by left|done].
Qed.

(** The rows of a group. *)
Definition key_of (t : Tuple) : option string :=
  match evaluate_all group_bys t schema with Ret vs => Some (group_key_of vs) | _ => None end.
Definition members (k : string) (tuples : list Tuple) : list Tuple := filter (fun t => key_of t = Some k) tuples.

Definition state_ok (rows : list Tuple) (s : AggState) : Prop :=
  count_star s = Z.of_nat (length rows) ∧ columns_hold rows (zip aggregates agg_types) s ∧
  ∀ t, head rows = Some t → evaluate_all group_bys t schema = Ret (group_values s).
Definition groups_ok (tuples : list Tuple) (groups : gmap string AggState) : Prop :=
  ∀ k, state_ok (members k tuples) (default AggState_new (groups !! k)) ∧ (groups !! k = None ↔ members k tuples = []).

Lemma state_new_ok : state_ok [] AggState_new.
Proof.
  split_and!; [done| |done]. intros [e type] vals _ [= <-]. destruct type; cbn; [done|done|exists []; by split_and!..].
Qed.

Lemma members_app k l1 l2 : members k (l1 ++ l2) = members k l1 ++ members k l2.
Proof. apply filter_app. Qed.
Lemma members_snoc k tuples t : members k (tuples ++ [t]) = if decide (key_of t = Some k) then members k tuples ++ [t] else members k tuples.
Proof.
  unfold members. rewrite filter_app, filter_cons, filter_nil. by case_decide; rewrite ?app_nil_r.
Qed.

Context (Hlen : length aggregates = length agg_types).
Context (Hkinds : NoDup (filter (fun type => type ≠ CountStarAggregate) agg_types)).

Lemma aggregate_row_ok tuples t groups :
  groups_ok tuples groups → is_Some (key_of t) → Z.of_nat (length (tuples ++ [t])) ≤ INT32_MAX →
  (∀ k, key_of t = Some k → columns_ok (members k tuples ++ [t]) (zip aggregates agg_types)) →
  ∃ groups', aggregate_row group_bys aggregates agg_types schema (t, RID_default) groups = Ret groups' ∧ groups_ok (tuples ++ [t]) groups'.
Proof using Hlen Hkinds.
  intros Hgroups [k Hk] Hrows Hcols. specialize (Hcols k Hk). pose proof Hk as Hkey. unfold key_of in Hkey.
  destruct (evaluate_all group_bys t schema) as [vs| | |] eqn:Hvs; try done. injection Hkey as Hkey.
  unfold aggregate_row. cbn [fst]. rewrite Hvs. cbn [mbind outcome_bind]. rewrite Hkey.
  destruct (Hgroups k) as [(Hcount & Hhold & Hhead) Hnone]. set (s := default AggState_new (groups !! k)) in *.
  assert (length (members k tuples) ≤ length tuples)%nat as Hle by apply length_filter. rewrite length_app in Hrows. cbn in Hrows.
  unfold increment_count. rewrite Hcount, int32_op_ok by (apply in_int32_iff; unfold INT32_MIN, INT32_MAX in *; lia). cbn [mbind outcome_bind].
  set (vs0 := if bool_decide _ then vs else group_values s). set (s0 := mkAggState vs0 _ _ _ _ _ _ _ _).
  destruct (aggregate_all_accumulates (members k tuples) t aggregates agg_types s0) as (s' & -> & Hhold' & Hg & Hc & _); [done|done|rewrite length_app; cbn; lia|done| |].
  { intros p vals Hp Hv. specialize (Hhold p vals Hp Hv). by destruct p as [? []]. }
  eexists. split; [done|]. intros k'. rewrite members_snoc. destruct (decide (key_of t = Some k')) as [Heq|Hne].
  - assert (k' = k) as -> by congruence. rewrite lookup_insert_eq. change (default AggState_new (Some s')) with s'. split; [|by split; [|by destruct (members k tuples)]].
    split_and!; [rewrite Hc, length_app; cbn; lia|done|]. intros t0 Ht0. rewrite Hg. cbn. unfold vs0.
    destruct (members k tuples) as [|t1 rest]; cbn in Ht0 |- *; [by injection Ht0 as <-|]. rewrite bool_decide_false by lia. by apply Hhead.
  - rewrite lookup_insert_ne by congruence. apply Hgroups.
Qed.

Lemma columns_ok_prefix rows1 rows2 ps : columns_ok (rows1 ++ rows2) ps → columns_ok rows1 ps.
Proof.
  intros Hok p Hp. destruct (Hok p Hp) as (vals & v & (v1 & v2 & H1 & _ & ->)%map_rows_app & Hof).
  destruct (aggregate_of_prefix _ _ _ _ Hof) as [w Hw]. by exists v1, w.
Qed.

Lemma aggregate_rows_ok tuples rest : ∀ before groups,
  tuples = before ++ rest → groups_ok before groups → Z.of_nat (length tuples) ≤ INT32_MAX →
  (∀ t, t ∈ tuples → ∃ k, key_of t = Some k ∧ columns_ok (members k tuples) (zip aggregates agg_types)) →
  ∃ groups', fold_rows (fun t => aggregate_row group_bys aggregates agg_types schema (t, RID_default)) rest groups = Ret groups' ∧
    groups_ok tuples groups'.
Proof using Hlen Hkinds.
  induction rest as [|t rest IH]; intros before groups Heq Hgroups Hrows Hcols; cbn [fold_rows].
  { exists groups. split; [done|]. by rewrite Heq, app_nil_r. }
  replace (before ++ t :: rest) with ((before ++ [t]) ++ rest) in Heq by by rewrite <-app_assoc.
  destruct (Hcols t) as (k & Hk & Hok); [rewrite Heq; set_solver|].
  destruct (aggregate_row_ok before t groups Hgroups) as (groups1 & -> & Hgroups1); [by eexists| | |].
  - rewrite Heq, length_app in Hrows. lia.
  - intros k' Hk'. assert (k' = k) as -> by congruence. eapply columns_ok_prefix. by rewrite Heq, members_app, members_snoc, decide_True in Hok.
  - cbn [mbind outcome_bind]. by eapply IH.
Qed.

(** ** The groups *)
Lemma keyed_spec tuples : ∀ keyed,
  map_rows (fun t => vs ← evaluate_all group_bys t schema; mret (vs, t)) tuples = Ret keyed →
  keyed.*2 = tuples ∧ ∀ x, x ∈ keyed → evaluate_all group_bys x.2 schema = Ret x.1.
Proof.
  induction tuples as [|t tuples IH]; cbn [map_rows]; intros keyed Hk; [injection Hk as <-; split; [done|by intros x ?%elem_of_nil]|].
  apply outcome_bind_Ret in Hk as (x & Hx & Hk). apply outcome_bind_Ret in Hk as (keyed' & Hk' & [= <-]).
  apply outcome_bind_Ret in Hx as (vs & Hvs & [= <-]). destruct (IH _ Hk') as [<- Hin]. split; [done|].
  intros y [->|Hy]%elem_of_cons; [done|by apply Hin].
Qed.

Lemma filter_keyed vs l :
  (∀ x, x ∈ l → evaluate_all group_bys x.2 schema = Ret x.1 ∧ (group_key_of x.1 = group_key_of vs → x.1 = vs)) →
  (filter (fun x => x.1 = vs) l).*2 = members (group_key_of vs) l.*2.
Proof.
  induction l as [|x l IH]; intros Hl; [done|]. unfold members. cbn [fmap list_fmap]. rewrite !filter_cons. fold (members (group_key_of vs) l.*2).
  destruct (Hl x) as [Hx Hinj]; [by left|]. rewrite <-IH by (intros y Hy; apply Hl; by right). unfold key_of. rewrite Hx.
  destruct (decide (x.1 = vs)) as [->|Hne]; [by rewrite decide_True|]. rewrite decide_False; [done|]. intros [= Heq]. by apply Hne, Hinj.
Qed.

(** The groups partition the rows by their printed values. *)
Record partitions (tuples : list Tuple) (groups : list (list Value * list Tuple)) : Prop := {
  part_keys : NoDup (group_key_of <$> groups.*1);
  part_members g : g ∈ groups → g.2 = members (group_key_of g.1) tuples ∧ g.2 ≠ [];
  part_values g t : g ∈ groups → t ∈ g.2 → evaluate_all group_bys t schema = Ret g.1;
  part_cover t : t ∈ tuples → ∃ g, g ∈ groups ∧ key_of t = Some (group_key_of g.1);
}.

Lemma one_group tuples : group_bys = [] → tuples ≠ [] → partitions tuples [([], tuples)].
Proof.
  intros Hg Hne. assert (∀ t, evaluate_all group_bys t schema = Ret []) as Heval by (intros t; by rewrite Hg).
  assert (∀ t, key_of t = Some "") as Hkey by (intros t; unfold key_of; by rewrite Heval).
  assert (members "" tuples = tuples) as Hm.
  { unfold members. clear Hne. induction tuples as [|t tuples IH]; [done|]. by rewrite filter_cons, decide_True, IH. }
  split; [apply NoDup_singleton| | |].
  - by intros g ->%list_elem_of_singleton.
  - by intros g t ->%list_elem_of_singleton.
  - intros t _. exists ([], tuples). split; [by left|done].
Qed.

Lemma groups_of_partitions tuples groups :
  groups_of schema group_bys tuples = Ret groups → group_bys ≠ [] ∨ tuples ≠ [] →
  (∀ t1 t2 vs1 vs2, t1 ∈ tuples → t2 ∈ tuples → evaluate_all group_bys t1 schema = Ret vs1 → evaluate_all group_bys t2 schema = Ret vs2 →
    group_key_of vs1 = group_key_of vs2 → vs1 = vs2) →
  partitions tuples groups.
Proof.
  intros Hgroups Hne Hinj. unfold groups_of in Hgroups. apply outcome_bind_Ret in Hgroups as (keyed & Hkeyed & [= <-]).
  case_bool_decide as Hg; [apply one_group; [done|by destruct Hne]|]. apply keyed_spec in Hkeyed as [Hsnd Hkeyed].
  assert (∀ x y, x ∈ keyed → y ∈ keyed → group_key_of x.1 = group_key_of y.1 → x.1 = y.1) as Hkinj.
  { intros x y Hx Hy. apply (Hinj x.2 y.2); [rewrite <-Hsnd; by apply list_elem_of_fmap_2|rewrite <-Hsnd; by apply list_elem_of_fmap_2|by apply Hkeyed|by apply Hkeyed]. }
  assert (∀ vs, vs ∈ keyed.*1 → (filter (fun x => x.1 = vs) keyed).*2 = members (group_key_of vs) tuples) as Hfilter.
  { intros vs (y & -> & Hy)%list_elem_of_fmap. rewrite <-Hsnd. apply filter_keyed. intros x Hx. split; [by apply Hkeyed|by apply Hkinj]. }
  assert ((map (fun vs => (vs, (filter (fun x => x.1 = vs) keyed).*2)) (remove_dups keyed.*1)).*1 = remove_dups keyed.*1) as Hfst.
  { generalize (remove_dups keyed.*1). intros l. induction l as [|vs l IH]; [done|]. cbn. by rewrite IH. }
  assert (∀ g, g ∈ map (fun vs => (vs, (filter (fun x => x.1 = vs) keyed).*2)) (remove_dups keyed.*1) →
    g.1 ∈ keyed.*1 ∧ g.2 = (filter (fun x => x.1 = g.1) keyed).*2) as Helem.
  { intros g (vs & -> & Hvs)%list_elem_of_fmap. split; [by apply elem_of_remove_dups|done]. }
  split.
  - rewrite Hfst. apply NoDup_fmap_2_strong; [|apply NoDup_remove_dups].
    intros vs1 vs2. rewrite !elem_of_remove_dups. intros Hv1 Hv2. apply list_elem_of_fmap in Hv1 as (x & -> & Hx). apply list_elem_of_fmap in Hv2 as (y & -> & Hy). by apply Hkinj.
  - intros g [Hg1 Hg2]%Helem. split; [by rewrite Hg2, Hfilter|]. rewrite Hg2. apply list_elem_of_fmap in Hg1 as (x & Hx1 & Hx).
    assert (x.2 ∈ (filter (fun x => x.1 = g.1) keyed).*2) as Hin by by apply list_elem_of_fmap_2, list_elem_of_filter. intros Heq. rewrite Heq in Hin. by apply elem_of_nil in Hin.
  - intros g t [_ Hg2]%Helem Ht. rewrite Hg2 in Ht. apply list_elem_of_fmap in Ht as (x & -> & [<- Hx]%list_elem_of_filter). by apply Hkeyed.
  - intros t Ht. rewrite <-Hsnd in Ht. apply list_elem_of_fmap in Ht as (x & -> & Hx). eexists. split.
    + apply list_elem_of_fmap. exists x.1. split; [done|]. by apply elem_of_remove_dups, list_elem_of_fmap_2.
    + unfold key_of. by rewrite (Hkeyed x Hx).
Qed.

(** ** The results *)
Definition state_values (s : AggState) : list Value :=
  (if bool_decide (group_bys = []) then [] else group_values s) ++ map (aggregate_result s) agg_types.

Lemma group_tuples_order `{NameOrder} (groups : gmap string AggState) (results : gmap string Tuple) :
  (∀ k, groups !! k = None ↔ results !! k = None) →
  (∀ k s t, groups !! k = Some s → results !! k = Some t → Tuple_new (state_values s) = Ret t) →
  group_tuples group_bys agg_types (name_order groups) = Ret (name_order results).*2.
Proof.
  intros Hdom Hval. destruct (same_keys_zip groups results Hdom) as (both & -> & ->).
  rewrite !name_order_fmap.
  assert (∀ x, x ∈ name_order both → Tuple_new (state_values x.2.1) = Ret x.2.2) as Hall.
  { intros [k [s t]] Hx. rewrite name_order_perm, elem_of_map_to_list in Hx. apply (Hval k); by rewrite lookup_fmap, Hx. }
  revert Hall. generalize (name_order both). intros l Hall. induction l as [|[k [s t]] l IH]; [done|]. cbn [fmap list_fmap group_tuples prod_map fst snd id].
  fold (state_values s). pose proof (Hall (k, (s, t)) ltac:(by left)) as Ht. cbn [fst snd] in Ht. rewrite Ht. cbn [mbind outcome_bind]. rewrite IH; [done|]. intros x Hx. apply Hall. by right.
Qed.

Lemma group_state_values tuples groups g s values :
  groups_ok tuples groups → (group_bys = [] → g.1 = []) → g.2 = members (group_key_of g.1) tuples → g.2 ≠ [] →
  (∀ t, t ∈ g.2 → evaluate_all group_bys t schema = Ret g.1) → groups !! group_key_of g.1 = Some s →
  (∀ p vals v, p ∈ zip aggregates agg_types → col p.1 g.2 = Ret vals → aggregate_of p.2 vals = Ret v → IsNull v = false) →
  aggregate_group schema aggregates agg_types g = Ret values → state_values s = values.
Proof using Hlen.
  intros Hgroups Hempty Hmem Hne Hvalues Hs Hnn Hagg. destruct (Hgroups (group_key_of g.1)) as [(Hcount & Hhold & Hhead) _].
  rewrite Hs, <-Hmem in *. cbn in Hcount, Hhold, Hhead. unfold aggregate_group in Hagg. apply outcome_bind_Ret in Hagg as (results & Hres & [= <-]).
  unfold state_values. f_equal.
  - case_bool_decide as Hg; [by rewrite Hempty|]. destruct g.2 as [|t rest] eqn:Hg2; [done|]. specialize (Hhead t eq_refl). specialize (Hvalues t ltac:(by left)). congruence.
  - assert (agg_types = (zip aggregates agg_types).*2) as -> by by rewrite snd_zip by lia.
    revert Hres Hhold Hnn. generalize (zip aggregates agg_types). intros ps. revert results.
    induction ps as [|p ps IH]; intros results Hres Hhold Hnn; cbn [map_rows] in Hres; [by injection Hres as <-|].
    apply outcome_bind_Ret in Hres as (v & Hv & Hres). apply outcome_bind_Ret in Hres as (vs & Hvs & [= <-]).
    apply outcome_bind_Ret in Hv as (vals & Hvals & Hv). cbn [fmap list_fmap map]. f_equal.
    + eapply accumulated_result; [by apply (Hhold p); [left|]| |exact Hv|by apply (Hnn p vals v); [left|..]].
      by rewrite Hcount, (map_rows_length _ _ _ Hvals).
    + apply IH; [done|intros q vals' Hq; apply Hhold; by right|intros q vals' v' Hq; apply Hnn; by right].
Qed.
End loops.

(** ** Agreement *)
Section agreement.
Context `{NameOrder} `{FloatFormat} (schema : Schema) (group_bys aggregates : list AbstractExpression) (agg_types : list AggregationType).
Context (tuples : list Tuple) (Hok : grouping_ok schema group_bys aggregates agg_types tuples).

(** No row and no GROUP BY: every aggregate is a count. *)
Lemma no_rows_agree results : group_bys = [] → tuples = [] →
  aggregate schema group_bys aggregates agg_types tuples = Ret results → aggregate_loop schema group_bys aggregates agg_types tuples = Ret results.
Proof using Hok.
  intros Hg Ht. unfold aggregate, aggregate_loop, groups_of. pose proof (grouping_values _ _ _ _ _ Hok [([], [])] ([], [])) as Hnn. unfold groups_of in Hnn.
  rewrite Ht in *. rewrite !(bool_decide_true (group_bys = [])) in * by done. case_bool_decide as Hlen; [|done]. cbn [map_rows mret outcome_ret mbind outcome_bind andb] in *.
  rewrite (bool_decide_true ([] = [])) by done. cbn [andb].
  intros Hagg. apply outcome_bind_Ret in Hagg as (results' & Hagg & [= <-]). apply outcome_bind_Ret in Hagg as (x & Hx & Hagg). injection Hagg as <-.
  apply outcome_bind_Ret in Hx as (values & Hvalues & Hx). apply outcome_bind_Ret in Hx as (t & Htuple & [= <-]).
  assert (values = map (fun _ => Value_int INTEGER 0) agg_types) as ->.
  { clear Htuple. unfold aggregate_group in Hvalues. apply outcome_bind_Ret in Hvalues as (vs & Hvs & [= <-]). cbn [fst snd app] in *.
    assert (agg_types = (zip aggregates agg_types).*2) as -> by by rewrite snd_zip by lia.
    assert (∀ p v, p ∈ zip aggregates agg_types → aggregate_of p.2 [] = Ret v → IsNull v = false) as Hnn' by
      (intros [e type] v Hp Hv; by eapply Hnn; [done|by left|exact Hp|done|]). clear Hnn.
    revert vs Hvs Hnn'. generalize (zip aggregates agg_types). intros ps. induction ps as [|p ps IH]; intros vs Hvs Hnn; cbn [map_rows] in Hvs; [by injection Hvs as <-|].
    apply outcome_bind_Ret in Hvs as (v & Hv & Hvs). apply outcome_bind_Ret in Hvs as (vs' & Hvs' & [= <-]). cbn [column map_rows mret outcome_ret mbind outcome_bind] in Hv.
    cbn [fmap list_fmap map]. f_equal; [|apply IH; [done|intros q w Hq; apply Hnn; by right]].
    specialize (Hnn p v ltac:(by left) Hv). by destruct p as [e []]; injection Hv as <-. }
  rewrite Htuple. unfold arrange. rewrite decide_True by apply NoDup_singleton. cbn. f_equal.
  pose proof (name_order_perm ({["" := t]} : gmap string Tuple)) as Hperm. rewrite map_to_list_singleton in Hperm. apply Permutation_singleton_r in Hperm.
  rewrite insert_empty, Hperm. done.
Qed.

Lemma aggregate_loop_agrees results :
  aggregate schema group_bys aggregates agg_types tuples = Ret results → aggregate_loop schema group_bys aggregates agg_types tuples = Ret results.
Proof using Hok.
  intros Hagg. destruct (decide (group_bys = [] ∧ tuples = [])) as [[??]|Hsome]; [by apply no_rows_agree|].
  unfold aggregate in Hagg. unfold aggregate_loop. replace (bool_decide (tuples = []) && bool_decide (group_bys = [])) with false.
  2:{ symmetry. apply andb_false_iff. destruct (decide (tuples = [])); [right|left]; apply bool_decide_eq_false; [intros ?; by apply Hsome|done]. }
  case_bool_decide as Hlen; [|done]. apply outcome_bind_Ret in Hagg as (groups & Hgroups & Hagg). apply outcome_bind_Ret in Hagg as (rows & Hrows & [= <-]).
  assert (partitions schema group_bys tuples groups) as Hpart.
  { apply groups_of_partitions; [done| |by apply Hok]. destruct (decide (group_bys = [])); [right|by left]. intros ?. by apply Hsome. }
  destruct Hpart as [Hkeys Hmembers Hvalues Hcover].
  assert (∀ g, g ∈ groups → ∃ values t, aggregate_group schema aggregates agg_types g = Ret values ∧ Tuple_new values = Ret t ∧ (group_key_of g.1, t) ∈ rows) as Hrow.
  { intros g Hg. destruct (map_rows_elem _ _ _ _ Hrows Hg) as (r & Hr & Hin). apply outcome_bind_Ret in Hr as (values & ? & Hr). apply outcome_bind_Ret in Hr as (t & ? & [= <-]). by exists values, t. }
  assert (∀ g, g ∈ groups → columns_ok schema (members schema group_bys (group_key_of g.1) tuples) (zip aggregates agg_types)) as Hcols.
  { intros g Hg p Hp. destruct (Hrow g Hg) as (values & _ & Hvs & _). unfold aggregate_group in Hvs. apply outcome_bind_Ret in Hvs as (vs & Hvs & _).
    destruct (map_rows_elem _ _ _ _ Hvs Hp) as (v & Hv & _). apply outcome_bind_Ret in Hv as (vals & ? & ?). destruct (Hmembers g Hg) as [<- _]. by exists vals, v. }
  destruct (aggregate_rows_ok schema group_bys aggregates agg_types Hlen (grouping_kinds _ _ _ _ _ Hok) tuples tuples [] ∅) as (states & -> & Hstates).
  { done. }
  { intros k. split; [apply state_new_ok|]. by rewrite lookup_empty. }
  { apply Hok. }
  { intros t Ht. destruct (Hcover t Ht) as (g & Hg & Hk). eexists. split; [exact Hk|]. by apply Hcols. }
  cbn [mbind outcome_bind]. assert (rows.*1 = group_key_of <$> groups.*1) as Hfst.
  { clear - Hrows. revert rows Hrows. induction groups as [|g groups IH]; cbn [map_rows]; intros rows Hrows; [by injection Hrows as <-|].
    apply outcome_bind_Ret in Hrows as (r & Hr & Hrows). apply outcome_bind_Ret in Hrows as (rs & Hrs & [= <-]).
    apply outcome_bind_Ret in Hr as (values & ? & Hr). apply outcome_bind_Ret in Hr as (t & ? & [= <-]). cbn. f_equal. by apply IH. }
  unfold arrange. rewrite decide_True by by rewrite Hfst. apply (group_tuples_order group_bys agg_types states).
  - intros k. destruct (Hstates k) as [_ ->]. rewrite <-not_elem_of_list_to_map, Hfst. split.
    + intros Hm (vs & -> & (g & -> & Hg)%list_elem_of_fmap)%list_elem_of_fmap. destruct (Hmembers g Hg) as [Heq Hne]. by rewrite Heq in Hne.
    + intros Hk. destruct (members schema group_bys k tuples) as [|t rest] eqn:Hm; [done|]. destruct Hk.
      assert (t ∈ members schema group_bys k tuples) as [Hkt Ht]%list_elem_of_filter by (rewrite Hm; by left).
      destruct (Hcover t Ht) as (g & Hg & Hkg). assert (k = group_key_of g.1) as -> by congruence. by do 2 apply list_elem_of_fmap_2.
  - intros k s t Hs Ht. apply elem_of_list_to_map_2 in Ht. destruct (map_rows_back _ _ _ _ Hrows Ht) as (g & Hg & Hr).
    apply outcome_bind_Ret in Hr as (values & Hvs & Hr). apply outcome_bind_Ret in Hr as (t' & Htuple & [= <- <-]).
    destruct (Hmembers g Hg) as [Heq Hne]. rewrite (group_state_values schema group_bys aggregates agg_types Hlen tuples states g s values); try done.
    + intros Hg0. unfold groups_of in Hgroups. apply outcome_bind_Ret in Hgroups as (keyed & _ & [= <-]). rewrite bool_decide_true in Hg by done.
      by apply list_elem_of_singleton in Hg as ->.
    + intros t0 Ht0. by apply (Hvalues g).
    + intros [e type] vals v Hp. by apply (grouping_values _ _ _ _ _ Hok groups g).
Qed.
End agreement.
