(* ===== verification/ExecutorSpec.v ===== *)
(** * The executors compute the query semantics

    [produces e l s]: in state [s], [Next] of the executor [e] returns the rows [l]
    one by one and then reports the end.  [computes e l]: [Init] brings [e] from any
    state into one that produces [l], so that a join can start its right side again.
    Both hold as long as the context satisfies an invariant that the reads keep. *)
From Stdlib Require Import Sorting.Sorted.
From coqutil Require Import Byte.
From S2P Require Import Prelude Interfaces DiskManager BufferPool BufferPoolSpec Value Tuple TablePage TableHeap HeapCursor.
From S2P Require Import Catalog CatalogSpec Expression Plan Executor QuerySemantics AggregationSpec.

#[local] Open Scope Z_scope.
#[local] Coercion Z.of_nat : nat >-> Z.

Section contract.
Context {St : Type} (inv : Catalog St → Prop).
Implicit Types (c : Catalog St) (l : list result_row).

(** What [Next] leaves behind its pointers when it returns row [x]. *)
Definition written (x : result_row) (out : row) : row := (x.1, default out.2 x.2).

Fixpoint produces {X} (next : row → M (Catalog St * X) (bool * row)) l (s : X) : Prop :=
  match l with
  | [] => ∀ c out, inv c → wp (next out) (c, s) (fun r cs => r.1 = false ∧ inv cs.1)
  | x :: l' => ∀ c out, inv c →
      wp (next out) (c, s) (fun r cs => r = (true, written x out) ∧ inv cs.1 ∧ produces next l' cs.2)
  end.

Definition computes (e : AbstractExecutor) l : Prop :=
  ∀ c s, inv c → wp (Init e) (c, s) (fun _ cs => inv cs.1 ∧ produces (Next e) l cs.2).

(** ** Rules *)
Lemma wp_on_catalog {X A} (m : M (Catalog St) A) c (x : X) (Q : A → Catalog St * X → Prop) :
  wp m c (fun r c' => Q r (c', x)) → wp (on_catalog m) (c, x) Q.
Proof. intros HQ. by apply wp_zoom. Qed.
Lemma wp_get {X} c (x : X) (Q : X → Catalog St * X → Prop) : Q x (c, x) → wp get (c, x) Q.
Proof. done. Qed.
Lemma wp_put {X} c (x y : X) (Q : unit → Catalog St * X → Prop) : Q tt (c, y) → wp (put y) (c, x) Q.
Proof. done. Qed.
Lemma wp_on_child {X Y A} (m : M (Catalog St * X) A) c (x : X) (y : Y) (Q : A → Catalog St * (X * Y) → Prop) :
  wp m (c, x) (fun r cs => Q r (cs.1, (cs.2, y))) → wp (on_child m) (c, (x, y)) Q.
Proof. intros HQ. by apply wp_zoom. Qed.
Lemma wp_on_own {X Y A} (m : M (Catalog St * Y) A) c (x : X) (y : Y) (Q : A → Catalog St * (X * Y) → Prop) :
  wp m (c, y) (fun r cs => Q r (cs.1, (x, cs.2))) → wp (on_own m) (c, (x, y)) Q.
Proof. intros HQ. by apply wp_zoom. Qed.

(** An executor that is part of a larger state. *)
Record part {S X : Type} := mkPart {
  view : S → Catalog St * X;
  update : Catalog St * X → S → S;
  view_update t s : view (update t s) = t;
  update_update t t' s : update t' (update t s) = update t' s;
  update_view s : update (view s) s = s;
}.

Definition child_part {X Y} : part (S := Catalog St * (X * Y)) (X := X).
Proof. refine (mkPart _ _ (fun s => (s.1, s.2.1)) (fun t s => (t.1, (t.2, s.2.2))) _ _ _); abstract (by intros; repeat match goal with x : _ * _ |- _ => destruct x end). Defined.
Definition right_part {X Y Z} : part (S := Catalog St * (X * (Y * Z))) (X := Y).
Proof. refine (mkPart _ _ (fun s => (s.1, s.2.2.1)) (fun t s => (t.1, (s.2.1, (t.2, s.2.2.2)))) _ _ _); abstract (by intros; repeat match goal with x : _ * _ |- _ => destruct x end). Defined.

(** [call] runs [m] on a part of the state. *)
Definition calls {S X A} (p : part (S := S) (X := X)) (call : M S A) (m : M (Catalog St * X) A) : Prop :=
  ∀ s (Q : A → S → Prop), wp m (view p s) (fun r t => Q r (update p t s)) → wp call s Q.

Lemma calls_child {X Y A} (m : M (Catalog St * X) A) : calls (child_part (Y := Y)) (on_child m) m.
Proof. intros s Q HQ. by apply wp_zoom. Qed.
Lemma calls_right {X Y Z A} (m : M (Catalog St * Y) A) : calls (right_part (X := X) (Z := Z)) (on_right m) m.
Proof. intros [c [x [y z]]] Q HQ. apply wp_on_own, wp_on_child. exact HQ. Qed.

(** A loop over the rows of an executor: [P] holds before each call of [Next],
    with the rows that are still to come. *)
Lemma for_each_wp {S A} (e : AbstractExecutor) (p : part (S := S)) (call : row → M S (bool * row)) (body : row → A → M S A)
    (P : list result_row → A → S → Prop) (Q : A → S → Prop) :
  (∀ o, calls p (call o) (Next e o)) →
  (∀ l acc s, P l acc s → inv (view p s).1 ∧ produces (Next e) l (view p s).2) →
  (∀ x l out acc s cs, P (x :: l) acc s → inv cs.1 → produces (Next e) l cs.2 → wp (body (written x out) acc) (update p cs s) (P l)) →
  (∀ acc s cs, P [] acc s → inv cs.1 → Q acc (update p cs s)) →
  ∀ n l out acc s, (length l < n)%nat → P l acc s → wp (for_each n call body out acc) s Q.
Proof.
  intros Hcall Hinv Hbody Hend. induction n as [|n IH]; intros l out acc s Hn HP; [lia|]. cbn [for_each].
  destruct (Hinv _ _ _ HP) as [Hi Hl]. wp_step. apply Hcall. destruct (view p s) as [c x]. cbn [fst snd] in *.
  destruct l as [|y l]; cbn [produces] in Hl.
  - eapply wp_mono; [by apply Hl|]. intros [more out'] cs [Hmore Hi']. cbn in Hmore. rewrite Hmore. cbn [fst]. apply wp_ret. by apply Hend.
  - eapply wp_mono; [by apply Hl|]. intros r cs (-> & Hi' & Hl'). cbn [fst snd]. wp_step. cbn in Hn.
    eapply wp_mono; [by eapply Hbody|]. intros acc' s' HP'. apply (IH l); [lia|done].
Qed.

(** The results of an executor that computes them all in [Init]. *)
Lemma next_result_produces (tuples : list Tuple) : ∀ done, produces (X := list Tuple * nat) next_result (anonymous tuples) (done ++ tuples, length done).
Proof.
  induction tuples as [|t tuples IH]; intros done c out Hc; unfold next_result; wp_step; apply wp_get; cbn beta iota.
  - rewrite app_nil_r, lookup_ge_None_2 by done. by apply wp_ret.
  - rewrite list_lookup_middle by done. wp_step. apply wp_put. wp_step. split_and!; [done|done|].
    specialize (IH (done ++ [t])). rewrite <-app_assoc, length_app, Nat.add_comm in IH. exact IH.
Qed.

Lemma produces_on_own {X Y} (next : row → M (Catalog St * Y) (bool * row)) l : ∀ (x : X) (y : Y),
  produces next l y → produces (fun out => on_own (next out)) l (x, y).
Proof.
  induction l as [|z l IH]; intros x y Hl c out Hc; apply wp_on_own; (eapply wp_mono; [by apply Hl|]).
  - by intros r cs [Hr Hc'].
  - intros r cs (Hr & Hc' & Hl'). split_and!; [done|done|]. by apply IH.
Qed.

Lemma results_produced {X} (x : X) (tuples : list Tuple) : produces (fun out => on_own (next_result out)) (anonymous tuples) (x, (tuples, 0%nat)).
Proof. apply produces_on_own. apply (next_result_produces tuples []). Qed.

(** A loop that computes a value from the rows. *)
Lemma for_each_fold {S A} (e : AbstractExecutor) (p : part (S := S)) (call : row → M S (bool * row)) (f : Tuple → A → outcome A)
    (body : row → A → M S A) n l b b' out s (Q : A → S → Prop) :
  (∀ o, calls p (call o) (Next e o)) → (∀ r acc s, body r acc s = lift (f r.1 acc) s) →
  fold_rows f l.*1 b = Ret b' → (length l < n)%nat → inv (view p s).1 → produces (Next e) l (view p s).2 →
  (∀ cs, inv cs.1 → Q b' (update p cs s)) →
  wp (for_each n call body out b) s Q.
Proof.
  intros Hcall Hbody Hfold Hn Hc Hl HQ.
  apply (for_each_wp e p call body
    (fun l acc s' => ∃ cs, s' = update p cs s ∧ inv cs.1 ∧ produces (Next e) l cs.2 ∧ fold_rows f l.*1 acc = Ret b') Q) with (l := l); [..|done|].
  - done.
  - intros l' acc s' (cs & -> & ? & ? & _). by rewrite view_update.
  - intros [t o] l' out' acc s' cs (cs0 & -> & _ & _ & Hf) Hc' Hl'. unfold wp. rewrite Hbody. cbn in Hf |- *.
    apply outcome_bind_Ret in Hf as (acc' & Hacc & Hf). rewrite Hacc. cbn. exists cs. by rewrite update_update.
  - intros acc s' cs (cs0 & -> & _ & _ & Hf) Hc'. cbn in Hf. injection Hf as ->. rewrite update_update. by apply HQ.
  - exists (view p s). by rewrite update_view.
Qed.

(** ** Limit, projection, sort and aggregation *)
Section unary.
Context `{PageStore St (list byte)} `{NameOrder} `{FloatFormat} `{SortAlgorithm}.
Context (rounds : nat) (child : AbstractExecutor) (l : list result_row) (Hchild : computes child l).

Lemma limit_produces limit l' : ∀ n s,
  0 ≤ n → limit < 2 ^ 64 → produces (Next child) l' s →
  produces (Next (LimitExecutor (mkSchema [] 0) limit child)) (take (Z.to_nat (limit - n)) l') (s, n).
Proof.
  induction l' as [|x l' IH]; intros n s Hn Hlimit Hs.
  - rewrite take_nil. intros c out Hc. cbn [Next LimitExecutor]. wp_step. apply wp_on_own, wp_get. cbn.
    case_bool_decide as Hle; [by apply wp_ret|]. wp_step. apply wp_on_child. eapply wp_mono; [by apply Hs|].
    intros [more out'] cs [Hmore Hc']. cbn in Hmore. rewrite Hmore. by apply wp_ret.
  - destruct (decide (limit ≤ n)) as [Hle|Hlt].
    + replace (Z.to_nat (limit - n)) with 0%nat by lia. intros c out Hc. cbn [Next LimitExecutor]. wp_step. apply wp_on_own, wp_get. cbn.
      rewrite bool_decide_true by done. by apply wp_ret.
    + replace (Z.to_nat (limit - n)) with (S (Z.to_nat (limit - (n + 1)))) by lia. cbn [take]. intros c out Hc. cbn [Next LimitExecutor].
      wp_step. apply wp_on_own, wp_get. cbn [fst snd]. rewrite bool_decide_false by done.
      wp_step. apply wp_on_child. eapply wp_mono; [by apply Hs|]. intros r cs (-> & Hc' & Hs'). cbn [fst snd].
      wp_step. apply wp_on_own, wp_put. wp_step. split_and!; [done|done|]. cbn [fst snd]. rewrite wrapu_small by lia. apply IH; [lia|done|done].
Qed.

Lemma LimitExecutor_computes schema limit :
  limit < 2 ^ 64 → computes (LimitExecutor schema limit child) (take (Z.to_nat limit) l).
Proof.
  intros Hlimit c [s n] Hc. cbn [Init LimitExecutor]. wp_step. apply wp_on_child. eapply wp_mono; [by apply Hchild|].
  intros [] [c' s'] [Hc' Hs']. apply wp_on_own, wp_put. split; [done|]. cbn [fst snd] in *.
  pose proof (limit_produces limit l 0 s' (Z.le_refl 0) Hlimit Hs') as Hp. rewrite Z.sub_0_r in Hp. exact Hp.
Qed.

(** A row of the projection. *)
Definition project (schema : Schema) (exprs : list AbstractExpression) (x : result_row) : outcome result_row :=
  values ← evaluate_all exprs x.1 schema; t ← Tuple_new values; mret (t, Some (default RID_default x.2)).

Lemma projection_produces schema exprs : ∀ l' rows s,
  map_rows (project (GetOutputSchema child) exprs) l' = Ret rows → produces (Next child) l' s →
  produces (Next (ProjectionExecutor schema exprs child)) rows s.
Proof.
  intros l'. induction l' as [|x l' IH]; intros rows s Hrows Hs; cbn [map_rows] in Hrows.
  - injection Hrows as <-. intros c out Hc. cbn [Next ProjectionExecutor]. wp_step. eapply wp_mono; [by apply Hs|].
    intros [more out'] cs [Hmore Hc']. cbn in Hmore. rewrite Hmore. by apply wp_ret.
  - apply outcome_bind_Ret in Hrows as (y & Hy & Hrows). apply outcome_bind_Ret in Hrows as (ys & Hys & Hrows). injection Hrows as <-.
    unfold project in Hy. apply outcome_bind_Ret in Hy as (values & Hvalues & Hy). apply outcome_bind_Ret in Hy as (t & Ht & Hy). injection Hy as <-.
    intros c out Hc. cbn [Next ProjectionExecutor]. wp_step. eapply wp_mono; [by apply Hs|]. intros r cs (-> & Hc' & Hs'). cbn [fst snd written].
    rewrite Hvalues. wp_step. wp_step. rewrite Ht. wp_step. wp_step. wp_step. split_and!; [done|done|]. by apply IH.
Qed.

Lemma ProjectionExecutor_computes schema exprs rows :
  map_rows (project (GetOutputSchema child) exprs) l = Ret rows → computes (ProjectionExecutor schema exprs child) rows.
Proof.
  intros Hrows c s Hc. cbn [Init ProjectionExecutor]. eapply wp_mono; [by apply Hchild|]. intros [] cs [Hc' Hs']. split; [done|].
  by eapply projection_produces.
Qed.

Lemma fold_rows_collect (tuples done : list Tuple) : fold_rows (fun t ts => mret (ts ++ [t])) tuples done = Ret (done ++ tuples).
Proof. revert done. induction tuples as [|t tuples IH]; intros done; cbn; [by rewrite app_nil_r|]. by rewrite IH, <-app_assoc. Qed.

Lemma SortExecutor_computes schema order_bys tuples :
  (length l < rounds)%nat → std_sort (sort_less order_bys (GetOutputSchema child)) l.*1 = Ret tuples →
  computes (SortExecutor rounds schema order_bys child) (anonymous tuples).
Proof.
  intros Hrounds Hsort c [s y] Hc. cbn [Init SortExecutor]. wp_step. apply wp_on_child. eapply wp_mono; [by apply Hchild|].
  intros [] [c' s'] [Hc' Hs']. wp_step. apply wp_on_own, wp_put. cbn [fst snd] in *. wp_step.
  eapply (for_each_fold child child_part _ (fun t ts => mret (ts ++ [t])) _ _ l); [intros; apply calls_child|done|apply fold_rows_collect|done|done|done|].
  intros [c2 s2] Hc2. cbn [app]. rewrite Hsort. wp_step. wp_step. apply wp_on_own, wp_put. split; [done|]. apply results_produced.
Qed.

Lemma fold_rows_pair {A} (f : Tuple → A → outcome A) tuples : ∀ b b',
  fold_rows f tuples b = Ret b' → ∀ z,
  fold_rows (fun t p => a ← f t p.1; mret (a, true)) tuples (b, z) = Ret (b', match tuples with [] => z | _ => true end).
Proof.
  induction tuples as [|t tuples IH]; intros b b' Hf z; cbn in *; [by injection Hf as ->|].
  apply outcome_bind_Ret in Hf as (a & Ha & Hf). rewrite Ha. cbn. rewrite (IH _ _ Hf true). by destruct tuples.
Qed.

Lemma aggregate_row_rid group_bys aggregates agg_types schema r rid groups :
  aggregate_row group_bys aggregates agg_types schema r groups = aggregate_row group_bys aggregates agg_types schema (r.1, rid) groups.
Proof. done. Qed.

Lemma AggregationExecutor_computes schema group_bys aggregates agg_types tuples :
  (length l < rounds)%nat → aggregate_loop (GetOutputSchema child) group_bys aggregates agg_types l.*1 = Ret tuples →
  computes (AggregationExecutor rounds schema group_bys aggregates agg_types child) (anonymous tuples).
Proof.
  intros Hrounds Hagg c [s y] Hc. cbn [Init AggregationExecutor]. wp_step. apply wp_on_child. eapply wp_mono; [by apply Hchild|].
  intros [] [c' s'] [Hc' Hs']. wp_step. apply wp_on_own, wp_put. cbn [fst snd] in *. wp_step.
  set (f := fun t => aggregate_row group_bys aggregates agg_types (GetOutputSchema child) (t, RID_default)).
  assert (∃ groups, fold_rows f l.*1 ∅ = Ret groups ∧
    (if negb (match l with [] => false | _ => true end) && bool_decide (group_bys = []) then
       t ← Tuple_new (map (fun _ => Value_int INTEGER 0) agg_types); mret [t]
     else group_tuples group_bys agg_types (name_order groups)) = Ret tuples) as (groups & Hgroups & Hresult).
  { unfold aggregate_loop in Hagg. destruct l as [|x l']; cbn [fmap list_fmap] in *.
    - exists ∅. split; [done|]. cbn [negb andb] in *. by destruct (bool_decide (group_bys = [])).
    - rewrite (bool_decide_false (_ :: _ = [])) in Hagg by done. cbn [andb] in Hagg.
      apply outcome_bind_Ret in Hagg as (groups & Hgroups & Hagg). by exists groups. }
  eapply (for_each_fold child child_part _ (fun t p => a ← f t p.1; mret (a, true)) _ _ l); [intros; apply calls_child| |by apply fold_rows_pair|done|done|done|].
  - intros r [groups0 z] s0. unfold f. rewrite (aggregate_row_rid _ _ _ _ r RID_default). m_unfold. cbn [fst].
    by destruct (aggregate_row _ _ _ _ _ _).
  - intros [c2 s2] Hc2. cbn beta iota. wp_step.
    assert (match l.*1 with [] => false | _ => true end = match l with [] => false | _ => true end) as -> by by destruct l.
    destruct (negb _ && _) in Hresult |- *.
    + apply outcome_bind_Ret in Hresult as (t & Ht & Hresult). injection Hresult as <-. wp_step. rewrite Ht. wp_step. wp_step.
      apply wp_on_own, wp_put. split; [done|]. apply (results_produced s2 [t]).
    + rewrite Hresult. wp_step. apply wp_on_own, wp_put. split; [done|]. apply results_produced.
Qed.
End unary.

(** ** Joins *)
Section joins.
Context `{PageStore St (list byte)} `{FloatFormat}.
Context (rounds : nat) (left_executor right_executor : AbstractExecutor (St := St)) (lefts rights : list result_row).
Context (Hleft : computes left_executor lefts) (Hright : computes right_executor rights).
Context (Hlefts : (length lefts < rounds)%nat) (Hrights : (length rights < rounds)%nat).
Abbreviation left_schema := (GetOutputSchema left_executor).
Abbreviation right_schema := (GetOutputSchema right_executor).

(** Both sides are at their start. *)
Lemma join_start {Z : Type} (z z' : Z) c sl sr (k : M (Catalog St * (ex_state left_executor * (ex_state right_executor * Z))) unit) Q :
  inv c →
  (∀ c' sl' sr', inv c' → produces (Next left_executor) lefts sl' → produces (Next right_executor) rights sr' →
    wp k (c', (sl', (sr', z'))) Q) →
  wp (on_left (Init left_executor);; on_right (Init right_executor);; on_result (put z');; k) (c, (sl, (sr, z))) Q.
Proof using Hleft Hright.
  intros Hc Hk. wp_step. apply wp_on_child. eapply wp_mono; [by apply Hleft|]. intros [] [c1 sl1] [Hc1 Hl1].
  wp_step. apply wp_on_own, wp_on_child. eapply wp_mono; [by apply Hright|]. intros [] [c2 sr2] [Hc2 Hr2].
  wp_step. apply wp_on_own, wp_on_own, wp_put. by apply Hk.
Qed.

Lemma join_results_produced {X Y} (x : X) (y : Y) (tuples : list Tuple) :
  produces (fun out => on_result (next_result out)) (anonymous tuples) (x, (y, (tuples, 0%nat))).
Proof. apply (produces_on_own (fun out => on_own (next_result out))), results_produced. Qed.

(** The inner loop appends the pairs of one left row. *)
Lemma match_pairs_fold predicate (l : Tuple) rid : ∀ rs new acc,
  choose_rows (join_pair (theta_condition predicate left_schema right_schema) left_schema right_schema l) rs = Ret new →
  fold_rows (fun r acc => match_pair predicate left_schema right_schema (l, rid) (r, RID_default) acc) rs acc = Ret (acc ++ new).
Proof.
  induction rs as [|r rs IH]; intros new acc Hnew; cbn in Hnew |- *; [injection Hnew as <-; by rewrite app_nil_r|].
  apply outcome_bind_Ret in Hnew as (o & Ho & Hnew). apply outcome_bind_Ret in Hnew as (ys & Hys & Hnew).
  assert (match_pair predicate left_schema right_schema (l, rid) (r, RID_default) acc = Ret (acc ++ match o with Some t => [t] | None => [] end)) as ->.
  { unfold join_pair, theta_condition in Ho. unfold match_pair. cbn [fst]. apply outcome_bind_Ret in Ho as (m & -> & Ho). destruct m; cbn.
    - apply outcome_bind_Ret in Ho as (t & Ht & Ho). injection Ho as <-. by rewrite Ht.
    - injection Ho as <-. by rewrite app_nil_r. }
  cbn. injection Hnew as <-. rewrite (IH _ _ Hys), <-app_assoc. by destruct o.
Qed.

Lemma NestedLoopJoinExecutor_computes schema predicate tuples :
  nested_join (theta_condition predicate left_schema right_schema) left_schema right_schema lefts.*1 rights.*1 = Ret tuples →
  computes (NestedLoopJoinExecutor rounds schema predicate left_executor right_executor) (anonymous tuples).
Proof using Hleft Hright Hlefts Hrights.
  intros Hjoin c [sl [sr z]] Hc. cbn [Init NestedLoopJoinExecutor]. apply join_start; [done|]. intros c1 sl1 sr1 Hc1 Hl1 Hr1. wp_step.
  apply outcome_bind_Ret in Hjoin as (pairs & Hpairs & Htuples). injection Htuples as <-.
  eapply (for_each_wp left_executor child_part _ _ (fun (ls : list result_row) (acc : list Tuple) s => inv s.1 ∧ produces (Next left_executor) ls s.2.1 ∧
    produces (Next right_executor) rights s.2.2.1 ∧
    ∃ ts, map_rows (fun l : Tuple => choose_rows (join_pair (theta_condition predicate left_schema right_schema) left_schema right_schema l) rights.*1) ls.*1 = Ret ts ∧
      acc ++ List.concat ts = List.concat pairs)) with (l := lefts); [intros; apply calls_child| | | |done|].
  - by intros l acc s (? & ? & _).
  - intros [t o] ls out acc [c0 [sl0 [sr0 z0]]] [c2 sl2] (_ & _ & Hr & ts & Hts & Hacc) Hc2 Hl2. cbn [fst snd update child_part written] in *.
    cbn [fmap list_fmap map_rows] in Hts. apply outcome_bind_Ret in Hts as (new & Hnew & Hts). apply outcome_bind_Ret in Hts as (rest & Hrest & Hts).
    injection Hts as <-. wp_step.
    eapply (for_each_fold right_executor right_part _
      (fun r acc => match_pair predicate left_schema right_schema (t, default out.2 o) (r, RID_default) acc) _ _ rights);
      [intros; apply calls_right|done|by apply match_pairs_fold|done|done|done|].
    intros [c3 sr3] Hc3. wp_step. apply wp_on_own, wp_on_child. eapply wp_mono; [by apply Hright|]. intros [] [c4 sr4] [Hc4 Hr4].
    wp_step. split_and!; [done|done|done|]. exists rest. split; [done|]. rewrite <-Hacc. cbn. by rewrite <-app_assoc.
  - intros acc [c0 [sl0 [sr0 z0]]] [c2 sl2] (_ & _ & _ & ts & Hts & Hacc) Hc2. injection Hts as <-. cbn in Hacc. rewrite app_nil_r in Hacc.
    cbn [fst snd update child_part]. apply wp_on_own, wp_on_own, wp_put. subst acc. split; [done|]. apply join_results_produced.
  - split_and!; [done..|]. by exists pairs.
Qed.

(** The hash table has the left rows of each key, in their order. *)
Definition table_of (keyed : list (string * Tuple)) (table : gmap string (list Tuple)) : Prop :=
  ∀ k, default [] (table !! k) = (filter (fun x => x.1 = k) keyed).*2.

Lemma build_side_fold key_expr : ∀ ls keyed before table,
  map_rows (fun l : Tuple => k ← print_key key_expr left_schema l; mret (k, l)) ls = Ret keyed → table_of before table →
  ∃ table', fold_rows (fun (l : Tuple) t => build_side key_expr left_schema (l, RID_default) t) ls table = Ret table' ∧ table_of (before ++ keyed) table'.
Proof.
  induction ls as [|l ls IH]; intros keyed before table Hkeyed Htable; cbn in Hkeyed |- *.
  { injection Hkeyed as <-. exists table. by rewrite app_nil_r. }
  apply outcome_bind_Ret in Hkeyed as (y & Hy & Hkeyed). apply outcome_bind_Ret in Hkeyed as (ys & Hys & Hkeyed). injection Hkeyed as <-.
  apply outcome_bind_Ret in Hy as (k & Hk & Hy). injection Hy as <-. unfold print_key in Hk. apply outcome_bind_Ret in Hk as (v & Hv & Hk). injection Hk as <-.
  assert (build_side key_expr left_schema (l, RID_default) table = Ret (<[ToString v := default [] (table !! ToString v) ++ [l]]> table)) as ->
    by (unfold build_side; cbn [fst]; by rewrite Hv).
  cbn [mbind outcome_bind].
  destruct (IH ys (before ++ [(ToString v, l)]) (<[ToString v := default [] (table !! ToString v) ++ [l]]> table) Hys) as (table' & -> & Ht').
  - intros k. rewrite filter_app, fmap_app, <-(Htable k), filter_cons. cbn [fst]. destruct (decide (ToString v = k)) as [<-|Hne].
    + rewrite lookup_insert_eq. by cbn.
    + rewrite lookup_insert_ne by done. cbn. by rewrite app_nil_r.
  - exists table'. split; [done|]. by rewrite <-app_assoc in Ht'.
Qed.

Lemma combine_all_map ls r : combine_all ls left_schema r right_schema = map_rows (fun l : Tuple => combine l left_schema r right_schema) ls.
Proof. induction ls as [|l ls IH]; cbn; [done|]. by rewrite IH. Qed.

Lemma probe_side_fold key_expr keyed table : table_of keyed table → ∀ rs pairs acc,
  map_rows (fun r => k ← print_key key_expr right_schema r;
    map_rows (fun l : Tuple => combine l left_schema r right_schema) (filter (fun x => x.1 = k) keyed).*2) rs = Ret pairs →
  fold_rows (fun r acc => probe_side key_expr left_schema right_schema table (r, RID_default) acc) rs acc = Ret (acc ++ List.concat pairs).
Proof.
  intros Htable. induction rs as [|r rs IH]; intros pairs acc Hpairs; cbn in Hpairs |- *.
  { injection Hpairs as <-. cbn. by rewrite app_nil_r. }
  apply outcome_bind_Ret in Hpairs as (y & Hy & Hpairs). apply outcome_bind_Ret in Hpairs as (ys & Hys & Hpairs). injection Hpairs as <-.
  apply outcome_bind_Ret in Hy as (k & Hk & Hy). unfold print_key in Hk. apply outcome_bind_Ret in Hk as (v & Hv & Hk). injection Hk as <-.
  assert (probe_side key_expr left_schema right_schema table (r, RID_default) acc = Ret (acc ++ y)) as ->.
  { unfold probe_side. cbn [fst]. rewrite Hv. cbn [mbind outcome_bind]. specialize (Htable (ToString v)). rewrite <-Htable in Hy.
    destruct (table !! ToString v) as [found|]; cbn [default from_option id] in Hy.
    - rewrite combine_all_map, Hy. done.
    - injection Hy as <-. by rewrite app_nil_r. }
  cbn. rewrite (IH _ _ Hys). cbn. by rewrite <-app_assoc.
Qed.

Lemma HashJoinExecutor_computes schema left_key_expr right_key_expr tuples :
  hash_join left_key_expr right_key_expr left_schema right_schema lefts.*1 rights.*1 = Ret tuples →
  computes (HashJoinExecutor rounds schema left_key_expr right_key_expr left_executor right_executor) (anonymous tuples).
Proof using Hleft Hright Hlefts Hrights.
  intros Hjoin c [sl [sr z]] Hc. cbn [Init HashJoinExecutor]. apply join_start; [done|]. intros c1 sl1 sr1 Hc1 Hl1 Hr1. wp_step.
  apply outcome_bind_Ret in Hjoin as (keyed & Hkeyed & Hjoin). apply outcome_bind_Ret in Hjoin as (pairs & Hpairs & Htuples). injection Htuples as <-.
  destruct (build_side_fold left_key_expr _ _ [] ∅ Hkeyed) as (table & Hbuild & Htable); [by intros k|]. cbn in Htable.
  eapply (for_each_fold left_executor child_part _ (fun (l : Tuple) t => build_side left_key_expr left_schema (l, RID_default) t) _ _ lefts);
    [intros; apply calls_child|done|exact Hbuild|done|done|done|].
  intros [c2 sl2] Hc2. cbn [update child_part fst snd]. wp_step.
  eapply (for_each_fold right_executor right_part _ (fun r acc => probe_side right_key_expr left_schema right_schema table (r, RID_default) acc) _ _ rights);
    [intros; apply calls_right|done|by eapply probe_side_fold|done|done|done|].
  intros [c3 sr3] Hc3. cbn [update right_part fst snd app]. apply wp_on_own, wp_on_own, wp_put. split; [done|]. apply join_results_produced.
Qed.
End joins.
End contract.

(** ** Scans *)
Section scans.
Context {St : Type} `{PageStoreSpec St (list byte)} `{FloatFormat}.
Context (rounds fuel : nat) (a : pstate (list byte)) (c0 : Catalog St).
Implicit Types (c : Catalog St).

(** Nothing but the contents of the frames changes. *)
Definition at_rest c : Prop := ps_rep (bpm_ c) a ∧ c = set_bpm (bpm_ c) c0.

Lemma at_rest_heap c s : at_rest c → ps_rep s a → at_rest (set_bpm s c).
Proof. intros [_ Hc] Hs. split; [done|]. rewrite Hc. done. Qed.
Lemma at_rest_maps c : at_rest c → tables_ c = tables_ c0 ∧ indexes_ c = indexes_ c0.
Proof. intros [_ ->]. done. Qed.

Lemma wp_heap {X A} (m : M St A) c (x : X) (P : A → St → Prop) (Q : A → Catalog St * X → Prop) :
  wp m (bpm_ c) P → (∀ r s, P r s → Q r (set_bpm s c, x)) → wp (on_catalog (on_heap m)) (c, x) Q.
Proof. intros Hm HQ. apply wp_on_catalog. unfold on_heap. apply wp_zoom. eapply wp_mono; [exact Hm|]. apply HQ. Qed.

(** The rows of a table. *)
Definition has_rows (oid : Z) (rows : list (RID * list byte)) : Prop :=
  ∃ info h, GetTable oid c0 = Some info ∧ readable fuel a (table_ info) h ∧ rows = live_pages h.

(** A scan writes the identifier of every row. *)
Lemma selected_written schema predicate l x rows out out' :
  choose_rows (select_row schema predicate) l = Ret (x :: rows) → written x out = written x out'.
Proof.
  revert rows. induction l as [|y l IH]; intros rows Hrows; cbn in Hrows; [done|].
  apply outcome_bind_Ret in Hrows as (o & Ho & Hrows). apply outcome_bind_Ret in Hrows as (ys & Hys & Hrows).
  unfold select_row in Ho. apply outcome_bind_Ret in Ho as (keep & _ & Ho). destruct keep.
  - apply outcome_bind_Ret in Ho as (t & _ & Ho). injection Ho as <-. by injection Hrows as <- _.
  - injection Ho as <-. injection Hrows as ->. by eapply IH.
Qed.

Lemma seq_scan_next_wp info first h schema predicate : readable fuel a first h → ∀ n l it rows c out,
  at_rest c → cursor h l it → (length l < n)%nat → choose_rows (select_row schema predicate) l = Ret rows →
  wp (seq_scan_next fuel n info schema predicate out) (c, (info, it)) (fun r cs => at_rest cs.1 ∧
    match rows with
    | [] => r.1 = false
    | x :: rows' => r = (true, written x out) ∧ ∃ it' skipped y l', cs.2 = (info, it') ∧ l = skipped ++ y :: l' ∧
        select_row schema predicate y = Ret (Some x) ∧ cursor h l' it' ∧ choose_rows (select_row schema predicate) l' = Ret rows'
    end).
Proof.
  intros Hread. induction n as [|n IH]; intros l it rows c out Hc Hcur Hn Hrows; [lia|]. cbn [seq_scan_next]. wp_step. apply wp_get. cbn [snd].
  pose proof (cursor_at_end fuel _ _ _ _ _ _ (proj1 Hc) Hread Hcur) as Hend. destruct l as [|x l]; cbn [choose_rows] in Hrows.
  { rewrite decide_True by by apply Hend. injection Hrows as <-. by apply wp_ret. }
  rewrite decide_False by (intros He; by apply Hend in He).
  apply outcome_bind_Ret in Hrows as (o & Ho & Hrows). apply outcome_bind_Ret in Hrows as (ys & Hys & Hrows). injection Hrows as Hrows.
  wp_step. eapply wp_heap; [eapply (cursor_deref fuel); [apply Hc|done|done]|]. intros t s1 [-> Hs1].
  wp_step. eapply wp_heap; [eapply (cursor_next fuel); [done|done|exact Hcur]|]. intros it' s2 [Hs2 Hcur'].
  assert (at_rest (set_bpm s2 (set_bpm s1 c))) as Hc2 by by repeat apply at_rest_heap.
  pose proof Ho as Hselect. wp_step. apply wp_put. unfold select_row in Ho. apply outcome_bind_Ret in Ho as (keep & Hkeep & Ho). wp_step. rewrite Hkeep. wp_step.
  destruct keep.
  - apply outcome_bind_Ret in Ho as (t & Ht & Ho). injection Ho as <-. subst rows. wp_step. cbn [rid_ stored_tuple]. rewrite Ht. wp_step. wp_step.
    split_and!; [done|done|]. by exists it', [], x, l.
  - injection Ho as <-. subst ys. cbn in Hn. eapply wp_mono; [apply (IH l); [done|done|lia|done]|].
    intros r cs [Hc' Hr]. split; [done|]. destruct rows as [|y rows]; [done|]. destruct Hr as (-> & it2 & skipped & y2 & l2 & ? & -> & ?).
    split; [by rewrite (selected_written _ _ _ _ _ _ out Hys)|]. by exists it2, (x :: skipped), y2, l2.
Qed.

Lemma SeqScanExecutor_computes schema oid predicate l rows :
  has_rows oid l → (length l < rounds)%nat → choose_rows (select_row schema predicate) l = Ret rows →
  computes at_rest (SeqScanExecutor rounds fuel schema oid predicate) rows.
Proof.
  intros (info & h & Hinfo & Hread & ->) Hlen Hrows c [ti it] Hc. cbn [Init SeqScanExecutor].
  assert (GetTable oid c = Some info) as Hget by (unfold GetTable; by rewrite (proj1 (at_rest_maps _ Hc))).
  wp_step. apply wp_on_catalog. wp_step. wp_step. apply wp_get. wp_step. apply wp_put. rewrite Hget. cbn [deref]. wp_step. wp_step.
  wp_step. eapply wp_heap; [apply (Begin_cursor fuel); [apply Hc|done]|]. intros it' s [Hs Hcur]. apply wp_put.
  split; [by apply at_rest_heap|]. cbn [snd]. revert Hcur Hlen Hrows. generalize (live_pages h).
  revert it'. induction rows as [|x rows IH]; intros it' l Hcur Hlen Hrows c' out Hc'; cbn [Next SeqScanExecutor]; wp_step; apply wp_get; cbn [fst];
    (eapply wp_mono; [by apply (seq_scan_next_wp _ _ h schema predicate Hread rounds l)|]).
  - by intros r cs [? ?].
  - intros r [c2 x2] (Hc2 & -> & it2 & skipped & y & l2 & Hx2 & -> & _ & Hcur2 & Hrows2). cbn in Hx2. subst x2. split_and!; [done|done|].
    rewrite length_app in Hlen. cbn in Hlen. apply (IH it2 l2); [done|lia|done].
Qed.

(** The rows behind the identifiers of an index. *)
Lemma index_scan_next_wp info h schema predicate : readable fuel a (table_ info) h → ∀ n (found : list (RID * list byte)) before rows c out,
  Forall (.∈ live_pages h) found → at_rest c → (length found < n)%nat → choose_rows (select_row schema predicate) found = Ret rows →
  wp (index_scan_next n (Some info) schema predicate out) (c, (before ++ found.*1, length before)) (fun r cs => at_rest cs.1 ∧
    match rows with
    | [] => r.1 = false
    | x :: rows' => r = (true, written x out) ∧ ∃ before' skipped y found', cs.2 = (before' ++ found'.*1, length before') ∧ found = skipped ++ y :: found' ∧
        select_row schema predicate y = Ret (Some x) ∧ choose_rows (select_row schema predicate) found' = Ret rows'
    end).
Proof.
  intros Hread. induction n as [|n IH]; intros found before rows c out Hin Hc Hn Hrows; [lia|]. cbn [index_scan_next]. wp_step. apply wp_get. cbn beta iota.
  destruct found as [|x found]; cbn [fmap list_fmap choose_rows] in *.
  { rewrite app_nil_r, lookup_ge_None_2 by done. injection Hrows as <-. by apply wp_ret. }
  rewrite list_lookup_middle by done. apply Forall_cons in Hin as [Hx Hin]. cbn [deref].
  apply outcome_bind_Ret in Hrows as (o & Ho & Hrows). apply outcome_bind_Ret in Hrows as (ys & Hys & Hrows). injection Hrows as Hrows.
  wp_step. apply wp_put. wp_step. wp_step. wp_step. eapply wp_heap; [eapply (member_deref fuel); [apply Hc|done|done]|]. intros t s1 [-> Hs1].
  assert (at_rest (set_bpm s1 c)) as Hc1 by by apply at_rest_heap.
  pose proof Ho as Hselect. unfold select_row in Ho. apply outcome_bind_Ret in Ho as (keep & Hkeep & Ho). wp_step. rewrite Hkeep. wp_step.
  assert (before ++ x.1 :: found.*1 = (before ++ [x.1]) ++ found.*1) as Happ by by rewrite <-app_assoc.
  assert (S (length before) = length (before ++ [x.1])) as Hlen by (rewrite length_app; cbn; lia).
  rewrite Happ, Hlen. destruct keep.
  - apply outcome_bind_Ret in Ho as (t & Ht & Ho). injection Ho as <-. subst rows. wp_step. rewrite Ht. wp_step. wp_step.
    split_and!; [done|done|]. by exists (before ++ [x.1]), [], x, found.
  - injection Ho as <-. subst ys. cbn in Hn. eapply wp_mono; [apply (IH found); [done|done|lia|done]|].
    intros r cs [Hc' Hr]. split; [done|]. destruct rows as [|y rows]; [done|]. destruct Hr as (-> & before' & skipped & y2 & l2 & ? & -> & ?).
    split; [done|]. by exists before', (x :: skipped), y2, l2.
Qed.

Lemma find_row_in rid rows x : find_row rid rows = Ret x → x ∈ rows ∧ x.1 = rid.
Proof.
  unfold find_row. destruct (List.find _ rows) as [y|] eqn:Hf; [|done]. cbn. intros [= <-].
  apply List.find_some in Hf as [Hin Hy%bool_decide_eq_true]. split; [|done]. by apply list_elem_of_In.
Qed.

Lemma find_rows_in rows : ∀ rids found, map_rows (fun rid => find_row rid rows) rids = Ret found → Forall (.∈ rows) found ∧ found.*1 = rids.
Proof.
  induction rids as [|rid rids IH]; intros found Hf; cbn in Hf; [injection Hf as <-; done|].
  apply outcome_bind_Ret in Hf as (x & [Hx1 Hx2]%find_row_in & Hf). apply outcome_bind_Ret in Hf as (xs & Hxs & Hf). injection Hf as <-.
  destruct (IH _ Hxs) as [Ha Hb]. split; [by constructor|]. cbn. by rewrite Hx2, Hb.
Qed.

Lemma index_scan_init_wp schema oid index_oid lookup_key predicate rids c z :
  at_rest c → index_rids lookup_key (GetIndex index_oid c0) = Ret rids →
  wp (Init (IndexScanExecutor schema oid index_oid lookup_key predicate)) (c, z) (fun _ cs => cs = (c, (rids, 0%nat))).
Proof.
  intros Hc Hrids. cbn [Init IndexScanExecutor]. wp_step. apply wp_on_catalog. wp_step. wp_step. apply wp_put.
  assert (GetIndex index_oid c = GetIndex index_oid c0) as -> by (unfold GetIndex; by rewrite (proj2 (at_rest_maps _ Hc))).
  unfold index_rids in Hrids. destruct (GetIndex index_oid c0) as [i|]; [|injection Hrids as <-; by apply wp_ret].
  destruct (SupportsPointLookup i); cbn [negb]; [|injection Hrids as <-; by apply wp_ret].
  destruct lookup_key; try (injection Hrids as <-; by apply wp_ret).
  apply outcome_bind_Ret in Hrids as (key & Hkey & Hrids). injection Hrids as <-. wp_step. rewrite Hkey. wp_step.
  destruct (LookupInteger key i); [by apply wp_put|by apply wp_ret].
Qed.

Lemma IndexScanExecutor_computes schema oid index_oid lookup_key predicate l rids found rows :
  has_rows oid l → index_rids lookup_key (GetIndex index_oid c0) = Ret rids →
  map_rows (fun rid => find_row rid l) rids = Ret found → choose_rows (select_row schema predicate) found = Ret rows →
  computes at_rest (IndexScanExecutor schema oid index_oid lookup_key predicate) rows.
Proof.
  intros (info & h & Hinfo & Hread & ->) Hrids [Hin Hfound]%find_rows_in Hrows c s Hc.
  eapply wp_mono; [by apply index_scan_init_wp|].
  intros [] cs ->. split; [done|]. cbn [snd]. change (rids, 0%nat) with (([] : list RID) ++ rids, length ([] : list RID)).
  rewrite <-Hfound. clear Hfound Hrids. revert found Hin Hrows. generalize (@nil RID).
  induction rows as [|x rows IH]; intros before found Hin Hrows c' out Hc'; cbn [Next IndexScanExecutor];
    wp_step; apply wp_on_catalog; wp_step; wp_step; apply wp_get;
    assert (GetTable oid c' = Some info) as -> by (unfold GetTable; by rewrite (proj1 (at_rest_maps _ Hc')));
    (eapply wp_mono; [apply (index_scan_next_wp info h schema predicate Hread _ found before); [done|done| |done]|]);
    cbn [fst]; try (rewrite length_app, length_fmap; lia).
  - by intros r cs [? ?].
  - intros r [c2 x2] (Hc2 & -> & before' & skipped & y & found' & Hx2 & -> & _ & Hrows'). cbn in Hx2. subst x2. split_and!; [done|done|].
    apply IH; try done. by apply Forall_app in Hin as [_ [_ ?]%Forall_cons].
Qed.

(** ** Every query *)
Context `{NameOrder} `{SortAlgorithm}.

(** A limit is a [size_t]. *)
Fixpoint limits_ok (plan : AbstractPlanNode) : Prop :=
  match plan with
  | NestedLoopJoinPlanNode _ l r _ | HashJoinPlanNode _ l r _ _ => limits_ok l ∧ limits_ok r
  | AggregationPlanNode _ child _ _ _ | SortPlanNode _ child _ | ProjectionPlanNode _ child _ => limits_ok child
  | LimitPlanNode _ child limit => limits_ok child ∧ limit < 2 ^ 64
  | _ => True
  end.

(** A plan without aggregation. *)
Fixpoint plain_plan (plan : AbstractPlanNode) : Prop :=
  match plan with
  | NestedLoopJoinPlanNode _ l r _ | HashJoinPlanNode _ l r _ _ => plain_plan l ∧ plain_plan r
  | AggregationPlanNode _ _ _ _ _ => False
  | SortPlanNode _ child _ | ProjectionPlanNode _ child _ => plain_plan child
  | LimitPlanNode _ child limit => plain_plan child ∧ limit < 2 ^ 64
  | _ => True
  end.

Lemma plain_limits plan : plain_plan plan → limits_ok plan.
Proof. induction plan; cbn; intuition. Qed.
Lemma plain_aggregates table index plan : plain_plan plan → aggregates_ok table index plan.
Proof. induction plan; cbn; intuition. Qed.

Definition database (table : Z → option (list (RID * list byte))) : Prop := ∀ oid rows, table oid = Some rows → has_rows oid rows.
End scans.

Section queries.
Context {St : Type} `{PageStoreSpec St (list byte)} `{FloatFormat} `{IterOrder} `{NameOrder} `{SortAlgorithm}.
Context (fuel : nat) (c0 : Catalog St) (table : Z → option (list (RID * list byte))).
Abbreviation meaning := (denote table (fun oid => GetIndex oid c0)).
Abbreviation aggregates_ok := (aggregates_ok table (fun oid => GetIndex oid c0)).

(** With enough rounds the executor of the plan computes [rows], however the rows of
    the tables lie on the pages. *)
Definition executes (plan : AbstractPlanNode) (rows : list result_row) : Prop :=
  ∃ n, ∀ a rounds, database fuel a c0 table → (n ≤ rounds)%nat →
    ∃ e, CreateExecutor rounds fuel plan = Ret e ∧ GetOutputSchema e = plan_schema plan ∧ computes (at_rest a c0) e rows.

Lemma deref_Ret {A} (o : option A) x : deref o = Ret x → o = Some x.
Proof. destruct o; [by intros [= ->]|done]. Qed.

(** A plan with one child. *)
Lemma executes_unary child rows plan rows' (make : nat → AbstractExecutor (St := St) → AbstractExecutor) :
  executes child rows →
  (∀ rounds e, CreateExecutor rounds fuel child = Ret e → CreateExecutor rounds fuel plan = Ret (make rounds e)) →
  (∀ rounds e, GetOutputSchema (make rounds e) = plan_schema plan) →
  (∀ a rounds e, (length rows < rounds)%nat → GetOutputSchema e = plan_schema child → computes (at_rest a c0) e rows →
    computes (at_rest a c0) (make rounds e) rows') →
  executes plan rows'.
Proof.
  intros [n Hn] Hmake Hschema Hcomp. exists (n `max` S (length rows))%nat. intros a rounds Hdb Hr.
  destruct (Hn a rounds Hdb) as (e & He & Hs & Hc); [lia|]. exists (make rounds e). split_and!; [by apply Hmake|apply Hschema|].
  apply Hcomp; [lia|done|done].
Qed.

Lemma executes_binary l r lrows rrows plan rows' (make : nat → AbstractExecutor (St := St) → AbstractExecutor (St := St) → AbstractExecutor) :
  executes l lrows → executes r rrows →
  (∀ rounds e f, CreateExecutor rounds fuel l = Ret e → CreateExecutor rounds fuel r = Ret f →
    CreateExecutor rounds fuel plan = Ret (make rounds e f)) →
  (∀ rounds e f, GetOutputSchema (make rounds e f) = plan_schema plan) →
  (∀ a rounds e f, (length lrows < rounds)%nat → (length rrows < rounds)%nat → GetOutputSchema e = plan_schema l → GetOutputSchema f = plan_schema r →
    computes (at_rest a c0) e lrows → computes (at_rest a c0) f rrows → computes (at_rest a c0) (make rounds e f) rows') →
  executes plan rows'.
Proof.
  intros [n Hn] [m Hm] Hmake Hschema Hcomp. exists (n `max` m `max` S (length lrows) `max` S (length rrows))%nat. intros a rounds Hdb Hr.
  destruct (Hn a rounds Hdb) as (e & He & Hse & Hce); [lia|]. destruct (Hm a rounds Hdb) as (f & Hf & Hsf & Hcf); [lia|].
  exists (make rounds e f). split_and!; [by apply Hmake|apply Hschema|]. apply Hcomp; done || lia.
Qed.

Lemma plan_executes plan : ∀ rows, limits_ok plan → aggregates_ok plan → meaning plan = Ret rows → executes plan rows.
Proof.
  induction plan; intros rows Hok Hagg Hrows; cbn [denote limits_ok QuerySemantics.aggregates_ok] in *; try done.
  - apply outcome_bind_Ret in Hrows as (l & Hl%deref_Ret & Hrows). exists (S (length l)). intros a rounds Hdb Hr. eexists. split_and!; [done|done|].
    eapply SeqScanExecutor_computes; [by apply Hdb|lia|done].
  - apply outcome_bind_Ret in Hrows as (rids & Hrids & Hrows). apply outcome_bind_Ret in Hrows as (l & Hl%deref_Ret & Hrows).
    apply outcome_bind_Ret in Hrows as (found & Hfound & Hrows). exists 0%nat. intros a rounds Hdb _. eexists. split_and!; [done|done|].
    eapply IndexScanExecutor_computes; [by apply Hdb|done|done|done].
  - destruct Hok as [Hok1 Hok2]. destruct Hagg as [Hagg1 Hagg2]. apply outcome_bind_Ret in Hrows as (ls & Hls & Hrows). apply outcome_bind_Ret in Hrows as (rs & Hrs & Hrows).
    apply outcome_bind_Ret in Hrows as (tuples & Htuples & Hrows). injection Hrows as <-.
    eapply (executes_binary plan1 plan2 ls rs _ _ (fun rounds e f => NestedLoopJoinExecutor rounds output_schema predicate e f)); [by auto|by auto| |done|].
    + intros rounds e f He Hf. cbn [CreateExecutor]. by rewrite He, Hf.
    + intros a rounds e f Hl Hr He Hf Hce Hcf. eapply NestedLoopJoinExecutor_computes; [done..|]. by rewrite He, Hf.
  - destruct Hok as [Hok1 Hok2]. destruct Hagg as [Hagg1 Hagg2]. apply outcome_bind_Ret in Hrows as (ls & Hls & Hrows). apply outcome_bind_Ret in Hrows as (rs & Hrs & Hrows).
    apply outcome_bind_Ret in Hrows as (tuples & Htuples & Hrows). injection Hrows as <-.
    eapply (executes_binary plan1 plan2 ls rs _ _ (fun rounds e f => HashJoinExecutor rounds output_schema left_key_expr right_key_expr e f)); [by auto|by auto| |done|].
    + intros rounds e f He Hf. cbn [CreateExecutor]. by rewrite He, Hf.
    + intros a rounds e f Hl Hr He Hf Hce Hcf. eapply HashJoinExecutor_computes; [done..|]. by rewrite He, Hf.
  - destruct Hagg as [Hagg Hgroups]. apply outcome_bind_Ret in Hrows as (l & Hl & Hrows). apply outcome_bind_Ret in Hrows as (tuples & Htuples & Hrows). injection Hrows as <-.
    eapply (executes_unary plan l _ _ (fun rounds e => AggregationExecutor rounds output_schema group_bys aggregates agg_types e)); [by auto| |done|].
    + intros rounds e He. cbn [CreateExecutor]. by rewrite He.
    + intros a rounds e Hr He Hce. eapply AggregationExecutor_computes; [done..|]. rewrite He. apply aggregate_loop_agrees; [by apply Hgroups|done].
  - apply outcome_bind_Ret in Hrows as (l & Hl & Hrows). apply outcome_bind_Ret in Hrows as (tuples & Htuples & Hrows). injection Hrows as <-.
    eapply (executes_unary plan l _ _ (fun rounds e => SortExecutor rounds output_schema order_bys e)); [by auto| |done|].
    + intros rounds e He. cbn [CreateExecutor]. by rewrite He.
    + intros a rounds e Hr He Hce. eapply SortExecutor_computes; [done..|]. by rewrite He.
  - destruct Hok as [Hok Hlimit]. apply outcome_bind_Ret in Hrows as (l & Hl & Hrows). injection Hrows as <-.
    eapply (executes_unary plan l _ _ (fun rounds e => LimitExecutor output_schema limit e)); [by auto| |done|].
    + intros rounds e He. cbn [CreateExecutor]. by rewrite He.
    + intros a rounds e Hr He Hce. by apply LimitExecutor_computes.
  - apply outcome_bind_Ret in Hrows as (l & Hl & Hrows).
    eapply (executes_unary plan l _ _ (fun rounds e => ProjectionExecutor output_schema expressions e)); [by auto| |done|].
    + intros rounds e He. cbn [CreateExecutor]. by rewrite He.
    + intros a rounds e Hr He Hce. eapply ProjectionExecutor_computes; [done|]. by rewrite He.
Qed.
End queries.

(** The top of a plan. *)
Definition whole_part {St X} : part (St := St) (S := Catalog St * X) (X := X).
Proof. by refine (mkPart _ _ id (fun t _ => t) _ _ _). Defined.

(** The engine runs what the factory makes of a plan; how many rounds are enough does
    not depend on the state of the pages. *)
Lemma Execute_denotes {St} `{PageStoreSpec St (list byte)} `{FloatFormat} `{IterOrder} `{NameOrder} `{SortAlgorithm}
    (c : Catalog St) (fuel : nat) (table : Z → option (list (RID * list byte))) plan rows :
  limits_ok plan → aggregates_ok table (fun oid => GetIndex oid c) plan → denote table (fun oid => GetIndex oid c) plan = Ret rows →
  ∃ n, ∀ a rounds s, database fuel a c table → (n ≤ rounds)%nat → ps_rep s a →
    wp (Execute rounds fuel plan) (set_bpm s c) (fun tuples c' => tuples = rows.*1 ∧ ps_rep (bpm_ c') a ∧ c' = set_bpm (bpm_ c') c).
Proof.
  intros Hok Hagg Hrows. destruct (plan_executes fuel c table plan rows Hok Hagg Hrows) as [n Hn].
  exists (n `max` S (length rows))%nat. intros a rounds s Hdb Hr Hps. destruct (Hn a rounds Hdb) as (e & He & _ & Hcomp); [lia|].
  unfold Execute. rewrite He. wp_step. wp_step. unfold run_executor.
  assert (wp (Init e;; for_each rounds (Next e) (fun r ts => mret (ts ++ [r.1])) out_start []) (set_bpm s c, ex_start e)
    (fun ts cs => ts = rows.*1 ∧ at_rest a c cs.1)) as Hrun.
  { wp_step. eapply wp_mono; [by apply Hcomp; split|]. intros [] [c1 s1] [Hc1 Hs1]. cbn [fst snd] in *.
    eapply (for_each_fold (at_rest a c) e whole_part (Next e) (fun t ts => mret (ts ++ [t])) _ _ rows);
      [by intros o t Q HQ|done|apply fold_rows_collect|lia|done|done|]. by intros cs Hcs. }
  destruct (wp_elim _ _ _ Hrun) as (ts & [c' s'] & Hm & -> & Hps' & Hc'). unfold wp. by rewrite Hm.
Qed.

(** C3: queries mean what relational algebra says.  When a plan of scans, index
    scans, joins, aggregations, sorts, limits and projections denotes the rows [rows]
    over the live rows of the tables, [ExecutionEngine::Execute] on it terminates and
    returns exactly these rows in this order, through all the executors, cursors and
    pages, and leaves the catalog and the content of every page as they were.  An
    aggregation means what SQL says of it: each function of the values of its own
    column in each group, without NULLs, and NULL for the SUM, MIN or MAX of no value.
    The executor agrees with that under [aggregates_ok]: it has one counter, one sum,
    one minimum and one maximum for all aggregates, so each of COUNT, SUM, MIN and MAX
    is used once at most; it returns 0 where SUM, MIN or MAX is NULL, so each has a
    value; different groups print different values; and the rows can be counted by an
    [int].  The condition is void for a plan without aggregation. *)
Theorem Execute_refines {St} `{PageStoreSpec St (list byte)} `{FloatFormat} `{IterOrder} `{NameOrder} `{SortAlgorithm}
    (c : Catalog St) (a : pstate (list byte)) (fuel : nat) (table : Z → option (list (RID * list byte))) plan rows :
  ps_rep (bpm_ c) a → database fuel a c table → limits_ok plan → aggregates_ok table (fun oid => GetIndex oid c) plan →
  denote table (fun oid => GetIndex oid c) plan = Ret rows →
  ∃ n, ∀ rounds, (n ≤ rounds)%nat →
    wp (Execute rounds fuel plan) c (fun tuples c' => tuples = rows.*1 ∧ ps_rep (bpm_ c') a ∧ c' = set_bpm (bpm_ c') c).
Proof.
  intros Hps Hdb Hok Hagg Hrows. destruct (Execute_denotes c fuel table plan rows Hok Hagg Hrows) as [n Hn].
  exists n. intros rounds Hr. replace c with (set_bpm (bpm_ c) c) at 1 by by destruct c. by apply (Hn a).
Qed.

(** ** Queries over a table with one row

    [SELECT x FROM t WHERE x = 7], and [SELECT MIN(x), COUNT( * ), SUM(x) FROM t GROUP BY x]. *)
#[local] Instance plain_floats : FloatFormat := fun _ => "".

Definition column_x : AbstractExpression := ColumnValueExpression 0 0 INTEGER.
Definition x_is (i : Z) : AbstractExpression := ComparisonExpression column_x (ConstantValueExpression (Value_int INTEGER i)) Equal.
Definition select_x (i : Z) : AbstractPlanNode :=
  ProjectionPlanNode one_column (SeqScanPlanNode one_column 1 (x_is i)) [column_x].

Definition group_x : AbstractPlanNode :=
  AggregationPlanNode one_column (SeqScanPlanNode one_column 1 (x_is 7)) [column_x]
    [column_x; ConstantValueExpression (Value_int INTEGER 1); column_x] [MinAggregate; CountStarAggregate; SumAggregate].
Definition group_row : Tuple :=
  match Tuple_new [Value_int INTEGER 7; Value_int INTEGER 7; Value_int INTEGER 1; Value_int INTEGER 7] with Ret t => t | _ => row_seven end.

Lemma group_x_ok (table : Z → option (list (RID * list byte))) index rid :
  table 1 = Some [(rid, data_ row_seven)] → aggregates_ok table index group_x.
Proof.
  intros Ht. split; [done|]. intros rows. cbn [denote]. rewrite Ht. intros [= <-]. split.
  - refine (bool_decide_unpack _ _). vm_compute. exact I.
  - done.
  - intros t1 t2 vs1 vs2 ->%list_elem_of_singleton ->%list_elem_of_singleton. congruence.
  - intros groups g expr type vals v [= <-] Hg Hp. apply list_elem_of_singleton in Hg as ->.
    repeat (apply elem_of_cons in Hp as [[= -> ->]|Hp]; [intros [= <-] [= <-]; done|]). by apply elem_of_nil in Hp.
Qed.

Example Execute_refines_witness :
  wp (first ← TableHeap_new; os ← insert_all 2 first [row_seven]; mret first) heap_pool (fun first s =>
    (∃ n, wp (Execute n 4 (select_x 7)) (demo_catalog first s) (fun tuples _ => tuples = [row_seven])) ∧
    (∃ n, wp (Execute n 4 (select_x 8)) (demo_catalog first s) (fun tuples _ => tuples = [])) ∧
    (∃ n, wp (Execute n 4 group_x) (demo_catalog first s) (fun tuples _ => tuples = [group_row]))).
Proof.
  eapply wp_mono; [exact one_row_heap|]. intros first s (a & h & rid & Hrep & Hread & Hlive & _).
  assert (database 4 a (demo_catalog first s) (fun oid => if decide (oid = 1) then Some [(rid, data_ row_seven)] else None)) as Hdb.
  { intros oid rows. destruct (decide (oid = 1)) as [->|]; [|done]. intros [= <-].
    exists (mkTableInfo one_column "t" first 1), h. by split_and!. }
  split_and!.
  - destruct (Execute_refines (demo_catalog first s) a 4 _ (select_x 7) [(row_seven, Some rid)] Hrep Hdb I I eq_refl) as [n Hn].
    exists n. eapply wp_mono; [by apply (Hn n)|]. by intros tuples c' [-> _].
  - destruct (Execute_refines (demo_catalog first s) a 4 _ (select_x 8) [] Hrep Hdb I I eq_refl) as [n Hn].
    exists n. eapply wp_mono; [by apply (Hn n)|]. by intros tuples c' [-> _].
  - destruct (Execute_refines (demo_catalog first s) a 4 _ group_x [(group_row, None)] Hrep Hdb I (group_x_ok _ _ rid eq_refl) eq_refl) as [n Hn].
    exists n. eapply wp_mono; [by apply (Hn n)|]. by intros tuples c' [-> _].
Defined.
