(* ===== verification/Optimizer.v ===== *)
(** * The optimizer

    Models [src/optimizer/optimizer.cpp]: a scan for one key becomes an index scan,
    a nested loop join on two columns a hash join.  A [dynamic_cast] is a match on
    the class of the node. *)
From stdpp Require Import pretty.
From coqutil Require Import Byte.
From S2P Require Import Prelude Interfaces DiskManager BufferPool BufferPoolSpec Value Tuple TableHeap Catalog CatalogSpec Expression Plan Executor QuerySemantics.

#[local] Open Scope Z_scope.

Section operations.
Context {St : Type} `{NameOrder}.
(** [catalog_] may be null. *)
Context (catalog_ : option (Catalog St)).

(** The column that is compared with a constant, and the constant. *)
Definition lookup_column (lhs rhs : AbstractExpression) : option (nat * AbstractExpression) :=
  match lhs, rhs with
  | ColumnValueExpression _ col_idx _, ConstantValueExpression _ => Some (col_idx, rhs)
  | ConstantValueExpression _, ColumnValueExpression _ col_idx _ => Some (col_idx, lhs)
  | _, _ => None
  end.

(** The first index that can look the column up. *)
Fixpoint find_index (indexed_col : nat) (indexes : list IndexInfo) : outcome (option IndexInfo) :=
  match indexes with
  | [] => mret None
  | index_info :: indexes' =>
    if negb (SupportsPointLookup index_info) then find_index indexed_col indexes'
    else
      attr ← GetLookupAttr index_info;
      if bool_decide (attr ≠ indexed_col) then find_index indexed_col indexes' else mret (Some index_info)
  end.

Definition OptimizeSeqScanToIndexScan (plan : AbstractPlanNode) : outcome AbstractPlanNode :=
  match catalog_, plan with
  | Some catalog, SeqScanPlanNode schema table_oid (ComparisonExpression lhs rhs Equal) =>
    match lookup_column lhs rhs with
    | None => mret plan
    | Some (indexed_col, lookup_key) =>
      match GetTable table_oid catalog with
      | None => mret plan
      | Some table_info =>
        indexes ← GetTableIndexes (table_name table_info) catalog;
        found ← find_index indexed_col indexes;
        match found with
        | None => mret plan
        | Some index_info =>
          mret (IndexScanPlanNode schema table_oid (index_oid index_info) lookup_key (ComparisonExpression lhs rhs Equal))
        end
      end
    end
  | _, _ => mret plan
  end.

Definition OptimizeNLJToHashJoin (plan : AbstractPlanNode) : AbstractPlanNode :=
  match plan with
  | NestedLoopJoinPlanNode schema left_plan right_plan
      (ComparisonExpression (ColumnValueExpression left_idx left_col left_type) (ColumnValueExpression right_idx right_col right_type) Equal) =>
    if bool_decide (left_idx = 0) && bool_decide (right_idx = 1) then
      HashJoinPlanNode schema left_plan right_plan (ColumnValueExpression 0 left_col left_type) (ColumnValueExpression 0 right_col right_type)
    else if bool_decide (left_idx = 1) && bool_decide (right_idx = 0) then
      HashJoinPlanNode schema left_plan right_plan (ColumnValueExpression 0 right_col right_type) (ColumnValueExpression 0 left_col left_type)
    else plan
  | _ => plan
  end.

(** The rules, after the children. *)
Definition apply_rules (plan : AbstractPlanNode) : outcome AbstractPlanNode :=
  plan ← OptimizeSeqScanToIndexScan plan; mret (OptimizeNLJToHashJoin plan).

Fixpoint Optimize (plan : AbstractPlanNode) : outcome AbstractPlanNode :=
  match plan with
  | null_plan => Undef
  | InsertPlanNode _ child _ | DeletePlanNode _ child _ | UpdatePlanNode _ child _ _ | AggregationPlanNode _ child _ _ _
  | SortPlanNode _ child _ | LimitPlanNode _ child _ | ProjectionPlanNode _ child _ =>
    child' ← Optimize child; apply_rules (SetChildAt 0 child' plan)
  | NestedLoopJoinPlanNode _ l r _ | HashJoinPlanNode _ l r _ _ =>
    l' ← Optimize l; r' ← Optimize r; apply_rules (SetChildAt 1 r' (SetChildAt 0 l' plan))
  | SeqScanPlanNode _ _ _ | IndexScanPlanNode _ _ _ _ _ | UtilityPlanNode _ _ _ _ _ _ _ => apply_rules plan
  end.
End operations.

(** ** A scan through an index *)

(** The index holds the rows of a table. *)
Definition up_to_date (schema : Schema) (rows : list (RID * list byte)) (i : IndexInfo) : Prop :=
  ∃ attr, GetLookupAttr i = Ret attr ∧
    ∀ key, LookupInteger key i = match rows_with_key schema attr key rows with [] => None | rids => Some rids end.

(** ** Lists with failure *)
Lemma choose_rows_filter {A B} (f : A → outcome (option B)) (P : A → Prop) `{∀ x, Decision (P x)} l :
  (∀ x, x ∈ l → ¬ P x → f x = Ret None) → choose_rows f (filter P l) = choose_rows f l.
Proof.
  induction l as [|x l IH]; intros Hf; [done|]. rewrite filter_cons. cbn [choose_rows]. rewrite <-IH by (intros; apply Hf; [by constructor|done]).
  destruct (decide (P x)) as [|Hx]; [done|]. rewrite (Hf x) by (by constructor || done). cbn. by destruct (choose_rows f (filter P l)).
Qed.

Lemma map_rows_Ret {A B} (f : A → outcome B) (g : A → B) l : (∀ x, x ∈ l → f x = Ret (g x)) → map_rows f l = Ret (map g l).
Proof.
  induction l as [|x l IH]; intros Hf; cbn; [done|]. rewrite Hf by by constructor. cbn. rewrite IH; [done|]. intros. apply Hf. by constructor.
Qed.

Lemma find_row_here rows x : NoDup rows.*1 → x ∈ rows → find_row x.1 rows = Ret x.
Proof.
  unfold find_row. induction rows as [|y rows IH]; intros Hnd Hx; [by apply elem_of_nil in Hx|].
  cbn in Hnd. apply NoDup_cons in Hnd as [Hy Hnd]. cbn [List.find]. case_bool_decide as Heq.
  - apply elem_of_cons in Hx as [->|Hx]; [done|]. destruct Hy. rewrite Heq. by apply list_elem_of_fmap_2.
  - apply elem_of_cons in Hx as [->|Hx]; [done|]. by apply IH.
Qed.

Lemma find_rows_filter (P : RID * list byte → Prop) `{∀ x, Decision (P x)} rows :
  NoDup rows.*1 → map_rows (fun rid => find_row rid rows) (filter P rows).*1 = Ret (filter P rows).
Proof.
  intros Hnd. assert (∀ l, (∀ x, x ∈ l → x ∈ rows) → map_rows (fun rid => find_row rid rows) l.*1 = Ret l) as Hl.
  { induction l as [|x l IH]; intros Hl; cbn; [done|]. rewrite find_row_here by (done || apply Hl; by constructor). cbn.
    rewrite IH; [done|]. intros. apply Hl. by constructor. }
  apply Hl. intros x Hx. by apply list_elem_of_filter in Hx as [_ ?].
Qed.

Section scans.
Context `{FloatFormat}.

Lemma find_index_in col indexes i : find_index col indexes = Ret (Some i) → i ∈ indexes ∧ SupportsPointLookup i = true ∧ GetLookupAttr i = Ret col.
Proof.
  induction indexes as [|j indexes IH]; cbn; [done|]. destruct (SupportsPointLookup j) eqn:Hs; cbn.
  - intros Hf. apply outcome_bind_Ret in Hf as (attr & Ha & Hf). case_bool_decide as Hc.
    + destruct (IH Hf). split; [by constructor|done].
    + injection Hf as <-. subst attr. split; [by constructor|done].
  - intros Hf. destruct (IH Hf). split; [by constructor|done].
Qed.

(** What the predicate says of a stored row. *)
Lemma key_predicate lhs rhs col key_expr val schema x k :
  lookup_column lhs rhs = Some (col, key_expr) → key_expr = ConstantValueExpression val → type_id_ val = INTEGER →
  row_key schema col x = Ret k →
  holds_predicate (ComparisonExpression lhs rhs Equal) (fun e => Evaluate e (stored_tuple x) schema) = Ret (bool_decide (k = integer_ val)).
Proof.
  intros Hcol -> Hval Hk. unfold row_key in Hk. apply outcome_bind_Ret in Hk as (v & Hv & Hk).
  unfold GetAsInteger in Hk. destruct (decide (type_id_ v = INTEGER)) as [Ht|Hne]; [|by rewrite bool_decide_false in Hk].
  rewrite bool_decide_true in Hk by done. injection Hk as <-.
  assert (∀ b, GetAsBoolean (Value_bool BOOLEAN b) = Ret b) as Hbool by by intros [].
  destruct lhs, rhs; cbn in Hcol; simplify_eq; unfold holds_predicate, Evaluate; cbn; unfold tuple_columns; rewrite Hv; cbn;
    unfold CompareEquals, same_type; rewrite Ht, Hval, bool_decide_true by done;
    unfold mret, outcome_ret; cbn [ONEBASE_ASSERT mbind outcome_bind]; rewrite Hbool; f_equal.
  - by destruct (Z.eqb_spec (integer_ v) (integer_ val)); [rewrite bool_decide_true|rewrite bool_decide_false].
  - by destruct (Z.eqb_spec (integer_ val) (integer_ v)); [rewrite bool_decide_true|rewrite bool_decide_false].
Qed.

(** [scan] gives the rows of the table that satisfy the predicate, in their order: it
    is the scan of the table, or that of an index which finds them all. *)
Definition finds {St} (c : Catalog St) (rows : list (RID * list byte)) (schema : Schema) (oid : Z) (predicate : AbstractExpression) (scan : AbstractPlanNode) : Prop :=
  scan = SeqScanPlanNode schema oid predicate ∨
  ∃ index_oid lookup_key rids found, scan = IndexScanPlanNode schema oid index_oid lookup_key predicate ∧
    index_rids lookup_key (GetIndex index_oid c) = Ret rids ∧ NoDup rids ∧ map_rows (fun rid => find_row rid rows) rids = Ret found ∧
    choose_rows (select_row schema predicate) found = choose_rows (select_row schema predicate) rows.

(** An index scan of an index that is up to date finds the rows. *)
Lemma index_scan_finds {St} (c : Catalog St) schema oid index_oid lhs rhs col key_expr val rows i :
  lookup_column lhs rhs = Some (col, key_expr) → key_expr = ConstantValueExpression val → type_id_ val = INTEGER →
  NoDup rows.*1 → GetIndex index_oid c = Some i → SupportsPointLookup i = true → GetLookupAttr i = Ret col →
  up_to_date schema rows i → Forall (fun x => ∃ k, row_key schema col x = Ret k) rows →
  finds c rows schema oid (ComparisonExpression lhs rhs Equal) (IndexScanPlanNode schema oid index_oid key_expr (ComparisonExpression lhs rhs Equal)).
Proof.
  intros Hcol Hkey Hval Hnd Hindex Hs Hattr (attr & Hattr' & Hup) Hkeys. simplify_eq. rewrite Hattr in Hattr'. injection Hattr' as <-.
  right. eexists index_oid, _, (rows_with_key schema col (integer_ val) rows), _. split; [done|]. split_and!.
  - unfold index_rids. rewrite Hindex, Hs. unfold GetAsInteger. rewrite bool_decide_true by done. cbn [ONEBASE_ASSERT mbind outcome_bind].
    unfold mret, outcome_ret. cbn [mbind outcome_bind]. rewrite Hup. by destruct (rows_with_key _ _ _ _).
  - unfold rows_with_key. eapply sublist_NoDup; [exact Hnd|]. apply fmap_sublist, sublist_filter.
  - by apply find_rows_filter.
  - apply choose_rows_filter. intros x Hx Hne. rewrite Forall_forall in Hkeys. destruct (Hkeys x Hx) as [k Hk].
    unfold select_row. rewrite (key_predicate _ _ col _ val schema x k Hcol eq_refl Hval Hk). cbn.
    rewrite bool_decide_false; [done|]. congruence.
Qed.

Lemma finds_denotes {St} (c : Catalog St) table rows schema oid predicate scan `{NameOrder} `{SortAlgorithm} :
  table oid = Some rows → finds c rows schema oid predicate scan →
  plan_schema scan = schema ∧
  denote table (fun oid => GetIndex oid c) scan = denote table (fun oid => GetIndex oid c) (SeqScanPlanNode schema oid predicate).
Proof.
  intros Htable [->|(index_oid & lookup_key & rids & found & -> & Hrids & _ & Hfound & Hsame)]; [done|]. split; [done|].
  cbn [denote]. rewrite Htable, Hrids. cbn [deref mbind outcome_bind]. by rewrite Hfound.
Qed.
End scans.

(** ** The rules keep the meaning *)
Definition is_column_equality (e : AbstractExpression) : bool :=
  match e with
  | ComparisonExpression (ColumnValueExpression _ _ _) (ColumnValueExpression _ _ _) Equal => true
  | _ => false
  end.

(** The name of an expression that is a constant. *)
Lemma lookup_column_typed types lhs rhs col key_expr :
  lookup_column lhs rhs = Some (col, key_expr) → is_Some (type_of types (ComparisonExpression lhs rhs Equal)) →
  ∃ val k, key_expr = ConstantValueExpression val ∧ types k col = Some (type_id_ val).
Proof.
  intros Hcol [t Ht]. cbn [type_of] in Ht. apply bind_Some in Ht as (tl & Hl & (tr & Hr & Ht)%bind_Some).
  case_match eqn:Hc; [|done]. apply andb_true_iff in Hc as [<-%bool_decide_eq_true _].
  destruct lhs, rhs; cbn in Hcol; try done; injection Hcol as <- <-; cbn in Hl, Hr; simplify_eq; eauto.
Qed.

Lemma row_key_typed schema attr x :
  tuple_typed (stored_tuple x) schema → schema_types schema attr = Some INTEGER → ∃ k, row_key schema attr x = Ret k.
Proof.
  intros Ht Hattr. destruct (Ht _ _ Hattr) as (v & Hv & Hi). unfold row_key. rewrite Hv. cbn. unfold GetAsInteger.
  rewrite bool_decide_true by done. by eexists.
Qed.

Section preservation.
Context {St : Type} `{PageStore St (list byte)} `{IterOrder} `{NameOrder} `{SortAlgorithm} `{FloatFormat}.
Context (c : Catalog St) (T : gmap string TableInfo) (I : gmap (string * string) IndexInfo) (Hcatalog : catalog_rep c T I).
Context (table : Z → option (list (RID * list byte))).

(** An index for lookups holds the rows of its table, by an integer column. *)
Definition index_ok (schema : Schema) (rows : list (RID * list byte)) (i : IndexInfo) : Prop :=
  SupportsPointLookup i = true → up_to_date schema rows i ∧ ∀ attr, GetLookupAttr i = Ret attr → schema_types schema attr = Some INTEGER.

(** The rows of the table fit its schema, and its indexes hold them. *)
Definition scan_ok (schema : Schema) (oid : Z) (predicate : AbstractExpression) : Prop :=
  (is_null_expr predicate = false → is_Some (type_of (fun _ => schema_types schema) predicate)) ∧
  ∃ info rows, GetTable oid c = Some info ∧ table oid = Some rows ∧ NoDup rows.*1 ∧
    Forall (fun x => tuple_typed (stored_tuple x) schema) rows ∧
    ∀ name i, I !! (name, table_name info) = Some i → index_ok schema rows i.

Fixpoint plan_ok (plan : AbstractPlanNode) : Prop :=
  match plan with
  | null_plan => False
  | SeqScanPlanNode schema oid predicate => scan_ok schema oid predicate
  | IndexScanPlanNode _ _ _ _ _ | UtilityPlanNode _ _ _ _ _ _ _ => True
  | InsertPlanNode _ child _ | DeletePlanNode _ child _ | UpdatePlanNode _ child _ _ | AggregationPlanNode _ child _ _ _
  | SortPlanNode _ child _ | LimitPlanNode _ child _ | ProjectionPlanNode _ child _ => plan_ok child
  | NestedLoopJoinPlanNode _ l r predicate => is_column_equality predicate = false ∧ plan_ok l ∧ plan_ok r
  | HashJoinPlanNode _ l r _ _ => plan_ok l ∧ plan_ok r
  end.

(** [plan'] can stand for [plan] in every larger plan. *)
Definition same_meaning (plan plan' : AbstractPlanNode) : Prop :=
  plan_schema plan' = plan_schema plan ∧
  denote table (fun oid => GetIndex oid c) plan' = denote table (fun oid => GetIndex oid c) plan.

Definition optimizes (plan : AbstractPlanNode) (o : outcome AbstractPlanNode) : Prop :=
  ∃ plan', o = Ret plan' ∧ same_meaning plan plan'.

Lemma find_index_total schema col rows infos : (∀ i, i ∈ infos → index_ok schema rows i) → ∃ found, find_index col infos = Ret found.
Proof.
  intros Hok. induction infos as [|i infos IH]; cbn [find_index]; [by eexists|].
  destruct IH as [found Hfound]; [intros; apply Hok; by constructor|]. destruct (SupportsPointLookup i) eqn:Hs; cbn [negb]; [|by eexists].
  destruct (Hok i) as [(attr & -> & _) _]; [by constructor|done|]. cbn [mbind outcome_bind]. case_bool_decide; by eexists.
Qed.

(** A plan that stays as it is. *)
Lemma optimizes_same plan : optimizes plan (mret plan).
Proof. by exists plan. Qed.

Lemma scan_rule_finds schema oid predicate :
  scan_ok schema oid predicate →
  ∃ rows scan, table oid = Some rows ∧ apply_rules (Some c) (SeqScanPlanNode schema oid predicate) = Ret scan ∧ finds c rows schema oid predicate scan.
Proof using Hcatalog.
  intros (Htype & info & rows & Hinfo & Hrows & Hnd & Htyped & Hindexes). exists rows.
  assert (∀ scan, apply_rules (Some c) (SeqScanPlanNode schema oid predicate) = Ret scan → finds c rows schema oid predicate scan →
    ∃ scan, table oid = Some rows ∧ apply_rules (Some c) (SeqScanPlanNode schema oid predicate) = Ret scan ∧ finds c rows schema oid predicate scan) as Hgoal by eauto.
  unfold apply_rules in *. cbn [OptimizeSeqScanToIndexScan] in *.
  destruct predicate as [| | |lhs rhs []| |]; try (by eapply Hgoal; [|left]).
  destruct (lookup_column lhs rhs) as [[col key_expr]|] eqn:Hcol; [|by eapply Hgoal; [|left]]. rewrite Hinfo in *.
  destruct (GetTableIndexes_rep _ _ _ (table_name info) Hcatalog) as (infos & Hget & Hinfos). rewrite Hget in *. cbn [mbind outcome_bind] in *.
  destruct (find_index_total schema col rows infos) as [[i|] Hfind].
  { intros i Hi. apply (Hindexes (index_name i)). by apply Hinfos. }
  2: { rewrite Hfind in *. by eapply Hgoal; [|left]. }
  rewrite Hfind in *. cbn [mbind outcome_bind] in *. destruct (find_index_in _ _ _ Hfind) as (Hin & Hs & Hattr). apply Hinfos in Hin.
  destruct (Hindexes _ _ Hin Hs) as [Hup Hinteger]. specialize (Hinteger _ Hattr).
  destruct (lookup_column_typed _ _ _ _ _ Hcol (Htype eq_refl)) as (val & k & -> & Hval). rewrite Hinteger in Hval. injection Hval as Hval.
  destruct (rep_index_name _ _ _ Hcatalog _ _ _ Hin) as (_ & Ht & _).
  eapply Hgoal; [done|]. eapply index_scan_finds; try done.
  - apply (rep_indexes _ _ _ Hcatalog). by rewrite Ht.
  - eapply Forall_impl; [exact Htyped|]. intros x Hx. by apply row_key_typed.
Qed.

Lemma scan_rule schema oid predicate :
  scan_ok schema oid predicate →
  optimizes (SeqScanPlanNode schema oid predicate) (apply_rules (Some c) (SeqScanPlanNode schema oid predicate)).
Proof using Hcatalog.
  intros (rows & scan & Hrows & Hscan & Hfinds)%scan_rule_finds. exists scan. split; [done|]. by eapply finds_denotes.
Qed.

(** The other classes of plans are left alone. *)
Lemma other_rule plan : GetType plan ≠ Ret SEQ_SCAN → OptimizeSeqScanToIndexScan (Some c) plan = mret plan.
Proof. by destruct plan. Qed.

Lemma join_rule schema l r predicate :
  is_column_equality predicate = false → OptimizeNLJToHashJoin (NestedLoopJoinPlanNode schema l r predicate) = NestedLoopJoinPlanNode schema l r predicate.
Proof. by destruct predicate as [| | |[] [] []| |]. Qed.

(** A node over children that were optimized. *)
Lemma optimizes_node o child (make : AbstractPlanNode → AbstractPlanNode) :
  optimizes child o → (∀ child', same_meaning child child' → same_meaning (make child) (make child')) →
  (∀ child', apply_rules (Some c) (make child') = Ret (make child')) →
  optimizes (make child) (child' ← o; apply_rules (Some c) (make child')).
Proof. intros (child' & -> & Hsame) Hmake Hrules. exists (make child'). split; [cbn [mbind outcome_bind]; apply Hrules|by apply Hmake]. Qed.

(** Replaces a child by one of the same meaning. *)
Ltac same_node make child :=
  apply (optimizes_node _ child make); [by auto| |done]; intros ? [E1 E2]; split; [done|]; cbn [denote]; by rewrite ?E1, ?E2.

Lemma Optimize_same_meaning plan : plan_ok plan → optimizes plan (Optimize (Some c) plan).
Proof using Hcatalog.
  induction plan; cbn [plan_ok]; intros Hok; try done; cbn [Optimize SetChildAt].
  - by apply scan_rule.
  - apply optimizes_same.
  - same_node (fun p => InsertPlanNode output_schema p table_oid) plan.
  - same_node (fun p => DeletePlanNode output_schema p table_oid) plan.
  - same_node (fun p => UpdatePlanNode output_schema p table_oid update_exprs) plan.
  - destruct Hok as (Hp & Hl & Hr). destruct (IHplan1 Hl) as (l' & -> & E1 & E2), (IHplan2 Hr) as (r' & -> & E3 & E4). cbn [mbind outcome_bind].
    eexists. split; [unfold apply_rules; rewrite other_rule by done; cbn [mbind outcome_bind mret outcome_ret]; by rewrite join_rule|]. split; [done|]. cbn [denote]. by rewrite E1, E2, E3, E4.
  - destruct Hok as (Hl & Hr). destruct (IHplan1 Hl) as (l' & -> & E1 & E2), (IHplan2 Hr) as (r' & -> & E3 & E4). cbn [mbind outcome_bind].
    eexists. split; [done|]. split; [done|]. cbn [denote OptimizeNLJToHashJoin]. by rewrite E1, E2, E3, E4.
  - same_node (fun p => AggregationPlanNode output_schema p group_bys aggregates agg_types) plan.
  - same_node (fun p => SortPlanNode output_schema p order_bys) plan.
  - same_node (fun p => LimitPlanNode output_schema p limit) plan.
  - same_node (fun p => ProjectionPlanNode output_schema p expressions) plan.
  - apply optimizes_same.
Qed.
End preservation.

(** C12: the optimizer keeps the meaning of a query.  In a consistent catalog, for a
    plan whose tables hold rows of their schemas, whose predicates have a type and
    whose tables' indexes are up to date, the optimizer returns a plan with the same
    schema that denotes the same rows in the same order, and fails where the plan
    failed.  Here no join compares two columns; the rule for these reorders the rows
    and has a theorem of its own. *)
Theorem Optimize_preserves {St} `{PageStore St (list byte)} `{IterOrder} `{NameOrder} `{SortAlgorithm} `{FloatFormat}
    (c : Catalog St) T I (table : Z → option (list (RID * list byte))) plan :
  catalog_rep c T I → plan_ok c I table plan →
  ∃ plan', Optimize (Some c) plan = Ret plan' ∧ plan_schema plan' = plan_schema plan ∧
    denote table (fun oid => GetIndex oid c) plan' = denote table (fun oid => GetIndex oid c) plan.
Proof. intros Hcatalog Hok. exact (Optimize_same_meaning c T I Hcatalog table plan Hok). Qed.

(** ** Joins on two columns *)

(** A type whose values print differently. *)
Definition hashable (t : TypeId) : bool := match t with INTEGER | BOOLEAN | VARCHAR => true | _ => false end.

Definition key_value `{FloatFormat} (t : TypeId) (v : Value) : Prop := type_id_ v = t ∧ is_null_ v = false.

(** The column of every row has a key. *)
Definition has_keys `{FloatFormat} (t : TypeId) (col : nat) (schema : Schema) (tuples : list Tuple) : Prop :=
  Forall (fun x => ∃ v, GetValue_schema x schema col = Ret v ∧ key_value t v) tuples.

Lemma bool_decide_eqb_string (x y : string) : String.eqb x y = bool_decide (x = y).
Proof. by destruct (String.eqb_spec x y); [rewrite bool_decide_true|rewrite bool_decide_false]. Qed.

Lemma equal_iff_prints `{FloatFormat} t v w :
  hashable t = true → key_value t v → key_value t w →
  (b ← CompareEquals v w; GetAsBoolean b) = Ret (bool_decide (ToString v = ToString w)).
Proof.
  intros Ht [Hv Nv] [Hw Nw]. unfold CompareEquals, same_type, ToString. rewrite Hv, Hw, Nv, Nw, bool_decide_true by done.
  cbn [ONEBASE_ASSERT mbind outcome_bind].
  assert (∀ b c, b = c → (b ← mret (Value_bool BOOLEAN b); GetAsBoolean b) = Ret c) as Hb by by intros [] ? <-.
  destruct t; try done; apply Hb.
  - by destruct (boolean_ v), (boolean_ w).
  - destruct (Z.eqb_spec (integer_ v) (integer_ w)) as [->|Hne]; [by rewrite bool_decide_true|]. rewrite bool_decide_false; [done|]. by intros ?%(inj pretty).
  - apply bool_decide_eqb_string.
Qed.

Section swap.
Context {A B C : Type}.

(** Sums over pairs, in either order. *)
Lemma concat_map_app (f g : A → list B) l : List.concat (map (fun x => f x ++ g x) l) ≡ₚ List.concat (map f l) ++ List.concat (map g l).
Proof. induction l as [|x l IH]; cbn; [done|]. rewrite IH. rewrite <-!app_assoc. apply Permutation_app_head. rewrite !app_assoc. by rewrite (Permutation_app_comm (g x)). Qed.

Lemma concat_map_nil (l : list A) : List.concat (map (fun _ => []) l) = ([] : list B).
Proof. by induction l. Qed.
End swap.

Lemma concat_map_swap {A B C} (f : A → B → list C) l l' :
  List.concat (map (fun x => List.concat (map (f x) l')) l) ≡ₚ List.concat (map (fun y => List.concat (map (fun x => f x y) l)) l').
Proof.
  induction l as [|x l IH]; cbn; [by rewrite concat_map_nil|]. rewrite IH. by rewrite <-concat_map_app.
Qed.

Lemma choose_rows_inv {A B} (f : A → outcome (option B)) l : ∀ ys,
  choose_rows f l = Ret ys →
  ys = List.concat (map (fun x => match f x with Ret (Some y) => [y] | _ => [] end) l) ∧ Forall (fun x => ∃ o, f x = Ret o) l.
Proof.
  induction l as [|x l IH]; intros ys; cbn; [by intros [= <-]|]. intros Hys. outcome_inv. destruct (IH _ Hr0) as [-> Hall].
  rewrite Hr. split; [by destruct r|]. constructor; [by eexists|done].
Qed.

Lemma map_rows_inv {A B} (f : A → outcome B) l : ∀ ys, map_rows f l = Ret ys → Forall2 (fun x y => f x = Ret y) l ys.
Proof. induction l as [|x l IH]; intros ys; cbn; [intros [= <-]; constructor|]. intros Hys. outcome_inv. by constructor; [|apply IH]. Qed.

Section hash_join.
Context `{FloatFormat}.
Context (left_key right_key : AbstractExpression) (left_schema right_schema : Schema) (condition : Tuple → Tuple → outcome bool).
(** The rows, with their keys. *)
Context (lefts rights : list Tuple) (lkey rkey : Tuple → string).
Context (Hleft : ∀ l, l ∈ lefts → print_key left_key left_schema l = Ret (lkey l)).
Context (Hright : ∀ r, r ∈ rights → print_key right_key right_schema r = Ret (rkey r)).
Context (Hcondition : ∀ l r, l ∈ lefts → r ∈ rights → condition l r = Ret (bool_decide (lkey l = rkey r))).

Definition pair_rows (l r : Tuple) : list Tuple :=
  match join_pair condition left_schema right_schema l r with Ret (Some t) => [t] | _ => [] end.

Lemma nested_join_inv ts :
  nested_join condition left_schema right_schema lefts rights = Ret ts →
  ts = List.concat (map (fun l => List.concat (map (pair_rows l) rights)) lefts) ∧
  ∀ l r, l ∈ lefts → r ∈ rights → ∃ o, join_pair condition left_schema right_schema l r = Ret o.
Proof.
  clear. unfold nested_join. intros Hts. outcome_inv. apply map_rows_inv in Hr. induction Hr as [|l ys ls r Hl _ [E IH]]; cbn.
  - split; [done|]. set_solver.
  - rewrite E. apply choose_rows_inv in Hl as [-> Hl]. split; [done|]. intros l' r' [->|Hl']%elem_of_cons Hr'; [|by apply IH].
    rewrite Forall_forall in Hl. by apply Hl.
Qed.

Lemma matches_map_rows r ls :
  r ∈ rights → (∀ l, l ∈ ls → l ∈ lefts ∧ ∃ o, join_pair condition left_schema right_schema l r = Ret o) →
  map_rows (fun l => combine l left_schema r right_schema) (filter (fun x => x.1 = rkey r) (map (fun l => (lkey l, l)) ls)).*2 =
  Ret (List.concat (map (fun l => pair_rows l r) ls)).
Proof using Hcondition.
  intros Hr. induction ls as [|l ls IH]; intros Hls; [done|]. cbn [map List.concat]. rewrite filter_cons. cbn [fst].
  destruct (Hls l) as [Hl [o Ho]]; [by constructor|]. unfold pair_rows at 1. rewrite Ho.
  unfold join_pair in Ho. rewrite Hcondition in Ho by done. cbn [mbind outcome_bind] in Ho.
  destruct (decide (lkey l = rkey r)) as [Hk|Hk].
  - rewrite bool_decide_true in Ho by done. outcome_inv. cbn [fmap list_fmap map snd map_rows]. rewrite Hr0. cbn [mbind outcome_bind].
    rewrite IH; [done|]. intros l' Hl'. apply Hls. by constructor.
  - rewrite bool_decide_false in Ho by done. outcome_inv. apply IH. intros l' Hl'. apply Hls. by constructor.
Qed.

Lemma hash_join_perm ts :
  nested_join condition left_schema right_schema lefts rights = Ret ts →
  ∃ ts', hash_join left_key right_key left_schema right_schema lefts rights = Ret ts' ∧ ts' ≡ₚ ts.
Proof using All.
  intros [-> Hpairs]%nested_join_inv. exists (List.concat (map (fun r => List.concat (map (fun l => pair_rows l r) lefts)) rights)).
  split; [|by rewrite concat_map_swap]. unfold hash_join.
  rewrite (map_rows_Ret _ (fun l => (lkey l, l))) by (intros l Hl; by rewrite Hleft). cbn [mbind outcome_bind].
  rewrite (map_rows_Ret _ (fun r => List.concat (map (fun l => pair_rows l r) lefts))); [done|].
  intros r Hr. rewrite Hright by done. cbn [mbind outcome_bind]. apply matches_map_rows; [done|]. auto.
Qed.
End hash_join.

(** The key of a row that has one. *)
Definition column_key `{FloatFormat} (schema : Schema) (col : nat) (x : Tuple) : string :=
  match GetValue_schema x schema col with Ret v => ToString v | _ => "" end.

Lemma column_print_key `{FloatFormat} t idx col t' schema tuples x :
  has_keys t col schema tuples → x ∈ tuples → print_key (ColumnValueExpression idx col t') schema x = Ret (column_key schema col x).
Proof.
  unfold has_keys. rewrite Forall_forall. intros Hk (v & Hv & _)%Hk. unfold print_key, column_key, Evaluate. cbn. unfold tuple_columns. by rewrite Hv.
Qed.

(** The two sides of the comparison, in the order of the query. *)
Definition join_predicate (swapped : bool) (left_col right_col : nat) (t : TypeId) : AbstractExpression :=
  if swapped then ComparisonExpression (ColumnValueExpression 1 right_col t) (ColumnValueExpression 0 left_col t) Equal
  else ComparisonExpression (ColumnValueExpression 0 left_col t) (ColumnValueExpression 1 right_col t) Equal.

Lemma join_predicate_holds `{FloatFormat} swapped t left_col right_col ls rs lefts rights l r :
  hashable t = true → has_keys t left_col ls lefts → has_keys t right_col rs rights → l ∈ lefts → r ∈ rights →
  theta_condition (join_predicate swapped left_col right_col t) ls rs l r = Ret (bool_decide (column_key ls left_col l = column_key rs right_col r)).
Proof.
  unfold has_keys. rewrite !Forall_forall. intros Ht Hl Hr (v & Hv & Kv)%Hl (w & Hw & Kw)%Hr.
  unfold theta_condition, holds_predicate, column_key. rewrite Hv, Hw. destruct swapped; cbn [join_predicate is_null_expr];
    unfold EvaluateJoin; cbn [evaluate]; unfold join_columns; cbn beta; rewrite ?bool_decide_true, ?(bool_decide_false (1%Z = 0)) by done; rewrite Hv, Hw; cbn [mbind outcome_bind].
  - rewrite (bool_decide_ext _ (ToString w = ToString v)) by done. by apply (equal_iff_prints t).
  - by apply (equal_iff_prints t).
Qed.

(** C18: a hash join is the nested loop join up to the order of the rows.  For a join
    on two columns, written in either order, over rows whose keys are not null and of
    one type other than FLOAT, the rule of the optimizer makes a hash join, and what it
    denotes is a permutation of what the join denoted. *)
Theorem hash_join_is_nested_join `{NameOrder} `{FloatFormat} `{SortAlgorithm} table index schema left_plan right_plan swapped t left_col right_col lefts rights rows :
  let plan := NestedLoopJoinPlanNode schema left_plan right_plan (join_predicate swapped left_col right_col t) in
  hashable t = true → denote table index left_plan = Ret lefts → denote table index right_plan = Ret rights →
  has_keys t left_col (plan_schema left_plan) lefts.*1 → has_keys t right_col (plan_schema right_plan) rights.*1 →
  denote table index plan = Ret rows →
  GetType (OptimizeNLJToHashJoin plan) = Ret HASH_JOIN ∧ plan_schema (OptimizeNLJToHashJoin plan) = schema ∧
  ∃ rows', denote table index (OptimizeNLJToHashJoin plan) = Ret rows' ∧ rows' ≡ₚ rows.
Proof.
  intros plan Ht Hl Hr Kl Kr Hrows. unfold plan in *. cbn [denote] in Hrows. rewrite Hl, Hr in Hrows. cbn [mbind outcome_bind] in Hrows.
  outcome_inv. assert (OptimizeNLJToHashJoin (NestedLoopJoinPlanNode schema left_plan right_plan (join_predicate swapped left_col right_col t)) =
    HashJoinPlanNode schema left_plan right_plan (ColumnValueExpression 0 left_col t) (ColumnValueExpression 0 right_col t)) as -> by by destruct swapped.
  split; [done|]. split; [done|]. cbn [denote]. rewrite Hl, Hr. cbn [mbind outcome_bind].
  edestruct (hash_join_perm (ColumnValueExpression 0 left_col t) (ColumnValueExpression 0 right_col t)) as (ts & -> & Hp); [..|exact Hr0|].
  - intros l Hin. by apply (column_print_key t _ _ _ _ lefts.*1).
  - intros r' Hin. by apply (column_print_key t _ _ _ _ rights.*1).
  - intros l r' Hin Hin'. by apply (join_predicate_holds swapped t _ _ _ _ lefts.*1 rights.*1).
  - eexists. split; [done|]. unfold anonymous. by rewrite Hp.
Qed.

(** ** Queries over a table of two rows *)
#[local] Instance no_floats : FloatFormat := fun _ => "".
Definition stored_row (slot i : Z) : RID * list byte := (mkRID 0 slot, LittleEndianList.le_split 4 i).
Definition two_rows : list (RID * list byte) := [stored_row 0 7; stored_row 1 8].
Definition two_row_table (oid : Z) : option (list (RID * list byte)) := if decide (oid = 1) then Some two_rows else None.
Definition two_row_index : IndexInfo := mkIndexInfo one_column "i" "t" 1 [0%nat] true {[7 := [mkRID 0 0]; 8 := [mkRID 0 1]]}.
Definition indexed_catalog : Catalog _ :=
  add_index two_row_index (add_table (mkTableInfo one_column "t" 0 1) (mkCatalog heap_pool 2 2 ∅ ∅ ∅ ∅)).
Definition select_eight : AbstractPlanNode :=
  SeqScanPlanNode one_column 1 (ComparisonExpression (ColumnValueExpression 0 0 INTEGER) (ConstantValueExpression (Value_int INTEGER 8)) Equal).
Definition select_all : AbstractPlanNode := SeqScanPlanNode one_column 1 nullptr.

Lemma indexed_catalog_rep : catalog_rep indexed_catalog {["t" := mkTableInfo one_column "t" 0 1]} {[("i", "t") := two_row_index]}.
Proof.
  apply (add_index_rep _ _ ∅ two_row_index); [|done|cbn; lia|].
  - apply (add_table_rep _ ∅ ∅ (mkTableInfo one_column "t" 0 1)); [|done|cbn; lia|].
    + eapply catalog_rep_maps; [apply (Catalog_new_rep heap_pool)|cbn; lia..|done|done|done|done].
    + intros name info'. by rewrite lookup_empty.
  - intros k info'. by rewrite lookup_empty.
Qed.

Lemma two_rows_typed : Forall (fun x => tuple_typed (stored_tuple x) one_column) two_rows.
Proof.
  repeat constructor; intros i t; unfold one_column; rewrite schema_types_new; (destruct i as [|i]; [|done]); intros [= <-];
    eexists; split; vm_compute; reflexivity.
Qed.

Lemma two_row_index_up_to_date : up_to_date one_column two_rows two_row_index.
Proof.
  exists 0%nat. split; [done|]. intros key. unfold LookupInteger, rows_with_key, two_rows. cbn [two_row_index int_rid_map_].
  assert (row_key one_column 0 (stored_row 0 7) = Ret 7) as E7 by done. assert (row_key one_column 0 (stored_row 1 8) = Ret 8) as E8 by done.
  rewrite !filter_cons, E7, E8. destruct (decide (key = 7)) as [->|H7]; [done|]. destruct (decide (key = 8)) as [->|H8]; [done|].
  rewrite lookup_insert_ne, lookup_singleton_ne by done. by rewrite !decide_False by congruence.
Qed.

Example Optimize_preserves_witness :
  Optimize (Some indexed_catalog) select_eight ≠ Ret select_eight ∧
  ∃ plan', Optimize (Some indexed_catalog) select_eight = Ret plan' ∧
    denote two_row_table (fun oid => GetIndex oid indexed_catalog) plan' =
    denote two_row_table (fun oid => GetIndex oid indexed_catalog) select_eight.
Proof.
  split; [by vm_compute|].
  edestruct (Optimize_preserves indexed_catalog _ _ two_row_table select_eight indexed_catalog_rep) as (plan' & Hplan & _ & Hd).
  - split; [by eexists|]. exists (mkTableInfo one_column "t" 0 1), two_rows. split_and!; [done|done|by apply NoDup_cons; split; [set_solver|apply NoDup_singleton]|exact two_rows_typed|].
    intros name i Hi%lookup_singleton_Some. destruct Hi as [_ <-]. intros _. split; [exact two_row_index_up_to_date|]. by intros attr [= <-].
  - by exists plan'.
Defined.

Example hash_join_is_nested_join_witness :
  ∃ rows, denote two_row_table (fun _ => None) (NestedLoopJoinPlanNode one_column select_all select_all (join_predicate true 0 0 INTEGER)) = Ret rows ∧
  length rows = 2%nat ∧
  ∃ rows', denote two_row_table (fun _ => None) (OptimizeNLJToHashJoin (NestedLoopJoinPlanNode one_column select_all select_all (join_predicate true 0 0 INTEGER))) =
    Ret rows' ∧ rows' ≡ₚ rows.
Proof.
  eexists. split; [vm_compute; reflexivity|]. split; [done|].
  eapply (hash_join_is_nested_join two_row_table (fun _ => None) one_column select_all select_all true INTEGER 0 0); try done;
    repeat constructor; eexists; (split; [vm_compute; reflexivity|done]).
Defined.
