(* ===== verification/RowSource.v ===== *)
(** * Where a statement takes its rows from

    DELETE, UPDATE and INSERT ... SELECT run over a scan of a table or of an index, as
    the optimizer decides.  [row_source] is what they ask of it: it gives the rows that
    satisfy the condition one by one, and a change to a row that it has passed does not
    disturb it.  Both scans are row sources. *)
From coqutil Require Import Byte.
From S2P Require Import Prelude Interfaces DiskManager BufferPool BufferPoolSpec Value Tuple TablePage TableHeap HeapCursor HeapChange.
From S2P Require Import Catalog CatalogSpec Expression Plan Executor QuerySemantics ExecutorSpec Optimizer.

#[local] Open Scope Z_scope.
#[local] Coercion Z.of_nat : nat >-> Z.

Abbreviation heap := (list (Z * list (list byte))).

Section source.
Context {St : Type} `{PageStoreSpec St (list byte)}.
Context (rounds fuel : nat) (c0 : Catalog St) (oid : Z) (info : TableInfo) (schema : Schema) (predicate : AbstractExpression).
Context (Hinfo : GetTable oid c0 = Some info).
Abbreviation selects := (select_row schema predicate).

(** In the state [z] of the executor the rows [l] of the heap [h] are to come, if
    [at_rows h l z]. *)
Record row_source (child : AbstractExecutor (St := St)) (at_rows : heap → list (RID * list byte) → ex_state child → Prop) : Prop := {
  source_live a h l z : readable fuel a (table_ info) h → at_rows h l z → Forall (.∈ live_pages h) l ∧ NoDup l.*1;
  source_change a h l z y bs : readable fuel a (table_ info) h → at_rows h l z → y ∈ live_pages h → y.1 ∉ l.*1 → at_rows (set_slot y.1 bs h) l z;
  source_next a h l z rows c out : readable fuel a (table_ info) h → at_rest a c0 c → at_rows h l z → (length l < rounds)%nat → choose_rows selects l = Ret rows →
    wp (Next child out) (c, z) (fun r cs => at_rest a c0 cs.1 ∧
      match rows with
      | [] => r.1 = false
      | x :: rows' => r = (true, written x out) ∧ ∃ skipped y l', l = skipped ++ y :: l' ∧ selects y = Ret (Some x) ∧ at_rows h l' cs.2 ∧ choose_rows selects l' = Ret rows'
      end);
}.

(** [Init] of a statement over the source. *)
Definition starts_at (child : AbstractExecutor (St := St)) (at_rows : heap → list (RID * list byte) → ex_state child → Prop) a h l : Prop :=
  wp (change_init child) (c0, (ex_start child, false)) (fun _ cs => at_rest a c0 cs.1 ∧ ∃ z, cs.2 = (z, false) ∧ at_rows h l z).

Section loop.
Context (child : AbstractExecutor (St := St)) (at_rows : heap → list (RID * list byte) → ex_state child → Prop) (Hsource : row_source child at_rows).

(** A loop over the rows of the source whose body may change the heap under it, but
    not the rows to come: [W] relates these rows, the store, the heap and the count. *)
Lemma source_loop_wp (body : row → Z → M (Catalog St * (ex_state child * bool)) Z) (W : list result_row → pstate (list byte) → heap → Z → Prop) :
  (∀ rows a h k, W rows a h k → readable fuel a (table_ info) h) →
  (∀ x rows a h k c z out y l, W (x :: rows) a h k → at_rest a c0 c → y ∈ live_pages h → selects y = Ret (Some x) → y.1 ∉ l.*1 → at_rows h l z.1 →
     wp (body (written x out) k) (c, z) (fun k' cs => cs.2 = z ∧ ∃ a' h', at_rest a' c0 cs.1 ∧ W rows a' h' k' ∧ at_rows h' l z.1)) →
  ∀ n l rows a h k c z b out, (length l < n)%nat → (length l < rounds)%nat → W rows a h k → at_rest a c0 c → at_rows h l z → choose_rows selects l = Ret rows →
    wp (for_each n (fun o => on_child (Next child o)) body out k) (c, (z, b)) (fun k' cs => cs.2.2 = b ∧ ∃ a' h', at_rest a' c0 cs.1 ∧ W [] a' h' k').
Proof using Hsource.
  intros HW Hbody. induction n as [|n IH]; intros l rows a h k c z b out Hn Hr Hw Hc Hat Hrows; [lia|]. cbn [for_each].
  pose proof (HW _ _ _ _ Hw) as Hread. wp_step. apply wp_on_child.
  eapply wp_mono; [by eapply (source_next _ _ Hsource)|].
  intros r [c1 z1] [Hc1 Hcase]. cbn [fst snd] in *. destruct rows as [|x rows].
  - rewrite Hcase. wp_step. split; [done|]. by exists a, h.
  - destruct Hcase as (-> & skipped & y & l' & -> & Hy & Hat' & Hrows'). cbn [fst snd]. wp_step.
    destruct (source_live _ _ Hsource _ _ _ _ Hread Hat) as [Hlive Hnd].
    eapply wp_mono; [eapply (Hbody x rows a h k c1 (z1, b) out y l'); [done|done| |done| |done]|].
    + apply Forall_app in Hlive as [_ [Hlive _]%Forall_cons]. exact Hlive.
    + rewrite fmap_app in Hnd. apply NoDup_app in Hnd as (_ & _ & Hnd). cbn in Hnd. by apply NoDup_cons in Hnd as [? _].
    + intros k' [c2 z2] (Hz & a' & h' & Hc2 & Hw' & Hat2). cbn in Hz. subst z2. rewrite length_app in *. cbn [length] in *. apply (IH l' rows a' h'); [lia|lia|done..].
Qed.
End loop.

(** ** The scan of the table *)
Definition at_cursor (h : heap) (l : list (RID * list byte)) (z : option TableInfo * RID) : Prop := z.1 = Some info ∧ cursor h l z.2.

Lemma seq_scan_source : row_source (SeqScanExecutor rounds fuel schema oid predicate) at_cursor.
Proof.
  split.
  - intros a h l z Hread [_ (passed & Hlive)%cursor_suffix]. pose proof (live_pages_nodup _ _ _ (readable_heap _ _ _ _ Hread)) as Hnd.
    rewrite Hlive in *. rewrite fmap_app in Hnd. apply NoDup_app in Hnd as (_ & _ & Hnd). split; [|done].
    apply Forall_forall. intros y Hy. apply elem_of_app. by right.
  - intros a h l z y bs Hread [Hz Hcur] Hy Hn. split; [done|]. apply cursor_set_slot; [by eapply heap_at_nodup, readable_heap|done..].
  - intros a h l [ti it] rows c out Hread Hc [Hti Hcur] Hl Hrows. cbn in Hti, Hcur. subst ti. cbn [Next SeqScanExecutor]. wp_step. apply wp_get. cbn [fst].
    eapply wp_mono; [by apply (seq_scan_next_wp fuel a c0 (Some info) (table_ info) h schema predicate Hread rounds l)|].
    intros r [c1 z1] [Hc1 Hcase]. cbn [fst snd] in *. split; [done|]. destruct rows as [|x rows]; [done|].
    destruct Hcase as (-> & it' & skipped & y & l' & -> & -> & Hy & Hcur' & Hrows'). split; [done|]. by exists skipped, y, l'.
Qed.

Lemma seq_scan_starts a h : ps_rep (bpm_ c0) a → readable fuel a (table_ info) h →
  starts_at (SeqScanExecutor rounds fuel schema oid predicate) at_cursor a h (live_pages h).
Proof using Hinfo.
  intros Hrep Hread. unfold starts_at, change_init. wp_step. apply wp_on_child. cbn [Init SeqScanExecutor].
  wp_step. apply wp_on_catalog. wp_step. wp_step. apply wp_get. wp_step. apply wp_put. rewrite Hinfo. cbn [deref]. wp_step. wp_step.
  wp_step. eapply wp_heap; [by apply (Begin_cursor fuel)|]. intros it s [Hs Hcur]. apply wp_put. apply wp_on_own, wp_put.
  split; [split; [done|]; by destruct c0|]. by exists (Some info, it).
Qed.

(** ** The scan of an index *)
Definition at_found (h : heap) (l : list (RID * list byte)) (z : list RID * nat) : Prop :=
  Forall (.∈ live_pages h) l ∧ NoDup l.*1 ∧ ∃ before, z = (before ++ l.*1, length before).

Lemma index_scan_source index_oid lookup_key : row_source (IndexScanExecutor schema oid index_oid lookup_key predicate) at_found.
Proof using Hinfo.
  split.
  - by intros a h l z _ (? & ? & _).
  - intros a h l z y bs Hread (Hin & Hnd & Hz) Hy Hn. split; [|done]. rewrite Forall_forall in Hin |- *. intros x Hx.
    rewrite live_set_slot; [|by eapply heap_at_nodup, readable_heap|by eapply live_pages_nodup, readable_heap|done].
    apply list_elem_of_omap. exists x. split; [by apply Hin|]. unfold revise. rewrite decide_False; [done|].
    intros Heq. apply Hn. rewrite <-Heq. by apply list_elem_of_fmap_2.
  - intros a h l z rows c out Hread Hc (Hin & Hnd & before & ->) Hl Hrows. cbn [Next IndexScanExecutor].
    wp_step. apply wp_on_catalog. wp_step. wp_step. apply wp_get.
    assert (GetTable oid c = Some info) as -> by (destruct Hc as [_ ->]; exact Hinfo).
    eapply wp_mono; [apply (index_scan_next_wp fuel a c0 info h schema predicate Hread _ l before); [done|done| |done]|].
    { cbn [fst]. rewrite length_app, length_fmap. lia. }
    intros r [c1 z1] [Hc1 Hcase]. cbn [fst snd] in *. split; [done|]. destruct rows as [|x rows]; [done|].
    destruct Hcase as (-> & before' & skipped & y & l' & -> & -> & Hy & Hrows'). split; [done|]. exists skipped, y, l'. split_and!; [done|done| |done].
    apply Forall_app in Hin as [_ [_ Hin]%Forall_cons]. rewrite fmap_app in Hnd. apply NoDup_app in Hnd as (_ & _ & Hnd). cbn in Hnd.
    apply NoDup_cons in Hnd as [_ Hnd]. split_and!; [done|done|by exists before'].
Qed.

Lemma index_scan_starts a h index_oid lookup_key rids found :
  ps_rep (bpm_ c0) a → readable fuel a (table_ info) h → index_rids lookup_key (GetIndex index_oid c0) = Ret rids → NoDup rids →
  map_rows (fun rid => find_row rid (live_pages h)) rids = Ret found →
  starts_at (IndexScanExecutor schema oid index_oid lookup_key predicate) at_found a h found.
Proof.
  intros Hrep Hread Hrids Hnd [Hin Hfound]%find_rows_in. unfold starts_at, change_init. wp_step. apply wp_on_child.
  eapply (wp_mono _ _ (fun _ cs => cs = (c0, (rids, 0%nat)))); [apply (index_scan_init_wp a c0); [split; [done|]; by destruct c0|done]|].
  intros [] cs ->. apply wp_on_own, wp_put. cbn [fst snd]. split; [split; [done|]; by destruct c0|]. exists (rids, 0%nat). split; [done|].
  split; [done|]. rewrite Hfound. split; [done|]. by exists [].
Qed.
End source.

(** ** The scans of the optimizer *)

Lemma finds_source {St} `{PageStoreSpec St (list byte)} `{FloatFormat} `{IterOrder} `{NameOrder} `{SortAlgorithm}
    (rounds fuel : nat) (c : Catalog St) a oid info h schema predicate scan :
  ps_rep (bpm_ c) a → GetTable oid c = Some info → readable fuel a (table_ info) h → finds c (live_pages h) schema oid predicate scan →
  ∃ child at_rows l, CreateExecutor rounds fuel scan = Ret child ∧ row_source rounds fuel c info schema predicate child at_rows ∧
    starts_at c child at_rows a h l ∧ (length l ≤ length (live_pages h))%nat ∧
    choose_rows (select_row schema predicate) l = choose_rows (select_row schema predicate) (live_pages h).
Proof.
  intros Hrep Hinfo Hread [->|(index_oid & lookup_key & rids & found & -> & Hrids & Hnd & Hfound & Hsame)].
  - exists (SeqScanExecutor rounds fuel schema oid predicate), (at_cursor info), (live_pages h).
    split_and!; [done|by apply seq_scan_source|by apply seq_scan_starts|done|done].
  - exists (IndexScanExecutor schema oid index_oid lookup_key predicate), at_found, found.
    split_and!; [done|by apply index_scan_source|by eapply index_scan_starts| |done].
    destruct (find_rows_in _ _ _ Hfound) as [Hin Hf]. rewrite <-(length_fmap fst found), <-(length_fmap fst (live_pages h)).
    apply submseteq_length, NoDup_submseteq; [by rewrite Hf|]. intros rid (y & -> & Hy)%list_elem_of_fmap.
    apply list_elem_of_fmap_2. rewrite Forall_forall in Hin. by apply Hin.
Qed.
