(* ===== verification/ChangeSpec.v ===== *)
(** * Statements that change tables

    [DELETE], [UPDATE] and [INSERT] from another table, run by their executors over the
    scan that the optimizer has chosen, change the tables as their meaning over lists
    of rows says, on all pages and under all evictions.  A deletion or an update changes
    the heap that its own scan is walking over.  The executors do not maintain indexes:
    the theorems are about tables without indexes, and [delete_leaves_indexes_stale]
    says what happens to the others. *)
From coqutil Require Import Byte.
From S2P Require Import Prelude Interfaces DiskManager BufferPool BufferPoolSpec Value Tuple TablePage TableHeap HeapCursor HeapChange.
From S2P Require Import Catalog CatalogSpec Expression Plan Executor QuerySemantics ExecutorSpec RowSource Optimizer.

#[local] Open Scope Z_scope.
#[local] Coercion Z.of_nat : nat >-> Z.

(** ** The heaps of a database *)
(** The tables with the numbers in [H] have these heaps, on pages of their own. *)
Record stores {St} (fuel : nat) (a : pstate (list byte)) (c : Catalog St) (H : gmap Z heap) : Prop := {
  stores_heap oid h : H !! oid = Some h → ∃ info, GetTable oid c = Some info ∧ readable fuel a (table_ info) h;
  stores_apart oid oid' h h' id : H !! oid = Some h → H !! oid' = Some h' → id ∈ h.*1 → id ∈ h'.*1 → oid = oid';
}.
Definition rows_of (H : gmap Z heap) (oid : Z) : option (list (RID * list byte)) := live_pages <$> H !! oid.

Lemma stores_database {St} fuel a (c : Catalog St) H : stores fuel a c H → database fuel a c (rows_of H).
Proof.
  intros [Hs _] oid rows Hrows. apply fmap_Some in Hrows as (h & Hh & ->). destruct (Hs _ _ Hh) as (info & Hinfo & Hread). by exists info, h.
Qed.

Lemma readable_frame fuel a a' first h :
  readable fuel a first h → ps_cap a' = ps_cap a → ps_pinned a' = ps_pinned a → (∀ j, j ∈ h.*1 → ps_pages a' !! j = ps_pages a !! j) →
  readable fuel a' first h.
Proof.
  intros [Hheap Hidle Hroom Hfuel] Hcap Hpins Hpages. split; [by eapply (heap_at_frame (ps_pages a))| | |done].
  - unfold chain_idle, idle in *. by rewrite Hpins.
  - unfold room in *. by rewrite Hcap, Hpins.
Qed.

(** One heap is changed; the pages of the others are left alone. *)
Lemma stores_change {St} fuel a a' (c : Catalog St) H oid info h h' :
  stores fuel a c H → H !! oid = Some h → GetTable oid c = Some info → readable fuel a' (table_ info) h' →
  ps_cap a' = ps_cap a → ps_pinned a' = ps_pinned a →
  (∀ j, j ∈ h'.*1 → j ∈ h.*1 ∨ ∀ oid h, H !! oid = Some h → j ∉ h.*1) →
  (∀ oid' h2 j, oid' ≠ oid → H !! oid' = Some h2 → j ∈ h2.*1 → ps_pages a' !! j = ps_pages a !! j) →
  stores fuel a' c (<[oid := h']> H).
Proof.
  intros [Hs Hapart] Hh Hinfo Hread Hcap Hpins Hids Hframe. split.
  - intros oid2 h2 [(<- & <-)|(Hne & Hh2)]%lookup_insert_Some; [by exists info|].
    destruct (Hs _ _ Hh2) as (info2 & Hinfo2 & Hread2). exists info2. split; [done|]. eapply readable_frame; [done..|]. eauto.
  - intros oid1 oid2 h1 h2 id H1 H2 Hi1 Hi2.
    apply lookup_insert_Some in H1 as [(<- & <-)|(Hne1 & H1)]; apply lookup_insert_Some in H2 as [(<- & <-)|(Hne2 & H2)]; [done| | |by eapply Hapart].
    + destruct (Hids _ Hi1) as [Hi|Hi]; [by eapply Hapart|]. by destruct (Hi _ _ H2).
    + destruct (Hids _ Hi2) as [Hi|Hi]; [by eapply Hapart|]. by destruct (Hi _ _ H1).
Qed.

Lemma stores_put {St} fuel a (c : Catalog St) H oid info h h' id d' :
  stores fuel a c H → H !! oid = Some h → GetTable oid c = Some info → id ∈ h.*1 → h'.*1 = h.*1 →
  readable fuel (put_content id d' a) (table_ info) h' → stores fuel (put_content id d' a) c (<[oid := h']> H).
Proof.
  intros Hs Hh Hinfo Hid Hids Hread. eapply stores_change; [done..| |].
  - intros j Hj. rewrite Hids in Hj. by left.
  - intros oid' h2 j Hne H2 Hj. cbn. apply lookup_insert_ne. intros <-. apply Hne. by eapply (stores_apart _ _ _ _ Hs).
Qed.

(** ** Rows that are replaced or taken out *)

(** The rows of a table after the rows with these identifiers got these bytes; a row
    without bytes is deleted. *)
Definition revise_all (revisions : list (RID * list byte)) (l : list (RID * list byte)) : list (RID * list byte) :=
  foldl (fun l r => omap (revise r.1 r.2) l) l revisions.

Lemma revise_all_app revisions : ∀ l1 l2, revise_all revisions (l1 ++ l2) = revise_all revisions l1 ++ revise_all revisions l2.
Proof. unfold revise_all. induction revisions as [|r rs IH]; cbn; intros l1 l2; [done|]. by rewrite omap_app, IH. Qed.

Lemma revise_all_others revisions : ∀ l, (∀ r, r ∈ revisions → r.1 ∉ l.*1) → revise_all revisions l = l.
Proof.
  unfold revise_all. induction revisions as [|r rs IH]; cbn; intros l Hl; [done|]. rewrite revise_others by (apply Hl; by left).
  apply IH. intros r' Hr'. apply Hl. by right.
Qed.

Lemma choose_rows_length {A B} (f : A → outcome (option B)) l : ∀ l', choose_rows f l = Ret l' → (length l' ≤ length l)%nat.
Proof.
  induction l as [|x l IH]; cbn [choose_rows]; intros l' Hl; [by injection Hl as <-|].
  apply outcome_bind_Ret in Hl as (o & _ & Hl). apply outcome_bind_Ret in Hl as (l2 & Hl2%IH & [= <-]). destruct o; cbn; lia.
Qed.

(** A selected row has the identifier of the stored one. *)
Lemma selects_rid schema predicate y x : select_row schema predicate y = Ret (Some x) → x.2 = Some y.1.
Proof. unfold select_row. intros Hs. apply outcome_bind_Ret in Hs as ([] & _ & Hs); [|done]. by apply outcome_bind_Ret in Hs as (t & _ & [= <-]). Qed.

Section meaning.
Context `{FloatFormat}.
Context (schema : Schema) (predicate : AbstractExpression) (new : result_row → outcome (list byte)).
Abbreviation selects := (select_row schema predicate).

(** What becomes of a stored row. *)
Definition changed_row (y : RID * list byte) : outcome (option (RID * list byte)) :=
  x ← selects y;
  match x with
  | None => mret (Some y)
  | Some x => bs ← new x; mret (if decide (bs = []) then None else Some (y.1, bs))
  end.
Definition revision (x : result_row) : outcome (RID * list byte) :=
  rid ← deref x.2; bs ← new x; mret (rid, bs).

Lemma revise_changed l : ∀ l', NoDup l.*1 → choose_rows changed_row l = Ret l' →
  ∃ rows revisions, choose_rows selects l = Ret rows ∧ map_rows revision rows = Ret revisions ∧ revise_all revisions l = l' ∧
    (∀ r, r ∈ revisions → r.1 ∈ l.*1).
Proof.
  induction l as [|y l IH]; cbn [choose_rows]; intros l' Hnd Hl.
  { injection Hl as <-. exists [], []. split_and!; try done. by intros r ?%elem_of_nil. }
  cbn in Hnd. apply NoDup_cons in Hnd as [Hy Hnd].
  apply outcome_bind_Ret in Hl as (o & Ho & Hl). apply outcome_bind_Ret in Hl as (l2 & Hl2 & [= <-]).
  destruct (IH _ Hnd Hl2) as (rows & revisions & Hrows & Hrevs & <- & Hin). rewrite Hrows.
  unfold changed_row in Ho. apply outcome_bind_Ret in Ho as ([x|] & Hx & Ho); rewrite Hx.
  - apply outcome_bind_Ret in Ho as (bs & Hbs & [= <-]). exists (x :: rows), ((y.1, bs) :: revisions). cbn [map_rows].
    assert (revision x = Ret (y.1, bs)) as -> by (unfold revision; by rewrite (selects_rid _ _ _ _ Hx), Hbs). rewrite Hrevs. split_and!; [done|done| |].
    + unfold revise_all. cbn [foldl fst snd]. change (y :: l) with ([y] ++ l). rewrite omap_app, (revise_others _ _ l) by done.
      destruct y as [rid b]. cbn [fst omap list_omap]. rewrite revise_same. case_decide; [done|].
      change ((rid, bs) :: l) with ([(rid, bs)] ++ l). fold (revise_all revisions ([(rid, bs)] ++ l)) (revise_all revisions l). rewrite revise_all_app, revise_all_others; [done|].
      intros r Hr. cbn. intros ?%list_elem_of_singleton. apply Hy. cbn. specialize (Hin _ Hr). congruence.
    + intros r [->|Hr]%elem_of_cons; [by left|right; by apply Hin].
  - injection Ho as <-. exists rows, revisions. cbn [mbind outcome_bind]. split_and!; [done|done| |].
    + change (y :: l) with ([y] ++ l). rewrite revise_all_app, revise_all_others; [done|].
      intros r Hr. cbn. intros ?%list_elem_of_singleton. apply Hy. specialize (Hin _ Hr). congruence.
    + intros r Hr. right. by apply Hin.
Qed.
End meaning.

(** A selected row has no bytes after a deletion; the keys of the indexes are computed
    before. *)
Definition deleted (info : TableInfo) (indexes : list IndexInfo) (x : result_row) : outcome (list byte) :=
  index_keys x.1 (schema_ info) indexes;; mret [].
(** The bytes of a selected row after an update. *)
Definition updated `{FloatFormat} (info : TableInfo) (update_exprs : list AbstractExpression) (x : result_row) : outcome (list byte) :=
  values ← evaluate_all update_exprs x.1 (schema_ info); t ← Tuple_new values; mret (data_ t).

(** The rows after a DELETE *)
Lemma selected_in schema predicate l : ∀ selected rid, choose_rows (select_row schema predicate) l = Ret selected → Some rid ∈ selected.*2 → rid ∈ l.*1.
Proof.
  intros selected rid Hsel (x & Hx & Hin)%list_elem_of_fmap. revert selected Hsel Hin. induction l as [|y l IH]; cbn [choose_rows]; intros selected Hsel Hin.
  { injection Hsel as <-. by apply elem_of_nil in Hin. }
  outcome_inv. destruct r as [z|]; [|right; by eapply IH]. apply elem_of_cons in Hin as [->|Hin]; [|right; by eapply IH].
  pose proof (selects_rid _ _ _ _ Hr) as Hz. assert (rid = y.1) as -> by congruence. by left.
Qed.

Lemma filter_without (r : RID) (rids : list (option RID)) (l : list (RID * list byte)) : r ∉ l.*1 →
  filter (fun x => Some x.1 ∉ Some r :: rids) l = filter (fun x => Some x.1 ∉ rids) l.
Proof.
  induction l as [|y l IH]; intros Hr; [done|]. cbn [fmap list_fmap] in Hr. apply not_elem_of_cons in Hr as [Hne Hr]. rewrite !filter_cons, IH by done.
  destruct (decide (Some y.1 ∉ rids)) as [Hy|Hy]; [rewrite decide_True; [done|]|rewrite decide_False; [done|]].
  - intros [[=]|]%elem_of_cons; done.
  - intros Hn. apply Hy. intros Hin. apply Hn. by right.
Qed.

(** Without indexes the rows that are not selected are left. *)
Lemma changed_filter info schema predicate l : ∀ selected, NoDup l.*1 → choose_rows (select_row schema predicate) l = Ret selected →
  choose_rows (changed_row schema predicate (deleted info [])) l = Ret (filter (fun x => Some x.1 ∉ selected.*2) l).
Proof.
  induction l as [|y l IH]; cbn [choose_rows]; intros selected Hnd Hsel; [done|]. cbn in Hnd. apply NoDup_cons in Hnd as [Hy Hnd].
  outcome_inv. pose proof Hr0 as Hin. specialize (IH _ Hnd Hr0). rewrite filter_cons.
  rewrite IH. unfold changed_row. rewrite Hr. destruct r as [x|]; cbn [mbind outcome_bind].
  - pose proof (selects_rid _ _ _ _ Hr) as Hx. rewrite decide_False by (intros Hn; apply Hn; cbn; rewrite Hx; by left).
    cbn [fmap list_fmap]. rewrite Hx, filter_without by done. done.
  - by rewrite decide_True by (intros Hn; apply Hy; by eapply selected_in).
Qed.

(** The indexes only make sure that the keys can be computed. *)
Lemma deleted_keys info indexes schema predicate l : ∀ rest,
  choose_rows (changed_row schema predicate (deleted info indexes)) l = Ret rest →
  choose_rows (changed_row schema predicate (deleted info [])) l = Ret rest.
Proof.
  induction l as [|y l IH]; cbn [choose_rows]; intros rest Hrest; [done|].
  apply outcome_bind_Ret in Hrest as (o & Ho & Hrest). apply outcome_bind_Ret in Hrest as (l' & Hl' & [= <-]).
  rewrite (IH _ Hl'). unfold changed_row in Ho |- *. apply outcome_bind_Ret in Ho as (x & -> & Ho). cbn [mbind outcome_bind].
  destruct x as [x|]; [|by injection Ho as <-]. unfold deleted in Ho. apply outcome_bind_Ret in Ho as (bs & Hbs & [= <-]).
  by apply outcome_bind_Ret in Hbs as ([] & _ & [= <-]).
Qed.

(** Rows that have bytes after an update stay where they are. *)
Lemma replaced_other revisions (y : RID * list byte) : y.1 ∉ revisions.*1 → replaced revisions y = y.
Proof.
  destruct y as [rid bs]. unfold replaced. cbn [fst snd]. intros Hy. assert (new_bytes revisions rid = None) as ->; [|done].
  induction revisions as [|r rs IH]; [done|]. cbn in Hy |- *. apply not_elem_of_cons in Hy as [Hne Hy]. rewrite bool_decide_false by done. by apply IH.
Qed.

Lemma revisions_selected new selected : ∀ revisions, map_rows (revision new) selected = Ret revisions → Some <$> revisions.*1 = selected.*2.
Proof.
  induction selected as [|x selected IH]; cbn [map_rows]; intros revisions Hr; [by injection Hr as <-|]. outcome_inv.
  unfold revision in Hr0. outcome_inv. destruct x as [t [rid|]]; [|done]. cbn in *. simplify_eq. cbn. f_equal. by apply IH.
Qed.

Lemma changed_replaced `{FloatFormat} schema predicate new l : ∀ selected revisions, NoDup l.*1 → choose_rows (select_row schema predicate) l = Ret selected →
  map_rows (revision new) selected = Ret revisions → Forall (fun r => r.2 ≠ []) revisions →
  choose_rows (changed_row schema predicate new) l = Ret (map (replaced revisions) l).
Proof.
  induction l as [|y l IH]; cbn [choose_rows]; intros selected revisions Hnd Hsel Hrevs Hne; [done|]. cbn in Hnd. apply NoDup_cons in Hnd as [Hy Hnd].
  outcome_inv. destruct r as [x|].
  - pose proof (selects_rid _ _ _ _ Hr) as Hx. cbn [map_rows] in Hrevs. outcome_inv. unfold revision in Hr1. rewrite Hx in Hr1. cbn [deref mbind outcome_bind] in Hr1. outcome_inv.
    apply Forall_cons in Hne as [Hbs Hne]. cbn [snd] in Hbs. rewrite (IH _ _ Hnd Hr0 Hr2 Hne). unfold changed_row. rewrite Hr. cbn [mbind outcome_bind]. rewrite Hr3. cbn [mbind outcome_bind]. rewrite decide_False by done. cbn [mret outcome_ret mbind outcome_bind map]. do 2 f_equal.
    + unfold replaced. cbn [new_bytes fst]. by rewrite bool_decide_true.
    + apply map_ext_in. intros z Hz%list_elem_of_In. unfold replaced. cbn [new_bytes fst]. rewrite bool_decide_false; [done|].
      intros Heq. apply Hy. rewrite Heq. by apply list_elem_of_fmap_2.
  - rewrite (IH _ _ Hnd Hr0 Hrevs Hne). unfold changed_row. rewrite Hr. cbn [mbind outcome_bind map]. rewrite replaced_other; [done|].
    intros Hin. apply Hy. eapply selected_in; [exact Hr0|]. rewrite <-(revisions_selected _ _ _ Hrevs). by apply list_elem_of_fmap_2.
Qed.

(** A new tuple has bytes. *)
Lemma updated_data `{FloatFormat} info update_exprs x bs : update_exprs ≠ [] → updated info update_exprs x = Ret bs → bs ≠ [].
Proof.
  unfold updated. intros Hexprs Hbs. outcome_inv. eapply Tuple_new_nonempty; [eassumption|]. intros ->. destruct update_exprs; [done|]. cbn in *. by outcome_inv.
Qed.

Lemma updated_nonempty `{FloatFormat} info update_exprs selected : ∀ revisions, update_exprs ≠ [] →
  map_rows (revision (updated info update_exprs)) selected = Ret revisions → Forall (fun r => r.2 ≠ []) revisions.
Proof.
  induction selected as [|x selected IH]; cbn [map_rows]; intros revisions Hexprs Hr; [by injection Hr as <-|]. outcome_inv.
  constructor; [|by apply IH]. unfold revision in Hr0. outcome_inv. by eapply updated_data.
Qed.

(** Deleted rows need no bytes. *)
Lemma needed_deleted revisions id : Forall (fun r => r.2 = []) revisions → needed id revisions = 0.
Proof. induction 1 as [|r revs Hr _ IH]; [done|]. rewrite needed_cons, IH, Hr. by case_decide. Qed.

Lemma fits_deleted {fuel a first h} revisions :
  readable fuel a first h → Forall (fun r => r.2 = [] ∧ r.1 ∈ (live_pages h).*1) revisions → fits a revisions.
Proof.
  intros Hread Hrevs. apply Forall_forall. intros r Hr. assert (needed (page_id_of r.1) revisions = 0) as ->.
  { apply needed_deleted. eapply Forall_impl; [exact Hrevs|]. by intros x [? _]. }
  rewrite Forall_forall in Hrevs. destruct (Hrevs _ Hr) as [_ (y & -> & Hy)%list_elem_of_fmap].
  apply live_split in Hy as (pre & id & s1 & s2 & post & -> & -> & _). cbn.
  pose proof (heap_at_tail _ _ _ _ _ _ (readable_heap _ _ _ _ Hread)) as Hat. inversion Hat; subst.
  erewrite free_in_page by done. match goal with Hp : page_rep _ _ _ (_ ++ _) |- _ => pose proof (page_room _ _ _ _ Hp) end. unfold free_space. lia.
Qed.

Lemma deleted_revisions info indexes selected : ∀ revisions, map_rows (revision (deleted info indexes)) selected = Ret revisions → Forall (fun r => r.2 = []) revisions.
Proof.
  induction selected as [|x selected IH]; cbn [map_rows]; intros revisions Hr; [by injection Hr as <-|].
  apply outcome_bind_Ret in Hr as (r & Hr1 & Hr). apply outcome_bind_Ret in Hr as (rs & Hr2 & [= <-]). constructor; [|by apply IH].
  unfold revision in Hr1. apply outcome_bind_Ret in Hr1 as (rid & _ & Hr1). apply outcome_bind_Ret in Hr1 as (bs & Hbs & [= <-]).
  unfold deleted in Hbs. by apply outcome_bind_Ret in Hbs as ([] & _ & [= <-]).
Qed.

Lemma free_in_other a id id' d : id ≠ id' → free_in (put_content id d a) id' = free_in a id'.
Proof. intros Hne. unfold free_in. cbn. by rewrite lookup_insert_ne. Qed.

Lemma fits_step a id d r rs :
  id = page_id_of r.1 → fits a (r :: rs) → free_in (put_content id d a) id = free_in a id - length r.2 → fits (put_content id d a) rs.
Proof.
  intros -> Hfits Hfree. apply Forall_cons in Hfits as [_ Hfits]. unfold fits. eapply Forall_impl; [exact Hfits|]. intros x Hx. cbn beta in Hx. rewrite needed_cons in Hx.
  destruct (decide (page_id_of r.1 = page_id_of x.1)) as [Heq|Hne]; [rewrite <-Heq in Hx |- *; rewrite Hfree; lia|].
  rewrite free_in_other by done. lia.
Qed.

Lemma fits_head a r rs : fits a (r :: rs) → length r.2 ≤ free_in a (page_id_of r.1).
Proof.
  intros [Hr _]%Forall_cons. rewrite needed_cons, decide_True in Hr by done.
  pose proof (needed_nonneg (page_id_of r.1) rs). lia.
Qed.

Section changes.
Context {St : Type} `{PageStoreSpec St (list byte)} `{FloatFormat} `{IterOrder} `{NameOrder} `{SortAlgorithm}.
Context (fuel : nat) (c0 : Catalog St) (H' : gmap Z heap) (oid : Z) (info : TableInfo) (Hinfo : GetTable oid c0 = Some info).
Context (schema : Schema) (predicate : AbstractExpression) (new : result_row → outcome (list byte)).

(** The body of the loop replaces the row by its new bytes and counts it. *)
Definition changes_row {X} (body : row → Z → M (Catalog St * X) Z) : Prop :=
  ∀ a h c z x out y bs k, at_rest a c0 c → readable fuel a (table_ info) h → y ∈ live_pages h → x.2 = Some y.1 → new x = Ret bs →
    length bs ≤ free_in a (page_id_of y.1) → in_int32 (k + 1) = true →
    wp (body (written x out) k) (c, z) (fun k' cs => k' = k + 1 ∧ cs.2 = z ∧
      ∃ s', cs.1 = set_bpm s' c ∧ row_changed fuel a (table_ info) h y bs (free_in a (page_id_of y.1) - length bs) s').

Lemma change_loop_wp rounds (child : AbstractExecutor (St := St)) at_rows (body : row → Z → M (Catalog St * (ex_state child * bool)) Z) h a l c z b out rows revisions :
  row_source rounds fuel c0 info schema predicate child at_rows →
  changes_row body → stores fuel a c0 H' → H' !! oid = Some h → at_rest a c0 c → at_rows h l z → (length l < rounds)%nat →
  choose_rows (select_row schema predicate) l = Ret rows → map_rows (revision new) rows = Ret revisions → fits a revisions →
  in_int32 (length rows) = true →
  wp (for_each rounds (fun o => on_child (Next child o)) body out 0) (c, (z, b)) (fun k' cs => cs.2.2 = b ∧ k' = length rows ∧
    ∃ a' h', at_rest a' c0 cs.1 ∧ stores fuel a' c0 (<[oid := h']> H') ∧ live_pages h' = revise_all revisions (live_pages h) ∧
      ∀ id, free_in a' id = free_in a id - needed id revisions).
Proof using Hinfo.
  intros Hsource Hbody Hs Hh Hc Hat Hlen Hrows Hrevs Hfits Hcount.
  eapply wp_mono; [eapply (source_loop_wp rounds fuel c0 info schema predicate child at_rows Hsource body (fun rows' a' h' k =>
    0 ≤ k ∧ k + length rows' = length rows ∧ stores fuel a' c0 (<[oid := h']> H') ∧
    ∃ revs, map_rows (revision new) rows' = Ret revs ∧ fits a' revs ∧ revise_all revs (live_pages h') = revise_all revisions (live_pages h) ∧
    ∀ id, free_in a' id - needed id revs = free_in a id - needed id revisions)) with (rows := rows) (h := h);
    [| |exact Hlen|exact Hlen| |exact Hc|exact Hat|exact Hrows]|].
  - intros rows' a' h' k (_ & _ & [Hst _] & _). destruct (Hst oid h' (lookup_insert_eq _ _ _)) as (info' & Hi & Hread). by simplify_eq.
  - intros x rows' a' h' k c1 z' out' y l' (Hk0 & Hk & Hst & revs & Hr & Hf & Hfinal & Hspent) Hc1 Hy Hsel Hn Hat'. cbn [map_rows] in Hr.
    apply outcome_bind_Ret in Hr as (r & Hr1 & Hr). apply outcome_bind_Ret in Hr as (revs' & Hr2 & [= <-]).
    pose proof (selects_rid _ _ _ _ Hsel) as Hrid. unfold revision in Hr1. rewrite Hrid in Hr1. cbn [deref mbind outcome_bind] in Hr1.
    apply outcome_bind_Ret in Hr1 as (bs & Hbs & [= <-]).
    destruct (stores_heap _ _ _ _ Hst oid h' (lookup_insert_eq _ _ _)) as (info' & Hi & Hread). assert (info' = info) as -> by congruence.
    cbn [length] in Hk. assert (in_int32 (k + 1) = true) as Hin by (rewrite in_int32_iff in *; unfold INT32_MIN, INT32_MAX in *; lia).
    eapply wp_mono; [by apply (Hbody a' h' c1 z' x out' y bs k); try done; apply (fits_head _ (y.1, bs) revs')|].
    intros k' [c2 z2] (-> & -> & s' & Hc2 & d' & Hrep' & Hread' & Hfree). cbn [fst snd] in *. subst c2. split; [done|].
    exists (put_content (page_id_of y.1) d' a'), (set_slot y.1 bs h'). split_and!.
    + destruct Hc1 as [_ ->]. by split.
    + lia.
    + lia.
    + rewrite <-(insert_insert_eq H' oid (set_slot y.1 bs h') h'). eapply stores_put; [exact Hst|apply lookup_insert_eq|done| |apply set_slot_ids|done].
      apply live_member in Hy as (id & slots & j & Hin' & -> & _). cbn. by apply (list_elem_of_fmap_2 fst) in Hin'.
    + exists revs'. split_and!; [done|by eapply (fits_step _ _ _ (y.1, bs))| |].
      * rewrite <-Hfinal. unfold revise_all at 2. cbn [foldl fst snd].
        rewrite live_set_slot; [done| | |done]; [by eapply heap_at_nodup, readable_heap|by eapply live_pages_nodup, readable_heap].
      * intros id. rewrite <-Hspent, needed_cons. cbn [fst snd]. case_decide as Hid; [rewrite <-Hid, Hfree; lia|].
        by rewrite free_in_other by done.
    + by eapply (source_change _ _ _ _ _ _ _ _ Hsource).
  - split_and!; [done|lia|by rewrite insert_id|]. by exists revisions.
  - intros k' cs (Hb & a' & h' & Hc' & _ & Hk & Hst & revs & [= <-] & _ & Hfinal & Hspent). cbn in Hk. split_and!; [done|lia|]. exists a', h'.
    split_and!; [done..|]. intros id. rewrite <-Hspent. cbn. lia.
Qed.
End changes.

(** ** The executors *)
Section executors.
Context {St : Type} `{PageStoreSpec St (list byte)} `{FloatFormat} `{IterOrder} `{NameOrder} `{SortAlgorithm}.

(** A statement that changes a table returns one row and ends. *)
Lemma run_change_wp rounds (child : AbstractExecutor (St := St)) (run : row → M (Catalog St * (ex_state child * bool)) (bool * row)) schema c t (Q : Catalog St → Prop) :
  (2 ≤ rounds)%nat →
  wp (change_init child) (c, (ex_start child, false)) (fun _ cs => cs.2.2 = false ∧
    wp (run out_start) (cs.1, (cs.2.1, true)) (fun r cs' => r.1 = true ∧ r.2.1 = t ∧ cs'.2.2 = true ∧ Q cs'.1)) →
  wp (run_executor rounds (mkExecutor (ex_state child * bool) (ex_start child, false) (change_init child) (once run) schema)) c (fun ts c' => ts = [t] ∧ Q c').
Proof.
  intros Hrounds Hinit. destruct rounds as [|[|rounds]]; [lia..|]. unfold run_executor. cbn [Init Next ex_start ex_state].
  set (loop := for_each _ _ _ _ _).
  assert (wp (change_init child;; loop) (c, (ex_start child, false)) (fun ts cs => ts = [t] ∧ Q cs.1)) as Hrun.
  { wp_step. eapply wp_mono; [exact Hinit|]. intros [] [c1 [x1 b1]] [Hb Hr]. cbn [fst snd] in *. subst b1 loop. cbn [for_each].
    wp_step. unfold once at 1. wp_step. apply wp_on_own, wp_get. cbn [fst snd]. wp_step. apply wp_on_own, wp_put. cbn [fst snd].
    eapply wp_mono; [exact Hr|]. intros [more [t' o]] [c2 [x2 b2]] (Hm & Ht & Hb2 & HQ). cbn [fst snd] in *. subst more t' b2.
    wp_step. wp_step. wp_step. unfold once at 1. wp_step. apply wp_on_own, wp_get. cbn [fst snd]. wp_step. done. }
  destruct (wp_elim _ _ _ Hrun) as (ts & [c' s'] & Hm & -> & HQ). unfold wp. by rewrite Hm.
Qed.

End executors.

(** ** DELETE and UPDATE *)

(** The tables are as before, except that the table [oid] has the rows [rows]. *)
Definition now_has (H : gmap Z heap) (oid : Z) (rows : list (RID * list byte)) (H' : gmap Z heap) : Prop :=
  ∀ oid', rows_of H' oid' = if decide (oid' = oid) then Some rows else rows_of H oid'.

Lemma now_has_insert H oid h : now_has H oid (live_pages h) (<[oid := h]> H).
Proof. intros oid'. unfold rows_of. case_decide; [subst; by rewrite lookup_insert_eq|by rewrite lookup_insert_ne]. Qed.

Definition count_tuple (n : Z) : Tuple := mkTuple RID_default (LittleEndianList.le_split 4 (wrapu 32 n)) [Value_int INTEGER n].

Lemma count_tuple_new n : Tuple_new [Value_int INTEGER n] = Ret (count_tuple n).
Proof.
  unfold Tuple_new. cbn [append_values]. unfold GetSerializedSize, SerializeTo. cbn [type_id_ Value_int mret mbind outcome_bind outcome_ret].
  rewrite (mem_write_end []) by (by rewrite LittleEndianList.length_le_split). done.
Qed.

(** The catalog does not depend on the pages. *)
Lemma GetTableIndexes_pages {St} `{NameOrder} table s (c : Catalog St) : GetTableIndexes table (set_bpm s c) = GetTableIndexes table c.
Proof.
  unfold GetTableIndexes. cbn [index_names_ set_bpm]. destruct (index_names_ c !! table) as [names|]; [|done].
  induction (name_order names) as [|[name oid] l IH]; cbn [get_infos]; [done|]. by rewrite IH.
Qed.

(** ** The plan that the optimizer makes *)
Section optimized.
Context {St : Type} `{PageStore St (list byte)} `{FloatFormat} `{IterOrder} `{NameOrder} `{SortAlgorithm}.
Context (c : Catalog St) (H' : gmap Z heap).

(** What the optimizer can be given: nothing, as the shell does, or the catalog, as
    the server does; then the indexes of the table must be up to date. *)
Definition optimizable_scan (schema : Schema) (oid : Z) (predicate : AbstractExpression) (o : option (Catalog St)) : Prop :=
  match o with
  | None => True
  | Some c' => c' = c ∧ ∃ T I, catalog_rep c T I ∧ scan_ok c I (rows_of H') schema oid predicate
  end.

Lemma optimized_scan schema oid predicate h o : H' !! oid = Some h → optimizable_scan schema oid predicate o →
  ∃ scan, apply_rules o (SeqScanPlanNode schema oid predicate) = Ret scan ∧ finds c (live_pages h) schema oid predicate scan.
Proof.
  intros Hh. destruct o as [c'|]; cbn [optimizable_scan].
  - intros [-> (T & I & Hcatalog & Hok)]. destruct (scan_rule_finds c T I Hcatalog (rows_of H') schema oid predicate Hok) as (rows & scan & Hrows & Hscan & Hfinds).
    unfold rows_of in Hrows. rewrite Hh in Hrows. injection Hrows as <-. by exists scan.
  - intros _. exists (SeqScanPlanNode schema oid predicate). split; [done|by left].
Qed.
End optimized.

Section statements.
Context {St : Type} `{PageStoreSpec St (list byte)} `{FloatFormat} `{IterOrder} `{NameOrder} `{SortAlgorithm}.
Context (Hbytes : ∀ d, ps_ok d ↔ Z.of_nat (length d) = ONEBASE_PAGE_SIZE).
Context (fuel : nat) (a : pstate (list byte)) (c : Catalog St) (H' : gmap Z heap) (oid : Z) (info : TableInfo) (h : heap).
Context (Hrep : ps_rep (bpm_ c) a) (Hstores : stores fuel a c H') (Hh : H' !! oid = Some h) (Hinfo : GetTable oid c = Some info).
Context (schema : Schema) (predicate : AbstractExpression).
Abbreviation optimizable := (optimizable_scan c H' schema oid predicate).

Lemma info_readable : readable fuel a (table_ info) h.
Proof using Hstores Hh Hinfo. destruct (stores_heap _ _ _ _ Hstores _ _ Hh) as (info' & Hi & Hread). by simplify_eq. Qed.

Lemma deletes_row X indexes : changes_row fuel c info (deleted info indexes) (delete_row (X := X) info indexes).
Proof using Hbytes.
  intros a' h' c' z x out y bs k [Hc1 Hc2] Hread Hy Hx Hnew Hfit Hk. unfold deleted in Hnew. apply outcome_bind_Ret in Hnew as ([] & Hkeys & [= <-]).
  unfold delete_row, written. rewrite Hx. cbn [fst snd default]. wp_step.
  eapply wp_heap; [by eapply (DeleteTuple_row_wp Hbytes fuel)|]. intros [] s Hs. wp_step. rewrite Hkeys. wp_step. unfold increment_count. rewrite int32_op_ok by done. wp_step.
  split_and!; [done|done|]. exists s. split; [done|]. by rewrite Z.sub_0_r.
Qed.

Lemma updates_row X update_exprs : update_exprs ≠ [] →
  changes_row fuel c info (updated info update_exprs) (update_row (X := X) info update_exprs).
Proof using Hbytes.
  intros Hexprs a' h' c' z x out y bs k [Hc1 Hc2] Hread Hy Hx Hnew Hfit Hk. pose proof (updated_data _ _ _ _ Hexprs Hnew) as Hdata. unfold updated in Hnew.
  apply outcome_bind_Ret in Hnew as (values & Hvalues & Hnew). apply outcome_bind_Ret in Hnew as (t & Ht & [= <-]).
  unfold update_row, written. rewrite Hx. cbn [fst snd default]. wp_step. rewrite Hvalues. wp_step. wp_step. rewrite Ht. wp_step. wp_step.
  eapply wp_heap; [by eapply (UpdateTuple_row_wp Hbytes fuel)|]. intros b s [_ Hs]. unfold increment_count. rewrite int32_op_ok by done. wp_step.
  split_and!; [done|done|]. by exists s.
Qed.

(** A statement that goes over the rows of the table and counts them: [spent] of the
    free bytes of each page are used up. *)
Definition changed (selected : list result_row) (rows : list (RID * list byte)) (spent : Z → Z) (ts : list Tuple) (c' : Catalog St) : Prop :=
  ts = [count_tuple (length selected)] ∧ ∃ a' H2, ps_rep (bpm_ c') a' ∧ c' = set_bpm (bpm_ c') c ∧ stores fuel a' c' H2 ∧ now_has H' oid rows H2 ∧
    ∀ id, free_in a' id = free_in a id - spent id.

Lemma change_statement_wp rounds new child at_rows l (body : row → Z → M (Catalog St * (ex_state child * bool)) Z) run output selected revisions rest :
  row_source rounds fuel c info schema predicate child at_rows → starts_at c child at_rows a h l → (length l ≤ length (live_pages h))%nat →
  choose_rows (select_row schema predicate) l = choose_rows (select_row schema predicate) (live_pages h) →
  changes_row fuel c info new body →
  (∀ c' z out Q, at_rest a c c' →
     wp (count ← for_each rounds (fun o => on_child (Next child o)) body out_start 0; count_row count out) (c', z) Q → wp (run out) (c', z) Q) →
  choose_rows (select_row schema predicate) (live_pages h) = Ret selected → map_rows (revision new) selected = Ret revisions →
  fits a revisions → in_int32 (length selected) = true → (2 + length (live_pages h) ≤ rounds)%nat →
  choose_rows (changed_row schema predicate new) (live_pages h) = Ret rest →
  wp (run_executor rounds (mkExecutor _ (ex_start child, false) (change_init child) (once run) output)) c (changed selected rest (fun id => needed id revisions)).
Proof using Hstores Hh Hinfo.
  intros Hsource Hstart Hl Hsame Hbody Hrun Hsel Hrevs Hfits Hcount Hrounds Hrest. pose proof info_readable as Hread.
  assert (revise_all revisions (live_pages h) = rest) as <-.
  { destruct (revise_changed schema predicate new _ rest (live_pages_nodup _ _ _ (readable_heap _ _ _ _ Hread)) Hrest) as (rows2 & revs2 & Hrows2 & Hrevs2 & <- & _). assert (rows2 = selected) as -> by congruence. by assert (revs2 = revisions) as -> by congruence. }
  apply run_change_wp; [lia|]. eapply wp_mono; [exact Hstart|]. intros [] [c1 z1] (Hc1 & z & Hz & Hat). cbn [fst snd] in *. subst z1. split; [done|].
  apply Hrun; [done|]. wp_step. eapply wp_mono; [eapply (change_loop_wp fuel c H' oid info Hinfo schema predicate new rounds child at_rows body h a l); try done; [lia|by rewrite Hsame]|].
  intros k [c2 [x2 b2]] (Hb2 & -> & a' & h' & [Hrep2 Hc2] & Hst2 & Hlive & Hspent). cbn [fst snd] in *. subst b2. unfold count_row. rewrite count_tuple_new. wp_step. wp_step.
  split_and!; [done|done|done|]. exists a', (<[oid := h']> H'). split_and!; [done|done| | |exact Hspent].
  - rewrite Hc2. destruct Hst2 as [Hs1 Hs2]. split; [|done]. intros o x Ho. by apply Hs1.
  - rewrite <-Hlive. apply now_has_insert.
Qed.

(** DELETE over any scan that finds the rows. *)
Lemma delete_scan_wp scan output indexes selected rest rounds :
  finds c (live_pages h) schema oid predicate scan → GetTableIndexes (table_name info) c = Ret indexes →
  choose_rows (select_row schema predicate) (live_pages h) = Ret selected → length selected ≤ INT32_MAX →
  choose_rows (changed_row schema predicate (deleted info indexes)) (live_pages h) = Ret rest → (2 + length (live_pages h) ≤ rounds)%nat →
  wp (Execute rounds fuel (DeletePlanNode output scan oid)) c (changed selected rest (fun _ => 0)).
Proof using Hbytes Hrep Hstores Hh Hinfo.
  intros Hfinds Hindexes Hsel Hmax Hrest Hrounds. pose proof info_readable as Hread.
  destruct (revise_changed schema predicate _ _ rest (live_pages_nodup _ _ _ (readable_heap _ _ _ _ Hread)) Hrest) as (selected' & revisions & Hsel' & Hrevs & _ & Hin).
  assert (selected' = selected) as -> by congruence.
  destruct (finds_source rounds fuel c a oid info h schema predicate scan) as (child & at_rows & l & Hchild & Hsource & Hstart & Hl & Hsame); [done..|].
  pose proof (deleted_revisions _ _ _ _ Hrevs) as Hnone.
  enough (wp (Execute rounds fuel (DeletePlanNode output scan oid)) c (changed selected rest (fun id => needed id revisions))) as Hwp.
  { eapply wp_mono; [exact Hwp|]. intros ts c' (? & a' & Hafter & ? & ? & ? & ? & Hspent). split; [done|]. exists a', Hafter. split_and!; [done..|].
    intros id. rewrite Hspent. by rewrite needed_deleted. }
  unfold Execute. cbn [CreateExecutor]. rewrite Hchild. wp_step. apply (wp_lift (DeleteExecutor rounds output oid child)).
  eapply change_statement_wp; [exact Hsource|exact Hstart|done|done|by apply deletes_row| |done|done| | |done|done].
  - intros c' z out Q [_ Hc'] HQ. unfold get_table. wp_step. wp_step. apply wp_on_catalog. wp_step. assert (GetTable oid c' = Some info) as -> by by rewrite Hc'.
    cbn [deref]. wp_step. wp_step. wp_step. cbn [fst snd]. assert (GetTableIndexes (table_name info) c' = Ret indexes) as -> by by rewrite Hc', GetTableIndexes_pages. wp_step. exact HQ.
  - eapply fits_deleted; [exact Hread|]. rewrite Forall_forall in Hnone |- *. intros r Hr. split; [by apply Hnone|by apply Hin].
  - apply in_int32_iff. unfold INT32_MIN, INT32_MAX in *. lia.
Qed.

(** UPDATE over any scan that finds the rows. *)
Lemma update_scan_wp scan output update_exprs selected revisions rest rounds :
  finds c (live_pages h) schema oid predicate scan → update_exprs ≠ [] →
  choose_rows (select_row schema predicate) (live_pages h) = Ret selected → length selected ≤ INT32_MAX →
  map_rows (revision (updated info update_exprs)) selected = Ret revisions → fits a revisions →
  choose_rows (changed_row schema predicate (updated info update_exprs)) (live_pages h) = Ret rest → (2 + length (live_pages h) ≤ rounds)%nat →
  wp (Execute rounds fuel (UpdatePlanNode output scan oid update_exprs)) c (changed selected rest (fun id => needed id revisions)).
Proof using Hbytes Hrep Hstores Hh Hinfo.
  intros Hfinds Hexprs Hsel Hmax Hrevs Hfits Hrest Hrounds.
  destruct (finds_source rounds fuel c a oid info h schema predicate scan) as (child & at_rows & l & Hchild & Hsource & Hstart & Hl & Hsame); [done|done|by apply info_readable|done|].
  unfold Execute. cbn [CreateExecutor]. rewrite Hchild. wp_step. apply (wp_lift (UpdateExecutor rounds output oid update_exprs child)).
  eapply change_statement_wp; [exact Hsource|exact Hstart|done|done|by apply updates_row| |done|done|done| |done|done].
  - intros c' z out Q [_ Hc'] HQ. unfold get_table. wp_step. wp_step. apply wp_on_catalog. wp_step. assert (GetTable oid c' = Some info) as -> by by rewrite Hc'.
    cbn [deref]. wp_step. exact HQ.
  - apply in_int32_iff. unfold INT32_MIN, INT32_MAX in *. lia.
Qed.

(** C4: [DELETE FROM t WHERE p] on a table without indexes, as the server or the shell
    optimizes it.  If [p] can be evaluated on every row of the table, the statement
    ends and returns the number of rows that satisfy [p]; of the table exactly the
    other rows are left, as they were, under their identifiers and in their order, and
    no free byte of a page is used up or won back; the other tables and the catalog
    have not changed.  The rows go while the scan of the table is still on its way.
    (For a table with indexes see [delete_leaves_indexes_stale].) *)
Theorem delete_removes o output selected :
  optimizable o → GetTableIndexes (table_name info) c = Ret [] → length (live_pages h) ≤ INT32_MAX →
  choose_rows (select_row schema predicate) (live_pages h) = Ret selected →
  ∃ plan n, Optimize o (DeletePlanNode output (SeqScanPlanNode schema oid predicate) oid) = Ret plan ∧
    ∀ rounds, (n ≤ rounds)%nat → wp (Execute rounds fuel plan) c
      (changed selected (filter (fun y => Some y.1 ∉ selected.*2) (live_pages h)) (fun _ => 0)).
Proof using Hbytes Hrep Hstores Hh Hinfo.
  intros (scan & Hscan & Hfinds)%(optimized_scan c H' schema oid predicate h o Hh) Hindexes Hmax Hsel. pose proof info_readable as Hread.
  exists (DeletePlanNode output scan oid), (2 + length (live_pages h))%nat. split; [cbn [Optimize]; rewrite Hscan; destruct o; reflexivity|].
  intros rounds Hrounds. pose proof (choose_rows_length _ _ _ Hsel). eapply delete_scan_wp; try done; [lia|].
  apply changed_filter; [by eapply live_pages_nodup, readable_heap|done].
Qed.

(** C5: [UPDATE t SET ... WHERE p] on a table without indexes, as the server or the
    shell optimizes it.  If [p] and the new values can be computed on the rows, and the
    new tuples of each page fit into the bytes that are free on it, the statement ends
    and returns the number of rows that satisfy [p]; these rows have the new values
    under their old identifiers and in their old places, each changed once; the other
    rows, the other tables and the catalog are as they were.  The new tuples are
    written next to the old ones: their bytes are used up on each page.  (The executor
    does not look at indexes at all: those of an updated table keep the old keys.) *)
Theorem update_replaces o output update_exprs selected revisions :
  optimizable o → update_exprs ≠ [] → GetTableIndexes (table_name info) c = Ret [] → length (live_pages h) ≤ INT32_MAX →
  choose_rows (select_row schema predicate) (live_pages h) = Ret selected →
  map_rows (revision (updated info update_exprs)) selected = Ret revisions → fits a revisions →
  ∃ plan n, Optimize o (UpdatePlanNode output (SeqScanPlanNode schema oid predicate) oid update_exprs) = Ret plan ∧
    ∀ rounds, (n ≤ rounds)%nat → wp (Execute rounds fuel plan) c
      (changed selected (map (replaced revisions) (live_pages h)) (fun id => needed id revisions)).
Proof using Hbytes Hrep Hstores Hh Hinfo.
  intros (scan & Hscan & Hfinds)%(optimized_scan c H' schema oid predicate h o Hh) Hexprs _ Hmax Hsel Hrevs Hfits. pose proof info_readable as Hread.
  exists (UpdatePlanNode output scan oid update_exprs), (2 + length (live_pages h))%nat.
  split; [cbn [Optimize]; rewrite Hscan; destruct o; reflexivity|]. intros rounds Hrounds.
  pose proof (choose_rows_length _ _ _ Hsel). eapply update_scan_wp; try done; [lia|].
  eapply changed_replaced; [by eapply live_pages_nodup, readable_heap|done|done|by eapply updated_nonempty].
Qed.

(** A DELETE on a table with indexes, also through the index scan that the optimizer
    has chosen, removes the rows but leaves every index as it was: an index that
    answered each key exactly still answers the key of a deleted row with its
    identifier, under which the table has no row any more. *)
Theorem delete_leaves_indexes_stale o output indexes selected rest i attr t rid key :
  optimizable o → GetTableIndexes (table_name info) c = Ret indexes → length (live_pages h) ≤ INT32_MAX →
  choose_rows (select_row schema predicate) (live_pages h) = Ret selected →
  choose_rows (changed_row schema predicate (deleted info indexes)) (live_pages h) = Ret rest →
  i ∈ indexes → LookupInteger key i = Some (rows_with_key schema attr key (live_pages h)) →
  (t, Some rid) ∈ selected → rid ∈ rows_with_key schema attr key (live_pages h) →
  ∃ plan n, Optimize o (DeletePlanNode output (SeqScanPlanNode schema oid predicate) oid) = Ret plan ∧
    ∀ rounds, (n ≤ rounds)%nat → wp (Execute rounds fuel plan) c (fun ts c' =>
      changed selected rest (fun _ => 0) ts c' ∧ GetTableIndexes (table_name info) c' = Ret indexes ∧
      i ∈ indexes ∧ (∃ rids, LookupInteger key i = Some rids ∧ rid ∈ rids) ∧ rid ∉ rest.*1).
Proof using Hbytes Hrep Hstores Hh Hinfo.
  intros (scan & Hscan & Hfinds)%(optimized_scan c H' schema oid predicate h o Hh) Hindexes Hmax Hsel Hrest Hi Hlook Hin Hrid. pose proof info_readable as Hread.
  exists (DeletePlanNode output scan oid), (2 + length (live_pages h))%nat. split; [cbn [Optimize]; rewrite Hscan; destruct o; reflexivity|].
  intros rounds Hrounds. pose proof (choose_rows_length _ _ _ Hsel). eapply wp_mono; [eapply delete_scan_wp; try done; lia|].
  intros ts c' Hc. split_and!; [done| |done|by eexists|].
  - destruct Hc as (_ & a' & Hafter & _ & -> & _). by rewrite GetTableIndexes_pages.
  - pose proof (deleted_keys _ _ _ _ _ _ Hrest) as Hrest0.
    rewrite (changed_filter _ _ _ _ selected) in Hrest0 by (done || by eapply live_pages_nodup, readable_heap). injection Hrest0 as <-.
    intros (y & Hy & [Hny _]%list_elem_of_filter)%list_elem_of_fmap. apply Hny. rewrite <-Hy.
    by apply (list_elem_of_fmap_2 snd selected (t, Some rid)).
Qed.
End statements.

(** ** INSERT ... SELECT *)
Section insertion.
Context {St : Type} `{PageStoreSpec St (list byte)} `{FloatFormat} `{IterOrder} `{NameOrder} `{SortAlgorithm}.
Context (Hbytes : ∀ d, ps_ok d ↔ Z.of_nat (length d) = ONEBASE_PAGE_SIZE).
Context (fuel : nat) (c : Catalog St) (H' : gmap Z heap) (oid source : Z) (info source_info : TableInfo) (h hs : heap).
Context (Hne : source ≠ oid) (Hh : H' !! oid = Some h) (Hinfo : GetTable oid c = Some info).
Context (Hhs : H' !! source = Some hs) (Hsource : GetTable source c = Some source_info).
Context (schema : Schema) (predicate : AbstractExpression) (indexes : list IndexInfo).

(** The stored bytes of rows, under new identifiers. *)
Definition as_rows (rids : list RID) (selected : list result_row) : list (RID * list byte) := zip rids (map (fun x => data_ x.1) selected).

(** After some insertions into the table, [left] are to come. *)
Definition inserting (a : pstate (list byte)) (ht : heap) (done : list result_row) (left : nat) : Prop :=
  stores fuel a c (<[oid := ht]> H') ∧ room 2 a ∧ ps_next a + left < INT32_MAX ∧ (length ht + left < fuel)%nat ∧
  ∃ rids, length rids = length done ∧ live_pages ht ≡ₚ as_rows rids done ++ live_pages h.

Lemma insert_one_wp s a ht done x left :
  ps_rep s a → inserting a ht done (S left) → ht ≠ [] → data_ x.1 ≠ [] → length (data_ x.1) ≤ 4076 →
  wp (InsertTuple fuel (table_ info) x.1) s (fun o s' => ∃ rid a' ht', o = Some rid ∧ ps_rep s' a' ∧ inserting a' ht' (done ++ [x]) left ∧ ht' ≠ []).
Proof using Hbytes Hinfo.
  intros Hrep (Hst & Hroom & Hnext & Hfuel & rids & Hrids & Hlive) Hht Hdata Hlen.
  destruct (stores_heap _ _ _ _ Hst oid ht (lookup_insert_eq _ _ _)) as (info' & Hi & Hread). assert (info' = info) as -> by congruence.
  destruct Hread as [Hheap Hidle Hroom1 _].
  eapply wp_mono; [apply (insert_loop_wp Hbytes (data_ x.1) ht fuel s a (table_ info)); try done; lia|].
  intros o s' (rid & ht' & a' & -> & Hrep' & Hheap' & Hins & (Hcap & Hpins & _) & Hnx & Hids & Hframe).
  destruct (inserted_length _ _ _ _ _ Hins) as [Hlen' Hne']. exists rid, a', ht'. split_and!; [done|done| |done].
  assert (∀ o h0 j, <[oid:=ht]> H' !! o = Some h0 → j ∈ h0.*1 → j < ps_next a) as Hbound.
  { intros o0 h0 j Ho Hj. destruct (stores_heap _ _ _ _ Hst _ _ Ho) as (i0 & _ & [Hat _ _ _]). by eapply heap_ids_bound. }
  assert (idle a (ps_next a)) as Hnew.
  { apply eq_None_not_Some. intros [[g n] Hp]. destruct (ps_rep_pinned s a _ g n Hrep Hp) as [_ [d' Hd']]. destruct (ps_rep_pages s a _ d' Hrep Hd'). lia. }
  split_and!.
  - rewrite <-(insert_insert_eq H' oid ht' ht). eapply stores_change; [exact Hst|apply lookup_insert_eq|done| |done|done| |].
    + split; [done| |unfold room in *; rewrite Hcap, Hpins; lia|lia]. apply (Forall_fmap fst (idle a')). apply Forall_forall. intros j Hj. unfold idle. rewrite Hpins.
      apply Hids, elem_of_app in Hj as [Hj| ->%list_elem_of_singleton]; [|done]. apply (Forall_fmap fst (idle a)) in Hidle. rewrite Forall_forall in Hidle. by apply Hidle.
    + intros j Hj. apply Hids, elem_of_app in Hj as [Hj| ->%list_elem_of_singleton]; [by left|right]. intros o0 h0 Ho Hj. specialize (Hbound _ _ _ Ho Hj). lia.
    + intros o0 h2 j Ho Hh2 Hj. apply Hframe; [|specialize (Hbound _ _ _ Hh2 Hj); lia]. intros Hj'. apply Ho.
      eapply (stores_apart _ _ _ _ Hst); [exact Hh2|apply lookup_insert_eq|done|done].
  - unfold room in *. rewrite Hcap, Hpins. lia.
  - lia.
  - lia.
  - exists (rids ++ [rid]). rewrite !length_app, Hrids. split; [done|].
    rewrite <-(live_from_pages ht'), (live_inserted _ _ _ _ _ Hins Hdata), live_from_pages, Hlive.
    unfold as_rows. rewrite map_app, zip_with_app by by rewrite length_map. cbn. solve_Permutation.
Qed.

(** What the statement leaves. *)
Definition all_inserted (selected : list result_row) (c' : Catalog St) : Prop :=
  ∃ rids rows a' H2, length rids = length selected ∧ NoDup rows.*1 ∧ rows ≡ₚ as_rows rids selected ++ live_pages h ∧
    ps_rep (bpm_ c') a' ∧ c' = set_bpm (bpm_ c') c ∧ stores fuel a' c' H2 ∧ now_has H' oid rows H2.
Definition inserted_rows (selected : list result_row) (ts : list Tuple) (c' : Catalog St) : Prop :=
  ts = [count_tuple (length selected)] ∧ all_inserted selected c'.

(** The loop of the statement over a source of rows of the other table. *)
Lemma insert_loop_rows_wp rounds (child : AbstractExecutor (St := St)) (at_rows : heap → list (RID * list byte) → ex_state child → Prop) l a c1 z (b : bool) out selected :
  row_source rounds fuel c source_info schema predicate child at_rows → at_rest a c c1 → at_rows hs l z → (length l < rounds)%nat →
  stores fuel a c H' → h ≠ [] → choose_rows (select_row schema predicate) l = Ret selected →
  Forall (fun x => data_ x.1 ≠ [] ∧ length (data_ x.1) ≤ 4076 ∧ index_keys x.1 (schema_ info) indexes = Ret tt) selected →
  room 2 a → length selected ≤ INT32_MAX → ps_next a + length selected < INT32_MAX → (length h + length selected < fuel)%nat →
  wp (for_each rounds (fun o => on_child (Next child o)) (insert_row fuel info indexes) out 0) (c1, (z, b)) (fun k cs =>
    cs.2.2 = b ∧ k = length selected ∧ all_inserted selected cs.1).
Proof using Hbytes Hne Hh Hinfo Hhs Hsource.
  intros Hsrc Hc1 Hat Hl Hst Hhne Hsel Hok Hroom Hmax Hnext Hfuel.
  eapply wp_mono; [eapply (source_loop_wp rounds fuel c source_info schema predicate child at_rows Hsrc _ (fun rows a' h' k =>
    h' = hs ∧ ∃ finished ht, selected = finished ++ rows ∧ k = length finished ∧ ht ≠ [] ∧ inserting a' ht finished (length rows))) with (l := l) (rows := selected) (a := a) (h := hs); [| |lia|lia| |done|done|done]|].
  - intros rows a' h' k (-> & finished & ht & _ & _ & _ & Hst' & _).
    destruct (stores_heap _ _ _ _ Hst' source hs) as (i & Hi & ?); [by rewrite lookup_insert_ne|]. by simplify_eq.
  - intros x rows a' h' k c2 z2 out2 y l2 (-> & finished & ht & Hsel' & -> & Hht & Hins) [Hc2 Hc2'] Hy Hx Hn Hat2.
    rewrite Hsel' in Hok. apply Forall_app in Hok as [_ Hok]. apply Forall_cons in Hok as [(Hd1 & Hd2 & Hkeys) _].
    unfold insert_row. cbn [fst snd written]. wp_step. eapply wp_heap; [by eapply insert_one_wp|].
    intros o s' (rid & a2 & ht' & -> & Hrep2 & Hins2 & Hht'). cbn beta iota. wp_step. rewrite Hkeys. wp_step. unfold increment_count. rewrite int32_op_ok.
    + wp_step. split; [done|]. exists a2, hs. split_and!; [|done| |done].
      * split; [done|]. by rewrite Hc2'.
      * exists (finished ++ [x]), ht'. split_and!; [by rewrite <-app_assoc|rewrite length_app; cbn; lia|done|done].
    + assert (length selected = length finished + S (length rows))%nat as Hls by (rewrite Hsel', length_app; done).
      apply in_int32_iff. unfold INT32_MIN, INT32_MAX in *. lia.
  - split; [done|]. exists [], h. split_and!; [done|done|done|]. split_and!; [by rewrite insert_id|done|done|done|]. by exists [].
  - intros k [c2 [x2 b2]] (Hb2 & a' & h' & [Hrep2 Hc2] & _ & finished & ht & Hsel' & -> & _ & Hst2 & _ & _ & _ & rids & Hrids & Hlive). cbn [fst snd] in *. subst b2.
    rewrite app_nil_r in Hsel'. subst finished. split_and!; [done|done|].
    exists rids, (live_pages ht), a', (<[oid := ht]> H'). split_and!; [done| |done|done|done| |apply now_has_insert].
    + destruct (stores_heap _ _ _ _ Hst2 oid ht (lookup_insert_eq _ _ _)) as (i & _ & [Hat' _ _ _]). by eapply live_pages_nodup.
    + rewrite Hc2. destruct Hst2 as [Hs1 Hs2]. split; [|done]. intros o x Ho. by apply Hs1.
Qed.

(** INSERT over any scan that finds the rows; the indexes of the table are left as
    they were, and so have no entry for the new rows. *)
Lemma insert_scan_wp scan a output selected rounds :
  finds c (live_pages hs) schema source predicate scan →
  ps_rep (bpm_ c) a → stores fuel a c H' → h ≠ [] → GetTableIndexes (table_name info) c = Ret indexes →
  choose_rows (select_row schema predicate) (live_pages hs) = Ret selected →
  Forall (fun x => data_ x.1 ≠ [] ∧ length (data_ x.1) ≤ 4076 ∧ index_keys x.1 (schema_ info) indexes = Ret tt) selected →
  room 2 a → length selected ≤ INT32_MAX → ps_next a + length selected < INT32_MAX → (length h + length selected < fuel)%nat →
  (2 + length (live_pages hs) ≤ rounds)%nat →
  wp (Execute rounds fuel (InsertPlanNode output scan oid)) c (fun ts c' =>
    inserted_rows selected ts c' ∧ GetTableIndexes (table_name info) c' = Ret indexes).
Proof using Hbytes Hne Hh Hinfo Hhs Hsource.
  intros Hfinds Hrep Hst Hhne Hindexes Hsel Hok Hroom Hmax Hnext Hfuel Hrounds.
  assert (readable fuel a (table_ source_info) hs) as Hread by (destruct (stores_heap _ _ _ _ Hst _ _ Hhs) as (i & Hi & ?); by simplify_eq).
  destruct (finds_source rounds fuel c a source source_info hs schema predicate scan) as (child & at_rows & l & Hchild & Hsrc & Hstart & Hl & Hsame); [done..|].
  eapply (wp_mono _ _ (inserted_rows selected)).
  2:{ intros ts c' Hc. split; [done|]. destruct Hc as (_ & rids & rows & a' & Hafter & _ & _ & _ & _ & -> & _). by rewrite GetTableIndexes_pages. }
  unfold Execute. cbn [CreateExecutor]. rewrite Hchild. wp_step. apply (wp_lift (InsertExecutor rounds fuel output oid child)).
  apply run_change_wp; [lia|]. eapply wp_mono; [exact Hstart|]. intros [] [c1 z1] (Hc1 & z & Hz & Hat). cbn [fst snd] in *. subst z1. split; [done|].
  unfold get_table. wp_step. wp_step. apply wp_on_catalog. wp_step. assert (GetTable oid c1 = Some info) as -> by (destruct Hc1 as [_ ->]; done).
  cbn [deref]. wp_step. wp_step. wp_step. cbn [fst snd]. assert (GetTableIndexes (table_name info) c1 = Ret indexes) as -> by (destruct Hc1 as [_ ->]; by rewrite GetTableIndexes_pages).
  wp_step. wp_step. wp_step. eapply wp_mono; [eapply (insert_loop_rows_wp rounds child at_rows l a c1 z true out_start selected); try done; [lia|by rewrite Hsame]|].
  intros k [c2 [x2 b2]] (Hb2 & -> & HQ). cbn [fst snd] in *. subst b2. unfold count_row. rewrite count_tuple_new. wp_step. wp_step. by split_and!.
Qed.
End insertion.

Section insert_statement.
Context {St : Type} `{PageStoreSpec St (list byte)} `{FloatFormat} `{IterOrder} `{NameOrder} `{SortAlgorithm}.
Context (Hbytes : ∀ d, ps_ok d ↔ Z.of_nat (length d) = ONEBASE_PAGE_SIZE).
Context (fuel : nat) (c : Catalog St) (H' : gmap Z heap) (oid source : Z) (info source_info : TableInfo) (h hs : heap).
Context (Hne : source ≠ oid) (Hh : H' !! oid = Some h) (Hinfo : GetTable oid c = Some info).
Context (Hhs : H' !! source = Some hs) (Hsource : GetTable source c = Some source_info).
Context (schema : Schema) (predicate : AbstractExpression).

(** C6: [INSERT INTO t SELECT * FROM u WHERE p], for two different tables, [t] without
    indexes, as the server or the shell optimizes it.  If [p] can be computed on the
    rows of [u], no tuple is larger than an empty page, there are page numbers and two
    frames for the new pages (and the indexes of [u] are up to date, for the server),
    the statement ends and returns the number of rows of [u] that satisfy [p]; [t] has
    these rows, each once under an identifier of its own, and all it had before; the
    other tables, [u] too, and the catalog are as they were.  (The keys of the indexes
    of [t] are computed and thrown away: by [insert_scan_wp] an index stays as it was,
    without the new rows.) *)
Theorem insert_adds o a output selected :
  optimizable_scan c H' schema source predicate o →
  ps_rep (bpm_ c) a → stores fuel a c H' → h ≠ [] → GetTableIndexes (table_name info) c = Ret [] →
  choose_rows (select_row schema predicate) (live_pages hs) = Ret selected →
  Forall (fun x => data_ x.1 ≠ [] ∧ length (data_ x.1) ≤ 4076) selected →
  room 2 a → length selected ≤ INT32_MAX → ps_next a + length selected < INT32_MAX → (length h + length selected < fuel)%nat →
  ∃ plan n, Optimize o (InsertPlanNode output (SeqScanPlanNode schema source predicate) oid) = Ret plan ∧
    ∀ rounds, (n ≤ rounds)%nat → wp (Execute rounds fuel plan) c (inserted_rows fuel c H' oid h selected).
Proof using Hbytes Hne Hh Hinfo Hhs Hsource.
  intros (scan & Hscan & Hfinds)%(optimized_scan c H' schema source predicate hs o Hhs) Hrep Hst Hhne Hindexes Hsel Hok Hroom Hmax Hnext Hfuel.
  exists (InsertPlanNode output scan oid), (2 + length (live_pages hs))%nat.
  split; [cbn [Optimize]; rewrite Hscan; destruct o; reflexivity|]. intros rounds Hrounds.
  eapply wp_mono; [eapply insert_scan_wp; try done|by intros ts c' [? _]].
  eapply Forall_impl; [exact Hok|]. intros x [? ?]. by split_and!.
Qed.
End insert_statement.

(** ** A table with one row, and a second table without *)
#[local] Instance plain_floats : FloatFormat := fun _ => "".

(** The bytes that are free on the page in a frame. *)
Definition free_bytes {St} `{PageStore St (list byte)} (id : Z) : M St Z :=
  page ← ps_fetch_page id; match page with Some f => read_page f GetFreeSpaceRemaining | None => lift OutOfFuel end.

Lemma free_bytes_wp {St} `{PageStoreSpec St (list byte)} fuel s a id h :
  ps_rep s a → readable fuel a id h → h ≠ [] → wp (free_bytes id) s (fun n _ => n = free_in a id).
Proof.
  intros Hrep [Hheap Hidle Hroom _] Hne. inversion Hheap as [|? d next fsp slots rest Hd Hpage Hnotin Hrest]; subst; [done|].
  apply Forall_cons in Hidle as [Hid _]. unfold free_bytes. wp_step. apply (fetch_wp s a id d); [done..|]. intros f s1 Hrep1. cbn beta iota.
  rewrite (free_in_page a id d next fsp slots Hd Hpage).
  eapply read_page_wp; [exact Hrep1|apply lookup_insert_eq|exact Hd| |done]. by eapply wp_mono; [by eapply GetFreeSpaceRemaining_wp|].
Qed.

Lemma one_row_free :
  wp (first ← TableHeap_new; os ← insert_all 2 first [row_seven]; mret first) heap_pool (fun first s => (free_bytes first s).1 = Ret 4072 ∧ (Begin 4 first s).1 = Ret (mkRID first 0)).
Proof. vm_compute. split; reflexivity. Qed.

Lemma one_row_room :
  wp (first ← TableHeap_new; os ← insert_all 2 first [row_seven]; mret first) heap_pool (fun first s => ∃ a h,
    ps_rep s a ∧ readable 4 a first h ∧ live_pages h = [(mkRID first 0, data_ row_seven)] ∧ free_in a first = 4072).
Proof.
  eapply wp_mono; [exact (wp_and _ _ _ _ one_row_heap one_row_free)|]. intros first s [(a & h & rid & Hrep & Hread & Hlive & _) [Hfree Hbegin]].
  exists a, h. assert (h ≠ []) as Hne by by intros ->. split_and!; [done|done| |].
  - destruct (wp_elim _ _ _ (Begin_cursor _ _ _ _ _ Hrep Hread)) as (it & s' & Hrun & _ & Hcur). rewrite Hrun in Hbegin. rewrite Hlive in Hcur |- *.
    cbn in Hbegin. destruct Hcur as [Hit _]. congruence.
  - destruct (wp_elim _ _ _ (free_bytes_wp _ _ _ _ _ Hrep Hread Hne)) as (n & s' & Hrun & Hn). rewrite Hrun in Hfree. cbn in Hfree. congruence.
Qed.

Definition demo_table (first : Z) : TableInfo := mkTableInfo one_column "t" first 1.

Lemma demo_stores {St} fuel a first (c : Catalog St) h :
  GetTable 1 c = Some (demo_table first) → readable fuel a first h → stores fuel a c {[1 := h]}.
Proof.
  intros Ht Hread. split.
  - intros oid h' [<- <-]%lookup_singleton_Some. by exists (demo_table first).
  - by intros oid oid' h1 h2 id [<- <-]%lookup_singleton_Some [<- <-]%lookup_singleton_Some.
Qed.

Lemma seven_typed rid : tuple_typed (stored_tuple (rid, data_ row_seven)) one_column.
Proof.
  intros i t. unfold one_column. rewrite schema_types_new. destruct i as [|i]; [|done]. intros [= <-]. eexists. split; vm_compute; reflexivity.
Qed.

Lemma seven_keys rid infos : (∀ i, i ∈ infos → key_attrs_ i = [0%nat]) → index_keys (SetRID rid row_seven) one_column infos = Ret tt.
Proof.
  induction infos as [|i infos IH]; intros Hk; [done|]. cbn [index_keys]. rewrite Hk by by left.
  cbn. apply IH. intros j Hj. apply Hk. by right.
Qed.

(** [DELETE FROM t WHERE x = 7], through the index on [x] if there is one. *)
Definition delete_x (i : Z) : AbstractPlanNode := DeletePlanNode one_column (SeqScanPlanNode one_column 1 (x_is i)) 1.

Lemma seven_scan_ok {St} (c : Catalog St) first i rid h :
  GetTable 1 c = Some (demo_table first) → live_pages h = [(rid, data_ row_seven)] → key_attrs_ i = [0%nat] →
  (∀ key, LookupInteger key i = match rows_with_key one_column 0 key (live_pages h) with [] => None | rids => Some rids end) →
  scan_ok c {[("i", "t") := i]} (rows_of {[1 := h]}) one_column 1 (x_is 7).
Proof.
  intros Ht Hlive Hk Hlookup. split; [by eexists|]. exists (demo_table first), (live_pages h). split_and!; [done| | | |].
  - unfold rows_of. by rewrite lookup_singleton_eq.
  - rewrite Hlive. apply NoDup_singleton.
  - rewrite Hlive. constructor; [apply seven_typed|constructor].
  - intros name j [[= <-] <-]%lookup_singleton_Some. intros _. assert (GetLookupAttr i = Ret 0%nat) as Ha by (unfold GetLookupAttr; by rewrite Hk).
    split; [by exists 0%nat|]. rewrite Ha. by intros attr [= <-].
Qed.

Example delete_removes_witness :
  wp (first ← TableHeap_new; os ← insert_all 2 first [row_seven]; mret first) heap_pool (fun first s =>
    ∃ n, wp (Execute n 4 (delete_x 7)) (demo_catalog first s) (fun ts c' => ts = [count_tuple 1] ∧
      ∃ a' H2, ps_rep (bpm_ c') a' ∧ stores 4 a' c' H2 ∧ rows_of H2 1 = Some [])).
Proof.
  eapply wp_mono; [exact one_row_room|]. intros first s (a & h & Hrep & Hread & Hlive & _).
  destruct (delete_removes disk_pages 4 a (demo_catalog first s) {[1 := h]} 1 (demo_table first) h Hrep (demo_stores _ _ _ (demo_catalog first s) _ eq_refl Hread) (lookup_insert_eq _ _ _) eq_refl one_column (x_is 7) None one_column
    [(SetRID (mkRID first 0) row_seven, Some (mkRID first 0))]) as (plan & n & [= <-] & Hn); [done|done|by rewrite Hlive|by rewrite Hlive|].
  exists n. eapply wp_mono; [by apply (Hn n)|]. intros ts c' (-> & a' & H2 & Hrep' & _ & Hst & Hrows & _).
  split; [done|]. exists a', H2. split_and!; [done|done|]. rewrite (Hrows 1), Hlive, decide_True, filter_cons, decide_False by
    first [done|intros Hout; apply Hout; by left]. done.
Defined.

(** Through the index on [x] *)
Example delete_leaves_indexes_stale_witness :
  wp (first ← TableHeap_new; os ← insert_all 2 first [row_seven]; mret first) heap_pool (fun first s =>
    wp (CreateIndex 2 4 "i" "t" [0%nat]) (demo_catalog first s) (fun _ c => ∃ plan n i rid, Optimize (Some c) (delete_x 7) = Ret plan ∧
      wp (Execute n 4 plan) c (fun ts c' => (ts = [count_tuple 1] ∧ ∃ H2, (∃ a', ps_rep (bpm_ c') a' ∧ stores 4 a' c' H2) ∧ rows_of H2 1 = Some []) ∧
        (∃ indexes, GetTableIndexes "t" c' = Ret indexes ∧ i ∈ indexes) ∧ ∃ rids, LookupInteger 7 i = Some rids ∧ rid ∈ rids))).
Proof.
  eapply wp_mono; [exact one_row_heap|]. intros first s (a & h & rid & Hrep & Hread & Hlive & _).
  eapply wp_mono; [eapply (CreateIndex_builds (demo_catalog first s) _ ∅ a h _ "i" "t" 0 _ 2 4 (demo_catalog_rep first s))|]; rewrite ?Hlive; try done.
  { cbn. lia. }
  { constructor; [|constructor]. by exists 7. }
  intros o c (i & -> & _ & Hk & Hn & Ht & Hlookup & Hcat & Hrep2). rewrite insert_empty, <-Hlive in *.
  assert (GetTable 1 c = Some (demo_table first)) as Htable by (apply (rep_tables _ _ _ Hcat); by rewrite lookup_singleton_eq).
  destruct (GetTableIndexes_rep c _ _ "t" Hcat) as (infos & Hinfos & Hin).
  assert (∀ j, j ∈ infos → key_attrs_ j = [0%nat]) as Hkeys by (intros j [_ <-]%Hin%lookup_singleton_Some; done).
  assert (i ∈ infos) as Hi by (apply Hin; rewrite Hn; by rewrite lookup_singleton_eq).
  assert (select_row one_column (x_is 7) (rid, data_ row_seven) = Ret (Some (SetRID rid row_seven, Some rid))) as Hs by reflexivity.
  assert (rows_with_key one_column 0 7 (live_pages h) = [rid]) as Hseven by (rewrite Hlive; reflexivity).
  destruct (delete_leaves_indexes_stale disk_pages 4 a c {[1 := h]} 1 (demo_table first) h Hrep2 (demo_stores _ _ _ _ _ Htable Hread) (lookup_singleton_eq _ _) Htable one_column (x_is 7) (Some c) one_column infos
    [(SetRID rid row_seven, Some rid)] [] i 0%nat (SetRID rid row_seven) rid 7) as (plan & n & Hplan & Hrun);
    [split; [done|]; eexists _, _; split; [exact Hcat|by eapply seven_scan_ok]|done|by rewrite Hlive|rewrite Hlive; cbn [choose_rows]; by rewrite Hs| |done| |by left|rewrite Hseven; by left|].
  - rewrite Hlive. cbn [choose_rows]. unfold changed_row, deleted. rewrite Hs. cbn [mbind outcome_bind fst].
    change (schema_ (demo_table first)) with one_column. by rewrite (seven_keys rid infos Hkeys).
  - rewrite Hlookup. change (schema_ (mkTableInfo one_column "t" first 1)) with one_column. by rewrite Hseven.
  - exists plan, n, i, rid. split; [done|]. eapply wp_mono; [by apply (Hrun n)|].
    intros ts c' ((-> & a' & H2 & Hrep' & _ & Hst & Hrows & _) & Hinfos' & _ & Hans & _). split; [|split; [by exists infos|done]].
    split; [done|]. exists H2. split; [by eexists|]. apply (Hrows 1).
Defined.

(** [UPDATE t SET x = x + 1 WHERE x = 7] *)
Definition next_x : AbstractExpression := ArithmeticExpression column_x (ConstantValueExpression (Value_int INTEGER 1)) Plus INTEGER.
Definition update_x (i : Z) : AbstractPlanNode := UpdatePlanNode one_column (SeqScanPlanNode one_column 1 (x_is i)) 1 [next_x].

Example update_replaces_witness :
  wp (first ← TableHeap_new; os ← insert_all 2 first [row_seven]; mret first) heap_pool (fun first s =>
    ∃ n rid, wp (Execute n 4 (update_x 7)) (demo_catalog first s) (fun ts c' => ts = [count_tuple 1] ∧
      ∃ a' H2, ps_rep (bpm_ c') a' ∧ stores 4 a' c' H2 ∧ rows_of H2 1 = Some [(rid, LittleEndianList.le_split 4 8)])).
Proof.
  eapply wp_mono; [exact one_row_room|]. intros first s (a & h & Hrep & Hread & Hlive & Hin).
  destruct (update_replaces disk_pages 4 a (demo_catalog first s) {[1 := h]} 1 (demo_table first) h Hrep (demo_stores _ _ _ (demo_catalog first s) _ eq_refl Hread) (lookup_insert_eq _ _ _) eq_refl one_column (x_is 7) None one_column [next_x]
    [(SetRID (mkRID first 0) row_seven, Some (mkRID first 0))] [(mkRID first 0, LittleEndianList.le_split 4 8)]) as (plan & n & [= <-] & Hn);
    [done|done|done|by rewrite Hlive|by rewrite Hlive|reflexivity| |].
  - constructor; [|constructor]. rewrite needed_cons, decide_True by done. cbn [fst snd page_id_of]. by rewrite Hin.
  - exists n, (mkRID first 0). eapply wp_mono; [by apply (Hn n)|]. intros ts c' (-> & a' & H2 & Hrep' & _ & Hst & Hrows & _).
    split; [done|]. exists a', H2. split_and!; [done|done|]. rewrite (Hrows 1), Hlive, decide_True by done.
    cbn [map]. unfold replaced, new_bytes. cbn [fst]. by rewrite bool_decide_true.
Defined.

(** [INSERT INTO u SELECT * FROM t WHERE x = 7], for an empty table [u]. *)
Definition insert_x (i : Z) : AbstractPlanNode := InsertPlanNode one_column (SeqScanPlanNode one_column 1 (x_is i)) 2.
Definition two_tables {St} (first second : Z) (s : St) : Catalog St :=
  add_table (mkTableInfo one_column "u" second 2) (demo_catalog first s).

Lemma two_heaps :
  wp (first ← (first ← TableHeap_new; os ← insert_all 2 first [row_seven]; mret first); second ← TableHeap_new; mret (first, second)) heap_pool (fun x s => ∃ a h rid,
    ps_rep s a ∧ stores 4 a (two_tables x.1 x.2 s) (<[2 := [(x.2, [])]]> {[1 := h]}) ∧ live_pages h = [(rid, data_ row_seven)] ∧ room 2 a ∧ ps_next a ≤ 3).
Proof.
  wp_step. eapply wp_mono; [exact one_row_heap|]. intros first s (a & h & rid & Hrep & Hread & Hlive & Hroom & Hnext).
  wp_step. eapply wp_mono; [apply (TableHeap_new_wp disk_pages s a Hrep); [unfold room in *; lia|unfold INT32_MAX; lia]|].
  intros second s' (-> & a' & Hrep' & Hheap & (Hcap & Hpins & _) & Hn & Hframe). wp_step. exists a', h, rid.
  assert (∀ j, j ∈ h.*1 → j < ps_next a) as Hbound by (intros j Hj; by eapply (heap_ids_bound disk_pages); [exact Hrep|apply Hread|]).
  split_and!; [done| |done|unfold room in *; rewrite Hcap, Hpins; lia|lia]. split.
  - intros oid h' [[<- <-]|[Hne [<- <-]%lookup_singleton_Some]]%lookup_insert_Some.
    + exists (mkTableInfo one_column "u" (ps_next a) 2). split; [done|]. split; [done| |unfold room in *; rewrite Hcap, Hpins; lia|cbn; lia].
      apply Forall_singleton. unfold idle. cbn. rewrite Hpins. apply eq_None_not_Some. intros [[g n] Hp].
      destruct (ps_rep_pinned s a _ g n Hrep Hp) as [_ [d' Hd']]. destruct (ps_rep_pages s a _ d' Hrep Hd'). lia.
    + exists (demo_table first). split; [done|]. eapply readable_frame; [done..|]. intros j Hj%Hbound. apply Hframe. lia.
  - intros oid oid' h1 h2 id [[<- <-]|[Hne1 [<- <-]%lookup_singleton_Some]]%lookup_insert_Some [[<- <-]|[Hne2 [<- <-]%lookup_singleton_Some]]%lookup_insert_Some; try done.
    + intros Hi%list_elem_of_singleton Hj%Hbound. subst id. cbn in Hj. lia.
    + intros Hj%Hbound Hi%list_elem_of_singleton. subst id. cbn in Hj. lia.
Qed.

Example insert_adds_witness :
  wp (first ← (first ← TableHeap_new; os ← insert_all 2 first [row_seven]; mret first); second ← TableHeap_new; mret (first, second)) heap_pool (fun x s =>
    ∃ n rid, wp (Execute n 4 (insert_x 7)) (two_tables x.1 x.2 s) (fun ts c' => ts = [count_tuple 1] ∧
      ∃ a' H2, ps_rep (bpm_ c') a' ∧ stores 4 a' c' H2 ∧ rows_of H2 1 ≠ None ∧ rows_of H2 2 = Some [(rid, data_ row_seven)])).
Proof.
  eapply wp_mono; [exact two_heaps|]. intros [first second] s (a & h & rid & Hrep & Hst & Hlive & Hroom & Hnext). cbn [fst snd] in *.
  destruct (insert_adds disk_pages 4 (two_tables first second s) (<[2 := [(second, [])]]> {[1 := h]}) 2 1 (mkTableInfo one_column "u" second 2) (demo_table first) [(second, [])] h
    ltac:(done) (lookup_insert_eq _ _ _) eq_refl ltac:(by rewrite lookup_insert_ne, lookup_singleton_eq) eq_refl one_column (x_is 7) None a one_column [(SetRID rid row_seven, Some rid)]) as (plan & n & [= <-] & Hn);
    [done|done|done|done|reflexivity|by rewrite Hlive| |done|done|cbn; unfold INT32_MAX; lia|cbn; lia|].
  { constructor; [|constructor]. split; [done|by vm_compute]. }
  destruct (wp_elim _ _ _ (Hn n (Nat.le_refl n))) as (ts & c' & Hrun & -> & rids & rows & a' & H2 & Hlen & _ & Hperm & Hrep' & _ & Hst' & Hrows).
  destruct rids as [|rid' [|]]; try done. apply Permutation_singleton_r in Hperm. exists n, rid'.
  eapply wp_intro; [exact Hrun|]. split; [done|]. exists a', H2. split_and!; [done|done| |].
  - rewrite (Hrows 1). done.
  - rewrite (Hrows 2). by rewrite Hperm.
Defined.
