(* ===== verification/Protocol.v ===== *)
(** * The wire protocol

    Models [src/include/onebase/server/protocol.h] and the table that the client
    prints ([src/onebase_client/client_main.cpp]).  A file descriptor is a state
    with the system calls [read] and [write], which move as many bytes as they like:
    the code is proved for every way in which they cut a stream. *)
From coqutil Require Import Byte Word.LittleEndianList.
From S2P Require Import Prelude Bytes Value.

#[local] Open Scope Z_scope.
#[local] Coercion Z.of_nat : nat >-> Z.

(** [enum class MessageType : uint8_t]: every byte is a value of it. *)
Abbreviation MessageType := Byte.byte (only parsing).
Definition QUERY : MessageType := Byte.x51.
Definition RESULT : MessageType := Byte.x52.
Definition ERROR : MessageType := Byte.x45.
Definition COMMAND_COMPLETE : MessageType := Byte.x43.
Definition TERMINATE : MessageType := Byte.x58.

(** The system calls: the result, and the bytes that [read] stored. *)
Class Socket (S : Type) := {
  sys_read : Z → M S (Z * list byte);
  sys_write : list byte → M S Z;
}.

(** [htonl], as the bytes of the integer in memory; and [ntohl]. *)
Definition htonl (v : Z) : list byte := rev (le_split 4 v).
Definition ntohl (bs : list byte) : Z := le_combine (rev bs).

Section framing.
Context {S : Type} `{Socket S}.

(** Every round of the loops moves a byte, so [len] rounds are enough. *)
Fixpoint read_loop (rounds : nat) (remaining : Z) (buf : list byte) : M S (option (list byte)) :=
  match rounds with
  | O => lift OutOfFuel
  | Datatypes.S rounds' =>
    if bool_decide (0 < remaining) then
      r ← sys_read remaining;
      if bool_decide (r.1 ≤ 0) then mret None
      else read_loop rounds' (wrapu 64 (remaining - r.1)) (buf ++ r.2)
    else mret (Some buf)
  end.
(** [None] is [false]. *)
Definition ReadExact (len : Z) : M S (option (list byte)) := read_loop (Datatypes.S (Z.to_nat len)) len [].

Fixpoint write_loop (rounds : nat) (p : list byte) : M S bool :=
  match rounds with
  | O => lift OutOfFuel
  | Datatypes.S rounds' =>
    if bool_decide (0 < length p) then
      n ← sys_write p;
      if bool_decide (n ≤ 0) then mret false else write_loop rounds' (drop (Z.to_nat n) p)
    else mret true
  end.
Definition WriteExact (buf : list byte) : M S bool := write_loop (Datatypes.S (length buf)) buf.

Definition SendMessage (type : MessageType) (data : string) : M S bool :=
  let payload_len := wrapu 32 (length (string_bytes data) + 1) in
  ok ← WriteExact (htonl payload_len);
  if negb ok then mret false
  else
    ok ← WriteExact [type];
    if negb ok then mret false
    else if bool_decide (string_bytes data ≠ []) then WriteExact (string_bytes data) else mret true.

Definition RecvMessage : M S (option (MessageType * string)) :=
  net_len ← ReadExact 4;
  match net_len with
  | None => mret None
  | Some net_len =>
    let payload_len := ntohl net_len in
    if bool_decide (payload_len = 0) then mret None
    else
      type_byte ← ReadExact 1;
      match type_byte with
      | Some [type] =>
        let data_len := wrapu 32 (payload_len - 1) in
        if bool_decide (0 < data_len) then
          data ← ReadExact data_len;
          mret match data with Some data => Some (type, String.string_of_list_byte data) | None => None end
        else mret (Some (type, ""))
      | _ => mret None
      end
  end.
End framing.

(** ** Streams

    What the kernel promises about a connected socket: [incoming] is what the peer
    sends before it closes its end, [sent] what was written.  A call moves at least
    one byte while there is one, and reports the end of the stream only at its end. *)
Class SocketSpec (S : Type) `{Socket S} := {
  healthy : S → Prop;
  incoming : S → list byte;
  sent : S → list byte;
  sys_read_some s len : healthy s → 0 < len → incoming s ≠ [] →
    wp (sys_read len) s (fun r s' =>
      0 < r.1 ≤ len ∧ length r.2 = r.1 :> Z ∧ incoming s = r.2 ++ incoming s' ∧ sent s' = sent s ∧ healthy s');
  sys_read_end s len : healthy s → 0 < len → incoming s = [] →
    wp (sys_read len) s (fun r s' => r.1 ≤ 0 ∧ incoming s' = [] ∧ sent s' = sent s ∧ healthy s');
  sys_write_some s p : healthy s → p ≠ [] →
    wp (sys_write p) s (fun n s' =>
      0 < n ≤ length p ∧ sent s' = sent s ++ take (Z.to_nat n) p ∧ incoming s' = incoming s ∧ healthy s');
}.

(** A message as bytes, and the message that begins a stream. *)
Definition frame (type : MessageType) (data : string) : list byte :=
  htonl (length (string_bytes data) + 1) ++ [type] ++ string_bytes data.

Definition parse_frame (stream : list byte) : option (MessageType * string * list byte) :=
  if bool_decide (length stream < 4) then None
  else
    let payload_len := ntohl (take 4 stream) in
    match drop 4 stream with
    | type :: rest =>
      if bool_decide (0 < payload_len) && bool_decide (payload_len - 1 ≤ length rest)
      then Some (type, String.string_of_list_byte (take (Z.to_nat (payload_len - 1)) rest), drop (Z.to_nat (payload_len - 1)) rest)
      else None
    | [] => None
    end.

Lemma ntohl_htonl v : 0 ≤ v < 2 ^ 32 → ntohl (htonl v) = v.
Proof. intros Hv. unfold ntohl, htonl. rewrite rev_involutive, le_combine_split. by apply Z.mod_small. Qed.

Lemma length_htonl v : length (htonl v) = 4%nat.
Proof. unfold htonl. by rewrite length_rev, length_le_split. Qed.

Lemma ntohl_range bs : length bs = 4%nat → 0 ≤ ntohl bs < 2 ^ 32.
Proof. intros Hbs. unfold ntohl. pose proof (le_combine_bound (rev bs)) as Hb. by rewrite length_rev, Hbs in Hb. Qed.

Lemma parse_frame_frame type data rest :
  length (string_bytes data) + 1 < 2 ^ 32 → parse_frame (frame type data ++ rest) = Some (type, data, rest).
Proof.
  intros Hlen. unfold parse_frame, frame. cbv zeta. set (n := length (string_bytes data) + 1) in *.
  pose proof (length_htonl n) as H4. rewrite bool_decide_false by (rewrite !length_app, H4; lia).
  rewrite <-!app_assoc. rewrite take_app_length' by done. rewrite drop_app_length' by done. cbn [app].
  rewrite ntohl_htonl by lia. rewrite bool_decide_true by (unfold n; lia). rewrite bool_decide_true by (rewrite length_app; unfold n; lia). cbn [andb].
  replace (Z.to_nat (n - 1)) with (length (string_bytes data)) by (unfold n; lia).
  rewrite take_app_length, drop_app_length. unfold string_bytes. by rewrite String.string_of_list_byte_of_string.
Qed.

Section framing_spec.
Context {S : Type} `{SocketSpec S}.

(** A read of [len] bytes takes them all or finds the end of the stream. *)
Definition read_post (len : Z) (buf : list byte) (s : S) (o : option (list byte)) (s' : S) : Prop :=
  sent s' = sent s ∧ healthy s' ∧
  if bool_decide (len ≤ length (incoming s))
  then o = Some (buf ++ take (Z.to_nat len) (incoming s)) ∧ incoming s' = drop (Z.to_nat len) (incoming s)
  else o = None ∧ incoming s' = [].

Lemma read_loop_wp : ∀ rounds len buf s,
  healthy s → 0 ≤ len < 2 ^ 64 → (Z.to_nat len < rounds)%nat → wp (read_loop rounds len buf) s (read_post len buf s).
Proof.
  induction rounds as [|rounds IH]; intros len buf s Hs Hlen Hr; [lia|]. cbn [read_loop]. unfold read_post. case_bool_decide as Hpos.
  - wp_step. destruct (decide (incoming s = [])) as [Hend|Hmore].
    + eapply wp_mono; [by apply sys_read_end|]. intros r s' (Hn & Hi & Hw & Hh). rewrite bool_decide_true by done. wp_step.
      split_and!; [done|done|]. rewrite Hend, bool_decide_false by (cbn; lia). done.
    + eapply wp_mono; [by apply sys_read_some|]. intros [n bs] s' (Hn & Hbs & Hi & Hw & Hh). cbn [fst snd] in *.
      rewrite bool_decide_false by lia. rewrite wrapu_small by lia. eapply wp_mono; [apply IH; [done|lia|lia]|].
      intros o s'' (Hw' & Hh' & Ho). split_and!; [by rewrite Hw', Hw|done|]. rewrite Hi, length_app.
      destruct (decide (len ≤ length bs + length (incoming s'))) as [Hle|Hgt].
      * rewrite bool_decide_true by lia. rewrite bool_decide_true in Ho by lia. destruct Ho as [-> ->].
        replace (Z.to_nat len) with (length bs + Z.to_nat (len - n))%nat by lia. by rewrite take_app_add, drop_app_add, app_assoc.
      * rewrite bool_decide_false by lia. by rewrite bool_decide_false in Ho by lia.
  - wp_step. assert (len = 0) as -> by lia. split_and!; [done|done|]. rewrite bool_decide_true by lia. by rewrite app_nil_r.
Qed.

Lemma ReadExact_wp len s : healthy s → 0 ≤ len < 2 ^ 64 → wp (ReadExact len) s (read_post len [] s).
Proof. intros Hs Hlen. apply read_loop_wp; [done|done|lia]. Qed.

Lemma write_loop_wp : ∀ rounds p s, healthy s → (length p < rounds)%nat →
  wp (write_loop rounds p) s (fun ok s' => ok = true ∧ sent s' = sent s ++ p ∧ incoming s' = incoming s ∧ healthy s').
Proof.
  induction rounds as [|rounds IH]; intros p s Hs Hr; [lia|]. cbn [write_loop]. case_bool_decide as Hpos.
  - wp_step. eapply wp_mono; [apply sys_write_some; [done|by intros ->]|]. intros n s' (Hn & Hw & Hi & Hh).
    rewrite bool_decide_false by lia. eapply wp_mono; [apply IH; [done|rewrite length_drop; lia]|].
    intros ok s'' (-> & Hw' & Hi' & Hh'). split_and!; [done| |by rewrite Hi'|done]. by rewrite Hw', Hw, <-app_assoc, take_drop.
  - wp_step. destruct p; [|cbn in Hpos; lia]. by rewrite app_nil_r.
Qed.

Lemma WriteExact_wp p s : healthy s →
  wp (WriteExact p) s (fun ok s' => ok = true ∧ sent s' = sent s ++ p ∧ incoming s' = incoming s ∧ healthy s').
Proof. intros Hs. apply write_loop_wp; [done|lia]. Qed.

Lemma SendMessage_wp type data s : healthy s → length (string_bytes data) + 1 < 2 ^ 32 →
  wp (SendMessage type data) s (fun ok s' => ok = true ∧ sent s' = sent s ++ frame type data ∧ incoming s' = incoming s ∧ healthy s').
Proof.
  intros Hs Hlen. unfold SendMessage, frame. rewrite wrapu_small by lia.
  wp_step. eapply wp_mono; [by apply WriteExact_wp|]. intros ok s1 (-> & Hw1 & Hi1 & Hh1). cbn [negb].
  wp_step. eapply wp_mono; [by apply WriteExact_wp|]. intros ok s2 (-> & Hw2 & Hi2 & Hh2). cbn [negb].
  case_bool_decide as Hdata.
  - eapply wp_mono; [by apply WriteExact_wp|]. intros ok s3 (-> & Hw3 & Hi3 & Hh3). split_and!; [done| |congruence|done].
    by rewrite Hw3, Hw2, Hw1, <-!app_assoc.
  - wp_step. split_and!; [done| |congruence|done]. by rewrite Hw2, Hw1, Hdata, <-!app_assoc.
Qed.

(** A message is received exactly when the stream begins with one. *)
Lemma RecvMessage_wp s : healthy s →
  wp RecvMessage s (fun o s' => sent s' = sent s ∧ healthy s' ∧
    match parse_frame (incoming s) with
    | Some (type, data, rest) => o = Some (type, data) ∧ incoming s' = rest
    | None => o = None
    end).
Proof.
  intros Hs. unfold RecvMessage, parse_frame. wp_step. eapply wp_mono; [apply ReadExact_wp; [done|lia]|].
  intros o s1 (Hw1 & Hh1 & Ho1). destruct (decide (length (incoming s) < 4)) as [Hshort|Hlong].
  { rewrite bool_decide_false in Ho1 by lia. destruct Ho1 as [-> _]. rewrite bool_decide_true by done. by wp_step. }
  rewrite bool_decide_true in Ho1 by lia. destruct Ho1 as [-> Hi1]. rewrite (bool_decide_false (_ < 4)) by done. cbn [app].
  change (Z.to_nat 4) with 4%nat in *. cbv zeta. pose proof (ntohl_range (take 4 (incoming s))) as Hrange.
  rewrite length_take in Hrange. specialize (Hrange ltac:(lia)). set (len := ntohl (take 4 (incoming s))) in *.
  case_bool_decide as Hzero.
  { wp_step. split_and!; [done|done|]. rewrite Hzero. by destruct (drop 4 (incoming s)). }
  wp_step. eapply wp_mono; [apply ReadExact_wp; [done|lia]|]. intros o s2 (Hw2 & Hh2 & Ho2). rewrite Hi1 in Ho2.
  destruct (drop 4 (incoming s)) as [|type rest].
  { rewrite bool_decide_false in Ho2 by (cbn; lia). destruct Ho2 as [-> _]. wp_step. split_and!; [congruence|done|done]. }
  rewrite bool_decide_true in Ho2 by (cbn; lia). change (Z.to_nat 1) with 1%nat in Ho2. cbn [app take drop] in Ho2. rewrite ?take_0, ?drop_0 in Ho2. destruct Ho2 as [-> Hi2].
  rewrite (bool_decide_true (0 < len)) by lia. cbn [andb]. rewrite wrapu_small by lia.
  destruct (decide (len = 1)) as [->|Hne].
  { cbn [bool_decide]. rewrite bool_decide_false by lia. wp_step. rewrite bool_decide_true by lia.
    split_and!; [congruence|done|done|done]. }
  rewrite (bool_decide_true (0 < len - 1)) by lia. wp_step. eapply wp_mono; [apply ReadExact_wp; [done|lia]|].
  intros o s3 (Hw3 & Hh3 & Ho3). wp_step. split_and!; [congruence|done|]. rewrite Hi2 in Ho3. case_bool_decide.
  - destruct Ho3 as [-> Hi3]. done.
  - by destruct Ho3 as [-> _].
Qed.

Fixpoint send_all (msgs : list (MessageType * string)) : M S bool :=
  match msgs with
  | [] => mret true
  | (type, data) :: msgs' => ok ← SendMessage type data; if ok : bool then send_all msgs' else mret false
  end.

(** The loop of [HandleClient]: messages are received until a call fails. *)
Fixpoint receive_all (rounds : nat) : M S (list (MessageType * string)) :=
  match rounds with
  | O => lift OutOfFuel
  | Datatypes.S rounds' =>
    msg ← RecvMessage;
    match msg with
    | None => mret []
    | Some msg => msgs ← receive_all rounds'; mret (msg :: msgs)
    end
  end.

Definition sendable (msg : MessageType * string) : Prop := length (string_bytes msg.2) + 1 < 2 ^ 32.
Definition frames (msgs : list (MessageType * string)) : list byte := List.concat (map (fun m => frame m.1 m.2) msgs).

Lemma send_all_wp msgs : ∀ s, healthy s → Forall sendable msgs →
  wp (send_all msgs) s (fun ok s' => ok = true ∧ sent s' = sent s ++ frames msgs ∧ incoming s' = incoming s ∧ healthy s').
Proof.
  induction msgs as [|[type data] msgs IH]; intros s Hs Hall; cbn [send_all].
  { wp_step. by rewrite app_nil_r. }
  apply Forall_cons in Hall as [Hmsg Hall]. wp_step. eapply wp_mono; [by apply SendMessage_wp|].
  intros ok s1 (-> & Hw1 & Hi1 & Hh1). eapply wp_mono; [by apply IH|]. intros ok s2 (-> & Hw2 & Hi2 & Hh2).
  split_and!; [done| |congruence|done]. by rewrite Hw2, Hw1, <-app_assoc.
Qed.

(** A stream that ends within a message does not begin with one. *)
Lemma parse_frame_cut type data n :
  length (string_bytes data) + 1 < 2 ^ 32 → (n < length (frame type data))%nat → parse_frame (take n (frame type data)) = None.
Proof.
  intros Hlen Hn. unfold parse_frame. cbv zeta. assert (length (htonl (length (string_bytes data) + 1)) = 4%nat) as H4 by apply length_htonl.
  assert (length (frame type data) = 5 + length (string_bytes data))%nat as Hf by (unfold frame; rewrite !length_app, H4; done).
  case_bool_decide as Hshort; [done|]. rewrite length_take in Hshort. rewrite take_take, skipn_firstn_comm.
  replace (4 `min` n)%nat with 4%nat by lia. unfold frame at 1. rewrite (drop_app_length' (htonl _)) by done.
  assert (take 4 (frame type data) = htonl (length (string_bytes data) + 1)) as -> by (unfold frame; by rewrite take_app_length').
  destruct (take (n - 4) ([type] ++ string_bytes data)) as [|t rest] eqn:Hr; [done|].
  rewrite ntohl_htonl by lia. rewrite (bool_decide_false (_ ≤ length rest)); [by rewrite andb_false_r|].
  apply (f_equal length) in Hr. rewrite length_take in Hr. cbn in Hr. lia.
Qed.

Lemma receive_all_wp msgs : ∀ cut r, healthy r → Forall sendable msgs → incoming r = take cut (frames msgs) →
  wp (receive_all (Datatypes.S (length msgs))) r (fun ms _ => ms `prefix_of` msgs ∧ ((length (frames msgs) ≤ cut)%nat → ms = msgs)).
Proof.
  induction msgs as [|[type data] msgs IH]; intros cut r Hr Hall Hi.
  { cbn [length receive_all]. wp_step. eapply wp_mono; [by apply RecvMessage_wp|]. intros o s' (_ & _ & Ho). rewrite Hi in Ho. change (frames []) with ([] : list byte) in Ho. rewrite take_nil in Ho.
    assert (parse_frame [] = None) as E by done. rewrite E in Ho. subst o. by wp_step. }
  apply Forall_cons in Hall as [Hmsg Hall]. cbn [length]. cbn [receive_all]. wp_step. eapply wp_mono; [by apply RecvMessage_wp|].
  intros o s' (_ & Hh & Ho). rewrite Hi in Ho. unfold frames in Ho. cbn [map List.concat fst snd] in Ho. fold (frames msgs) in Ho.
  destruct (decide (length (frame type data) ≤ cut)%nat) as [Hle|Hgt].
  - rewrite take_app, take_ge, parse_frame_frame in Ho by done. destruct Ho as [-> Hi']. wp_step.
    eapply wp_mono; [by eapply IH|]. intros ms s'' [Hp Hfull]. wp_step. split; [by apply prefix_cons|].
    intros Hcut. f_equal. apply Hfull. unfold frames in Hcut. cbn [map List.concat fst snd] in Hcut. rewrite length_app in Hcut. unfold frames. lia.
  - rewrite take_app_le, parse_frame_cut in Ho by (done || lia). subst o. wp_step. split; [apply prefix_nil|].
    intros Hcut. unfold frames in Hcut. cbn [map List.concat fst snd] in Hcut. rewrite length_app in Hcut. lia.
Qed.

(** C20: messages arrive.  Whatever messages are sent over a connection, the peer
    receives them, each with its type and its text, in order, and then sees the end of
    the stream; however the kernel cuts the stream into reads and writes.  When the
    connection breaks in between, what was received is a prefix of what was sent, of
    whole messages. *)
Theorem messages_delivered msgs s cut :
  healthy s → Forall sendable msgs →
  wp (send_all msgs) s (fun ok s' => ok = true ∧ ∃ wire, sent s' = sent s ++ wire ∧
    ∀ r, healthy r → incoming r = take cut wire →
      wp (receive_all (Datatypes.S (length msgs))) r (fun ms _ => ms `prefix_of` msgs ∧ ((length wire ≤ cut)%nat → ms = msgs))).
Proof.
  intros Hs Hall. eapply wp_mono; [by apply send_all_wp|]. intros ok s' (-> & Hw & _). split; [done|]. exists (frames msgs).
  split; [done|]. intros r Hr Hi. by apply (receive_all_wp msgs cut).
Qed.
End framing_spec.

(** ** A connection that moves at most three bytes at a time *)
Record pipe := mkPipe { pipe_in : list byte; pipe_out : list byte }.
#[local] Instance pipe_socket : Socket pipe := {
  sys_read len s :=
    let bs := take (Z.to_nat len `min` 3) (pipe_in s) in
    (Ret (Z.of_nat (length bs), bs), mkPipe (drop (Z.to_nat len `min` 3) (pipe_in s)) (pipe_out s));
  sys_write p s := (Ret (Z.of_nat (length p `min` 3)), mkPipe (pipe_in s) (pipe_out s ++ take 3 p));
}.

#[local] Instance pipe_socket_spec : SocketSpec pipe.
Proof.
  refine {| healthy _ := True; incoming := pipe_in; sent := pipe_out |}.
  - intros [i o] len _ Hlen Hi. cbn in *. unfold wp. cbn. rewrite length_take. split_and!; [| |done|by rewrite take_drop|done|done].
    + destruct i; [done|]. cbn [length]. lia.
    + lia.
  - intros [i o] len _ Hlen Hi. cbn in Hi. subst i. unfold wp. cbn. by rewrite take_nil, drop_nil.
  - intros [i o] p _ Hp. unfold wp. cbn. split_and!; [|lia| |done|done].
    + destruct p; [done|]. cbn [length]. lia.
    + f_equal. rewrite Nat2Z.id. destruct (le_lt_dec 3 (length p)); [by rewrite Nat.min_r by lia|]. by rewrite Nat.min_l, !take_ge by lia.
Defined.

Example messages_delivered_witness :
  ∃ wire, (send_all [(QUERY, "select 1"); (TERMINATE, "")] (mkPipe [] [])).2 = mkPipe [] wire ∧
    (receive_all 3 (mkPipe wire [])).1 = Ret [(QUERY, "select 1"); (TERMINATE, "")] ∧
    (receive_all 3 (mkPipe (take 15 wire) [])).1 = Ret [(QUERY, "select 1")].
Proof.
  pose proof (messages_delivered [(QUERY, "select 1"); (TERMINATE, "")] (mkPipe [] []) 18 I) as Hsent.
  destruct (wp_elim _ _ _ (Hsent ltac:(by repeat constructor))) as (ok & s' & Hrun & _ & wire & Hwire & Hrecv).
  exists wire. cbn [sent pipe_out pipe_socket_spec app] in Hwire. assert (wire = pipe_out (send_all [(QUERY, "select 1"); (TERMINATE, "")] (mkPipe [] [])).2) as Hw.
  { rewrite Hrun. cbn [snd]. by rewrite Hwire. }
  split; [rewrite Hw; vm_compute; reflexivity|]. split; [|rewrite Hw; vm_compute; reflexivity].
  assert (length wire = 18%nat) as Hlen by (rewrite Hw; vm_compute; reflexivity).
  destruct (wp_elim _ _ _ (Hrecv (mkPipe wire []) I ltac:(symmetry; apply firstn_all2; rewrite <-Hlen; reflexivity))) as (ms & r' & E & _ & Hms).
  cbn [length] in E. rewrite E. cbn [fst]. rewrite Hms; [done|]. rewrite <-Hlen. reflexivity.
Defined.
