(* ===== verification/ResultText.v ===== *)
(** * Result sets as text

    Models the rest of [src/include/onebase/server/protocol.h]; the text that
    [HandleQuery] of [src/onebase_server/server_main.cpp] makes from a result, the
    table that [PrintResult] of [src/onebase_client/client_main.cpp] makes from that
    text, and the table that [PrintResultTable] of [src/tools/onebase_shell.cpp]
    makes from the result itself.  What is printed is a string. *)
From stdpp Require Import pretty.
From Stdlib Require Import Ascii.
From S2P Require Import Prelude Value Tuple.

#[local] Open Scope Z_scope.
#[local] Coercion Z.of_nat : nat >-> Z.

Definition newline : ascii := "010"%char.
Definition endl : string := String newline "".

(** [for (i ...) { if (i > 0) header += '|'; header += col_names[i]; }] *)
Fixpoint format_loop (first : bool) (fields : list string) (line : string) : string :=
  match fields with
  | [] => line
  | field :: fields' => format_loop false fields' (line +:+ (if first then "" else "|") +:+ field)
  end.
Definition FormatResultHeader (col_names : list string) : string := format_loop true col_names "".
Definition FormatResultRow (values : list string) : string := format_loop true values "".

Definition push_char (c : ascii) (s : string) : string := s +:+ String c "".

Fixpoint parse_loop (line : string) (parts : list string) (current : string) : list string :=
  match line with
  | "" => parts ++ [current]
  | String c line' =>
    if Ascii.eqb c "|"%char then parse_loop line' (parts ++ [current]) "" else parse_loop line' parts (push_char c current)
  end.
Definition ParsePipeSeparated (line : string) : list string := parse_loop line [] "".

(** ** The server *)
Section server.
Context `{FloatFormat}.

Fixpoint header_from (n i : nat) (schema : Schema) : outcome (list string) :=
  match n with
  | O => mret []
  | S n' => column ← GetColumn schema i; names ← header_from n' (S i) schema; mret (name_ column :: names)
  end.
Definition column_names (schema : Schema) : outcome (list string) := header_from (Z.to_nat (GetColumnCount schema)) 0 schema.

Definition row_strings (schema : Schema) (tuple : Tuple) : list string :=
  map (fun i => ToString (GetValue tuple i)) (seq 0 (Z.to_nat (GetColumnCount schema))).

Fixpoint body_rows (rows : list (list string)) (body : string) : string :=
  match rows with
  | [] => body
  | vals :: rows' => body_rows rows' (body +:+ (FormatResultRow vals +:+ endl))
  end.

Definition row_count (n : nat) : string :=
  "(" +:+ pretty n +:+ " row" +:+ (if bool_decide (n ≠ 1%nat) then "s" else "") +:+ ")".

Definition result_body (schema : Schema) (result_set : list Tuple) : outcome string :=
  col_names ← column_names schema;
  mret (body_rows (map (row_strings schema) result_set) (FormatResultHeader col_names +:+ endl) +:+ row_count (length result_set)).

(** ** Tables *)

(** [std::max] with the widths of a row; columns that are missing are skipped. *)
Fixpoint widen (widths : list nat) (row : list string) : list nat :=
  match widths, row with
  | w :: widths', s :: row' => (w `max` String.length s)%nat :: widen widths' row'
  | _, _ => widths
  end.
Definition column_widths (headers : list string) (rows : list (list string)) : list nat :=
  fold_left widen rows (map String.length headers).

Fixpoint string_of_char (n : nat) (c : ascii) : string :=
  match n with O => "" | S n' => String c (string_of_char n' c) end.

Fixpoint separator_loop (widths : list nat) (separator : string) : string :=
  match widths with
  | [] => separator
  | w :: widths' => separator_loop widths' (separator +:+ (string_of_char (w + 2) "-"%char +:+ "+"))
  end.

(** [" " << std::left << std::setw(w) << s << " |"] *)
Definition cell (w : nat) (s : string) : string := " " +:+ s +:+ string_of_char (w - String.length s) " "%char +:+ " |".

(** The cells of a row; one that is missing is empty. *)
Fixpoint cells (widths : list nat) (row : list string) : string :=
  match widths with
  | [] => ""
  | w :: widths' => cell w (default "" (head row)) +:+ cells widths' (tail row)
  end.

Definition table_text (headers : list string) (rows : list (list string)) : string :=
  let widths := column_widths headers rows in
  let separator := separator_loop widths "+" in
  separator +:+ endl +:+ "|" +:+ cells widths headers +:+ endl +:+ separator +:+ endl +:+
  String.concat "" (map (fun row => "|" +:+ cells widths row +:+ endl) rows) +:+
  separator +:+ endl.

(** ** The shell *)
Definition PrintResultTable (schema : Schema) (rows : list Tuple) : outcome string :=
  headers ← column_names schema;
  mret (table_text headers (map (row_strings schema) rows) +:+ row_count (length rows) +:+ endl).
End server.

(** ** The client *)

(** [while (std::getline(iss, line))]: text behind the last newline is a line if
    there is any. *)
Fixpoint getline_loop (body line : string) : list string :=
  match body with
  | "" => if String.eqb line "" then [] else [line]
  | String c body' => if Ascii.eqb c newline then line :: getline_loop body' "" else getline_loop body' (push_char c line)
  end.
Definition getlines (body : string) : list string := getline_loop body "".

(** [lines[i].empty() || lines[i][0] == '('] *)
Definition starts_summary (line : string) : bool :=
  match line with String c _ => Ascii.eqb c "("%char | "" => false end.
Definition ends_rows (line : string) : bool := String.eqb line "" || starts_summary line.

Fixpoint data_rows (lines : list string) : list (list string) :=
  match lines with
  | [] => []
  | line :: lines' => if ends_rows line then [] else ParsePipeSeparated line :: data_rows lines'
  end.

Definition summary_line (lines : list string) : string :=
  match List.find starts_summary (rev lines) with Some line => line +:+ endl | None => "" end.

Definition PrintResult (body : string) : string :=
  match getlines body with
  | [] => ""
  | line :: lines => table_text (ParsePipeSeparated line) (data_rows lines) +:+ summary_line (line :: lines)
  end.

(** ** Fields and lines *)
Fixpoint count_char (c : ascii) (s : string) : nat :=
  match s with
  | "" => 0
  | String d s' => (if Ascii.eqb d c then 1 else 0) + count_char c s'
  end.
(** The character does not occur. *)
Definition free_of (c : ascii) (s : string) : Prop := count_char c s = 0%nat.

Lemma string_app_assoc (s t u : string) : (s +:+ t) +:+ u = s +:+ (t +:+ u).
Proof. induction s as [|c s IH]; [done|]. exact (f_equal (String c) IH). Qed.

Lemma string_app_cons c (s t : string) : String c s +:+ t = String c (s +:+ t).
Proof. done. Qed.

Lemma string_app_nil_r (s : string) : s +:+ "" = s.
Proof. induction s as [|c s IH]; [done|]. exact (f_equal (String c) IH). Qed.

Lemma push_char_app c s t : push_char c s +:+ t = s +:+ String c t.
Proof. unfold push_char. by rewrite string_app_assoc. Qed.

Lemma count_char_app c s t : count_char c (s +:+ t) = (count_char c s + count_char c t)%nat.
Proof. induction s as [|d s IH]; [done|]. rewrite string_app_cons. cbn [count_char]. rewrite IH. lia. Qed.

Lemma free_of_app c s t : free_of c (s +:+ t) ↔ free_of c s ∧ free_of c t.
Proof. unfold free_of. rewrite count_char_app. lia. Qed.

(** The fields behind the first, each with its separator. *)
Definition more_fields (fields : list string) : string := foldr (fun field rest => "|" +:+ field +:+ rest) "" fields.

Lemma more_fields_cons field fields : more_fields (field :: fields) = String "|" (field +:+ more_fields fields).
Proof. done. Qed.

Lemma format_loop_more fields : ∀ line, format_loop false fields line = line +:+ more_fields fields.
Proof.
  induction fields as [|field fields IH]; intros line; cbn [format_loop more_fields foldr]; [by rewrite string_app_nil_r|].
  rewrite IH. rewrite string_app_assoc. by f_equal.
Qed.

Lemma FormatResultRow_cons field fields : FormatResultRow (field :: fields) = field +:+ more_fields fields.
Proof. unfold FormatResultRow. cbn [format_loop]. by rewrite format_loop_more. Qed.

Lemma parse_loop_field s : ∀ rest parts current, free_of "|" s → parse_loop (s +:+ rest) parts current = parse_loop rest parts (current +:+ s).
Proof.
  unfold free_of. induction s as [|c s IH]; intros rest parts current Hs; [by rewrite string_app_nil_r|].
  rewrite string_app_cons. cbn [parse_loop count_char] in Hs |- *. destruct (Ascii.eqb c "|"); [done|]. rewrite IH by done. by rewrite push_char_app.
Qed.

Lemma parse_more_fields fields : ∀ parts current, Forall (free_of "|") fields → parse_loop (more_fields fields) parts current = parts ++ current :: fields.
Proof.
  induction fields as [|field fields IH]; intros parts current Hf; [done|]. apply Forall_cons in Hf as [Hfield Hf].
  rewrite more_fields_cons. cbn [parse_loop]. rewrite Ascii.eqb_refl. rewrite (parse_loop_field field) by done. rewrite IH by done. by rewrite <-app_assoc.
Qed.

Lemma parse_format fields : fields ≠ [] → Forall (free_of "|") fields → ParsePipeSeparated (FormatResultRow fields) = fields.
Proof.
  destruct fields as [|field fields]; intros Hne Hf; [done|]. apply Forall_cons in Hf as [Hfield Hf].
  rewrite FormatResultRow_cons. unfold ParsePipeSeparated. rewrite parse_loop_field by done. by rewrite parse_more_fields.
Qed.

Lemma length_parse_loop line : ∀ parts current, length (parse_loop line parts current) = (length parts + 1 + count_char "|" line)%nat.
Proof.
  induction line as [|c line IH]; intros parts current; cbn [parse_loop count_char]; [rewrite length_app; cbn; lia|].
  destruct (Ascii.eqb c "|"); rewrite IH, ?length_app; cbn [length]; lia.
Qed.

Lemma count_more_fields fields : count_char "|" (more_fields fields) = (length fields + sum_list_with (count_char "|") fields)%nat.
Proof.
  induction fields as [|field fields IH]; [done|]. cbn [more_fields foldr sum_list_with]. rewrite !count_char_app. fold (more_fields fields).
  rewrite IH. cbn. lia.
Qed.

Lemma free_of_sum c fields : sum_list_with (count_char c) fields = 0%nat → Forall (free_of c) fields.
Proof. induction fields as [|field fields IH]; cbn; intros Hs; [constructor|]. constructor; [unfold free_of; lia|apply IH; lia]. Qed.

(** What was pushed so far is the text of the fields. *)
Lemma format_snoc fields field :
  FormatResultRow (fields ++ [field]) = FormatResultRow fields +:+ (if bool_decide (fields = []) then "" else "|") +:+ field.
Proof.
  destruct fields as [|f fields]; [by rewrite bool_decide_true|]. rewrite bool_decide_false by done. cbn [app]. rewrite !FormatResultRow_cons, string_app_assoc. f_equal.
  induction fields as [|g fields IH]; [cbn [more_fields foldr app]; by rewrite string_app_nil_r|]. cbn [more_fields foldr app]. fold (more_fields (fields ++ [field])). fold (more_fields fields).
  rewrite IH. by rewrite !string_app_assoc.
Qed.

Lemma format_parse_loop line : ∀ parts current,
  FormatResultRow (parse_loop line parts current) = FormatResultRow (parts ++ [current]) +:+ line.
Proof.
  induction line as [|c line IH]; intros parts current; cbn [parse_loop]; [by rewrite string_app_nil_r|].
  destruct (Ascii.eqb_spec c "|") as [->|_]; rewrite IH.
  - rewrite (format_snoc (parts ++ [current])). rewrite bool_decide_false by by destruct parts. by rewrite !string_app_assoc.
  - rewrite !format_snoc. by rewrite !string_app_assoc, push_char_app.
Qed.

(** The fields of a line.  Fields that are joined and parsed again come back
    exactly when there is at least one and none contains the separator; and a line
    that is parsed and joined again is always the same line. *)
Theorem fields_roundtrip fields line :
  (ParsePipeSeparated (FormatResultRow fields) = fields ↔ fields ≠ [] ∧ Forall (free_of "|") fields) ∧
  FormatResultRow (ParsePipeSeparated line) = line.
Proof.
  split; [split|].
  - intros Heq. destruct fields as [|field fields]; [done|]. split; [done|]. apply (f_equal length) in Heq.
    unfold ParsePipeSeparated in Heq. rewrite length_parse_loop, FormatResultRow_cons, count_char_app, count_more_fields in Heq.
    apply free_of_sum. cbn in Heq |- *. lia.
  - intros [Hne Hf]. by apply parse_format.
  - unfold ParsePipeSeparated. rewrite format_parse_loop. done.
Qed.

(** ** What the client shows *)

(** The rows before the first whose line looks like the end. *)
Fixpoint shown (rows : list (list string)) : list (list string) :=
  match rows with
  | [] => []
  | row :: rows' => if ends_rows (FormatResultRow row) then [] else row :: shown rows'
  end.

(** Text that is one field of one line. *)
Definition plain (s : string) : Prop := free_of "|" s ∧ free_of newline s.

Lemma getline_loop_line s : ∀ rest line, free_of newline s → getline_loop (s +:+ endl +:+ rest) line = (line +:+ s) :: getline_loop rest "".
Proof.
  unfold free_of. induction s as [|c s IH]; intros rest line Hs; [by rewrite string_app_nil_r|].
  rewrite string_app_cons. cbn [getline_loop count_char] in Hs |- *. destruct (Ascii.eqb c newline); [done|].
  rewrite IH by done. by rewrite push_char_app.
Qed.

Lemma getline_loop_last s : ∀ line, free_of newline s → line +:+ s ≠ "" → getline_loop s line = [line +:+ s].
Proof.
  unfold free_of. induction s as [|c s IH]; intros line Hs Hne; cbn [getline_loop count_char] in Hs |- *.
  - rewrite string_app_nil_r in *. destruct (String.eqb_spec line ""); [done|done].
  - destruct (Ascii.eqb c newline); [done|]. rewrite IH; rewrite ?push_char_app; done.
Qed.

Lemma free_of_format c fields : c ≠ "|"%char → Forall (free_of c) fields → free_of c (FormatResultRow fields).
Proof.
  intros Hc. destruct fields as [|field fields]; [done|]. intros [Hfield Hf]%Forall_cons. rewrite FormatResultRow_cons. apply free_of_app.
  split; [done|]. induction Hf as [|g fields Hg _ IH]; [done|]. rewrite more_fields_cons. unfold free_of. cbn [count_char].
  destruct (Ascii.eqb_spec "|" c) as [<-|_]; [done|]. cbn [Nat.add]. by apply free_of_app.
Qed.

Lemma body_rows_app rows : ∀ body, body_rows rows body = body +:+ body_rows rows "".
Proof.
  induction rows as [|row rows IH]; intros body; cbn [body_rows]; [by rewrite string_app_nil_r|]. rewrite IH, (IH (_ +:+ (_ +:+ endl))).
  by rewrite !string_app_assoc.
Qed.

(** A number has no characters but digits. *)
Lemma pretty_digits c (n : nat) : (∀ d, pretty_N_char d ≠ c) → free_of c (pretty n).
Proof.
  intros Hc. unfold pretty, pretty_nat, pretty, pretty_N. case_decide.
  { unfold free_of. cbn [count_char]. pose proof (Hc 0%N) as H0. cbn [pretty_N_char] in H0. by rewrite (proj2 (Ascii.eqb_neq _ _) H0). }
  assert (∀ x s, free_of c s → free_of c (pretty_N_go x s)) as Hgo; [|by apply Hgo].
  intros x. induction (N.lt_wf_0 x) as [x _ IH]; intros s Hs. destruct (decide (0 < x)%N) as [Hx|]; [|by replace x with 0%N by lia].
  rewrite pretty_N_go_step by done. apply IH; [by apply N.div_lt|]. unfold free_of in *. cbn [count_char]. by rewrite (proj2 (Ascii.eqb_neq _ _) (Hc _)).
Qed.

Lemma row_count_line n : free_of newline (row_count n).
Proof.
  unfold row_count. rewrite !free_of_app. split_and!; [done| |done|by case_bool_decide|done].
  apply pretty_digits. intros d. unfold pretty_N_char. by repeat case_match.
Qed.

(** The lines of the text of a result. *)
Lemma result_lines headers rows n :
  Forall plain headers → Forall (Forall plain) rows →
  getlines (body_rows rows (FormatResultHeader headers +:+ endl) +:+ row_count n) = FormatResultRow headers :: map FormatResultRow rows ++ [row_count n].
Proof.
  intros Hh Hr. assert (∀ fields, Forall plain fields → free_of newline (FormatResultRow fields)) as Hline.
  { intros fields Hf. apply free_of_format; [done|]. eapply Forall_impl; [exact Hf|]. by intros s [_ ?]. }
  rewrite body_rows_app, !string_app_assoc. unfold getlines. change (FormatResultHeader headers) with (FormatResultRow headers).
  rewrite getline_loop_line by auto. f_equal. induction Hr as [|row rows Hrow _ IH].
  - cbn [body_rows map app]. apply (getline_loop_last (row_count n) ""); [apply row_count_line|done].
  - cbn [body_rows]. rewrite body_rows_app, !string_app_assoc. change ("" +:+ ?s) with s. cbn [map app].
    rewrite (getline_loop_line (FormatResultRow row)) by auto. by rewrite IH.
Qed.

Lemma data_rows_shown rows n :
  Forall (Forall plain) rows → Forall (.≠ []) rows → data_rows (map FormatResultRow rows ++ [row_count n]) = shown rows.
Proof.
  induction rows as [|row rows IH]; [done|]. intros [Hp Hps]%Forall_cons [Hn Hns]%Forall_cons.
  cbn [map app data_rows shown]. destruct (ends_rows _); [done|]. rewrite IH by done. f_equal. apply parse_format; [done|].
  eapply Forall_impl; [exact Hp|]. by intros s [? _].
Qed.

Lemma summary_line_last line lines n : summary_line (line :: lines ++ [row_count n]) = row_count n +:+ endl.
Proof. unfold summary_line. rewrite app_comm_cons, rev_app_distr. done. Qed.

Lemma shown_all rows : Forall (fun row => ends_rows (FormatResultRow row) = false) rows → shown rows = rows.
Proof. induction 1 as [|row rows Hrow _ IH]; cbn; [done|]. by rewrite Hrow, IH. Qed.

(** C21: the client shows what the shell shows.  Over a result whose schema has a
    column and whose texts hold neither separators nor newlines, the server's text
    makes the client print a table of the rows before the first whose line is empty or
    begins with a parenthesis, and the count of all rows; when no line does, that is
    letter for letter what the shell prints. *)
Theorem client_prints_shell_table `{FloatFormat} schema result_set headers text :
  let rows := map (row_strings schema) result_set in
  column_names schema = Ret headers → PrintResultTable schema result_set = Ret text →
  0 < GetColumnCount schema → Forall plain headers → Forall (Forall plain) rows →
  ∃ body, result_body schema result_set = Ret body ∧
    PrintResult body = table_text headers (shown rows) +:+ row_count (length result_set) +:+ endl ∧
    (Forall (fun row => ends_rows (FormatResultRow row) = false) rows → PrintResult body = text).
Proof.
  intros rows Hnames Htext Hcols Hheaders Hrows. unfold PrintResultTable in Htext. rewrite Hnames in Htext. injection Htext as Htext.
  unfold result_body. rewrite Hnames. cbn [mbind outcome_bind mret outcome_ret]. eexists. split; [done|]. fold rows in Htext |- *.
  assert (headers ≠ []) as Hne.
  { unfold column_names in Hnames. destruct (Z.to_nat (GetColumnCount schema)) eqn:Hn; [lia|]. cbn in Hnames. by outcome_inv. }
  assert (PrintResult (body_rows rows (FormatResultHeader headers +:+ endl) +:+ row_count (length result_set)) =
    table_text headers (shown rows) +:+ row_count (length result_set) +:+ endl) as Hprint.
  { unfold PrintResult. rewrite result_lines by done. rewrite data_rows_shown, summary_line_last, parse_format; [done|done| |done|].
    - eapply Forall_impl; [exact Hheaders|]. by intros s [? _].
    - unfold rows. apply Forall_map, Forall_forall. intros t _. unfold row_strings. by destruct (Z.to_nat (GetColumnCount schema)) eqn:Hn; [lia|]. }
  split; [exact Hprint|]. intros Hall. rewrite Hprint, <-Htext. by rewrite shown_all.
Qed.

(** ** Two rows, one of which is a name in parentheses *)
#[local] Instance no_floats : FloatFormat := fun _ => "".
Definition name_schema : Schema := Schema_new [Column_new "name" VARCHAR 16; Column_new "n" INTEGER 0].
Definition name_row (name : string) (n : Z) : Tuple := mkTuple RID_default [] [Value_string VARCHAR name; Value_int INTEGER n].

Example client_prints_shell_table_witness :
  (∃ text, PrintResultTable name_schema [name_row "ann" 3; name_row "bo" 14] = Ret text ∧
    (body ← result_body name_schema [name_row "ann" 3; name_row "bo" 14]; mret (PrintResult body)) = Ret text) ∧
  (body ← result_body name_schema [name_row "ann" 3; name_row "(bo)" 14]; mret (PrintResult body)) =
    Ret (table_text ["name"; "n"] [["ann"; "3"]] +:+ "(2 rows)" +:+ endl).
Proof.
  assert (∀ name, plain name → Forall (Forall plain) (map (row_strings name_schema) [name_row "ann" 3; name_row name 14])) as Hplain.
  { intros name Hname. repeat (apply List.Forall_cons || apply List.Forall_nil || exact Hname || done). }
  split.
  - destruct (client_prints_shell_table name_schema [name_row "ann" 3; name_row "bo" 14] ["name"; "n"] _ eq_refl eq_refl) as (body & -> & _ & Hall);
      [done|by repeat constructor|by apply Hplain|]. eexists. split; [reflexivity|]. cbn [mbind outcome_bind mret outcome_ret]. f_equal.
    apply Hall. by repeat constructor.
  - destruct (client_prints_shell_table name_schema [name_row "ann" 3; name_row "(bo)" 14] ["name"; "n"] _ eq_refl eq_refl) as (body & -> & Hbody & _);
      [done|by repeat constructor|by apply Hplain|]. cbn [mbind outcome_bind mret outcome_ret]. by rewrite Hbody.
Defined.
