(* ===== verification/Binder.v ===== *)
(** * The binder

    Models [src/binder/binder.cpp]: from the parse tree of a statement to a plan.  The
    trees are those of the PostgreSQL parser in [third_party/libpg_query].  A node has
    the members that the binder reads, and those that it passes over but that change
    what the statement says: the kind of an operator and of a join, DISTINCT, HAVING,
    OFFSET, and in [more] every other member that the parser has set, by its name
    (say the [withClause], the [returningList], the [schemaname] or the [except_list]
    of a star).  A pointer to a node is a node, and [PGnull]
    when it is null; an empty list is the null list, as the parser's headers say.
    To look into a null pointer, behind the end of a list or into a node of another
    class than the code casts to is undefined behaviour.  The parser itself is a
    parameter, and so is [std::stof]. *)
From stdpp Require Import pretty.
From Stdlib Require Import Ascii.
From Stdlib Require Import Floats.SpecFloat.
From S2P Require Import Prelude Value Tuple Catalog Expression Plan Executor.

#[local] Open Scope Z_scope.
#[local] Coercion Z.of_nat : nat >-> Z.

(** ** Parse trees *)
Inductive PGValue := PGInteger (ival : Z) | PGFloat (str : string) | PGString (str : string) | PGBitString (str : string) | PGNull.
Inductive PGBoolExprType := PG_AND_EXPR | PG_OR_EXPR | PG_NOT_EXPR.
Inductive PGSortByDir := PG_SORTBY_DEFAULT | PG_SORTBY_ASC | PG_SORTBY_DESC | SORTBY_USING.
(** The kinds of [PG_AEXPR_OP_ANY] and so on: [x IS DISTINCT FROM y], [NULLIF], [IN],
    [LIKE], [BETWEEN] and their like come as operators with a kind of their own. *)
Inductive PGAExpr_Kind :=
  | PG_AEXPR_OP | PG_AEXPR_OP_ANY | PG_AEXPR_OP_ALL | PG_AEXPR_DISTINCT | PG_AEXPR_NOT_DISTINCT | PG_AEXPR_NULLIF | PG_AEXPR_OF | PG_AEXPR_IN
  | PG_AEXPR_LIKE | PG_AEXPR_ILIKE | PG_AEXPR_GLOB | PG_AEXPR_SIMILAR | PG_AEXPR_BETWEEN | PG_AEXPR_NOT_BETWEEN | PG_AEXPR_BETWEEN_SYM
  | PG_AEXPR_NOT_BETWEEN_SYM | AEXPR_PAREN.
Inductive PGJoinType :=
  | PG_JOIN_INNER | PG_JOIN_LEFT | PG_JOIN_FULL | PG_JOIN_RIGHT | PG_JOIN_SEMI | PG_JOIN_ANTI | PG_JOIN_UNIQUE_OUTER | PG_JOIN_UNIQUE_INNER | PG_JOIN_POSITION.
Inductive PGJoinRefType := PG_JOIN_REGULAR | PG_JOIN_NATURAL | PG_JOIN_ASOF.
Inductive PGObjectType := PG_OBJECT_INDEX | PG_OBJECT_OTHER.

#[export] Instance PGSortByDir_eq_dec : EqDecision PGSortByDir.
Proof. solve_decision. Defined.

(** A [char *] is [None] when it is null; so is a [PGAlias *]. *)
Inductive PGNode :=
  | PGnull
  | PGValueNode (value : PGValue)
  | PGList (cells : list PGNode)
  | PGAStar (more : list (string * PGNode))
  | PGColumnRef (fields : list PGNode)
  | PGAConst (val : PGValue)
  | PGAExpr (kind : PGAExpr_Kind) (name : list PGNode) (lexpr rexpr : PGNode)
  | PGBoolExpr (boolop : PGBoolExprType) (args : list PGNode)
  | PGFuncCall (funcname args : list PGNode) (agg_star : bool) (more : list (string * PGNode))
  | PGRangeVar (relname : option string) (alias : option (option string)) (more : list (string * PGNode))
  | PGJoinExpr (jointype : PGJoinType) (joinreftype : PGJoinRefType) (larg rarg : PGNode) (usingClause : list PGNode) (quals : PGNode)
      (more : list (string * PGNode))
  | PGResTarget (name : option string) (val : PGNode) (more : list (string * PGNode))
  | PGSortBy (node : PGNode) (sortby_dir : PGSortByDir) (more : list (string * PGNode))
  | PGIndexElem (name : option string) (expr : PGNode) (more : list (string * PGNode))
  | PGSelectStmt (targetList fromClause : list PGNode) (whereClause : PGNode) (groupClause valuesLists sortClause : list PGNode) (limitCount : PGNode)
      (distinctClause : list PGNode) (havingClause limitOffset : PGNode) (more : list (string * PGNode))
  | PGInsertStmt (relation selectStmt : PGNode) (more : list (string * PGNode))
  | PGDeleteStmt (relation whereClause : PGNode) (more : list (string * PGNode))
  | PGUpdateStmt (relation : PGNode) (targetList : list PGNode) (whereClause : PGNode) (more : list (string * PGNode))
  | PGIndexStmt (idxname : option string) (relation : PGNode) (indexParams : list PGNode) (more : list (string * PGNode))
  | PGDropStmt (objects : list PGNode) (removeType : PGObjectType) (missing_ok : bool) (more : list (string * PGNode))
  | PGVariableShowStmt (relation : PGNode) (set : option string) (more : list (string * PGNode))
  | PGRawStmt (stmt : PGNode)
  | PGOther (type : Z).

(** [node->type], with the numbers of [nodes/nodes.hpp]. *)
Definition value_tag (v : PGValue) : Z :=
  match v with PGInteger _ => 218 | PGFloat _ => 219 | PGString _ => 220 | PGBitString _ => 221 | PGNull => 222 end.
Definition node_tag (node : PGNode) : outcome Z :=
  match node with
  | PGnull => Undef
  | PGValueNode v => mret (value_tag v)
  | PGList _ => mret 223
  | PGAStar _ => mret 360
  | PGColumnRef _ => mret 356
  | PGAConst _ => mret 358
  | PGAExpr _ _ _ _ => mret 355
  | PGBoolExpr _ _ => mret 112
  | PGFuncCall _ _ _ _ => mret 359
  | PGRangeVar _ _ _ => mret 96
  | PGJoinExpr _ _ _ _ _ _ _ => mret 143
  | PGResTarget _ _ _ => mret 364
  | PGSortBy _ _ _ => mret 368
  | PGIndexElem _ _ _ => mret 377
  | PGSelectStmt _ _ _ _ _ _ _ _ _ _ _ => mret 234
  | PGInsertStmt _ _ _ => mret 230
  | PGDeleteStmt _ _ _ => mret 231
  | PGUpdateStmt _ _ _ _ => mret 232
  | PGIndexStmt _ _ _ _ => mret 254
  | PGDropStmt _ _ _ _ => mret 248
  | PGVariableShowStmt _ _ _ => mret 276
  | PGRawStmt _ => mret 227
  | PGOther type => mret type
  end.

(** [strVal(node)] reads the string of a value. *)
Definition strVal (node : PGNode) : outcome string :=
  match node with PGValueNode (PGFloat s | PGString s | PGBitString s) => mret s | _ => Undef end.

(** [lfirst(list_head(l))] and [lfirst(list_tail(l))] *)
Definition linitial (l : list PGNode) : outcome PGNode := deref (head l).
Definition llast (l : list PGNode) : outcome PGNode := deref (last l).

(** What [duckdb::PostgresParser] leaves behind: an error message, or a list of
    statements. *)
Class SqlParser := Parse : string → sum string (list PGNode).
Class FloatParser := stof : string → outcome spec_float.

(** ** Helpers *)
Record TableScope := mkScope { alias_ : string; info_ : TableInfo; tuple_idx_ : Z }.
Record AggCall := mkAggCall { agg_type : AggregationType; agg_arg : AbstractExpression }.

(** [std::tolower] in the C locale *)
Definition tolower (c : ascii) : ascii :=
  let n := N_of_ascii c in if (65 <=? n)%N && (n <=? 90)%N then ascii_of_N (n + 32) else c.
Fixpoint LowerCopy (text : string) : string :=
  match text with "" => "" | String c text' => String (tolower c) (LowerCopy text') end.

Fixpoint NodeToQualifiedName (node : PGNode) : string :=
  match node with
  | PGValueNode (PGString s) => s
  | PGList cells => JoinStrings (map NodeToQualifiedName cells) "."
  | PGRangeVar relname _ _ => default "" relname
  | _ => ""
  end.

(** The loop over the columns of a schema, from column [i]. *)
Fixpoint resolve_in (n i : nat) (schema : Schema) (col_name : string) : outcome (option (nat * TypeId)) :=
  match n with
  | O => mret None
  | S n' =>
    column ← GetColumn schema i;
    if String.eqb (name_ column) col_name then mret (Some (i, type_ column)) else resolve_in n' (S i) schema col_name
  end.

Fixpoint ResolveColumn (col_name table_qualifier : string) (scopes : list TableScope) : outcome (Z * nat * TypeId) :=
  match scopes with
  | [] => Throw (RuntimeError ("Column not found: " +:+ if String.eqb table_qualifier "" then col_name else table_qualifier +:+ "." +:+ col_name))
  | scope :: scopes' =>
    if negb (String.eqb table_qualifier "") && negb (String.eqb table_qualifier (alias_ scope)) then ResolveColumn col_name table_qualifier scopes'
    else
      let schema := schema_ (info_ scope) in
      found ← resolve_in (Z.to_nat (GetColumnCount schema)) 0 schema col_name;
      match found with
      | Some (i, type) => mret (tuple_idx_ scope, i, type)
      | None => ResolveColumn col_name table_qualifier scopes'
      end
  end.

Definition column_value (col_name table_qualifier : string) (scopes : list TableScope) : outcome AbstractExpression :=
  r ← ResolveColumn col_name table_qualifier scopes;
  let '(tuple_idx, col_idx, type) := r in mret (ColumnValueExpression tuple_idx col_idx type).

Definition BindColumnRef (fields : list PGNode) (scopes : list TableScope) : outcome AbstractExpression :=
  match fields with
  | [node] =>
    match node with
    | PGnull => Undef
    | PGValueNode (PGString s) => column_value s "" scopes
    | PGAStar _ => mret nullptr
    | _ => column_value "" "" scopes
    end
  | [first; second] =>
    table_qualifier ← strVal first;
    match second with
    | PGnull => Undef
    | PGAStar _ => mret nullptr
    | _ => col_name ← strVal second; column_value col_name table_qualifier scopes
    end
  | _ => column_value "" "" scopes
  end.

Definition BindConstant `{FloatParser} (val : PGValue) : outcome AbstractExpression :=
  match val with
  | PGInteger ival => mret (ConstantValueExpression (Value_int INTEGER (wraps 32 ival)))
  | PGFloat str => f ← stof str; mret (ConstantValueExpression (Value_float FLOAT f))
  | PGString str => mret (ConstantValueExpression (Value_string VARCHAR str))
  | _ => Throw (RuntimeError "Unsupported constant type")
  end.

(** The operator of a name, once the operands are bound. *)
Definition bind_operator (moved_first : bool) (op_name : string) (left right : AbstractExpression) : outcome AbstractExpression :=
  if String.eqb op_name "=" then mret (ComparisonExpression left right Equal)
  else if String.eqb op_name "<>" || String.eqb op_name "!=" then mret (ComparisonExpression left right NotEqual)
  else if String.eqb op_name "<" then mret (ComparisonExpression left right LessThan)
  else if String.eqb op_name "<=" then mret (ComparisonExpression left right LessThanOrEqual)
  else if String.eqb op_name ">" then mret (ComparisonExpression left right GreaterThan)
  else if String.eqb op_name ">=" then mret (ComparisonExpression left right GreaterThanOrEqual)
  else if String.eqb op_name "+" then ArithmeticExpression_new moved_first left right Plus
  else if String.eqb op_name "-" then ArithmeticExpression_new moved_first left right Minus
  else if String.eqb op_name "*" then ArithmeticExpression_new moved_first left right Times
  else if String.eqb op_name "/" then ArithmeticExpression_new moved_first left right Over
  else if String.eqb op_name "%" then ArithmeticExpression_new moved_first left right Mod
  else Throw (RuntimeError ("Unsupported operator: " +:+ op_name)).

(** [AND] and [OR] fold to the left. *)
Fixpoint bind_chain (bind : PGNode → outcome AbstractExpression) (logic_type : LogicType) (result : AbstractExpression) (args : list PGNode) :
    outcome AbstractExpression :=
  match args with
  | [] => mret result
  | arg :: args' => right ← bind arg; bind_chain bind logic_type (LogicExpression result right logic_type) args'
  end.

Section binder.
Context {St : Type} `{SqlParser} `{FloatParser}.
Context (moved_first : bool) (catalog_ : Catalog St).

Definition BindBoolExpr (bind : PGNode → outcome AbstractExpression) (boolop : PGBoolExprType) (args : list PGNode) : outcome AbstractExpression :=
  match boolop, args with
  | PG_NOT_EXPR, _ => Throw (RuntimeError "Unsupported BoolExpr type")
  | _, [] => Undef
  | PG_AND_EXPR, arg :: args' => result ← bind arg; bind_chain bind LogicAnd result args'
  | PG_OR_EXPR, arg :: args' => result ← bind arg; bind_chain bind LogicOr result args'
  end.

Definition BindAExpr (bind : PGNode → outcome AbstractExpression) (name : list PGNode) (lexpr rexpr : PGNode) : outcome AbstractExpression :=
  left ← bind lexpr;
  right ← bind rexpr;
  op ← linitial name;
  op_name ← strVal op;
  bind_operator moved_first op_name left right.

Fixpoint BindExpression (scopes : list TableScope) (node : PGNode) : outcome AbstractExpression :=
  match node with
  | PGnull => mret nullptr
  | PGColumnRef fields => BindColumnRef fields scopes
  | PGAConst val => BindConstant val
  | PGAExpr _ name lexpr rexpr => BindAExpr (BindExpression scopes) name lexpr rexpr
  | PGBoolExpr boolop args => BindBoolExpr (BindExpression scopes) boolop args
  | _ => type ← node_tag node; Throw (RuntimeError ("Unsupported expression node type: " +:+ pretty type))
  end.

Definition GetFuncName (funcname : list PGNode) : outcome string :=
  node ← llast funcname; s ← strVal node; mret (LowerCopy s).

Definition CountSchema : Schema := Schema_new [Column_new "count" INTEGER 0].
Definition CommandSchema : Schema := Schema_new [Column_new "command_tag" VARCHAR 0].
Definition ShowTablesSchema : Schema := Schema_new [Column_new "table_name" VARCHAR 0].
Definition ShowIndexesSchema : Schema :=
  Schema_new [Column_new "index_name" VARCHAR 0; Column_new "table_name" VARCHAR 0; Column_new "columns" VARCHAR 0].
Definition ShowSchemaSchema : Schema := Schema_new [Column_new "column_name" VARCHAR 0; Column_new "column_type" VARCHAR 0].

(** [columns.push_back(schema.GetColumn(i))] for every column *)
Fixpoint collect_columns (n i : nat) (schema : Schema) : outcome (list Column) :=
  match n with
  | O => mret []
  | S n' => column ← GetColumn schema i; columns ← collect_columns n' (S i) schema; mret (column :: columns)
  end.
Fixpoint collect_scopes (scopes : list TableScope) : outcome (list Column) :=
  match scopes with
  | [] => mret []
  | scope :: scopes' =>
    let schema := schema_ (info_ scope) in
    columns ← collect_columns (Z.to_nat (GetColumnCount schema)) 0 schema;
    rest ← collect_scopes scopes';
    mret (columns ++ rest)
  end.
Definition CollectAllColumns (scopes : list TableScope) : outcome Schema := columns ← collect_scopes scopes; mret (Schema_new columns).

(** [reinterpret_cast<PGRangeVar *>(node)]: the name and the alias *)
Definition as_range_var (node : PGNode) : outcome (option string * option (option string)) :=
  match node with PGRangeVar relname alias _ => mret (relname, alias) | _ => Undef end.

(** [std::string(range_var->relname)] *)
Definition relation_name (node : PGNode) : outcome string := rv ← as_range_var node; deref rv.1.

Definition find_table (name : string) : outcome TableInfo :=
  info ← GetTable_name name catalog_;
  match info with Some info => mret info | None => Throw (RuntimeError ("Table not found: " +:+ name)) end.

(** ** Utility statements *)
Fixpoint bind_index_params (schema : Schema) (indexParams : list PGNode) : outcome (list nat) :=
  match indexParams with
  | [] => mret []
  | PGIndexElem (Some name) PGnull _ :: params =>
    let column_idx := GetColumnIdx schema name in
    if bool_decide (column_idx = UINT32_MAX) then Throw (RuntimeError ("Column not found: " +:+ name))
    else key_attrs ← bind_index_params schema params; mret (Z.to_nat column_idx :: key_attrs)
  | PGIndexElem _ _ _ :: _ => Throw (RuntimeError "Only column-based CREATE INDEX is supported")
  | _ => Undef
  end.

Definition BindIndex (idxname : option string) (relation : PGNode) (indexParams : list PGNode) : outcome AbstractPlanNode :=
  match relation, idxname with
  | PGnull, _ | _, None => Throw (RuntimeError "Invalid CREATE INDEX statement")
  | _, Some index =>
    table ← relation_name relation;
    table_info ← find_table table;
    key_attrs ← bind_index_params (schema_ table_info) indexParams;
    mret (UtilityPlanNode CommandSchema CREATE_INDEX table index key_attrs [] false)
  end.

Definition BindDrop (objects : list PGNode) (missing_ok : bool) : AbstractPlanNode :=
  UtilityPlanNode CommandSchema DROP_INDEX "" "" [] (filter (fun name => name ≠ "") (map NodeToQualifiedName objects)) missing_ok.

(** [None] where the code leaves the switch. *)
Definition BindShow (relation : PGNode) (set : option string) : outcome (option AbstractPlanNode) :=
  let set_name := LowerCopy (default "" set) in
  if String.eqb set_name "__show_tables_expanded" || String.eqb set_name "__show_tables_from_database" then
    mret (Some (UtilityPlanNode ShowTablesSchema SHOW_TABLES "" "" [] [] false))
  else
    match relation with
    | PGnull => mret None
    | _ =>
      name ← relation_name relation;
      let normalized := LowerCopy name in
      if String.eqb normalized "tables" then mret (Some (UtilityPlanNode ShowTablesSchema SHOW_TABLES "" "" [] [] false))
      else if String.eqb normalized "index" || String.eqb normalized "indexes" then
        mret (Some (UtilityPlanNode ShowIndexesSchema SHOW_INDEXES "" "" [] [] false))
      else
        table_info ← GetTable_name name catalog_;
        mret match table_info with Some _ => Some (UtilityPlanNode ShowSchemaSchema SHOW_SCHEMA name "" [] [] false) | None => None end
    end.

(** ** SELECT *)

(** What the clauses build up. *)
Definition scope_of (node : PGNode) (tuple_idx : Z) : outcome TableScope :=
  rv ← as_range_var node;
  table_name ← deref rv.1;
  info ← find_table table_name;
  mret (mkScope (default table_name (mjoin rv.2)) info tuple_idx).

Definition scan_of (scope : TableScope) (predicate : AbstractExpression) : AbstractPlanNode :=
  SeqScanPlanNode (schema_ (info_ scope)) (table_oid (info_ scope)) predicate.

(** The loop over the FROM clause. *)
Fixpoint bind_from (fromClause : list PGNode) (scopes : list TableScope) (base_plan : AbstractPlanNode) (from_plans : list AbstractPlanNode) :
    outcome (list TableScope * AbstractPlanNode * list AbstractPlanNode) :=
  match fromClause with
  | [] => mret (scopes, base_plan, from_plans)
  | PGnull :: _ => Undef
  | PGRangeVar relname alias more :: fromClause' =>
    scope ← scope_of (PGRangeVar relname alias more) (wrapu 32 (length scopes));
    bind_from fromClause' (scopes ++ [scope]) base_plan (from_plans ++ [scan_of scope nullptr])
  | PGJoinExpr _ _ larg rarg _ quals _ :: fromClause' =>
    left_scope ← scope_of larg 0;
    right_scope ← scope_of rarg 1;
    let scopes := scopes ++ [left_scope; right_scope] in
    join_schema ← CollectAllColumns scopes;
    join_predicate ← BindExpression scopes quals;
    bind_from fromClause' scopes
      (NestedLoopJoinPlanNode join_schema (scan_of left_scope nullptr) (scan_of right_scope nullptr) join_predicate) []
  | _ :: fromClause' => bind_from fromClause' scopes base_plan from_plans
  end.

Definition BindFrom (fromClause : list PGNode) : outcome (list TableScope * AbstractPlanNode) :=
  match fromClause with
  | [] => Throw (RuntimeError "SELECT without FROM not supported")
  | _ =>
    r ← bind_from fromClause [] null_plan [];
    let '(scopes, base_plan, from_plans) := r in mret (scopes, default base_plan (head from_plans))
  end.

Definition BindWhere (scopes : list TableScope) (whereClause : PGNode) (base_plan : AbstractPlanNode) : outcome AbstractPlanNode :=
  match whereClause with
  | PGnull => mret base_plan
  | _ =>
    predicate ← BindExpression scopes whereClause;
    match base_plan with
    | null_plan => Undef
    | SeqScanPlanNode _ _ _ => scope ← deref (head scopes); mret (scan_of scope predicate)
    | NestedLoopJoinPlanNode schema left_plan right_plan join_predicate =>
      mret (NestedLoopJoinPlanNode schema left_plan right_plan
        (if is_null_expr join_predicate then predicate else LogicExpression join_predicate predicate LogicAnd))
    | _ => mret base_plan
    end
  end.

(** *** The target list *)
Record targets := mkTargets {
  has_aggregates : bool;
  agg_calls : list AggCall;
  output_exprs : list AbstractExpression;
  output_names : list string;
  is_star : bool;
}.

Definition add_star (t : targets) : targets := mkTargets (has_aggregates t) (agg_calls t) (output_exprs t) (output_names t) true.
Definition add_agg (a : AggCall) (t : targets) : targets := mkTargets true (agg_calls t ++ [a]) (output_exprs t) (output_names t) (is_star t).
Definition add_output (e : AbstractExpression) (name : string) (t : targets) : targets :=
  mkTargets (has_aggregates t) (agg_calls t) (output_exprs t ++ [e]) (output_names t ++ [name]) (is_star t).

Definition is_aggregate (fname : string) : bool :=
  String.eqb fname "count" || String.eqb fname "sum" || String.eqb fname "min" || String.eqb fname "max".

(** The flag [agg_star], or a star as the first argument of COUNT *)
Definition is_count_star (fname : string) (args : list PGNode) (agg_star : bool) : outcome bool :=
  if agg_star then mret true
  else
    match args with
    | first_arg :: _ =>
      if String.eqb fname "count" then match first_arg with PGnull => Undef | PGAStar _ => mret true | _ => mret false end else mret false
    | [] => mret false
    end.

Definition agg_type_of (fname : string) : AggregationType :=
  if String.eqb fname "count" then CountAggregate
  else if String.eqb fname "sum" then SumAggregate
  else if String.eqb fname "min" then MinAggregate
  else MaxAggregate.

Definition BindAggregate (scopes : list TableScope) (fname : string) (args : list PGNode) (agg_star : bool) : outcome AggCall :=
  star ← is_count_star fname args agg_star;
  if String.eqb fname "count" && star then mret (mkAggCall CountStarAggregate (ColumnValueExpression 0 0 INTEGER))
  else
    arg_node ← linitial args;
    arg ← BindExpression scopes arg_node;
    mret (mkAggCall (agg_type_of fname) arg).

(** The name of an output column: AS, the last part of a column, or a number *)
Definition output_name (name : option string) (val : PGNode) (count : nat) : outcome string :=
  match name, val with
  | Some name, _ => mret name
  | None, PGColumnRef fields => tail ← llast fields; mret (NodeToQualifiedName tail)
  | None, _ => mret ("col_" +:+ pretty count)
  end.

Definition bind_output (scopes : list TableScope) (name : option string) (val : PGNode) (t : targets) : outcome targets :=
  e ← BindExpression scopes val;
  name ← output_name name val (length (output_names t));
  mret (add_output e name t).

Definition bind_target (scopes : list TableScope) (name : option string) (val : PGNode) (t : targets) : outcome targets :=
  match val with
  | PGnull => mret t
  | PGAStar _ => mret (add_star t)
  | PGColumnRef fields =>
    first_field ← linitial fields;
    match first_field with
    | PGnull => Undef
    | PGAStar _ => mret (add_star t)
    | _ => bind_output scopes name val t
    end
  | PGFuncCall funcname args agg_star _ =>
    fname ← GetFuncName funcname;
    if is_aggregate fname then a ← BindAggregate scopes fname args agg_star; mret (add_agg a t)
    else bind_output scopes name val t
  | _ => bind_output scopes name val t
  end.

Fixpoint bind_targets (scopes : list TableScope) (targetList : list PGNode) (t : targets) : outcome targets :=
  match targetList with
  | [] => mret t
  | PGResTarget name val _ :: targetList' => t' ← bind_target scopes name val t; bind_targets scopes targetList' t'
  | _ => Undef
  end.

(** *** The nodes above the base plan *)
Fixpoint bind_all (scopes : list TableScope) (nodes : list PGNode) : outcome (list AbstractExpression) :=
  match nodes with
  | [] => mret []
  | node :: nodes' => e ← BindExpression scopes node; es ← bind_all scopes nodes'; mret (e :: es)
  end.

Definition BindAggregation (scopes : list TableScope) (groupClause : list PGNode) (t : targets) (base_plan : AbstractPlanNode) :
    outcome AbstractPlanNode :=
  if has_aggregates t then
    group_bys ← bind_all scopes groupClause;
    let group_cols := imap (fun (i : nat) _ => Column_new ("group_" +:+ pretty i) INTEGER 0) group_bys in
    let agg_cols := imap (fun (i : nat) _ => Column_new ("agg_" +:+ pretty i) INTEGER 0) (agg_calls t) in
    mret (AggregationPlanNode (Schema_new (group_cols ++ agg_cols)) base_plan group_bys (map agg_arg (agg_calls t)) (map agg_type (agg_calls t)))
  else mret base_plan.

(** [base_plan->GetOutputSchema()] *)
Definition output_schema_of (plan : AbstractPlanNode) : outcome Schema :=
  match plan with null_plan => Undef | _ => mret (plan_schema plan) end.

Fixpoint bind_order_bys (scopes : list TableScope) (sortClause : list PGNode) : outcome (list (bool * AbstractExpression)) :=
  match sortClause with
  | [] => mret []
  | PGSortBy node dir _ :: sortClause' =>
    sort_expr ← BindExpression scopes node;
    rest ← bind_order_bys scopes sortClause';
    mret ((bool_decide (dir ≠ PG_SORTBY_DESC), sort_expr) :: rest)
  | _ => Undef
  end.

Definition BindOrder (scopes : list TableScope) (sortClause : list PGNode) (base_plan : AbstractPlanNode) : outcome AbstractPlanNode :=
  match sortClause with
  | [] => mret base_plan
  | _ =>
    order_bys ← bind_order_bys scopes sortClause;
    schema ← output_schema_of base_plan;
    mret (SortPlanNode schema base_plan order_bys)
  end.

(** The limit is taken for a constant, and that for an integer. *)
Definition BindLimit (limitCount : PGNode) (base_plan : AbstractPlanNode) : outcome AbstractPlanNode :=
  match limitCount with
  | PGnull => mret base_plan
  | PGAConst (PGInteger ival) => schema ← output_schema_of base_plan; mret (LimitPlanNode schema base_plan (wrapu 64 ival))
  | _ => Undef
  end.

Fixpoint proj_columns (exprs : list AbstractExpression) (names : list string) : outcome (list Column) :=
  match exprs, names with
  | e :: exprs', name :: names' => type ← GetReturnType e; columns ← proj_columns exprs' names'; mret (Column_new name type 0 :: columns)
  | _, _ => mret []
  end.

Definition BindProjection (t : targets) (base_plan : AbstractPlanNode) : outcome AbstractPlanNode :=
  if negb (is_star t) && negb (has_aggregates t) && bool_decide (output_exprs t ≠ []) then
    columns ← proj_columns (output_exprs t) (output_names t);
    mret (ProjectionPlanNode (Schema_new columns) base_plan (output_exprs t))
  else mret base_plan.

Definition no_targets : targets := mkTargets false [] [] [] false.

Definition BindSelect (targetList fromClause : list PGNode) (whereClause : PGNode) (groupClause sortClause : list PGNode) (limitCount : PGNode) :
    outcome AbstractPlanNode :=
  from ← BindFrom fromClause;
  let '(scopes, base_plan) := from in
  base_plan ← BindWhere scopes whereClause base_plan;
  t ← bind_targets scopes targetList no_targets;
  base_plan ← BindAggregation scopes groupClause t base_plan;
  base_plan ← BindOrder scopes sortClause base_plan;
  base_plan ← BindLimit limitCount base_plan;
  BindProjection t base_plan.

(** ** Changes *)

(** A clause that is absent leaves no predicate. *)
Definition where_predicate (scopes : list TableScope) (whereClause : PGNode) : outcome AbstractExpression := BindExpression scopes whereClause.

(** The sources of INSERT ... SELECT: the last table is scanned, with a predicate
    that sees all tables so far. *)
Fixpoint bind_insert_from (fromClause : list PGNode) (whereClause : PGNode) (sub_scopes : list TableScope) (sub_plan : AbstractPlanNode) :
    outcome AbstractPlanNode :=
  match fromClause with
  | [] => mret sub_plan
  | PGnull :: _ => Undef
  | PGRangeVar relname _ _ :: fromClause' =>
    src_name ← deref relname;
    src_info ← find_table src_name;
    let scope := mkScope src_name src_info 0 in
    let sub_scopes := sub_scopes ++ [scope] in
    sub_predicate ← where_predicate sub_scopes whereClause;
    bind_insert_from fromClause' whereClause sub_scopes (scan_of scope sub_predicate)
  | _ :: fromClause' => bind_insert_from fromClause' whereClause sub_scopes sub_plan
  end.

Definition BindInsert (relation selectStmt : PGNode) : outcome AbstractPlanNode :=
  table_name ← relation_name relation;
  info ← find_table table_name;
  match selectStmt with
  | PGSelectStmt _ fromClause whereClause _ valuesLists _ _ _ _ _ _ =>
    sub_plan ←
      match fromClause, valuesLists with
      | [], [] => mret null_plan
      | [], _ => Throw (RuntimeError "INSERT ... VALUES not supported yet")
      | _, _ => bind_insert_from fromClause whereClause [] null_plan
      end;
    mret (InsertPlanNode CountSchema sub_plan (table_oid info))
  | _ => Undef
  end.

Definition BindDelete (relation whereClause : PGNode) : outcome AbstractPlanNode :=
  table_name ← relation_name relation;
  info ← find_table table_name;
  let scope := mkScope table_name info 0 in
  predicate ← where_predicate [scope] whereClause;
  mret (DeletePlanNode CountSchema (scan_of scope predicate) (table_oid info)).

(** The SET clause: the last expression for a column counts. *)
Fixpoint bind_set (scopes : list TableScope) (targetList : list PGNode) (set_exprs : gmap string AbstractExpression) :
    outcome (gmap string AbstractExpression) :=
  match targetList with
  | [] => mret set_exprs
  | PGResTarget name val _ :: targetList' =>
    col_name ← deref name;
    expr ← BindExpression scopes val;
    bind_set scopes targetList' (<[col_name := expr]> set_exprs)
  | _ => Undef
  end.

(** A column without an expression keeps its value. *)
Fixpoint update_exprs_from (n i : nat) (schema : Schema) (set_exprs : gmap string AbstractExpression) : outcome (list AbstractExpression) :=
  match n with
  | O => mret []
  | S n' =>
    column ← GetColumn schema i;
    exprs ← update_exprs_from n' (S i) schema set_exprs;
    mret (default (ColumnValueExpression 0 i (type_ column)) (set_exprs !! name_ column) :: exprs)
  end.

Definition BindUpdate (relation : PGNode) (targetList : list PGNode) (whereClause : PGNode) : outcome AbstractPlanNode :=
  table_name ← relation_name relation;
  info ← find_table table_name;
  let scope := mkScope table_name info 0 in
  let schema := schema_ info in
  set_exprs ← bind_set [scope] targetList ∅;
  update_exprs ← update_exprs_from (Z.to_nat (GetColumnCount schema)) 0 schema set_exprs;
  predicate ← where_predicate [scope] whereClause;
  mret (UpdatePlanNode CountSchema (scan_of scope predicate) (table_oid info) update_exprs).

(** ** Statements *)
Definition unsupported (stmt : PGNode) : outcome AbstractPlanNode :=
  type ← node_tag stmt; Throw (RuntimeError ("Unsupported statement type: " +:+ pretty type)).

(** The two switches on the type of a statement *)
Definition BindStatement (stmt : PGNode) : outcome AbstractPlanNode :=
  match stmt with
  | PGIndexStmt idxname relation indexParams _ => BindIndex idxname relation indexParams
  | PGDropStmt objects PG_OBJECT_INDEX missing_ok _ => mret (BindDrop objects missing_ok)
  | PGVariableShowStmt relation set _ =>
    plan ← BindShow relation set;
    match plan with Some plan => mret plan | None => unsupported stmt end
  | PGSelectStmt targetList fromClause whereClause groupClause _ sortClause limitCount _ _ _ _ =>
    BindSelect targetList fromClause whereClause groupClause sortClause limitCount
  | PGInsertStmt relation selectStmt _ => BindInsert relation selectStmt
  | PGDeleteStmt relation whereClause _ => BindDelete relation whereClause
  | PGUpdateStmt relation targetList whereClause _ => BindUpdate relation targetList whereClause
  | _ => unsupported stmt
  end.

Definition BindQuery (sql : string) : outcome AbstractPlanNode :=
  match Parse sql with
  | inl error_message => Throw (RuntimeError ("Parse error: " +:+ error_message))
  | inr [] => Throw (RuntimeError "Empty parse tree")
  | inr (PGRawStmt stmt :: _) => BindStatement stmt
  | inr _ => Undef
  end.
End binder.
