(* ===== verification/SqlSemantics.v ===== *)
(** * What SELECT, DELETE and UPDATE mean

    A reference semantics on the parse tree: columns are found by their names, clauses
    apply in the order of SQL.  There are no plans, column numbers or tuple indexes.
    It covers one table, or an inner join of two tables with ON; WHERE, ORDER BY,
    LIMIT and a list of expressions or a star.  Statements with other clauses, with
    ambiguous names or with names that the tables do not have are not covered.  Rows are read, joined and built as in
    [QuerySemantics], values are compared and computed as in [Value]. *)
From stdpp Require Import pretty.
From coqutil Require Import Byte.
From S2P Require Import Prelude Value Tuple TableHeap Catalog Expression Plan Executor QuerySemantics Binder.

#[local] Open Scope Z_scope.
#[local] Coercion Z.of_nat : nat >-> Z.

(** ** Names *)
Definition names (schema : Schema) : list string := map name_ (columns_ schema).

(** The column of a name: the first in the first table that fits. *)
Fixpoint place (sources : list (string * Schema)) (qualifier name : string) : option (nat * nat) :=
  match sources with
  | [] => None
  | (alias, schema) :: sources' =>
    match (if bool_decide (qualifier = "" ∨ qualifier = alias) then fst <$> list_find (name =.) (names schema) else None) with
    | Some i => Some (0%nat, i)
    | None => prod_map S id <$> place sources' qualifier name
    end
  end.

(** ** Expressions *)
Definition operators : list (string * (Value → Value → outcome Value)) :=
  [("=", CompareEquals); ("<>", CompareNotEquals); ("!=", CompareNotEquals); ("<", CompareLessThan); ("<=", CompareLessThanOrEqual);
   (">", CompareGreaterThan); (">=", CompareGreaterThanOrEqual); ("+", Add); ("-", Subtract); ("*", Multiply); ("/", Divide); ("%", Modulo)].
Definition operator (op : string) : option (Value → Value → outcome Value) := snd <$> List.find (fun x => String.eqb op x.1) operators.

Section expressions.
Context `{FloatParser}.

Definition constant (val : PGValue) : outcome Value :=
  match val with
  | PGInteger i => mret (Value_int INTEGER i)
  | PGFloat s => f ← stof s; mret (Value_float FLOAT f)
  | PGString s => mret (Value_string VARCHAR s)
  | _ => Undef
  end.

(** The operands of AND and OR, from the left *)
Fixpoint chain (value : PGNode → outcome Value) (connective : Value → Value → outcome Value) (v : Value) (args : list PGNode) : outcome Value :=
  match args with
  | [] => mret v
  | arg :: args' => w ← value arg; vw ← connective v w; chain value connective vw args'
  end.

(** [column qualifier name] is the value of a column. *)
Fixpoint sql_value (column : string → string → outcome Value) (node : PGNode) : outcome Value :=
  match node with
  | PGColumnRef [PGValueNode (PGString name)] => column "" name
  | PGColumnRef [PGValueNode (PGString qualifier); PGValueNode (PGString name)] => column qualifier name
  | PGAConst val => constant val
  | PGAExpr PG_AEXPR_OP [PGValueNode (PGString op)] lexpr rexpr =>
    a ← sql_value column lexpr;
    b ← sql_value column rexpr;
    match operator op with Some f => f a b | None => Undef end
  | PGBoolExpr PG_AND_EXPR (arg :: args) => v ← sql_value column arg; chain (sql_value column) And v args
  | PGBoolExpr PG_OR_EXPR (arg :: args) => v ← sql_value column arg; chain (sql_value column) Or v args
  | _ => Undef
  end.

(** A condition that is absent holds. *)
Definition sql_test (column : string → string → outcome Value) (node : PGNode) : outcome bool :=
  match node with PGnull => mret true | _ => v ← sql_value column node; GetAsBoolean v end.

Definition is_Ret {A} (o : outcome A) : bool := match o with Ret _ => true | _ => false end.

(** The type of an expression over columns of the given types *)
Definition operator_type (op : string) (t : TypeId) : option TypeId :=
  let compares ct := if comparable ct t then Some BOOLEAN else None in
  let computes at_ := if computable at_ t then Some t else None in
  if String.eqb op "=" then compares Equal else if String.eqb op "<>" || String.eqb op "!=" then compares NotEqual
  else if String.eqb op "<" then compares LessThan else if String.eqb op "<=" then compares LessThanOrEqual
  else if String.eqb op ">" then compares GreaterThan else if String.eqb op ">=" then compares GreaterThanOrEqual
  else if String.eqb op "+" then computes Plus else if String.eqb op "-" then computes Minus
  else if String.eqb op "*" then computes Times else if String.eqb op "/" then computes Over
  else if String.eqb op "%" then computes Mod else None.

Definition constant_type (val : PGValue) : option TypeId :=
  match val with PGInteger _ => Some INTEGER | PGFloat _ => Some FLOAT | PGString _ => Some VARCHAR | _ => None end.

Fixpoint sql_type (types : string → string → option TypeId) (node : PGNode) : option TypeId :=
  match node with
  | PGColumnRef [PGValueNode (PGString name)] => types "" name
  | PGColumnRef [PGValueNode (PGString qualifier); PGValueNode (PGString name)] => types qualifier name
  | PGAConst val => constant_type val
  | PGAExpr PG_AEXPR_OP [PGValueNode (PGString op)] lexpr rexpr =>
    t ← sql_type types lexpr;
    t' ← sql_type types rexpr;
    if bool_decide (t = t') then operator_type op t else None
  | PGBoolExpr (PG_AND_EXPR | PG_OR_EXPR) args =>
    if forallb (fun arg => bool_decide (sql_type types arg = Some BOOLEAN)) args then Some BOOLEAN else None
  | _ => None
  end.

(** Expressions whose columns and operators exist *)
Fixpoint expr_ok (sources : list (string * Schema)) (node : PGNode) : bool :=
  match node with
  | PGColumnRef [PGValueNode (PGString name)] => bool_decide (is_Some (place sources "" name))
  | PGColumnRef [PGValueNode (PGString qualifier); PGValueNode (PGString name)] => bool_decide (is_Some (place sources qualifier name))
  | PGAConst val => is_Ret (constant val)
  | PGAExpr PG_AEXPR_OP [PGValueNode (PGString op)] lexpr rexpr => bool_decide (is_Some (operator op)) && expr_ok sources lexpr && expr_ok sources rexpr
  | PGBoolExpr (PG_AND_EXPR | PG_OR_EXPR) (arg :: arg' :: args) => expr_ok sources arg && expr_ok sources arg' && forallb (expr_ok sources) args
  | _ => false
  end.

(** The equation of two columns *)
Definition is_column_ref (node : PGNode) : bool := match node with PGColumnRef _ => true | _ => false end.
Definition is_equation (node : PGNode) : bool :=
  match node with PGAExpr PG_AEXPR_OP [PGValueNode (PGString op)] lexpr rexpr => String.eqb op "=" && is_column_ref lexpr && is_column_ref rexpr | _ => false end.

Definition condition_ok (sources : list (string * Schema)) (node : PGNode) : bool := match node with PGnull => true | _ => expr_ok sources node end.
End expressions.

(** ** Statements *)
Section statements.
Context `{FloatParser} `{FloatFormat} `{SortAlgorithm}.
(** The tables by their names, and their rows by their numbers. *)
Context (T : gmap string TableInfo) (table : Z → option (list (RID * list byte))).

(** The table that an item of FROM names, and what it is called in the query. *)
Definition source_of (node : PGNode) : option (string * TableInfo) :=
  match node with
  | PGRangeVar (Some name) alias [] => info ← T !! name; Some (default name (mjoin alias), info)
  | _ => None
  end.
Definition named (source : string * TableInfo) : string * Schema := (source.1, schema_ source.2).

Definition from_sources (fromClause : list PGNode) : option (list (string * TableInfo)) :=
  match fromClause with
  | [PGRangeVar relname alias more] => s ← source_of (PGRangeVar relname alias more); Some [s]
  | [PGJoinExpr PG_JOIN_INNER PG_JOIN_REGULAR larg rarg [] _ []] => l ← source_of larg; r ← source_of rarg; Some [l; r]
  | _ => None
  end.

(** The columns of a row of the FROM clause *)
Definition from_schema (sources : list (string * TableInfo)) : Schema :=
  match sources with
  | [s] => schema_ s.2
  | _ => Schema_new (List.concat (map (fun s => columns_ (schema_ s.2)) sources))
  end.

(** Columns of a stored row, of a pair, and of a row of the FROM clause *)
Definition column_of (source : string * TableInfo) (t : Tuple) (qualifier name : string) : outcome Value :=
  match place [named source] qualifier name with Some (_, i) => GetValue_schema t (schema_ source.2) i | None => Undef end.
Definition column_of_pair (l r : string * TableInfo) (lt rt : Tuple) (qualifier name : string) : outcome Value :=
  match place [named l; named r] qualifier name with
  | Some (O, i) => GetValue_schema lt (schema_ l.2) i
  | Some (_, i) => GetValue_schema rt (schema_ r.2) i
  | None => Undef
  end.
Definition column_of_row (sources : list (string * TableInfo)) (t : Tuple) (qualifier name : string) : outcome Value :=
  match place (map named sources) qualifier name with
  | Some (k, i) => GetValue_schema t (from_schema sources) (length (List.concat (map (fun s => columns_ (schema_ s.2)) (take k sources))) + i)
  | None => Undef
  end.

(** The rows of a table that satisfy a test *)
Definition table_rows (info : TableInfo) (test : Tuple → outcome bool) : outcome (list result_row) :=
  rows ← deref (table (table_oid info));
  choose_rows (fun x => keep ← test (stored_tuple x);
    if keep : bool then t ← populate (stored_tuple x) (schema_ info) x.1; mret (Some (t, Some x.1)) else mret None) rows.

(** DELETE takes the rows out that [SELECT *] would show. *)
Definition sql_delete (name : string) (info : TableInfo) (whereClause : PGNode) : outcome (nat * list (RID * list byte)) :=
  rows ← deref (table (table_oid info));
  selected ← table_rows info (fun t => sql_test (column_of (name, info) t) whereClause);
  mret (length selected, filter (fun x => Some x.1 ∉ selected.*2) rows).

(** What SET gives a column of this name: of several expressions the last one. *)
Fixpoint assigned (targetList : list PGNode) (name : string) : option PGNode :=
  match targetList with
  | PGResTarget (Some name') val [] :: targetList' =>
    match assigned targetList' name with
    | Some val' => Some val'
    | None => if bool_decide (name' = name) then Some val else None
    end
  | _ => None
  end.

(** The new values of a row are computed from the old ones; a column that SET does not
    name keeps its value. *)
Definition sql_new_value (source : string * TableInfo) (targetList : list PGNode) (t : Tuple) (x : nat * Column) : outcome Value :=
  match assigned targetList (name_ x.2) with
  | Some val => sql_value (column_of source t) val
  | None => GetValue_schema t (schema_ source.2) x.1
  end.
Definition sql_new_values (source : string * TableInfo) (targetList : list PGNode) (t : Tuple) : outcome (list Value) :=
  map_rows (sql_new_value source targetList t) (zip (seq 0 (length (columns_ (schema_ source.2)))) (columns_ (schema_ source.2))).

(** UPDATE gives new bytes to the rows that [SELECT *] would show. *)
Definition sql_update (name : string) (info : TableInfo) (targetList : list PGNode) (whereClause : PGNode) :
    outcome (nat * list (RID * list byte) * list (RID * list byte)) :=
  rows ← deref (table (table_oid info));
  selected ← table_rows info (fun t => sql_test (column_of (name, info) t) whereClause);
  revisions ← map_rows (fun x => rid ← deref x.2; values ← sql_new_values (name, info) targetList x.1; t ← Tuple_new values; mret (rid, data_ t)) selected;
  mret (length selected, revisions, map (replaced revisions) rows).

(** ON and WHERE *)
Definition both (on where_ : PGNode) : PGNode :=
  match on, where_ with PGnull, w => w | o, PGnull => o | o, w => PGBoolExpr PG_AND_EXPR [o; w] end.

Definition from_rows (fromClause : list PGNode) (sources : list (string * TableInfo)) (whereClause : PGNode) : outcome (list result_row) :=
  match fromClause, sources with
  | [PGRangeVar _ _ _], [s] => table_rows s.2 (fun t => sql_test (column_of s t) whereClause)
  | [PGJoinExpr PG_JOIN_INNER PG_JOIN_REGULAR _ _ [] on []], [l; r] =>
    lefts ← table_rows l.2 (fun _ => mret true);
    rights ← table_rows r.2 (fun _ => mret true);
    tuples ← nested_join (fun lt rt => sql_test (column_of_pair l r lt rt) (both on whereClause)) (schema_ l.2) (schema_ r.2) lefts.*1 rights.*1;
    mret (anonymous tuples)
  | _, _ => Undef
  end.

(** The first sort key on which two rows differ decides. *)
Fixpoint sql_less (sortClause : list PGNode) (column : Tuple → string → string → outcome Value) (a b : Tuple) : outcome bool :=
  match sortClause with
  | PGSortBy node dir [] :: sortClause' =>
    x ← sql_value (column a) node;
    y ← sql_value (column b) node;
    eq ← CompareEquals x y;
    equal ← GetAsBoolean eq;
    if equal : bool then sql_less sortClause' column a b
    else less ← (match dir with PG_SORTBY_DESC => CompareGreaterThan | _ => CompareLessThan end) x y; GetAsBoolean less
  | _ => mret false
  end.

Definition sql_order (sortClause : list PGNode) (sources : list (string * TableInfo)) (rows : list result_row) : outcome (list result_row) :=
  match sortClause with
  | [] => mret rows
  | _ => tuples ← std_sort (sql_less sortClause (column_of_row sources)) rows.*1; mret (anonymous tuples)
  end.

Definition sql_limit (limitCount : PGNode) (rows : list result_row) : list result_row :=
  match limitCount with PGAConst (PGInteger n) => take (Z.to_nat n) rows | _ => rows end.

(** What is selected: everything, or expressions *)
Definition is_star_target (target : PGNode) : bool :=
  match target with PGResTarget _ (PGAStar [] | PGColumnRef [PGAStar []]) [] => true | _ => false end.
Definition target_node (target : PGNode) : PGNode := match target with PGResTarget _ val [] => val | _ => PGnull end.

Definition sql_project (targetList : list PGNode) (sources : list (string * TableInfo)) (rows : list result_row) : outcome (list result_row) :=
  if existsb is_star_target targetList then mret rows
  else map_rows (fun x =>
    values ← map_rows (fun target => sql_value (column_of_row sources x.1) (target_node target)) targetList;
    t ← Tuple_new values; mret (t, Some (default RID_default x.2))) rows.

Definition sql_select (targetList fromClause : list PGNode) (whereClause : PGNode) (sortClause : list PGNode) (limitCount : PGNode) :
    outcome (list result_row) :=
  sources ← deref (from_sources fromClause);
  rows ← from_rows fromClause sources whereClause;
  rows ← sql_order sortClause sources rows;
  sql_project targetList sources (sql_limit limitCount rows).

(** The names of the columns of the result *)
Definition sql_name (i : nat) (target : PGNode) : string :=
  match target with
  | PGResTarget (Some name) _ [] => name
  | PGResTarget None (PGColumnRef [PGValueNode (PGString name)]) [] => name
  | PGResTarget None (PGColumnRef [_; PGValueNode (PGString name)]) [] => name
  | _ => "col_" +:+ pretty i
  end.
Definition sql_names (targetList : list PGNode) (sources : list (string * TableInfo)) : list string :=
  if existsb is_star_target targetList then names (from_schema sources) else imap sql_name targetList.

(** ** The statements that are covered *)

(** Does the name stand for a column of this source? *)
Definition fits (qualifier name : string) (source : string * Schema) : bool :=
  bool_decide ((qualifier = "" ∨ qualifier = source.1) ∧ name ∈ names source.2).
(** No column name is ambiguous: SQL refuses such a statement, the binder takes the
    first column that fits. *)
Fixpoint clear_names (sources : list (string * Schema)) (node : PGNode) : bool :=
  match node with
  | PGColumnRef [PGValueNode (PGString name)] => (length (filter (fits "" name) sources) <=? 1)%nat
  | PGColumnRef [PGValueNode (PGString qualifier); PGValueNode (PGString name)] => (length (filter (fits qualifier name) sources) <=? 1)%nat
  | PGAExpr _ _ lexpr rexpr => clear_names sources lexpr && clear_names sources rexpr
  | PGBoolExpr _ args => forallb (clear_names sources) args
  | _ => true
  end.

(** In ORDER BY, SQL takes a number for the number of an output column and a name, where
    it can, for the name of an output column; the binder takes both for expressions over the
    tables.  Such keys are left out. *)
Definition renames (node target : PGNode) : bool :=
  match node, target with PGColumnRef [PGValueNode (PGString name)], PGResTarget (Some name') _ _ => String.eqb name name' | _, _ => false end.
Definition clear_key (sources : list (string * Schema)) (targetList : list PGNode) (key : PGNode) : bool :=
  match key with
  | PGSortBy (PGAConst _) _ _ => false
  | PGSortBy node _ _ => clear_names sources node && negb (existsb (renames node) targetList)
  | _ => false
  end.
Definition clear_target (sources : list (string * Schema)) (target : PGNode) : bool := match target with PGResTarget _ val _ => clear_names sources val | _ => true end.
Definition clear_from (sources : list (string * Schema)) (fromClause : list PGNode) : bool :=
  match fromClause with [PGJoinExpr _ _ _ _ _ on _] => clear_names sources on | _ => true end.
Definition clear_select (sources : list (string * Schema)) (targetList fromClause : list PGNode) (whereClause : PGNode) (sortClause : list PGNode) : bool :=
  clear_from sources fromClause && clear_names sources whereClause && forallb (clear_key sources targetList) sortClause &&
  forallb (clear_target sources) targetList.

(** The columns of ORDER BY and of the list of expressions are those of the first
    table. *)
Definition from_ok (fromClause : list PGNode) (sources : list (string * TableInfo)) : bool :=
  match fromClause with [PGJoinExpr _ _ _ _ _ on _] => condition_ok (map named sources) on | _ => true end.
Definition sort_ok (sources : list (string * Schema)) (key : PGNode) : bool :=
  match key with PGSortBy node (PG_SORTBY_DEFAULT | PG_SORTBY_ASC | PG_SORTBY_DESC) [] => expr_ok sources node | _ => false end.
Definition limit_ok (limitCount : PGNode) : bool :=
  match limitCount with PGnull => true | PGAConst (PGInteger n) => (0 <=? n) && (n <? 2 ^ 63) | _ => false end.
Definition target_ok (sources : list (string * Schema)) (target : PGNode) : bool :=
  match target with PGResTarget _ val [] => expr_ok sources val | _ => false end.
Definition targets_ok (targetList : list PGNode) (sources : list (string * Schema)) : bool :=
  match targetList with
  | [target] => is_star_target target || target_ok sources target
  | _ => negb (bool_decide (targetList = [])) && forallb (target_ok sources) targetList
  end.

Definition select_ok (targetList fromClause : list PGNode) (whereClause : PGNode) (sortClause : list PGNode) (limitCount : PGNode) : bool :=
  match from_sources fromClause with
  | Some sources =>
    let first := map named (take 1 sources) in
    forallb (fun s : string * TableInfo => GetColumnCount (schema_ s.2) =? length (columns_ (schema_ s.2))) sources &&
    from_ok fromClause sources && condition_ok (map named sources) whereClause && forallb (sort_ok first) sortClause && limit_ok limitCount &&
    targets_ok targetList first && clear_select (map named sources) targetList fromClause whereClause sortClause
  | None => false
  end.

(** Statements whose rows have an order that the optimizer keeps: WHERE has a type,
    and the condition of a join is not an equation of two columns *)
Definition column_type (sources : list (string * Schema)) (qualifier name : string) : option TypeId :=
  match place sources qualifier name with Some (k, i) => s ← sources !! k; schema_types s.2 i | None => None end.
Definition typed_condition (sources : list (string * Schema)) (node : PGNode) : bool :=
  match node with PGnull => true | _ => bool_decide (is_Some (sql_type (column_type sources) node)) end.
Definition plannable (fromClause : list PGNode) (whereClause : PGNode) : bool :=
  match from_sources fromClause, fromClause with
  | Some sources, [PGJoinExpr _ _ _ _ _ on _] => negb (is_equation (both on whereClause))
  | Some sources, _ => typed_condition (map named sources) whereClause
  | None, _ => false
  end.

(** DELETE: the columns of WHERE exist, and it has a type. *)
Definition delete_ok (name : string) (info : TableInfo) (whereClause : PGNode) : bool :=
  (GetColumnCount (schema_ info) =? length (columns_ (schema_ info))) && condition_ok [named (name, info)] whereClause &&
  typed_condition [named (name, info)] whereClause.

(** UPDATE: so do the columns in the expressions of SET; SET names columns of the table,
    each once; the table has columns. *)
Definition set_ok (source : string * TableInfo) (target : PGNode) : bool :=
  match target with PGResTarget (Some name) val [] => bool_decide (name ∈ names (schema_ source.2)) && expr_ok [named source] val | _ => false end.
Definition set_name (target : PGNode) : option string := match target with PGResTarget name _ _ => name | _ => None end.
Definition update_ok (name : string) (info : TableInfo) (targetList : list PGNode) (whereClause : PGNode) : bool :=
  delete_ok name info whereClause && forallb (set_ok (name, info)) targetList && bool_decide (NoDup (omap set_name targetList)) &&
  negb (length (columns_ (schema_ info)) =? 0).
End statements.
