(* ===== verification/BinderSpec.v ===== *)
(** * The binder finds the meaning of a statement

    The plan that the binder makes for a SELECT denotes what the statement means by
    names.  Expressions first, then the clauses from FROM to the list of targets. *)
From stdpp Require Import pretty.
From Stdlib Require Import FunctionalExtensionality.
From coqutil Require Import Byte.
From S2P Require Import Prelude Interfaces DiskManager LRUKReplacer BufferPool BufferPoolSpec Value Tuple TableHeap Catalog CatalogSpec Expression Plan Executor QuerySemantics ExecutorSpec Optimizer Binder SqlSemantics.

#[local] Open Scope Z_scope.
#[local] Coercion Z.of_nat : nat >-> Z.

(** ** Names of columns *)
Definition scope_source (scope : TableScope) : string * Schema := (alias_ scope, schema_ (info_ scope)).
Definition small (schema : Schema) : Prop := GetColumnCount schema = length (columns_ schema).

Lemma resolve_in_find schema name : ∀ n i, (i + n)%nat = length (columns_ schema) →
  resolve_in n i schema name = Ret ((fun x => ((i + x.1)%nat, type_ x.2)) <$> list_find (fun c => name = name_ c) (drop i (columns_ schema))).
Proof.
  induction n as [|n IH]; intros i Hn; cbn [resolve_in].
  { by rewrite drop_ge by lia. }
  destruct (lookup_lt_is_Some_2 (columns_ schema) i) as [c Hc]; [lia|]. unfold GetColumn. rewrite Hc. cbn [deref mbind outcome_bind].
  rewrite (drop_S _ _ _ Hc). cbn [list_find]. destruct (String.eqb_spec (name_ c) name) as [<-|Hne].
  - rewrite decide_True by done. cbn. by rewrite Nat.add_0_r.
  - rewrite decide_False by congruence. rewrite IH by lia. destruct (list_find _ _) as [[j d]|]; cbn; [|done]. do 3 f_equal. lia.
Qed.

Lemma resolve_schema schema name : small schema →
  resolve_in (Z.to_nat (GetColumnCount schema)) 0 schema name = Ret ((fun x => (x.1, type_ x.2)) <$> list_find (fun c => name = name_ c) (columns_ schema)).
Proof. intros ->. rewrite Nat2Z.id, resolve_in_find by done. done. Qed.

Lemma find_name name schema : fst <$> list_find (name =.) (names schema) = fst <$> list_find (fun c => name = name_ c) (columns_ schema).
Proof. unfold names. rewrite list_find_fmap. by destruct (list_find _ _) as [[]|]. Qed.

(** What the binder finds is the place of the name. *)
Lemma ResolveColumn_place name qualifier scopes : Forall (fun s => small (schema_ (info_ s))) scopes → ∀ k i,
  place (map scope_source scopes) qualifier name = Some (k, i) →
  ∃ scope type, scopes !! k = Some scope ∧ ResolveColumn name qualifier scopes = Ret (tuple_idx_ scope, i, type).
Proof.
  induction 1 as [|scope scopes Hsmall _ IH]; intros k i; [done|]. cbn [map place ResolveColumn scope_source].
  assert (∀ k i, prod_map S id <$> place (map scope_source scopes) qualifier name = Some (k, i) →
    ∃ s type, (scope :: scopes) !! k = Some s ∧ ResolveColumn name qualifier scopes = Ret (tuple_idx_ s, i, type)) as Hlater.
  { intros k' i' ([k0 i0] & Hp & [= -> ->])%fmap_Some. destruct (IH _ _ Hp) as (s & type & ? & ?). by exists s, type. }
  case_bool_decide as Hq.
  - rewrite find_name, resolve_schema by done.
    assert (negb (String.eqb qualifier "") && negb (String.eqb qualifier (alias_ scope)) = false) as ->.
    { destruct Hq as [->| ->]; [done|]. by rewrite String.eqb_refl, andb_false_r. }
    destruct (list_find _ _) as [[j c]|]; cbn; [|by apply Hlater]. intros [= <- <-]. by exists scope, (type_ c).
  - assert (negb (String.eqb qualifier "") && negb (String.eqb qualifier (alias_ scope)) = true) as ->.
    { destruct (String.eqb_spec qualifier ""); [tauto|]. by destruct (String.eqb_spec qualifier (alias_ scope)); [tauto|]. }
    by apply Hlater.
Qed.

Lemma place_first sources qualifier name p : place (take 1 sources) qualifier name = Some p → place sources qualifier name = Some p.
Proof. destruct sources as [|[alias schema] sources]; [done|]. cbn. destruct (if bool_decide _ then _ else _); done. Qed.

Lemma place_single source qualifier name k i : place [source] qualifier name = Some (k, i) → k = 0%nat.
Proof. destruct source. cbn. destruct (if bool_decide _ then _ else _); cbn; by intros [= <- <-]. Qed.

(** ** Expressions *)

(** Induction on expressions, through the arguments of AND and OR *)
Definition is_leaf (node : PGNode) : Prop := match node with PGAExpr _ _ _ _ | PGBoolExpr _ _ => False | _ => True end.
Section induction.
Context (P : PGNode → Prop) (Hleaf : ∀ node, is_leaf node → P node).
Context (Hoperator : ∀ kind name l r, P l → P r → P (PGAExpr kind name l r)).
Context (Hbool : ∀ boolop args, Forall P args → P (PGBoolExpr boolop args)).

Fixpoint expr_induction (node : PGNode) : P node :=
  match node with
  | PGAExpr kind name l r => Hoperator kind name l r (expr_induction l) (expr_induction r)
  | PGBoolExpr boolop args =>
    Hbool boolop args ((fix all args := match args return Forall P args with
      | [] => Forall_nil_2 P
      | arg :: args' => Forall_cons_2 P arg args' (expr_induction arg) (all args')
      end) args)
  | node => Hleaf node I
  end.
End induction.

Lemma Value_int_wraps type i : Value_int type (wraps 32 i) = Value_int type i.
Proof.
  unfold Value_int, wrapu, wraps. rewrite Zminus_mod_idemp_l. do 2 f_equal. lia.
Qed.

Lemma arithmetic_binds moved_first l r op : is_null_expr l = false →
  ∃ type, ArithmeticExpression_new moved_first l r op = Ret (ArithmeticExpression l r op type).
Proof.
  intros Hl. unfold ArithmeticExpression_new. rewrite Hl, orb_false_r. destruct moved_first; [by eexists|].
  destruct l; try done; by eexists.
Qed.

(** The operators that have a meaning *)
Lemma operator_cases op f : operator op = Some f → op ∈ map fst operators.
Proof.
  intros ([x g] & Hx & _)%fmap_Some. apply List.find_some in Hx as [Hin ->%String.eqb_eq].
  apply (list_elem_of_fmap_2 fst operators (x, g)). by apply list_elem_of_In.
Qed.

Definition is_column (e : AbstractExpression) : bool := match e with ColumnValueExpression _ _ _ => true | _ => false end.

(** An expression that stands for two operands and an operator *)
Record applies (op : string) (f : Value → Value → outcome Value) (l r e : AbstractExpression) : Prop := {
  app_null : is_null_expr e = false;
  app_column : is_column e = false;
  app_value column : evaluate column e = (a ← evaluate column l; b ← evaluate column r; f a b);
  app_type types t u : type_of types l = Some t → type_of types r = Some t → operator_type op t = Some u → type_of types e = Some u;
  app_equation : is_column_equality e = true → op = "=" ∧ is_column l = true ∧ is_column r = true;
}.

Lemma comparison_applies op f l r comp_type :
  PerformComparison comp_type = f → (∀ t, operator_type op t = if comparable comp_type t then Some BOOLEAN else None) → (comp_type = Equal → op = "=") →
  applies op f l r (ComparisonExpression l r comp_type).
Proof.
  intros <- Htype Heq. split; [done..|by intros| |].
  - intros types t u Hl Hr Hu. cbn. rewrite Hl, Hr. cbn. rewrite bool_decide_true by done. cbn [andb]. by rewrite Htype in Hu.
  - cbn. destruct l; try done. destruct r; try done. destruct comp_type; try done. intros _. by rewrite Heq.
Qed.

Lemma arithmetic_applies op f l r arith_type type :
  PerformComputation arith_type = f → (∀ t, operator_type op t = if computable arith_type t then Some t else None) →
  applies op f l r (ArithmeticExpression l r arith_type type).
Proof.
  intros <- Htype. split; [done..|by intros| |done].
  intros types t u Hl Hr Hu. cbn. rewrite Hl, Hr. cbn. rewrite bool_decide_true by done. cbn [andb]. by rewrite Htype in Hu.
Qed.

Lemma bind_operator_applies moved_first op f l r : operator op = Some f → is_null_expr l = false →
  ∃ e, bind_operator moved_first op l r = Ret e ∧ applies op f l r e.
Proof.
  intros Hf Hl. pose proof (operator_cases op f Hf) as Hop. unfold operators in Hop. cbn [map fst] in Hop. rewrite !elem_of_cons in Hop.
  destruct_or! Hop; [subst op; injection Hf as <-..|by apply not_elem_of_nil in Hop].
  all: first [by eexists; split; [reflexivity|by apply comparison_applies] | idtac].
  all: unfold bind_operator; cbn [String.eqb Ascii.eqb Bool.eqb orb].
  all: match goal with |- context [ArithmeticExpression_new _ _ _ ?a] => destruct (arithmetic_binds moved_first l r a Hl) as [type ->] end.
  all: by eexists; split; [reflexivity|by apply arithmetic_applies].
Qed.

Section bound.
Context `{FloatParser} (moved_first : bool) (scopes : list TableScope) (sources : list (string * Schema)).
Context (Hresolves : ∀ qualifier name, is_Some (place sources qualifier name) → ∃ r, ResolveColumn name qualifier scopes = Ret r).

(** A way to read columns by number and a way to read them by name *)
Definition agree {A} (column : Z → nat → A) (by_name : string → string → A) : Prop :=
  ∀ qualifier name k i type, is_Some (place sources qualifier name) → ResolveColumn name qualifier scopes = Ret (k, i, type) → column k i = by_name qualifier name.

(** The expression has the meaning and the type of the node. *)
Record bound (node : PGNode) (e : AbstractExpression) : Prop := {
  bound_null : is_null_expr e = false;
  bound_value column by_name : agree column by_name → evaluate column e = sql_value by_name node;
  bound_type types by_name t : agree types by_name → sql_type by_name node = Some t → type_of types e = Some t;
  bound_column : is_column e = true → is_column_ref node = true;
  bound_equation : is_column_equality e = true → is_equation node = true;
}.
Definition binds (node : PGNode) : Prop := ∃ e, BindExpression moved_first scopes node = Ret e ∧ bound node e.

Lemma column_bound qualifier name fields : is_Some (place sources qualifier name) →
  BindColumnRef fields scopes = column_value name qualifier scopes →
  (∀ by_name, sql_value by_name (PGColumnRef fields) = by_name qualifier name) →
  (∀ by_name, sql_type by_name (PGColumnRef fields) = by_name qualifier name) → binds (PGColumnRef fields).
Proof using Hresolves.
  intros Hp Hbind Hvalue Htype. destruct (Hresolves _ _ Hp) as [[[k i] type] Hr]. exists (ColumnValueExpression k i type). split.
  - cbn [BindExpression]. rewrite Hbind. unfold column_value. by rewrite Hr.
  - split; try done.
    + intros column by_name Hagree. rewrite Hvalue. by apply (Hagree qualifier name k i type).
    + intros types by_name t Hagree. rewrite Htype. intros <-. by apply (Hagree qualifier name k i type).
Qed.

Lemma constant_bound val v : BindConstant val = Ret (ConstantValueExpression v) → constant val = Ret v → constant_type val = Some (type_id_ v) → binds (PGAConst val).
Proof using.
  intros Hbind Hv Ht. exists (ConstantValueExpression v). split; [done|]. split; try done.
  intros types by_name t _ Hty. cbn in Hty |- *. congruence.
Qed.

Lemma leaf_bound node : is_leaf node → expr_ok sources node = true → binds node.
Proof using Hresolves.
  destruct node as [| | | |fields|val| | | | | | | | | | | | | | | | |]; try done; intros _ Hok.
  - destruct fields as [|[| [| |name| |]| | | | | | | | | | | | | | | | | | | | |] [|second rest]]; try done.
    + apply bool_decide_eq_true in Hok. by apply (column_bound "" name).
    + destruct second as [|[| |column| |]| | | | | | | | | | | | | | | | | | | | |], rest as [|]; try done.
      apply bool_decide_eq_true in Hok. by apply (column_bound name column).
  - destruct val as [i|s|s|s|]; try done; cbn in *.
    + apply (constant_bound _ (Value_int INTEGER i)); try done. cbn. by rewrite Value_int_wraps.
    + destruct (stof s) as [f| | |] eqn:Hs; try done. apply (constant_bound _ (Value_float FLOAT f)); try done; cbn; by rewrite Hs.
    + by apply (constant_bound _ (Value_string VARCHAR s)).
Qed.

(** AND and OR *)
Lemma chain_bound connective logic_type args : (∀ a b, PerformLogic logic_type a b = connective a b) → Forall binds args → ∀ e0,
  is_null_expr e0 = false →
  ∃ e, bind_chain (BindExpression moved_first scopes) logic_type e0 args = Ret e ∧ is_null_expr e = false ∧
    (∀ column by_name, agree column by_name → evaluate column e = (v ← evaluate column e0; chain (sql_value by_name) connective v args)) ∧
    (∀ types by_name, agree types by_name → type_of types e0 = Some BOOLEAN →
      forallb (fun arg => bool_decide (sql_type by_name arg = Some BOOLEAN)) args = true → type_of types e = Some BOOLEAN) ∧
    (args ≠ [] → is_column e = false ∧ is_column_equality e = false).
Proof using.
  intros Hconn. induction 1 as [|arg args (e1 & He1 & Hb1) _ IH]; intros e0 Hnull.
  { exists e0. split_and!; try done. intros. cbn. by destruct (evaluate column e0). }
  cbn [bind_chain]. rewrite He1. cbn [mbind outcome_bind]. destruct (IH (LogicExpression e0 e1 logic_type)) as (e & He & Hn & Hval & Htype & Hshape); [done|].
  exists e. split_and!; [done|done| | |].
  - intros column by_name Hagree. rewrite (Hval column by_name) by done. cbn [evaluate].
    destruct (evaluate column e0) as [v| | |]; [|done..]. cbn [mbind outcome_bind chain]. rewrite (bound_value _ _ Hb1 column by_name) by done.
    destruct (sql_value by_name arg); [|done..]. cbn [mbind outcome_bind]. by rewrite Hconn.
  - intros types by_name Hagree Ht0 [Ht1%bool_decide_eq_true Hts]%andb_true_iff. apply (Htype types by_name); [done| |done].
    cbn. rewrite Ht0, (bound_type _ _ Hb1 types by_name BOOLEAN) by done. cbn. done.
  - intros _. destruct args; [|by apply Hshape]. cbn in He. by injection He as <-.
Qed.

Lemma bool_bound boolop connective logic_type arg args :
  (∀ a b, PerformLogic logic_type a b = connective a b) →
  (∀ bind, BindBoolExpr bind boolop (arg :: args) = (result ← bind arg; bind_chain bind logic_type result args)) →
  (∀ by_name, sql_value by_name (PGBoolExpr boolop (arg :: args)) = (v ← sql_value by_name arg; chain (sql_value by_name) connective v args)) →
  (∀ by_name, sql_type by_name (PGBoolExpr boolop (arg :: args)) =
    if forallb (fun arg => bool_decide (sql_type by_name arg = Some BOOLEAN)) (arg :: args) then Some BOOLEAN else None) →
  args ≠ [] → Forall binds (arg :: args) → binds (PGBoolExpr boolop (arg :: args)).
Proof using.
  intros Hconn Hbind Hvalue Htype Hne [(e0 & He0 & Hb0) Hargs]%Forall_cons.
  destruct (chain_bound connective logic_type args Hconn Hargs e0 (bound_null _ _ Hb0)) as (e & He & Hn & Hv & Ht & Hshape).
  destruct (Hshape Hne) as [Hc Heq]. exists e. split; [cbn [BindExpression]; by rewrite Hbind, He0|]. split; [done| | |by rewrite Hc|by rewrite Heq].
  - intros column by_name Hagree. by rewrite (Hv column by_name), Hvalue, (bound_value _ _ Hb0 column by_name) by done.
  - intros types by_name t Hagree. rewrite Htype. cbn [forallb]. destruct (bool_decide _) eqn:Ht0; [|done]. apply bool_decide_eq_true in Ht0. cbn [andb].
    destruct (forallb _ args) eqn:Hts; [|done]. intros [= <-]. apply (Ht types by_name); [done| |done]. by apply (bound_type _ _ Hb0 types by_name).
Qed.

Lemma BindExpression_bound node : expr_ok sources node = true → binds node.
Proof using Hresolves.
  induction node as [node Hleaf|kind name l r IHl IHr|boolop args IH] using expr_induction; intros Hok.
  - by apply leaf_bound.
  - destruct kind; try done. destruct name as [|[| [| |op| |]| | | | | | | | | | | | | | | | | | | | |] [|]]; try done. cbn [expr_ok] in Hok.
    apply andb_true_iff in Hok as [[[f Hf]%bool_decide_eq_true Hl]%andb_true_iff Hr].
    destruct (IHl Hl) as (el & Hel & Hbl), (IHr Hr) as (er & Her & Hbr).
    destruct (bind_operator_applies moved_first op f el er Hf (bound_null _ _ Hbl)) as (e & He & [Hn Hc Hv Ht Heq]).
    exists e. split; [cbn [BindExpression]; unfold BindAExpr; by rewrite Hel, Her|]. split; [done| | |by rewrite Hc|].
    + intros column by_name Hagree. rewrite Hv. cbn [sql_value].
      by rewrite (bound_value _ _ Hbl column by_name), (bound_value _ _ Hbr column by_name), Hf by done.
    + intros types by_name t Hagree. cbn [sql_type]. intros (tl & Htl & (tr & Htr & Hto)%bind_Some)%bind_Some. case_bool_decide as Hlr; [subst tr|done].
      apply (Ht types tl); [by apply (bound_type _ _ Hbl types by_name)|by apply (bound_type _ _ Hbr types by_name)|done].
    + intros (-> & Hcl & Hcr)%Heq. cbn. by rewrite (bound_column _ _ Hbl Hcl), (bound_column _ _ Hbr Hcr).
  - assert (∃ arg arg' args', args = arg :: arg' :: args' ∧ forallb (expr_ok sources) args = true) as (arg & arg' & args' & -> & Hall).
    { destruct boolop; [..|done]; (destruct args as [|arg [|arg' args']]; [done|done|]); exists arg, arg', args'; (split; [done|]);
        cbn in Hok |- *; by rewrite <-andb_assoc in Hok. }
    assert (Forall binds (arg :: arg' :: args')) as Hargs.
    { clear Hok. induction IH as [|a l Ha _ IHl]; constructor; cbn in Hall; apply andb_true_iff in Hall as []; auto. }
    destruct boolop; [..|done].
    + by apply (bool_bound PG_AND_EXPR And LogicAnd).
    + by apply (bool_bound PG_OR_EXPR Or LogicOr).
Qed.
End bound.

(** ** Conditions *)
Section conditions.
Context `{FloatParser} (moved_first : bool) (scopes : list TableScope).
Abbreviation sources := (map scope_source scopes).
Context (Hsmall : Forall (fun s => small (schema_ (info_ s))) scopes).

Lemma scopes_resolve n qualifier name : is_Some (place (take n sources) qualifier name) → (n = 1%nat ∨ (length scopes ≤ n)%nat) →
  ∃ r, ResolveColumn name qualifier scopes = Ret r.
Proof using Hsmall.
  intros [[k i] Hp] Hn. assert (place sources qualifier name = Some (k, i)) as Hplace.
  { destruct Hn as [->|Hn]; [by apply place_first|]. by rewrite take_ge in Hp by (rewrite length_map; lia). }
  destruct (ResolveColumn_place _ _ _ Hsmall _ _ Hplace) as (s & type & _ & ->). by eexists.
Qed.

Lemma expr_bound node : expr_ok sources node = true → binds moved_first scopes sources node.
Proof using Hsmall.
  apply BindExpression_bound. intros q n Hp. apply (scopes_resolve (length scopes)); [by rewrite take_ge by by rewrite length_map|lia].
Qed.

(** A condition, absent or not, and what the binder makes of it *)
Inductive condition : PGNode → AbstractExpression → Prop :=
  | no_condition : condition PGnull nullptr
  | some_condition node e : node ≠ PGnull → expr_ok sources node = true → BindExpression moved_first scopes node = Ret e →
      bound scopes sources node e → condition node e.

Lemma condition_bound node : condition_ok sources node = true → ∃ e, BindExpression moved_first scopes node = Ret e ∧ condition node e.
Proof using Hsmall.
  intros Hok. assert (node = PGnull ∨ node ≠ PGnull ∧ expr_ok sources node = true) as [->|[Hn Hexpr]] by (destruct node; auto).
  - exists nullptr. by split; [|constructor].
  - destruct (expr_bound node Hexpr) as (e & He & Hb). exists e. by split; [|constructor].
Qed.

Lemma sql_test_some column node : node ≠ PGnull → sql_test column node = (v ← sql_value column node; GetAsBoolean v).
Proof. by destruct node. Qed.

Lemma condition_holds node e column by_name : condition node e → agree scopes sources column by_name →
  holds_predicate e (evaluate column) = sql_test by_name node.
Proof.
  intros [|n e' Hn _ _ Hb] Hagree; [done|]. unfold holds_predicate. by rewrite (bound_null _ _ _ _ Hb), (bound_value _ _ _ _ Hb column by_name), sql_test_some.
Qed.

Lemma both_some on where_ : on ≠ PGnull → where_ ≠ PGnull → both on where_ = PGBoolExpr PG_AND_EXPR [on; where_].
Proof. intros Hon Hw. destruct on; try done; by destruct where_. Qed.
Lemma both_none on : both on PGnull = on.
Proof. by destruct on. Qed.

(** The condition of a join and the condition of WHERE *)
Definition both_exprs (e e' : AbstractExpression) : AbstractExpression := if is_null_expr e then e' else LogicExpression e e' LogicAnd.

Lemma both_bound on where_ e e' : condition on e → condition where_ e' → where_ ≠ PGnull → condition (both on where_) (both_exprs e e').
Proof using Hsmall.
  intros Hon Hwhere Hsome. destruct Hwhere as [|w e1 Hw Hok He1 Hb]; [done|]. destruct Hon as [|o e0 Ho Hok0 He0 Hb0]; [by constructor|].
  unfold both_exprs. rewrite (bound_null _ _ _ _ Hb0), both_some by done.
  assert (expr_ok sources (PGBoolExpr PG_AND_EXPR [o; w]) = true) as Hboth by (cbn; by rewrite Hok0, Hok).
  destruct (expr_bound _ Hboth) as (e & He & Hbe). assert (e = LogicExpression e0 e1 LogicAnd) as ->.
  { cbn [BindExpression BindBoolExpr] in He. rewrite He0 in He. cbn [mbind outcome_bind bind_chain] in He. rewrite He1 in He. by injection He. }
  by constructor.
Qed.
End conditions.

(** ** FROM and WHERE *)
Lemma collect_columns_all schema : small schema → collect_columns (Z.to_nat (GetColumnCount schema)) 0 schema = Ret (columns_ schema).
Proof.
  intros ->. rewrite Nat2Z.id. rewrite <-(drop_0 (columns_ schema)) at 2.
  assert (∀ n i, (i + n)%nat = length (columns_ schema) → collect_columns n i schema = Ret (drop i (columns_ schema))) as Hall; [|by apply Hall].
  induction n as [|n IH]; intros i Hn; cbn [collect_columns]; [by rewrite drop_ge by lia|].
  destruct (lookup_lt_is_Some_2 (columns_ schema) i) as [c Hc]; [lia|]. unfold GetColumn. rewrite Hc. cbn [deref mbind outcome_bind].
  rewrite IH by lia. by rewrite (drop_S _ _ _ Hc).
Qed.

Lemma collect_scopes_all scopes : Forall (fun s => small (schema_ (info_ s))) scopes →
  collect_scopes scopes = Ret (List.concat (map (fun s => columns_ (schema_ (info_ s))) scopes)).
Proof. induction 1 as [|s scopes Hs _ IH]; cbn [collect_scopes]; [done|]. rewrite collect_columns_all by done. cbn [mbind outcome_bind]. by rewrite IH. Qed.

Lemma choose_rows_ext {A B} (f g : A → outcome (option B)) l : (∀ x, f x = g x) → choose_rows f l = choose_rows g l.
Proof. intros Hfg. induction l as [|x l IH]; cbn; [done|]. by rewrite Hfg, IH. Qed.
Lemma map_rows_ext {A B} (f g : A → outcome B) l : (∀ x, f x = g x) → map_rows f l = map_rows g l.
Proof. intros Hfg. induction l as [|x l IH]; cbn; [done|]. by rewrite Hfg, IH. Qed.

Lemma nested_join_ext (f g : Tuple → Tuple → outcome bool) ls rs lefts rights :
  (∀ l r, f l r = g l r) → nested_join f ls rs lefts rights = nested_join g ls rs lefts rights.
Proof.
  intros Hfg. unfold nested_join. erewrite map_rows_ext; [done|]. intros l. apply choose_rows_ext. intros r. unfold join_pair. by rewrite Hfg.
Qed.

(** ** Schemas of results *)
Lemma names_new columns : names (Schema_new columns) = map name_ columns.
Proof.
  unfold Schema_new, names. destruct (place_columns 0 columns) as [placed total] eqn:Hp. cbn [columns_].
  revert placed total Hp. generalize 0. induction columns as [|c columns IH]; intros off placed total; cbn [place_columns].
  - intros Hp. by simplify_eq.
  - destruct (place_columns _ columns) as [placed' total'] eqn:Hp'. intros Hp. simplify_eq. cbn. by rewrite (IH _ _ _ Hp').
Qed.

Lemma Column_new_name name type : name_ (Column_new name type 0) = name.
Proof. by destruct type. Qed.

Lemma proj_columns_names es : Forall (fun e => is_null_expr e = false) es → ∀ nms, length nms = length es →
  ∃ columns, proj_columns es nms = Ret columns ∧ map name_ columns = nms.
Proof.
  induction 1 as [|e es He _ IH]; intros [|name nms] Hlen; try done; [by exists []|]. cbn [proj_columns].
  assert (∃ type, GetReturnType e = Ret type) as [type ->] by (destruct e; try done; by eexists).
  destruct (IH nms) as (columns & -> & Hnames); [by injection Hlen|]. eexists. split; [done|]. cbn. by rewrite Column_new_name, Hnames.
Qed.

Section clauses.
Context {St : Type} `{PageStore St (list byte)} `{IterOrder} `{NameOrder} `{FloatParser} `{FloatFormat} `{SortAlgorithm}.
Context (moved_first : bool) (c : Catalog St) (T : gmap string TableInfo) (I : gmap (string * string) IndexInfo) (Hcatalog : catalog_rep c T I).
Context (table : Z → option (list (RID * list byte))) (index : Z → option IndexInfo).

Lemma find_table_rep name info : T !! name = Some info → find_table c name = Ret info.
Proof using Hcatalog. intros Hn. unfold find_table. by rewrite (GetTable_name_rep _ _ _ _ Hcatalog), Hn. Qed.

Lemma source_scope node source k : source_of T node = Some source → scope_of c node k = Ret (mkScope source.1 source.2 k).
Proof using Hcatalog.
  destruct node as [| | | | | | | | |[name|] alias [|]| | | | | | | | | | | | |]; try done. cbn. intros (info & Hname & [= <-])%bind_Some.
  by rewrite (find_table_rep _ _ Hname).
Qed.

(** The scopes of the sources of a query *)
Definition scopes_of (sources : list (string * TableInfo)) : list TableScope := imap (fun (k : nat) s => mkScope s.1 s.2 k) sources.

Lemma scan_denotes source k e test :
  (∀ t, holds_predicate e (fun e => Evaluate e t (schema_ source.2)) = test t) →
  denote table index (scan_of (mkScope source.1 source.2 k) e) = table_rows table source.2 test.
Proof.
  intros Htest. cbn. unfold table_rows. destruct (table (table_oid source.2)) as [rows|]; [|done]. cbn [deref mbind outcome_bind].
  apply choose_rows_ext. intros x. unfold select_row. by rewrite Htest.
Qed.

Lemma column_of_agree source t : small (schema_ source.2) →
  agree (scopes_of [source]) (map scope_source (scopes_of [source])) (tuple_columns t (schema_ source.2)) (column_of source t).
Proof.
  intros Hs qualifier name k i type [[k' i'] Hp] Hr. unfold column_of. cbn in Hp. unfold named.
  destruct (ResolveColumn_place name qualifier (scopes_of [source])) with (k := k') (i := i') as (scope & type' & Hscope & Hr'); [by repeat constructor|done|].
  rewrite Hr in Hr'. injection Hr' as -> -> ->. cbn in Hp |- *. by rewrite Hp.
Qed.

Lemma column_of_pair_agree l r lt rt : small (schema_ l.2) → small (schema_ r.2) →
  agree (scopes_of [l; r]) (map scope_source (scopes_of [l; r])) (join_columns lt (schema_ l.2) rt (schema_ r.2)) (column_of_pair l r lt rt).
Proof.
  intros Hl Hr qualifier name k i type [[k' i'] Hp] Hres. unfold column_of_pair.
  destruct (ResolveColumn_place name qualifier (scopes_of [l; r])) with (k := k') (i := i') as (scope & type' & Hscope & Hr'); [by repeat constructor|done|].
  rewrite Hres in Hr'. injection Hr' as -> -> ->. change (map scope_source (scopes_of [l; r])) with [named l; named r] in Hp. rewrite Hp.
  destruct k' as [|[|k']]; cbn in Hscope; [injection Hscope as <-; done..|done].
Qed.

(** Every table has rows of its columns, and its indexes hold them. *)
Definition tables_ok : Prop := ∀ name info, T !! name = Some info → scan_ok c I table (schema_ info) (table_oid info) nullptr.

Lemma source_ok node source : tables_ok → source_of T node = Some source → scan_ok c I table (schema_ source.2) (table_oid source.2) nullptr.
Proof.
  intros Hok. destruct node as [| | | | | | | | |[name|] alias [|]| | | | | | | | | | | | |]; try done. cbn. intros (info & Hname & [= <-])%bind_Some.
  by apply (Hok name).
Qed.

Lemma column_type_agree source : small (schema_ source.2) →
  agree (scopes_of [source]) (map scope_source (scopes_of [source])) (fun _ => schema_types (schema_ source.2)) (column_type [named source]).
Proof.
  intros Hs qualifier name k i type [[k' i'] Hp] Hr. unfold column_type. change (map scope_source (scopes_of [source])) with [named source] in Hp.
  destruct (ResolveColumn_place name qualifier (scopes_of [source])) with (k := k') (i := i') as (scope & type' & Hscope & Hr'); [by repeat constructor|done|].
  rewrite Hr in Hr'. injection Hr' as -> -> ->. pose proof (place_single _ _ _ _ _ Hp) as ->. by rewrite Hp.
Qed.

(** A join condition that is no equation *)
Lemma condition_equation scopes node e : condition moved_first scopes node e → is_equation node = false → is_column_equality e = false.
Proof. intros [|n e' _ _ _ Hb] Hne; [done|]. destruct (is_column_equality e') eqn:He; [|done]. by rewrite (bound_equation _ _ _ _ Hb He) in Hne. Qed.

(** The base plan of a query *)
Record base (fromClause : list PGNode) (whereClause : PGNode) (sources : list (string * TableInfo)) (scopes : list TableScope) (plan : AbstractPlanNode) : Prop := {
  base_scopes : scopes = scopes_of sources;
  base_small : Forall (fun s => small (schema_ s.2)) sources;
  base_schema : plan_schema plan = from_schema sources;
  base_real : output_schema_of plan = mret (plan_schema plan);
  base_denotes : denote table index plan = from_rows table fromClause sources whereClause;
  base_ok : tables_ok → plannable T fromClause whereClause = true → plan_ok c I table plan;
  base_plain : plain_plan plan;
}.

Lemma typed_type sources node : node ≠ PGnull → typed_condition sources node = true → is_Some (sql_type (column_type sources) node).
Proof. destruct node; try done; intros _; apply bool_decide_eq_true. Qed.

Lemma BindWhere_some scopes whereClause plan : whereClause ≠ PGnull →
  BindWhere moved_first scopes whereClause plan =
  (predicate ← BindExpression moved_first scopes whereClause;
   match plan with
   | null_plan => Undef
   | SeqScanPlanNode _ _ _ => scope ← deref (head scopes); mret (scan_of scope predicate)
   | NestedLoopJoinPlanNode schema left_plan right_plan join_predicate =>
     mret (NestedLoopJoinPlanNode schema left_plan right_plan (both_exprs join_predicate predicate))
   | _ => mret plan
   end).
Proof. by destruct whereClause. Qed.

(** WHERE over one table *)
Lemma where_bound s whereClause : small (schema_ s.2) → condition_ok [named s] whereClause = true →
  ∃ e, BindExpression moved_first (scopes_of [s]) whereClause = Ret e ∧ condition moved_first (scopes_of [s]) whereClause e ∧
    (∀ t, holds_predicate e (fun e => Evaluate e t (schema_ s.2)) = sql_test (column_of s t) whereClause) ∧
    (scan_ok c I table (schema_ s.2) (table_oid s.2) nullptr → typed_condition [named s] whereClause = true →
     scan_ok c I table (schema_ s.2) (table_oid s.2) e).
Proof.
  intros Hsmall Hok. assert (Forall (fun s => small (schema_ (info_ s))) (scopes_of [s])) as Hscopes by by repeat constructor.
  destruct (condition_bound moved_first (scopes_of [s]) Hscopes whereClause Hok) as (e & He & Hcond). exists e. split_and!; [done|done| |].
  - intros t. apply (condition_holds moved_first (scopes_of [s]) whereClause e (tuple_columns t (schema_ s.2)) _ Hcond). by apply column_of_agree.
  - intros [_ Hrows] Hp. split; [|exact Hrows]. intros Hnull.
    destruct Hcond as [|w e Hw _ _ Hb]; [done|]. destruct (typed_type _ _ Hw Hp) as [t Ht]. exists t.
    apply (bound_type _ _ _ _ Hb) with (by_name := column_type [named s]); [by apply column_type_agree|exact Ht].
Qed.

Lemma table_base relname alias more s whereClause :
  source_of T (PGRangeVar relname alias more) = Some s → small (schema_ s.2) → condition_ok [named s] whereClause = true →
  ∃ plan0 plan, BindFrom moved_first c [PGRangeVar relname alias more] = Ret (scopes_of [s], plan0) ∧
    BindWhere moved_first (scopes_of [s]) whereClause plan0 = Ret plan ∧ base [PGRangeVar relname alias more] whereClause [s] (scopes_of [s]) plan.
Proof using Hcatalog.
  intros Hs Hsmall Hok. exists (scan_of (mkScope s.1 s.2 0) nullptr).
  destruct (where_bound s whereClause Hsmall Hok) as (e & He & Hcond & Htest & Htyped). exists (scan_of (mkScope s.1 s.2 0) e).
  split; [|split].
  - unfold BindFrom. cbn [bind_from]. by rewrite (source_scope _ _ _ Hs).
  - destruct Hcond as [|w e Hw _ He' Hb]; [done|]. rewrite BindWhere_some by done. by rewrite He.
  - split; [done|by repeat constructor|done|done| | |done].
    + cbn [from_rows]. by apply scan_denotes.
    + intros Htables Hp. apply Htyped; [exact (source_ok _ _ Htables Hs)|].
      unfold plannable in Hp. cbn [from_sources] in Hp. by rewrite Hs in Hp.
Qed.

(** DELETE *)
Lemma delete_binds name alias info whereClause : T !! name = Some info → delete_ok name info whereClause = true →
  ∃ e, BindDelete moved_first c (PGRangeVar (Some name) alias []) whereClause =
      Ret (DeletePlanNode CountSchema (SeqScanPlanNode (schema_ info) (table_oid info) e) (table_oid info)) ∧
    (∀ t, holds_predicate e (fun e => Evaluate e t (schema_ info)) = sql_test (column_of (name, info) t) whereClause) ∧
    (tables_ok → scan_ok c I table (schema_ info) (table_oid info) e).
Proof using Hcatalog.
  intros Hname [[Hsmall%Z.eqb_eq Hok]%andb_true_iff Htyped]%andb_true_iff.
  destruct (where_bound (name, info) whereClause Hsmall Hok) as (e & He & _ & Htest & Hscan). exists e. split_and!.
  - unfold BindDelete. cbn. rewrite (find_table_rep _ _ Hname). cbn [mbind outcome_bind]. unfold where_predicate.
    change [mkScope name info 0] with (scopes_of [(name, info)]). by rewrite He.
  - exact Htest.
  - intros Htables. apply Hscan; [by apply (Htables name)|done].
Qed.

(** The expressions of SET *)
Lemma bind_set_bound s targetList : small (schema_ s.2) → forallb (set_ok s) targetList = true → ∀ set0,
  ∃ set_exprs, bind_set moved_first (scopes_of [s]) targetList set0 = Ret set_exprs ∧
    ∀ name, match assigned targetList name with
            | Some val => ∃ e, set_exprs !! name = Some e ∧ bound (scopes_of [s]) [named s] val e
            | None => set_exprs !! name = set0 !! name
            end.
Proof.
  intros Hsmall. induction targetList as [|target targetList IH]; intros Hok set0; [by exists set0|].
  cbn [forallb] in Hok. apply andb_true_iff in Hok as [Ht Hok]. destruct target as [| | | | | | | | | | |[name|] val [|]| | | | | | | | | | |]; try done.
  apply andb_true_iff in Ht as [_ Ht].
  destruct (expr_bound moved_first (scopes_of [s]) ltac:(by repeat constructor) val Ht) as (e & He & Hb).
  destruct (IH Hok (<[name := e]> set0)) as (set_exprs & Hset & Hnames). exists set_exprs. split.
  - cbn [bind_set deref mbind outcome_bind]. by rewrite He.
  - intros name'. specialize (Hnames name'). cbn [assigned]. destruct (assigned targetList name') as [val'|]; [done|].
    case_bool_decide as Hname; [subst name'; rewrite lookup_insert_eq in Hnames; by exists e|by rewrite lookup_insert_ne in Hnames].
Qed.

Lemma update_exprs_bound s targetList set_exprs t : small (schema_ s.2) →
  (∀ name, match assigned targetList name with
           | Some val => ∃ e, set_exprs !! name = Some e ∧ bound (scopes_of [s]) [named s] val e
           | None => set_exprs !! name = None
           end) → ∀ n i, (i + n)%nat = length (columns_ (schema_ s.2)) →
  ∃ exprs, update_exprs_from n i (schema_ s.2) set_exprs = Ret exprs ∧ length exprs = n ∧
    evaluate_all exprs t (schema_ s.2) = map_rows (sql_new_value s targetList t) (zip (seq i n) (drop i (columns_ (schema_ s.2)))).
Proof.
  intros Hsmall Hset. induction n as [|n IH]; intros i Hn; [by exists []|].
  destruct (IH (S i)) as (exprs & Hexprs & Hlen & Heval); [lia|]. destruct (lookup_lt_is_Some_2 (columns_ (schema_ s.2)) i) as [col Hcol]; [lia|].
  cbn [update_exprs_from]. unfold GetColumn. rewrite Hcol. cbn [deref mbind outcome_bind]. rewrite Hexprs. eexists. split; [done|].
  split; [cbn; by rewrite Hlen|]. rewrite (drop_S _ _ _ Hcol). cbn [seq zip zip_with map_rows evaluate_all]. rewrite Heval.
  assert (Evaluate (default (ColumnValueExpression 0 i (type_ col)) (set_exprs !! name_ col)) t (schema_ s.2) = sql_new_value s targetList t (i, col)) as ->; [|done].
  unfold sql_new_value. cbn [fst snd]. specialize (Hset (name_ col)). destruct (assigned targetList (name_ col)) as [val|].
  - destruct Hset as (e & -> & Hb). cbn [default]. apply (bound_value _ _ _ _ Hb (tuple_columns t (schema_ s.2))). by apply column_of_agree.
  - by rewrite Hset.
Qed.

(** UPDATE *)
Lemma update_binds name alias info targetList whereClause : T !! name = Some info → update_ok name info targetList whereClause = true →
  ∃ e exprs, BindUpdate moved_first c (PGRangeVar (Some name) alias []) targetList whereClause =
      Ret (UpdatePlanNode CountSchema (SeqScanPlanNode (schema_ info) (table_oid info) e) (table_oid info) exprs) ∧ exprs ≠ [] ∧
    (∀ t, evaluate_all exprs t (schema_ info) = sql_new_values (name, info) targetList t) ∧
    (∀ t, holds_predicate e (fun e => Evaluate e t (schema_ info)) = sql_test (column_of (name, info) t) whereClause) ∧
    (tables_ok → scan_ok c I table (schema_ info) (table_oid info) e).
Proof using Hcatalog.
  intros Hname [[[Hok Htargets]%andb_true_iff _]%andb_true_iff Hcols%negb_true_iff%Z.eqb_neq]%andb_true_iff.
  pose proof Hok as [[Hsmall%Z.eqb_eq Hcond]%andb_true_iff Htyped]%andb_true_iff.
  destruct (where_bound (name, info) whereClause Hsmall Hcond) as (e & He & _ & Htest & Hscan).
  destruct (bind_set_bound (name, info) targetList Hsmall Htargets ∅) as (set_exprs & Hset & Hnames).
  assert (∀ t, ∃ exprs, update_exprs_from (length (columns_ (schema_ info))) 0 (schema_ info) set_exprs = Ret exprs ∧ length exprs = length (columns_ (schema_ info)) ∧
    evaluate_all exprs t (schema_ info) = sql_new_values (name, info) targetList t) as Hexprs
    by (intros t; by apply (update_exprs_bound (name, info) targetList set_exprs t Hsmall Hnames)).
  destruct (Hexprs (mkTuple RID_default [] [])) as (exprs & Hbind & Hlen & _). exists e, exprs. split_and!.
  - unfold BindUpdate. cbn. rewrite (find_table_rep _ _ Hname). cbn [mbind outcome_bind]. unfold where_predicate.
    change [mkScope name info 0] with (scopes_of [(name, info)]). rewrite Hset. cbn [mbind outcome_bind]. rewrite Hsmall, Nat2Z.id, Hbind. cbn [mbind outcome_bind]. by rewrite He.
  - intros ->. cbn in Hlen. lia.
  - intros t. destruct (Hexprs t) as (exprs' & Hbind' & _ & Heval). by assert (exprs' = exprs) as -> by congruence.
  - exact Htest.
  - intros Htables. apply Hscan; [by apply (Htables name)|done].
Qed.

Lemma join_base larg rarg on l r whereClause :
  source_of T larg = Some l → source_of T rarg = Some r → small (schema_ l.2) → small (schema_ r.2) →
  condition_ok [named l; named r] on = true → condition_ok [named l; named r] whereClause = true →
  ∃ plan0 plan, BindFrom moved_first c [PGJoinExpr PG_JOIN_INNER PG_JOIN_REGULAR larg rarg [] on []] = Ret (scopes_of [l; r], plan0) ∧
    BindWhere moved_first (scopes_of [l; r]) whereClause plan0 = Ret plan ∧
    base [PGJoinExpr PG_JOIN_INNER PG_JOIN_REGULAR larg rarg [] on []] whereClause [l; r] (scopes_of [l; r]) plan.
Proof using Hcatalog.
  intros Hl Hr Hsl Hsr Hon Hok. set (scopes := scopes_of [l; r]).
  assert (Forall (fun s => small (schema_ (info_ s))) scopes) as Hscopes by by repeat constructor.
  destruct (condition_bound moved_first scopes Hscopes on Hon) as (e & He & Hcond).
  destruct (condition_bound moved_first scopes Hscopes whereClause Hok) as (e' & He' & Hcond').
  set (join p := NestedLoopJoinPlanNode (from_schema [l; r]) (scan_of (mkScope l.1 l.2 0) nullptr) (scan_of (mkScope r.1 r.2 1) nullptr) p).
  assert (∀ p, condition moved_first scopes (both on whereClause) p → base [PGJoinExpr PG_JOIN_INNER PG_JOIN_REGULAR larg rarg [] on []] whereClause [l; r] scopes (join p)) as Hbase.
  { intros p Hp. split; [done|by repeat constructor|done|done| | |done].
    2: { intros Htables Hplan. split; [|split; [exact (source_ok _ _ Htables Hl)|exact (source_ok _ _ Htables Hr)]].
      apply (condition_equation scopes (both on whereClause)); [done|]. unfold plannable in Hplan. cbn [from_sources] in Hplan.
      rewrite Hl, Hr in Hplan. cbn in Hplan. by apply negb_true_iff. }
    cbn [from_rows join denote].
    rewrite (scan_denotes l 0 nullptr (fun _ => mret true)), (scan_denotes r 1 nullptr (fun _ => mret true)) by done.
    destruct (table_rows table l.2 _) as [lefts| | |]; [|done..]. destruct (table_rows table r.2 _) as [rights| | |]; [|done..].
    cbn [mbind outcome_bind]. erewrite nested_join_ext; [done|]. intros lt rt. unfold theta_condition.
    apply (condition_holds moved_first scopes (both on whereClause) p (join_columns lt (schema_ l.2) rt (schema_ r.2))); [done|]. by apply column_of_pair_agree. }
  assert (BindFrom moved_first c [PGJoinExpr PG_JOIN_INNER PG_JOIN_REGULAR larg rarg [] on []] = Ret (scopes, join e)) as Hfrom.
  { unfold BindFrom. cbn [bind_from]. rewrite (source_scope _ _ _ Hl), (source_scope _ _ _ Hr). cbn [mbind outcome_bind app].
    unfold CollectAllColumns. rewrite collect_scopes_all by done. cbn [mbind outcome_bind mret outcome_ret].
    change [mkScope l.1 l.2 0; mkScope r.1 r.2 1] with scopes. by rewrite He. }
  exists (join e). destruct Hcond' as [|w e' Hw Hokw Hew Hb].
  - exists (join e). rewrite both_none in Hbase. auto.
  - exists (join (both_exprs e e')). split; [done|]. split; [rewrite BindWhere_some by done; by rewrite He'|].
    apply Hbase. apply both_bound; [done|done|by constructor|done].
Qed.

Lemma from_base fromClause sources whereClause :
  from_sources T fromClause = Some sources → Forall (fun s : string * TableInfo => small (schema_ s.2)) sources →
  from_ok fromClause sources = true → condition_ok (map named sources) whereClause = true →
  ∃ plan0 plan, BindFrom moved_first c fromClause = Ret (scopes_of sources, plan0) ∧
    BindWhere moved_first (scopes_of sources) whereClause plan0 = Ret plan ∧ base fromClause whereClause sources (scopes_of sources) plan.
Proof using Hcatalog.
  destruct fromClause as [|[| | | | | | | | |relname alias more|[] [] larg rarg [|] on [|]| | | | | | | | | | | |] []]; try done; cbn [from_sources]; intros Hsources Hsmall Hon Hok.
  - apply bind_Some in Hsources as (s & Hs & [= <-]). apply Forall_cons in Hsmall as [Hsmall _]. apply table_base; [exact Hs|exact Hsmall|exact Hok].
  - apply bind_Some in Hsources as (l & Hl & (r & Hr & [= <-])%bind_Some). apply Forall_cons in Hsmall as [Hsl [Hsr _]%Forall_cons].
    apply join_base; [exact Hl|exact Hr|exact Hsl|exact Hsr|exact Hon|exact Hok].
Qed.

(** ** ORDER BY *)
Section row_columns.
Context (sources : list (string * TableInfo)) (Hsmall : Forall (fun s : string * TableInfo => small (schema_ s.2)) sources).
Abbreviation scopes := (scopes_of sources).
Abbreviation visible := (map named (take 1 sources)).

Lemma scopes_of_small : Forall (fun s => small (schema_ (info_ s))) scopes.
Proof using Hsmall.
  unfold scopes_of. apply Forall_lookup. intros k s. rewrite list_lookup_imap. intros (x & Hx & ->)%fmap_Some. by eapply (Forall_lookup_1 _ _ _ _ Hsmall).
Qed.

Lemma scope_sources : map scope_source scopes = map named sources.
Proof. unfold scopes_of. apply list_eq. intros k. rewrite !list_lookup_fmap, list_lookup_imap. by destruct (sources !! k). Qed.

Lemma visible_resolves qualifier name : is_Some (place visible qualifier name) →
  ∃ i, place (map named sources) qualifier name = Some (0%nat, i) ∧ ∃ k type, ResolveColumn name qualifier scopes = Ret (k, i, type).
Proof using Hsmall.
  intros [[k i] Hp]. assert (place (map named sources) qualifier name = Some (k, i)) as Hplace.
  { apply place_first. by destruct sources. }
  assert (k = 0%nat) as ->. { destruct sources; [done|]. by apply place_single in Hp. }
  exists i. split; [done|]. rewrite <-scope_sources in Hplace.
  destruct (ResolveColumn_place _ _ _ scopes_of_small _ _ Hplace) as (s & type & _ & Hr). by exists (tuple_idx_ s), type.
Qed.

(** A row of the FROM clause is read by column numbers. *)
Lemma row_agree t : agree scopes visible (tuple_columns t (from_schema sources)) (column_of_row sources t).
Proof using Hsmall.
  intros qualifier name k i type Hp Hr. destruct (visible_resolves _ _ Hp) as (i' & Hplace & k' & type' & Hr').
  rewrite Hr in Hr'. injection Hr' as -> -> ->. unfold column_of_row, tuple_columns. by rewrite Hplace.
Qed.

Lemma visible_bound node : expr_ok visible node = true → ∃ e, BindExpression moved_first scopes node = Ret e ∧ is_null_expr e = false ∧
  ∀ t, Evaluate e t (from_schema sources) = sql_value (column_of_row sources t) node.
Proof using Hsmall.
  intros Hok. destruct (BindExpression_bound moved_first scopes visible) with (node := node) as (e & He & Hb); [|done|].
  { intros q n Hp. destruct (visible_resolves _ _ Hp) as (i & _ & k & type & ->). by eexists. }
  exists e. split_and!; [done|apply Hb|]. intros t. apply Hb. apply row_agree.
Qed.

Lemma bind_order_bys_less sortClause : forallb (sort_ok visible) sortClause = true →
  ∃ order_bys, bind_order_bys moved_first scopes sortClause = Ret order_bys ∧
    ∀ a b, sort_less order_bys (from_schema sources) a b = sql_less sortClause (column_of_row sources) a b.
Proof using Hsmall.
  induction sortClause as [|key sortClause IH]; intros Hok; [by exists []|]. cbn in Hok. apply andb_true_iff in Hok as [Hkey Hok].
  destruct key as [| | | | | | | | | | | |node dir [|]| | | | | | | | | |]; try done; [|by destruct dir].
  assert (dir ≠ SORTBY_USING ∧ expr_ok visible node = true) as [_ Hnode] by by destruct dir. destruct (visible_bound node Hnode) as (e & He & _ & Hv), (IH Hok) as (rest & Hrest & Hless).
  exists ((bool_decide (dir ≠ PG_SORTBY_DESC), e) :: rest). split; [cbn [bind_order_bys]; by rewrite He, Hrest|].
  intros a b. cbn [sort_less sql_less]. rewrite !Hv, Hless. by destruct dir.
Qed.

(** The plan after ORDER BY and LIMIT *)
Lemma order_denotes sortClause plan rows :
  forallb (sort_ok visible) sortClause = true → plan_schema plan = from_schema sources → output_schema_of plan = mret (plan_schema plan) →
  denote table index plan = rows →
  ∃ plan', BindOrder moved_first scopes sortClause plan = Ret plan' ∧ plan_schema plan' = from_schema sources ∧
    output_schema_of plan' = mret (plan_schema plan') ∧ denote table index plan' = (rs ← rows; sql_order sortClause sources rs).
Proof using Hsmall.
  intros Hok Hschema Hreal <-. unfold BindOrder, sql_order. destruct sortClause as [|key sortClause].
  { exists plan. split_and!; try done. by destruct (denote table index plan). }
  destruct (bind_order_bys_less _ Hok) as (order_bys & Ho & Hless). rewrite Ho, Hreal. cbn [mbind outcome_bind]. eexists. split; [done|]. split; [done|].
  split; [done|]. cbn [denote]. rewrite Hschema. replace (sort_less order_bys (from_schema sources)) with (sql_less (key :: sortClause) (column_of_row sources)); [done|].
  extensionality a. extensionality b. by rewrite Hless.
Qed.
End row_columns.

Lemma limit_denotes limitCount plan schema rows :
  limit_ok limitCount = true → plan_schema plan = schema → output_schema_of plan = mret (plan_schema plan) → denote table index plan = rows →
  ∃ plan', BindLimit limitCount plan = Ret plan' ∧ plan_schema plan' = schema ∧ output_schema_of plan' = mret (plan_schema plan') ∧
    denote table index plan' = (rs ← rows; mret (sql_limit limitCount rs)).
Proof.
  intros Hok Hschema Hreal <-. destruct limitCount as [| | | | |[n| | | |]| | | | | | | | | | | | | | | | |]; try done; cbn [BindLimit limit_ok] in *.
  - exists plan. split_and!; try done. by destruct (denote table index plan).
  - rewrite Hreal. cbn [mbind outcome_bind]. eexists. split; [done|]. split_and!; [done|done|]. cbn [denote sql_limit]. rewrite wrapu_small by lia. done.
Qed.

(** ** The list of targets *)
Section targets_of_rows.
Context (sources : list (string * TableInfo)) (Hsmall : Forall (fun s : string * TableInfo => small (schema_ s.2)) sources).
Abbreviation scopes := (scopes_of sources).
Abbreviation visible := (map named (take 1 sources)).

Lemma bind_target_expr name val t : expr_ok visible val = true →
  bind_target moved_first scopes name val t = bind_output moved_first scopes name val t ∧
  output_name name val (length (output_names t)) = Ret (sql_name (length (output_names t)) (PGResTarget name val [])).
Proof.
  destruct val as [| | | |fields| | | | | | | | | | | | | | | | | |]; try done.
  - intros Hok. destruct fields as [|[| [| |first| |]| | | | | | | | | | | | | | | | | | | | |] [|second rest]]; try done.
    + split; [done|]. by destruct name.
    + destruct second as [|[| |column| |]| | | | | | | | | | | | | | | | | | | | |], rest as [|]; try done. split; [done|]. by destruct name.
  - intros _. split; [done|]. by destruct name.
  - intros _. split; [done|]. by destruct name.
  - intros _. split; [done|]. by destruct name.
Qed.

(** The expressions of the targets *)
Definition target_bound (target : PGNode) (e : AbstractExpression) : Prop :=
  is_null_expr e = false ∧ ∀ t, Evaluate e t (from_schema sources) = sql_value (column_of_row sources t) (target_node target).

Lemma bind_targets_exprs targetList : forallb (target_ok visible) targetList = true → ∀ t,
  ∃ es, bind_targets moved_first scopes targetList t =
      Ret (mkTargets (has_aggregates t) (agg_calls t) (output_exprs t ++ es)
        (output_names t ++ imap (fun (i : nat) => sql_name (length (output_names t) + i)) targetList) (is_star t)) ∧
    Forall2 target_bound targetList es.
Proof using Hsmall.
  induction targetList as [|target targetList IH]; intros Hok t.
  { exists []. rewrite imap_nil, !app_nil_r. by destruct t. }
  cbn in Hok. apply andb_true_iff in Hok as [Htarget Hok]. destruct target as [| | | | | | | | | | |name val [|]| | | | | | | | | | |]; try done.
  cbn [bind_targets]. destruct (bind_target_expr name val t Htarget) as [-> Hname]. unfold bind_output.
  destruct (visible_bound sources Hsmall val Htarget) as (e & -> & Hn & Hv). cbn [mbind outcome_bind]. rewrite Hname. cbn [mbind outcome_bind].
  destruct (IH Hok (add_output e (sql_name (length (output_names t)) (PGResTarget name val [])) t)) as (es & Hes & Hall).
  exists (e :: es). split; [|by constructor]. cbn [mret outcome_ret mbind outcome_bind]. rewrite Hes. cbn [has_aggregates agg_calls output_exprs output_names is_star add_output].
  rewrite <-!app_assoc, imap_cons, Nat.add_0_r. do 4 f_equal. f_equal. extensionality i. unfold compose. rewrite length_app. cbn. f_equal. lia.
Qed.

Lemma evaluate_targets targetList es t : Forall2 target_bound targetList es →
  evaluate_all es t (from_schema sources) = map_rows (fun target => sql_value (column_of_row sources t) (target_node target)) targetList.
Proof. induction 1 as [|target e targetList es [_ He] _ IH]; cbn; [done|]. by rewrite He, IH. Qed.

Lemma star_target target : is_star_target target = true →
  ∃ name val, target = PGResTarget name val [] ∧ (val = PGAStar [] ∨ val = PGColumnRef [PGAStar []]).
Proof. unfold is_star_target. intros Hstar. repeat (case_match; try done); subst; eauto. Qed.

Lemma no_star targetList : forallb (target_ok visible) targetList = true → existsb is_star_target targetList = false.
Proof.
  induction targetList as [|target targetList IH]; [done|]. cbn. intros [Ht Hts]%andb_true_iff. rewrite (IH Hts), orb_false_r.
  destruct (is_star_target target) eqn:Hstar; [|done]. by apply star_target in Hstar as (name & val & -> & [-> | ->]).
Qed.

(** The whole statement above its base plan *)
Lemma targets_denote targetList plan rows :
  targets_ok targetList visible = true → plan_schema plan = from_schema sources → denote table index plan = rows →
  ∃ t plan', bind_targets moved_first scopes targetList no_targets = Ret t ∧ has_aggregates t = false ∧ BindProjection t plan = Ret plan' ∧
    names (plan_schema plan') = sql_names targetList sources ∧ denote table index plan' = (rs ← rows; sql_project targetList sources rs).
Proof using Hsmall.
  intros Hok Hschema <-. unfold sql_names, sql_project.
  assert ((∃ target, targetList = [target] ∧ is_star_target target = true) ∨ targetList ≠ [] ∧ forallb (target_ok visible) targetList = true)
    as [(target & -> & Hstar)|[Hne Hexprs]].
  { destruct targetList as [|target [|target' targetList]]; [done|..].
    - cbn in Hok. apply orb_true_iff in Hok as [Hs|Ht]; [left; by exists target|right]. cbn. by rewrite Ht.
    - right. split; [done|exact Hok]. }
  - cbn [existsb]. rewrite Hstar. cbn [orb].
    exists (add_star no_targets), plan. rewrite Hschema. split_and!; try done; [|by destruct (denote table index plan)].
    by apply star_target in Hstar as (name & val & -> & [-> | ->]).
  - rewrite no_star by done. destruct (bind_targets_exprs targetList Hexprs no_targets) as (es & Hes & Hall). cbn in Hes.
    set (nms := imap (fun (i : nat) => sql_name i) targetList) in *.
    destruct (proj_columns_names es) with (nms := nms) as (columns & Hcolumns & Hnames).
    { apply Forall_forall. intros e (i & Hi)%list_elem_of_lookup. destruct (Forall2_lookup_r _ _ _ _ _ Hall Hi) as (target & _ & Hn & _). exact Hn. }
    { unfold nms. rewrite length_imap. by eapply Forall2_length. }
    eexists _, (ProjectionPlanNode (Schema_new columns) plan es). split; [exact Hes|]. split; [done|]. split; [|split].
    + unfold BindProjection. cbn [is_star has_aggregates output_exprs output_names negb andb]. rewrite bool_decide_true; [by rewrite Hcolumns|].
      intros ->. by apply Forall2_nil_inv_r in Hall.
    + cbn [plan_schema]. by rewrite names_new.
    + cbn [denote]. rewrite Hschema. destruct (denote table index plan) as [rows| | |]; [|done..]. cbn [mbind outcome_bind].
      apply map_rows_ext. intros x. by rewrite (evaluate_targets targetList).
Qed.
End targets_of_rows.

(** ** SELECT *)

(** The clauses above the base plan keep what the optimizer and the executors ask of
    a plan. *)
Definition keeps_ok (plan plan' : AbstractPlanNode) : Prop :=
  (plan_ok c I table plan → plan_ok c I table plan') ∧ (plain_plan plan → plain_plan plan').

Lemma BindOrder_ok scopes sortClause plan plan' : BindOrder moved_first scopes sortClause plan = Ret plan' → keeps_ok plan plan'.
Proof. unfold BindOrder. destruct sortClause as [|key sortClause]; intros Hb; [by injection Hb as ->|]. outcome_inv. done. Qed.

Lemma BindLimit_ok limitCount plan plan' : BindLimit limitCount plan = Ret plan' → keeps_ok plan plan'.
Proof.
  destruct limitCount as [| | | | |[n| | | |]| | | | | | | | | | | | | | | | |]; try done; cbn [BindLimit]; intros Hb; [by injection Hb as ->|].
  outcome_inv. split; [done|]. intros Hl. split; [exact Hl|]. apply wrapu_range. lia.
Qed.

Lemma BindProjection_ok t plan plan' : BindProjection t plan = Ret plan' → keeps_ok plan plan'.
Proof. unfold BindProjection. destruct (_ && _); intros Hb; [outcome_inv; done|by injection Hb as ->]. Qed.

Lemma select_binds targetList fromClause whereClause sortClause limitCount :
  select_ok T targetList fromClause whereClause sortClause limitCount = true →
  ∃ sources plan, from_sources T fromClause = Some sources ∧
    BindSelect moved_first c targetList fromClause whereClause [] sortClause limitCount = Ret plan ∧
    names (plan_schema plan) = sql_names targetList sources ∧
    denote table index plan = sql_select T table targetList fromClause whereClause sortClause limitCount ∧
    (tables_ok → plannable T fromClause whereClause = true → plan_ok c I table plan) ∧ plain_plan plan.
Proof using Hcatalog.
  unfold select_ok, sql_select. destruct (from_sources T fromClause) as [sources|] eqn:Hsources; [|done].
  intros [[[[[[Hsmall Hfrom]%andb_true_iff Hwhere]%andb_true_iff Hsort]%andb_true_iff Hlimit]%andb_true_iff Htargets]%andb_true_iff _]%andb_true_iff.
  assert (Forall (fun s : string * TableInfo => small (schema_ s.2)) sources) as Hall.
  { apply Forall_forall. intros s Hs. apply List.forallb_forall with (x := s) in Hsmall; [|by apply list_elem_of_In]. unfold small. by apply Z.eqb_eq in Hsmall. }
  destruct (from_base fromClause sources whereClause Hsources Hall Hfrom Hwhere) as (plan0 & plan1 & Hbind & Hbind1 & [_ _ Hs1 Hr1 Hd1 Hok1 Hl1]).
  destruct (order_denotes sources Hall sortClause plan1 _ Hsort Hs1 Hr1 Hd1) as (plan2 & Hbind2 & Hs2 & Hr2 & Hd2).
  destruct (limit_denotes limitCount plan2 _ _ Hlimit Hs2 Hr2 Hd2) as (plan3 & Hbind3 & Hs3 & Hr3 & Hd3).
  destruct (targets_denote sources Hall targetList plan3 _ Htargets Hs3 Hd3) as (t & plan4 & Ht & Hagg & Hbind4 & Hnames & Hd4).
  destruct (BindOrder_ok _ _ _ _ Hbind2) as [Ho2 Hl2], (BindLimit_ok _ _ _ Hbind3) as [Ho3 Hl3], (BindProjection_ok _ _ _ Hbind4) as [Ho4 Hl4].
  exists sources, plan4. split; [done|]. split; [|split; [done|split; [|split; [by auto|by auto]]]].
  - unfold BindSelect. rewrite Hbind. cbn [mbind outcome_bind]. rewrite Hbind1. cbn [mbind outcome_bind]. rewrite Ht. cbn [mbind outcome_bind].
    unfold BindAggregation. rewrite Hagg. cbn [mbind outcome_bind mret outcome_ret]. rewrite Hbind2. cbn [mbind outcome_bind]. by rewrite Hbind3.
  - rewrite Hd4. cbn [deref mbind outcome_bind]. destruct (from_rows table fromClause sources whereClause) as [rows| | |]; [|done..].
    cbn [mbind outcome_bind]. by destruct (sql_order sortClause sources rows).
Qed.
End clauses.

(** C8: a SELECT statement is bound to a plan that means what the statement says.  The
    statements are those of [select_ok]: one table or an inner join of two with ON,
    WHERE, a star or a list of expressions, ORDER BY and LIMIT, with operators and names
    that exist and are not ambiguous, with sort keys that SQL does not take for output columns
    ([clear_key]), and no other clause (no DISTINCT, GROUP BY, HAVING, OFFSET, outer or
    natural join, USING, WITH, set operation or window, and no operator that is not a
    plain one: the binder passes over these, see [clauses_ignored]).  ON and WHERE may
    name columns of both tables, ORDER BY and the list only columns of the first one
    ([right_columns_misread] says what becomes of those of the second).  For them the
    binder returns a plan; what the plan denotes, by column numbers and tuple indexes,
    is what the statement means by names, failures included; and the columns of the
    result have the names that the statement gives them. *)
Theorem select_means_sql {St} `{PageStore St (list byte)} `{IterOrder} `{NameOrder} `{SqlParser} `{FloatParser} `{FloatFormat} `{SortAlgorithm}
    (moved_first : bool) (c : Catalog St) T I table index sql targetList fromClause whereClause sortClause limitCount rest :
  catalog_rep c T I →
  Parse sql = inr (PGRawStmt (PGSelectStmt targetList fromClause whereClause [] [] sortClause limitCount [] PGnull PGnull []) :: rest) →
  select_ok T targetList fromClause whereClause sortClause limitCount = true →
  ∃ sources plan, from_sources T fromClause = Some sources ∧ BindQuery moved_first c sql = Ret plan ∧
    names (plan_schema plan) = sql_names targetList sources ∧
    denote table index plan = sql_select T table targetList fromClause whereClause sortClause limitCount.
Proof.
  intros Hcatalog Hparse Hok. destruct (select_binds moved_first c T I Hcatalog table index _ _ _ _ _ Hok) as (sources & plan & Hs & Hb & Hn & Hd & _).
  exists sources, plan. unfold BindQuery. by rewrite Hparse.
Qed.

(** ** Clauses that the binder does not read

    It binds a SELECT with DISTINCT, HAVING or OFFSET as if these were not there, every
    join as an inner join with the condition of ON, and an operator by its name alone:
    [x IS DISTINCT FROM y] as [x = y]. *)
Theorem clauses_ignored {St} `{IterOrder} `{NameOrder} `{FloatParser} (moved_first : bool) (c : Catalog St) :
  (∀ targetList fromClause whereClause groupClause valuesLists sortClause limitCount distinctClause havingClause limitOffset more,
    BindStatement moved_first c (PGSelectStmt targetList fromClause whereClause groupClause valuesLists sortClause limitCount distinctClause havingClause limitOffset more) =
    BindStatement moved_first c (PGSelectStmt targetList fromClause whereClause groupClause valuesLists sortClause limitCount [] PGnull PGnull [])) ∧
  (∀ jointype joinreftype larg rarg usingClause quals more fromClause,
    BindFrom moved_first c (PGJoinExpr jointype joinreftype larg rarg usingClause quals more :: fromClause) =
    BindFrom moved_first c (PGJoinExpr PG_JOIN_INNER PG_JOIN_REGULAR larg rarg [] quals [] :: fromClause)) ∧
  (∀ scopes kind name lexpr rexpr,
    BindExpression moved_first scopes (PGAExpr kind name lexpr rexpr) = BindExpression moved_first scopes (PGAExpr PG_AEXPR_OP name lexpr rexpr)).
Proof. by split_and!. Qed.

(** ** A column of the right table

    The expressions above a join are evaluated on the joined row, but a column of the
    right table keeps its number in that table. *)
Lemma values_from_lookup t schema : ∀ n i vs, values_from n i t schema = Ret vs →
  length vs = n ∧ ∀ (j : nat) v, vs !! j = Some v → GetValue_schema t schema (i + j) = Ret v.
Proof.
  induction n as [|n IH]; intros i vs; cbn [values_from]; intros Hv; outcome_inv; [done|].
  destruct (IH _ _ Hr0) as [Hlen Hvs]. split; [cbn; lia|]. intros [|j] v Hj; cbn in Hj.
  - injection Hj as <-. by rewrite Nat.add_0_r.
  - rewrite <-Nat.add_succ_comm. by apply Hvs.
Qed.

Lemma combined_left l ls r rs t schema i : combine l ls r rs = Ret t → (i < Z.to_nat (GetColumnCount ls))%nat →
  GetValue_schema t schema i = GetValue_schema l ls i.
Proof.
  unfold combine, tuple_values. intros Ht Hi. outcome_inv. destruct (values_from_lookup _ _ _ _ _ Hr) as [Hlen Hvs].
  unfold Tuple_new in Ht. outcome_inv. unfold GetValue_schema at 1. cbn [values_]. rewrite lookup_app_l by lia.
  destruct (lookup_lt_is_Some_2 r0 i) as [v Hv]; [lia|]. rewrite Hv. symmetry. exact (Hvs i v Hv).
Qed.

(** [SELECT r.name ... FROM l JOIN r]: what is read is a column of [l]. *)
Theorem right_columns_misread `{FloatParser} moved_first (l r : string * TableInfo) qualifier name i lt rt t :
  let scopes := scopes_of [l; r] in
  small (schema_ l.2) → small (schema_ r.2) → place [named l; named r] qualifier name = Some (1%nat, i) →
  (i < length (columns_ (schema_ l.2)))%nat → combine lt (schema_ l.2) rt (schema_ r.2) = Ret t →
  ∃ e, BindExpression moved_first scopes (PGColumnRef [PGValueNode (PGString qualifier); PGValueNode (PGString name)]) = Ret e ∧
    Evaluate e t (from_schema [l; r]) = GetValue_schema lt (schema_ l.2) i.
Proof.
  intros scopes Hl Hr Hplace Hi Ht.
  destruct (ResolveColumn_place name qualifier scopes) with (k := 1%nat) (i := i) as (scope & type & Hscope & Hres); [by repeat constructor|done|].
  exists (ColumnValueExpression (tuple_idx_ scope) i type). split; [cbn [BindExpression BindColumnRef strVal mbind outcome_bind mret outcome_ret]; unfold column_value; by rewrite Hres|].
  unfold Evaluate. cbn [evaluate]. unfold tuple_columns. eapply combined_left; [exact Ht|]. rewrite Hl. lia.
Qed.

(** ** [SELECT t.x AS y FROM t WHERE x >= 8 ORDER BY x DESC LIMIT 5] *)
Definition column_node (name : string) : PGNode := PGColumnRef [PGValueNode (PGString name)].
Definition demo_targets : list PGNode := [PGResTarget (Some "y") (PGColumnRef [PGValueNode (PGString "t"); PGValueNode (PGString "x")]) []].
Definition demo_where : PGNode := PGAExpr PG_AEXPR_OP [PGValueNode (PGString ">=")] (column_node "x") (PGAConst (PGInteger 8)).
Definition demo_statement : PGNode :=
  PGSelectStmt demo_targets [PGRangeVar (Some "t") None []] demo_where [] [] [PGSortBy (column_node "x") PG_SORTBY_DESC []] (PGAConst (PGInteger 5)) [] PGnull PGnull [].
#[local] Instance demo_parser : SqlParser := fun _ => inr [PGRawStmt demo_statement].
#[local] Instance demo_floats : FloatParser := fun _ => Throw (LogicError "stof").
#[local] Instance demo_format : FloatFormat := fun _ => "".

Definition demo_tables : gmap string TableInfo := {["t" := mkTableInfo one_column "t" 0 1]}.

Lemma demo_statement_ok :
  select_ok demo_tables demo_targets [PGRangeVar (Some "t") None []] demo_where [PGSortBy (column_node "x") PG_SORTBY_DESC []] (PGAConst (PGInteger 5)) = true.
Proof. by vm_compute. Qed.

Lemma demo_statement_means :
  (map (fun x : result_row => values_ x.1) <$> (match sql_select demo_tables two_row_table demo_targets [PGRangeVar (Some "t") None []] demo_where
    [PGSortBy (column_node "x") PG_SORTBY_DESC []] (PGAConst (PGInteger 5)) with Ret rows => Some rows | _ => None end)) = Some [[Value_int INTEGER 8]].
Proof. by vm_compute. Qed.

Example select_means_sql_witness :
  ∃ plan rows, BindQuery false indexed_catalog "select" = Ret plan ∧ names (plan_schema plan) = ["y"] ∧
    denote two_row_table (fun _ => None) plan = Ret rows ∧ map (fun x : result_row => values_ x.1) rows = [[Value_int INTEGER 8]].
Proof.
  edestruct (select_means_sql false indexed_catalog demo_tables {[("i", "t") := two_row_index]} two_row_table (fun _ => None) "select")
    as (sources & plan & Hs & Hb & Hn & Hd); [exact indexed_catalog_rep|reflexivity|exact demo_statement_ok|].
  pose proof demo_statement_means as Hm. rewrite <-Hd in Hm. destruct (denote two_row_table (fun _ => None) plan) as [rows| | |] eqn:Hrows; [|discriminate Hm..].
  exists plan, rows. split; [exact Hb|]. split; [|split; [exact Hrows|by injection Hm]].
  rewrite Hn. by injection Hs as <-.
Defined.
