(* ===== verification/Server.v ===== *)
(** * Server, client and shell

    Models [HandleQuery] and [HandleClient] of [src/onebase_server/server_main.cpp], the
    loop of [src/onebase_client/client_main.cpp], [ExecuteSQL] and the loop of
    [src/tools/onebase_shell.cpp], and the constructor of [OneBaseInstance].  The state
    of a connection is the catalog and the socket.  What [std::getline] delivers is a
    list of lines; what is printed is a list of texts. *)
From stdpp Require Import pretty.
From Stdlib Require Import Ascii.
From coqutil Require Import Byte.
From S2P Require Import Prelude Interfaces DiskManager LRUKReplacer BufferPool BufferPoolSpec Value Tuple TableHeap Catalog Expression Plan Executor Optimizer Protocol ResultText Binder.

#[local] Open Scope Z_scope.
#[local] Coercion Z.of_nat : nat >-> Z.

(** [e.what()] *)
Definition what (e : exn) : string := match e with LogicError msg | RuntimeError msg | OneBaseException msg _ => msg end.

(** [try { m } catch (const std::exception &e) { handler(e) }] *)
Definition try_catch {S A} (m : M S A) (handler : exn → M S A) : M S A :=
  fun s => match m s with (Throw e, s') => handler e s' | r => r end.

(** [OneBaseInstance(db_file_name, buffer_pool_size)], over the bytes of the file; the
    replacer looks [replacer_k] accesses back. *)
Definition OneBaseInstance (db_file : list byte) (buffer_pool_size replacer_k : nat) : Catalog (BufferPoolManager DiskManager (list byte)) :=
  Catalog_new (BufferPoolManager_new buffer_pool_size (DiskManager_new db_file) replacer_k).

Section sessions.
Context {St S : Type} `{PageStore St (list byte)} `{IterOrder} `{NameOrder} `{SqlParser} `{FloatParser} `{FloatFormat} `{SortAlgorithm} `{Socket S}.
Context (moved_first : bool) (rounds fuel : nat).
Abbreviation catalog := (Catalog St).
Abbreviation connection := (Catalog St * S)%type.

(** ** Statements *)

(** Bind, optimize, execute; the optimizer of the shell has no catalog. *)
Definition run_query (has_catalog : bool) (sql : string) : M catalog (Schema * list Tuple) :=
  catalog_ ← gets id;
  plan ← lift (BindQuery moved_first catalog_ sql);
  plan ← lift (Optimize (if has_catalog then Some catalog_ else None) plan);
  result_set ← Execute rounds fuel plan;
  mret (plan_schema plan, result_set).

Definition on_instance {A} (m : M catalog A) : M connection A := zoom fst (fun c s => (c, s.2)) m.
Definition on_socket {A} (m : M S A) : M connection A := zoom snd (fun t s => (s.1, t)) m.

(** ** The server *)
Definition query_body (sql : string) : M catalog string :=
  r ← run_query true sql; lift (result_body r.1 r.2).

Definition HandleQuery (sql : string) : M connection unit :=
  try_catch
    (body ← on_instance (query_body sql);
     on_socket (SendMessage RESULT body);; mret tt)
    (fun e => on_socket (SendMessage ERROR (what e));; mret tt).

(** [running]: what the tests of [g_running] find, one after the other; a signal may
    change it at any time. *)
Fixpoint HandleClient (running : list bool) : M connection unit :=
  match running with
  | [] => lift OutOfFuel
  | false :: _ => mret tt
  | true :: running' =>
    msg ← on_socket RecvMessage;
    match msg with
    | None => mret tt
    | Some (type, data) =>
      if bool_decide (type = QUERY) then HandleQuery data;; HandleClient running'
      else if bool_decide (type = TERMINATE) then mret tt
      else on_socket (SendMessage ERROR "Unknown message type");; HandleClient running'
    end
  end.

(** ** Lines and statements *)
Definition isspace (c : ascii) : bool :=
  let n := N_of_ascii c in (n =? 32)%N || ((9 <=? n)%N && (n <=? 13)%N).

(** [query_buf.back()] and [query_buf.substr(0, size - 1)]; on an empty string the code
    does not come here. *)
Fixpoint back (s : string) : option ascii :=
  match s with "" => None | String c "" => Some c | String _ s' => back s' end.
Fixpoint pop_back (s : string) : string :=
  match s with "" => "" | String _ "" => "" | String c s' => String c (pop_back s') end.

Fixpoint trim_front (s : string) : string :=
  match s with String c s' => if isspace c then trim_front s' else s | "" => "" end.
(** The loop at the back takes a character in each round. *)
Fixpoint trim_back (n : nat) (s : string) : string :=
  match n, back s with
  | Datatypes.S n', Some c => if isspace c then trim_back n' (pop_back s) else s
  | _, _ => s
  end.
Definition trim (s : string) : string := let s := trim_front s in trim_back (String.length s) s.

(** A line that is appended: the statement it completes, if any, and the buffer *)
Definition feed (query_buf line : string) : option string * string :=
  let query_buf := query_buf +:+ line in
  if bool_decide (back query_buf = Some ";"%char) then (Some (trim (pop_back query_buf)), "")
  else (None, query_buf +:+ " ").

(** ** The client *)
Definition client_prompt (query_buf : string) : string := if String.eqb query_buf "" then "onebase=> " else "onebase-> ".
Definition client_help : string :=
  "Commands:" +:+ endl +:+ "  \q          Quit" +:+ endl +:+ "  \?          Show this help" +:+ endl +:+
  "  SQL;        Execute a SQL statement" +:+ endl +:+ endl.

(** What the client prints for an answer *)
Definition show_answer (msg_type : MessageType) (msg_data : string) : string :=
  if bool_decide (msg_type = RESULT) then PrintResult msg_data
  else if bool_decide (msg_type = ERROR) then "ERROR: " +:+ msg_data +:+ endl
  else if bool_decide (msg_type = COMMAND_COMPLETE) then msg_data +:+ endl
  else "Unexpected response from server." +:+ endl.

Definition connection_lost : string := "Connection lost." +:+ endl.

(** A query and its answer; [None] when the connection is lost *)
Definition exchange (query : string) : M S (option string) :=
  ok ← SendMessage QUERY query;
  if negb ok then mret None
  else
    msg ← RecvMessage;
    mret match msg with Some (msg_type, msg_data) => Some (show_answer msg_type msg_data) | None => None end.

Fixpoint client_loop (lines : list string) (query_buf : string) (out : list string) : M S (list string) :=
  let out := out ++ [client_prompt query_buf] in
  match lines with
  | [] => mret out
  | line :: lines' =>
    if String.eqb line "\q" || String.eqb line "quit" || String.eqb line "exit" then SendMessage TERMINATE "";; mret out
    else if String.eqb line "\?" || String.eqb line "help" then client_loop lines' query_buf (out ++ [client_help])
    else if String.eqb line "" then client_loop lines' query_buf out
    else
      match feed query_buf line with
      | (None, query_buf) => client_loop lines' query_buf out
      | (Some "", query_buf) => client_loop lines' query_buf out
      | (Some query, query_buf) =>
        answer ← exchange query;
        match answer with
        | None => mret (out ++ [connection_lost])
        | Some text => client_loop lines' query_buf (out ++ [text])
        end
      end
  end.

(** ** The shell *)
Definition ExecuteSQL (sql : string) : M catalog string :=
  try_catch
    (r ← run_query false sql; lift (PrintResultTable r.1 r.2))
    (fun e => mret ("ERROR: " +:+ what e +:+ endl)).

Definition shell_prompt (query_buf : string) : string := if String.eqb query_buf "" then "onebase> " else "     -> ".
Definition shell_help : string :=
  "Commands:" +:+ endl +:+ "  help / \h     Show this help" +:+ endl +:+ "  tables / \dt  List all tables" +:+ endl +:+
  "  quit / \q     Exit the shell" +:+ endl +:+ endl +:+ "Enter SQL statements terminated by a semicolon (;)." +:+ endl +:+
  "Supported: SELECT, INSERT, UPDATE, DELETE" +:+ endl +:+ endl.

(** [std::left << std::setw(20) << s] *)
Definition padded (s : string) : string := s +:+ string_of_char (20 - String.length s) " "%char.
Definition table_line (info : TableInfo) : string := padded (table_name info) +:+ Schema_ToString (schema_ info) +:+ endl.
Definition list_tables (c : catalog) : string :=
  match GetAllTables c with
  | [] => "No tables." +:+ endl
  | tables =>
    padded "Name" +:+ "Schema" +:+ endl +:+ string_of_char 60 "-"%char +:+ endl +:+ String.concat "" (map table_line tables)
  end.

Fixpoint shell_loop (lines : list string) (query_buf : string) (out : list string) : M catalog (list string) :=
  let out := out ++ [shell_prompt query_buf] in
  match lines with
  | [] => mret out
  | line :: lines' =>
    let meta := String.eqb query_buf "" in
    if String.eqb line "" then shell_loop lines' query_buf out
    else if meta && (String.eqb line "quit" || String.eqb line "exit" || String.eqb line "\q") then mret (out ++ ["Bye!" +:+ endl])
    else if meta && (String.eqb line "help" || String.eqb line "\h" || String.eqb line "\?") then shell_loop lines' query_buf (out ++ [shell_help])
    else if meta && (String.eqb line "tables" || String.eqb line "\dt") then
      c ← gets id; shell_loop lines' query_buf (out ++ [list_tables c])
    else
      match feed query_buf line with
      | (None, query_buf) => shell_loop lines' query_buf out
      | (Some "", query_buf) => shell_loop lines' query_buf out
      | (Some query, query_buf) => text ← ExecuteSQL query; shell_loop lines' query_buf (out ++ [text])
      end
  end.
End sessions.
