(* ===== verification/ServerSpec.v ===== *)
(** * From the bytes of a query to the bytes of its answer

    The server as a whole: what a client sends is cut into messages, parsed, bound,
    optimized and executed over pages, and the text of the result goes back.  Over a
    database whose tables and indexes are in order, a SELECT statement of the covered
    forms is answered with the table that SQL says it has, a DELETE or an UPDATE on a
    table without indexes with the number of rows that it took out or changed, and the
    statements behind it see what it left. *)
From stdpp Require Import pretty.
From coqutil Require Import Byte.
From S2P Require Import Prelude Interfaces DiskManager LRUKReplacer BufferPool BufferPoolSpec Value Tuple TableHeap HeapChange Catalog CatalogSpec Expression Plan Executor QuerySemantics ExecutorSpec Optimizer RowSource ChangeSpec Protocol ResultText Binder SqlSemantics BinderSpec Server.

#[local] Open Scope Z_scope.
#[local] Coercion Z.of_nat : nat >-> Z.

(** ** The text of a result *)
Definition sql_text `{FloatFormat} (columns : list string) (rows : list Tuple) : string :=
  body_rows (map (fun t => map (fun i => ToString (GetValue t i)) (seq 0 (length columns))) rows) (FormatResultHeader columns +:+ endl) +:+
  row_count (length rows).

Lemma header_from_names schema : ∀ n i, (i + n)%nat = length (columns_ schema) → header_from n i schema = Ret (drop i (names schema)).
Proof.
  induction n as [|n IH]; intros i Hn; cbn [header_from]; [unfold names; by rewrite drop_ge by (rewrite length_map; lia)|].
  destruct (lookup_lt_is_Some_2 (columns_ schema) i) as [c Hc]; [lia|]. unfold GetColumn. rewrite Hc. cbn [deref mbind outcome_bind].
  rewrite IH by lia. cbn [mbind outcome_bind]. rewrite (drop_S (names schema) (name_ c) i); [done|]. unfold names. by rewrite list_lookup_fmap, Hc.
Qed.

Lemma small_names schema : small schema ↔ length (names schema) < 2 ^ 32.
Proof.
  unfold small, names, GetColumnCount. rewrite length_map. split; [intros <-; apply wrapu_range; lia|]. intros Hlen. apply wrapu_small. lia.
Qed.

Lemma result_body_text `{FloatFormat} schema rows : length (names schema) < 2 ^ 32 → result_body schema rows = Ret (sql_text (names schema) rows).
Proof.
  intros Hs%small_names. assert (Z.to_nat (GetColumnCount schema) = length (names schema)) as Hlen by (rewrite Hs; unfold names; rewrite length_map; lia).
  unfold result_body, column_names, sql_text, row_strings. rewrite Hlen, (header_from_names schema) by (unfold names; by rewrite length_map).
  by rewrite drop_0.
Qed.

(** ** Limits of optimized plans *)
Section plain.
Context {St : Type} `{NameOrder}.
Context (c : option (Catalog St)).

Lemma scan_rule_plain plan plan' : OptimizeSeqScanToIndexScan c plan = Ret plan' → plain_plan plan → plain_plan plan'.
Proof.
  unfold OptimizeSeqScanToIndexScan. intros Hr Hl.
  repeat (case_match; try (injection Hr as <-; done)). outcome_inv. by destruct r0; injection Hr as <-.
Qed.

Lemma join_rule_plain plan : plain_plan plan → plain_plan (OptimizeNLJToHashJoin plan).
Proof.
  unfold OptimizeNLJToHashJoin. intros Hl. repeat (case_match; try exact Hl).
Qed.

Lemma rules_plain plan plan' : apply_rules c plan = Ret plan' → plain_plan plan → plain_plan plan'.
Proof. unfold apply_rules. intros Hr Hl. outcome_inv. apply join_rule_plain. by eapply scan_rule_plain. Qed.

Lemma Optimize_plain plan : ∀ plan', Optimize c plan = Ret plan' → plain_plan plan → plain_plan plan'.
Proof.
  induction plan; intros plan' Ho Hl; cbn [Optimize] in Ho; [done|..]; outcome_inv;
    (eapply rules_plain; [eassumption|]); cbn [SetChildAt plain_plan] in *; intuition eauto.
Qed.
End plain.

Section answers.
Context {St : Type} `{PageStoreSpec St (list byte)} `{IterOrder} `{NameOrder} `{SqlParser} `{FloatParser} `{FloatFormat} `{SortAlgorithm}.
Context (Hbytes : ∀ d, ps_ok d ↔ Z.of_nat (length d) = ONEBASE_PAGE_SIZE).
Context (moved_first : bool) (fuel : nat) (T : gmap string TableInfo) (I : gmap (string * string) IndexInfo).
(** What is on the pages: the rows of each table, by its number, and how many bytes of
    each page can be counted on. *)
Record contents := mkContents { db_rows : Z → option (list (RID * list byte)); db_free : Z → Z }.
Implicit Types (d : contents).

Definition stored d (c : Catalog St) : Prop :=
  ∃ a H', ps_rep (bpm_ c) a ∧ stores fuel a c H' ∧ (∀ oid, rows_of H' oid = db_rows d oid) ∧ ∀ id, db_free d id ≤ free_in a id.

(** The catalog is in order, the rows fit the tables, and the indexes hold them. *)
Record consistent d (c : Catalog St) : Prop := {
  db_catalog : catalog_rep c T I;
  db_tables : tables_ok c T I (db_rows d);
}.
(** A database at rest *)
Definition database_ok d (c : Catalog St) : Prop := consistent d c ∧ stored d c.

Lemma consistent_heap d c s : consistent d c → consistent d (set_bpm s c).
Proof using. intros [Hc Ht]. split; [by apply catalog_rep_heap|exact Ht]. Qed.

(** One table has other rows; [spent] bytes of each page are used up. *)
Definition with_rows d (oid : Z) (rows : list (RID * list byte)) (spent : Z → Z) : contents :=
  mkContents (fun oid' => if decide (oid' = oid) then Some rows else db_rows d oid') (fun id => db_free d id - spent id).

(** The rows have the columns of the table. *)
Definition rows_typed (info : TableInfo) (rows : list (RID * list byte)) : Prop := Forall (fun x => tuple_typed (stored_tuple x) (schema_ info)) rows.
(** The new bytes of the rows fit into what is free on their pages. *)
Definition room_for (revisions : list (RID * list byte)) d : Prop :=
  Forall (fun r => needed (page_id_of r.1) revisions ≤ db_free d (page_id_of r.1)) revisions.

(** A statement, its answer, and what it leaves *)
Inductive answer (c : Catalog St) d : string → MessageType * string → contents → Prop :=
  | answer_select sql targetList fromClause whereClause sortClause limitCount rest sources rows :
      Parse sql = inr (PGRawStmt (PGSelectStmt targetList fromClause whereClause [] [] sortClause limitCount [] PGnull PGnull []) :: rest) →
      select_ok T targetList fromClause whereClause sortClause limitCount = true → plannable T fromClause whereClause = true →
      from_sources T fromClause = Some sources → length (sql_names targetList sources) < 2 ^ 32 →
      sql_select T (db_rows d) targetList fromClause whereClause sortClause limitCount = Ret rows →
      answer c d sql (RESULT, sql_text (sql_names targetList sources) rows.*1) d
  | answer_delete sql name info whereClause rest n rows :
      Parse sql = inr (PGRawStmt (PGDeleteStmt (PGRangeVar (Some name) None []) whereClause []) :: rest) →
      T !! name = Some info → delete_ok name info whereClause = true → (∀ index, I !! (index, name) = None) →
      sql_delete (db_rows d) name info whereClause = Ret (n, rows) → n ≤ INT32_MAX →
      answer c d sql (RESULT, sql_text ["count"] [count_tuple n]) (with_rows d (table_oid info) rows (fun _ => 0))
  | answer_update sql name info targetList whereClause rest n revisions rows :
      Parse sql = inr (PGRawStmt (PGUpdateStmt (PGRangeVar (Some name) None []) targetList whereClause []) :: rest) →
      T !! name = Some info → update_ok name info targetList whereClause = true → (∀ index, I !! (index, name) = None) →
      sql_update (db_rows d) name info targetList whereClause = Ret (n, revisions, rows) → n ≤ INT32_MAX →
      room_for revisions d → rows_typed info rows →
      answer c d sql (RESULT, sql_text ["count"] [count_tuple n]) (with_rows d (table_oid info) rows (fun id => needed id revisions))
  | answer_error sql e : BindQuery moved_first c sql = Throw e → answer c d sql (ERROR, what e) d.

(** The statements of a client, one after the other *)
Inductive session (c : Catalog St) : contents → list string → list (MessageType * string) → contents → Prop :=
  | session_end d : session c d [] [] d
  | session_next d sql reply d1 sqls replies d2 :
      answer c d sql reply d1 → session c d1 sqls replies d2 → session c d (sql :: sqls) (reply :: replies) d2.

(** The binder and the optimizer do not look at pages. *)
Lemma BindQuery_heap (c : Catalog St) s sql : BindQuery moved_first (set_bpm s c) sql = BindQuery moved_first c sql.
Proof using. reflexivity. Qed.
Lemma get_infos_heap (c : Catalog St) s l : get_infos l (set_bpm s c) = get_infos l c.
Proof using. induction l as [|[name oid] l IH]; cbn [get_infos]; [done|]. by rewrite IH. Qed.
Lemma rules_heap (c : Catalog St) s plan : apply_rules (Some (set_bpm s c)) plan = apply_rules (Some c) plan.
Proof using.
  unfold apply_rules, OptimizeSeqScanToIndexScan. destruct plan as [|schema oid predicate| | | | | | | | | | |]; try reflexivity.
  destruct predicate as [| | |lhs rhs []| |]; try reflexivity. destruct (lookup_column lhs rhs) as [[]|]; [|reflexivity].
  change (GetTable oid (set_bpm s c)) with (GetTable oid c). destruct (GetTable oid c) as [info|]; [|reflexivity].
  assert (GetTableIndexes (table_name info) (set_bpm s c) = GetTableIndexes (table_name info) c) as ->; [|reflexivity].
  unfold GetTableIndexes. cbn [index_names_ set_bpm]. by case_match; rewrite ?get_infos_heap.
Qed.
Lemma Optimize_heap (c : Catalog St) s plan : Optimize (Some (set_bpm s c)) plan = Optimize (Some c) plan.
Proof using. induction plan; cbn [Optimize]; rewrite ?IHplan, ?IHplan1, ?IHplan2; try done; by rewrite ?rules_heap.
Qed.

(** Table numbers tell the tables apart. *)
Lemma table_by_oid (c : Catalog St) name name' info info' : catalog_rep c T I → T !! name = Some info → T !! name' = Some info' →
  table_oid info = table_oid info' → name = name' ∧ info = info'.
Proof using.
  intros Hc Hn Hn' Hoid. destruct (rep_table_name _ _ _ Hc _ _ Hn) as [E _], (rep_table_name _ _ _ Hc _ _ Hn') as [E' _].
  assert (tables_ c !! table_oid info = Some info) as Ht by (apply (rep_tables _ _ _ Hc); by rewrite E).
  assert (tables_ c !! table_oid info' = Some info') as Ht' by (apply (rep_tables _ _ _ Hc); by rewrite E').
  rewrite Hoid, Ht' in Ht. injection Ht as <-. by rewrite <-E, <-E'.
Qed.

(** A table without indexes may have other rows of its columns. *)
Lemma tables_ok_with (c : Catalog St) d name info rows spent : catalog_rep c T I → T !! name = Some info → (∀ index, I !! (index, name) = None) →
  NoDup rows.*1 → rows_typed info rows → tables_ok c T I (db_rows d) → tables_ok c T I (db_rows (with_rows d (table_oid info) rows spent)).
Proof using.
  intros Hc Hn Hnone Hnd Htyped Htables name' info' Hn'. destruct (Htables name' info' Hn') as (Htype & i & l & Hi & Hl & Hrest).
  split; [done|]. cbn [with_rows db_rows]. destruct (decide (table_oid info' = table_oid info)) as [Heq|Hne]; [|by exists i, l].
  destruct (table_by_oid c name' name info' info Hc Hn' Hn Heq) as [-> ->].
  assert (tables_ c !! table_oid info = Some info) as Ht by (apply (rep_tables _ _ _ Hc); by destruct (rep_table_name _ _ _ Hc _ _ Hn) as [-> _]).
  exists info, rows. split_and!; [exact Ht|done|done|done|].
  intros index j Hj. destruct (rep_table_name _ _ _ Hc _ _ Hn) as [E _]. rewrite E, Hnone in Hj. done.
Qed.

(** The rows of a table have identifiers of their own and its columns. *)
Lemma table_rows_ok (c : Catalog St) d name info rows : T !! name = Some info → tables_ok c T I (db_rows d) →
  db_rows d (table_oid info) = Some rows → NoDup rows.*1 ∧ rows_typed info rows.
Proof using.
  intros Hn Htables Hrows. destruct (Htables name info Hn) as (_ & i & l & Hi & Hl & Hnd & Htyped & _).
  rewrite Hrows in Hl. injection Hl as <-. by split.
Qed.

Lemma table_found (c : Catalog St) name info : catalog_rep c T I → T !! name = Some info → GetTable (table_oid info) c = Some info.
Proof using. intros Hc Hn. apply (rep_tables _ _ _ Hc). by destruct (rep_table_name _ _ _ Hc _ _ Hn) as [-> _]. Qed.

Lemma no_indexes (c : Catalog St) name info : catalog_rep c T I → T !! name = Some info → (∀ index, I !! (index, name) = None) →
  GetTableIndexes (table_name info) c = Ret [].
Proof using.
  intros Hc Hn Hnone. destruct (rep_table_name _ _ _ Hc _ _ Hn) as [Ename _].
  destruct (GetTableIndexes_rep c T I (table_name info) Hc) as (infos & -> & Hin). f_equal. destruct infos as [|j infos]; [done|exfalso].
  assert (I !! (index_name j, table_name info) = Some j) as Hj by (apply Hin; by left). by rewrite Ename, Hnone in Hj.
Qed.

(** Running a statement, from any pages on which the rows lie *)
Definition query_answered d (c : Catalog St) sql body d' : Prop :=
  ∃ n, ∀ rounds s, (n ≤ rounds)%nat → stored d (set_bpm s c) →
    wp (query_body moved_first rounds fuel sql) (set_bpm s c) (fun b c' => b = body ∧ ∃ s', c' = set_bpm s' c ∧ stored d' c').

Lemma select_answered c d sql targetList fromClause whereClause sortClause limitCount rest sources rows :
  consistent d c →
  Parse sql = inr (PGRawStmt (PGSelectStmt targetList fromClause whereClause [] [] sortClause limitCount [] PGnull PGnull []) :: rest) →
  select_ok T targetList fromClause whereClause sortClause limitCount = true → plannable T fromClause whereClause = true →
  from_sources T fromClause = Some sources → length (sql_names targetList sources) < 2 ^ 32 →
  sql_select T (db_rows d) targetList fromClause whereClause sortClause limitCount = Ret rows →
  query_answered d c sql (sql_text (sql_names targetList sources) rows.*1) d.
Proof using.
  intros [Hc Ht] Hparse Hok Hplan Hsources Hlen Hrows.
  destruct (select_binds moved_first c T I Hc (db_rows d) (fun oid => GetIndex oid c) _ _ _ _ _ Hok) as (sources' & plan & Hs & Hb & Hn & Hd & Hpok & Hlim).
  assert (sources' = sources) as -> by congruence.
  destruct (Optimize_same_meaning c T I Hc (db_rows d) plan (Hpok Ht Hplan)) as (plan' & Hopt & Hschema & Hsame).
  assert (denote (db_rows d) (fun oid => GetIndex oid c) plan' = Ret rows) as Hden by (by rewrite Hsame, Hd).
  destruct (Execute_denotes c fuel (db_rows d) plan' rows (plain_limits _ (Optimize_plain _ _ _ Hopt Hlim)) (plain_aggregates _ _ _ (Optimize_plain _ _ _ Hopt Hlim)) Hden) as [n Hexec].
  assert (BindQuery moved_first c sql = Ret plan) as Hbind by (unfold BindQuery; by rewrite Hparse).
  exists n. intros rounds s Hrounds (a & H' & Hps & Hst & Htable & Hfree). unfold query_body, run_query. wp_steps. unfold id. rewrite BindQuery_heap, Hbind. wp_steps.
  rewrite Optimize_heap, Hopt. wp_steps.
  eapply wp_mono; [apply (Hexec a); [|done|exact Hps]|].
  { intros oid l Hl. rewrite <-Htable in Hl. exact (stores_database fuel a (set_bpm s c) H' Hst oid l Hl). }
  intros tuples c' (-> & Hp' & Hc'). wp_steps. cbn [fst snd].
  assert (names (plan_schema plan') = sql_names targetList sources) as Hnames by by rewrite Hschema.
  rewrite result_body_text, Hnames by by rewrite Hnames. wp_step. split; [done|]. exists (bpm_ c'). split; [exact Hc'|].
  exists a, H'. split_and!; [exact Hp'| |exact Htable|exact Hfree]. rewrite Hc'. destruct Hst as [Hst1 Hst2]. split; [exact Hst1|exact Hst2].
Qed.

(** A statement that changes one table *)
Lemma change_answered c d sql plan0 plan oid l selected rows spent :
  BindQuery moved_first c sql = Ret plan0 → Optimize (Some c) plan0 = Ret plan → plan_schema plan = CountSchema → db_rows d oid = Some l →
  (∀ rounds a s H' h, (2 + length l ≤ rounds)%nat → ps_rep (bpm_ (set_bpm s c)) a → stores fuel a (set_bpm s c) H' → H' !! oid = Some h →
    live_pages h = l → (∀ id, db_free d id ≤ free_in a id) →
    wp (Execute rounds fuel plan) (set_bpm s c) (changed fuel a (set_bpm s c) H' oid selected rows spent)) →
  query_answered d c sql (sql_text ["count"] [count_tuple (length selected)]) (with_rows d oid rows spent).
Proof using.
  intros Hbind Hopt Hschema Hl Hexec. exists (2 + length l)%nat. intros rounds s Hrounds (a & H' & Hps & Hst & Htable & Hfree).
  unfold query_body, run_query. wp_steps. unfold id. rewrite BindQuery_heap, Hbind. wp_steps. rewrite Optimize_heap, Hopt. wp_steps.
  pose proof (Htable oid) as Hheap. rewrite Hl in Hheap. apply fmap_Some in Hheap as (h & Hh & Hlive).
  eapply wp_mono; [by apply (Hexec rounds a s H' h Hrounds Hps Hst Hh)|].
  intros ts c' (-> & a' & Hafter & Hps' & Hc' & Hst' & Hnow & Hspent). wp_steps. cbn [fst snd]. rewrite Hschema.
  rewrite result_body_text by by vm_compute. wp_step. split; [done|]. exists (bpm_ c'). split; [exact Hc'|].
  exists a', Hafter. split_and!; [exact Hps'|exact Hst'| |].
  - intros oid'. rewrite (Hnow oid'). cbn [with_rows db_rows]. case_decide; [done|apply Htable].
  - intros id'. rewrite Hspent. cbn [with_rows db_free]. specialize (Hfree id'). lia.
Qed.

Lemma delete_answered c d sql name info whereClause rest n rows :
  consistent d c →
  Parse sql = inr (PGRawStmt (PGDeleteStmt (PGRangeVar (Some name) None []) whereClause []) :: rest) →
  T !! name = Some info → delete_ok name info whereClause = true → (∀ index, I !! (index, name) = None) →
  sql_delete (db_rows d) name info whereClause = Ret (n, rows) → n ≤ INT32_MAX →
  query_answered d c sql (sql_text ["count"] [count_tuple n]) (with_rows d (table_oid info) rows (fun _ => 0)) ∧
  consistent (with_rows d (table_oid info) rows (fun _ => 0)) c.
Proof using Hbytes.
  intros [Hc Ht] Hparse Hname Hok Hnone Hdel Hn.
  destruct (delete_binds moved_first c T I Hc (db_rows d) name None info whereClause Hname Hok) as (e & Hb & Htest & Hscan).
  unfold sql_delete in Hdel. destruct (db_rows d (table_oid info)) as [l|] eqn:Hl; [|done]. cbn [deref mbind outcome_bind] in Hdel.
  apply outcome_bind_Ret in Hdel as (selected & Hsel & [= <- <-]).
  assert (choose_rows (select_row (schema_ info) e) l = Ret selected) as Hselect.
  { rewrite <-Hsel. unfold table_rows. rewrite Hl. cbn [deref mbind outcome_bind]. apply choose_rows_ext. intros x. unfold select_row. by rewrite Htest. }
  destruct (scan_rule_finds c T I Hc (db_rows d) _ _ _ (Hscan Ht)) as (l' & scan & Hl' & Happly & Hfinds).
  assert (l' = l) as -> by congruence. destruct (table_rows_ok c d name info l Hname Ht Hl) as [Hnd Htyped].
  split.
  - eapply (change_answered c d sql _ (DeletePlanNode CountSchema scan (table_oid info)) _ l); [unfold BindQuery; by rewrite Hparse|cbn [Optimize]; by rewrite Happly|done|done|].
    intros rounds a s H' h Hrounds Hps Hst Hh <- _.
    eapply (delete_scan_wp Hbytes fuel a (set_bpm s c) H' (table_oid info) info h Hps Hst Hh (table_found c name info Hc Hname) (schema_ info) e scan CountSchema [] selected);
      [exact Hfinds|rewrite GetTableIndexes_pages; by eapply no_indexes|exact Hselect|exact Hn|by apply changed_filter|exact Hrounds].
  - split; [done|]. eapply tables_ok_with; try done; [eapply sublist_NoDup; [exact Hnd|]; apply fmap_sublist, sublist_filter|].
    unfold rows_typed in *. rewrite Forall_forall in Htyped |- *. intros x [_ Hx]%list_elem_of_filter. by apply Htyped.
Qed.

Lemma update_answered c d sql name info targetList whereClause rest n revisions rows :
  consistent d c →
  Parse sql = inr (PGRawStmt (PGUpdateStmt (PGRangeVar (Some name) None []) targetList whereClause []) :: rest) →
  T !! name = Some info → update_ok name info targetList whereClause = true → (∀ index, I !! (index, name) = None) →
  sql_update (db_rows d) name info targetList whereClause = Ret (n, revisions, rows) → n ≤ INT32_MAX →
  room_for revisions d → rows_typed info rows →
  query_answered d c sql (sql_text ["count"] [count_tuple n]) (with_rows d (table_oid info) rows (fun id => needed id revisions)) ∧
  consistent (with_rows d (table_oid info) rows (fun id => needed id revisions)) c.
Proof using Hbytes.
  intros [Hc Ht] Hparse Hname Hok Hnone Hupd Hn Hroom Hnew.
  destruct (update_binds moved_first c T I Hc (db_rows d) name None info targetList whereClause Hname Hok) as (e & exprs & Hb & Hexprs & Heval & Htest & Hscan).
  unfold sql_update in Hupd. destruct (db_rows d (table_oid info)) as [l|] eqn:Hl; [|done]. cbn [deref mbind outcome_bind] in Hupd.
  apply outcome_bind_Ret in Hupd as (selected & Hsel & Hupd). apply outcome_bind_Ret in Hupd as (revisions' & Hrevs & [= <- -> <-]).
  assert (choose_rows (select_row (schema_ info) e) l = Ret selected) as Hselect.
  { rewrite <-Hsel. unfold table_rows. rewrite Hl. cbn [deref mbind outcome_bind]. apply choose_rows_ext. intros x. unfold select_row. by rewrite Htest. }
  assert (map_rows (revision (updated info exprs)) selected = Ret revisions) as Hrevise.
  { rewrite <-Hrevs. apply map_rows_ext. intros x. unfold revision, updated. rewrite Heval. destruct x.2; [|done]. cbn [deref mbind outcome_bind].
    destruct (sql_new_values _ _ _); [|done..]. cbn [mbind outcome_bind]. by destruct (Tuple_new _). }
  destruct (scan_rule_finds c T I Hc (db_rows d) _ _ _ (Hscan Ht)) as (l' & scan & Hl' & Happly & Hfinds).
  assert (l' = l) as -> by congruence. destruct (table_rows_ok c d name info l Hname Ht Hl) as [Hnd Htyped].
  split.
  - eapply (change_answered c d sql _ (UpdatePlanNode CountSchema scan (table_oid info) exprs) _ l); [unfold BindQuery; by rewrite Hparse|cbn [Optimize]; by rewrite Happly|done|done|].
    intros rounds a s H' h Hrounds Hps Hst Hh <- Hfree.
    eapply (update_scan_wp Hbytes fuel a (set_bpm s c) H' (table_oid info) info h Hps Hst Hh (table_found c name info Hc Hname) (schema_ info) e scan CountSchema exprs selected revisions);
      [exact Hfinds|exact Hexprs|exact Hselect|exact Hn|exact Hrevise| | |exact Hrounds].
    + eapply Forall_impl; [exact Hroom|]. intros x Hx. cbn beta in Hx. specialize (Hfree (page_id_of x.1)). lia.
    + eapply changed_replaced; [done|exact Hselect|exact Hrevise|by eapply updated_nonempty].
  - split; [done|]. eapply tables_ok_with; try done. rewrite <-list_fmap_compose. by erewrite list_fmap_ext.
Qed.

Lemma answer_result c d sql body d' : consistent d c → answer c d sql (RESULT, body) d' →
  query_answered d c sql body d' ∧ consistent d' c.
Proof using Hbytes.
  intros Hdb Hans. inversion Hans; subst; [|by eapply delete_answered|by eapply update_answered].
  split; [by eapply select_answered|done].
Qed.

(** ** Sessions *)

Lemma try_catch_wp {X A} (m : M X A) handler s Q : wp m s Q → wp (try_catch m handler) s Q.
Proof using. unfold wp, try_catch. by destruct (m s) as [[]]. Qed.

Context {S : Type} `{SocketSpec S}.

(** A connection at rest, after [out] was sent *)
Definition connected (c : Catalog St) (s0 : S) d (rest out : list byte) (st : Catalog St * S) : Prop :=
  (∃ s, st.1 = set_bpm s c) ∧ database_ok d st.1 ∧ healthy st.2 ∧ incoming st.2 = rest ∧ sent st.2 = sent s0 ++ out.

Lemma send_answer c s0 d rest out c' s type data : connected c s0 d rest out (c', s) → sendable (type, data) →
  wp (on_socket (SendMessage type data);; mret tt) (c', s) (fun _ st => connected c s0 d rest (out ++ frame type data) st).
Proof using.
  intros (Hc & Hdb & Hs & Hin & Hout) Hsend. cbn in *. wp_step. unfold on_socket. wp_step. eapply wp_mono; [by apply SendMessage_wp|].
  cbn [snd]. intros ok s' (_ & Hsent & Hin' & Hs'). wp_step. split_and!; cbn; [done|done|done|congruence|]. by rewrite Hsent, Hout, app_assoc.
Qed.

Lemma HandleQuery_answered c s0 d sql reply d' : consistent d c → answer c d sql reply d' → sendable reply →
  consistent d' c ∧
  ∃ n, ∀ rounds rest out st, (n ≤ rounds)%nat → connected c s0 d rest out st →
    wp (HandleQuery moved_first rounds fuel sql) st (fun _ => connected c s0 d' rest (out ++ frame reply.1 reply.2)).
Proof using Hbytes.
  intros Hc Hans Hsend. destruct reply as [type data]. destruct (decide (type = RESULT)) as [->|Hne].
  - destruct (answer_result c d sql data d' Hc Hans) as [[n Hn] Hc']. split; [done|].
    exists n. intros rounds rest out [c' s] Hrounds ((pool & Hpool) & Hdb & Hs & Hin & Hout).
    cbn in *. subst c'. unfold HandleQuery. apply try_catch_wp. wp_step. unfold on_instance. wp_step.
    eapply wp_mono; [apply Hn; [done|apply Hdb]|]. intros body c1 (-> & s1 & -> & Hs1).
    apply send_answer; [|done]. split_and!; cbn; try done; [by exists s1|]. split; [by apply consistent_heap|exact Hs1].
  - inversion Hans as [| | |? e He]; subst; [done|done|done|]. split; [done|]. exists 0%nat. intros rounds rest out [c' s] _ Hcon.
    pose proof Hcon as ((pool & Hpool) & _). cbn in Hpool. subst c'. rewrite <-(BindQuery_heap c pool) in He.
    assert (∀ {A} (k : string → M (Catalog St * S) A), (on_instance (query_body moved_first rounds fuel sql) ≫= k) (set_bpm pool c, s) = (Throw e, (set_bpm pool c, s))) as Hthrow.
    { intros A k. unfold query_body, run_query, on_instance. m_unfold. unfold id. cbn [fst]. by rewrite He. }
    unfold HandleQuery, try_catch, wp. rewrite Hthrow. by apply send_answer.
Qed.

(** The queries of a client *)
Definition queries (sqls : list string) : list (MessageType * string) := map (fun sql => (QUERY, sql)) sqls.
Definition farewell : list (MessageType * string) := [(TERMINATE, "")].

Lemma receive_query c s0 d type data msgs out st : connected c s0 d (frames ((type, data) :: msgs)) out st → sendable (type, data) →
  wp (on_socket RecvMessage) st (fun o st' => o = Some (type, data) ∧ connected c s0 d (frames msgs) out st').
Proof using.
  destruct st as [c' s]. intros (Hc & Hdb & Hs & Hin & Hout) Hsend. cbn in Hc, Hdb, Hs, Hin, Hout. unfold on_socket. wp_step.
  eapply wp_mono; [by apply RecvMessage_wp|]. cbn [snd]. intros o s' (Hsent & Hs' & Ho).
  rewrite Hin in Ho. unfold frames in Ho. cbn [map List.concat fst snd] in Ho. rewrite parse_frame_frame in Ho by done. destruct Ho as [-> Hin'].
  split; [done|]. split_and!; cbn; try done. congruence.
Qed.

Lemma HandleClient_answered c s0 d sqls replies d' : consistent d c →
  session c d sqls replies d' → Forall sendable (queries sqls) → Forall sendable replies →
  ∃ n, ∀ rounds out st, (n ≤ rounds)%nat → connected c s0 d (frames (queries sqls ++ farewell)) out st →
    wp (HandleClient moved_first rounds fuel (replicate (Datatypes.S (length sqls)) true)) st (fun _ => connected c s0 d' [] (out ++ frames replies)).
Proof using Hbytes.
  intros Hc Hsession. revert Hc. induction Hsession as [d|d sql reply d1 sqls replies d2 Hans _ IH]; intros Hc Hq Hr.
  - exists 0%nat. intros rounds out st _ Hcon. cbn [length replicate HandleClient]. wp_step. eapply wp_mono; [by apply (receive_query c s0 d TERMINATE "" [])|].
    intros o st' (-> & Hcon'). rewrite bool_decide_false, bool_decide_true by done. wp_step. by rewrite app_nil_r.
  - apply Forall_cons in Hq as [Hq0 Hq], Hr as [Hr0 Hr].
    destruct (HandleQuery_answered c s0 d sql reply d1 Hc Hans Hr0) as (Hc1 & n1 & Hn1). destruct (IH Hc1 Hq Hr) as [n2 Hn2].
    exists (n1 `max` n2)%nat. intros rounds out st Hrounds Hcon. cbn [length replicate]. cbn [HandleClient]. wp_step.
    eapply wp_mono; [by apply (receive_query c s0 d QUERY sql (queries sqls ++ farewell))|]. intros o st1 (-> & Hcon1).
    rewrite bool_decide_true by done. wp_step. eapply wp_mono; [apply (Hn1 rounds (frames (queries sqls ++ farewell)) out); [lia|exact Hcon1]|]. intros [] st2 Hcon2.
    eapply wp_mono; [apply (Hn2 rounds (out ++ frame reply.1 reply.2)); [lia|exact Hcon2]|]. intros [] st3 Hcon3.
    unfold frames. cbn [map List.concat]. by rewrite app_assoc.
Qed.
End answers.

(** C7: the server answers covered statements with what they mean in SQL.  Over a
    database whose catalog, pages, tables and indexes fit together, for a client that
    sends any number of the statements below and then ends: [HandleClient] returns, and
    has sent one message per statement, in order.

    - A SELECT of the form of [select_ok] and [plannable] (see [select_means_sql]: one
      table or an inner join of two with ON, WHERE, ORDER BY and LIMIT, columns of the first table in the
      list and in ORDER BY; no grouping, DISTINCT, HAVING or OFFSET), whose evaluation
      does not fail, gets the text of the rows that SQL says it has at that time.
    - A DELETE on a table without indexes gets the number of rows that its condition
      selects, and the statements behind it find the others.
    - An UPDATE on a table without indexes gets this number too, if the new rows have the
      types of the columns and fit into the bytes that the statements before it have left
      on their pages, and the statements behind it find the new values.
    - A query that the binder refuses gets the text of the error.

    Other statements (INSERT, CREATE, DROP, DML on a table with indexes, clauses that the
    binder ignores) are not covered.  The type of the message after a DELETE or an UPDATE
    is RESULT, as [HandleQuery] sends it; the comment in [protocol.h] announces
    COMMAND_COMPLETE there, which the server never sends.  In the end the tables have the
    rows that the statements left, and nothing else of the catalog has changed. *)
Theorem server_answers_sql {St S : Type} `{PageStoreSpec St (list byte)} `{SocketSpec S} `{IterOrder} `{NameOrder} `{SqlParser} `{FloatParser} `{FloatFormat}
    `{SortAlgorithm} moved_first fuel T I d (c : Catalog St) (s : S) sqls replies d' :
  (∀ bs, ps_ok bs ↔ Z.of_nat (length bs) = ONEBASE_PAGE_SIZE) →
  database_ok fuel T I d c →
  session moved_first T I c d sqls replies d' → Forall sendable (queries sqls) → Forall sendable replies →
  healthy s → incoming s = frames (queries sqls ++ farewell) →
  ∃ n, ∀ rounds, (n ≤ rounds)%nat →
    wp (HandleClient moved_first rounds fuel (replicate (Datatypes.S (length sqls)) true)) (c, s) (fun _ st =>
      sent st.2 = sent s ++ frames replies ∧ incoming st.2 = [] ∧ database_ok fuel T I d' st.1 ∧ ∃ s', st.1 = set_bpm s' c).
Proof.
  intros Hbytes [Hc Hstored] Hsession Hq Hr Hs Hin. destruct (HandleClient_answered Hbytes moved_first fuel T I c s d sqls replies d' Hc Hsession Hq Hr) as [n Hn].
  exists n. intros rounds Hrounds. eapply wp_mono; [apply (Hn rounds [] (c, s) Hrounds)|].
  - split_and!; cbn; [exists (bpm_ c); by destruct c|done|done|done|by rewrite app_nil_r].
  - by intros [] st (Hpool & Hdb & _ & Hend & Hsent).
Qed.

(** ** A session: an UPDATE and a DELETE, a look at the table before and after each, and
    a table that is not there *)
Definition star_from (name : string) : PGNode :=
  PGSelectStmt [PGResTarget None (PGColumnRef [PGAStar []]) []] [PGRangeVar (Some name) None []] PGnull [] [] [] PGnull [] PGnull PGnull [].
Definition x_ref : PGNode := PGColumnRef [PGValueNode (PGString "x")].
Definition x_op (op : string) (n : Z) : PGNode := PGAExpr PG_AEXPR_OP [PGValueNode (PGString op)] x_ref (PGAConst (PGInteger n)).
(** [UPDATE t SET x = x + 1 WHERE x = 7] and [DELETE FROM t WHERE x = 8] *)
Definition seven_to_eight : PGNode := PGUpdateStmt (PGRangeVar (Some "t") None []) [PGResTarget (Some "x") (x_op "+" 1) []] (x_op "=" 7) [].
Definition eight_gone : PGNode := PGDeleteStmt (PGRangeVar (Some "t") None []) (x_op "=" 8) [].
#[local] Instance demo_parser : SqlParser := fun sql =>
  inr [PGRawStmt (if String.eqb sql "v" then seven_to_eight else if String.eqb sql "d" then eight_gone else star_from sql)].
#[local] Instance no_literals : FloatParser := fun _ => Throw (LogicError "stof").
#[local] Instance no_decimals : FloatFormat := fun _ => "".
#[local] Existing Instance pipe_socket.
#[local] Existing Instance pipe_socket_spec.

Definition one_text (x : string) : string := "x" +:+ endl +:+ x +:+ endl +:+ "(1 row)".
Definition none_text : string := "x" +:+ endl +:+ "(0 rows)".
Definition count_text : string := "count" +:+ endl +:+ "1" +:+ endl +:+ "(1 row)".
Definition demo_session : list string := ["t"; "v"; "t"; "d"; "t"; "u"].
Definition demo_replies : list (MessageType * string) :=
  [(RESULT, one_text "7"); (RESULT, count_text); (RESULT, one_text "8"); (RESULT, count_text); (RESULT, none_text); (ERROR, "Table not found: u")].

Section demo.
Context {St : Type} (c : Catalog St) (first : Z) (rid : RID).
Implicit Types (d : contents).
Abbreviation info := (demo_table first).
Abbreviation T := ({["t" := info]} : gmap string TableInfo).
Definition bytes_of (n : Z) : list byte := LittleEndianList.le_split 4 n.

Lemma star_answered d rows tuples text : db_rows d 1 = Some rows →
  choose_rows (select_row one_column nullptr) rows = Ret tuples → sql_text ["x"] tuples.*1 = text →
  answer true T ∅ c d "t" (RESULT, text) d.
Proof.
  intros Hrows Htuples <-. change ["x"] with (sql_names [PGResTarget None (PGColumnRef [PGAStar []]) []] [("t", info)]).
  eapply answer_select; try done. unfold sql_select. cbn [from_sources]. change (source_of T _) with (Some ("t", info)).
  cbn [mbind option_bind deref outcome_bind from_rows]. unfold table_rows. cbn [snd]. change (table_oid info) with 1. rewrite Hrows.
  cbn [deref mbind outcome_bind sql_order]. change (schema_ info) with one_column.
  change (choose_rows _ rows) with (choose_rows (select_row one_column nullptr) rows). by rewrite Htuples.
Qed.

Lemma eight_deleted d : db_rows d 1 = Some [(rid, bytes_of 8)] → answer true T ∅ c d "d" (RESULT, count_text) (with_rows d 1 [] (fun _ => 0)).
Proof.
  intros Hrows. change count_text with (sql_text ["count"] [count_tuple 1%nat]). change (with_rows d 1) with (with_rows d (table_oid info)).
  eapply (answer_delete true T ∅ c d "d" "t" info); try done. unfold sql_delete, table_rows. change (table_oid info) with 1. rewrite Hrows.
  cbn [deref mbind outcome_bind].
  assert (∀ sel, sel = Ret [(mkTuple rid (bytes_of 8) [Value_int INTEGER 8], Some rid)] →
    (selected ← sel; mret (length selected, filter (fun x => Some x.1 ∉ selected.*2) [(rid, bytes_of 8)])) = Ret (1%nat, [])) as Hgoal.
  { intros sel ->. cbn [mbind outcome_bind fmap list_fmap snd]. rewrite filter_cons, decide_False; [done|]. intros Hn. apply Hn. by left. }
  apply Hgoal. reflexivity.
Qed.

Lemma seven_updated d : db_rows d 1 = Some [(rid, data_ row_seven)] → 4 ≤ db_free d (page_id_of rid) →
  answer true T ∅ c d "v" (RESULT, count_text) (with_rows d 1 [(rid, bytes_of 8)] (fun id => needed id [(rid, bytes_of 8)])).
Proof.
  intros Hrows Hfree. change count_text with (sql_text ["count"] [count_tuple 1%nat]). change (with_rows d 1) with (with_rows d (table_oid info)).
  eapply (answer_update true T ∅ c d "v" "t" info); try done.
  - unfold sql_update, table_rows. change (table_oid info) with 1. rewrite Hrows. cbn [deref mbind outcome_bind].
    assert (∀ revs, revs = Ret [(rid, bytes_of 8)] → (revisions ← revs; mret (1%nat, revisions, map (replaced revisions) [(rid, data_ row_seven)])) =
      Ret (1%nat, [(rid, bytes_of 8)], [(rid, bytes_of 8)])) as Hgoal.
    { intros revs ->. cbn [mbind outcome_bind map]. unfold replaced. cbn [new_bytes fst]. by rewrite bool_decide_true. }
    apply Hgoal. reflexivity.
  - apply Forall_singleton. rewrite needed_cons, decide_True by done. unfold bytes_of. cbn [fst snd needed foldr]. rewrite LittleEndianList.length_le_split. lia.
  - apply Forall_singleton. intros i t. change (schema_ info) with one_column. unfold one_column. rewrite schema_types_new. destruct i as [|i]; [|done].
    intros [= <-]. eexists. split; vm_compute; reflexivity.
Qed.
End demo.

Example server_answers_sql_witness :
  wp (first ← TableHeap_new; os ← insert_all 2 first [row_seven]; mret first) heap_pool (fun first s =>
    ∃ n, wp (HandleClient true n 4 (replicate 7 true)) (demo_catalog first s, mkPipe (frames (queries demo_session ++ farewell)) []) (fun _ st =>
      pipe_out st.2 = frames demo_replies)).
Proof.
  eapply wp_mono; [exact one_row_room|]. intros first s (a & h & Hrep & Hread & Hlive & Hfree). set (rid := mkRID first 0) in *.
  set (d := mkContents (rows_of {[1 := h]}) (free_in a)).
  assert (db_rows d 1 = Some [(rid, data_ row_seven)]) as Ht by (unfold d, rows_of; cbn [db_rows]; by rewrite lookup_singleton_eq, <-Hlive).
  set (T := {["t" := demo_table first]} : gmap string TableInfo).
  set (d1 := with_rows d 1 [(rid, bytes_of 8)] (fun id => needed id [(rid, bytes_of 8)])).
  destruct (server_answers_sql true 4 T ∅ d (demo_catalog first s) (mkPipe (frames (queries demo_session ++ farewell)) []) demo_session demo_replies
    (with_rows d1 1 [] (fun _ => 0)) disk_pages) as [n Hn].
  - split; [split; [by apply demo_catalog_rep|]|].
    + intros name info Hi%lookup_singleton_Some. destruct Hi as [_ <-]. split; [done|].
      exists (demo_table first), [(rid, data_ row_seven)]. split_and!; [done|exact Ht|apply NoDup_singleton| |done].
      apply Forall_cons. split; [apply seven_typed|by apply Forall_nil].
    + exists a, {[1 := h]}. split_and!; [exact Hrep|by apply (demo_stores 4 a first)|done|done].
  - econstructor; [by eapply (star_answered _ first)|]. econstructor; [apply (seven_updated _ first rid); [done|cbn; rewrite Hfree; lia]|].
    econstructor; [by eapply (star_answered _ first d1 [(rid, bytes_of 8)])|]. econstructor; [by apply (eight_deleted _ first rid)|].
    econstructor; [by eapply (star_answered _ first _ [])|].
    econstructor; [by apply (answer_error true T ∅ _ _ "u" (RuntimeError "Table not found: u"))|constructor].
  - by repeat constructor.
  - by repeat constructor.
  - done.
  - done.
  - exists n. eapply wp_mono; [by apply (Hn n)|]. by intros [] st (Hsent & _).
Defined.
